(* ===== verification/_CoqProject ===== *)
-Q . S2P
Prelude.v
Utils.v
NetworkUtil.v
Protocol.v
NodeCommon.v
Node.v
ConnectionPool.v
AsioBuffers.v
AsioRead.v
AsioDynamicBuffers.v
AsioReadUntil.v
AsioWrite.v
AsioConnect.v
AsioQueue.v
AsioScheduler.v
AsioThreads.v
AsioTime.v
AsioReactor.v
AsioTimerQueue.v
AsioTimerSet.v
AsioAddress.v
AsioSocketOps.v
AsioSocketStream.v
AsioDescriptors.v
AsioReactorFds.v
AsioSocketService.v
AsioSocketObjects.v
AsioSocketSystem.v
AsioBasicSocket.v
ServerSockets.v
Concurrent.v
Timers.v
Scheduler.v
RaftActor.v
Fsm.v
ElectionSpec.v
ElectionFacts.v
FsmRefinement.v
Cluster.v
Overlap.v
Liveness.v
Stability.v
Wire.v
EndToEnd.v
Deployment.v
DeploymentRefinement.v
Locks.v
RaftFactory.v
Timing.v
