(* ===== verification/Prelude.v ===== *)
(** * Verification of the Raft leader-election library

    The library (src/include) elects one leader among a fixed group of servers
    by the election half of the Raft protocol.  A user builds a server with
    [RaftFactory], starts it, and reads its role and term or receives them in
    callbacks.  Inside a server

    - [RaftFSM] (fsm.hpp) is the state machine: role, term, vote, votes received
      and two timers, an election timeout and a heartbeat.  [handle] reacts to
      one event of another server;
    - [Scheduler] (scheduler.hpp) runs the timers on an executor thread, and
      [ScheduledTask] is the handle by which the state machine resets, pauses
      and cancels them;
    - [RemoteRaftActor] (raft_actor.hpp) sends the events of the state machine
      to the peers and hands the events it receives to [handle];
    - [RaftEventFactory] and [NetworkUtil] (protocol.hpp) turn events into bytes
      and back, [Message] (node_common.hpp) frames them;
    - [Client] and [ConnectionPool] (node.hpp, connection_pool.hpp) keep one TCP
      connection per peer; [Server] and [ServerConnection] (node.hpp) read
      frames, with the bundled asio doing the input and output;
    - [BlockingQueue] and [CountDownLatch] (concurrent.hpp) are free-standing.

    ** Files

    Prelude.v is this header and the generic part: the results of C++ code that
    can fault or throw, the monad [comp] of computations that emit effects and
    what such computations keep ([preserves]), the
    counting argument on quorums and the hint databases and tactics.

    - Utils.v (utils.hpp), NetworkUtil.v and Protocol.v (protocol.hpp),
      NodeCommon.v (node_common.hpp): bytes, events and frames.
      [encode_decode_roundtrip] and [roundtrip_iff_wire_safe] say which events
      survive the wire, [decode_outcomes] what each byte string decodes to.
    - Node.v (node.hpp) and ConnectionPool.v (connection_pool.hpp, [Client]):
      [connection_delivers_frames]: a server connection delivers exactly the
      messages of the complete frames; [connections_carry_frames]: every
      connection of a pool carries whole frames and at most one torn frame, at
      its end.
    - AsioBuffers.v, AsioRead.v, AsioWrite.v, AsioConnect.v, AsioQueue.v,
      AsioScheduler.v, AsioTime.v, AsioReactor.v, AsioTimerQueue.v,
      AsioTimerSet.v: the part of the bundled asio (src/include/external/asio)
      that those classes run on, see below.  AsioSocketOps.v are its system calls
      on sockets and AsioSocketStream.v the operations that receive, send,
      connect and accept; AsioDescriptors.v says what the calls do to descriptors;
      AsioSocketService.v are the socket objects, AsioSocketObjects.v what each
      call does to the object it is made on, and AsioSocketSystem.v programs with
      any number of them.  AsioAddress.v are addresses, end points and networks,
      AsioReactorFds.v the descriptors of the reactor itself, and AsioBasicSocket.v
      the classes of sockets and acceptors that users see, whose methods throw.
      AsioThreads.v is the event loop once more, run and called by any number of
      threads.  AsioDynamicBuffers.v are the buffers that grow while one reads into
      them, and AsioReadUntil.v reads into them until a delimiter is found; the
      library itself reads into buffers of a known size only.
    - ServerSockets.v joins Node.v to those classes: the handler of an accept with
      the sockets it moves ([accepted_descriptor_has_one_owner]).  A connection that
      is reset before the handler of its accept runs ends the event loop of the
      server: the exception is the one the socket layer computes.
    - Concurrent.v (concurrent.hpp): threads at program points, with the mutex
      and the condition variable explicit, and a change of the queue in two steps,
      so that the mutex matters.  [queue_is_fifo],
      [latch_opens_at_zero], and the lost wake-up of [clear].
    - Timers.v: the environment [Env] and the interface [TimerService].
      Scheduler.v (scheduler.hpp) implements it: [execute_due_tasks_calls] says
      which callables one round of the executor runs, [reset_replaces] and
      [max_calls_limits] are the contract of a task handle.
    - RaftActor.v (raft_actor.hpp), Fsm.v (fsm.hpp), RaftFactory.v
      (raft_factory.hpp): the server itself, over any [TimerService].
    - ElectionSpec.v is the abstract specification of the state machine, pure
      rules on a [Node] without a scheduler.  FsmRefinement.v proves that the
      methods of Fsm.v implement it ([handle_implements_rule],
      [interface_implements_rules]), so that ElectionFacts.v can reason on the
      rules alone ([vote_once_per_term]).
    - Cluster.v composes servers, their threads and a network.  [election_safety]:
      two leaders of one term are the same server, at whatever two moments of an
      execution; [leader_has_majority], [terms_and_votes_grow];
      [heartbeats_come_from_leaders]: who can have sent a heartbeat, and
      [deposed_leader_sends_heartbeat]: not only the leader of its term; [no_action_faults]: no action of a reachable state
      is undefined.  [restart_breaks_election_safety] and
      [three_simultaneous_leaders] delimit them.  Overlap.v interrupts handlers by
      public calls: [programs_run_methods] and
      [overlapping_calls_break_election_safety].  Liveness.v:
      [election_can_succeed] from every reachable state.  Stability.v:
      [leader_is_stable], while no other server handles an election timeout.
    - Timing.v joins the state machine with the executor of Scheduler.v and the
      clock.  [round_fires]: the callables that Cluster.v lets begin by [Fire] at any
      time are, in a round of the executor, those of the timers that are due, and no
      others;
      [timely_heartbeats_keep_follower] and [silence_starts_election] are what the
      election timeout is for.
    - Wire.v joins the state machines by the bytes between them
      ([events_cross_the_wire], [unsafe_term_cannot_be_won]).  EndToEnd.v joins
      RaftActor.v, ConnectionPool.v, the sockets of asio and Node.v:
      [handled_events_were_sent] over any network and
      [healthy_network_delivers_all] over one on which nothing fails.
    - Deployment.v puts the servers of Cluster.v on these parts: processes with
      their actors and pools, connections that are accepted and read frame by
      frame, dials, writes and reads that fail, processes that die.
      DeploymentRefinement.v shows that the network of Cluster.v, which may lose,
      delay, reorder and repeat what was sent, allows all that this path can do
      ([deployment_refines_cluster]), so that [deployed_election_safety] holds down
      to the bytes.  Their hypotheses are valid options, distinct addresses, ids that
      survive the wire, fewer than 2^64 - 1 moves, and [terms_survive]: every term a
      server has had survives the wire.  With unsigned [char] all terms do; with
      signed [char] those below 2^15 do and some above do not
      ([roundtrip_iff_wire_safe]), so that there the guarantee ends with the first
      such term.  [no_process_terminates]: no exception or null pointer ends a
      process, unless a port cannot be bound, the resolver throws, a peer is gone
      when its accept handler runs, the user stops a server that was never started,
      a term does not survive the wire, or a timeout is handled before [start] has
      made the client, which [timeout_before_client_terminates] shows to happen.
    - Locks.v: the mutexes each method acquires, computed from its model; who
      can deadlock with whom.

    ** How state and code correspond

    A class is a record of the members that change, with the names of the code
    where Rocq allows them; members that never change are parameters.  A method
    is a definition of the same name.  Machine integers are [Z] with the wrap
    around written out at the places where the code computes them.  A C++
    operation whose result the standard leaves undefined (a null pointer, an
    index out of bounds, a division by zero, [top] of an empty queue) and an
    exception are values of [result] ([Err (Fault _)], [Err (Throws _)]), so
    that the absence of faults is a theorem and not an assumption.  What a
    method does to its surroundings (messages to send, callbacks called) is the
    list of effects it emits, in order.

    ** Interfaces

    - [Env]: the readings of the clock, the results of [rand], and the orders
      the standard library leaves open, as streams; [EnvOk] is what the
      standards promise.
    - [Platform]: byte order and signedness of [char], any of the four.
    - [TimerOps], [TimerService]: Scheduler.v to Fsm.v; every theorem on the
      state machine and on groups of servers is proved against it and its
      witness uses the scheduler.
    - [AsyncRead], [AsyncReadOk]: asio to Node.v; discharged by AsioRead.v.
      [SyncReadStream] and its laws: a socket to AsioRead.v.
    - [Network], [NetworkOk]: asio to ConnectionPool.v; that a failed write has
      written a proper prefix is what AsioWrite.v proves of [write].
    - [Consuming], [ConsumingOk]: the three versions of [consuming_buffers] to
      the read and write operations.
    - [DynamicBuffer], [DynamicBufferOk]: strings and stream buffers to the
      operations that read into them; [Container], [ContainerOk]: how the standard
      library reallocates.  [SearchOk]: what a search promises, proved of the
      characters and strings and asked of the user's match conditions.
    - [TimerQueueSet], [TimerQueueSetOk]: the timer queues to the reactor;
      discharged by AsioTimerSet.v ([steady_timers_ok]).
    - [FdKernel], [FdKernelOk]: the calls by which the reactor makes and closes its
      own descriptors, and what Linux documents of them.
    - [Kernel]: a system call as a function of the kernel's state.  What Linux
      documents of it are classes of their own: [PatientKernel] (it does not ask
      for another try for ever), [DescriptorKernel] (which calls open, close and
      switch descriptors), [StreamKernel] (a connected socket carries a stream of
      bytes), [Uninterrupted] (no signals).  AsioSocketStream.v discharges
      [SyncReadStream] and its laws from them.

    ** Concurrency

    In Cluster.v and Deployment.v a step is a piece of code that holds a mutex or
    reads the shared members once.  [handle] runs under [handler_mtx_] and is one
    step.  The executor runs one callable at a time: it takes a due one ([Fire]);
    then, if it is the election timeout, handles it under [handler_mtx_] ([Expire]);
    or, if it is the heartbeat, sends to one peer after the other, without that
    mutex and reading the term anew for each, a step per peer ([Beat]), with the
    steps of all other threads in between.  [start] is two steps, the one that arms
    the timer ([CallStart]) and the one that makes and starts the actor ([OpenActor]).
    A public call is one step: calls of [stay_follower] and [block], which take no
    mutex, are assumed not to overlap a handler of their server or each other.
    Overlap.v takes the assumption away and shows that election safety goes with it.
    The getters read one member and change nothing.  A send is a part of the step
    that asks for it, since the client writes synchronously; two threads that write
    to one socket at once are not modelled.  Locks.v looks at the same methods lock
    by lock.  Concurrent.v, AsioThreads.v and
    Cluster.v interleave threads and servers in every order.  In AsioThreads.v a
    step is a section under the mutex of the scheduler, one access to its count of
    work, one signal, or the return of the reactor; a thread may wake up
    spuriously and a signal may come too early.  [queue_is_served] is that no
    wake-up is lost, [stop_reaches_every_thread] that a stop ends every [run],
    [threads_execute_each_once] that no handler is lost or run twice, and
    [one_thread_in_the_reactor] that the task is never in two places.

    ** Bounds and fuel

    Recursion is structural in the data where the code walks a list.  A callback
    of the user may call the public interface, which may call callbacks:
    [callback_depth] bounds the depth by 2, and [callbacks_terminate] proves
    that no nesting is deeper, so that the bound cuts nothing off.  The loops of
    asio are bounded by the bytes, end points, operations or elements left; each
    has a theorem that the bound is enough, either by an unconditional result
    or by an equation with the specification.

    ** asio

    asio is vendored; the part the library runs on is modelled to close the
    interfaces above.  [connection_over_sockets] joins Node.v to [async_read] and
    that to the sockets: the messages of the complete frames are delivered in
    whatever pieces the kernel moves the bytes, and however often it makes the
    reactor wait.  [socket_reads_agree] relates a blocking read of a socket to an
    asynchronous one, [sync_calls_honour_mode] says when a synchronous receive
    may wait, and [non_blocking_accept_can_wait] is an accept that waits
    although it must not.  [reads_fill_buffers] and [writes_drain_buffers] are the
    contracts of the composed operations for every kind of buffer sequence,
    [read_until_is_one_search] and [read_dynamic_appends] those of the reads into
    dynamic buffers; [length_error_damages_the_data], [consume_moves_back] and
    [oversized_buffer_with_match] are where these break what they promise;
    [async_connect_agrees] relates the asynchronous connect to the synchronous
    one; [op_queue_is_list] that the intrusive queue of operations is a list;
    [io_executes_each_once] and [io_run_drains] that the event loop runs every
    handler once and in order.  Of the reactor, [outstanding_work_is_exact] says
    that the work the scheduler counts is the operations that wait, so that
    [run] neither returns early nor waits for nothing, and
    [completions_in_order] that the operations of one descriptor and direction
    finish in the order they started.  A timer queue is a heap of deadlines and
    an intrusive list of timers that name each other's places;
    [timers_expire_in_order]: whatever was scheduled, cancelled and waited for
    before, the operations of the due timers, and no others, are released by
    rising deadline.  [time_arithmetic_saturates] is the clock arithmetic below
    it.  [move_can_lose_a_wait] is the exception: a timer moved onto a pending
    one; elsewhere the timer that is moved has to be pending.  A socket object is
    a descriptor, flags and data in the reactor: [sockets_own_their_descriptors]
    says of every program that each open descriptor has one owner, that the flags
    tell the truth about its mode and that no permitted call faults;
    [operations_on_non_blocking_descriptors] that the thread of the event loop is
    never blocked by an operation.  [failed_registration_leaks_data] is what
    remains of an object the reactor refuses.  The methods of the socket classes
    throw where these calls report an error: [methods_keep_descriptors] says that no
    program loses a descriptor by what is thrown, [acceptor_opens_or_leaves_nothing]
    which system calls a listening acceptor makes and that a constructor that throws
    leaves nothing behind, [accept_gives_or_closes] the same of a synchronous accept.
    [reactor_owns_its_descriptors] is the contract of the reactor's own descriptors
    across forks; [regular_file_breaks_fork] is where a fork does not work.
    [endpoint_roundtrip], [endpoint_order], [mask_roundtrip] and
    [subnet_is_inclusion] are about addresses.  The kernel (system calls, epoll) and
    the resolver are arguments.

    ** What is not modelled

    Text written to the log, exceptions thrown by handlers of the user, memory
    exhaustion, destruction of objects in use by another thread, and the data
    races on members read without a mutex beyond what Locks.v says of locks.
    Of asio: datagrams ([sendto], [recvfrom], [recvmsg] with flags), the text of
    addresses, reads until a regular expression, [select], strands, SSL, serial
    ports, signals, handler tracking, an error that [close] reports for an open
    socket (Linux gives the descriptor back all the same), and the other operating
    systems.  In AsioThreads.v a handler does not call [run] again, and
    [poll], [restart] and [shutdown] are left to AsioScheduler.v.  The tests and examples
    only call the library. *)
From Stdlib Require Import ZArith Lia.
From Stdlib Require Export Sorting.Sorted.
From stdpp Require Export base tactics option list gmap fin_maps strings numbers relations.

#[global] Set Default Goal Selector "!".

Declare Scope raft_scope.
Delimit Scope raft_scope with raft.

(** ** Faults and fallible results *)

(** What can go wrong when the modelled C++ code runs. *)
Inductive fault :=
| UndefinedBehaviour (what : string)
| AssertionFailure (what : string)
| InvalidArgument (what : string)
| LengthError (what : string)
| SystemError (what : string)
| OutOfFuel.

Inductive result (A : Type) :=
| Ok (a : A)
| Err (f : fault).
Arguments Ok {A} a.
Arguments Err {A} f.

#[global] Instance fault_eq_dec : EqDecision fault.
Proof. solve_decision. Defined.

#[global] Instance result_eq_dec `{EqDecision A} : EqDecision (result A).
Proof. solve_decision. Defined.

#[global] Instance result_ret : MRet result := @Ok.
#[global] Instance result_bind : MBind result := fun A B f r =>
  match r with
  | Ok a => f a
  | Err e => Err e
  end.
#[global] Instance result_fmap : FMap result := fun A B f r =>
  match r with
  | Ok a => Ok (f a)
  | Err e => Err e
  end.

(** The C++ [assert] macro, in a build that does not define [NDEBUG]. *)
Definition assert_that (b : bool) (what : string) : result unit :=
  if b then Ok tt else Err (AssertionFailure what).

(** An access the language leaves undefined when [b] is false. *)
Definition defined_when (b : bool) (what : string) : result unit :=
  if b then Ok tt else Err (UndefinedBehaviour what).

(** ** Machine integers *)

(** Conversion to an unsigned type of [w] bits. *)
Definition wrap (w z : Z) : Z := z mod 2 ^ w.

(** The values of an unsigned type of [w] bits. *)
Definition in_range (w z : Z) : Prop := (0 <= z < 2 ^ w)%Z.

#[global] Instance in_range_dec w z : Decision (in_range w z).
Proof. unfold in_range. apply _. Defined.

Abbreviation u64 := (wrap 64).
Abbreviation uint64_max := (2 ^ 64 - 1)%Z.

(** Conversion to [int]. *)
Definition to_int (z : Z) : Z := (wrap 32 (z + 2 ^ 31) - 2 ^ 31)%Z.

Lemma to_int_small z : (0 <= z < 2 ^ 31)%Z -> to_int z = z.
Proof. intros Hz. unfold to_int, wrap. rewrite Z.mod_small by lia. lia. Qed.

(** Signed [int] arithmetic: a result outside the 32-bit range is undefined. *)
Definition int_arith (z : Z) : result Z :=
  _ ← defined_when (bool_decide (- 2 ^ 31 <= z < 2 ^ 31)%Z) "signed overflow"; Ok z.

(** ** Computations with state, emitted effects and faults *)

(** [comp S E A] reads and writes a state [S], emits effects [E] in order and
    returns an [A] or stops with a fault, keeping what it did before. *)
Definition comp (S E A : Type) : Type := S -> list E * S * result A.

#[global] Instance comp_ret {S E} : MRet (comp S E) := fun A a s => ([], s, Ok a).
#[global] Instance comp_bind {S E} : MBind (comp S E) := fun A B f m s =>
  let '(es, s1, r) := m s in
  match r with
  | Ok a => let '(es', s2, r') := f a s1 in (es ++ es', s2, r')
  | Err e => (es, s1, Err e)
  end.

Definition get_state {S E} : comp S E S := fun s => ([], s, Ok s).
Definition gets {S E A} (f : S -> A) : comp S E A := fun s => ([], s, Ok (f s)).
Definition modify {S E} (f : S -> S) : comp S E unit := fun s => ([], f s, Ok tt).
Definition emit {S E} (e : E) : comp S E unit := fun s => ([e], s, Ok tt).
Definition fail_with {S E A} (f : fault) : comp S E A := fun s => ([], s, Err f).
Definition lift {S E A} (r : result A) : comp S E A := fun s => ([], s, r).
Definition when {S E} (b : bool) (m : comp S E unit) : comp S E unit :=
  if b then m else mret tt.

Fixpoint for_each {S E A} (f : A -> comp S E unit) (l : list A) : comp S E unit :=
  match l with
  | [] => mret tt
  | x :: l => f x ;; for_each f l
  end.

(** ** Running computations *)

(** Prefix the effects of an outcome. *)
Definition after {S E A} (es : list E) (o : list E * S * result A) : list E * S * result A :=
  let '(es', s, r) := o in (es ++ es', s, r).

Section running.
Context {S E : Type}.
Implicit Types (s : S) (e : E).

Lemma after_nil {A} (o : list E * S * result A) : after [] o = o.
Proof. by destruct o as [[??]?]. Qed.

Lemma after_after {A} es es' (o : list E * S * result A) :
  after es (after es' o) = after (es ++ es') o.
Proof. destruct o as [[??]?]. simpl. by rewrite (assoc_L (++)). Qed.

Lemma run_bind_ok {A B} (m : comp S E A) (f : A -> comp S E B) s es s' a :
  m s = (es, s', Ok a) -> (m ≫= f) s = after es (f a s').
Proof. intros Hm. unfold mbind, comp_bind. by rewrite Hm. Qed.

Lemma run_bind_err {A B} (m : comp S E A) (f : A -> comp S E B) s es s' err :
  m s = (es, s', Err err) -> (m ≫= f) s = (es, s', Err err).
Proof. intros Hm. unfold mbind, comp_bind. by rewrite Hm. Qed.

Lemma run_bind_bind {A B D} (m : comp S E A) (f : A -> comp S E B) (g : B -> comp S E D) s :
  ((m ≫= f) ≫= g) s = (m ≫= (fun a => f a ≫= g)) s.
Proof.
  unfold mbind, comp_bind. destruct (m s) as [[es s1] [a|err]]; [|done].
  destruct (f a s1) as [[es' s2] [b|err]]; [|done].
  destruct (g b s2) as [[es'' s3] r]. by rewrite (assoc_L (++)).
Qed.

Lemma run_get {A} (f : S -> comp S E A) s : (get_state ≫= f) s = f s s.
Proof. by erewrite run_bind_ok, after_nil by reflexivity. Qed.

Lemma run_gets {A B} (g : S -> A) (f : A -> comp S E B) s : (gets g ≫= f) s = f (g s) s.
Proof. by erewrite run_bind_ok, after_nil by reflexivity. Qed.

Lemma run_modify {A} g (f : unit -> comp S E A) s : (modify g ≫= f) s = f tt (g s).
Proof. by erewrite run_bind_ok, after_nil by reflexivity. Qed.

Lemma run_ret {A B} a (f : A -> comp S E B) s : (mret a ≫= f) s = f a s.
Proof. by erewrite run_bind_ok, after_nil by reflexivity. Qed.

Lemma run_lift {A B} a (f : A -> comp S E B) s : (lift (Ok a) ≫= f) s = f a s.
Proof. by erewrite run_bind_ok, after_nil by reflexivity. Qed.

Lemma run_lift_err {A B} err (f : A -> comp S E B) s :
  (lift (Err err) ≫= f) s = ([], s, Err err).
Proof. done. Qed.

Lemma run_fail {A B} err (f : A -> comp S E B) s :
  (fail_with err ≫= f) s = ([], s, Err err).
Proof. done. Qed.

Lemma run_emit {A} e (f : unit -> comp S E A) s : (emit e ≫= f) s = after [e] (f tt s).
Proof. done. Qed.

Lemma run_for_each_app {A} (f : A -> comp S E unit) l l' s :
  for_each f (l ++ l') s = (for_each f l ;; for_each f l') s.
Proof.
  revert s. induction l as [|x l IH]; intros s; [cbn; by rewrite run_ret|]. cbn [app for_each].
  rewrite run_bind_bind. unfold mbind, comp_bind. destruct (f x s) as [[es s1] [[]|err]]; [|done].
  rewrite IH. unfold mbind, comp_bind. done.
Qed.

End running.

Create Rewrite HintDb comp.
#[export] Hint Rewrite @run_bind_bind @run_get @run_gets @run_modify @run_ret @run_lift
  @run_lift_err @run_fail @run_emit @after_nil : comp.

(** Run the computation at the head of the goal as far as it goes. *)
Ltac run := repeat (autorewrite with comp; cbn beta iota zeta delta [when negb andb orb fst snd]).

(** ** What computations keep

    A relation between the state before and after a computation, whatever its
    outcome is. *)

Section preserves.
Context {S E : Type} (R : S -> S -> Prop) `{!PreOrder R}.

Definition preserves {A} (m : comp S E A) : Prop := forall s, R s (m s).1.2.

Lemma preserves_bind {A B} (m : comp S E A) (f : A -> comp S E B) :
  preserves m -> (forall a, preserves (f a)) -> preserves (m ≫= f).
Proof.
  intros Hm Hf s. unfold mbind, comp_bind. specialize (Hm s). destruct (m s) as [[es s1] [a|err]]; [|done].
  specialize (Hf a s1). destruct (f a s1) as [[es' s2] r]. cbn in *. by etrans.
Qed.

Lemma preserves_ret {A} (a : A) : preserves (mret a : comp S E A).
Proof. intros s. by cbn. Qed.

Lemma preserves_get {A} (f : S -> comp S E A) : (forall s, preserves (f s)) -> preserves (get_state ≫= f).
Proof. intros Hf. apply preserves_bind; [|done]. intros s. by cbn. Qed.

Lemma preserves_lift {A} (r : result A) : preserves (lift r : comp S E A).
Proof. intros s. by cbn. Qed.

Lemma preserves_emit (e : E) : preserves (emit e).
Proof. intros s. by cbn. Qed.

Lemma preserves_fail {A} f : preserves (fail_with f : comp S E A).
Proof. intros s. by cbn. Qed.

Lemma preserves_modify g : (forall s, R s (g s)) -> preserves (modify g).
Proof. intros Hg s. apply Hg. Qed.

Lemma preserves_when b (m : comp S E unit) : preserves m -> preserves (when b m).
Proof. intros Hm. destruct b; [done|apply preserves_ret]. Qed.

Lemma preserves_for_each {A} (f : A -> comp S E unit) l : (forall x, preserves (f x)) -> preserves (for_each f l).
Proof. intros Hf. induction l; [apply preserves_ret|by apply preserves_bind]. Qed.
End preserves.

(** Walks through a computation; [tac] ends it at the methods that have a lemma. *)
Ltac preserve tac :=
  intros; repeat (cbv zeta; first
    [ solve [tac]
    | apply preserves_get; [apply _|intros ?]
    | apply preserves_bind; [apply _| |intros ?]
    | apply preserves_ret; apply _ | apply preserves_lift; apply _
    | apply preserves_emit; apply _ | apply preserves_fail; apply _
    | apply preserves_when; [apply _|]
    | apply preserves_for_each; [apply _|intros ?]
    | apply preserves_modify; intros ?
    | match goal with |- preserves _ (match ?x with _ => _ end) => destruct x end ]).

(** ** Integer lemmas *)

Section integers.
Local Open Scope Z_scope.

Lemma wrap_small w z : in_range w z -> wrap w z = z.
Proof. intros. by apply Z.mod_small. Qed.

Lemma wrap_range w z : 0 <= w -> in_range w (wrap w z).
Proof. intros. apply Z.mod_pos_bound. by apply Z.pow_pos_nonneg. Qed.

Lemma u64_range z : in_range 64 (u64 z).
Proof. by apply wrap_range. Qed.

Lemma u64_succ z : 0 <= z < uint64_max -> u64 (z + 1) = z + 1.
Proof. intros. apply wrap_small. unfold in_range. lia. Qed.

(** The byte of weight [256 ^ i]. *)
Definition byte_of (h : Z) (i : Z) : Z := Z.land (Z.shiftr h (8 * i)) 255.

Lemma land_255_range z : 0 <= Z.land z 255 < 256.
Proof.
  change 255 with (Z.ones 8). rewrite Z.land_ones by lia.
  by apply Z.mod_pos_bound.
Qed.

Lemma byte_of_range h i : 0 <= byte_of h i < 256.
Proof. apply land_255_range. Qed.

Lemma land_255_testbit z j :
  0 <= j -> Z.testbit (Z.land z 255) j = Z.testbit z j && (j <? 8).
Proof.
  intros. change 255 with (Z.ones 8). rewrite Z.land_spec.
  destruct (Z.ltb_spec j 8).
  - by rewrite Z.ones_spec_low.
  - by rewrite Z.ones_spec_high.
Qed.

Lemma byte_of_testbit h i j :
  0 <= i -> 0 <= j -> Z.testbit (byte_of h i) j = Z.testbit h (8 * i + j) && (j <? 8).
Proof.
  intros. unfold byte_of. rewrite land_255_testbit, Z.shiftr_spec by lia.
  do 2 f_equal. lia.
Qed.

Lemma testbit_above w z i : in_range w z -> 0 <= w <= i -> Z.testbit z i = false.
Proof.
  intros Hz Hi. rewrite <- (Z.mod_small z (2 ^ w)) by apply Hz.
  by apply Z.mod_pow2_bits_high.
Qed.

Lemma wrap_testbit w z i :
  0 <= w -> 0 <= i -> Z.testbit (wrap w z) i = Z.testbit z i && (i <? w).
Proof.
  intros. unfold wrap. destruct (Z.ltb_spec i w).
  - rewrite Z.mod_pow2_bits_low by lia. by rewrite andb_true_r.
  - rewrite Z.mod_pow2_bits_high by lia. by rewrite andb_false_r.
Qed.

Lemma bits_in_range w z : 0 <= w -> 0 <= z -> (forall i, w <= i -> Z.testbit z i = false) -> in_range w z.
Proof.
  intros Hw Hz Hbits. enough (z = wrap w z) as -> by by apply wrap_range. symmetry. apply Z.bits_inj'.
  intros i Hi. rewrite wrap_testbit by done. destruct (Z.ltb_spec i w); [by rewrite andb_true_r|].
  by rewrite Hbits by done.
Qed.

(** Setting and clearing flags stays within the type. *)
Lemma in_range_lor w x y : 0 <= w -> in_range w x -> in_range w y -> in_range w (Z.lor x y).
Proof.
  intros Hw Hx Hy. apply bits_in_range; [done|apply Z.lor_nonneg; unfold in_range in *; lia|]. intros i Hi.
  by rewrite Z.lor_spec, (testbit_above w x), (testbit_above w y) by (done || lia).
Qed.

Lemma in_range_ldiff w x y : 0 <= w -> in_range w x -> in_range w (Z.ldiff x y).
Proof.
  intros Hw Hx. apply bits_in_range; [done|apply Z.ldiff_nonneg; unfold in_range in *; lia|]. intros i Hi.
  by rewrite Z.ldiff_spec, (testbit_above w x) by (done || lia).
Qed.

(** Two numbers of the same width with the same bytes are equal. *)
Lemma byte_of_inj n x y :
  0 <= n -> in_range (8 * n) x -> in_range (8 * n) y ->
  (forall i, 0 <= i < n -> byte_of x i = byte_of y i) -> x = y.
Proof.
  intros Hn Hx Hy Hb. apply Z.bits_inj'. intros k Hk.
  destruct (decide (k < 8 * n)).
  - assert (0 <= k / 8 < n) as Hkn by (split; [by apply Z.div_pos|apply Z.div_lt_upper_bound; lia]).
    specialize (Hb _ Hkn).
    apply (f_equal (fun b => Z.testbit b (k mod 8))) in Hb.
    pose proof (Z.mod_pos_bound k 8 ltac:(lia)).
    rewrite !byte_of_testbit in Hb by lia.
    rewrite <- Z.div_mod in Hb by lia.
    assert ((k mod 8 <? 8) = true) as Hlt by lia.
    by rewrite Hlt, !andb_true_r in Hb.
  - by rewrite !(testbit_above (8 * n)) by (done || lia).
Qed.
End integers.

(** ** Sets *)

(** Two sets that are together larger than a set containing both meet. *)
Lemma quorum_meet `{Countable A} (X P Q : gset A) :
  P ⊆ X -> Q ⊆ X -> size X < size P + size Q -> exists a, a ∈ P /\ a ∈ Q.
Proof.
  intros HP HQ Hsz. destruct (decide (P ∩ Q = ∅)) as [He|Hne].
  - assert (P ## Q) as Hd by set_solver.
    apply size_union in Hd.
    assert (size (P ∪ Q) <= size X) by (apply subseteq_size; set_solver). lia.
  - apply set_choose_L in Hne as [a Ha]. exists a. set_solver.
Qed.

(** ** Automation *)

Create HintDb raft.
Create Rewrite HintDb raft.
#[export] Hint Resolve u64_range byte_of_range land_255_range : raft.

(** Split on the booleans a [when] or an [if] of the code tests. *)
Ltac split_ifs :=
  repeat match goal with
  | |- context [if ?b then _ else _] => destruct b eqn:?
  end.

(** A boolean search that can succeed at one place only. *)
Lemma existsb_unique {A} (f : A -> bool) (l : list A) (x : A) :
  x ∈ l -> (forall y, y ∈ l -> y <> x -> f y = false) -> existsb f l = f x.
Proof.
  intros Hx Hy. destruct (f x) eqn:Hf.
  - apply existsb_exists. exists x. by rewrite <- list_elem_of_In.
  - destruct (existsb f l) eqn:He; [|done].
    apply existsb_exists in He as (y & Hin & Hfy). apply list_elem_of_In in Hin.
    destruct (f y) eqn:Hfy'; [|done].
    destruct (Hy y Hin); [|congruence]. intros ->. congruence.
Qed.

(** Sortedness only depends on the order between elements of the list. *)
Lemma StronglySorted_impl {A} (R R' : A -> A -> Prop) (l : list A) :
  (forall x y, x ∈ l -> y ∈ l -> R x y -> R' x y) -> StronglySorted R l -> StronglySorted R' l.
Proof.
  intros HR Hl. induction Hl as [|x l Hl IH Hall]; constructor.
  - apply IH. intros y z Hy Hz. apply HR; by right.
  - rewrite Forall_forall in Hall |- *. intros y Hy. apply HR; [left|by right|by apply Hall].
Qed.

Lemma list_filter_iff_in {A} (P Q : A -> Prop) `{!forall x, Decision (P x), !forall x, Decision (Q x)}
    (l : list A) :
  (forall x, x ∈ l -> P x <-> Q x) -> filter P l = filter Q l.
Proof.
  induction l as [|x l IH]; [done|]. intros HPQ.
  assert (filter P l = filter Q l) as Hl by (apply IH; intros; apply HPQ; by right).
  destruct (decide (P x)) as [HP|HP].
  - rewrite !filter_cons_True; [by rewrite Hl| |done]. apply HPQ; [left|done].
  - rewrite !filter_cons_False; [done| |done]. intros HQ. apply HP, HPQ; [left|done].
Qed.

Lemma omap_ext_in {A B} (f g : A -> option B) (l : list A) :
  (forall x, x ∈ l -> f x = g x) -> omap f l = omap g l.
Proof.
  induction l as [|x l IH]; [done|]. intros Hfg. cbn.
  rewrite (Hfg x) by left. rewrite IH; [done|]. intros. apply Hfg. by right.
Qed.

Lemma list_filter_none {A} (P : A -> Prop) `{!forall x, Decision (P x)} (l : list A) :
  (forall x, x ∈ l -> ~ P x) -> filter P l = [].
Proof.
  intros HP. destruct (filter P l) as [|x l'] eqn:Hl; [done|].
  assert (x ∈ filter P l) as Hx by (rewrite Hl; left).
  apply list_elem_of_filter in Hx as [HPx Hx]. by destruct (HP x Hx).
Qed.

Lemma list_filter_all {A} (P : A -> Prop) `{!forall x, Decision (P x)} (l : list A) :
  (forall x, x ∈ l -> P x) -> filter P l = l.
Proof.
  induction l as [|x l IH]; [done|]. intros HP. rewrite filter_cons_True by (apply HP; left).
  rewrite IH; [done|]. intros y Hy. apply HP. by right.
Qed.

Lemma length_pos {A} (l : list A) : l <> [] -> (0 < length l)%nat.
Proof. destruct l; simpl; [done|lia]. Qed.

Lemma list_choose {A} (l : list A) : l <> [] -> exists x, x ∈ l.
Proof. destruct l as [|x l]; [done|]. exists x. left. Qed.

(** ** Counting the entries of a map *)

Definition count_if {A} (f : A -> bool) (m : gmap nat A) : nat :=
  size (filter (fun kv => f kv.2 = true) m).

Lemma count_if_fresh {A} (f : A -> bool) m i x :
  m !! i = None -> count_if f (<[i := x]> m) = Nat.b2n (f x) + count_if f m.
Proof.
  intros Hi. unfold count_if. destruct (f x) eqn:Hf.
  - rewrite map_filter_insert_True by done. rewrite map_size_insert_None; [done|].
    apply map_lookup_filter_None_2. by left.
  - rewrite map_filter_insert_not'; [done|by simpl; rewrite Hf|].
    intros y Hy. congruence.
Qed.

(** Replacing an entry changes the count by what it and its successor weigh. *)
Lemma count_if_insert {A} (f : A -> bool) m i x y :
  m !! i = Some x -> count_if f (<[i := y]> m) + Nat.b2n (f x) = count_if f m + Nat.b2n (f y).
Proof.
  intros Hx. rewrite <- (insert_delete_id m i x Hx) at 2.
  rewrite <- insert_delete_eq.
  rewrite !count_if_fresh by apply lookup_delete_eq. lia.
Qed.

Lemma count_if_pos {A} (f : A -> bool) m : count_if f m <> 0 -> exists i x, m !! i = Some x /\ f x = true.
Proof.
  intros Hne. unfold count_if in Hne.
  destruct (map_choose (filter (fun kv => f kv.2 = true) m)) as (i & x & Hix).
  { intros He. by rewrite He, map_size_empty in Hne. }
  apply map_lookup_filter_Some in Hix as [? ?]. by exists i, x.
Qed.

Lemma count_if_fmap {A} (f : A -> bool) (g : A -> A) (m : gmap nat A) :
  (forall x, f (g x) = f x) -> count_if f (g <$> m) = count_if f m.
Proof.
  intros Hfg. unfold count_if. rewrite map_filter_fmap, map_size_fmap. f_equal.
  apply map_filter_ext. intros i x _. simpl. by rewrite Hfg.
Qed.

(** ** Collecting what the entries of a map hold *)

Definition gather {A B} (f : A -> list B) (m : gmap nat A) : list B := (map_to_list m).*2 ≫= f.

Lemma gather_fresh {A B} (f : A -> list B) m i x :
  m !! i = None -> gather f (<[i := x]> m) ≡ₚ f x ++ gather f m.
Proof. intros. unfold gather. by rewrite map_to_list_insert. Qed.

Lemma gather_lookup {A B} (f : A -> list B) m i x :
  m !! i = Some x -> gather f m ≡ₚ f x ++ gather f (delete i m).
Proof. intros Hi. rewrite <- gather_fresh by apply lookup_delete_eq. by rewrite insert_delete_id. Qed.

Lemma gather_set {A B} (f : A -> list B) m i x : gather f (<[i := x]> m) ≡ₚ f x ++ gather f (delete i m).
Proof. rewrite <- insert_delete_eq. by rewrite gather_fresh by apply lookup_delete_eq. Qed.

Lemma gather_elem {A B} (f : A -> list B) m i x b : m !! i = Some x -> b ∈ f x -> b ∈ gather f m.
Proof. intros Hi Hb. rewrite gather_lookup by done. apply elem_of_app. by left. Qed.

Lemma gather_fmap {A B} (f : A -> list B) (g : A -> A) (m : gmap nat A) :
  (forall x, f (g x) = f x) -> gather f (g <$> m) = gather f m.
Proof.
  intros Hfg. unfold gather. rewrite map_to_list_fmap. induction (map_to_list m) as [|[i x] l IH]; [done|].
  cbn. by rewrite Hfg, IH.
Qed.

(** Replacing an entry exchanges what it holds. *)
Lemma gather_insert {A B} (f : A -> list B) m i x y :
  m !! i = Some x -> gather f (<[i := y]> m) ++ f x ≡ₚ gather f m ++ f y.
Proof.
  intros Hi. rewrite <- (insert_delete_id m i x Hi) at 2. rewrite <- insert_delete_eq.
  rewrite !gather_fresh by apply lookup_delete_eq. solve_Permutation.
Qed.
