(* ===== verification/Utils.v ===== *)
(** * utils.hpp: byte vectors

    [std_move] is the three-iterator [std::move] the serialisation code uses
    to fill vectors it has just sized; [concat] is [DataUtils::concat]. *)
From S2P Require Import Prelude.

(** [std::move (src.begin (), src.end (), dst.begin () + off)]: writing past
    the end of [dst] is undefined. *)
Definition std_move {A} (src : list A) (dst : list A) (off : nat) : result (list A) :=
  _ ← defined_when (bool_decide (off + length src <= length dst)) "std::move past the end";
  Ok (take off dst ++ src ++ drop (off + length src) dst).

Module DataUtils.

Definition concat (a b : list Z) : result (list Z) :=
  let c := replicate (length a + length b) 0%Z in
  c ← std_move a c 0;
  std_move b c (length a).

End DataUtils.

(** A value-initialised vector filled by consecutive moves is their append. *)
Lemma std_move_fill {A} (src pre rest : list A) :
  length src <= length rest ->
  std_move src (pre ++ rest) (length pre) = Ok (pre ++ src ++ drop (length src) rest).
Proof.
  intros Hle. unfold std_move. rewrite bool_decide_eq_true_2 by (rewrite length_app; lia).
  simpl. rewrite take_app_length. do 3 f_equal.
  rewrite <- drop_drop, drop_app_length. done.
Qed.

(** Filling a vector of the right length from its start. *)
Lemma std_move_fresh {A} (x : A) (src : list A) n :
  n = length src -> std_move src (replicate n x) 0 = Ok src.
Proof.
  intros ->. pose proof (std_move_fill src [] (replicate (length src) x)) as Hfill.
  cbn [app length] in Hfill. rewrite Hfill by (rewrite length_replicate; lia).
  by rewrite drop_replicate, Nat.sub_diag, app_nil_r.
Qed.

Lemma std_move_two {A} (x : A) (a b : list A) :
  (c ← std_move a (replicate (length a + length b) x) 0; std_move b c (length a))
  = Ok (a ++ b).
Proof.
  pose proof (std_move_fill a [] (replicate (length a + length b) x)) as Hfill.
  simpl in Hfill. rewrite Hfill by (rewrite length_replicate; lia).
  cbn [mbind result_bind]. rewrite drop_replicate. simpl.
  replace (length a + length b - length a) with (length b) by lia.
  rewrite std_move_fill by (rewrite length_replicate; lia).
  rewrite drop_replicate, Nat.sub_diag. simpl. by rewrite app_nil_r.
Qed.

Lemma concat_app a b : DataUtils.concat a b = Ok (a ++ b).
Proof. apply std_move_two. Qed.

#[export] Hint Rewrite @std_move_two concat_app : raft.
