(* ===== verification/NetworkUtil.v ===== *)
(** * protocol.hpp, NetworkUtil: integers to and from byte arrays

    The functions of [class NetworkUtil], for the types the protocol
    instantiates them at.  A [char] is its bit pattern, a number of 0..255;
    reading it as a number depends on whether [char] is signed, and
    [is_big_endian] depends on the byte order: both are fields of [Platform]. *)
From S2P Require Import Prelude.
Local Open Scope Z_scope.

Record Platform := {
  plat_big_endian : bool;   (* the byte order of the machine *)
  plat_char_signed : bool;  (* whether plain [char] is signed *)
}.

(** The template arguments: [uint16_t], [uint32_t], [uint64_t] and [bool]. *)
Inductive WireType := U16 | U32 | U64 | Bool.

#[global] Instance WireType_eq_dec : EqDecision WireType.
Proof. solve_decision. Defined.

Definition sizeof (T : WireType) : nat :=
  match T with U16 => 2 | U32 => 4 | U64 => 8 | Bool => 1 end%nat.

(** [const size_t bits = sizeof(T) * 8] *)
Definition bits (T : WireType) : Z := 8 * Z.of_nat (sizeof T).

(** Conversion of an integer to [T]: modular, and for [bool] the test for 0. *)
Definition conv (T : WireType) (z : Z) : Z :=
  match T with
  | Bool => if z =? 0 then 0 else 1
  | _ => wrap (bits T) z
  end.

(** [x << n] is computed at the promoted type: 64 or 32 bits wide for
    [uint64_t] and [uint32_t]; [uint16_t] and [bool] are promoted to [int],
    where the shifts below never leave the range. *)
Definition shl (T : WireType) (x n : Z) : Z :=
  match T with
  | U64 | U32 => wrap (bits T) (Z.shiftl x n)
  | U16 | Bool => Z.shiftl x n
  end.

(** The values of [T]. *)
Definition in_type (T : WireType) (z : Z) : Prop :=
  match T with Bool => z = 0 \/ z = 1 | _ => in_range (bits T) z end.

(** The indices 0 .. sizeof(T) - 1 of a byte array of [T]. *)
Definition indices (T : WireType) : list Z := seqZ 0 (Z.of_nat (sizeof T)).

Section platform.
Context (plat : Platform).

(** The value of a [char] with bit pattern [c]. *)
Definition char_value (c : Z) : Z :=
  if plat_char_signed plat && (128 <=? c) then c - 256 else c.

(** The two bytes a [short] with value [s] occupies, in address order. *)
Definition short_object (s : Z) : list Z :=
  let hi := Z.land (Z.shiftr s 8) 255 in
  let lo := Z.land s 255 in
  if plat_big_endian plat then [hi; lo] else [lo; hi].

Definition is_big_endian : bool :=
  let un := short_object 0x0102 in
  (char_value (un !!! 0%nat) =? 1) && (char_value (un !!! 1%nat) =? 2).

Definition hton (T : WireType) (h : Z) : Z :=
  if is_big_endian then h
  else
    foldl (fun n shift =>
        conv T (Z.lor n (shl T (Z.land (Z.shiftr h shift) 255) (bits T - 8 - shift))))
      0 ((fun k => 8 * k) <$> indices T).

Definition ntoh (T : WireType) (n : Z) : Z := hton T n.

(** The array starts uninitialised; the loop writes every element, the last
    one first. *)
Definition ntoa (T : WireType) (n : Z) : list Z :=
  foldl (fun a k =>
      let shift := 8 * k in
      let i := Z.of_nat (sizeof T) - 1 - k in
      <[Z.to_nat i := Z.land (Z.shiftr n shift) 255]> a)
    (replicate (sizeof T) 0) (indices T).

Definition aton (T : WireType) (a : list Z) : Z :=
  foldl (fun n i =>
      let shift := bits T - 8 - 8 * i in
      conv T (Z.lor n (shl T (conv T (char_value (a !!! Z.to_nat i))) shift)))
    0 (indices T).

Definition htoa (T : WireType) (h : Z) : list Z := ntoa T (hton T h).

Definition atoh (T : WireType) (a : list Z) : Z := ntoh T (aton T a).

Definition vtoh (T : WireType) (v : list Z) : result Z :=
  _ ← assert_that (bool_decide (length v = sizeof T)) "v.size() == sizeof(T)";
  Ok (atoh T v).

End platform.

(** A byte array with every element a bit pattern of a [char]. *)
Definition bytes_ok (v : list Z) : Prop := Forall (fun b => 0 <= b < 256) v.

(** The condition under which a value survives the wire: where [char] is
    signed, a byte of 128 or more must follow bytes 255 only. *)
Definition wire_safe (plat : Platform) (T : WireType) (h : Z) : bool :=
  let a := htoa plat T h in
  negb (plat_char_signed plat) || bool_decide (T = Bool)
  || forallb (fun j => (a !!! Z.to_nat j <? 128)
                       || forallb (fun i => a !!! Z.to_nat i =? 255) (seqZ 0 j))
       (indices T).

(** ** Byte arrays of integers *)

Lemma is_big_endian_platform plat : is_big_endian plat = plat_big_endian plat.
Proof. by destruct plat as [[] []]. Qed.

Lemma length_ntoa T n : length (ntoa T n) = sizeof T.
Proof. by destruct T. Qed.

Lemma length_htoa plat T h : length (htoa plat T h) = sizeof T.
Proof. apply length_ntoa. Qed.

Lemma ntoa_bytes T n :
  ntoa T n = (fun i => byte_of n (Z.of_nat (sizeof T) - 1 - i)) <$> indices T.
Proof. by destruct T. Qed.

Lemma ntoa_lookup T n (i : Z) :
  0 <= i < Z.of_nat (sizeof T) ->
  ntoa T n !!! Z.to_nat i = byte_of n (Z.of_nat (sizeof T) - 1 - i).
Proof.
  intros Hi. rewrite ntoa_bytes. apply list_lookup_total_correct.
  rewrite list_lookup_fmap. unfold indices. rewrite lookup_seqZ_lt by lia.
  simpl. f_equal. f_equal. lia.
Qed.

Lemma ntoa_bytes_ok T n : bytes_ok (ntoa T n).
Proof.
  rewrite ntoa_bytes. apply Forall_fmap, Forall_forall. intros. apply byte_of_range.
Qed.

Lemma htoa_bytes_ok plat T h : bytes_ok (htoa plat T h).
Proof. apply ntoa_bytes_ok. Qed.

Lemma bytes_ok_app a b : bytes_ok a -> bytes_ok b -> bytes_ok (a ++ b).
Proof. apply Forall_app_2. Qed.

Lemma bytes_ok_take n a : bytes_ok a -> bytes_ok (take n a).
Proof. apply Forall_take. Qed.

Lemma bytes_ok_drop n a : bytes_ok a -> bytes_ok (drop n a).
Proof. apply Forall_drop. Qed.

#[export] Hint Resolve htoa_bytes_ok ntoa_bytes_ok bytes_ok_app bytes_ok_take bytes_ok_drop : raft.
#[export] Hint Rewrite length_htoa length_ntoa is_big_endian_platform : raft.

(** ** The loops, bit by bit *)

Lemma conv_testbit T z k :
  T <> Bool -> 0 <= k < bits T -> Z.testbit (conv T z) k = Z.testbit z k.
Proof.
  intros HT Hk.
  assert (conv T z = wrap (bits T) z) as -> by by destruct T.
  rewrite wrap_testbit by lia. assert ((k <? bits T) = true) as -> by lia.
  apply andb_true_r.
Qed.

Lemma conv_in_range T z : T <> Bool -> in_range (bits T) (conv T z).
Proof. intros HT. destruct T; try done; apply wrap_range; unfold bits; simpl; lia. Qed.

Lemma shl_testbit T x n k :
  0 <= k < bits T -> Z.testbit (shl T x n) k = Z.testbit x (k - n).
Proof.
  intros Hk. destruct T; cbn [shl];
    rewrite ?wrap_testbit, Z.shiftl_spec by lia; try done;
    by rewrite (proj2 (Z.ltb_lt k _)), andb_true_r by lia.
Qed.

Lemma foldl_lor_testbit {A} T (f : A -> Z) l n k :
  T <> Bool -> 0 <= k < bits T ->
  Z.testbit (foldl (fun n x => conv T (Z.lor n (f x))) n l) k
  = Z.testbit n k || existsb (fun x => Z.testbit (f x) k) l.
Proof.
  intros HT Hk. revert n. induction l as [|x l IH]; intros n; simpl.
  - by rewrite orb_false_r.
  - rewrite IH, conv_testbit, Z.lor_spec by done. by rewrite orb_assoc.
Qed.

Lemma foldl_lor_in_range {A} T (f : A -> Z) l n :
  T <> Bool -> in_range (bits T) n ->
  in_range (bits T) (foldl (fun n x => conv T (Z.lor n (f x))) n l).
Proof.
  intros HT. revert n. induction l as [|x l IH]; intros n Hn; simpl; [done|].
  by apply IH, conv_in_range.
Qed.

Lemma in_range_0 w : 0 <= w -> in_range w 0.
Proof. intros. split; [done|]. by apply Z.pow_pos_nonneg. Qed.

Lemma bits_nonneg T : 0 <= bits T.
Proof. by destruct T. Qed.
#[export] Hint Resolve in_range_0 bits_nonneg : raft.

(** Which bytes the decoding loop of [aton] overwrites with ones: those after
    (in the array: before) a byte that is negative as a [char]. *)
Definition smeared (plat : Platform) (T : WireType) (a : list Z) (p : Z) : bool :=
  plat_char_signed plat
  && existsb (fun q => 128 <=? a !!! Z.to_nat (Z.of_nat (sizeof T) - 1 - q)) (seqZ 0 p).

Lemma hton_byte plat T h i :
  T <> Bool -> plat_big_endian plat = false -> 0 <= i < Z.of_nat (sizeof T) ->
  byte_of (hton plat T h) i = byte_of h (Z.of_nat (sizeof T) - 1 - i).
Proof.
  intros HT Hplat Hi. apply Z.bits_inj'. intros j Hj.
  rewrite !byte_of_testbit by lia. destruct (Z.ltb_spec j 8); [|by rewrite !andb_false_r].
  f_equal. unfold hton. rewrite is_big_endian_platform, Hplat.
  rewrite foldl_lor_testbit, Z.testbit_0_l by (done || unfold bits; lia). simpl.
  set (s := Z.of_nat (sizeof T)) in *.
  rewrite (existsb_unique _ _ (8 * (s - 1 - i))).
  - rewrite shl_testbit by (unfold bits; fold s; lia). unfold bits; fold s.
    rewrite land_255_testbit, Z.shiftr_spec by lia.
    rewrite (proj2 (Z.ltb_lt _ _)), andb_true_r by lia. f_equal. lia.
  - apply list_elem_of_fmap. exists (s - 1 - i). split; [done|].
    apply elem_of_seqZ. fold s. lia.
  - intros y Hy Hne. apply list_elem_of_fmap in Hy as (q & -> & Hq).
    apply elem_of_seqZ in Hq. fold s in Hq.
    rewrite shl_testbit by (unfold bits; fold s; lia). unfold bits; fold s.
    destruct (Z.ltb_spec (8 * i + j - (8 * s - 8 - 8 * q)) 0).
    + by rewrite Z.testbit_neg_r.
    + rewrite land_255_testbit by lia. rewrite (proj2 (Z.ltb_ge _ _)) by lia.
      apply andb_false_r.
Qed.

Lemma char_testbit plat T c m :
  T <> Bool -> 0 <= c < 256 -> m < bits T ->
  Z.testbit (conv T (char_value plat c)) m
  = if m <? 8 then Z.testbit c m else plat_char_signed plat && (128 <=? c).
Proof.
  intros HT Hc Hm. destruct (Z.ltb_spec m 0).
  { rewrite (proj2 (Z.ltb_lt _ _)) by lia. by rewrite !Z.testbit_neg_r by done. }
  rewrite conv_testbit by done. unfold char_value.
  destruct (plat_char_signed plat && (128 <=? c)) eqn:Hs.
  - replace (c - 256) with (Z.lor c (Z.shiftl (-1) 8)).
    + rewrite Z.lor_spec, Z.shiftl_spec by lia. destruct (Z.ltb_spec m 8).
      * rewrite (Z.testbit_neg_r (-1)) by lia. apply orb_false_r.
      * rewrite Z.bits_m1 by lia. apply orb_true_r.
    + rewrite <- Z.add_nocarry_lor; [change (Z.shiftl (-1) 8) with (-256); lia|]. apply Z.bits_inj'. intros k Hk.
      rewrite Z.land_spec, Z.shiftl_spec, Z.testbit_0_l by done.
      destruct (Z.ltb_spec k 8).
      * rewrite (Z.testbit_neg_r (-1)) by lia. apply andb_false_r.
      * by rewrite (testbit_above 8) by (done || lia).
  - destruct (Z.ltb_spec m 8); [done|]. by apply (testbit_above 8); [|lia].
Qed.

(** The array element of weight [p]. *)
Abbreviation weight T a p := (a !!! Z.to_nat (Z.of_nat (sizeof T) - 1 - p)).

Lemma bytes_ok_lookup (a : list Z) (i : nat) : bytes_ok a -> 0 <= a !!! i < 256.
Proof.
  intros Ha. rewrite list_lookup_total_alt. destruct (a !! i) as [b|] eqn:Hi; simpl; [|done].
  by apply (Forall_lookup_1 _ _ _ _ Ha Hi).
Qed.

Lemma aton_testbit plat T a k :
  T <> Bool -> bytes_ok a -> 0 <= k < bits T ->
  Z.testbit (aton plat T a) k
  = existsb (fun q => if k - 8 * q <? 8 then Z.testbit (weight T a q) (k - 8 * q)
                      else plat_char_signed plat && (128 <=? weight T a q))
      (seqZ 0 (Z.of_nat (sizeof T))).
Proof.
  intros HT Ha Hk. unfold aton.
  rewrite foldl_lor_testbit, Z.testbit_0_l by (done || unfold bits; lia). simpl.
  apply eq_iff_eq_true. rewrite !existsb_exists. unfold bits, indices in *.
  set (s := Z.of_nat (sizeof T)) in *.
  assert (forall i, 0 <= i < s ->
    Z.testbit (shl T (conv T (char_value plat (a !!! Z.to_nat i))) (8 * s - 8 - 8 * i)) k
    = if k - 8 * (s - 1 - i) <? 8 then Z.testbit (a !!! Z.to_nat i) (k - 8 * (s - 1 - i))
      else plat_char_signed plat && (128 <=? a !!! Z.to_nat i)) as Hbit.
  { intros i Hi. rewrite shl_testbit by (unfold bits; fold s; lia).
    rewrite char_testbit by (try done; try (unfold bits; fold s; lia); by apply bytes_ok_lookup).
    by replace (k - (8 * s - 8 - 8 * i)) with (k - 8 * (s - 1 - i)) by lia. }
  split; intros (q & Hq & Ht);
    rewrite <- list_elem_of_In in Hq; apply elem_of_seqZ in Hq;
    exists (s - 1 - q); rewrite <- list_elem_of_In, elem_of_seqZ; (split; [fold s; lia|]).
  - rewrite Hbit in Ht by (fold s in Hq; lia).
    by replace (s - 1 - (s - 1 - q)) with q by lia.
  - rewrite Hbit by lia. by replace (s - 1 - (s - 1 - q)) with q by lia.
Qed.

Lemma aton_byte plat T a p :
  T <> Bool -> bytes_ok a -> 0 <= p < Z.of_nat (sizeof T) ->
  byte_of (aton plat T a) p = if smeared plat T a p then 255 else weight T a p.
Proof.
  intros HT Ha Hp. apply Z.bits_inj'. intros j Hj.
  rewrite byte_of_testbit by lia. destruct (Z.ltb_spec j 8) as [Hj8|Hj8].
  2: { rewrite andb_false_r. symmetry. apply (testbit_above 8); [|lia].
       case_match; [done|]. by apply bytes_ok_lookup. }
  rewrite andb_true_r, aton_testbit by (done || unfold bits; lia).
  unfold smeared. set (s := Z.of_nat (sizeof T)) in *.
  destruct (plat_char_signed plat); simpl.
  2: { rewrite (existsb_unique _ _ p).
       - replace (8 * p + j - 8 * p) with j by lia. by rewrite (proj2 (Z.ltb_lt _ _)).
       - apply elem_of_seqZ. lia.
       - intros q Hq Hne. apply elem_of_seqZ in Hq.
         destruct (Z.ltb_spec (8 * p + j - 8 * q) 8); [|done].
         apply Z.testbit_neg_r. lia. }
  destruct (existsb _ (seqZ 0 p)) eqn:He.
  - change 255 with (Z.ones 8). rewrite Z.ones_spec_low by lia.
    apply existsb_exists in He as (q & Hq & Hneg). apply existsb_exists. exists q.
    rewrite <- list_elem_of_In, elem_of_seqZ in Hq. rewrite <- list_elem_of_In, elem_of_seqZ.
    split; [lia|]. by rewrite (proj2 (Z.ltb_ge _ _)) by lia.
  - rewrite (existsb_unique _ _ p).
    + replace (8 * p + j - 8 * p) with j by lia. by rewrite (proj2 (Z.ltb_lt _ _)).
    + apply elem_of_seqZ. lia.
    + intros q Hq Hne. apply elem_of_seqZ in Hq.
      destruct (Z.ltb_spec (8 * p + j - 8 * q) 8); [apply Z.testbit_neg_r; lia|].
      destruct (128 <=? _) eqn:Hneg; [|done]. rewrite <- He. symmetry.
      apply existsb_exists. exists q. rewrite <- list_elem_of_In, elem_of_seqZ.
      split; [lia|done].
Qed.

Lemma aton_in_range plat T a : T <> Bool -> in_range (bits T) (aton plat T a).
Proof. intros HT. apply foldl_lor_in_range; auto with raft. Qed.

Lemma hton_in_range plat T h :
  T <> Bool -> in_range (bits T) h -> in_range (bits T) (hton plat T h).
Proof.
  intros HT Hh. unfold hton. destruct (is_big_endian plat); [done|].
  apply foldl_lor_in_range; auto with raft.
Qed.

(** Where the byte of weight [i] of a host integer sits in network-order code. *)
Definition net_weight (plat : Platform) (T : WireType) (i : Z) : Z :=
  if plat_big_endian plat then i else Z.of_nat (sizeof T) - 1 - i.

Lemma net_weight_bound plat T i :
  0 <= i < Z.of_nat (sizeof T) -> 0 <= net_weight plat T i < Z.of_nat (sizeof T).
Proof. unfold net_weight. destruct (plat_big_endian plat); lia. Qed.

Lemma net_weight_invol plat T i : net_weight plat T (net_weight plat T i) = i.
Proof. unfold net_weight. destruct (plat_big_endian plat); lia. Qed.

Lemma hton_net_weight plat T h i :
  T <> Bool -> 0 <= i < Z.of_nat (sizeof T) ->
  byte_of (hton plat T h) i = byte_of h (net_weight plat T i).
Proof.
  intros HT Hi. unfold net_weight. destruct (plat_big_endian plat) eqn:Hp.
  - unfold hton. by rewrite is_big_endian_platform, Hp.
  - by apply hton_byte.
Qed.

Lemma weight_htoa plat T h p :
  0 <= p < Z.of_nat (sizeof T) -> weight T (htoa plat T h) p = byte_of (hton plat T h) p.
Proof.
  intros Hp. unfold htoa. rewrite ntoa_lookup by lia. f_equal. lia.
Qed.

Lemma atoh_byte plat T a i :
  T <> Bool -> bytes_ok a -> 0 <= i < Z.of_nat (sizeof T) ->
  byte_of (atoh plat T a) i
  = if smeared plat T a (net_weight plat T i) then 255 else weight T a (net_weight plat T i).
Proof.
  intros HT Ha Hi. unfold atoh, ntoh. rewrite hton_net_weight by done.
  apply aton_byte; [done..|by apply net_weight_bound].
Qed.

Lemma wire_safe_spec plat T h :
  wire_safe plat T h = true <->
  plat_char_signed plat = false \/ T = Bool \/
  (forall p, 0 <= p < Z.of_nat (sizeof T) -> smeared plat T (htoa plat T h) p = true ->
     weight T (htoa plat T h) p = 255).
Proof.
  unfold wire_safe, smeared. set (a := htoa plat T h). set (s := Z.of_nat (sizeof T)).
  rewrite !orb_true_iff, negb_true_iff, bool_decide_eq_true, Logic.or_assoc.
  destruct (plat_char_signed plat); [|split; by left]. apply or_iff_compat_l, or_iff_compat_l.
  rewrite forallb_forall. simpl. split.
  - intros Hall p Hp Hs. apply existsb_exists in Hs as (q & Hq & Hneg).
    apply list_elem_of_In, elem_of_seqZ in Hq.
    assert (In (s - 1 - q) (indices T)) as Hin
      by (apply list_elem_of_In, elem_of_seqZ; fold s; lia).
    apply Hall in Hin as Hall'. clear Hall. rename Hall' into Hall.
    apply orb_true_iff in Hall as [|Hall]; [lia|].
    rewrite forallb_forall in Hall.
    apply Z.eqb_eq, Hall, list_elem_of_In, elem_of_seqZ. lia.
  - intros Hall j Hj. apply list_elem_of_In, elem_of_seqZ in Hj. fold s in Hj.
    apply orb_true_iff. destruct (Z.ltb_spec (a !!! Z.to_nat j) 128); [by left|right].
    apply forallb_forall. intros i Hi. apply list_elem_of_In, elem_of_seqZ in Hi.
    apply Z.eqb_eq. specialize (Hall (s - 1 - i) ltac:(lia)).
    replace (s - 1 - (s - 1 - i)) with i in Hall by lia. apply Hall.
    apply existsb_exists. exists (s - 1 - j). rewrite <- list_elem_of_In, elem_of_seqZ.
    split; [lia|]. replace (s - 1 - (s - 1 - j)) with j by lia. lia.
Qed.

Lemma in_type_range T h : T <> Bool -> in_type T h -> in_range (bits T) h.
Proof. by destruct T. Qed.

Lemma atoh_htoa_byte plat T h i :
  T <> Bool -> 0 <= i < Z.of_nat (sizeof T) ->
  byte_of (atoh plat T (htoa plat T h)) i
  = if smeared plat T (htoa plat T h) (net_weight plat T i) then 255 else byte_of h i.
Proof.
  intros HT Hi. rewrite atoh_byte by auto with raft.
  pose proof (net_weight_bound plat T i Hi).
  by rewrite weight_htoa, hton_net_weight, net_weight_invol by done.
Qed.

Lemma atoh_htoa_bool plat h : in_type Bool h -> atoh plat Bool (htoa plat Bool h) = h.
Proof. destruct plat as [[] []]; intros [-> | ->]; reflexivity. Qed.

Lemma atoh_htoa_iff plat T h :
  in_type T h -> atoh plat T (htoa plat T h) = h <-> wire_safe plat T h = true.
Proof.
  intros Hh. destruct (decide (T = Bool)) as [->|HT].
  { rewrite wire_safe_spec. rewrite atoh_htoa_bool by done. split; [by right; left|done]. }
  apply in_type_range in Hh; [|done]. rewrite wire_safe_spec. split.
  - intros Heq. right; right. intros p Hp Hs.
    pose proof (net_weight_bound plat T p Hp).
    pose proof (atoh_htoa_byte plat T h (net_weight plat T p) HT) as Hb.
    rewrite Heq, net_weight_invol, Hs in Hb. specialize (Hb ltac:(done)).
    by rewrite weight_htoa, hton_net_weight by done.
  - intros Hsafe. apply (byte_of_inj (Z.of_nat (sizeof T))); [lia| |done|].
    { by apply hton_in_range, aton_in_range. }
    intros i Hi. rewrite atoh_htoa_byte by done.
    pose proof (net_weight_bound plat T i Hi).
    destruct (smeared _ _ _ _) eqn:Hs; [|done].
    destruct Hsafe as [Hu|[|Hsafe]]; [|done|].
    { unfold smeared in Hs. by rewrite Hu in Hs. }
    apply Hsafe in Hs; [|done].
    by rewrite weight_htoa, hton_net_weight, net_weight_invol in Hs by done.
Qed.

Lemma atoh_htoa plat T h :
  in_type T h -> wire_safe plat T h = true -> atoh plat T (htoa plat T h) = h.
Proof. intros Hh. by apply atoh_htoa_iff. Qed.

(** On a little-endian machine values below [2 ^ 15] survive the wire, and
    values below [128] do on every machine. *)
Lemma wire_safe_small plat T h :
  0 <= h < (if plat_big_endian plat then 2 ^ 7 else 2 ^ 15) ->
  in_type T h -> wire_safe plat T h = true.
Proof.
  intros Hsmall Hh. apply wire_safe_spec. destruct (plat_char_signed plat) eqn:Hc; [right|by left].
  destruct (decide (T = Bool)); [by left|right]. intros p Hp Hs.
  unfold smeared in Hs. rewrite Hc in Hs. apply existsb_exists in Hs as (q & Hq & Hneg).
  apply list_elem_of_In, elem_of_seqZ in Hq.
  rewrite weight_htoa, hton_net_weight in Hneg by (done || lia).
  set (m := net_weight plat T q) in *.
  assert (byte_of h m < 128); [|lia].
  unfold byte_of. change 255 with (Z.ones 8). rewrite Z.land_ones, Z.shiftr_div_pow2 by
    (unfold m, net_weight; destruct (plat_big_endian plat); lia).
  unfold m, net_weight. destruct (plat_big_endian plat).
  - assert (h / 2 ^ (8 * q) <= h) by (apply Z.div_le_upper_bound; nia).
    assert (0 <= h / 2 ^ (8 * q)) by (apply Z.div_pos; lia).
    rewrite Z.mod_small by lia. lia.
  - assert (1 <= Z.of_nat (sizeof T) - 1 - q) by lia.
    assert (2 ^ 8 <= 2 ^ (8 * (Z.of_nat (sizeof T) - 1 - q))) as Hle
      by (apply Z.pow_le_mono_r; lia).
    assert (h / 2 ^ (8 * (Z.of_nat (sizeof T) - 1 - q)) < 128)
      by (apply Z.div_lt_upper_bound; lia).
    assert (0 <= h / 2 ^ (8 * (Z.of_nat (sizeof T) - 1 - q))) by (apply Z.div_pos; lia).
    rewrite Z.mod_small by lia. lia.
Qed.

Lemma wire_safe_unsigned plat T h : plat_char_signed plat = false -> wire_safe plat T h = true.
Proof. intros Hc. apply wire_safe_spec. by left. Qed.

#[export] Hint Resolve wire_safe_unsigned wire_safe_small : raft.

(** ** Properties *)

(** [htoa], documented to produce network (big-endian) byte order, always
    produces the byte order of the machine: the [hton] conversion and the
    arithmetic in [ntoa] cancel out. *)
Theorem htoa_is_machine_order plat T h i :
  in_type T h -> 0 <= i < Z.of_nat (sizeof T) ->
  htoa plat T h !!! Z.to_nat i
  = byte_of h (if plat_big_endian plat then Z.of_nat (sizeof T) - 1 - i else i).
Proof.
  intros Hh Hi. unfold htoa. rewrite ntoa_lookup by done.
  destruct (decide (T = Bool)) as [->|HT].
  { simpl in *. assert (i = 0) as -> by lia.
    destruct plat as [[] []]; destruct Hh as [-> | ->]; reflexivity. }
  rewrite hton_net_weight by (done || lia). unfold net_weight.
  destruct (plat_big_endian plat); f_equal; lia.
Qed.

(** C24. A value is decoded back unchanged exactly when it is [wire_safe]: the
    conversion is lossless where [char] is unsigned, and loses the values with
    a byte of 128 or more after a byte other than 255 where it is signed. *)
Theorem roundtrip_iff_wire_safe plat T h :
  in_type T h -> atoh plat T (htoa plat T h) = h <-> wire_safe plat T h = true.
Proof. apply atoh_htoa_iff. Qed.

(** Between machines of different byte order the two conversions reverse
    the bytes of every integer instead of preserving its value. *)
Theorem mixed_byte_order_reverses sender receiver T h i :
  plat_big_endian sender <> plat_big_endian receiver ->
  plat_char_signed receiver = false ->
  T <> Bool -> 0 <= i < Z.of_nat (sizeof T) ->
  byte_of (atoh receiver T (htoa sender T h)) i = byte_of h (Z.of_nat (sizeof T) - 1 - i).
Proof.
  intros Hdiff Hc HT Hi. pose proof (net_weight_bound receiver T i Hi).
  rewrite atoh_byte by auto with raft. unfold smeared. rewrite Hc. simpl.
  rewrite weight_htoa, hton_net_weight by done. f_equal. unfold net_weight.
  destruct (plat_big_endian sender), (plat_big_endian receiver); (done || lia).
Qed.

(** x86-64 and AArch64 Linux, and a big-endian machine. *)
Definition x86_64 : Platform := {| plat_big_endian := false; plat_char_signed := true |}.
Definition aarch64 : Platform := {| plat_big_endian := false; plat_char_signed := false |}.
Definition s390x : Platform := {| plat_big_endian := true; plat_char_signed := false |}.

Lemma htoa_is_machine_order_witness :
  htoa x86_64 U32 0x01020304 !!! Z.to_nat 0 = byte_of 0x01020304 0.
Proof. apply (htoa_is_machine_order x86_64 U32 0x01020304 0); vm_compute; intuition congruence. Defined.

Lemma roundtrip_iff_wire_safe_witness :
  atoh x86_64 U64 (htoa x86_64 U64 32768) = 33023 /\
  (atoh x86_64 U64 (htoa x86_64 U64 32768) = 32768 <-> wire_safe x86_64 U64 32768 = true).
Proof.
  split; [vm_compute; reflexivity|].
  apply (roundtrip_iff_wire_safe x86_64 U64 32768). vm_compute. intuition congruence.
Defined.

Lemma mixed_byte_order_reverses_witness :
  byte_of (atoh aarch64 U16 (htoa s390x U16 1)) 1 = byte_of 1 0.
Proof.
  apply (mixed_byte_order_reverses s390x aarch64 U16 1 1);
    vm_compute; intuition congruence.
Defined.
