(* ===== verification/Protocol.v ===== *)
(** * protocol.hpp: the events, their encoding and the event factory

    [RaftEvent] is the class hierarchy of the events; [encode] and
    [RaftEventFactory.decode] follow the code, including the reads and writes
    it leaves undefined.  [wire] is the format both agree on. *)
From S2P Require Import Prelude Utils NetworkUtil.
Local Open Scope Z_scope.

(** enum Type *)
Definition request_vote_req : Z := 1.
Definition request_vote_res : Z := 2.
Definition append_entries_req : Z := 3.
Definition append_entries_res : Z := 4.
Definition election_timeout : Z := 100.

(** The concrete classes derived from [RaftEvent], with their data members. *)
Inductive RaftEvent :=
| RequestVoteReq (server_id term : Z)
| RequestVoteRes (server_id term : Z) (vote_granted : bool)
| AppendEntriesReq (server_id term : Z)
| AppendEntriesRes (server_id term : Z)
| ElectionTimeoutEvent.

#[global] Instance RaftEvent_eq_dec : EqDecision RaftEvent.
Proof. solve_decision. Defined.

Definition get_type (e : RaftEvent) : Z :=
  match e with
  | RequestVoteReq _ _ => request_vote_req
  | RequestVoteRes _ _ _ => request_vote_res
  | AppendEntriesReq _ _ => append_entries_req
  | AppendEntriesRes _ _ => append_entries_res
  | ElectionTimeoutEvent => election_timeout
  end.

Definition get_server_id (e : RaftEvent) : Z :=
  match e with
  | RequestVoteReq i _ | RequestVoteRes i _ _ | AppendEntriesReq i _ | AppendEntriesRes i _ => i
  | ElectionTimeoutEvent => 0
  end.

Definition get_term (e : RaftEvent) : Z :=
  match e with
  | RequestVoteReq _ t | RequestVoteRes _ t _ | AppendEntriesReq _ t | AppendEntriesRes _ t => t
  | ElectionTimeoutEvent => 0
  end.

Definition is_heartbeat (e : RaftEvent) : bool := true.

Section platform.
Context (plat : Platform).

(** The loop of [encode_member], from iterator position [cur] of [data]. *)
Fixpoint encode_members_at (T : WireType) (members : list Z) (data : list Z) (cur : nat)
    : result (list Z) :=
  match members with
  | [] => Ok data
  | m :: members =>
      data ← std_move (htoa plat T m) data cur;
      encode_members_at T members data (cur + sizeof T)
  end.

Definition encode_member (T : WireType) (members : list Z) : result (list Z) :=
  encode_members_at T members (replicate (length members * sizeof T) 0) 0.

Definition get_data (e : RaftEvent) : result (list Z) :=
  match e with
  | RequestVoteRes server_id term vote_granted =>
      base_data ← encode_member U64 [server_id; term];
      granted_data ← encode_member Bool [Z.b2z vote_granted];
      DataUtils.concat base_data granted_data
  | RequestVoteReq server_id term | AppendEntriesReq server_id term
  | AppendEntriesRes server_id term => encode_member U64 [server_id; term]
  | ElectionTimeoutEvent => Ok []
  end.

Definition encode (e : RaftEvent) : result (list Z) :=
  match e with
  | ElectionTimeoutEvent => Ok []
  | _ =>
      let type := htoa plat U16 (get_type e) in
      data ← get_data e;
      v ← std_move type (replicate (length type + length data) 0) 0;
      std_move data v (length type)
  end.

(** [decode_member (data.begin () + first, data.begin () + last, member)]:
    the iterators must lie in [data]; the array [member] is read from has
    exactly [sizeof T] elements, so a shorter range leaves some of them
    uninitialised and a longer one writes past its end. *)
Definition decode_member (T : WireType) (data : list Z) (first last : nat) : result Z :=
  _ ← defined_when (bool_decide (first <= last <= length data)%nat) "iterator out of range";
  _ ← defined_when (bool_decide (last - first = sizeof T)%nat) "std::array overrun or unset";
  Ok (atoh plat T (take (last - first) (drop first data))).

(** The deserialising constructors. *)
Definition RaftBaseEvent_of (data : list Z) : result (Z * Z) :=
  server_id ← decode_member U64 data 0 8;
  term ← decode_member U64 data 8 16;
  Ok (server_id, term).

Definition RequestVoteRes_of (data : list Z) : result RaftEvent :=
  '(server_id, term) ← RaftBaseEvent_of data;
  vote_granted ← decode_member Bool data 16 (length data);
  Ok (RequestVoteRes server_id term (negb (vote_granted =? 0))).

End platform.

Module RaftEventFactory.

Definition decode (plat : Platform) (v : list Z) : result RaftEvent :=
  _ ← assert_that (bool_decide (sizeof U16 <= length v)%nat) "v.size() >= sizeof(std::uint16_t)";
  let type_data := take (sizeof U16) v in
  type ← vtoh plat U16 type_data;
  data ← std_move (drop (length type_data) v) (replicate (length v - length type_data) 0) 0;
  if type =? request_vote_req then
    '(server_id, term) ← RaftBaseEvent_of plat data; Ok (RequestVoteReq server_id term)
  else if type =? request_vote_res then RequestVoteRes_of plat data
  else if type =? append_entries_req then
    '(server_id, term) ← RaftBaseEvent_of plat data; Ok (AppendEntriesReq server_id term)
  else if type =? append_entries_res then
    '(server_id, term) ← RaftBaseEvent_of plat data; Ok (AppendEntriesRes server_id term)
  else Err (InvalidArgument "unsupported type").

End RaftEventFactory.

(** ** The wire format *)

Section wire.
Context (plat : Platform).

Definition wire_data (e : RaftEvent) : list Z :=
  match e with
  | ElectionTimeoutEvent => []
  | RequestVoteRes i t g => htoa plat U64 i ++ htoa plat U64 t ++ htoa plat Bool (Z.b2z g)
  | _ => htoa plat U64 (get_server_id e) ++ htoa plat U64 (get_term e)
  end.

Definition wire (e : RaftEvent) : list Z :=
  match e with
  | ElectionTimeoutEvent => []
  | _ => htoa plat U16 (get_type e) ++ wire_data e
  end.

(** The numbers of an event that is sent survive the wire. *)
Definition event_safe (e : RaftEvent) : Prop :=
  e <> ElectionTimeoutEvent /\
  in_range 64 (get_server_id e) /\ in_range 64 (get_term e) /\
  wire_safe plat U64 (get_server_id e) = true /\ wire_safe plat U64 (get_term e) = true.

End wire.

(** The lengths of the bodies the constructors read without going astray. *)
Definition body_length_ok (type : Z) (n : nat) : Prop :=
  (type = request_vote_res /\ n = 17%nat) \/
  (type ∈ [request_vote_req; append_entries_req; append_entries_res] /\ (16 <= n)%nat).

Definition known_type (type : Z) : Prop :=
  type ∈ [request_vote_req; request_vote_res; append_entries_req; append_entries_res].

(** ** Encoding *)

Lemma encode_members_at_fill plat T members pre rest :
  (length members * sizeof T <= length rest)%nat ->
  encode_members_at plat T members (pre ++ rest) (length pre)
  = Ok (pre ++ (members ≫= htoa plat T) ++ drop (length members * sizeof T) rest).
Proof.
  revert pre rest. induction members as [|m members IH]; intros pre rest Hlen; [done|].
  cbn [encode_members_at length] in *. pose proof (length_htoa plat T m) as Hm.
  rewrite std_move_fill by (rewrite Hm; lia). cbn [mbind result_bind].
  rewrite (assoc_L (++)).
  replace (length pre + sizeof T)%nat with (length (pre ++ htoa plat T m))
    by (rewrite length_app, Hm; done).
  rewrite IH by (rewrite length_drop, Hm; lia).
  rewrite drop_drop, Hm. cbn [mbind list_bind]. by rewrite <- !(assoc_L (++)).
Qed.

Lemma encode_member_wire plat T members :
  encode_member plat T members = Ok (members ≫= htoa plat T).
Proof.
  unfold encode_member.
  pose proof (encode_members_at_fill plat T members []
    (replicate (length members * sizeof T) 0)) as Hfill.
  simpl in Hfill. rewrite Hfill by (rewrite length_replicate; lia).
  by rewrite drop_replicate, Nat.sub_diag, app_nil_r.
Qed.

Lemma get_data_wire plat e : get_data plat e = Ok (wire_data plat e).
Proof.
  destruct e; cbn [get_data]; rewrite ?encode_member_wire; try done;
    cbn -[htoa]; by rewrite ?app_nil_r.
Qed.

Lemma encode_wire plat e : encode plat e = Ok (wire plat e).
Proof.
  destruct e; cbn [encode]; rewrite ?get_data_wire; cbn [mbind result_bind]; first [done | apply std_move_two].
Qed.

Lemma wire_length plat e :
  length (wire plat e)
  = match e with ElectionTimeoutEvent => 0 | RequestVoteRes _ _ _ => 19 | _ => 18 end%nat.
Proof. destruct e; cbn -[htoa]; rewrite ?length_app, ?length_htoa; done. Qed.

Lemma wire_bytes_ok plat e : bytes_ok (wire plat e).
Proof. destruct e; cbn -[htoa]; auto 6 with raft; constructor. Qed.

#[export] Hint Resolve wire_bytes_ok : raft.

(** ** Decoding *)

Lemma decode_member_ok plat T data first last :
  (first <= last <= length data)%nat -> (last - first = sizeof T)%nat ->
  decode_member plat T data first last
  = Ok (atoh plat T (take (last - first) (drop first data))).
Proof. intros. unfold decode_member. by rewrite !bool_decide_eq_true_2. Qed.

Lemma RaftBaseEvent_of_ok plat data :
  (16 <= length data)%nat ->
  RaftBaseEvent_of plat data
  = Ok (atoh plat U64 (take 8 data), atoh plat U64 (take 8 (drop 8 data))).
Proof.
  intros Hlen. unfold RaftBaseEvent_of. rewrite !decode_member_ok by (simpl; lia). done.
Qed.

Lemma RaftBaseEvent_of_short plat data :
  (length data < 16)%nat ->
  RaftBaseEvent_of plat data = Err (UndefinedBehaviour "iterator out of range").
Proof.
  intros Hlen. unfold RaftBaseEvent_of, decode_member.
  destruct (decide (8 <= length data)%nat).
  - rewrite (bool_decide_eq_true_2 (0 <= 8 <= length data)%nat) by lia. simpl.
    by rewrite (bool_decide_eq_false_2 (8 <= 16 <= length data)%nat) by lia.
  - by rewrite (bool_decide_eq_false_2 (0 <= 8 <= length data)%nat) by lia.
Qed.

Lemma RequestVoteRes_of_ok plat data :
  length data = 17%nat ->
  RequestVoteRes_of plat data
  = Ok (RequestVoteRes (atoh plat U64 (take 8 data)) (atoh plat U64 (take 8 (drop 8 data)))
          (negb (atoh plat Bool (drop 16 data) =? 0))).
Proof.
  intros Hlen. unfold RequestVoteRes_of. rewrite RaftBaseEvent_of_ok by lia.
  cbn [mbind result_bind]. rewrite decode_member_ok by (simpl; lia).
  cbn [mbind result_bind]. rewrite (take_ge (drop 16 data)) by (rewrite length_drop; lia). done.
Qed.

Lemma RequestVoteRes_of_bad plat data :
  length data <> 17%nat -> exists what, RequestVoteRes_of plat data = Err (UndefinedBehaviour what).
Proof.
  intros Hlen. unfold RequestVoteRes_of. destruct (decide (length data < 16)%nat).
  { rewrite RaftBaseEvent_of_short by done. eauto. }
  rewrite RaftBaseEvent_of_ok by lia. cbn [mbind result_bind]. unfold decode_member.
  rewrite (bool_decide_eq_true_2 (16 <= length data <= length data)%nat) by lia.
  cbn [mbind result_bind defined_when].
  rewrite bool_decide_eq_false_2 by (simpl; lia). simpl. eauto.
Qed.

(** The type code and the body of a received vector. *)
Definition type_of (plat : Platform) (v : list Z) : Z := atoh plat U16 (take 2 v).

(** Dispatch, once the two type bytes are there. *)
Lemma decode_unfold plat v :
  (2 <= length v)%nat ->
  RaftEventFactory.decode plat v
  = let type := type_of plat v in let data := drop 2 v in
    if type =? request_vote_req then
      '(server_id, term) ← RaftBaseEvent_of plat data; Ok (RequestVoteReq server_id term)
    else if type =? request_vote_res then RequestVoteRes_of plat data
    else if type =? append_entries_req then
      '(server_id, term) ← RaftBaseEvent_of plat data; Ok (AppendEntriesReq server_id term)
    else if type =? append_entries_res then
      '(server_id, term) ← RaftBaseEvent_of plat data; Ok (AppendEntriesRes server_id term)
    else Err (InvalidArgument "unsupported type").
Proof.
  intros Hlen. unfold RaftEventFactory.decode.
  assert (length (take (sizeof U16) v) = 2%nat) as Htake by (rewrite length_take; change (sizeof U16) with 2%nat; lia).
  rewrite bool_decide_eq_true_2 by done. cbn [mbind result_bind assert_that].
  unfold vtoh. rewrite Htake, bool_decide_eq_true_2 by done.
  cbn [mbind result_bind assert_that].
  rewrite std_move_fresh by (by rewrite length_drop). done.
Qed.

(** The body lengths of each type, and what happens otherwise. *)
Lemma decode_known plat v :
  (2 <= length v)%nat -> known_type (type_of plat v) ->
  (body_length_ok (type_of plat v) (length v - 2) /\
   exists e, RaftEventFactory.decode plat v = Ok e /\ get_type e = type_of plat v) \/
  (~ body_length_ok (type_of plat v) (length v - 2) /\
   exists what, RaftEventFactory.decode plat v = Err (UndefinedBehaviour what)).
Proof.
  intros Hlen Hknown. rewrite decode_unfold by done. cbv zeta.
  assert (length (drop 2 v) = length v - 2)%nat as Hbody by apply length_drop.
  set (n := (length v - 2)%nat) in *. set (data := drop 2 v) in *.
  unfold known_type in Hknown. unfold body_length_ok.
  destruct (decide (type_of plat v = request_vote_res)) as [-> | Hne].
  - cbn. destruct (decide (n = 17%nat)) as [Hn|Hn].
    + left. split; [by left|]. rewrite RequestVoteRes_of_ok by lia. eauto.
    + right. split; [|apply RequestVoteRes_of_bad; lia].
      intros [[_ ?]|[Hin _]]; [done|]. by rewrite !elem_of_cons, elem_of_nil in Hin;
        destruct Hin as [|[|[|[]]]].
  - assert (type_of plat v ∈ [request_vote_req; append_entries_req; append_entries_res]) as Hin
      by (rewrite !elem_of_cons in Hknown; rewrite !elem_of_cons; tauto).
    destruct (decide (16 <= n)%nat) as [Hn|Hn].
    + left. split; [by right|]. rewrite RaftBaseEvent_of_ok by lia. cbn [mbind result_bind].
      rewrite !elem_of_cons in Hin. destruct Hin as [-> | [-> | [-> | []%not_elem_of_nil]]];
        eexists; split; reflexivity.
    + right. split; [intros [[? _]|[_ ?]]; done|]. rewrite RaftBaseEvent_of_short by lia.
      cbn [mbind result_bind].
      rewrite !elem_of_cons in Hin. destruct Hin as [-> | [-> | [-> | []%not_elem_of_nil]]];
        eexists; reflexivity.
Qed.

Lemma decode_short plat v :
  (length v < 2)%nat -> exists what, RaftEventFactory.decode plat v = Err (AssertionFailure what).
Proof.
  intros Hlen. unfold RaftEventFactory.decode. rewrite bool_decide_eq_false_2 by (simpl; lia).
  simpl. eauto.
Qed.

Lemma decode_unknown plat v :
  (2 <= length v)%nat -> ~ known_type (type_of plat v) ->
  RaftEventFactory.decode plat v = Err (InvalidArgument "unsupported type").
Proof.
  intros Hlen Hknown. rewrite decode_unfold by done. cbv zeta.
  unfold known_type in Hknown. rewrite !not_elem_of_cons in Hknown.
  destruct Hknown as (H1 & H2 & H3 & H4 & _).
  by rewrite !(proj2 (Z.eqb_neq _ _)) by done.
Qed.

(** ** Round trip *)

Lemma type_of_app plat T v : length T = 2%nat -> type_of plat (T ++ v) = atoh plat U16 T.
Proof. intros HT. unfold type_of. by rewrite take_app_length' by done. Qed.

Lemma type_roundtrip plat t :
  known_type t -> atoh plat U16 (htoa plat U16 t) = t.
Proof.
  unfold known_type. rewrite !elem_of_cons, elem_of_nil.
  intros [-> | [-> | [-> | [-> | []]]]]; destruct plat as [[] []]; vm_compute; reflexivity.
Qed.

Lemma get_type_known e : e <> ElectionTimeoutEvent -> known_type (get_type e).
Proof. intros. unfold known_type. rewrite !elem_of_cons. destruct e; simpl; tauto. Qed.

Lemma type_of_wire plat e : e <> ElectionTimeoutEvent -> type_of plat (wire plat e) = get_type e.
Proof.
  intros He. assert (wire plat e = htoa plat U16 (get_type e) ++ wire_data plat e) as ->
    by (by destruct e).
  rewrite type_of_app by apply length_htoa. by apply type_roundtrip, get_type_known.
Qed.

Lemma drop_wire plat e : e <> ElectionTimeoutEvent -> drop 2 (wire plat e) = wire_data plat e.
Proof.
  intros He. assert (wire plat e = htoa plat U16 (get_type e) ++ wire_data plat e) as ->
    by (by destruct e).
  apply drop_app_length'. by rewrite length_htoa.
Qed.

(** The numbers of an event as the receiver sees them. *)
Definition received (plat : Platform) (e : RaftEvent) : RaftEvent :=
  let rt h := atoh plat U64 (htoa plat U64 h) in
  match e with
  | RequestVoteReq i t => RequestVoteReq (rt i) (rt t)
  | RequestVoteRes i t g => RequestVoteRes (rt i) (rt t) g
  | AppendEntriesReq i t => AppendEntriesReq (rt i) (rt t)
  | AppendEntriesRes i t => AppendEntriesRes (rt i) (rt t)
  | ElectionTimeoutEvent => ElectionTimeoutEvent
  end.

Lemma RaftBaseEvent_of_wire plat i t rest :
  RaftBaseEvent_of plat (htoa plat U64 i ++ htoa plat U64 t ++ rest)
  = Ok (atoh plat U64 (htoa plat U64 i), atoh plat U64 (htoa plat U64 t)).
Proof.
  rewrite RaftBaseEvent_of_ok by (rewrite !length_app, !length_htoa; simpl; lia).
  rewrite take_app_length', drop_app_length', take_app_length' by (by rewrite length_htoa). done.
Qed.

Lemma decode_wire plat e :
  e <> ElectionTimeoutEvent ->
  RaftEventFactory.decode plat (wire plat e) = Ok (received plat e).
Proof.
  intros He. rewrite decode_unfold by (rewrite wire_length; destruct e; (done || lia)).
  cbv zeta. rewrite type_of_wire, drop_wire by done.
  destruct e as [i t|i t g|i t|i t|]; [| | | |done]; cbn -[htoa atoh RaftBaseEvent_of RequestVoteRes_of].
  1,3,4: by rewrite <- (app_nil_r (htoa plat U64 t)), RaftBaseEvent_of_wire.
  unfold RequestVoteRes_of. rewrite RaftBaseEvent_of_wire. cbn [mbind result_bind].
  rewrite decode_member_ok by (rewrite !length_app, !length_htoa; simpl; lia).
  cbn [mbind result_bind]. rewrite (assoc_L (++)), drop_app_length'
    by (by rewrite length_app, !length_htoa).
  rewrite take_ge by (rewrite !length_app, !length_htoa; simpl; lia).
  rewrite atoh_htoa_bool by (destruct g; [by right|by left]). by destruct g.
Qed.

Lemma received_safe plat e :
  in_range 64 (get_server_id e) -> in_range 64 (get_term e) ->
  e <> ElectionTimeoutEvent ->
  received plat e = e <->
  wire_safe plat U64 (get_server_id e) = true /\ wire_safe plat U64 (get_term e) = true.
Proof.
  intros Hi Ht He.
  rewrite <- (atoh_htoa_iff plat U64 (get_server_id e)), <- (atoh_htoa_iff plat U64 (get_term e))
    by done.
  destruct e; cbn [received get_server_id get_term]; try done;
    (split; [intros [= Heq1 Heq2]; split; congruence|intros [-> ->]; done]).
Qed.

Lemma decode_wire_safe plat e :
  event_safe plat e -> RaftEventFactory.decode plat (wire plat e) = Ok e.
Proof.
  intros (He & Hi & Ht & Hs). rewrite decode_wire by done. f_equal. by apply received_safe.
Qed.

#[export] Hint Resolve decode_wire_safe : raft.
#[export] Hint Rewrite encode_wire wire_length : raft.

Lemma atoh_in_range plat a : in_range 64 (atoh plat U64 a).
Proof. by apply (hton_in_range plat U64), (aton_in_range plat U64). Qed.

(** ** Properties *)

(** C17. Encoding and decoding: an event with 64-bit members encodes to a vector
    (18 bytes, 19 for a vote response), and a machine decodes its own encoding
    to the same event exactly when both members are wire-safe. *)
Theorem encode_decode_roundtrip plat e :
  e <> ElectionTimeoutEvent ->
  in_range 64 (get_server_id e) -> in_range 64 (get_term e) ->
  exists v, encode plat e = Ok v /\
    length v = (if decide (get_type e = request_vote_res) then 19 else 18)%nat /\
    (RaftEventFactory.decode plat v = Ok e <->
     wire_safe plat U64 (get_server_id e) = true /\ wire_safe plat U64 (get_term e) = true).
Proof.
  intros He Hi Ht. exists (wire plat e). rewrite encode_wire, wire_length, decode_wire by done.
  split; [done|]. split; [by destruct e|].
  rewrite <- received_safe by done. split; [by intros [=]|by intros ->].
Qed.

(** C25. What [RaftEventFactory.decode] does with any received vector: fewer
    than two bytes trip the assertion, an unknown type raises
    [invalid_argument], a known type with a body of a right length yields an
    event of that type, and a known type with any other body is undefined
    behaviour, since no constructor checks the length of its data. *)
Theorem decode_outcomes plat v :
  ((length v < 2)%nat ->
     exists what, RaftEventFactory.decode plat v = Err (AssertionFailure what)) /\
  ((2 <= length v)%nat -> ~ known_type (type_of plat v) ->
     RaftEventFactory.decode plat v = Err (InvalidArgument "unsupported type")) /\
  ((2 <= length v)%nat -> known_type (type_of plat v) ->
     (body_length_ok (type_of plat v) (length v - 2) /\
      exists e, RaftEventFactory.decode plat v = Ok e /\ get_type e = type_of plat v) \/
     (~ body_length_ok (type_of plat v) (length v - 2) /\
      exists what, RaftEventFactory.decode plat v = Err (UndefinedBehaviour what))).
Proof. split; [apply decode_short|]. split; [apply decode_unknown|apply decode_known]. Qed.

(** Machines of different byte order cannot talk: every event one of them
    encodes is rejected by the other as an unsupported type. *)
Theorem mixed_byte_order_rejects sender receiver e v :
  plat_big_endian sender <> plat_big_endian receiver ->
  e <> ElectionTimeoutEvent -> encode sender e = Ok v ->
  RaftEventFactory.decode receiver v = Err (InvalidArgument "unsupported type").
Proof.
  intros Hdiff He [= <-]%(eq_trans (eq_sym (encode_wire _ _))).
  assert (wire sender e = htoa sender U16 (get_type e) ++ wire_data sender e) as ->
    by (by destruct e).
  apply decode_unknown.
  { rewrite length_app, length_htoa. simpl. lia. }
  rewrite type_of_app by apply length_htoa. unfold known_type. rewrite !elem_of_cons, elem_of_nil.
  apply get_type_known in He. unfold known_type in He.
  rewrite !elem_of_cons, elem_of_nil in He.
  destruct He as [-> | [-> | [-> | [-> | []]]]];
    destruct sender as [[] []], receiver as [[] []]; vm_compute in Hdiff |- *; intuition congruence.
Qed.

(** Whatever the bytes, the members of a decoded event are 64-bit values. *)
Theorem decode_in_range plat v e :
  RaftEventFactory.decode plat v = Ok e ->
  in_range 64 (get_server_id e) /\ in_range 64 (get_term e) /\ e <> ElectionTimeoutEvent.
Proof.
  intros Hdec. destruct (decide (2 <= length v)%nat) as [Hlen|Hlen].
  2: { destruct (decode_short plat v ltac:(lia)) as [what Hw]. congruence. }
  rewrite decode_unfold in Hdec by done. cbv zeta in Hdec.
  assert (forall data i t, RaftBaseEvent_of plat data = Ok (i, t) ->
            in_range 64 i /\ in_range 64 t) as Hbase.
  { intros data i t Hd. destruct (decide (length data < 16)%nat).
    - by rewrite RaftBaseEvent_of_short in Hd.
    - rewrite RaftBaseEvent_of_ok in Hd by lia. simplify_eq. split; apply atoh_in_range. }
  unfold RequestVoteRes_of in Hdec.
  destruct (RaftBaseEvent_of plat (drop 2 v)) as [[i t]|] eqn:Hb; simpl in Hdec;
    [apply Hbase in Hb|]; repeat case_match; simplify_eq; simpl; try (split_and!; tauto || done).
  destruct (decode_member _ _ _ _ _); simpl in *; simplify_eq. simpl. split_and!; tauto || done.
Qed.

Lemma encode_decode_roundtrip_witness :
  exists v, encode x86_64 (RequestVoteRes 3 1000 true) = Ok v /\ length v = 19%nat /\
    RaftEventFactory.decode x86_64 v = Ok (RequestVoteRes 3 1000 true).
Proof.
  destruct (encode_decode_roundtrip x86_64 (RequestVoteRes 3 1000 true))
    as (v & Henc & Hlen & Hdec); [done|vm_compute; intuition congruence..|].
  exists v. split; [exact Henc|]. split; [exact Hlen|].
  apply Hdec. split; vm_compute; reflexivity.
Defined.

Lemma decode_outcomes_witness :
  exists what, RaftEventFactory.decode x86_64 [1; 0; 7] = Err (UndefinedBehaviour what).
Proof.
  destruct (decode_outcomes x86_64 [1; 0; 7]) as (_ & _ & H).
  destruct H as [[Hok _]|[_ Hub]]; [vm_compute; lia|vm_compute; left| |exact Hub].
  exfalso. destruct Hok as [[Hn _]|[_ Hn]]; vm_compute in Hn; [discriminate|lia].
Defined.

Lemma mixed_byte_order_rejects_witness :
  RaftEventFactory.decode s390x (wire x86_64 (RequestVoteReq 1 1))
  = Err (InvalidArgument "unsupported type").
Proof.
  apply (mixed_byte_order_rejects x86_64 s390x (RequestVoteReq 1 1));
    [done|done|vm_compute; reflexivity].
Defined.

Lemma decode_in_range_witness :
  in_range 64 (get_server_id (RequestVoteReq 1 1)) /\ in_range 64 (get_term (RequestVoteReq 1 1))
  /\ RequestVoteReq 1 1 <> ElectionTimeoutEvent.
Proof.
  apply (decode_in_range x86_64 (wire x86_64 (RequestVoteReq 1 1))). vm_compute. reflexivity.
Defined.
