(* ===== verification/NodeCommon.v ===== *)
(** * node_common.hpp: messages, endpoints and server options *)
From stdpp Require Import pretty.
From Stdlib Require Import Ascii.
From S2P Require Import Prelude Utils NetworkUtil.
Local Open Scope Z_scope.

(** struct Message: the payload; [encode] prepends its length as a header of
    [header_length] bytes. *)
Record Message := mkMessage { data : list Z }.

Definition header_length : nat := 4.

#[global] Instance Message_eq_dec : EqDecision Message.
Proof. solve_decision. Defined.

Definition Message_encode (plat : Platform) (m : Message) : result (list Z) :=
  let header := htoa plat U32 (conv U32 (Z.of_nat (length (data m)))) in
  e ← std_move header (replicate (length header + length (data m)) 0) 0;
  std_move (data m) e (length header).

(** struct EndPoint *)
Record EndPoint := mkEndPoint { host : string; port : Z }.

#[global] Instance EndPoint_eq_dec : EqDecision EndPoint.
Proof. solve_decision. Defined.

#[global] Instance EndPoint_countable : Countable EndPoint.
Proof.
  refine (inj_countable' (fun e => (host e, port e)) (fun p => mkEndPoint p.1 p.2) _).
  by intros [].
Defined.

Definition EndPoint_to_string (e : EndPoint) : string :=
  (host e +:+ ":" +:+ pretty (port e))%string.

(** [operator==] *)
Definition EndPoint_eqb (a b : EndPoint) : bool :=
  bool_decide (host a = host b) && (port a =? port b).

(** [EndPoint::hasher], for the [std::hash] functions of strings and ints. *)
Definition EndPoint_hasher (hash_string : string -> Z) (hash_int : Z -> Z) (e : EndPoint) : Z :=
  Z.lxor (hash_string (host e)) (hash_int (port e)).

(** struct Options, without its callback: the callback is an argument of the
    operations that call it. *)
Record ServerOptions := mkServerOptions { listen_port : Z; in_buf_size : nat }.

(** The frame of a message on the wire. *)
Definition frame (plat : Platform) (m : Message) : list Z :=
  htoa plat U32 (wrap 32 (Z.of_nat (length (data m)))) ++ data m.

Lemma Message_encode_frame plat m : Message_encode plat m = Ok (frame plat m).
Proof. apply std_move_two. Qed.

Lemma EndPoint_eqb_eq a b : EndPoint_eqb a b = true <-> a = b.
Proof.
  unfold EndPoint_eqb. rewrite andb_true_iff, bool_decide_eq_true, Z.eqb_eq.
  destruct a, b; simpl. split; [by intros [-> ->]|by intros [= -> ->]].
Qed.

(** ** Decimal numbers contain no colon *)

Fixpoint has_colon (s : string) : bool :=
  match s with
  | EmptyString => false
  | String c s => Ascii.eqb c ":" || has_colon s
  end.

Lemma has_colon_app s1 s2 : has_colon (s1 +:+ s2) = has_colon s1 || has_colon s2.
Proof. induction s1 as [|c s1 IH]; simpl; [done|]. by rewrite IH, orb_assoc. Qed.

Lemma pretty_N_char_colon x : Ascii.eqb (pretty_N_char x) ":" = false.
Proof. unfold pretty_N_char. by repeat case_match. Qed.

Lemma pretty_N_go_colon x s : has_colon s = false -> has_colon (pretty_N_go x s) = false.
Proof.
  revert s. induction (N.lt_wf_0 x) as [x _ IH]; intros s Hs.
  assert (x = 0 \/ 0 < x)%N as [-> | Hpos] by lia; [done|].
  rewrite pretty_N_go_step by done. apply IH; [by apply N.div_lt|].
  cbn [has_colon]. by rewrite pretty_N_char_colon.
Qed.

Lemma pretty_N_colon (x : N) : has_colon (pretty x) = false.
Proof.
  unfold pretty, pretty_N. case_decide; [done|]. by apply pretty_N_go_colon.
Qed.

Lemma pretty_Z_colon (z : Z) : has_colon (pretty z) = false.
Proof.
  unfold pretty, pretty_Z. destruct z as [|p|p]; [done|apply pretty_N_colon|].
  rewrite has_colon_app. apply pretty_N_colon.
Qed.

Lemma has_colon_mid h p : has_colon (h +:+ ":" +:+ p) = true.
Proof. rewrite has_colon_app. apply orb_true_r. Qed.

(** Splitting at the last colon is unambiguous. *)
Lemma last_colon_inj h1 h2 p1 p2 :
  has_colon p1 = false -> has_colon p2 = false ->
  (h1 +:+ ":" +:+ p1 = h2 +:+ ":" +:+ p2)%string -> h1 = h2 /\ p1 = p2.
Proof.
  intros Hp1 Hp2. revert h2.
  induction h1 as [|c h1 IH]; intros [|c2 h2] Heq; cbn in Heq; simplify_eq.
  - done.
  - assert (p1 = h2 +:+ ":" +:+ p2) as -> by done. by rewrite has_colon_mid in Hp1.
  - assert (p2 = h1 +:+ ":" +:+ p1) as -> by done. by rewrite has_colon_mid in Hp2.
  - destruct (IH h2) as [-> ->]; done.
Qed.

(** ** Properties *)

(** The text of an endpoint identifies it: endpoints with equal
    [to_string] are equal, even though a host name may contain colons. *)
Theorem EndPoint_to_string_inj a b :
  EndPoint_to_string a = EndPoint_to_string b -> a = b.
Proof.
  unfold EndPoint_to_string. destruct a as [h1 p1], b as [h2 p2]. simpl.
  intros [-> Hp]%last_colon_inj; [|apply pretty_Z_colon..].
  by apply (inj pretty) in Hp as ->.
Qed.

Lemma EndPoint_to_string_inj_witness :
  mkEndPoint "::1" 9990 = mkEndPoint "::1" 9990.
Proof. apply (EndPoint_to_string_inj (mkEndPoint "::1" 9990)). vm_compute. reflexivity. Defined.
