(* ===== verification/Node.v ===== *)
(** * node.hpp: connections of the server, the server and the client

    A [ServerConnection] reads frames from its socket: a header with the length
    of the body, then the body.  Every completion of an asynchronous read runs
    one handler; the state between two completions is the read that is
    pending.  How bytes arrive is the business of the interface [AsyncRead]:
    AsioRead.v implements it with the composed read operation of asio. *)
From S2P Require Import Prelude Utils NetworkUtil NodeCommon.
Local Open Scope Z_scope.

(** ** Asynchronous reads *)

Inductive ErrorCode := Eof | OtherError.

#[global] Instance ErrorCode_eq_dec : EqDecision ErrorCode.
Proof. solve_decision. Defined.

(** The completion of a read: the bytes put into the front of the buffer. *)
Inductive ReadResult :=
| ReadDone (bytes : list Z)
| ReadFailed (ec : ErrorCode) (bytes : list Z).

(** [async_read n st] fills a buffer of [n] bytes from the stream [st];
    [incoming st] is what the peer will have sent when it closes. *)
Class AsyncRead (St : Type) := {
  async_read : nat -> St -> ReadResult * St;
  incoming : St -> list Z;
}.

Class AsyncReadOk (St : Type) `{AsyncRead St} := {
  async_read_full n st :
    (n <= length (incoming st))%nat ->
    exists st', async_read n st = (ReadDone (take n (incoming st)), st') /\
      incoming st' = drop n (incoming st);
  async_read_eof n st :
    (length (incoming st) < n)%nat ->
    exists bytes st', async_read n st = (ReadFailed Eof bytes, st');
}.

(** ** class ServerConnection *)

Inductive PendingRead := ReadHeader | ReadBody (body_length : nat).

Record ServerConnection := mkConnection {
  sender_ : EndPoint;
  header_ : list Z;
  body_ : list Z;
  pending : option PendingRead;
}.

Inductive ConnectionEffect :=
| Deliver (message : Message) (sender : EndPoint)   (* [op_.on_message (message, *sender_)] *)
| CloseSocket.

Section connection.
Context (plat : Platform).

Local Abbreviation M := (comp ServerConnection ConnectionEffect).

(** The constructor. *)
Definition new_ServerConnection (remote_endpoint : EndPoint) (op : ServerOptions) : ServerConnection :=
  mkConnection remote_endpoint (replicate header_length 0) (replicate (in_buf_size op) 0) None.

(** The constructor as it is called: it throws what [socket_.remote_endpoint ()]
    throws, before there is an object. *)
Definition construct_ServerConnection (remote_endpoint : result EndPoint) (op : ServerOptions) : result ServerConnection :=
  ep ← remote_endpoint; Ok (new_ServerConnection ep op).

Definition set_pending (p : option PendingRead) (c : ServerConnection) : ServerConnection :=
  mkConnection (sender_ c) (header_ c) (body_ c) p.

(** A read into the front of a buffer. *)
Definition fill (buffer bytes : list Z) : list Z := bytes ++ drop (length bytes) buffer.

Definition close : M unit := modify (set_pending None) ;; (emit CloseSocket).

Definition read_header : M unit := modify (set_pending (Some ReadHeader)).

Definition read_body : M unit :=
  c ← get_state;
  let body_length := Z.to_nat (atoh plat U32 (header_ c)) in
  if bool_decide (length (body_ c) < body_length)%nat then close
  else modify (set_pending (Some (ReadBody body_length))).

(** The handler of [read_header]: it closes the socket on every error. *)
Definition on_header (r : ReadResult) : M unit :=
  let bytes := match r with ReadDone b | ReadFailed _ b => b end in
  modify (fun c => mkConnection (sender_ c) (fill (header_ c) bytes) (body_ c) (pending c)) ;;
  match r with
  | ReadFailed _ _ => close
  | ReadDone _ => read_body
  end.

(** The handler of [read_body]. *)
Definition on_body (body_length : nat) (r : ReadResult) : M unit :=
  let bytes := match r with ReadDone b | ReadFailed _ b => b end in
  modify (fun c => mkConnection (sender_ c) (header_ c) (fill (body_ c) bytes) (pending c)) ;;
  match r with
  | ReadFailed _ _ => close
  | ReadDone _ =>
      c ← get_state;
      data ← lift (std_move (take body_length (body_ c)) (replicate body_length 0) 0);
      emit (Deliver (mkMessage data) (sender_ c)) ;;
      read_header
  end.

(** [start] *)
Definition start_connection : M unit := read_header.

(** ** The life of a connection *)

Context {St : Type} `{AR : !AsyncRead St}.

(** Complete the pending read, at most [fuel] times. *)
Fixpoint serve (fuel : nat) (st : St) : M unit :=
  match fuel with
  | O => fail_with OutOfFuel
  | S fuel =>
      c ← get_state;
      match pending c with
      | None => mret tt
      | Some ReadHeader =>
          let '(r, st) := async_read header_length st in on_header r ;; serve fuel st
      | Some (ReadBody n) =>
          let '(r, st) := async_read n st in on_body n r ;; serve fuel st
      end
  end.

(** A new connection served to its end. *)
Definition connection (fuel : nat) (st : St) : M unit := start_connection ;; serve fuel st.

(** ** Lemmas *)

Context `{!AsyncReadOk St}.

(** A message the server accepts: its length fits the buffer and survives the
    header. *)
Definition acceptable (op : ServerOptions) (m : Message) : Prop :=
  (length (data m) <= in_buf_size op)%nat /\
  in_range 32 (Z.of_nat (length (data m))) /\
  wire_safe plat U32 (Z.of_nat (length (data m))) = true.

(** The connection of [sender] waiting for a header. *)
Definition waiting (op : ServerOptions) (sender : EndPoint) (c : ServerConnection) : Prop :=
  sender_ c = sender /\ length (header_ c) = header_length /\
  length (body_ c) = in_buf_size op /\ pending c = Some ReadHeader.

Lemma fill_length buffer bytes :
  (length bytes <= length buffer)%nat -> length (fill buffer bytes) = length buffer.
Proof. intros. unfold fill. rewrite length_app, length_drop. lia. Qed.

Lemma fill_all buffer bytes : length bytes = length buffer -> fill buffer bytes = bytes.
Proof. intros Hlen. unfold fill. by rewrite Hlen, drop_all, app_nil_r. Qed.

Lemma frame_split m : frame plat m
  = htoa plat U32 (wrap 32 (Z.of_nat (length (data m)))) ++ data m.
Proof. done. Qed.

Lemma length_frame m : length (frame plat m) = (header_length + length (data m))%nat.
Proof. rewrite frame_split, length_app, length_htoa. done. Qed.

(** The header of a message of [n] bytes has arrived. *)
Lemma serve_header fuel op sender c st n tail :
  waiting op sender c ->
  incoming st = htoa plat U32 (wrap 32 (Z.of_nat n)) ++ tail ->
  in_range 32 (Z.of_nat n) -> wire_safe plat U32 (Z.of_nat n) = true ->
  exists c' st', incoming st' = tail /\ sender_ c' = sender /\
    length (header_ c') = header_length /\ length (body_ c') = in_buf_size op /\
    (if bool_decide (in_buf_size op < n)%nat
     then serve (S fuel) st c = after [CloseSocket] (serve fuel st' c') /\ pending c' = None
     else serve (S fuel) st c = serve fuel st' c' /\ pending c' = Some (ReadBody n)).
Proof.
  intros (Hs & Hh & Hb & Hp) Hin Hr Hsafe.
  assert (Z.to_nat (atoh plat U32 (htoa plat U32 (wrap 32 (Z.of_nat n)))) = n) as Hvalue.
  { rewrite wrap_small by done. rewrite atoh_htoa; [lia|exact Hr|done]. }
  set (header := htoa plat U32 _) in *.
  assert (length header = header_length) as Hlen by (unfold header; by rewrite length_htoa).
  destruct (async_read_full header_length st) as (st' & Hread & Hin').
  { rewrite Hin, length_app. lia. }
  rewrite Hin, take_app_length' in Hread by done.
  rewrite Hin, drop_app_length' in Hin' by done.
  assert (fill (header_ c) header = header) as Hfill by (apply fill_all; congruence).
  destruct (bool_decide_reflect (in_buf_size op < n)%nat) as [Hbig|Hfit].
  - exists (mkConnection sender header (body_ c) None), st'. split_and!; try done.
    cbn [serve]. rewrite run_get, Hp, Hread. unfold on_header. run. unfold read_body. run.
    cbn [header_ body_]. rewrite Hfill, Hvalue, bool_decide_eq_true_2 by (rewrite Hb; lia).
    unfold close. run. by rewrite Hs.
  - exists (mkConnection sender header (body_ c) (Some (ReadBody n))), st'.
    split_and!; try done.
    cbn [serve]. rewrite run_get, Hp, Hread. unfold on_header. run. unfold read_body. run.
    cbn [header_ body_]. rewrite Hfill, Hvalue, bool_decide_eq_false_2 by (rewrite Hb; lia).
    run. by rewrite Hs.
Qed.

(** Then its body. *)
Lemma serve_body fuel op sender c st m rest :
  sender_ c = sender -> length (header_ c) = header_length -> length (body_ c) = in_buf_size op ->
  pending c = Some (ReadBody (length (data m))) -> (length (data m) <= in_buf_size op)%nat ->
  incoming st = data m ++ rest ->
  exists c' st', incoming st' = rest /\ waiting op sender c' /\
    serve (S fuel) st c = after [Deliver m sender] (serve fuel st' c').
Proof.
  intros Hs Hh Hb Hp Hfit Hin.
  destruct (async_read_full (length (data m)) st) as (st' & Hread & Hin').
  { rewrite Hin, length_app. lia. }
  rewrite Hin, take_app_length in Hread. rewrite Hin, drop_app_length in Hin'.
  exists (mkConnection sender (header_ c) (fill (body_ c) (data m)) (Some ReadHeader)), st'.
  split_and!; [done|split_and!; [done|done|by simpl; rewrite fill_length by lia|done]|].
  cbn [serve]. rewrite run_get, Hp, Hread. unfold on_body. run. cbn [body_].
  assert (take (length (data m)) (fill (body_ c) (data m)) = data m) as ->
    by apply take_app_length.
  rewrite std_move_fresh by done. run.
  unfold read_header. run. rewrite Hs. by destruct m.
Qed.

Lemma serve_message fuel op sender c st m rest :
  waiting op sender c -> acceptable op m -> incoming st = frame plat m ++ rest ->
  exists c' st', incoming st' = rest /\ waiting op sender c' /\
    serve (S (S fuel)) st c = after [Deliver m sender] (serve fuel st' c').
Proof.
  intros Hw (Hfit & Hr & Hsafe) Hin. unfold frame in Hin. rewrite <- (assoc_L (++)) in Hin.
  destruct (serve_header (S fuel) op sender c st _ _ Hw Hin Hr Hsafe)
    as (c1 & st1 & Hin1 & Hs1 & Hh1 & Hb1 & Hcase).
  rewrite bool_decide_eq_false_2 in Hcase by lia. destruct Hcase as [-> Hp1].
  by apply serve_body with (rest := rest) (m := m).
Qed.

Lemma serve_closed fuel st c : pending c = None -> serve (S fuel) st c = ([], c, Ok tt).
Proof. intros Hp. cbn [serve]. by rewrite run_get, Hp. Qed.

(** The stream ends before the pending read is complete. *)
Lemma serve_eof fuel n st c :
  pending c = Some ReadHeader /\ n = header_length \/ pending c = Some (ReadBody n) ->
  (length (incoming st) < n)%nat ->
  exists c', serve (S (S fuel)) st c = ([CloseSocket], c', Ok tt) /\ pending c' = None.
Proof.
  intros Hp Hshort. destruct (async_read_eof n st Hshort) as (bytes & st' & Hread).
  destruct Hp as [[Hp ->]|Hp].
  all: eexists; split; cbn [serve];
    [rewrite run_get, Hp, Hread; unfold on_header, on_body; run; unfold close; run;
     cbn [pending set_pending]; by run|done].
Qed.

(** It ends before the header or the body of [m] is complete. *)
Lemma serve_end fuel op sender c st m k :
  waiting op sender c -> acceptable op m -> (k < length (frame plat m))%nat ->
  incoming st = take k (frame plat m) ->
  exists c', serve (S (S (S fuel))) st c = ([CloseSocket], c', Ok tt) /\ pending c' = None.
Proof.
  intros Hw (Hfit & Hr & Hsafe) Hk Hin. rewrite length_frame in Hk.
  destruct (decide (k < header_length)%nat) as [Hshort|Hlong].
  - apply (serve_eof _ header_length); [left; by destruct Hw as (_ & _ & _ & ?)|].
    rewrite Hin, length_take, length_frame. lia.
  - unfold frame in Hin. rewrite take_app, take_ge in Hin 
      by (rewrite length_htoa; unfold header_length in *; simpl in *; lia).
    destruct (serve_header (S (S fuel)) op sender c st _ _ Hw Hin Hr Hsafe)
      as (c1 & st1 & Hin1 & Hs1 & Hh1 & Hb1 & Hcase).
    rewrite bool_decide_eq_false_2 in Hcase by lia. destruct Hcase as [-> Hp1].
    apply (serve_eof _ (length (data m))); [by right|].
    rewrite Hin1, length_take, length_htoa. unfold header_length in *. simpl in *. lia.
Qed.

Lemma waiting_new op sender :
  waiting op sender (set_pending (Some ReadHeader) (new_ServerConnection sender op)).
Proof. unfold waiting. simpl. by rewrite length_replicate. Qed.

Lemma serve_messages fuel op sender ms last k c st :
  waiting op sender c -> Forall (acceptable op) (ms ++ [last]) ->
  (k < length (frame plat last))%nat ->
  incoming st = (ms ≫= frame plat) ++ take k (frame plat last) ->
  (2 * length ms + 3 <= fuel)%nat ->
  exists c', serve fuel st c
    = (((fun m => Deliver m sender) <$> ms) ++ [CloseSocket], c', Ok tt) /\ pending c' = None.
Proof.
  intros Hw Hms Hk Hin Hfuel. revert fuel c st Hw Hms Hin Hfuel.
  induction ms as [|m ms IH]; intros fuel c st Hw Hms Hin Hfuel.
  - cbn [app] in Hms. rewrite Forall_singleton in Hms. destruct fuel as [|[|[|fuel]]]; simpl in Hfuel; [lia..|].
    exact (serve_end fuel op sender c st last k Hw Hms Hk Hin).
  - apply Forall_cons in Hms as [Hm Hms]. cbn [length mbind list_bind app] in *.
    rewrite <- (assoc_L (++)) in Hin. destruct fuel as [|[|fuel]]; [lia..|].
    destruct (serve_message fuel op sender c st m _ Hw Hm Hin) as (c1 & st1 & Hin1 & Hw1 & Hrun).
    destruct (IH fuel c1 st1) as (c' & Hrun' & Hp); [done..|lia|].
    exists c'. split; [|done]. by rewrite Hrun, Hrun'.
Qed.

(** ** Properties *)

(** Framing.  A connection that receives the frames of messages that fit the
    buffer, however the network cuts them into pieces, delivers exactly these
    messages in their order, and then, at the end of the stream or in the middle
    of a further frame, closes the socket without delivering anything else. *)
Theorem connection_delivers_frames fuel op sender ms last k st :
  Forall (acceptable op) (ms ++ [last]) -> (k < length (frame plat last))%nat ->
  incoming st = (ms ≫= frame plat) ++ take k (frame plat last) ->
  (2 * length ms + 3 <= fuel)%nat ->
  exists c', connection fuel st (new_ServerConnection sender op)
    = (((fun m => Deliver m sender) <$> ms) ++ [CloseSocket], c', Ok tt) /\ pending c' = None.
Proof.
  intros Hms Hk Hin Hfuel. unfold connection, start_connection, read_header. rewrite run_modify.
  by apply (serve_messages fuel op sender ms last k); [apply waiting_new|..].
Qed.

(** A message longer than the buffer closes the connection: the messages
    before it are delivered, it and whatever follows are lost. *)
Theorem oversize_message_closes fuel op sender ms big rest st :
  Forall (acceptable op) ms -> (in_buf_size op < length (data big))%nat ->
  in_range 32 (Z.of_nat (length (data big))) ->
  wire_safe plat U32 (Z.of_nat (length (data big))) = true ->
  incoming st = (ms ≫= frame plat) ++ frame plat big ++ rest ->
  (2 * length ms + 2 <= fuel)%nat ->
  exists c', connection fuel st (new_ServerConnection sender op)
    = (((fun m => Deliver m sender) <$> ms) ++ [CloseSocket], c', Ok tt) /\ pending c' = None.
Proof.
  intros Hms Hbig Hr Hsafe Hin Hfuel. unfold connection, start_connection, read_header.
  rewrite run_modify. pose proof (waiting_new op sender) as Hw.
  set (c := set_pending _ _) in *. clearbody c.
  revert fuel c st Hw Hms Hin Hfuel.
  induction ms as [|m ms IH]; intros fuel c st Hw Hms Hin Hfuel.
  - destruct fuel as [|[|fuel]]; simpl in Hfuel; [lia..|]. cbn [mbind list_bind app] in Hin.
    unfold frame in Hin. rewrite <- (assoc_L (++)) in Hin.
    destruct (serve_header (S fuel) op sender c st _ _ Hw Hin Hr Hsafe)
      as (c1 & st1 & _ & _ & _ & _ & Hcase).
    rewrite bool_decide_eq_true_2 in Hcase by lia. destruct Hcase as [-> Hp].
    exists c1. split; [|done]. by rewrite serve_closed.
  - apply Forall_cons in Hms as [Hm Hms]. cbn [length mbind list_bind app] in *.
    rewrite <- (assoc_L (++)) in Hin. destruct fuel as [|[|fuel]]; [lia..|].
    destruct (serve_message fuel op sender c st m _ Hw Hm Hin) as (c1 & st1 & Hin1 & Hw1 & Hrun).
    destruct (IH fuel c1 st1) as (c' & Hrun' & Hp); [done..|lia|].
    exists c'. split; [|done]. by rewrite Hrun, Hrun'.
Qed.

End connection.

(** ** class Server *)

(** What the server asks of its [io_context] and acceptor. *)
Inductive ServerRequest :=
| OpenAcceptor (port : Z)
| AsyncAccept
| RunLoop          (* [io_context_.run ()], which returns when the loop is stopped *)
| StopLoop
| CloseAcceptor.

#[global] Instance ServerRequest_eq_dec : EqDecision ServerRequest.
Proof. solve_decision. Defined.

(** The two once-flags and the connections accepted so far. *)
Record Server := mkServer {
  srv_op : ServerOptions;
  start_flag_ : bool;
  stop_flag_ : bool;
  accepted : list ServerConnection;
}.

Section server.
Local Abbreviation M := (comp Server ServerRequest).

(** The constructor; [opens] is what the constructor of the acceptor does, which
    throws if the port cannot be bound. *)
Definition new_Server (op : ServerOptions) (opens : result unit) : list ServerRequest * result Server :=
  ([OpenAcceptor (listen_port op)], _ ← opens; Ok (mkServer op false false [])).

Definition accept : M unit := emit AsyncAccept.

Definition Server_start : M unit :=
  s ← get_state;
  when (negb (start_flag_ s))
    (modify (fun s => mkServer (srv_op s) true (stop_flag_ s) (accepted s)) ;;
     (accept ;; (emit RunLoop))).

Definition Server_stop : M unit :=
  s ← get_state;
  when (negb (stop_flag_ s))
    (modify (fun s => mkServer (srv_op s) (start_flag_ s) true (accepted s)) ;;
     (emit StopLoop ;; (emit CloseAcceptor))).

(** The completion of an accept; with a new socket, what its [remote_endpoint ()]
    gives. *)
Inductive AcceptOutcome :=
| NotAccepted
| Accepted (remote_endpoint : result EndPoint).

(** The handler of [accept]: a connection is made and starts to read, or the error is
    logged; then the next connection is awaited. *)
Definition on_accept (a : AcceptOutcome) : M unit :=
  match a with
  | NotAccepted => mret tt
  | Accepted remote_endpoint =>
      s ← get_state;
      conn ← lift (construct_ServerConnection remote_endpoint (srv_op s));
      let conn := (start_connection conn).1.2 in
      modify (fun s => mkServer (srv_op s) (start_flag_ s) (stop_flag_ s) (accepted s ++ [conn]))
  end ;; accept.

(** A handler runs inside [io_context_.run ()]: what it throws leaves [run] and the
    function given to [call_once], which leaves the flag unset. *)
Definition in_loop (handler : M unit) : M unit := fun s =>
  let '(es, s, r) := handler s in
  match r with
  | Ok _ => (es, s, r)
  | Err f => (es, mkServer (srv_op s) false (stop_flag_ s) (accepted s), Err f)
  end.

Inductive ServerCall := DoStart | DoStop | DoAccept (a : AcceptOutcome).

Definition server_call (c : ServerCall) : M unit :=
  match c with
  | DoStart => Server_start
  | DoStop => Server_stop
  | DoAccept a => in_loop (on_accept a)
  end.

End server.

(** How often the request [x] was made. *)
Definition requests (x : ServerRequest) (es : list ServerRequest) : nat := length (filter (x =.) es).

Definition accepts (calls : list ServerCall) : nat :=
  length (omap (fun c => match c with DoAccept a => Some a | _ => None end) calls).

(** The address of the peer of an accepted connection can be had when the handler
    runs. *)
Definition peer_present (c : ServerCall) : Prop := forall f, c <> DoAccept (Accepted (Err f)).

(** Whether a once-flag still lets its function run. *)
Definition unset (flag : bool) : nat := if flag then 0 else 1.

Lemma requests_app x es es' : requests x (es ++ es') = (requests x es + requests x es')%nat.
Proof. unfold requests. by rewrite filter_app, length_app. Qed.

Definition all_waiting (s : Server) : Prop :=
  Forall (fun c => exists ep, waiting (srv_op s) ep c) (accepted s).

Record server_step (n : nat) (s : Server) (es : list ServerRequest) (s' : Server) : Prop := {
  step_start : (requests RunLoop es + unset (start_flag_ s') = unset (start_flag_ s))%nat;
  step_stop : (requests StopLoop es + unset (stop_flag_ s') = unset (stop_flag_ s))%nat;
  step_accepts : requests AsyncAccept es = (requests RunLoop es + n)%nat;
  step_waiting : all_waiting s -> all_waiting s';
}.

(** The three ways the handler of an accept ends. *)
Lemma accept_refused s : in_loop (on_accept NotAccepted) s = ([AsyncAccept], s, Ok tt).
Proof. done. Qed.

Lemma accept_made ep s :
  in_loop (on_accept (Accepted (Ok ep))) s
  = ([AsyncAccept],
     mkServer (srv_op s) (start_flag_ s) (stop_flag_ s)
       (accepted s ++ [(start_connection (new_ServerConnection ep (srv_op s))).1.2]), Ok tt).
Proof. done. Qed.

Lemma accept_thrown f s :
  in_loop (on_accept (Accepted (Err f))) s
  = ([], mkServer (srv_op s) false (stop_flag_ s) (accepted s), Err f).
Proof. done. Qed.

Lemma server_call_step c s : peer_present c ->
  exists es s', server_call c s = (es, s', Ok tt) /\ server_step (accepts [c]) s es s'.
Proof.
  intros Hc. destruct c as [| |[|[ep|f]]]; simpl.
  - unfold Server_start. run. destruct (start_flag_ s) eqn:Hf; simpl.
    + eexists _, _. split; [done|]. split; simpl; rewrite ?Hf; done.
    + eexists _, _. split; [by run|]. by split; simpl; rewrite ?Hf.
  - unfold Server_stop. run. destruct (stop_flag_ s) eqn:Hf; simpl.
    + eexists _, _. split; [done|]. split; simpl; rewrite ?Hf; done.
    + eexists _, _. split; [by run|]. by split; simpl; rewrite ?Hf.
  - eexists _, _. split; [done|]. by split.
  - eexists _, _. split; [unfold in_loop, on_accept; by run|]. split; simpl; [done..|].
    intros Hw. unfold all_waiting. simpl. apply Forall_app. split; [done|].
    apply Forall_singleton. exists ep. apply waiting_new.
  - by destruct (Hc f).
Qed.

Lemma server_calls_step calls s : Forall peer_present calls ->
  exists es s', for_each server_call calls s = (es, s', Ok tt) /\ server_step (accepts calls) s es s'.
Proof.
  intros Hcalls. revert s. induction Hcalls as [|c calls Hc _ IH]; intros s.
  - exists [], s. split; [done|]. by split.
  - destruct (server_call_step c s Hc) as (es1 & s1 & Hrun1 & [H1 H2 H3 H4]).
    destruct (IH s1) as (es2 & s2 & Hrun2 & [G1 G2 G3 G4]).
    exists (es1 ++ es2), s2. cbn [for_each]. erewrite run_bind_ok by exact Hrun1.
    rewrite Hrun2. split; [done|].
    replace (accepts (c :: calls)) with (accepts [c] + accepts calls)%nat by by destruct c.
    split; rewrite ?requests_app; [lia..|auto].
Qed.

(** The server's event loop runs once: over any sequence of calls and
    accepted connections whose peers stay the loop is entered at most once and
    stopped at most once, so that a server that was stopped cannot be started
    again; one accept is requested by the first start and one after each completed
    accept; and every accepted connection waits for a header with a buffer of the
    configured size. *)
Theorem server_loop_runs_once calls s : Forall peer_present calls ->
  exists es s', for_each server_call calls s = (es, s', Ok tt) /\
    (requests RunLoop es + unset (start_flag_ s') = unset (start_flag_ s))%nat /\
    (requests StopLoop es + unset (stop_flag_ s') = unset (stop_flag_ s))%nat /\
    requests AsyncAccept es = (requests RunLoop es + accepts calls)%nat /\
    (all_waiting s -> all_waiting s').
Proof.
  intros Hcalls. destruct (server_calls_step calls s Hcalls) as (es & s' & Hrun & [H1 H2 H3 H4]). by exists es, s'.
Qed.

(** ** Examples *)

(** A peer whose bytes are all there, then the end of the stream. *)
#[export] Instance list_stream : AsyncRead (list Z) := {|
  async_read n st :=
    if bool_decide (n <= length st)%nat then (ReadDone (take n st), drop n st)
    else (ReadFailed Eof st, []);
  incoming st := st;
|}.

#[export] Instance list_stream_ok : AsyncReadOk (list Z).
Proof.
  split; intros n st Hn; simpl in *.
  - rewrite bool_decide_eq_true_2 by done. eauto.
  - rewrite bool_decide_eq_false_2 by lia. eauto.
Qed.

Definition peer : EndPoint := mkEndPoint "127.0.0.1" 40000.
Definition small_buffer : ServerOptions := mkServerOptions 9990 16.

Lemma connection_delivers_frames_witness :
  exists c', connection x86_64 7
      (frame x86_64 (mkMessage [1; 2]) ++ frame x86_64 (mkMessage []) ++ [5; 0; 0; 0; 9])
      (new_ServerConnection peer small_buffer)
    = ([Deliver (mkMessage [1; 2]) peer; Deliver (mkMessage []) peer; CloseSocket], c', Ok tt) /\
    pending c' = None.
Proof.
  apply (connection_delivers_frames x86_64 7 small_buffer peer [mkMessage [1; 2]; mkMessage []]
    (mkMessage [9; 9; 9; 9; 9]) 5).
  - cbn [app]. repeat (apply Forall_cons; split; [split_and!; vm_compute; (lia || intuition congruence)|]).
    by apply Forall_nil.
  - vm_compute. lia.
  - reflexivity.
  - simpl. lia.
Defined.

Lemma oversize_message_closes_witness :
  exists c', connection x86_64 4
      (frame x86_64 (mkMessage [1; 2]) ++ frame x86_64 (mkMessage (replicate 17 7)) ++ [1; 2; 3])
      (new_ServerConnection peer small_buffer)
    = ([Deliver (mkMessage [1; 2]) peer; CloseSocket], c', Ok tt) /\ pending c' = None.
Proof.
  apply (oversize_message_closes x86_64 4 small_buffer peer [mkMessage [1; 2]]
    (mkMessage (replicate 17 7)) [1; 2; 3]).
  - cbn [app]. repeat (apply Forall_cons; split; [split_and!; vm_compute; (lia || intuition congruence)|]).
    by apply Forall_nil.
  - vm_compute. lia.
  - vm_compute. intuition congruence.
  - by vm_compute.
  - reflexivity.
  - simpl. lia.
Defined.
