(* ===== verification/ConnectionPool.v ===== *)
(** * connection_pool.hpp and the client of node.hpp: outgoing connections

    The pool caches one connection per end point.  A [shared_ptr<Connection>]
    is the number of a connection; the connections live in a store.  What the
    network does with a call of asio is an argument: [Network] says how the
    [k]-th dial and the [k]-th write end, [NetworkOk] that a write that fails
    stops before the last byte. *)
From S2P Require Import Prelude Utils NetworkUtil NodeCommon.
Local Open Scope Z_scope.

(** [resolver.resolve] throws, [asio::connect] reports an error, or both work. *)
Inductive DialOutcome := ResolveThrows | ConnectFails | Connected.

Class Network := {
  dial : nat -> EndPoint -> DialOutcome;
  (* [Some n]: the write of so many bytes fails after [n] of them *)
  write_outcome : nat -> nat -> option nat;
}.

Class NetworkOk `(Network) := {
  write_partial k len n : write_outcome k len = Some n -> (n < len)%nat;
}.

(** class Connection: the remote end point of the socket, the flag of the
    connection, whether the socket is open, and the bytes handed to it so far. *)
Record Connection := mkConn {
  remote : EndPoint;
  closed_ : bool;
  soc_open : bool;
  written : list Z;
}.

(** class ConnectionPool with the store of the connections it made and the
    number of dials and writes so far. *)
Record ConnectionPool := mkPool {
  conns_ : gmap EndPoint nat;
  store : gmap nat Connection;
  next_conn : nat;
  dials : nat;
  writes : nat;
}.

Definition new_ConnectionPool : ConnectionPool := mkPool ∅ ∅ 0 0 0.

Inductive PoolEffect :=
| Dial (endpoint : EndPoint)
| Write (conn : nat) (bytes : list Z)
| CloseConnection (conn : nat)
| ReportError (what : string).

Section pool.
Context `{Network} (plat : Platform).

Local Abbreviation M := (comp ConnectionPool PoolEffect).
Implicit Types (p : ConnectionPool).

Definition set_conns f p : ConnectionPool :=
  mkPool (f (conns_ p)) (store p) (next_conn p) (dials p) (writes p).
Definition set_store f p : ConnectionPool :=
  mkPool (conns_ p) (f (store p)) (next_conn p) (dials p) (writes p).

(** [iter->second->closed ()] *)
Definition closed p (id : nat) : bool := from_option closed_ false (store p !! id).

(** [create]: a number for the new connection, or [nullptr]. *)
Definition create (endpoint : EndPoint) : M (option nat) :=
  p ← get_state;
  emit (Dial endpoint) ;;
  (modify (fun p => mkPool (conns_ p) (store p) (next_conn p) (S (dials p)) (writes p)) ;;
   match dial (dials p) endpoint with
   | ResolveThrows => fail_with (SystemError "resolve")
   | ConnectFails => emit (ReportError "cannot connect to server") ;; (mret None)
   | Connected =>
       let id := next_conn p in
       modify (fun p => mkPool (conns_ p) (<[id := mkConn endpoint false true []]> (store p)) (S id)
                          (dials p) (writes p)) ;;
       (mret (Some id))
   end).

(** The last pointer to a connection goes away: its destructor closes it. *)
Definition release (id : nat) : M unit :=
  emit (CloseConnection id) ;;
  (modify (set_store (alter (fun c => mkConn (remote c) (closed_ c) false (written c)) id))).

(** [conns_[endpoint] = conn] *)
Definition assign (endpoint : EndPoint) (conn : nat) : M unit :=
  p ← get_state;
  modify (set_conns (<[endpoint := conn]>)) ;;
  match conns_ p !! endpoint with
  | Some old => release old
  | None => mret tt
  end.

Definition get (endpoint : EndPoint) : M (option nat) :=
  p ← get_state;
  if match conns_ p !! endpoint with None => true | Some id => closed p id end then
    conn ← create endpoint;
    match conn with
    | Some id => assign endpoint id ;; (mret (Some id))
    | None => mret None
    end
  else mret (conns_ p !! endpoint).

(** [Connection::write] *)
Definition write (id : nat) (msg : Message) : M unit :=
  bytes ← lift (Message_encode plat msg);
  p ← get_state;
  let outcome := write_outcome (writes p) (length bytes) in
  let failed := bool_decide (is_Some outcome) in
  let out := match outcome with Some n => take n bytes | None => bytes end in
  emit (Write id out) ;;
  (modify (fun p => mkPool (conns_ p)
      (alter (fun c => mkConn (remote c) (closed_ c || failed) (soc_open c) (written c ++ out)) id (store p))
      (next_conn p) (dials p) (S (writes p))) ;;
   (when failed (emit (ReportError "failed to send message, closing connection")))).

(** [Client::send]; the message is moved from, so its data is gone afterwards. *)
Definition Client_send (endpoint : EndPoint) (message : Message) : M unit :=
  conn ← get endpoint;
  match conn with
  | None => emit (ReportError "failed to acquire connection")
  | Some id => write id message
  end.

(** ** The invariant *)

(** The messages of [sends] to one end point. *)
Definition messages_to (endpoint : EndPoint) (sends : list (EndPoint * Message)) : list Message :=
  omap (fun s => if bool_decide (s.1 = endpoint) then Some s.2 else None) sends.

(** What a connection has written: frames of messages sent to its end point, in
    order, and after a failure the beginning of one more. *)
Record conn_ok (sends : list (EndPoint * Message)) (c : Connection) (ms : list Message) (last : Message) (k : nat) : Prop := {
  co_written : written c = (ms ≫= frame plat) ++ take k (frame plat last);
  co_partial : (k < length (frame plat last))%nat;
  co_open : closed_ c = false -> k = 0%nat;
  co_sent : ms `sublist_of` messages_to (remote c) sends;
  co_last : k <> 0%nat -> ms ++ [last] `sublist_of` messages_to (remote c) sends;
}.

Record pool_ok (sends : list (EndPoint * Message)) p : Prop := {
  po_fresh id : is_Some (store p !! id) -> (id < next_conn p)%nat;
  po_conn id c : store p !! id = Some c -> exists ms last k, conn_ok sends c ms last k;
  po_pool ep id : conns_ p !! ep = Some id ->
    exists c, store p !! id = Some c /\ soc_open c = true /\ remote c = ep;
}.

Lemma pool_ok_new : pool_ok [] new_ConnectionPool.
Proof. split; [by intros id [c ?]|done|done]. Qed.

(** Only dials and failures counted. *)
Lemma pool_ok_counters sends p d w :
  pool_ok sends p -> pool_ok sends (mkPool (conns_ p) (store p) (next_conn p) d w).
Proof. by intros []. Qed.

Lemma conn_ok_more sends s c ms last k :
  conn_ok sends c ms last k -> conn_ok (sends ++ [s]) c ms last k.
Proof.
  intros []. split; [done..| |]; unfold messages_to in *; rewrite omap_app; intros; apply sublist_inserts_r; auto.
Qed.

Lemma pool_ok_more sends s p : pool_ok sends p -> pool_ok (sends ++ [s]) p.
Proof.
  intros [? Hc ?]. split; [done| |done]. intros id c Hid.
  destruct (Hc id c Hid) as (ms & last & k & ?). exists ms, last, k. by apply conn_ok_more.
Qed.

(** A new open connection replaces the one of its end point. *)
Definition assigned (endpoint : EndPoint) p : ConnectionPool :=
  let id := next_conn p in
  let store' := <[id := mkConn endpoint false true []]> (store p) in
  mkPool (<[endpoint := id]> (conns_ p))
    (match conns_ p !! endpoint with
     | Some old => alter (fun c => mkConn (remote c) (closed_ c) false (written c)) old store'
     | None => store'
     end) (S id) (S (dials p)) (writes p).

Lemma pool_conn_below sends p ep id :
  pool_ok sends p -> conns_ p !! ep = Some id -> (id < next_conn p)%nat.
Proof.
  intros Hok Hid. destruct (po_pool _ _ Hok ep id Hid) as (c & Hc & _).
  by apply (po_fresh _ _ Hok).
Qed.

(** A connection is pooled for the end point it is connected to. *)
Lemma pool_conn_unique sends p ep ep' id :
  pool_ok sends p -> conns_ p !! ep = Some id -> conns_ p !! ep' = Some id -> ep = ep'.
Proof.
  intros Hok (c & Hc & _ & Hr)%(po_pool _ _ Hok) (c' & Hc' & _ & Hr')%(po_pool _ _ Hok). congruence.
Qed.

Lemma assigned_store endpoint p id :
  id <> next_conn p ->
  store (assigned endpoint p) !! id
  = if decide (conns_ p !! endpoint = Some id)
    then (fun c => mkConn (remote c) (closed_ c) false (written c)) <$> store p !! id else store p !! id.
Proof.
  intros Hne. unfold assigned. simpl. destruct (conns_ p !! endpoint) as [old|] eqn:Hold.
  - rewrite lookup_alter. case_decide as Hid; case_decide as Hid'; simplify_eq;
      by rewrite lookup_insert_ne by done.
  - rewrite lookup_insert_ne by done. by rewrite decide_False by done.
Qed.

Lemma assigned_new sends endpoint p :
  pool_ok sends p -> store (assigned endpoint p) !! next_conn p = Some (mkConn endpoint false true []).
Proof.
  intros Hok. unfold assigned. simpl. destruct (conns_ p !! endpoint) as [old|] eqn:Hold.
  - pose proof (pool_conn_below _ _ _ _ Hok Hold). rewrite lookup_alter_ne by lia.
    by rewrite lookup_insert_eq.
  - by rewrite lookup_insert_eq.
Qed.

Lemma assigned_ok sends endpoint p : pool_ok sends p -> pool_ok sends (assigned endpoint p).
Proof.
  intros Hok. pose proof (assigned_new sends endpoint p Hok) as Hnew. split.
  - intros id Hid. simpl. destruct (decide (id = next_conn p)) as [->|Hne]; [lia|].
    assert (is_Some (store p !! id)) as Hold.
    { rewrite assigned_store in Hid by done. case_decide; [by rewrite fmap_is_Some in Hid|done]. }
    apply (po_fresh _ _ Hok) in Hold. lia.
  - intros id c Hc. destruct (decide (id = next_conn p)) as [->|Hne].
    + rewrite Hnew in Hc. injection Hc as <-. exists [], (mkMessage []), 0%nat.
      split; [done| |done|apply sublist_nil_l|done]. unfold frame. rewrite length_app, length_htoa. simpl. lia.
    + rewrite assigned_store in Hc by done.
      assert (exists c0, store p !! id = Some c0 /\ written c = written c0 /\
        closed_ c = closed_ c0 /\ remote c = remote c0) as (c0 & Hc0 & Hw & Hcl & Hrem).
      { case_decide; [|eauto]. apply fmap_Some in Hc as (c0 & Hc0 & ->). eauto. }
      destruct (po_conn _ _ Hok id c0 Hc0) as (ms & last & k & [Cw Cp Co Cs Cl]).
      exists ms, last, k. split; [by rewrite Hw|done|by rewrite Hcl|by rewrite Hrem..].
  - intros ep id. change (conns_ (assigned endpoint p)) with (<[endpoint:=next_conn p]> (conns_ p)).
    destruct (decide (ep = endpoint)) as [->|Hep].
    + rewrite lookup_insert_eq. intros [= <-]. eexists. split; [exact Hnew|by split].
    + rewrite lookup_insert_ne by done. intros Hid.
      pose proof (pool_conn_below _ _ _ _ Hok Hid).
      rewrite assigned_store, decide_False by (lia || intros Hend; apply Hep; by apply (pool_conn_unique sends p ep endpoint id)).
      by apply (po_pool _ _ Hok ep).
Qed.

(** What [get] does. *)
Definition live p endpoint : option nat :=
  id ← conns_ p !! endpoint; if closed p id then None else Some id.

Lemma get_live p endpoint id : live p endpoint = Some id -> get endpoint p = ([], p, Ok (Some id)).
Proof.
  unfold live, get. rewrite run_get. destruct (conns_ p !! endpoint) as [id'|]; [|done]. simpl.
  destruct (closed p id'); [done|]. by intros [= ->].
Qed.

Definition dialed p : ConnectionPool :=
  mkPool (conns_ p) (store p) (next_conn p) (S (dials p)) (writes p).

Lemma get_dials p endpoint :
  live p endpoint = None ->
  exists es, get endpoint p =
    match dial (dials p) endpoint with
    | ResolveThrows => (es, dialed p, Err (SystemError "resolve"))
    | ConnectFails => (es, dialed p, Ok None)
    | Connected => (es, assigned endpoint p, Ok (Some (next_conn p)))
    end.
Proof.
  intros Hlive. unfold get. rewrite run_get.
  assert (match conns_ p !! endpoint with None => true | Some id => closed p id end = true) as ->.
  { unfold live in Hlive. destruct (conns_ p !! endpoint) as [id|]; [|done]. simpl in Hlive.
    by destruct (closed p id). }
  unfold create. run. cbn [dials]. destruct (dial (dials p) endpoint).
  - eexists. run. reflexivity.
  - eexists. run. reflexivity.
  - unfold assign, assigned. run. cbn [conns_ store next_conn set_conns].
    destruct (conns_ p !! endpoint) as [old|]; [unfold release|]; run; eexists; reflexivity.
Qed.

(** ** Sending *)

Definition wrote (id : nat) (out : list Z) (failed : bool) p : ConnectionPool :=
  mkPool (conns_ p)
    (alter (fun c => mkConn (remote c) (closed_ c || failed) (soc_open c) (written c ++ out)) id (store p))
    (next_conn p) (dials p) (S (writes p)).

Definition write_result p (m : Message) : list Z * bool :=
  match write_outcome (writes p) (length (frame plat m)) with
  | Some n => (take n (frame plat m), true)
  | None => (frame plat m, false)
  end.

Lemma write_eq id m p :
  let '(out, failed) := write_result p m in
  write id m p
  = (Write id out :: (if failed then [ReportError "failed to send message, closing connection"] else []),
     wrote id out failed p, Ok tt).
Proof.
  unfold write_result, write. rewrite Message_encode_frame. run.
  destruct (write_outcome _ _) as [n|]; [rewrite bool_decide_eq_true_2 by eauto|
    rewrite bool_decide_eq_false_2 by by intros []]; by run.
Qed.

Lemma wrote_ok `{!NetworkOk _} sends ep m id c p :
  pool_ok sends p -> conns_ p !! ep = Some id -> store p !! id = Some c -> closed_ c = false ->
  let '(out, failed) := write_result p m in pool_ok (sends ++ [(ep, m)]) (wrote id out failed p).
Proof.
  intros Hok Hid Hc Hopen. destruct (write_result p m) as [out failed] eqn:Hout.
  unfold wrote. split; simpl.
  - intros j Hj. apply (po_fresh _ _ Hok). by rewrite lookup_alter_is_Some in Hj.
  - intros j c'. destruct (decide (j = id)) as [->|Hne].
    + rewrite lookup_alter_eq, Hc. intros [= <-]. simpl.
      destruct (po_conn _ _ Hok id c Hc) as (ms & last & k & [Cw Cp Co Cs Cl]).
      assert (remote c = ep) as Hrem by (destruct (po_pool _ _ Hok ep id Hid) as (c' & Hc' & _ & <-); congruence).
      assert (messages_to ep (sends ++ [(ep, m)]) = messages_to ep sends ++ [m]) as Hto.
      { unfold messages_to. rewrite omap_app. simpl. by rewrite bool_decide_eq_true_2. }
      rewrite (Co Hopen), take_0, app_nil_r in Cw. rewrite Cw. rewrite Hrem in Cs.
      unfold write_result in Hout. destruct (write_outcome _ _) as [n|] eqn:Hw; simplify_eq.
      * exists ms, m, n. split; cbn [remote closed_ written]; rewrite ?Hto; [done|by eapply write_partial| | |].
        { by rewrite orb_true_r. }
        { by apply sublist_inserts_r. }
        intros _. by apply sublist_app.
      * exists (ms ++ [m]), m, 0%nat. split; cbn [remote closed_ written]; rewrite ?Hto.
        -- rewrite bind_app, take_0. simpl. by rewrite !app_nil_r.
        -- unfold frame. rewrite length_app, length_htoa. simpl. lia.
        -- done.
        -- by apply sublist_app.
        -- done.
    + rewrite lookup_alter_ne by done. intros Hj. apply (po_conn _ _ (pool_ok_more _ (ep, m) _ Hok) j c' Hj).
  - intros ep' j Hj. destruct (po_pool _ _ Hok ep' j Hj) as (c' & Hc' & Hso & Hr).
    destruct (decide (j = id)) as [->|Hne].
    + rewrite lookup_alter_eq, Hc'. eexists. split; [done|]. by split.
    + rewrite lookup_alter_ne by done. eauto.
Qed.

Lemma live_spec p endpoint id :
  live p endpoint = Some id -> conns_ p !! endpoint = Some id /\ closed p id = false.
Proof.
  unfold live. destruct (conns_ p !! endpoint) as [j|]; [|done]. simpl.
  destruct (closed p j) eqn:Hj; [done|]. by intros [= ->].
Qed.

(** One send, whatever the network does. *)
Lemma send_step `{!NetworkOk _} sends ep m p :
  pool_ok sends p ->
  exists es p' r, Client_send ep m p = (es, p', r) /\ pool_ok (sends ++ [(ep, m)]) p' /\
    (r = Ok tt \/ r = Err (SystemError "resolve")).
Proof.
  intros Hok. unfold Client_send.
  assert (forall p1 id c, pool_ok sends p1 -> conns_ p1 !! ep = Some id -> store p1 !! id = Some c ->
    closed_ c = false -> exists es p', write id m p1 = (es, p', Ok tt) /\
      pool_ok (sends ++ [(ep, m)]) p') as Hwrite.
  { intros p1 id c Hok1 Hid Hc Hcl. pose proof (write_eq id m p1) as Heq.
    pose proof (wrote_ok sends ep m id c p1 Hok1 Hid Hc Hcl) as Hw.
    destruct (write_result p1 m) as [out failed]. by eexists _, _. }
  destruct (live p ep) as [id|] eqn:Hlive.
  - erewrite run_bind_ok by by apply get_live. rewrite after_nil.
    destruct (live_spec _ _ _ Hlive) as [Hid Hcl].
    destruct (po_pool _ _ Hok ep id Hid) as (c & Hc & _). unfold closed in Hcl.
    rewrite Hc in Hcl. destruct (Hwrite p id c Hok Hid Hc Hcl) as (es & p' & Hrun & Hok').
    exists es, p', (Ok tt). by split_and!; [| |left].
  - destruct (get_dials p ep Hlive) as (es & Hget).
    assert (pool_ok (sends ++ [(ep, m)]) (dialed p)) as Hdialed
      by by apply pool_ok_counters, pool_ok_more.
    destruct (dial (dials p) ep).
    + eexists _, _, _. erewrite run_bind_err by exact Hget. by split_and!; [| |right].
    + eexists _, _, _. erewrite run_bind_ok by exact Hget. by split_and!; [| |left].
    + assert (conns_ (assigned ep p) !! ep = Some (next_conn p)) as Hin
        by apply lookup_insert_eq.
      destruct (Hwrite (assigned ep p) (next_conn p) _ (assigned_ok _ _ _ Hok) Hin
        (assigned_new _ _ _ Hok) eq_refl) as (es' & p' & Hrun & Hok').
      exists (es ++ es'), p', (Ok tt). erewrite run_bind_ok by exact Hget. cbn beta iota. rewrite Hrun.
      by split_and!; [| |left].
Qed.

(** The sends of a run, also those after a resolver that threw. *)
Lemma sends_ok `{!NetworkOk _} sends es p r :
  for_each (fun s => Client_send s.1 s.2) sends new_ConnectionPool = (es, p, r) -> pool_ok sends p.
Proof.
  assert (forall earlier p0 es, pool_ok earlier p0 ->
    for_each (fun s => Client_send s.1 s.2) sends p0 = (es, p, r) -> pool_ok (earlier ++ sends) p) as Hall.
  { induction sends as [|[ep m] sends IH]; intros earlier p0 es0 Hok0.
    - intros [= _ <- _]. by rewrite app_nil_r.
    - cbn [for_each fst snd]. destruct (send_step earlier ep m p0 Hok0) as (es1 & p1 & r1 & Hrun1 & Hok1 & Hr1).
      rewrite cons_middle, (assoc_L (++) earlier). destruct Hr1 as [->| ->].
      + erewrite run_bind_ok by exact Hrun1.
        destruct (for_each _ sends p1) as [[es2 p2] r2] eqn:Hrest. intros [= <- <- <-]. by eapply IH.
      + erewrite run_bind_err by exact Hrun1. intros [= <- <- <-].
        clear IH. induction sends as [|s sends IH] using rev_ind; [by rewrite app_nil_r|].
        rewrite (assoc_L (++)). by apply pool_ok_more. }
  intros Hrun. exact (Hall [] _ _ pool_ok_new Hrun).
Qed.

(** ** Properties *)

(** C36. Outgoing connections.  After any sequence of sends, whatever the network
    did to them, the bytes on every connection the client ever made are the
    frames of messages sent to its end point, in the order they were sent, and,
    only when the connection failed, the beginning of one further frame. *)
Theorem connections_carry_frames `{!NetworkOk _} sends es p r :
  for_each (fun s => Client_send s.1 s.2) sends new_ConnectionPool = (es, p, r) ->
  forall id c, store p !! id = Some c ->
  exists ms last k, conn_ok sends c ms last k.
Proof. intros Hrun%sends_ok id c Hc. by apply (po_conn _ _ Hrun id c Hc). Qed.

(** What one send leaves, by cases: [Client_send] without what it emits. *)
Definition send_outcome (endpoint : EndPoint) (m : Message) p : ConnectionPool * result unit :=
  let write_on id p := let '(out, failed) := write_result p m in (wrote id out failed p, Ok tt) in
  match live p endpoint with
  | Some id => write_on id p
  | None =>
      match dial (dials p) endpoint with
      | ResolveThrows => (dialed p, Err (SystemError "resolve"))
      | ConnectFails => (dialed p, Ok tt)
      | Connected => write_on (next_conn p) (assigned endpoint p)
      end
  end.

Lemma Client_send_eq endpoint m p :
  exists es, Client_send endpoint m p = (es, (send_outcome endpoint m p).1, (send_outcome endpoint m p).2).
Proof.
  unfold Client_send, send_outcome. destruct (live p endpoint) as [id|] eqn:Hlive.
  - erewrite run_bind_ok by by apply get_live. cbn beta iota. pose proof (write_eq id m p) as Hw.
    destruct (write_result p m) as [out failed]. rewrite Hw. by eexists.
  - destruct (get_dials p endpoint Hlive) as (es & Hget). destruct (dial (dials p) endpoint).
    + erewrite run_bind_err by exact Hget. by eexists.
    + erewrite run_bind_ok by exact Hget. by eexists.
    + erewrite run_bind_ok by exact Hget. cbn beta iota.
      pose proof (write_eq (next_conn p) m (assigned endpoint p)) as Hw.
      destruct (write_result (assigned endpoint p) m) as [out failed]. rewrite Hw. by eexists.
Qed.

(** A connection that failed, with what it wrote. *)
Definition dead (id : nat) (out : list Z) p : Prop :=
  exists c, store p !! id = Some c /\ closed_ c = true /\ written c = out.

Lemma send_outcome_dead sends endpoint m id out p :
  pool_ok sends p -> dead id out p -> dead id out (send_outcome endpoint m p).1.
Proof.
  intros Hok (c & Hc & Hcl & Hw).
  assert (forall q j, (exists c, store q !! id = Some c /\ closed_ c = true /\ written c = out) ->
    j <> id -> dead id out (let '(o, failed) := write_result q m in (wrote j o failed q, Ok tt)).1)
    as Hwrote.
  { intros q j (c' & ? & ? & ?) Hne. destruct (write_result q m) as [o failed]. exists c'.
    unfold wrote. simpl. by rewrite lookup_alter_ne. }
  unfold send_outcome. destruct (live p endpoint) as [j|] eqn:Hlive.
  - apply (Hwrote p j); [by exists c|]. intros ->. apply live_spec in Hlive as [_ Hj].
    unfold closed in Hj. rewrite Hc in Hj. simpl in Hj. congruence.
  - destruct (dial (dials p) endpoint); [by exists c..|].
    assert (id < next_conn p)%nat by by apply (po_fresh _ _ Hok).
    apply (Hwrote (assigned endpoint p) (next_conn p)); [|lia].
    rewrite assigned_store by lia. rewrite Hc. case_decide; [eexists; split; [reflexivity|by split]|by exists c].
Qed.

(** A connection whose write failed is never written to again. *)
Theorem failed_connection_not_reused `{!NetworkOk _} earlier sends id out es p p' r :
  pool_ok earlier p -> dead id out p ->
  for_each (fun s => Client_send s.1 s.2) sends p = (es, p', r) -> dead id out p'.
Proof.
  revert earlier es p. induction sends as [|[ep m] sends IH]; intros earlier es p Hok Hd.
  { by intros [= _ <- _]. }
  cbn [for_each fst snd]. destruct (send_step earlier ep m p Hok) as (es1 & p1 & r1 & Hrun & Hok1 & Hr).
  assert (dead id out p1) as Hd1.
  { destruct (Client_send_eq ep m p) as [es' Heq]. rewrite Heq in Hrun. injection Hrun as _ <- _.
    by eapply send_outcome_dead. }
  destruct Hr as [->| ->].
  - erewrite run_bind_ok by exact Hrun.
    destruct (for_each _ sends p1) as [[es2 p2] r2] eqn:Hrest. intros [= _ <- <-]. by eapply IH.
  - erewrite run_bind_err by exact Hrun. by intros [= _ <- _].
Qed.

(** *** Connections are kept and only written to at the end *)

Definition grows p p' : Prop := forall id c, store p !! id = Some c ->
  exists c', store p' !! id = Some c' /\ remote c' = remote c /\ written c `prefix_of` written c'.

#[export] Instance grows_preorder : PreOrder grows.
Proof.
  split; [by intros p id c Hc; exists c|]. intros p q r Hpq Hqr id c Hc.
  destruct (Hpq id c Hc) as (c1 & Hc1 & Hr1 & Hw1). destruct (Hqr id c1 Hc1) as (c2 & Hc2 & Hr2 & Hw2).
  exists c2. split; [done|]. split; [congruence|]. by etrans.
Qed.

Lemma alter_grows f id p p' : (forall c, remote (f c) = remote c /\ written c `prefix_of` written (f c)) ->
  store p' = alter f id (store p) -> grows p p'.
Proof.
  intros Hf Hp' j c Hc. rewrite Hp'. destruct (decide (j = id)) as [->|Hne].
  - exists (f c). rewrite lookup_alter_eq, Hc. by destruct (Hf c).
  - exists c. by rewrite lookup_alter_ne.
Qed.

Lemma wrote_grows id out failed p : grows p (wrote id out failed p).
Proof. eapply alter_grows; [|done]. intros c. split; [done|]. by apply prefix_app_r. Qed.

Lemma assigned_grows sends endpoint p : pool_ok sends p -> grows p (assigned endpoint p).
Proof.
  intros Hok id c Hc. assert (id < next_conn p)%nat by by apply (po_fresh _ _ Hok).
  rewrite assigned_store by lia. rewrite Hc. case_decide; by eexists.
Qed.

Lemma send_grows sends endpoint m p : pool_ok sends p -> grows p (send_outcome endpoint m p).1.
Proof.
  intros Hok. unfold send_outcome. destruct (live p endpoint) as [id|].
  - destruct (write_result p m). apply wrote_grows.
  - destruct (dial (dials p) endpoint); [by intros id c Hc; exists c..|].
    destruct (write_result _ m). etrans; [by apply (assigned_grows sends)|apply wrote_grows].
Qed.

Lemma Client_send_keeps `{!NetworkOk _} sends endpoint m p : pool_ok sends p ->
  exists es p' r, Client_send endpoint m p = (es, p', r) /\ pool_ok (sends ++ [(endpoint, m)]) p' /\ grows p p' /\
    (r = Ok tt \/ exists k, dial k endpoint = ResolveThrows).
Proof.
  intros Hok. destruct (send_step sends endpoint m p Hok) as (es & p' & r & Hrun & Hok' & _).
  exists es, p', r. split; [done|]. split; [done|]. destruct (Client_send_eq endpoint m p) as [es' Heq].
  rewrite Hrun in Heq. injection Heq as _ -> ->. split; [by apply (send_grows sends)|].
  unfold send_outcome. destruct (live p endpoint); [by destruct (write_result p m); left|].
  destruct (dial (dials p) endpoint) eqn:Hd; [by right; eexists|by left|]. destruct (write_result _ m). by left.
Qed.

(** *** A network on which nothing fails *)

Definition healthy : Prop := (forall k ep, dial k ep = Connected) /\ (forall k len, write_outcome k len = None).

(** The pooled connection of an end point has taken every message sent to it. *)
Definition carries_all (sends : list (EndPoint * Message)) p : Prop :=
  forall ep, match conns_ p !! ep with
             | Some id => store p !! id = Some (mkConn ep false true (messages_to ep sends ≫= frame plat))
             | None => messages_to ep sends = []
             end.

Lemma messages_to_snoc ep sends ep' m :
  messages_to ep (sends ++ [(ep', m)]) = messages_to ep sends ++ (if bool_decide (ep' = ep) then [m] else []).
Proof. unfold messages_to. rewrite omap_app. simpl. by case_bool_decide. Qed.

Lemma wrote_carries_all sends ep m id p :
  pool_ok sends p -> conns_ p !! ep = Some id -> carries_all sends p ->
  carries_all (sends ++ [(ep, m)]) (wrote id (frame plat m) false p).
Proof.
  intros Hok Hid Hall ep'. pose proof (Hall ep') as Hep. rewrite messages_to_snoc.
  unfold wrote. cbn [conns_ store]. destruct (conns_ p !! ep') as [id'|] eqn:Hid'.
  - case_bool_decide as Heq.
    + subst ep'. rewrite Hid in Hid'. injection Hid' as <-. rewrite lookup_alter_eq, Hep. cbn. by rewrite bind_app, bind_singleton.
    + rewrite app_nil_r, lookup_alter_ne; [done|]. intros <-. apply Heq. by apply (pool_conn_unique sends p ep ep' id).
  - case_bool_decide as Heq; [congruence|]. by rewrite app_nil_r.
Qed.

Lemma healthy_send `{!NetworkOk _} sends ep m p : healthy -> pool_ok sends p -> carries_all sends p ->
  carries_all (sends ++ [(ep, m)]) (send_outcome ep m p).1 /\ (send_outcome ep m p).2 = Ok tt.
Proof.
  intros [Hdial Hwrite] Hok Hall. unfold send_outcome, write_result. rewrite Hdial.
  destruct (live p ep) as [id|] eqn:Hlive; rewrite Hwrite; (split; [|done]); cbn [fst].
  - apply live_spec in Hlive as [Hid _]. by apply (wrote_carries_all sends).
  - apply (wrote_carries_all sends); [by apply assigned_ok|by apply lookup_insert_eq|]. intros ep'.
    destruct (decide (ep' = ep)) as [->|Hne].
    + replace (conns_ (assigned ep p) !! ep) with (Some (next_conn p)) by (symmetry; apply lookup_insert_eq).
      pose proof (Hall ep) as Hep. rewrite (assigned_new _ _ _ Hok).
      destruct (conns_ p !! ep) as [id|] eqn:Hid; [|by rewrite Hep].
      unfold live, closed in Hlive. rewrite Hid in Hlive. cbn in Hlive. by rewrite Hep in Hlive.
    + replace (conns_ (assigned ep p) !! ep') with (conns_ p !! ep') by (symmetry; by apply lookup_insert_ne).
      pose proof (Hall ep') as Hep. destruct (conns_ p !! ep') as [id'|] eqn:Hid'; [|done].
      pose proof (pool_conn_below _ _ _ _ Hok Hid'). rewrite assigned_store by lia. rewrite decide_False; [done|].
      intros Hid. apply Hne. by apply (pool_conn_unique sends p ep' ep id').
Qed.

Lemma healthy_sends `{!NetworkOk _} sends : healthy ->
  exists es p, for_each (fun s => Client_send s.1 s.2) sends new_ConnectionPool = (es, p, Ok tt) /\ carries_all sends p.
Proof.
  intros Hhealthy. assert (forall earlier p0, pool_ok earlier p0 -> carries_all earlier p0 ->
    exists es p, for_each (fun s => Client_send s.1 s.2) sends p0 = (es, p, Ok tt) /\ carries_all (earlier ++ sends) p) as Hall.
  { induction sends as [|[ep m] sends IH]; intros earlier p0 Hok Hca.
    - eexists _, _. split; [done|]. by rewrite app_nil_r.
    - cbn [for_each fst snd]. destruct (send_step earlier ep m p0 Hok) as (es1 & p1 & r1 & Hrun & Hok1 & _).
      destruct (Client_send_eq ep m p0) as [es' Heq]. destruct (healthy_send earlier ep m p0 Hhealthy Hok Hca) as [Hca' Hr].
      rewrite Hrun in Heq. injection Heq as _ -> ->. rewrite Hr in Hrun.
      destruct (IH _ _ Hok1 Hca') as (es2 & p2 & Hrest & Hp2). eexists _, p2. split.
      + erewrite run_bind_ok by exact Hrun. by rewrite Hrest.
      + by rewrite <- (assoc_L (++)) in Hp2. }
  apply (Hall []); [apply pool_ok_new|by intros ep].
Qed.

End pool.

(** ** Examples *)

Section examples.

(** A network on which the first write fails after three bytes. *)
Definition flaky : Network := {|
  dial k ep := Connected;
  write_outcome k len := match k with O => if bool_decide (3 < len)%nat then Some 3%nat else None | _ => None end;
|}.
#[local] Existing Instance flaky.

#[local] Instance flaky_ok : NetworkOk flaky.
Proof. split. intros [|k] len n; simpl; [|done]. case_bool_decide; [|done]. by intros [= <-]. Qed.

Definition there : EndPoint := mkEndPoint "localhost" 9991.
Definition two_sends : list (EndPoint * Message) := [(there, mkMessage [1]); (there, mkMessage [2])].

Definition after_sends : ConnectionPool :=
  (for_each (fun s => Client_send x86_64 s.1 s.2) two_sends new_ConnectionPool).1.2.

Lemma connections_carry_frames_witness :
  exists ms last k, conn_ok x86_64 two_sends (mkConn there false true [1; 0; 0; 0; 2]) ms last k.
Proof.
  apply (connections_carry_frames x86_64 two_sends
    (for_each (fun s => Client_send x86_64 s.1 s.2) two_sends new_ConnectionPool).1.1 after_sends
    (for_each (fun s => Client_send x86_64 s.1 s.2) two_sends new_ConnectionPool).2) with (id := 1%nat).
  - by vm_compute.
  - by vm_compute.
Defined.

Lemma failed_connection_not_reused_witness :
  dead 0 [1; 0; 0] after_sends.
Proof.
  refine (failed_connection_not_reused x86_64 [(there, mkMessage [1])] [(there, mkMessage [2])] 0
    [1; 0; 0] _ (Client_send x86_64 there (mkMessage [1]) new_ConnectionPool).1.2 after_sends (Ok tt)
    _ _ _).
  - destruct (send_step x86_64 [] there (mkMessage [1]) new_ConnectionPool (pool_ok_new x86_64))
      as (es & p' & r & Hrun & Hok & _). rewrite Hrun. exact Hok.
  - vm_compute. eexists. split; [reflexivity|]. by split.
  - vm_compute. reflexivity.
Defined.
End examples.
