(* ===== verification/AsioBuffers.v ===== *)
(** * asio: buffers, buffer sequences and what is left of them

    A buffer is an address and a size; [addresses] lists the bytes it covers.
    The composed read and write operations walk over a buffer sequence with a
    [consuming_buffers], which comes in a general version and in cheaper ones for
    one and for two buffers.  [ConsumingOk] states what all of them promise: they
    behave like the list of the addresses that are left.  Sizes are [nat]: a
    [size_t] counts bytes of one address space. *)
From S2P Require Import Prelude.

(** ** buffer.hpp *)

(** [mutable_buffer] and [const_buffer] *)
Record buffer := mkBuffer { data_ : nat; size_ : nat }.

(** [operator+] and [operator+=] *)
Definition buffer_plus (b : buffer) (n : nat) : buffer :=
  let offset := if (n <? size_ b)%nat then n else size_ b in
  mkBuffer (data_ b + offset) (size_ b - offset).

(** [buffer (b, max_size_in_bytes)] *)
Definition buffer_max (b : buffer) (max_size_in_bytes : nat) : buffer :=
  mkBuffer (data_ b)
    (if (size_ b <? max_size_in_bytes)%nat then size_ b else max_size_in_bytes).

(** The loop of [buffer_size] for a sequence. *)
Fixpoint buffer_size_from (total_buffer_size : nat) (bs : list buffer) : nat :=
  match bs with
  | [] => total_buffer_size
  | b :: bs => buffer_size_from (total_buffer_size + size_ b) bs
  end.

Definition buffer_size (bs : list buffer) : nat := buffer_size_from 0 bs.

(** ** completion_condition.hpp *)

Definition default_max_transfer_size : nat := Z.to_nat 65536.

(** The overloads for old conditions, which say whether they are complete, and
    for new ones, which say how many bytes to transfer next. *)
Definition adapt_bool_result (result : bool) : nat :=
  if result then 0 else default_max_transfer_size.
Definition adapt_size_result (result : nat) : nat := result.

(** A completion condition sees whether there was an error and how much was
    transferred so far. *)
Definition CompletionCondition := bool -> nat -> nat.

Definition transfer_all : CompletionCondition := fun err _ =>
  if err then 0 else default_max_transfer_size.

Definition transfer_at_least (minimum : nat) : CompletionCondition := fun err bytes_transferred =>
  if err || (minimum <=? bytes_transferred)%nat then 0 else default_max_transfer_size.

Definition transfer_exactly (size : nat) : CompletionCondition := fun err bytes_transferred =>
  if err || (size <=? bytes_transferred)%nat then 0
  else if (size - bytes_transferred <? default_max_transfer_size)%nat then size - bytes_transferred
  else default_max_transfer_size.

(** [base_from_completion_cond] *)
Definition check_for_completion (completion_condition : CompletionCondition) (ec : bool)
    (total_transferred : nat) : nat :=
  adapt_size_result (completion_condition ec total_transferred).

(** ** consuming_buffers.hpp *)

(** [prepared_buffers::max_buffers] *)
Definition prepared_max (MaxBuffers : nat) : nat :=
  if (MaxBuffers <? 16)%nat then MaxBuffers else 16.

Record consuming_buffers := mkConsuming {
  buffers_ : list buffer;
  max_buffers : nat;
  total_size_ : nat;
  total_consumed_ : nat;
  next_elem_ : nat;
  next_elem_offset_ : nat;
}.

Definition new_consuming_buffers (MaxBuffers : nat) (buffers : list buffer) : consuming_buffers :=
  mkConsuming buffers (prepared_max MaxBuffers) (buffer_size buffers) 0 0 0.

Definition consuming_empty (c : consuming_buffers) : bool :=
  (total_size_ c <=? total_consumed_ c)%nat.

(** The loop of [prepare]: [count] buffers may still be prepared. *)
Fixpoint prepare_loop (next : list buffer) (elem_offset max_size count : nat) : list buffer :=
  match next with
  | [] => []
  | b :: next =>
      match max_size, count with
      | O, _ | _, O => []
      | _, S count' =>
          let next_buf := buffer_plus b elem_offset in
          let elem := buffer_max next_buf max_size in
          if (0 <? size_ elem)%nat
          then elem :: prepare_loop next 0 (max_size - size_ elem) count'
          else prepare_loop next 0 (max_size - size_ elem) count
      end
  end.

Definition consuming_prepare (max_size : nat) (c : consuming_buffers) : list buffer :=
  prepare_loop (drop (next_elem_ c) (buffers_ c)) (next_elem_offset_ c) max_size (max_buffers c).

(** The loop of [consume]: the members [next_elem_] and [next_elem_offset_]. *)
Fixpoint consume_loop (next : list buffer) (elem offset size : nat) : nat * nat :=
  match next with
  | [] => (elem, offset)
  | b :: next =>
      match size with
      | O => (elem, offset)
      | _ =>
          let next_buf := buffer_plus b offset in
          if (size <? size_ next_buf)%nat then (elem, offset + size)
          else consume_loop next (S elem) 0 (size - size_ next_buf)
      end
  end.

Definition consuming_consume (size : nat) (c : consuming_buffers) : consuming_buffers :=
  let '(elem, offset) :=
    consume_loop (drop (next_elem_ c) (buffers_ c)) (next_elem_ c) (next_elem_offset_ c) size in
  mkConsuming (buffers_ c) (max_buffers c) (total_size_ c) (total_consumed_ c + size) elem offset.

(** [consuming_single_buffer], which the specialisations for [mutable_buffer],
    [const_buffer], [mutable_buffers_1] and [const_buffers_1] derive from. *)
Record consuming_single_buffer := mkSingle { buffer_ : buffer; single_consumed : nat }.

Definition new_consuming_single_buffer (b : buffer) : consuming_single_buffer := mkSingle b 0.

Definition single_empty (c : consuming_single_buffer) : bool :=
  (size_ (buffer_ c) <=? single_consumed c)%nat.

Definition single_prepare (max_size : nat) (c : consuming_single_buffer) : list buffer :=
  [buffer_max (buffer_plus (buffer_ c) (single_consumed c)) max_size].

Definition single_consume (size : nat) (c : consuming_single_buffer) : consuming_single_buffer :=
  mkSingle (buffer_ c) (single_consumed c + size).

(** The specialisations for arrays of two buffers. *)
Record consuming_pair := mkPair { elem0 : buffer; elem1 : buffer; pair_consumed : nat }.

Definition new_consuming_pair (b0 b1 : buffer) : consuming_pair := mkPair b0 b1 0.

Definition pair_empty (c : consuming_pair) : bool :=
  (size_ (elem0 c) + size_ (elem1 c) <=? pair_consumed c)%nat.

Definition pair_prepare (max_size : nat) (c : consuming_pair) : list buffer :=
  let buffer0_size := size_ (elem0 c) in
  let result0 := buffer_max (buffer_plus (elem0 c) (pair_consumed c)) max_size in
  let result1 :=
    buffer_max
      (buffer_plus (elem1 c)
         (if (pair_consumed c <? buffer0_size)%nat then 0 else pair_consumed c - buffer0_size))
      (max_size - size_ result0) in
  [result0; result1].

Definition pair_consume (size : nat) (c : consuming_pair) : consuming_pair :=
  mkPair (elem0 c) (elem1 c) (pair_consumed c + size).

(** ** The interface *)

(** The bytes a buffer, or a sequence of buffers, covers. *)
Definition addresses (b : buffer) : list nat := seq (data_ b) (size_ b).
Definition flat (bs : list buffer) : list nat := bs ≫= addresses.

Class Consuming (C : Type) := {
  cb_empty : C -> bool;
  cb_prepare : nat -> C -> list buffer;
  cb_consume : nat -> C -> C;
  cb_consumed : C -> nat;
  (** the specification: the addresses that are left, of those of all buffers *)
  cb_all : C -> list nat;
  cb_ok : C -> Prop;
}.

Definition cb_remaining `{Consuming C} (c : C) : list nat := drop (cb_consumed c) (cb_all c).

Class ConsumingOk (C : Type) `{Consuming C} := {
  cb_empty_spec c : cb_ok c -> cb_empty c = true <-> cb_remaining c = [];
  cb_prepare_prefix m c : cb_ok c ->
    flat (cb_prepare m c) `prefix_of` cb_remaining c /\ length (flat (cb_prepare m c)) <= m;
  cb_prepare_progress m c : cb_ok c -> 0 < m -> cb_remaining c <> [] -> flat (cb_prepare m c) <> [];
  cb_consume_ok n c : cb_ok c -> n <= length (cb_remaining c) -> cb_ok (cb_consume n c);
  cb_consume_consumed n c : cb_consumed (cb_consume n c) = cb_consumed c + n;
  cb_consume_all n c : cb_all (cb_consume n c) = cb_all c;
}.

Lemma cb_consume_remaining `{ConsumingOk C} n (c : C) :
  cb_remaining (cb_consume n c) = drop n (cb_remaining c).
Proof. unfold cb_remaining. by rewrite cb_consume_consumed, cb_consume_all, drop_drop. Qed.

(** ** Buffers as lists of addresses *)

Lemma length_addresses b : length (addresses b) = size_ b.
Proof. apply length_seq. Qed.

Lemma addresses_plus b n : addresses (buffer_plus b n) = drop n (addresses b).
Proof.
  unfold addresses, buffer_plus. destruct b as [d s]. cbn [data_ size_].
  destruct (Nat.ltb_spec n s) as [Hlt|Hge].
  - replace s with (n + (s - n)) at 2 by lia. rewrite seq_app, drop_app_length'; [done|].
    by rewrite length_seq.
  - rewrite Nat.sub_diag, drop_ge; [done|]. by rewrite length_seq.
Qed.

Lemma addresses_max b m : addresses (buffer_max b m) = take m (addresses b).
Proof.
  unfold addresses, buffer_max. destruct b as [d s]. cbn [data_ size_].
  destruct (Nat.ltb_spec s m) as [Hlt|Hge].
  - rewrite take_ge; [done|]. rewrite length_seq. lia.
  - replace s with (m + (s - m)) by lia. rewrite seq_app, take_app_length'; [done|].
    by rewrite length_seq.
Qed.

Lemma size_plus b n : size_ (buffer_plus b n) = size_ b - n.
Proof. by rewrite <- !length_addresses, addresses_plus, length_drop. Qed.

Lemma size_max b m : size_ (buffer_max b m) = size_ b `min` m.
Proof. by rewrite <- !length_addresses, addresses_max, length_take, Nat.min_comm. Qed.

Lemma flat_cons b bs : flat (b :: bs) = addresses b ++ flat bs.
Proof. done. Qed.

Lemma flat_single b : flat [b] = addresses b.
Proof. unfold flat. simpl. by rewrite (right_id_L [] (++)). Qed.

Lemma buffer_size_from_flat n bs : buffer_size_from n bs = n + length (flat bs).
Proof.
  revert n. induction bs as [|b bs IH]; intros n; simpl; [lia|].
  rewrite IH, length_app, length_addresses. unfold flat. lia.
Qed.

Lemma buffer_size_flat bs : buffer_size bs = length (flat bs).
Proof. apply buffer_size_from_flat. Qed.

(** ** The general version *)

(** The offset points into the first of the buffers that are left. *)
Definition offset_ok (next : list buffer) (offset : nat) : Prop :=
  offset = 0 \/ exists b bs, next = b :: bs /\ offset < size_ b.

Lemma drop_flat b bs offset :
  offset_ok (b :: bs) offset -> drop offset (flat (b :: bs)) = drop offset (addresses b) ++ flat bs.
Proof.
  intros Hoff. rewrite flat_cons. apply drop_app_le. rewrite length_addresses.
  destruct Hoff as [->|(? & ? & [= <- <-] & ?)]; lia.
Qed.

Lemma prepare_loop_prefix next offset m count :
  offset_ok next offset ->
  flat (prepare_loop next offset m count) `prefix_of` drop offset (flat next) /\
  length (flat (prepare_loop next offset m count)) <= m.
Proof.
  revert offset m count. induction next as [|b next IH]; intros offset m count Hoff.
  { split; [apply prefix_nil|simpl; lia]. }
  rewrite drop_flat by done. destruct m as [|m], count as [|count]; try (split; [apply prefix_nil|simpl; lia]).
  cbn [prepare_loop]. set (elem := buffer_max _ _).
  assert (addresses elem = take (S m) (drop offset (addresses b))) as Helem
    by (unfold elem; by rewrite addresses_max, addresses_plus).
  assert (size_ elem = length (take (S m) (drop offset (addresses b)))) as Hsize
    by (by rewrite <- length_addresses, Helem).
  set (x := drop offset (addresses b)) in *.
  assert (forall rest, rest `prefix_of` flat next /\ length rest <= S m - size_ elem ->
    addresses elem ++ rest `prefix_of` x ++ flat next /\ length (addresses elem ++ rest) <= S m) as Happ.
  { intros rest [Hpre Hlen]. rewrite length_app, Helem, <- Hsize.
    rewrite Hsize, length_take in *. split; [|lia].
    destruct (decide (length x <= S m)) as [Hle|Hgt].
    - rewrite take_ge by done. by apply prefix_app.
    - destruct rest; [|cbn [length] in Hlen; lia]. rewrite (right_id_L [] (++)).
      apply (prefix_app_r _ _ (flat next)), prefix_take. }
  destruct (Nat.ltb_spec 0 (size_ elem)).
  - rewrite flat_cons. apply Happ, (IH 0). by left.
  - specialize (Happ (flat (prepare_loop next 0 (S m - size_ elem) (S count)))).
    replace (addresses elem) with (@nil nat) in Happ.
    + apply Happ, (IH 0). by left.
    + symmetry. apply nil_length_inv. rewrite length_addresses. lia.
Qed.

Lemma prepare_loop_progress next offset m count :
  offset_ok next offset -> 0 < m -> 0 < count -> drop offset (flat next) <> [] ->
  flat (prepare_loop next offset m count) <> [].
Proof.
  revert offset. induction next as [|b next IH]; intros offset Hoff Hm Hcount Hne.
  { by destruct (Hne (drop_nil _)). }
  rewrite drop_flat in Hne by done. destruct m as [|m]; [lia|]. destruct count as [|count]; [lia|].
  cbn [prepare_loop]. set (elem := buffer_max _ _).
  destruct (Nat.ltb_spec 0 (size_ elem)) as [Hpos|Hzero].
  - rewrite flat_cons. intros Hnil%(f_equal length). rewrite length_app, length_addresses in Hnil.
    cbn [length] in Hnil. lia.
  - assert (size_ b - offset = 0) as Hb.
    { unfold elem in Hzero. rewrite size_max, size_plus in Hzero. lia. }
    replace (size_ elem) with 0 by lia. rewrite Nat.sub_0_r. apply IH; [by left|done|done|].
    rewrite drop_0. intros Hnil. apply Hne. rewrite Hnil, drop_ge; [done|].
    rewrite length_addresses. lia.
Qed.

Lemma consume_loop_spec bs i offset size :
  offset_ok (drop i bs) offset -> size <= length (drop offset (flat (drop i bs))) ->
  let '(i', offset') := consume_loop (drop i bs) i offset size in
  offset_ok (drop i' bs) offset' /\
  drop offset' (flat (drop i' bs)) = drop size (drop offset (flat (drop i bs))).
Proof.
  remember (drop i bs) as next eqn:Hnext. revert i offset size Hnext.
  induction next as [|b next IH]; intros i offset size Hnext Hoff Hsize; cbn [consume_loop].
  { rewrite <- Hnext. split; [done|]. change (flat []) with (@nil nat). by rewrite !drop_nil. }
  destruct size as [|size]; [by rewrite <- Hnext|]. rewrite size_plus, drop_flat in * by done.
  assert (drop (S i) bs = next) as Hdrop.
  { rewrite <- Nat.add_1_r, <- drop_drop, <- Hnext. by rewrite ?drop_0. }
  destruct (Nat.ltb_spec (S size) (size_ b - offset)) as [Hlt|Hge].
  - rewrite <- Hnext. split; [right; exists b, next; split; [done|lia]|].
    rewrite flat_cons, drop_app_le by (rewrite length_addresses; lia).
    rewrite drop_app_le by (rewrite length_drop, length_addresses; lia).
    by rewrite drop_drop.
  - rewrite length_app, length_drop, length_addresses in Hsize.
    specialize (IH (S i) 0 (S size - (size_ b - offset)) (eq_sym Hdrop)). rewrite drop_0 in IH.
    destruct (consume_loop next (S i) 0 _) as [i' offset'].
    destruct IH as [Hok Heq]; [by left|lia|]. split; [done|]. rewrite Heq.
    rewrite drop_app_ge by (rewrite length_drop, length_addresses; lia).
    by rewrite length_drop, length_addresses.
Qed.

(** The members of a [consuming_buffers] agree with what was consumed. *)
Record consuming_ok (c : consuming_buffers) : Prop := {
  consuming_max : 0 < max_buffers c;
  consuming_total : total_size_ c = length (flat (buffers_ c));
  consuming_offset : offset_ok (drop (next_elem_ c) (buffers_ c)) (next_elem_offset_ c);
  consuming_left : drop (next_elem_offset_ c) (flat (drop (next_elem_ c) (buffers_ c)))
    = drop (total_consumed_ c) (flat (buffers_ c));
}.

#[export] Instance consuming_buffers_consuming : Consuming consuming_buffers := {|
  cb_empty := consuming_empty;
  cb_prepare := consuming_prepare;
  cb_consume := consuming_consume;
  cb_consumed := total_consumed_;
  cb_all c := flat (buffers_ c);
  cb_ok := consuming_ok;
|}.

Lemma consuming_consume_members n c :
  total_consumed_ (consuming_consume n c) = total_consumed_ c + n /\
  buffers_ (consuming_consume n c) = buffers_ c /\
  max_buffers (consuming_consume n c) = max_buffers c /\
  total_size_ (consuming_consume n c) = total_size_ c.
Proof. unfold consuming_consume. by destruct (consume_loop _ _ _ _). Qed.

#[export] Instance consuming_buffers_ok : ConsumingOk consuming_buffers.
Proof.
  split; unfold cb_remaining; cbn [cb_empty cb_prepare cb_consume cb_consumed cb_all cb_ok
    consuming_buffers_consuming].
  - intros c [_ Htotal _ _]. unfold consuming_empty. rewrite Htotal, Nat.leb_le. split.
    + apply drop_ge.
    + intros Hnil%(f_equal length). rewrite length_drop in Hnil. simpl in Hnil. lia.
  - intros m c [_ _ Hoff <-]. by apply prepare_loop_prefix.
  - intros m c [Hmax _ Hoff <-] Hm Hne. by apply prepare_loop_progress.
  - intros n c [Hmax Htotal Hoff Hleft] Hn. rewrite <- Hleft in Hn.
    pose proof (consume_loop_spec _ _ _ _ Hoff Hn) as Hspec.
    destruct (consuming_consume_members n c) as (Hc & Hb & Hm & Ht). unfold consuming_consume in *.
    destruct (consume_loop _ _ _ _) as [i offset]. destruct Hspec as [Hoff' Heq].
    split; [done|done|done|].
    cbn [next_elem_ next_elem_offset_ buffers_ total_consumed_]. by rewrite Heq, Hleft, drop_drop.
  - intros n c. apply consuming_consume_members.
  - intros n c. f_equal. apply consuming_consume_members.
Qed.

Lemma new_consuming_ok MaxBuffers buffers :
  0 < MaxBuffers -> cb_ok (new_consuming_buffers MaxBuffers buffers) /\
  cb_remaining (new_consuming_buffers MaxBuffers buffers) = flat buffers.
Proof.
  intros Hmax. split; [|done]. split; cbn; [|apply buffer_size_flat|by left|done].
  unfold prepared_max. destruct (_ <? _); lia.
Qed.

(** ** The versions for one and for two buffers *)

#[export] Instance consuming_single_consuming : Consuming consuming_single_buffer := {|
  cb_empty := single_empty;
  cb_prepare := single_prepare;
  cb_consume := single_consume;
  cb_consumed := single_consumed;
  cb_all c := addresses (buffer_ c);
  cb_ok _ := True;
|}.

#[export] Instance consuming_single_ok : ConsumingOk consuming_single_buffer.
Proof.
  split; unfold cb_remaining; cbn [cb_empty cb_prepare cb_consume cb_consumed cb_all cb_ok
    consuming_single_consuming]; try done.
  - intros c _. unfold single_empty. rewrite Nat.leb_le, <- length_addresses. split.
    + apply drop_ge.
    + intros Hnil%(f_equal length). rewrite length_drop in Hnil. simpl in Hnil. lia.
  - intros m c _. unfold single_prepare. rewrite flat_single, addresses_max, addresses_plus.
    split; [apply prefix_take|]. rewrite length_take. lia.
  - intros m c _ Hm Hne. unfold single_prepare. rewrite flat_single, addresses_max, addresses_plus.
    destruct (drop _ _) as [|a l]; [done|]. by destruct m; [lia|].
Qed.

#[export] Instance consuming_pair_consuming : Consuming consuming_pair := {|
  cb_empty := pair_empty;
  cb_prepare := pair_prepare;
  cb_consume := pair_consume;
  cb_consumed := pair_consumed;
  cb_all c := flat [elem0 c; elem1 c];
  cb_ok _ := True;
|}.

(** What [prepare] returns is the next [max_size] bytes of the two buffers. *)
Lemma pair_prepare_flat m c :
  flat (pair_prepare m c) = take m (drop (pair_consumed c) (flat [elem0 c; elem1 c])).
Proof.
  unfold pair_prepare. rewrite flat_cons, flat_single, (flat_cons (elem0 c)), flat_single.
  rewrite !addresses_max, !addresses_plus, size_max, size_plus.
  set (n := pair_consumed c). set (l0 := addresses (elem0 c)). set (l1 := addresses (elem1 c)).
  replace (size_ (elem0 c)) with (length l0) by apply length_addresses.
  rewrite drop_app, take_app, length_drop. f_equal.
  replace (m - (length l0 - n) `min` m) with (m - (length l0 - n)) by lia. f_equal.
  destruct (Nat.ltb_spec n (length l0)); [|done]. by replace (n - length l0) with 0 by lia.
Qed.

#[export] Instance consuming_pair_ok : ConsumingOk consuming_pair.
Proof.
  split; unfold cb_remaining; cbn [cb_empty cb_prepare cb_consume cb_consumed cb_all cb_ok
    consuming_pair_consuming]; try done.
  - intros c _. unfold pair_empty. rewrite Nat.leb_le, flat_cons, flat_single, <- !length_addresses, <- length_app.
    split; [apply drop_ge|].
    intros Hnil%(f_equal length). rewrite length_drop in Hnil. simpl in Hnil. lia.
  - intros m c _. rewrite pair_prepare_flat. split; [apply prefix_take|]. rewrite length_take. lia.
  - intros m c _ Hm Hne. rewrite pair_prepare_flat.
    destruct (drop _ _) as [|a l]; [done|]. by destruct m; [lia|].
Qed.
