(* ===== verification/AsioRead.v ===== *)
(** * asio: the composed read operations

    [read] calls [read_some] of a stream until the buffers are full, the
    condition is met or an error occurs; [async_read] does the same in steps:
    [read_op] is the object that the stream calls back.  Both are proved to fill
    the buffers with the next bytes of the stream, whatever the pieces in which
    these arrive, which gives the server's connections the [AsyncRead] that
    Node.v asks for. *)
From S2P Require Import Prelude Utils NetworkUtil NodeCommon Node AsioBuffers.

(** ** Memory *)

(** The bytes of one address space. *)
Abbreviation memory := (list Z).

Fixpoint store_bytes (addrs : list nat) (bytes : list Z) (m : memory) : memory :=
  match addrs, bytes with
  | a :: addrs, x :: bytes => store_bytes addrs bytes (<[a := x]> m)
  | _, _ => m
  end.

Lemma store_bytes_app addrs bytes1 bytes2 m :
  length bytes1 <= length addrs ->
  store_bytes (drop (length bytes1) addrs) bytes2 (store_bytes addrs bytes1 m)
  = store_bytes addrs (bytes1 ++ bytes2) m.
Proof.
  revert addrs m. induction bytes1 as [|x bytes1 IH]; intros addrs m Hlen.
  { by destruct addrs. }
  destruct addrs as [|a addrs]; simpl in *; [lia|]. apply IH. lia.
Qed.

Lemma store_bytes_prefix addrs addrs' bytes m :
  addrs `prefix_of` addrs' -> length bytes <= length addrs ->
  store_bytes addrs bytes m = store_bytes addrs' bytes m.
Proof.
  intros [rest ->]. revert bytes m. induction addrs as [|a addrs IH]; intros bytes m Hlen.
  { destruct bytes; [by destruct rest|simpl in Hlen; lia]. }
  destruct bytes as [|x bytes]; [done|]. simpl in *. apply IH. lia.
Qed.

Lemma length_store_bytes addrs bytes m : length (store_bytes addrs bytes m) = length m.
Proof.
  revert bytes m. induction addrs as [|a addrs IH]; intros [|x bytes] m; simpl; [done..|].
  by rewrite IH, length_insert.
Qed.

Lemma store_bytes_nil addrs m : store_bytes addrs [] m = m.
Proof. by destruct addrs. Qed.

(** A fresh region receives the bytes at its front. *)
Lemma store_bytes_front done_bytes bytes rest :
  length bytes <= length rest ->
  store_bytes (seq (length done_bytes) (length rest)) bytes (done_bytes ++ rest)
  = done_bytes ++ bytes ++ drop (length bytes) rest.
Proof.
  revert done_bytes rest. induction bytes as [|x bytes IH]; intros done_bytes rest Hlen.
  { by rewrite store_bytes_nil. }
  destruct rest as [|y rest]; simpl in Hlen; [lia|]. cbn [length seq store_bytes drop].
  rewrite insert_app_r_alt, Nat.sub_diag by lia. cbn [insert list_insert].
  specialize (IH (done_bytes ++ [x]) rest ltac:(lia)). rewrite length_app, Nat.add_1_r in IH.
  by rewrite <- !(assoc_L (++)) in IH.
Qed.

(** ** Streams *)

(** [read_some n st] reads at most [n] bytes, the size of the buffers it is
    given, and says whether there was an error. *)
Class SyncReadStream (St : Type) := {
  read_some : nat -> St -> list Z * option ErrorCode * St;
}.

(** A stream that delivers some bytes as long as there are any, then the end of
    the stream; reading nothing succeeds at once. *)
Class SyncReadStreamOk (St : Type) `{SyncReadStream St} := {
  unread : St -> list Z;
  read_some_zero st : read_some 0 st = ([], None, st);
  read_some_data n st : 0 < n -> unread st <> [] ->
    exists bytes st', read_some n st = (bytes, None, st') /\ bytes <> [] /\
      length bytes <= n /\ unread st = bytes ++ unread st';
  read_some_end n st : 0 < n -> unread st = [] ->
    exists st', read_some n st = ([], Some Eof, st') /\ unread st' = [];
}.

(** ** The operations *)

Section read.
Context {C : Type} `{!Consuming C} {St : Type} `{!SyncReadStream St}.

(** One call of [read_some] for the prepared [bufs]. *)
Definition read_into (bufs : list buffer) (st : St) (m : memory)
    : nat * option ErrorCode * St * memory :=
  let '(bytes, ec, st) := read_some (length (flat bufs)) st in
  (length bytes, ec, st, store_bytes (flat bufs) bytes m).

(** The loop of [detail::read_buffer_sequence]. *)
Fixpoint read_loop (fuel : nat) (tmp : C) (completion_condition : CompletionCondition)
    (ec : option ErrorCode) (st : St) (m : memory) : result (nat * option ErrorCode * St * memory) :=
  match fuel with
  | O => Err OutOfFuel
  | Datatypes.S fuel =>
      if cb_empty tmp then Ok (cb_consumed tmp, ec, st, m)
      else
        let max_size :=
          adapt_size_result (completion_condition (bool_decide (is_Some ec)) (cb_consumed tmp)) in
        if (max_size =? 0)%nat then Ok (cb_consumed tmp, ec, st, m)
        else
          let '(n, ec, st, m) := read_into (cb_prepare max_size tmp) st m in
          read_loop fuel (cb_consume n tmp) completion_condition ec st m
  end.

Definition read_buffer_sequence (fuel : nat) (tmp : C) (completion_condition : CompletionCondition)
    (st : St) (m : memory) : result (nat * option ErrorCode * St * memory) :=
  read_loop fuel tmp completion_condition None st m.

(** [read] with an error code, and the one that throws it. *)
Definition read (fuel : nat) (tmp : C) (st : St) (m : memory) :=
  read_buffer_sequence fuel tmp transfer_all st m.

Definition read_or_throw (fuel : nat) (tmp : C) (completion_condition : CompletionCondition)
    (st : St) (m : memory) : result (nat * St * memory) :=
  '(bytes_transferred, ec, st, m) ← read_buffer_sequence fuel tmp completion_condition st m;
  match ec with
  | Some _ => Err (SystemError "read")
  | None => Ok (bytes_transferred, st, m)
  end.

(** class [read_op]; [handler_] is what the result is for. *)
Record read_op := mkReadOp { op_buffers : C; start_ : nat }.

Inductive ReadStep :=
| Suspend (bufs : list buffer) (op : read_op)   (* [async_read_some], which calls [op] *)
| Complete (ec : option ErrorCode) (bytes_transferred : nat).   (* [handler_ (ec, n)] *)

Definition read_op_call (completion_condition : CompletionCondition) (ec : option ErrorCode)
    (bytes_transferred start : nat) (op : read_op) : ReadStep :=
  let err := bool_decide (is_Some ec) in
  if (start =? 1)%nat then
    let max_size := check_for_completion completion_condition err (cb_consumed (op_buffers op)) in
    Suspend (cb_prepare max_size (op_buffers op)) (mkReadOp (op_buffers op) start)
  else
    let buffers := cb_consume bytes_transferred (op_buffers op) in
    if (negb err && (bytes_transferred =? 0)%nat) || cb_empty buffers
    then Complete ec (cb_consumed buffers)
    else
      let max_size := check_for_completion completion_condition err (cb_consumed buffers) in
      if (0 <? max_size)%nat then Suspend (cb_prepare max_size buffers) (mkReadOp buffers start)
      else Complete ec (cb_consumed buffers).

(** [asio_handler_is_continuation] *)
Definition is_continuation (handler_is_continuation : bool) (op : read_op) : bool :=
  if (start_ op =? 0)%nat then true else handler_is_continuation.

(** The stream completes what the operation waits for, until it calls the handler. *)
Fixpoint run_read_op (fuel : nat) (completion_condition : CompletionCondition) (step : ReadStep)
    (st : St) (m : memory) : result (nat * option ErrorCode * St * memory) :=
  match fuel with
  | O => Err OutOfFuel
  | Datatypes.S fuel =>
      match step with
      | Complete ec n => Ok (n, ec, st, m)
      | Suspend bufs op =>
          let '(n, ec, st, m) := read_into bufs st m in
          run_read_op fuel completion_condition (read_op_call completion_condition ec n 0 op) st m
      end
  end.

(** [detail::start_read_buffer_sequence_op], and what [async_read] leads to. *)
Definition start_read_buffer_sequence_op (completion_condition : CompletionCondition) (buffers : C)
    : ReadStep :=
  read_op_call completion_condition None 0 1 (mkReadOp buffers 0).

Definition async_read_all (fuel : nat) (buffers : C) (st : St) (m : memory) :=
  run_read_op fuel transfer_all (start_read_buffer_sequence_op transfer_all buffers) st m.

(** ** Facts *)

Context `{!ConsumingOk C} `{!SyncReadStreamOk St}.

(** What a complete read does to memory and stream. *)
Definition filled (c : C) (st : St) (m : memory) (r : nat * option ErrorCode * St * memory) : Prop :=
  let '(n, ec, st', m') := r in
  n = cb_consumed c + length (cb_remaining c) `min` length (unread st) /\
  ec = (if bool_decide (length (cb_remaining c) <= length (unread st)) then None else Some Eof) /\
  unread st' = drop (length (cb_remaining c)) (unread st) /\
  m' = store_bytes (cb_remaining c) (take (length (cb_remaining c)) (unread st)) m.

(** One successful piece reduces a read to the read of the rest. *)
Lemma filled_piece c st m n bytes st' r :
  cb_ok c -> unread st = bytes ++ unread st' -> length bytes <= length (cb_remaining c) ->
  n = length bytes ->
  filled (cb_consume n c) st' (store_bytes (cb_remaining c) bytes m) r -> filled c st m r.
Proof.
  intros Hok Hunread Hlen ->. destruct r as [[[k ec] st''] m']. unfold filled.
  rewrite cb_consume_remaining, cb_consume_consumed, length_drop, Hunread, length_app.
  intros (Hk & Hec & Hst & Hm). split_and!.
  - lia.
  - rewrite Hec. repeat case_bool_decide; [done|lia|lia|done].
  - rewrite Hst, drop_app_ge by lia. done.
  - rewrite Hm, store_bytes_app by done. rewrite take_app_ge by lia. done.
Qed.

Lemma read_into_data c max_size st m :
  cb_ok c -> 0 < max_size -> cb_remaining c <> [] -> unread st <> [] ->
  exists bytes st', read_into (cb_prepare max_size c) st m
      = (length bytes, None, st', store_bytes (cb_remaining c) bytes m) /\
    bytes <> [] /\ length bytes <= length (cb_remaining c) /\ unread st = bytes ++ unread st'.
Proof.
  intros Hok Hmax Hrem Hdata.
  destruct (cb_prepare_prefix max_size c Hok) as [Hpre _].
  pose proof (cb_prepare_progress max_size c Hok Hmax Hrem) as Hne.
  destruct (read_some_data (length (flat (cb_prepare max_size c))) st) as (bytes & st' & Hread & Hb & Hlen & Heq);
    [by apply length_pos|done|].
  exists bytes, st'. unfold read_into. rewrite Hread. split; [|split_and!; [done| |done]].
  - by rewrite (store_bytes_prefix _ _ bytes m Hpre Hlen).
  - pose proof (prefix_length _ _ Hpre). lia.
Qed.

Lemma read_into_end c max_size st m :
  cb_ok c -> 0 < max_size -> cb_remaining c <> [] -> unread st = [] ->
  exists st', read_into (cb_prepare max_size c) st m = (0, Some Eof, st', m) /\ unread st' = [].
Proof.
  intros Hok Hmax Hrem Hdata.
  pose proof (cb_prepare_progress max_size c Hok Hmax Hrem) as Hne.
  destruct (read_some_end (length (flat (cb_prepare max_size c))) st) as (st' & Hread & Heq);
    [by apply length_pos|done|].
  exists st'. unfold read_into. rewrite Hread, store_bytes_nil. done.
Qed.

Lemma filled_empty c st m : cb_remaining c = [] -> filled c st m (cb_consumed c, None, st, m).
Proof.
  intros Hrem. unfold filled. rewrite Hrem. cbn [length]. rewrite bool_decide_eq_true_2 by lia.
  split_and!; [lia|done|by rewrite drop_0|done].
Qed.

Lemma filled_end c st st' m :
  cb_remaining c <> [] -> unread st = [] -> unread st' = [] ->
  filled c st m (cb_consumed c, Some Eof, st', m).
Proof.
  intros Hrem Hst Hst'. unfold filled. rewrite Hst, Hst'. cbn [length].
  rewrite bool_decide_eq_false_2 by (pose proof (length_pos _ Hrem); lia).
  rewrite drop_nil, take_nil, store_bytes_nil. split_and!; [lia|done..].
Qed.

(** The condition is not met before the end. *)
Lemma transfer_all_goes_on n : 0 < transfer_all false n.
Proof. unfold transfer_all, default_max_transfer_size. lia. Qed.

Lemma read_loop_fills fuel c st m :
  cb_ok c -> length (cb_remaining c) + 1 < fuel ->
  exists r, read_loop fuel c transfer_all None st m = Ok r /\ filled c st m r.
Proof.
  revert c st m. induction fuel as [|fuel IH]; intros c st m Hok Hfuel; [lia|]. cbn [read_loop].
  destruct (cb_empty c) eqn:Hempty.
  { eexists. split; [done|]. by apply filled_empty, cb_empty_spec. }
  assert (cb_remaining c <> []) as Hrem.
  { intros Hnil%cb_empty_spec; [|done]. congruence. }
  pose proof (transfer_all_goes_on (cb_consumed c)) as Hmax. unfold adapt_size_result.
  rewrite bool_decide_eq_false_2 by (by intros [? ?]).
  rewrite (proj2 (Nat.eqb_neq _ _)) by lia. destruct (decide (unread st = [])) as [Hend|Hdata].
  - destruct (read_into_end c _ st m Hok Hmax Hrem Hend) as (st' & -> & Hst').
    exists (cb_consumed c, Some Eof, st', m). split; [|by apply filled_end].
    destruct fuel as [|fuel]; [lia|].
    cbn [read_loop]. rewrite bool_decide_eq_true_2 by eauto. cbn [transfer_all adapt_size_result Nat.eqb].
    rewrite cb_consume_consumed, Nat.add_0_r. by destruct (cb_empty (cb_consume 0 c)).
  - destruct (read_into_data c _ st m Hok Hmax Hrem Hdata) as (bytes & st' & -> & Hb & Hlen & Heq).
    destruct (IH (cb_consume (length bytes) c) st' (store_bytes (cb_remaining c) bytes m))
      as (r & -> & Hr).
    { by apply cb_consume_ok. }
    { rewrite cb_consume_remaining, length_drop. destruct bytes; [done|]. simpl in *. lia. }
    exists r. split; [done|]. by apply (filled_piece c st m (length bytes) bytes st').
Qed.

(** A suspended operation on buffers that are not full finishes like [read]. *)
Lemma run_read_op_fills fuel c st m start max_size :
  cb_ok c -> length (cb_remaining c) + 1 < fuel -> cb_remaining c <> [] -> 0 < max_size ->
  exists r, run_read_op fuel transfer_all (Suspend (cb_prepare max_size c) (mkReadOp c start)) st m = Ok r /\
    filled c st m r.
Proof.
  revert c st m start max_size.
  induction fuel as [|fuel IH]; intros c st m start max_size Hok Hfuel Hrem Hmax; [lia|].
  cbn [run_read_op]. destruct (decide (unread st = [])) as [Hend|Hdata].
  - destruct (read_into_end c _ st m Hok Hmax Hrem Hend) as (st' & -> & Hst').
    exists (cb_consumed c, Some Eof, st', m). split; [|by apply filled_end].
    destruct fuel as [|fuel]; [lia|].
    unfold read_op_call. cbn [op_buffers Nat.eqb].
    rewrite bool_decide_eq_true_2 by eauto. unfold check_for_completion, adapt_size_result.
    cbn [negb andb orb transfer_all Nat.ltb Nat.leb].
    rewrite cb_consume_consumed, Nat.add_0_r. by destruct (cb_empty (cb_consume 0 c)).
  - destruct (read_into_data c _ st m Hok Hmax Hrem Hdata) as (bytes & st' & -> & Hb & Hlen & Heq).
    set (c' := cb_consume (length bytes) c).
    assert (cb_ok c') as Hok' by (by apply cb_consume_ok).
    pose proof (cb_consume_remaining (length bytes) c) as Hrem'. fold c' in Hrem'.
    assert (length (cb_remaining c') < length (cb_remaining c)) as Hless.
    { rewrite Hrem', length_drop. destruct bytes; [done|]. simpl in *. lia. }
    enough (exists r, run_read_op fuel transfer_all
        (read_op_call transfer_all None (length bytes) 0 (mkReadOp c start)) st'
        (store_bytes (cb_remaining c) bytes m) = Ok r /\
      filled c' st' (store_bytes (cb_remaining c) bytes m) r) as (r & -> & Hr).
    { exists r. split; [done|]. by apply (filled_piece c st m (length bytes) bytes st'). }
    unfold read_op_call. cbn [op_buffers Nat.eqb].
    rewrite bool_decide_eq_false_2 by (by intros [? ?]). fold c'. cbn [negb andb].
    rewrite (proj2 (Nat.eqb_neq _ _)) by (by destruct bytes). cbn [orb].
    destruct (cb_empty c') eqn:Hempty.
    + destruct fuel as [|fuel]; [lia|]. eexists. split; [done|]. by apply filled_empty, cb_empty_spec.
    + unfold check_for_completion, adapt_size_result.
      pose proof (transfer_all_goes_on (cb_consumed c')) as Hmax'. rewrite (proj2 (Nat.ltb_lt _ _)) by done.
      apply IH; [done|lia| |done]. intros Hnil%cb_empty_spec; [|done]. congruence.
Qed.

End read.

Section fill.
Context {C : Type} `{ConsumingOk C} {St : Type} `{SyncReadStreamOk St}.

Lemma reads_fill fuel c st m :
  cb_ok c -> (length (cb_remaining c) + 1 < fuel)%nat ->
  (exists r, read fuel c st m = Ok r /\ filled c st m r) /\
  (exists r, async_read_all fuel c st m = Ok r /\ filled c st m r).
Proof.
  intros Hok Hfuel. split; [by apply read_loop_fills|].
  unfold async_read_all, start_read_buffer_sequence_op, read_op_call. cbn [Nat.eqb op_buffers].
  rewrite bool_decide_eq_false_2 by (by intros [? ?]). unfold check_for_completion, adapt_size_result.
  pose proof (transfer_all_goes_on (cb_consumed c)) as Hmax.
  destruct (decide (cb_remaining c = [])) as [Hnil|Hrem].
  2: by apply run_read_op_fills.
  exists (cb_consumed c, None, st, m). split; [|by apply filled_empty].
  destruct fuel as [|[|fuel]]; [lia..|]. cbn [run_read_op].
  destruct (cb_prepare_prefix (transfer_all false (cb_consumed c)) c Hok) as [Hpre _].
  rewrite Hnil in Hpre. apply prefix_nil_inv in Hpre. unfold read_into. rewrite Hpre.
  cbn [length]. rewrite read_some_zero. cbn [length store_bytes read_op_call op_buffers Nat.eqb].
  unfold read_op_call. cbn [Nat.eqb op_buffers]. rewrite bool_decide_eq_false_2 by (by intros [? ?]).
  cbn [negb andb orb run_read_op]. by rewrite cb_consume_consumed, Nat.add_0_r.
Qed.

End fill.

(** ** The interface of Node.v *)

Section node.
Context {St : Type} `{SyncReadStreamOk St}.

(** [async_read] into a buffer of [n] bytes, as the connection uses it. *)
Definition asio_async_read (n : nat) (st : St) : ReadResult * St :=
  match async_read_all (n + 2) (new_consuming_single_buffer (mkBuffer 0 n)) st (replicate n 0%Z) with
  | Ok (k, None, st', m) => (ReadDone (take k m), st')
  | Ok (k, Some ec, st', m) => (ReadFailed ec (take k m), st')
  | Err _ => (ReadFailed OtherError [], st)
  end.

#[export] Instance asio_stream : AsyncRead St := {|
  async_read := asio_async_read;
  incoming := unread;
|}.

Lemma asio_async_read_spec n st :
  exists st', unread st' = drop n (unread st) /\
    asio_async_read n st =
      ((if bool_decide (n <= length (unread st))%nat then ReadDone (take n (unread st))
        else ReadFailed Eof (unread st)), st').
Proof.
  destruct (reads_fill (n + 2) (new_consuming_single_buffer (mkBuffer 0 n)) st (replicate n 0%Z))
    as [_ (r & Hr & Hfilled)].
  { exact I. }
  { unfold cb_remaining. rewrite drop_0. cbn [cb_all consuming_single_consuming]. rewrite length_addresses.
    cbn [size_ buffer_ new_consuming_single_buffer]. lia. }
  destruct r as [[[k ec] st'] m]. unfold filled, cb_remaining in Hfilled.
  cbn [cb_consumed cb_all consuming_single_consuming single_consumed buffer_ new_consuming_single_buffer] in Hfilled.
  rewrite drop_0, length_addresses in Hfilled. unfold addresses in Hfilled. cbn [size_ data_] in Hfilled.
  destruct Hfilled as (-> & -> & Hst' & ->). exists st'. split; [done|].
  unfold asio_async_read. rewrite Hr.
  pose proof (store_bytes_front [] (take n (unread st)) (replicate n 0%Z)) as Hfront.
  rewrite length_replicate, length_take in Hfront. cbn [length app] in Hfront.
  rewrite Hfront by lia. rewrite Nat.add_0_l, take_app_length' by (rewrite length_take; lia).
  case_bool_decide; [done|]. by rewrite take_ge by lia.
Qed.

#[export] Instance asio_stream_ok : AsyncReadOk St.
Proof.
  split; intros n st Hn; destruct (asio_async_read_spec n st) as (st' & Hst' & Heq); cbn in *.
  - exists st'. by rewrite Heq, bool_decide_eq_true_2.
  - exists (unread st), st'. by rewrite Heq, bool_decide_eq_false_2 by lia.
Qed.

End node.

(** ** Properties *)

Section properties.
Context {C : Type} `{ConsumingOk C} {St : Type} `{SyncReadStreamOk St}.

(** Reading fills the buffers.  [read] and [async_read] end, for every kind
    of buffer sequence and however the stream cuts its bytes into pieces, with
    the next bytes of the stream in the memory of the buffers, in the order of
    the buffers; with less than that and the end of the stream as error when
    the stream is too short. *)
Theorem reads_fill_buffers fuel c st m :
  cb_ok c -> (length (cb_remaining c) + 1 < fuel)%nat ->
  (exists r, read fuel c st m = Ok r /\ filled c st m r) /\
  (exists r, async_read_all fuel c st m = Ok r /\ filled c st m r).
Proof. apply reads_fill. Qed.

End properties.

(** The server over asio.  A connection that reads with [async_read] from a
    socket, in whatever pieces the bytes of the frames arrive, delivers exactly
    the messages of the complete frames, in order, and closes the socket. *)
Theorem connection_over_asio {St} `{SyncReadStreamOk St} plat fuel op sender ms last k (st : St) :
  Forall (acceptable plat op) (ms ++ [last]) -> (k < length (frame plat last))%nat ->
  unread st = (ms ≫= frame plat) ++ take k (frame plat last) ->
  (2 * length ms + 3 <= fuel)%nat ->
  exists c', connection plat fuel st (new_ServerConnection sender op)
    = (((fun m => Deliver m sender) <$> ms) ++ [CloseSocket], c', Ok tt) /\ pending c' = None.
Proof.
  intros Hms Hk Hin Hfuel. unfold connection, start_connection, read_header. rewrite run_modify.
  by apply (serve_messages plat fuel op sender ms last k); [apply waiting_new|..].
Qed.

(** ** Examples *)

(** A stream that delivers its bytes in given pieces. *)
Fixpoint read_piece (n : nat) (pieces : list (list Z)) : list Z * option ErrorCode * list (list Z) :=
  match pieces with
  | [] => ([], Some Eof, [])
  | [] :: pieces => read_piece n pieces
  | piece :: pieces =>
      (take n piece, None,
       if bool_decide (n < length piece)%nat then drop n piece :: pieces else pieces)
  end.

#[export] Instance pieces_stream : SyncReadStream (list (list Z)) := {|
  read_some n pieces := match n with O => ([], None, pieces) | _ => read_piece n pieces end;
|}.

Lemma read_piece_end n pieces : concat pieces = [] -> read_piece n pieces = ([], Some Eof, []).
Proof. induction pieces as [|[|x piece] pieces IH]; [done|exact IH|done]. Qed.

Lemma read_piece_data n pieces :
  (0 < n)%nat -> concat pieces <> [] ->
  exists bytes pieces', read_piece n pieces = (bytes, None, pieces') /\ bytes <> [] /\
    (length bytes <= n)%nat /\ concat pieces = bytes ++ concat pieces'.
Proof.
  intros Hn. induction pieces as [|[|x piece] pieces IH]; [done|exact IH|]. intros _.
  do 2 eexists. split; [reflexivity|]. split; [by destruct n; [lia|]|].
  split; [rewrite length_take; lia|]. rewrite concat_cons. case_bool_decide as Hlt.
  - by rewrite concat_cons, (assoc_L (++)), take_drop.
  - by rewrite take_ge by lia.
Qed.

#[export] Instance pieces_stream_ok : SyncReadStreamOk (list (list Z)).
Proof.
  refine {| unread := @concat Z |}.
  - done.
  - intros [|n] st Hn Hdata; [lia|]. by apply read_piece_data.
  - intros [|n] st Hn Hdata; [lia|]. exists []. split; [|done]. by apply read_piece_end.
Defined.

(** A header and a body that arrive as five pieces. *)
Lemma reads_fill_buffers_witness :
  exists st', async_read_all 8 (new_consuming_buffers 64 [mkBuffer 3 2; mkBuffer 0 0; mkBuffer 0 2])
      [[11%Z]; []; [12%Z; 13%Z]; [14%Z; 15%Z]] (replicate 6 0%Z)
    = Ok (4%nat, None, st', [13%Z; 14%Z; 0%Z; 11%Z; 12%Z; 0%Z]) /\ concat st' = [15%Z].
Proof.
  destruct (reads_fill_buffers 8 (new_consuming_buffers 64 [mkBuffer 3 2; mkBuffer 0 0; mkBuffer 0 2])
    [[11%Z]; []; [12%Z; 13%Z]; [14%Z; 15%Z]] (replicate 6 0%Z)) as [_ (r & Hr & Hf)].
  - apply new_consuming_ok. lia.
  - vm_compute. lia.
  - destruct r as [[[n ec] st'] m]. destruct Hf as (Hn & Hec & Hst & Hm).
    vm_compute in Hn, Hec, Hst, Hm. exists st'. rewrite Hr, Hn, Hec, Hm. by split.
Defined.

Lemma connection_over_asio_witness :
  exists c', connection x86_64 7
      [[2%Z; 0%Z]; [0%Z; 0%Z; 1%Z]; [2%Z]; [0%Z; 0%Z; 0%Z; 0%Z; 5%Z; 0%Z; 0%Z; 0%Z; 9%Z]]
      (new_ServerConnection peer small_buffer)
    = ([Deliver (mkMessage [1%Z; 2%Z]) peer; Deliver (mkMessage []) peer; CloseSocket], c', Ok tt) /\
    pending c' = None.
Proof.
  apply (connection_over_asio x86_64 7 small_buffer peer [mkMessage [1%Z; 2%Z]; mkMessage []]
    (mkMessage [9%Z; 9%Z; 9%Z; 9%Z; 9%Z]) 5).
  - cbn [app]. repeat (apply Forall_cons; split; [split_and!; vm_compute; (lia || intuition congruence)|]).
    by apply Forall_nil.
  - vm_compute. lia.
  - reflexivity.
  - simpl. lia.
Defined.
