(* ===== verification/AsioDynamicBuffers.v ===== *)
(** * asio: dynamic buffers

    A dynamic buffer holds an input sequence, bytes that were read and not yet
    consumed, and an output sequence behind it that grows on demand up to
    [max_size].  [dynamic_string_buffer] keeps them in a string that it refers to
    ([dynamic_vector_buffer] is the same text for a vector), [basic_streambuf] in
    the get and put area of a stream buffer.  [DynamicBufferOk] states what they
    promise to the operations that read into them (AsioReadUntil.v). *)
From S2P Require Import Prelude Utils NetworkUtil NodeCommon Node AsioBuffers AsioRead.

Local Open Scope Z_scope.

(** ** Strings and vectors of bytes *)

(** How a container of the standard library reallocates, and the largest number
    of elements that it accepts. *)
Class Container := {
  growth : Z -> Z -> Z;
  container_max : Z;
}.

Class ContainerOk `{Container} := {
  growth_enough capacity n : capacity < n <= container_max -> n <= growth capacity n <= container_max;
  container_max_fits : 2 ^ 20 <= container_max < 2 ^ 63;
}.

(** The elements and the capacity of a [std::string] or [std::vector]. *)
Record storage := mkStorage { elements : list Z; capacity_ : Z }.

Definition storage_ok `{Container} (s : storage) : Prop :=
  Z.of_nat (length (elements s)) <= capacity_ s <= container_max.

Section storage.
Context `{Container}.

(** [resize] and [erase] of the front. *)
Definition resize (n : Z) (s : storage) : result storage :=
  if container_max <? n then Err (LengthError "resize")
  else
    let k := Z.to_nat n in
    Ok (mkStorage (take k (elements s) ++ replicate (k - length (elements s)) 0)
      (if capacity_ s <? n then growth (capacity_ s) n else capacity_ s)).

Definition erase_front (n : nat) (s : storage) : storage :=
  mkStorage (drop n (elements s)) (capacity_ s).

(** The memory of the elements. *)
Definition write_elements (addrs : list nat) (bytes : list Z) (s : storage) : storage :=
  mkStorage (store_bytes addrs bytes (elements s)) (capacity_ s).

Context `{!ContainerOk}.

Lemma resize_ok n s :
  storage_ok s -> 0 <= n <= container_max ->
  exists s', resize n s = Ok s' /\ storage_ok s' /\ Z.of_nat (length (elements s')) = n /\
    elements s' = take (Z.to_nat n) (elements s) ++ replicate (Z.to_nat n - length (elements s)) 0.
Proof.
  intros Hs Hn. unfold resize. rewrite (proj2 (Z.ltb_ge _ _)) by lia.
  eexists. split; [done|]. cbn [elements].
  assert (length (take (Z.to_nat n) (elements s)
    ++ replicate (Z.to_nat n - length (elements s)) 0) = Z.to_nat n) as Hlen.
  { rewrite length_app, length_take, length_replicate. lia. }
  split_and!; [|lia|done]. unfold storage_ok in *. cbn [elements capacity_]. rewrite Hlen.
  destruct (Z.ltb_spec (capacity_ s) n) as [Hlt|Hge]; [|lia].
  destruct (growth_enough (capacity_ s) n); lia.
Qed.

Lemma write_elements_ok addrs bytes s : storage_ok s -> storage_ok (write_elements addrs bytes s).
Proof. unfold storage_ok, write_elements. cbn. by rewrite length_store_bytes. Qed.

Lemma erase_front_ok n s : storage_ok s -> storage_ok (erase_front n s).
Proof. unfold storage_ok, erase_front. cbn. rewrite length_drop. lia. Qed.

End storage.

(** ** The interface *)

(** [db_prepare n b] gives the buffer of the output sequence; [db_write] is what
    a stream stores in its memory. *)
Class DynamicBuffer (B : Type) := {
  db_size : B -> nat;
  db_max_size : B -> Z;
  db_capacity : B -> Z;
  db_data : B -> list Z;
  db_prepare : Z -> B -> B * result buffer;
  db_write : list nat -> list Z -> B -> B;
  db_commit : Z -> B -> result B;
  db_consume : Z -> B -> result B;
  (** the specification: the invariant, and the most that the storage can hold *)
  db_ok : B -> Prop;
  db_limit : Z;
}.

(** What reading [bytes] into a prepared buffer and committing them does. *)
Definition db_appends `{DynamicBuffer B} (b b1 : B) (buf : buffer) (bytes : list Z) : Prop :=
  exists b2, db_commit (Z.of_nat (length bytes)) (db_write (addresses buf) bytes b1) = Ok b2 /\
    db_ok b2 /\ db_data b2 = db_data b ++ bytes /\ db_max_size b2 = db_max_size b.

Class DynamicBufferOk (B : Type) `{DynamicBuffer B} := {
  db_limit_fits : 2 ^ 20 <= db_limit < 2 ^ 63;
  db_size_data b : db_ok b -> db_size b = length (db_data b);
  db_capacity_size b : db_ok b -> Z.of_nat (db_size b) <= db_capacity b <= db_limit;
  db_max_range b : db_ok b -> 0 <= db_max_size b < 2 ^ 64;
  db_append n b :
    db_ok b -> 0 <= n < 2 ^ 31 -> Z.of_nat (db_size b) + n <= db_max_size b ->
    Z.of_nat (db_size b) + n <= db_limit ->
    exists buf b1, db_prepare n b = (b1, Ok buf) /\ Z.of_nat (size_ buf) = n /\
      forall bytes, Z.of_nat (length bytes) <= n -> db_appends b b1 buf bytes;
  db_too_long n b :
    db_ok b -> 0 <= n -> db_max_size b < Z.of_nat (db_size b) + n ->
    exists b1 what, db_prepare n b = (b1, Err (LengthError what));
  db_consume_ok n b :
    db_ok b -> 0 <= n < 2 ^ 31 ->
    exists b', db_consume n b = Ok b' /\ db_ok b' /\
      db_data b' = drop (Z.to_nat n) (db_data b) /\ db_max_size b' = db_max_size b;
}.

(** ** Writing behind the input sequence *)

Lemma store_bytes_at k n bytes m :
  (length bytes <= n)%nat -> (k + n <= length m)%nat ->
  store_bytes (seq k n) bytes m = take k m ++ bytes ++ drop (k + length bytes) m.
Proof.
  intros Hbytes Hm.
  rewrite (store_bytes_prefix _ (seq k (length (drop k m)))).
  - pose proof (store_bytes_front (take k m) bytes (drop k m)) as Hfront.
    rewrite length_take, take_drop, drop_drop in Hfront.
    replace (k `min` length m)%nat with k in Hfront by lia. apply Hfront. rewrite length_drop. lia.
  - exists (seq (k + n) (length m - k - n)). rewrite <- seq_app, length_drop. f_equal. lia.
  - by rewrite length_seq.
Qed.

Lemma take_store_bytes_at k n bytes m :
  (length bytes <= n)%nat -> (k + n <= length m)%nat ->
  take (k + length bytes) (store_bytes (seq k n) bytes m) = take k m ++ bytes.
Proof.
  intros Hbytes Hm. rewrite store_bytes_at, (assoc_L (++)) by done.
  rewrite take_app_length'; [done|]. rewrite length_app, length_take. lia.
Qed.

Lemma drop_clamped {A} k n (l : list A) :
  k = n \/ (length l <= k <= n)%nat -> drop k l = drop n l.
Proof. intros [->|Hk]; [done|]. rewrite !drop_ge by lia. done. Qed.

Lemma output_region k n : buffer_max (buffer_plus (mkBuffer 0 (k + n)) k) n = mkBuffer k n.
Proof.
  unfold buffer_plus, buffer_max. cbn [data_ size_].
  destruct (Nat.ltb_spec k (k + n)), (Nat.ltb_spec (k + n - k) n),
    (Nat.ltb_spec (k + n - (k + n)) n); f_equal; lia.
Qed.

(** ** dynamic_string_buffer *)

Record dynamic_string_buffer := mkDynamic {
  string_ : storage;
  dynamic_size : nat;   (* [size_] *)
  max_size_ : Z;
}.

Module dynamic_string.
Section dynamic_string.
Context `{Container}.

Definition construct (s : storage) (maximum_size : Z) : dynamic_string_buffer :=
  mkDynamic s (length (elements s)) maximum_size.

Definition size (d : dynamic_string_buffer) : nat := dynamic_size d.
Definition max_size (d : dynamic_string_buffer) : Z := max_size_ d.
Definition capacity (d : dynamic_string_buffer) : Z := capacity_ (string_ d).

(** [buffer (string_, size_)] *)
Definition data (d : dynamic_string_buffer) : list Z := take (dynamic_size d) (elements (string_ d)).

Definition prepare (n : Z) (d : dynamic_string_buffer) : dynamic_string_buffer * result buffer :=
  if (max_size d <? Z.of_nat (size d)) || (max_size d - Z.of_nat (size d) <? n)
  then (d, Err (LengthError "dynamic_string_buffer too long"))
  else
    match resize (Z.of_nat (dynamic_size d) + n) (string_ d) with
    | Err f => (d, Err f)
    | Ok s =>
        (mkDynamic s (dynamic_size d) (max_size_ d),
         Ok (buffer_max (buffer_plus (mkBuffer 0 (length (elements s))) (dynamic_size d)) (Z.to_nat n)))
    end.

Definition commit (n : Z) (d : dynamic_string_buffer) : result dynamic_string_buffer :=
  let available := Z.of_nat (length (elements (string_ d)) - dynamic_size d) in
  let size := (dynamic_size d + Z.to_nat (Z.min n available))%nat in
  s ← resize (Z.of_nat size) (string_ d);
  Ok (mkDynamic s size (max_size_ d)).

Definition consume (n : Z) (d : dynamic_string_buffer) : result dynamic_string_buffer :=
  let consume_length := Z.to_nat (Z.min n (Z.of_nat (dynamic_size d))) in
  Ok (mkDynamic (erase_front consume_length (string_ d)) (dynamic_size d - consume_length) (max_size_ d)).

Definition write (addrs : list nat) (bytes : list Z) (d : dynamic_string_buffer) :=
  mkDynamic (write_elements addrs bytes (string_ d)) (dynamic_size d) (max_size_ d).

Definition ok (d : dynamic_string_buffer) : Prop :=
  storage_ok (string_ d) /\ (dynamic_size d <= length (elements (string_ d)))%nat /\
  0 <= max_size_ d < 2 ^ 64.

#[export] Instance dynamic_string_dynamic : DynamicBuffer dynamic_string_buffer := {|
  db_size := size;
  db_max_size := max_size;
  db_capacity := capacity;
  db_data := data;
  db_prepare := prepare;
  db_write := write;
  db_commit := commit;
  db_consume := consume;
  db_ok := ok;
  db_limit := container_max;
|}.

Context `{!ContainerOk}.

Lemma prepare_ok n d :
  ok d -> 0 <= n -> Z.of_nat (size d) + n <= max_size d -> Z.of_nat (size d) + n <= container_max ->
  exists s, prepare n d
      = (mkDynamic s (dynamic_size d) (max_size_ d), Ok (mkBuffer (dynamic_size d) (Z.to_nat n))) /\
    storage_ok s /\ Z.of_nat (length (elements s)) = Z.of_nat (dynamic_size d) + n /\
    take (dynamic_size d) (elements s) = data d.
Proof.
  intros (Hs & Hsize & Hmax) Hn Hfits Hlimit. unfold prepare, size, max_size in *.
  rewrite (proj2 (Z.ltb_ge _ _)), (proj2 (Z.ltb_ge _ _)) by lia. cbn [orb].
  destruct (resize_ok (Z.of_nat (dynamic_size d) + n) (string_ d)) as (s & -> & Hs' & Hlen & Heq);
    [done|lia|].
  exists s. split_and!; [|done|done|].
  - replace (length (elements s)) with (dynamic_size d + Z.to_nat n)%nat by lia.
    by rewrite output_region.
  - unfold data. rewrite Heq, take_app_le by (rewrite length_take; lia).
    rewrite take_take. f_equal. lia.
Qed.

Lemma commit_ok k d :
  ok d -> (dynamic_size d + k <= length (elements (string_ d)))%nat ->
  exists d', commit (Z.of_nat k) d = Ok d' /\ ok d' /\ max_size_ d' = max_size_ d /\
    data d' = take (dynamic_size d + k) (elements (string_ d)).
Proof.
  intros (Hs & Hsize & Hmax) Hk. unfold commit.
  replace (Z.to_nat _) with k by lia.
  destruct (resize_ok (Z.of_nat (dynamic_size d + k)) (string_ d)) as (s & -> & Hs' & Hlen & Heq); [done| |].
  { unfold storage_ok in Hs. lia. }
  eexists. split; [reflexivity|]. unfold ok, data. cbn [string_ dynamic_size max_size_].
  split_and!; [done|lia|lia|lia|done|].
  rewrite Heq, Nat2Z.id, take_app_le by (rewrite length_take; lia). rewrite take_take. f_equal. lia.
Qed.

#[export] Instance dynamic_string_dynamic_ok : DynamicBufferOk dynamic_string_buffer.
Proof.
  split; cbn -[Z.pow].
  - apply container_max_fits.
  - intros d (Hs & Hsize & _). unfold size, data. rewrite length_take. lia.
  - intros d (Hs & Hsize & _). unfold size, capacity. unfold storage_ok in Hs. lia.
  - by intros d (_ & _ & Hmax).
  - intros n d Hok Hn Hfits Hlimit.
    destruct (prepare_ok n d) as (s & -> & Hs & Hlen & Hdata); [done|lia..|].
    do 2 eexists. split; [reflexivity|]. cbn [size_]. split; [lia|]. intros bytes Hbytes.
    set (d1 := write (addresses (mkBuffer (dynamic_size d) (Z.to_nat n))) bytes
      (mkDynamic s (dynamic_size d) (max_size_ d))).
    assert (length (elements (string_ d1)) = length (elements s)) as Hlen1 by apply length_store_bytes.
    destruct (commit_ok (length bytes) d1) as (d2 & Heq & Hok2 & Hmax2 & Hdata2).
    { destruct Hok as (_ & _ & Hmax). split; [by apply write_elements_ok|]. split; [|done].
      rewrite Hlen1. cbn. lia. }
    { rewrite Hlen1. cbn. lia. }
    exists d2. split; [done|]. split; [done|]. split; [|done]. cbn. rewrite Hdata2. cbn.
    unfold addresses. cbn [data_ size_]. rewrite take_store_bytes_at by lia. by rewrite Hdata.
  - intros n d Hok Hn Hlong. unfold prepare, size, max_size in *.
    destruct (Z.ltb_spec (max_size_ d) (Z.of_nat (dynamic_size d))); [by do 2 eexists|].
    rewrite (proj2 (Z.ltb_lt (_ - _) _)) by lia. by do 2 eexists.
  - intros n d (Hs & Hsize & Hmax) Hn. eexists. split; [reflexivity|].
    split; [split; [by apply erase_front_ok|split; [|done]]|split; [|done]].
    + cbn. rewrite length_drop. lia.
    + unfold data. cbn. rewrite <- skipn_firstn_comm.
      apply drop_clamped. rewrite length_take. lia.
Qed.

End dynamic_string.
End dynamic_string.

(** ** basic_streambuf *)

(** The get area starts at [gnext], the position [gptr ()]; it ends at [gend],
    [egptr ()]; the put area is from [pnext], [pptr ()], to [pend], [epptr ()].
    [eback ()] is always the start of [buffer_]. *)
Record basic_streambuf := mkStreambuf {
  streambuf_max : Z;   (* [max_size_] *)
  buffer_storage : storage;   (* [buffer_] *)
  gnext : nat;
  gend : nat;
  pnext : nat;
  pend : nat;
}.

Module streambuf.
Section streambuf.
Context `{Container}.

Definition buffer_delta : Z := 128.

(** [setg], [setp] and the pointers that they set. *)
Definition setg (next last : nat) (b : basic_streambuf) : basic_streambuf :=
  mkStreambuf (streambuf_max b) (buffer_storage b) next last (pnext b) (pend b).
Definition setp (next last : nat) (b : basic_streambuf) : basic_streambuf :=
  mkStreambuf (streambuf_max b) (buffer_storage b) (gnext b) (gend b) next last.
Definition set_storage (s : storage) (b : basic_streambuf) : basic_streambuf :=
  mkStreambuf (streambuf_max b) s (gnext b) (gend b) (pnext b) (pend b).

(** A pointer that [pbump] or [gbump] moves by an [int]. *)
Definition bump (position : nat) (n : Z) : result nat :=
  let moved := Z.of_nat position + to_int n in
  _ ← defined_when (bool_decide (0 <= moved)) "pointer before the buffer";
  Ok (Z.to_nat moved).

Definition construct (allocated : storage) (maximum_size : Z) : result basic_streambuf :=
  let pend := Z.min maximum_size buffer_delta in
  s ← resize (Z.max pend 1) allocated;
  Ok (mkStreambuf maximum_size s 0 0 0 (Z.to_nat pend)).

Definition size (b : basic_streambuf) : nat := pnext b - gnext b.
Definition max_size (b : basic_streambuf) : Z := streambuf_max b.
Definition capacity (b : basic_streambuf) : Z := capacity_ (buffer_storage b).
Definition data (b : basic_streambuf) : list Z :=
  take (pnext b - gnext b) (drop (gnext b) (elements (buffer_storage b))).

(** The [memmove] of the get area to the start of the buffer. *)
Definition shift (gnext pnext : nat) (els : list Z) : list Z :=
  take pnext (drop gnext els) ++ drop pnext els.

Definition reserve (n : Z) (b : basic_streambuf) : basic_streambuf * result unit :=
  if n <=? Z.of_nat (pend b - pnext b) then (b, Ok tt)
  else
    let '(pnext', b) :=
      if (0 <? gnext b)%nat
      then
        let pnext' := (pnext b - gnext b)%nat in
        (pnext', set_storage (mkStorage (shift (gnext b) pnext' (elements (buffer_storage b)))
                               (capacity_ (buffer_storage b))) b)
      else (pnext b, b) in
    let finish pend' b := (setp pnext' pend' (setg 0 pnext' b), Ok tt) in
    if Z.of_nat (pend b - pnext') <? n
    then
      if (n <=? streambuf_max b) && (Z.of_nat pnext' <=? streambuf_max b - n)
      then
        let pend' := Z.of_nat pnext' + n in
        match resize (Z.max pend' 1) (buffer_storage b) with
        | Err f => (b, Err f)
        | Ok s => finish (Z.to_nat pend') (set_storage s b)
        end
      else (b, Err (LengthError "asio::streambuf too long"))
    else finish (pend b) b.

Definition prepare (n : Z) (b : basic_streambuf) : basic_streambuf * result buffer :=
  match reserve n b with
  | (b, Ok _) => (b, Ok (mkBuffer (pnext b) (Z.to_nat n)))
  | (b, Err f) => (b, Err f)
  end.

Definition commit (n : Z) (b : basic_streambuf) : result basic_streambuf :=
  let n := Z.min n (Z.of_nat (pend b - pnext b)) in
  next ← bump (pnext b) n;
  let b := setp next (pend b) b in
  Ok (setg (gnext b) (pnext b) b).

(** The sum of a pointer and a size is taken as the address, and is undefined
    where that leaves the address space. *)
Definition consume (n : Z) (b : basic_streambuf) : result basic_streambuf :=
  let b := if (gend b <? pnext b)%nat then setg (gnext b) (pnext b) b else b in
  _ ← defined_when (bool_decide (Z.of_nat (gnext b) + n < 2 ^ 64)) "pointer overflow";
  let n := if Z.of_nat (pnext b) <? Z.of_nat (gnext b) + n then Z.of_nat (pnext b - gnext b) else n in
  next ← bump (gnext b) n;
  Ok (setg next (gend b) b).

(** The virtual functions of [std::streambuf]; [None] is [eof ()]. *)
Definition underflow (b : basic_streambuf) : option Z * basic_streambuf :=
  if (gnext b <? pnext b)%nat
  then (elements (buffer_storage b) !! gnext b, setg (gnext b) (pnext b) b)
  else (None, b).

Definition write (addrs : list nat) (bytes : list Z) (b : basic_streambuf) : basic_streambuf :=
  set_storage (write_elements addrs bytes (buffer_storage b)) b.

Definition overflow (c : Z) (b : basic_streambuf) : basic_streambuf * result unit :=
  let buffer_size := Z.of_nat (pnext b - gnext b) in
  let '(b, r) :=
    if (pnext b =? pend b)%nat
    then
      if (buffer_size <? streambuf_max b) && (streambuf_max b - buffer_size <? buffer_delta)
      then reserve (streambuf_max b - buffer_size) b
      else reserve buffer_delta b
    else (b, Ok tt) in
  match r with
  | Err f => (b, Err f)
  | Ok _ =>
      let b := write [pnext b] [c] b in
      match bump (pnext b) 1 with
      | Err f => (b, Err f)
      | Ok next => (setp next (pend b) b, Ok tt)
      end
  end.

Record ok (b : basic_streambuf) : Prop := {
  ok_storage : storage_ok (buffer_storage b);
  ok_areas : (gnext b <= gend b <= pnext b)%nat /\ (pnext b <= pend b <= length (elements (buffer_storage b)))%nat;
  ok_pend : Z.of_nat (pend b) <= streambuf_max b < 2 ^ 64;
}.

#[export] Instance streambuf_dynamic : DynamicBuffer basic_streambuf := {|
  db_size := size;
  db_max_size := max_size;
  db_capacity := capacity;
  db_data := data;
  db_prepare := prepare;
  db_write := write;
  db_commit := commit;
  db_consume := consume;
  db_ok := ok;
  db_limit := container_max;
|}.

Lemma length_shift g p els : (g + p <= length els)%nat -> length (shift g p els) = length els.
Proof. intros Hlen. unfold shift. rewrite length_app, length_take, !length_drop. lia. Qed.

Lemma take_shift g p els : (g + p <= length els)%nat -> take p (shift g p els) = take p (drop g els).
Proof.
  intros Hlen. unfold shift. rewrite take_app_le by (rewrite length_take, length_drop; lia).
  by rewrite take_take, Nat.min_id.
Qed.

Lemma shift_nothing p els : shift 0 p els = els.
Proof. unfold shift. by rewrite drop_0, take_drop. Qed.

Context `{!ContainerOk}.

(** What [reserve] leaves, with [n] bytes free behind the same data. *)
Definition reserved (n : Z) (b b' : basic_streambuf) : Prop :=
  ok b' /\ data b' = data b /\ n <= Z.of_nat (pend b' - pnext b') /\ streambuf_max b' = streambuf_max b.

Lemma reserve_alt n b :
  ok b -> 0 <= n ->
  reserve n b =
    let s := mkStorage (shift (gnext b) (size b) (elements (buffer_storage b))) (capacity_ (buffer_storage b)) in
    let b1 := set_storage s b in
    let finish pend' c := (setp (size b) pend' (setg 0 (size b) c), Ok tt) in
    if n <=? Z.of_nat (pend b - pnext b) then (b, Ok tt)
    else if n <=? Z.of_nat (pend b - size b) then finish (pend b) b1
    else if Z.of_nat (size b) + n <=? streambuf_max b
    then match resize (Z.max (Z.of_nat (size b) + n) 1) s with
         | Err f => (b1, Err f)
         | Ok s => finish (Z.to_nat (Z.of_nat (size b) + n)) (set_storage s b1)
         end
    else (b1, Err (LengthError "asio::streambuf too long")).
Proof.
  intros [Hs Hareas Hpend] Hn. unfold reserve. destruct (n <=? Z.of_nat (pend b - pnext b)); [done|].
  assert ((if (0 <? gnext b)%nat
    then ((pnext b - gnext b)%nat, set_storage (mkStorage (shift (gnext b) (pnext b - gnext b)
            (elements (buffer_storage b))) (capacity_ (buffer_storage b))) b)
    else (pnext b, b))
    = (size b, set_storage (mkStorage (shift (gnext b) (size b) (elements (buffer_storage b)))
            (capacity_ (buffer_storage b))) b)) as ->.
  { unfold size. destruct (Nat.ltb_spec 0 (gnext b)) as [Hpos|Hzero]; [done|].
    replace (gnext b) with 0%nat by lia. rewrite shift_nothing, Nat.sub_0_r. by destruct b as [? [] ?]. }
  cbn [pend streambuf_max buffer_storage set_storage]. rewrite Z.ltb_antisym.
  destruct (n <=? Z.of_nat (pend b - size b)); cbn [negb]; [done|].
  replace ((n <=? streambuf_max b) && (Z.of_nat (size b) <=? streambuf_max b - n))
    with (Z.of_nat (size b) + n <=? streambuf_max b); [done|].
  destruct (Z.leb_spec (Z.of_nat (size b) + n) (streambuf_max b)), (Z.leb_spec n (streambuf_max b)),
    (Z.leb_spec (Z.of_nat (size b)) (streambuf_max b - n)); (done || lia).
Qed.

(** The areas after a move: [els] holds the data at its front. *)
Lemma reserved_front n b s pend' :
  ok b -> storage_ok s -> (pend' <= length (elements s))%nat -> Z.of_nat pend' <= streambuf_max b ->
  Z.of_nat (size b) + n <= Z.of_nat pend' -> 0 <= n -> take (size b) (elements s) = data b ->
  reserved n b (setp (size b) pend' (setg 0 (size b) (set_storage s b))).
Proof.
  intros [Hs Hareas Hpend] Hs' Hlen Hmax Hn Hpos Hdata. unfold reserved.
  split; [split; cbn; [done|lia|lia]|]. split; [|cbn; split; [lia|done]].
  unfold data at 1. cbn. by rewrite Nat.sub_0_r, drop_0.
Qed.

Lemma reserve_ok n b :
  ok b -> 0 <= n -> Z.of_nat (size b) + n <= streambuf_max b -> Z.of_nat (size b) + n <= container_max ->
  exists b', reserve n b = (b', Ok tt) /\ reserved n b b'.
Proof.
  intros Hok Hn Hfits Hlimit. rewrite reserve_alt by done. cbv zeta.
  pose proof Hok as [Hs Hareas Hpend].
  set (s1 := mkStorage (shift (gnext b) (size b) (elements (buffer_storage b))) (capacity_ (buffer_storage b))).
  assert (length (elements s1) = length (elements (buffer_storage b))) as Hlen1.
  { apply length_shift. unfold size. lia. }
  assert (storage_ok s1) as Hs1. { unfold storage_ok. by rewrite Hlen1. }
  assert (take (size b) (elements s1) = data b) as Hdata1.
  { apply take_shift. unfold size. lia. }
  destruct (Z.leb_spec n (Z.of_nat (pend b - pnext b))).
  { eexists. by split; [done|]. }
  destruct (Z.leb_spec n (Z.of_nat (pend b - size b))).
  { eexists. split; [done|]. apply (reserved_front n b s1); (done || lia || unfold size in *; lia). }
  rewrite (proj2 (Z.leb_le _ _)) by done. pose proof container_max_fits.
  destruct (resize_ok (Z.max (Z.of_nat (size b) + n) 1) s1) as (s2 & -> & Hs2 & Hlen2 & Heq2); [done|lia|].
  eexists. split; [done|]. apply (reserved_front n b s2); [done|done|lia|lia|lia|done|].
  rewrite Heq2, take_app_le by (rewrite length_take, Hlen1; unfold size in *; lia).
  rewrite take_take, <- Hdata1. f_equal. lia.
Qed.

Lemma bump_small k n : 0 <= n < 2 ^ 31 -> bump k n = Ok (k + Z.to_nat n)%nat.
Proof.
  intros Hn. unfold bump. rewrite to_int_small by done. cbn zeta.
  rewrite bool_decide_eq_true_2 by lia. cbn. f_equal. lia.
Qed.

Lemma data_between b : data b = drop (gnext b) (take (pnext b) (elements (buffer_storage b))).
Proof. symmetry. apply skipn_firstn_comm. Qed.

Lemma streambuf_appends n bytes b0 b :
  reserved (Z.of_nat n) b0 b -> (length bytes <= n)%nat -> Z.of_nat n < 2 ^ 31 ->
  db_appends b0 b (mkBuffer (pnext b) n) bytes.
Proof.
  intros ([Hs Hareas Hpend] & Hdata & Hroom & Hmax) Hbytes Hn.
  unfold db_appends, addresses. cbn [data_ size_ db_commit streambuf_dynamic db_write].
  unfold commit. cbn [pend pnext write set_storage]. rewrite Z.min_l by lia.
  rewrite bump_small, Nat2Z.id by lia. eexists. split; [reflexivity|].
  split; [split; cbn|split; [|done]].
  - by apply write_elements_ok.
  - rewrite length_store_bytes. lia.
  - lia.
  - cbn [db_data streambuf_dynamic]. rewrite data_between, <- Hdata, data_between. cbn.
    rewrite take_store_bytes_at, drop_app_le; [done| | |]; rewrite ?length_take; lia.
Qed.

Lemma streambuf_consume_ok n b :
  ok b -> 0 <= n < 2 ^ 31 ->
  exists b', consume n b = Ok b' /\ ok b' /\ data b' = drop (Z.to_nat n) (data b) /\
    streambuf_max b' = streambuf_max b.
Proof.
  intros [Hs Hareas Hpend] Hn. unfold consume. cbv zeta.
  set (b1 := if (gend b <? pnext b)%nat then setg (gnext b) (pnext b) b else b).
  assert (b1 = setg (gnext b) (pnext b) b) as ->.
  { subst b1. destruct (Nat.ltb_spec (gend b) (pnext b)); [done|].
    replace (pnext b) with (gend b) at 1 by lia. by destruct b. }
  cbn [gnext pnext gend setg]. rewrite bool_decide_eq_true_2.
  2: { unfold storage_ok in Hs. pose proof container_max_fits. lia. }
  cbn [mbind result_bind defined_when]. set (k := if _ <? _ then _ else n).
  assert (0 <= k < 2 ^ 31 /\ (gnext b + Z.to_nat k <= pnext b)%nat /\
    (Z.to_nat k = Z.to_nat n \/ pnext b - gnext b <= Z.to_nat k <= Z.to_nat n)%nat) as (Hk & Hin & Hclamped).
  { subst k. destruct (Z.ltb_spec (Z.of_nat (pnext b)) (Z.of_nat (gnext b) + n)); lia. }
  rewrite bump_small by done. eexists. split; [reflexivity|]. split; [split; cbn; [done|lia|lia]|].
  split; [|done]. rewrite !data_between. cbn. rewrite <- drop_drop. apply drop_clamped.
  rewrite length_drop, length_take. lia.
Qed.

#[export] Instance streambuf_dynamic_ok : DynamicBufferOk basic_streambuf.
Proof.
  split; cbn -[Z.pow].
  - apply container_max_fits.
  - intros b [Hs Hareas Hpend]. unfold size, data. rewrite length_take, length_drop. lia.
  - intros b [Hs Hareas Hpend]. unfold size, capacity. unfold storage_ok in Hs. lia.
  - intros b [Hs Hareas Hpend]. unfold max_size. lia.
  - intros n b Hok Hn Hfits Hlimit. unfold prepare.
    destruct (reserve_ok n b) as (b1 & -> & Hok1 & Hdata1 & Hroom & Hmax1); [done|lia|done|done|].
    do 2 eexists. split; [reflexivity|]. cbn [size_]. split; [lia|]. intros bytes Hbytes.
    apply (streambuf_appends _ _ b); [by rewrite Z2Nat.id by lia|lia|lia].
  - intros n b Hok Hn Hlong. pose proof Hok as [Hs Hareas Hpend]. unfold prepare.
    rewrite reserve_alt by done. cbv zeta. unfold max_size, size in Hlong.
    rewrite (proj2 (Z.leb_gt _ _)), (proj2 (Z.leb_gt _ _)), (proj2 (Z.leb_gt _ _))
      by (unfold size; lia).
    by do 2 eexists.
  - intros n b Hok Hn. by apply streambuf_consume_ok.
Qed.

End streambuf.
End streambuf.

(** ** Stream buffers as streams, and their limits *)

Section streambuf_facts.
Context `{ContainerOk}.
Import streambuf.

(** A new stream buffer is empty. *)
Lemma construct_streambuf_ok maximum_size :
  0 <= maximum_size < 2 ^ 64 ->
  exists b, construct (mkStorage [] 0) maximum_size = Ok b /\ ok b /\ data b = [] /\
    max_size b = maximum_size.
Proof.
  intros Hmax. unfold construct, buffer_delta. pose proof container_max_fits.
  destruct (resize_ok (Z.max (Z.min maximum_size 128) 1) (mkStorage [] 0)) as (s & -> & Hs & Hlen & Heq);
    [unfold storage_ok; cbn; lia|lia|].
  eexists. split; [reflexivity|]. split; [|done]. split; cbn; [done|lia|lia].
Qed.

(** [std::ostream] appends a character where the put area is full. *)
Lemma overflow_appends c b :
  ok b -> Z.of_nat (size b) + 128 <= container_max -> Z.of_nat (size b) < max_size b ->
  exists b', overflow c b = (b', Ok tt) /\ ok b' /\ data b' = data b ++ [c] /\ max_size b' = max_size b.
Proof.
  intros Hok Hlimit Hroom. pose proof Hok as [Hs Hareas Hpend]. unfold overflow.
  change (Z.of_nat (pnext b - gnext b)) with (Z.of_nat (size b)). unfold max_size, buffer_delta in *.
  set (made := if (pnext b =? pend b)%nat then _ else _).
  assert (exists b1, made = (b1, Ok tt) /\ reserved (Z.of_nat 1) b b1) as (b1 & -> & Hres).
  { subst made. destruct (Nat.eqb_spec (pnext b) (pend b)) as [Hfull|Hspace].
    2: { exists b. split; [done|]. split_and!; [done|done|lia|done]. }
    rewrite (proj2 (Z.ltb_lt _ _)) by done. cbn [andb].
    destruct (Z.ltb_spec (streambuf_max b - Z.of_nat (size b)) 128).
    - destruct (reserve_ok (streambuf_max b - Z.of_nat (size b)) b) as (b1 & -> & Hok1 & Hdata & Hfree & Hmax);
        [done|lia..|]. exists b1. split; [done|]. split_and!; [done|done|lia|done].
    - destruct (reserve_ok 128 b) as (b1 & -> & Hok1 & Hdata & Hfree & Hmax); [done|lia..|].
      exists b1. split; [done|]. split_and!; [done|done|lia|done]. }
  destruct (streambuf_appends 1 [c] b b1 Hres) as (b2 & Hcommit & Hok2 & Hdata2 & Hmax2); [done..|].
  cbn [db_commit db_write db_data db_max_size streambuf_dynamic] in *.
  unfold addresses in Hcommit. cbn [data_ size_ seq length] in Hcommit.
  destruct Hres as ([_ Hareas1 _] & _ & Hfree & _).
  unfold commit in Hcommit. cbn [pend pnext write set_storage] in Hcommit |- *.
  rewrite Z.min_l, bump_small in Hcommit by lia. rewrite bump_small by lia.
  cbn [mbind result_bind] in Hcommit. injection Hcommit as <-.
  eexists. split; [reflexivity|]. split; [|by split].
  destruct Hok2 as [Hs2 Hareas2 Hpend2]. split; cbn in *; [done|lia|done].
Qed.

(** [commit] and [consume] hand the number of bytes to [pbump] and [gbump] as an
    [int]: from 2 GiB on the pointer moves backwards, here out of the buffer. *)
Lemma consume_moves_back n b :
  ok b -> 2 ^ 31 <= n <= Z.of_nat (size b) -> Z.of_nat (gnext b) + n < 2 ^ 32 ->
  consume n b = Err (UndefinedBehaviour "pointer before the buffer").
Proof.
  intros [Hs Hareas Hpend] Hn Hsmall. unfold size in Hn. unfold consume. cbv zeta.
  assert (gnext (if (gend b <? pnext b)%nat then setg (gnext b) (pnext b) b else b) = gnext b /\
    pnext (if (gend b <? pnext b)%nat then setg (gnext b) (pnext b) b else b) = pnext b) as [-> ->].
  { by destruct (gend b <? pnext b)%nat. }
  rewrite bool_decide_eq_true_2 by lia. rewrite (proj2 (Z.ltb_ge _ _)) by lia.
  cbn [mbind result_bind defined_when]. unfold bump.
  assert (to_int n = n - 2 ^ 32) as ->.
  { unfold to_int, wrap. rewrite (Z.mod_eq _ (2 ^ 32)) by lia.
    rewrite <- (Z.div_unique (n + 2 ^ 31) (2 ^ 32) 1 (n - 2 ^ 31)) by lia. lia. }
  cbn zeta. by rewrite bool_decide_eq_false_2 by lia.
Qed.

End streambuf_facts.

#[export] Existing Instances dynamic_string.dynamic_string_dynamic dynamic_string.dynamic_string_dynamic_ok
  streambuf.streambuf_dynamic streambuf.streambuf_dynamic_ok.

(** A container that doubles its capacity. *)
#[export] Instance doubling : Container := {|
  growth capacity n := Z.max n (Z.min (2 * capacity) (2 ^ 62));
  container_max := 2 ^ 62;
|}.

#[export] Instance doubling_ok : ContainerOk.
Proof. split; cbn; lia. Qed.

(** [reserve] moves the data before it notices that the limit would be passed,
    and leaves the pointers behind: the buffer of at most ten bytes holds [3; 4; 5; 6]
    and, after the [length_error], [5; 6; 5; 6]. *)
Definition streambuf_3456 : basic_streambuf :=
  mkStreambuf 10 (mkStorage [1; 2; 3; 4; 5; 6; 0; 0; 0; 0] 10) 2 6 6 10.

Example length_error_damages_the_data :
  streambuf.ok streambuf_3456 /\ streambuf.data streambuf_3456 = [3; 4; 5; 6] /\
  (streambuf.prepare 7 streambuf_3456).2 = Err (LengthError "asio::streambuf too long") /\
  streambuf.data (streambuf.prepare 7 streambuf_3456).1 = [5; 6; 5; 6].
Proof. split; [split; cbn; unfold storage_ok; cbn; lia|by split_and!]. Qed.
