(* ===== verification/AsioReadUntil.v ===== *)
(** * asio: reading until a delimiter, and into dynamic buffers

    [read_until] reads into a dynamic buffer until a character, a string or what
    a match condition looks for is in it; each round searches only what the round
    before has not ruled out.  The three versions and their asynchronous
    operations share all but the search, which is an argument here.  [SearchOk]
    is what makes skipping sound; the result is then that of one search through
    the whole stream ([read_until_is_one_search]).  [read] into a dynamic
    buffer ends the file. *)
From S2P Require Import Prelude Utils NetworkUtil NodeCommon Node AsioBuffers AsioRead AsioDynamicBuffers.

(** ** Searches *)

(** What a round of the loop finds: the result, or where the next one starts. *)
Inductive Look :=
| Found (bytes : nat)
| Continue (search_position : nat).

Definition Searching := list Z -> nat -> Look.

(** [std::find] *)
Fixpoint find_byte (delim : Z) (range : list Z) : nat :=
  match range with
  | [] => 0
  | x :: range => if (x =? delim)%Z then 0 else S (find_byte delim range)
  end.

Definition look_char (delim : Z) : Searching := fun data search_position =>
  let iter := search_position + find_byte delim (drop search_position data) in
  if negb (iter =? length data)%nat then Found (iter + 1) else Continue (length data).

(** The inner loop of [partial_search]; [moved] says that [test_iter2] is past
    [first2]. *)
Inductive TestResult := FullMatch | PartialMatch | NoMatch.

Fixpoint test_match (moved : bool) (range1 range2 : list Z) : TestResult :=
  match range2 with
  | [] => FullMatch
  | y :: range2 =>
      match range1 with
      | [] => if moved then PartialMatch else NoMatch
      | x :: range1 => if negb (x =? y)%Z then NoMatch else test_match true range1 range2
      end
  end.

Fixpoint partial_search (range1 range2 : list Z) : nat * bool :=
  match range1 with
  | [] => (0, false)
  | _ :: rest =>
      match test_match false range1 range2 with
      | FullMatch => (0, true)
      | PartialMatch => (0, false)
      | NoMatch => let '(n, full) := partial_search rest range2 in (S n, full)
      end
  end.

Definition look_string (delim : list Z) : Searching := fun data search_position =>
  let '(n, full) := partial_search (drop search_position data) delim in
  let first := search_position + n in
  if negb (first =? length data)%nat
  then if full then Found (first + length delim) else Continue first
  else Continue (length data).

(** A match condition sees the range from the search position to the end; it is
    the user's. *)
Definition MatchCondition := list Z -> nat * bool.

Definition look_match (match_condition : MatchCondition) : Searching := fun data search_position =>
  let '(n, full) := match_condition (drop search_position data) in
  let first := search_position + n in
  if full then Found first
  else if negb (first =? length data)%nat then Continue first
  else Continue (length data).

(** ** Soundness of a search *)

(** [first_match data] is the end of the first match; [skippable data p] says
    that nothing before [p] starts a match, whatever follows the data. *)
Class SearchOk (look : Searching) := {
  first_match : list Z -> option nat;
  skippable : list Z -> nat -> Prop;
  skippable_start data : skippable data 0;
  skippable_more data more p : p <= length data -> skippable data p -> skippable (data ++ more) p;
  first_match_within data n : first_match data = Some n -> n <= length data;
  first_match_more data more n : first_match data = Some n -> first_match (data ++ more) = Some n;
  look_spec data p : p <= length data -> skippable data p ->
    match look data p with
    | Found n => first_match data = Some n
    | Continue p' => first_match data = None /\ p' <= length data /\ skippable data p'
    end;
}.
#[global] Arguments first_match look {_} data.
#[global] Arguments skippable look {_} data p.

(** The reference: the first place where the delimiter starts.  An empty delimiter
    is only found where there is a byte, so that the operations wait for one. *)
Fixpoint first_occurrence (delim data : list Z) : option nat :=
  match data with
  | [] => None
  | _ :: rest => if decide (delim `prefix_of` data) then Some 0 else S <$> first_occurrence delim rest
  end.

Lemma first_occurrence_Some delim data n :
  first_occurrence delim data = Some n ->
  n + length delim <= length data /\ n < length data /\ delim `prefix_of` drop n data /\
  forall i, i < n -> ~ delim `prefix_of` drop i data.
Proof.
  revert n. induction data as [|x data IH]; intros n; cbn [first_occurrence]; [done|].
  case_decide as Hpre.
  - intros [= <-]. pose proof (prefix_length _ _ Hpre). split_and!; [done|simpl; lia|done|lia].
  - intros (m & Hm & ->)%fmap_Some. destruct (IH m Hm) as (Hlen & Hin & Hat & Hbefore).
    split_and!; simpl; [lia|lia|done|]. intros [|i] Hi; [done|]. apply Hbefore. lia.
Qed.

Lemma first_occurrence_None delim data :
  first_occurrence delim data = None <-> forall i, i < length data -> ~ delim `prefix_of` drop i data.
Proof.
  induction data as [|x data IH]; cbn [first_occurrence]; [split; [simpl; lia|done]|].
  case_decide as Hpre.
  - split; [done|]. intros Hno. destruct (Hno 0); [simpl; lia|done].
  - rewrite fmap_None. setoid_rewrite IH. split.
    + intros Hno [|i] Hi; [done|]. simpl in *. apply Hno. lia.
    + intros Hno i Hi. apply (Hno (S i)). simpl. lia.
Qed.

Lemma first_occurrence_least delim data n :
  n < length data -> delim `prefix_of` drop n data -> (forall i, i < n -> ~ delim `prefix_of` drop i data) ->
  first_occurrence delim data = Some n.
Proof.
  intros Hn Hat Hbefore. destruct (first_occurrence delim data) as [m|] eqn:Hocc.
  - apply first_occurrence_Some in Hocc as (_ & Hm & Hat' & Hbefore'). f_equal.
    destruct (decide (m < n)) as [Hlt|]; [by destruct (Hbefore m Hlt)|].
    destruct (decide (n < m)) as [Hlt|]; [by destruct (Hbefore' n Hlt)|]. lia.
  - rewrite first_occurrence_None in Hocc. by destruct (Hocc n Hn).
Qed.

(** *** A string *)

(** What the comparison at one place says of everything that may follow. *)
Lemma test_match_spec moved range delim :
  moved = true \/ range <> [] ->
  match test_match moved range delim with
  | FullMatch => delim `prefix_of` range
  | PartialMatch => length range < length delim
  | NoMatch => forall more, ~ delim `prefix_of` range ++ more
  end.
Proof.
  revert moved range. induction delim as [|y delim IH]; intros moved range Hmoved.
  { destruct range; apply prefix_nil. }
  destruct range as [|x range]; cbn [test_match].
  { destruct moved; [simpl; lia|]. by destruct Hmoved. }
  destruct (Z.eqb_spec x y) as [->|Hne]; cbn [negb].
  - specialize (IH true range (or_introl eq_refl)). destruct (test_match true range delim).
    + by apply prefix_cons.
    + simpl. lia.
    + intros more Hpre. by apply (IH more), (prefix_cons_inv_2 y y).
  - intros more Hpre. by apply prefix_cons_inv_1 in Hpre.
Qed.

(** A partial search stops at the first place that may start a match. *)
Lemma partial_search_spec range delim :
  let '(n, full) := partial_search range delim in
  n <= length range /\ (forall i more, i < n -> ~ delim `prefix_of` drop i range ++ more) /\
  if full then n < length range /\ delim `prefix_of` drop n range
  else forall i, i < length range -> ~ delim `prefix_of` drop i range.
Proof.
  induction range as [|x range IH]; cbn [partial_search]; [split_and!; [done|lia|simpl; lia]|].
  pose proof (test_match_spec false (x :: range) delim ltac:(by right)) as Htest.
  destruct (test_match false (x :: range) delim).
  - split_and!; [lia|lia|simpl; lia|done].
  - split_and!; [lia|lia|]. intros i Hi Hpre%prefix_length. rewrite length_drop in Hpre. lia.
  - destruct (partial_search range delim) as [n full]. destruct IH as (Hn & Hbefore & Hfull).
    split_and!; [simpl; lia| |].
    + intros [|i] more Hi; [apply Htest|]. simpl. apply Hbefore. lia.
    + destruct full; [simpl; split; [lia|apply Hfull]|]. intros [|i] Hi; simpl in *.
      * specialize (Htest []). by rewrite (right_id_L [] (++)) in Htest.
      * apply Hfull. lia.
Qed.

(** *** The laws *)

Lemma prefix_app_short {A} (l l1 l2 : list A) :
  l `prefix_of` l1 ++ l2 -> length l <= length l1 -> l `prefix_of` l1.
Proof.
  intros [rest Heq] Hlen. exists (drop (length l) l1).
  apply (f_equal (take (length l))) in Heq. rewrite take_app_length, take_app_le in Heq by done.
  rewrite <- Heq at 1. by rewrite take_drop.
Qed.

Definition string_skippable (delim data : list Z) (p : nat) : Prop :=
  forall i more, i < p -> ~ delim `prefix_of` drop i (data ++ more).

Definition string_first_match (delim data : list Z) : option nat :=
  (fun n => n + length delim) <$> first_occurrence delim data.

Lemma string_skippable_more delim data more p :
  string_skippable delim data p -> string_skippable delim (data ++ more) p.
Proof. intros Hskip i more' Hi. rewrite <- (assoc_L (++)). by apply Hskip. Qed.

Lemma string_first_match_within delim data n :
  string_first_match delim data = Some n -> n <= length data.
Proof. by intros (m & (Hlen & _)%first_occurrence_Some & ->)%fmap_Some. Qed.

Lemma string_first_match_more delim data more n :
  string_first_match delim data = Some n -> string_first_match delim (data ++ more) = Some n.
Proof.
  intros (m & Hocc & ->)%fmap_Some. unfold string_first_match.
  rewrite (first_occurrence_least delim (data ++ more) m); [done|..].
  all: apply first_occurrence_Some in Hocc as (Hlen & Hm & Hat & Hbefore).
  - rewrite length_app. lia.
  - rewrite drop_app_le by lia. by apply prefix_app_r.
  - intros i Hi Hpre. apply (Hbefore i Hi). rewrite drop_app_le in Hpre by lia.
    apply (prefix_app_short _ _ more); [done|]. rewrite length_drop. lia.
Qed.

Lemma string_look_spec delim data p :
  p <= length data -> string_skippable delim data p ->
  match look_string delim data p with
  | Found n => string_first_match delim data = Some n
  | Continue p' => string_first_match delim data = None /\ p' <= length data /\ string_skippable delim data p'
  end.
Proof.
  intros Hp Hskip. unfold look_string. pose proof (partial_search_spec (drop p data) delim) as Hspec.
  destruct (partial_search (drop p data) delim) as [n full]. rewrite length_drop in Hspec.
  destruct Hspec as (Hn & Hbefore & Hfull).
  assert (string_skippable delim data (p + n)) as Hskip'.
  { intros i more Hi. destruct (decide (i < p)) as [|Hge]; [by apply Hskip|].
    specialize (Hbefore (i - p) more ltac:(lia)). rewrite drop_drop in Hbefore.
    rewrite drop_app_le by lia. by replace (p + (i - p)) with i in Hbefore by lia. }
  assert (forall i, i < p + n -> ~ delim `prefix_of` drop i data) as Hnot.
  { intros i Hi. specialize (Hskip' i [] Hi). by rewrite (right_id_L [] (++)) in Hskip'. }
  destruct full.
  - destruct Hfull as [Hin Hat]. rewrite (proj2 (Nat.eqb_neq _ _)) by lia. cbn [negb].
    unfold string_first_match. rewrite (first_occurrence_least delim data (p + n)); [done|lia| |done].
    by rewrite drop_drop in Hat.
  - assert (string_first_match delim data = None) as Hnone.
    { unfold string_first_match. rewrite (proj2 (first_occurrence_None delim data)); [done|].
      intros i Hi. destruct (decide (i < p + n)) as [|Hge]; [by apply Hnot|].
      specialize (Hfull (i - p) ltac:(lia)). rewrite drop_drop in Hfull.
      by replace (p + (i - p)) with i in Hfull by lia. }
    destruct (Nat.eqb_spec (p + n) (length data)) as [Heq|Hne]; cbn [negb].
    + split_and!; [done|done|]. by rewrite <- Heq.
    + split_and!; [done|lia|done].
Qed.

#[export] Instance string_search_ok delim : SearchOk (look_string delim).
Proof.
  refine {| first_match := string_first_match delim; skippable := string_skippable delim |}.
  - intros data i more Hi. lia.
  - intros data more p _. apply string_skippable_more.
  - apply string_first_match_within.
  - apply string_first_match_more.
  - apply string_look_spec.
Defined.

Lemma partial_search_char delim range :
  partial_search range [delim] = (find_byte delim range, negb (find_byte delim range =? length range)%nat).
Proof.
  induction range as [|x range IH]; [done|]. cbn [partial_search test_match find_byte].
  destruct (x =? delim)%Z; cbn [negb]; [by destruct range|]. rewrite IH. done.
Qed.

(** Looking for a character is looking for the string of that character, which
    never matches in part. *)
Lemma look_char_string delim data p :
  p <= length data -> look_char delim data p = look_string [delim] data p.
Proof.
  intros Hp. unfold look_char, look_string. rewrite partial_search_char, length_drop.
  cbn [length]. set (n := find_byte delim (drop p data)).
  destruct (Nat.eqb_spec (p + n) (length data)); cbn [negb]; [done|].
  by rewrite (proj2 (Nat.eqb_neq _ _)) by lia.
Qed.

#[export] Instance char_search_ok delim : SearchOk (look_char delim).
Proof.
  refine {| first_match := string_first_match [delim]; skippable := string_skippable [delim] |}.
  - intros data i more Hi. lia.
  - intros data more p _. apply string_skippable_more.
  - apply string_first_match_within.
  - apply string_first_match_more.
  - intros data p Hp Hskip. rewrite look_char_string by done. by apply string_look_spec.
Defined.

(** ** The operations *)

(** [error::not_found], or an error of the stream. *)
Inductive UntilError := NotFound | StreamError (ec : ErrorCode).

#[export] Instance UntilError_eq_dec : EqDecision UntilError.
Proof. solve_decision. Defined.

Section read_until.
Context {B : Type} `{!DynamicBuffer B} {St : Type} `{!SyncReadStream St} (look : Searching).

Local Open Scope Z_scope.

(** How much to read next; the subtractions are those of [size_t]. *)
Definition bytes_to_read (max_size : Z) (b : B) : Z :=
  Z.min (Z.max 512 (u64 (db_capacity b - Z.of_nat (db_size b))))
    (Z.min max_size (u64 (db_max_size b - Z.of_nat (db_size b)))).

(** [read_some] stores into the buffer that [prepare] gave. *)
Definition read_prepared (buf : buffer) (b : B) (st : St) : nat * option ErrorCode * B * St :=
  let '(bytes, ec, st) := read_some (size_ buf) st in
  (length bytes, ec, db_write (addresses buf) bytes b, st).

Fixpoint read_until_loop (fuel : nat) (search_position : nat) (b : B) (st : St)
    : B * St * result (nat * option UntilError) :=
  match fuel with
  | O => (b, st, Err OutOfFuel)
  | S fuel =>
      match look (db_data b) search_position with
      | Found n => (b, st, Ok (n, None))
      | Continue search_position =>
          if Z.of_nat (db_size b) =? db_max_size b then (b, st, Ok (0%nat, Some NotFound))
          else
            match db_prepare (bytes_to_read 65536 b) b with
            | (b, Err f) => (b, st, Err f)
            | (b, Ok buf) =>
                let '(n, ec, b, st) := read_prepared buf b st in
                match db_commit (Z.of_nat n) b with
                | Err f => (b, st, Err f)
                | Ok b =>
                    match ec with
                    | Some ec => (b, st, Ok (0%nat, Some (StreamError ec)))
                    | None => read_until_loop fuel search_position b st
                    end
                end
            end
      end
  end.

Definition read_until (fuel : nat) (b : B) (st : St) : B * St * result (nat * option UntilError) :=
  read_until_loop fuel 0 b st.

(** The one that throws the error. *)
Definition read_until_or_throw (fuel : nat) (b : B) (st : St) : B * St * result nat :=
  match read_until fuel b st with
  | (b, st, Ok (n, None)) => (b, st, Ok n)
  | (b, st, Ok (_, Some _)) => (b, st, Err (SystemError "read_until"))
  | (b, st, Err f) => (b, st, Err f)
  end.

(** *** The asynchronous operation *)

(** What class [read_until_delim_op] and its siblings keep. *)
Record read_until_op := mkUntilOp { until_buffers : B; search_position_ : Z }.

Inductive UntilStep :=
| UntilSuspend (buf : buffer) (op : read_until_op)
| UntilComplete (ec : option UntilError) (n : nat) (b : B).

Definition not_found : Z := uint64_max.

(** The code behind the loop, which calls the handler. *)
Definition until_finish (ec : option ErrorCode) (op : read_until_op) : UntilStep :=
  let result_ec := if search_position_ op =? not_found then Some NotFound else StreamError <$> ec in
  let result_n := if bool_decide (is_Some ec) || (search_position_ op =? not_found) then 0
    else search_position_ op in
  UntilComplete result_ec (Z.to_nat result_n) (until_buffers op).

(** The loop from its start to the next [async_read_some]. *)
Definition until_search (start : nat) (ec : option ErrorCode) (op : read_until_op) : result UntilStep :=
  let b := until_buffers op in
  let '(search_position, to_read) :=
    match look (db_data b) (Z.to_nat (search_position_ op)) with
    | Found n => (Z.of_nat n, 0)
    | Continue p =>
        if Z.of_nat (db_size b) =? db_max_size b then (not_found, 0)
        else (Z.of_nat p, bytes_to_read 65536 b)
    end in
  if (start =? 0)%nat && (to_read =? 0) then Ok (until_finish ec (mkUntilOp b search_position))
  else
    match db_prepare to_read b with
    | (_, Err f) => Err f
    | (b, Ok buf) => Ok (UntilSuspend buf (mkUntilOp b search_position))
    end.

Definition until_call (ec : option ErrorCode) (bytes_transferred start : nat) (op : read_until_op)
    : result UntilStep :=
  if (start =? 1)%nat then until_search start ec op
  else
    b ← db_commit (Z.of_nat bytes_transferred) (until_buffers op);
    let op := mkUntilOp b (search_position_ op) in
    if bool_decide (is_Some ec) || (bytes_transferred =? 0)%nat then Ok (until_finish ec op)
    else until_search start ec op.

(** The stream completes what the operation waits for, until it calls the handler. *)
Fixpoint run_until_op (fuel : nat) (step : result UntilStep) (st : St)
    : result (B * St * (nat * option UntilError)) :=
  match fuel with
  | O => Err OutOfFuel
  | S fuel =>
      match step with
      | Err f => Err f
      | Ok (UntilComplete ec n b) => Ok (b, st, (n, ec))
      | Ok (UntilSuspend buf op) =>
          let '(n, ec, b, st) := read_prepared buf (until_buffers op) st in
          run_until_op fuel (until_call ec n 0 (mkUntilOp b (search_position_ op))) st
      end
  end.

Definition async_read_until (fuel : nat) (b : B) (st : St) : result (B * St * (nat * option UntilError)) :=
  run_until_op fuel (until_call None 0 1 (mkUntilOp b 0)) st.

(** ** Facts *)

Context `{!DynamicBufferOk B} `{!SyncReadStreamOk St}.

(** There is room for what the stream delivers, and a round more. *)
Record ready (b : B) (st : St) : Prop := {
  ready_ok : db_ok b;
  ready_size : Z.of_nat (length (db_data b)) <= db_max_size b;
  ready_limit : Z.of_nat (length (db_data b ++ unread st)) + 65536 <= db_limit;
}.

(** One round of preparing, reading and committing. *)
Record moved (bytes : list Z) (b : B) (st : St) (b' : B) (st' : St) : Prop := {
  moved_ready : ready b' st';
  moved_data : db_data b' = db_data b ++ bytes;
  moved_max : db_max_size b' = db_max_size b;
  moved_unread : unread st = bytes ++ unread st';
}.

Lemma read_some_cases n st :
  exists bytes ec st', read_some n st = (bytes, ec, st') /\ (length bytes <= n)%nat /\
    unread st = bytes ++ unread st' /\
    ((n = 0%nat /\ bytes = [] /\ ec = None) \/ (n <> 0%nat /\ bytes <> [] /\ ec = None) \/
     (n <> 0%nat /\ bytes = [] /\ ec = Some Eof /\ unread st = [])).
Proof.
  destruct (decide (n = 0%nat)) as [->|Hn].
  { exists [], None, st. rewrite read_some_zero. eauto 10. }
  destruct (decide (unread st = [])) as [Hend|Hdata].
  - destruct (read_some_end n st) as (st' & Hread & Hst'); [lia|done|].
    exists [], (Some Eof), st'. rewrite Hread, Hend, Hst'. split_and!; [done|simpl; lia|done|]. eauto 10.
  - destruct (read_some_data n st) as (bytes & st' & Hread & Hne & Hlen & Heq); [lia|done|].
    exists bytes, None, st'. eauto 10.
Qed.

Lemma read_round n b st :
  ready b st -> 0 <= n <= 65536 -> Z.of_nat (length (db_data b)) + n <= db_max_size b ->
  exists buf b1 bytes ec b2 b' st',
    db_prepare n b = (b1, Ok buf) /\ read_prepared buf b1 st = (length bytes, ec, b2, st') /\
    db_commit (Z.of_nat (length bytes)) b2 = Ok b' /\ moved bytes b st b' st' /\
    Z.of_nat (length bytes) <= n /\
    ((n = 0 /\ bytes = [] /\ ec = None) \/ (n <> 0 /\ bytes <> [] /\ ec = None) \/
     (n <> 0 /\ bytes = [] /\ ec = Some Eof /\ unread st = [])).
Proof.
  intros [Hok Hsize Hlimit] Hn Hroom. rewrite length_app in Hlimit.
  destruct (db_append n b) as (buf & b1 & Hprepare & Hbuf & Happend);
    [done|lia|rewrite db_size_data by done; lia..|].
  destruct (read_some_cases (size_ buf) st) as (bytes & ec & st' & Hread & Hlen & Hunread & Hcases).
  destruct (Happend bytes) as (b' & Hcommit & Hok' & Hdata & Hmax); [lia|].
  exists buf, b1, bytes, ec, (db_write (addresses buf) bytes b1), b', st'.
  split; [done|]. split; [unfold read_prepared; by rewrite Hread|]. split; [done|].
  split; [|split; [lia|]].
  2: { destruct Hcases as [(H0 & Hnil & Hec)|[(H0 & Hmore)|(H0 & Hnil & Hec & Hend)]]; [left|right; left|right; right].
       all: split; [lia|by auto]. }
  split; [|done..]. apply (f_equal length) in Hunread as Hlens. rewrite length_app in Hlens.
  split; [done| |]; rewrite ?Hmax, ?Hdata, ?length_app; lia.
Qed.

Lemma bytes_to_read_spec max_size b st :
  ready b st -> 0 <= max_size ->
  bytes_to_read max_size b
    = Z.min (Z.max 512 (db_capacity b - Z.of_nat (length (db_data b))))
        (Z.min max_size (db_max_size b - Z.of_nat (length (db_data b)))).
Proof.
  intros [Hok Hsize Hlimit] Hmax. unfold bytes_to_read. rewrite db_size_data by done.
  pose proof (db_capacity_size b Hok) as Hcap. rewrite db_size_data in Hcap by done.
  pose proof (db_max_range b Hok). pose proof (db_limit_fits (B := B)).
  unfold wrap. rewrite !Z.mod_small by lia. done.
Qed.

Lemma more_to_read max_size b st :
  ready b st -> 0 <= max_size <= 65536 ->
  0 <= bytes_to_read max_size b <= 65536 /\
  Z.of_nat (length (db_data b)) + bytes_to_read max_size b <= db_max_size b /\
  (0 < max_size -> Z.of_nat (length (db_data b)) < db_max_size b -> 0 < bytes_to_read max_size b).
Proof.
  intros Hready Hmax. rewrite (bytes_to_read_spec max_size b st) by (done || lia).
  destruct Hready as [Hok Hsize Hlimit]. lia.
Qed.

(** *** What is read *)

(** The result for an input, and what is left when an operation is done. *)
Definition until_result (first : list Z -> option nat) (input : list Z) (max_size : Z)
    : nat * option UntilError :=
  match first (take (Z.to_nat (Z.min max_size (Z.of_nat (length input)))) input) with
  | Some n => (n, None)
  | None => (0%nat, Some (if max_size <=? Z.of_nat (length input) then NotFound else StreamError Eof))
  end.

Record until_done (first : list Z -> option nat) (b : B) (st : St)
    (b' : B) (st' : St) (r : nat * option UntilError) : Prop := {
  done_ok : db_ok b';
  done_max : db_max_size b' = db_max_size b;
  done_input : db_data b' ++ unread st' = db_data b ++ unread st;
  done_result : r = until_result first (db_data b ++ unread st) (db_max_size b);
  done_held : r.2 = None -> first (db_data b') = Some r.1;
}.

Lemma until_done_moved first bytes b st b1 st1 b' st' r :
  moved bytes b st b1 st1 -> until_done first b1 st1 b' st' r -> until_done first b st b' st' r.
Proof.
  intros [_ Hdata Hmax Hunread] [Hok Hmax' Hinput Hresult Hheld].
  assert (db_data b1 ++ unread st1 = db_data b ++ unread st) as Hsame.
  { by rewrite Hdata, Hunread, (assoc_L (++)). }
  rewrite Hsame in *. rewrite Hmax in *. by split.
Qed.

Context `{!SearchOk look}.

Abbreviation first := (first_match look).

Lemma until_done_found b st n : ready b st -> first (db_data b) = Some n -> until_done first b st b st (n, None).
Proof.
  intros [Hok Hsize Hlimit] Hfirst. split; [done|done|done| |done]. unfold until_result.
  rewrite take_app_ge by (rewrite length_app; lia). by rewrite (first_match_more _ _ n Hfirst).
Qed.

Lemma until_done_full b st :
  ready b st -> first (db_data b) = None -> Z.of_nat (length (db_data b)) = db_max_size b ->
  until_done first b st b st (0%nat, Some NotFound).
Proof.
  intros [Hok Hsize Hlimit] Hfirst Hfull. split; [done|done|done| |done]. unfold until_result.
  rewrite <- Hfull, length_app, take_app_le by lia. rewrite take_ge by lia.
  rewrite Hfirst, (proj2 (Z.leb_le _ _)) by lia. done.
Qed.

Lemma until_done_end b st b' st' :
  moved [] b st b' st' -> unread st = [] -> first (db_data b) = None ->
  Z.of_nat (length (db_data b)) < db_max_size b ->
  until_done first b st b' st' (0%nat, Some (StreamError Eof)).
Proof.
  intros [[Hok _ _] Hdata Hmax Hunread] Hend Hfirst Hroom. rewrite Hend in Hunread.
  split; [done|done| | |done].
  - by rewrite Hdata, (right_id_L [] (++)), Hend, Hunread.
  - unfold until_result. rewrite Hend, (right_id_L [] (++)), take_ge by lia.
    by rewrite Hfirst, (proj2 (Z.leb_gt _ _)) by lia.
Qed.

(** A round that goes on has skipped only what cannot start a match. *)
Lemma look_continues p b st :
  (p <= length (db_data b))%nat -> skippable look (db_data b) p ->
  match look (db_data b) p with
  | Found n => first (db_data b) = Some n
  | Continue p' => first (db_data b) = None /\
      forall bytes b' st', moved bytes b st b' st' ->
        (p' <= length (db_data b'))%nat /\ skippable look (db_data b') p'
  end.
Proof.
  intros Hp Hskip. pose proof (look_spec _ p Hp Hskip) as Hlook.
  destruct (look (db_data b) p) as [n|p']; [done|]. destruct Hlook as (Hnone & Hp' & Hskip').
  split; [done|]. intros bytes b' st' [_ Hdata _ _]. rewrite Hdata, length_app.
  split; [lia|by apply skippable_more].
Qed.

Lemma read_until_loop_done fuel p b st :
  ready b st -> (p <= length (db_data b))%nat -> skippable look (db_data b) p ->
  (length (unread st) < fuel)%nat ->
  exists b' st' r, read_until_loop fuel p b st = (b', st', Ok r) /\ until_done first b st b' st' r.
Proof.
  revert p b st. induction fuel as [|fuel IH]; intros p b st Hready Hp Hskip Hfuel; [lia|].
  pose proof (look_continues p b st Hp Hskip) as Hlook. cbn [read_until_loop].
  destruct (look (db_data b) p) as [n|p'].
  { do 3 eexists. split; [done|]. by apply until_done_found. }
  destruct Hlook as [Hnone Hnext]. pose proof Hready as [Hok Hsize Hlimit].
  rewrite db_size_data by done. destruct (Z.eqb_spec (Z.of_nat (length (db_data b))) (db_max_size b)) as [Hfull|Hroom].
  { do 3 eexists. split; [done|]. by apply until_done_full. }
  destruct (more_to_read 65536 b st) as (Hto & Hfits & Hpos); [done|lia|].
  destruct (read_round (bytes_to_read 65536 b) b st) as
    (buf & b1 & bytes & ec & b2 & b' & st' & -> & -> & -> & Hmoved & _ & Hcases); [done..|].
  destruct Hcases as [(Hzero & _)|[(_ & Hne & ->)|(_ & -> & -> & Hend)]]; [lia| |].
  - destruct (Hnext bytes b' st' Hmoved) as [Hp' Hskip'].
    destruct (IH p' b' st') as (b'' & st'' & r & -> & Hdone); [apply Hmoved|done|done| |].
    { destruct Hmoved as [_ _ _ Hunread]. apply (f_equal length) in Hunread.
      rewrite length_app in Hunread. destruct bytes; [done|]. simpl in Hunread. lia. }
    do 3 eexists. split; [done|]. by apply (until_done_moved _ bytes b st b' st').
  - do 3 eexists. split; [done|]. apply until_done_end; [done|done|done|lia].
Qed.

(** *** The asynchronous operation *)

Lemma moved_shorter bytes b st b' st' :
  moved bytes b st b' st' -> bytes <> [] -> (length (unread st') < length (unread st))%nat.
Proof.
  intros [_ _ _ Hunread] Hne. rewrite Hunread, length_app. destruct bytes; [done|]. simpl. lia.
Qed.

Lemma small_position b st n : ready b st -> (n <= length (db_data b))%nat -> Z.of_nat n <> not_found.
Proof.
  intros [Hok Hsize Hlimit] Hn. pose proof (db_limit_fits (B := B)). rewrite length_app in Hlimit.
  unfold not_found. lia.
Qed.

(** What the search has settled is what the handler gets. *)
Definition settles (sp : Z) (r : nat * option UntilError) : Prop :=
  sp = not_found /\ r = (0%nat, Some NotFound) \/
  sp <> not_found /\ 0 <= sp /\ r = (Z.to_nat sp, None).

Lemma until_finish_settles sp r b : settles sp r -> until_finish None (mkUntilOp b sp) = UntilComplete r.2 r.1 b.
Proof.
  intros [[-> ->]|(Hne & Hpos & ->)]; [done|]. unfold until_finish. cbn [search_position_ until_buffers].
  rewrite (proj2 (Z.eqb_neq _ _)) by done. done.
Qed.

(** A settled search of the first round reads nothing before it calls the handler. *)
Lemma until_settled fuel start sp r b st :
  ready b st -> settles sp r -> start = 0%nat \/ start = 1%nat -> (1 < fuel)%nat ->
  exists b' st',
    run_until_op fuel
      (if (start =? 0)%nat && (0 =? 0) then Ok (until_finish None (mkUntilOp b sp))
       else match db_prepare 0 b with
            | (_, Err f) => Err f
            | (b, Ok buf) => Ok (UntilSuspend buf (mkUntilOp b sp))
            end) st = Ok (b', st', r) /\ (b' = b /\ st' = st \/ moved [] b st b' st').
Proof.
  intros Hready Hsettled Hstart Hfuel. destruct fuel as [|[|fuel]]; [lia..|].
  destruct Hstart as [->| ->]; cbn [Nat.eqb andb Z.eqb].
  { rewrite (until_finish_settles sp r) by done. exists b, st. destruct r. by split; [|left]. }
  pose proof Hready as [Hok Hsize Hlimit].
  destruct (read_round 0 b st) as (buf & b1 & bytes & ec & b2 & b' & st' & -> & Hread & Hcommit & Hmoved & _ & Hcases);
    [done|lia|lia|].
  destruct Hcases as [(_ & -> & ->)|[(? & _)|(? & _)]]; [|done..].
  exists b', st'. cbn [run_until_op until_buffers]. rewrite Hread.
  unfold until_call. cbn [Nat.eqb until_buffers search_position_].
  rewrite Hcommit. cbn [mbind result_bind length]. rewrite bool_decide_eq_false_2 by (by intros [? ?]).
  cbn [orb Nat.eqb]. rewrite (until_finish_settles sp r) by done. destruct r. by split; [|right].
Qed.

Lemma until_done_settled b st b' st' r :
  ready b st -> b' = b /\ st' = st \/ moved [] b st b' st' ->
  (forall b st, ready b st -> db_data b = db_data b' -> db_max_size b = db_max_size b' -> until_done first b st b st r) ->
  until_done first b st b' st' r.
Proof.
  intros Hready [[-> ->]|Hmoved] Hdone; [by apply Hdone|].
  apply (until_done_moved _ [] b st b' st' b' st'); [done|]. by apply Hdone; [apply Hmoved|..].
Qed.

Lemma run_search_done fuel start p b st :
  ready b st -> (p <= length (db_data b))%nat -> skippable look (db_data b) p ->
  start = 0%nat \/ start = 1%nat -> (length (unread st) + 1 < fuel)%nat ->
  exists b' st' r,
    run_until_op fuel (until_search start None (mkUntilOp b (Z.of_nat p))) st = Ok (b', st', r) /\
    until_done first b st b' st' r.
Proof.
  revert start p b st. induction fuel as [|fuel IH]; intros start p b st Hready Hp Hskip Hstart Hfuel; [lia|].
  pose proof (look_continues p b st Hp Hskip) as Hlook. unfold until_search.
  cbn [until_buffers search_position_]. rewrite Nat2Z.id.
  destruct (look (db_data b) p) as [n|p'].
  { pose proof (first_match_within _ n Hlook) as Hn.
    destruct (until_settled (S fuel) start (Z.of_nat n) (n, None) b st) as (b' & st' & -> & Hend); [done| |done|lia|].
    { right. split_and!; [by apply (small_position b st)|lia|by rewrite Nat2Z.id]. }
    exists b', st', (n, None). split; [done|]. apply until_done_settled; [done|done|].
    intros b0 st0 Hready0 Hdata0 _. apply until_done_found; [done|]. rewrite Hdata0.
    destruct Hend as [[-> _]|[_ -> _ _]]; [done|]. by rewrite (right_id_L [] (++)). }
  destruct Hlook as [Hnone Hnext]. pose proof Hready as [Hok Hsize Hlimit].
  rewrite db_size_data by done.
  destruct (Z.eqb_spec (Z.of_nat (length (db_data b))) (db_max_size b)) as [Hfull|Hroom].
  { destruct (until_settled (S fuel) start not_found (0%nat, Some NotFound) b st) as (b' & st' & -> & Hend);
      [done|by left|done|lia|].
    exists b', st', (0%nat, Some NotFound). split; [done|]. apply until_done_settled; [done|done|].
    intros b0 st0 Hready0 Hdata0 Hmax0.
    assert (db_data b' = db_data b /\ db_max_size b' = db_max_size b) as [Hdata' Hmax'].
    { destruct Hend as [[-> _]|[_ Hdata Hmax _]]; [done|]. by rewrite (right_id_L [] (++)) in Hdata. }
    apply until_done_full; [done|..]; rewrite Hdata0, Hdata'; [done|]. by rewrite Hmax0, Hmax'. }
  destruct (more_to_read 65536 b st) as (Hto & Hfits & Hpos); [done|lia|].
  destruct (Z.eqb_spec (bytes_to_read 65536 b) 0) as [Hzero|_]; [lia|]. rewrite andb_false_r.
  destruct (read_round (bytes_to_read 65536 b) b st) as
    (buf & b1 & bytes & ec & b2 & b' & st' & -> & Hread & Hcommit & Hmoved & _ & Hcases); [done..|].
  cbn [run_until_op until_buffers]. rewrite Hread.
  unfold until_call. cbn [Nat.eqb until_buffers search_position_].
  rewrite Hcommit. cbn [mbind result_bind].
  destruct Hcases as [(Hzero & _)|[(_ & Hne & ->)|(_ & -> & -> & Hend)]]; [lia| |].
  - rewrite bool_decide_eq_false_2 by (by intros [? ?]).
    rewrite (proj2 (Nat.eqb_neq (length bytes) 0)) by (by destruct bytes). cbn [orb].
    destruct (Hnext bytes b' st' Hmoved) as [Hp' Hskip']. pose proof (moved_shorter _ _ _ _ _ Hmoved Hne).
    destruct (IH 0%nat p' b' st') as (b'' & st'' & r & -> & Hdone); [apply Hmoved|done|done|by left|lia|].
    do 3 eexists. split; [done|]. by apply (until_done_moved _ bytes b st b' st').
  - rewrite bool_decide_eq_true_2 by eauto. cbn [orb]. destruct fuel as [|fuel]; [lia|].
    destruct (Hnext [] b' st' Hmoved) as [Hp' _].
    exists b', st', (0%nat, Some (StreamError Eof)). split.
    + cbn [run_until_op until_finish]. unfold until_finish. cbn [search_position_ until_buffers].
      rewrite (proj2 (Z.eqb_neq _ _)) by (apply (small_position b' st'); [apply Hmoved|done]).
      by rewrite bool_decide_eq_true_2 by eauto.
    + apply until_done_end; [done|done|done|lia].
Qed.

End read_until.

(** The versions of the code. *)
Section versions.
Context {B : Type} `{!DynamicBuffer B} {St : Type} `{!SyncReadStream St}.

Definition read_until_char (delim : Z) (fuel : nat) (b : B) (st : St) :=
  read_until (look_char delim) fuel b st.
Definition read_until_string (delim : list Z) (fuel : nat) (b : B) (st : St) :=
  read_until (look_string delim) fuel b st.
Definition read_until_match (match_condition : MatchCondition) (fuel : nat) (b : B) (st : St) :=
  read_until (look_match match_condition) fuel b st.

(** class [read_until_delim_op], class [read_until_delim_string_op] and class
    [read_until_match_op] *)
Definition read_until_delim_op (delim : Z) := until_call (B := B) (look_char delim).
Definition read_until_delim_string_op (delim : list Z) := until_call (B := B) (look_string delim).
Definition read_until_match_op (match_condition : MatchCondition) :=
  until_call (B := B) (look_match match_condition).

End versions.

(** ** Reading into a dynamic buffer *)

Section read_dynamic.
Context {B : Type} `{!DynamicBuffer B} {St : Type} `{!SyncReadStream St}.
Context (completion_condition : CompletionCondition).

Local Open Scope Z_scope.

(** What the condition still allows to read. *)
Definition bytes_available (ec : option ErrorCode) (total_transferred : nat) (b : B) : Z :=
  let max_size := adapt_size_result (completion_condition (bool_decide (is_Some ec)) total_transferred) in
  bytes_to_read (Z.of_nat max_size) b.

Fixpoint read_dynamic_loop (fuel : nat) (ec : option ErrorCode) (total_transferred : nat) (available : Z)
    (b : B) (st : St) : B * St * result (nat * option ErrorCode) :=
  match fuel with
  | O => (b, st, Err OutOfFuel)
  | S fuel =>
      if available =? 0 then (b, st, Ok (total_transferred, ec))
      else
        match db_prepare available b with
        | (b, Err f) => (b, st, Err f)
        | (b, Ok buf) =>
            let '(n, ec, b, st) := read_prepared buf b st in
            match db_commit (Z.of_nat n) b with
            | Err f => (b, st, Err f)
            | Ok b =>
                let total_transferred := (total_transferred + n)%nat in
                read_dynamic_loop fuel ec total_transferred (bytes_available ec total_transferred b) b st
            end
        end
  end.

Definition read_dynamic (fuel : nat) (b : B) (st : St) : B * St * result (nat * option ErrorCode) :=
  read_dynamic_loop fuel None 0 (bytes_available None 0 b) b st.

(** class [read_dynbuf_op] *)
Record read_dynbuf_op := mkDynbufOp { dynbuf_buffers : B; total_transferred_ : nat }.

Inductive DynbufStep :=
| DynbufSuspend (buf : buffer) (op : read_dynbuf_op)
| DynbufComplete (ec : option ErrorCode) (total_transferred : nat) (b : B).

Definition dynbuf_available (ec : option ErrorCode) (op : read_dynbuf_op) : Z :=
  let max_size := check_for_completion completion_condition (bool_decide (is_Some ec)) (total_transferred_ op) in
  bytes_to_read (Z.of_nat max_size) (dynbuf_buffers op).

Definition dynbuf_suspend (available : Z) (op : read_dynbuf_op) : result DynbufStep :=
  match db_prepare available (dynbuf_buffers op) with
  | (_, Err f) => Err f
  | (b, Ok buf) => Ok (DynbufSuspend buf (mkDynbufOp b (total_transferred_ op)))
  end.

Definition dynbuf_call (ec : option ErrorCode) (bytes_transferred start : nat) (op : read_dynbuf_op)
    : result DynbufStep :=
  if (start =? 1)%nat then dynbuf_suspend (dynbuf_available ec op) op
  else
    let total := (total_transferred_ op + bytes_transferred)%nat in
    b ← db_commit (Z.of_nat bytes_transferred) (dynbuf_buffers op);
    let op := mkDynbufOp b total in
    let available := dynbuf_available ec op in
    if (bool_decide (ec = None) && (bytes_transferred =? 0)%nat) || (available =? 0)
    then Ok (DynbufComplete ec total b)
    else dynbuf_suspend available op.

Fixpoint run_dynbuf_op (fuel : nat) (step : result DynbufStep) (st : St)
    : result (B * St * (nat * option ErrorCode)) :=
  match fuel with
  | O => Err OutOfFuel
  | S fuel =>
      match step with
      | Err f => Err f
      | Ok (DynbufComplete ec n b) => Ok (b, st, (n, ec))
      | Ok (DynbufSuspend buf op) =>
          let '(n, ec, b, st) := read_prepared buf (dynbuf_buffers op) st in
          run_dynbuf_op fuel (dynbuf_call ec n 0 (mkDynbufOp b (total_transferred_ op))) st
      end
  end.

Definition async_read_dynamic (fuel : nat) (b : B) (st : St) : result (B * St * (nat * option ErrorCode)) :=
  run_dynbuf_op fuel (dynbuf_call None 0 1 (mkDynbufOp b 0)) st.

(** *** What is read *)

(** The condition is met at [goal] bytes, or never before the end. *)
Definition within (goal : option nat) (n : nat) : Prop := from_option (fun g => n < g)%nat True goal.

#[export] Instance within_dec goal n : Decision (within goal n).
Proof. unfold within. destruct goal; cbn; apply _. Defined.

Record stops_at (goal : option nat) : Prop := {
  stops_error n : completion_condition true n = 0%nat;
  stops_goal n : ~ within goal n -> completion_condition false n = 0%nat;
  stops_before n : within goal n ->
    (0 < completion_condition false n)%nat /\ Z.of_nat (completion_condition false n) <= 65536 /\
    from_option (fun g => n + completion_condition false n <= g)%nat True goal;
}.

Definition wanted (goal : option nat) (total : nat) (b : B) : Z :=
  let room := db_max_size b - Z.of_nat (length (db_data b)) in
  from_option (fun g => Z.min (Z.of_nat g - Z.of_nat total) room) room goal.

Context `{!DynamicBufferOk B} `{!SyncReadStreamOk St}.

Record read_done (goal : option nat) (total : nat) (b : B) (st : St)
    (b' : B) (st' : St) (r : nat * option ErrorCode) : Prop := {
  read_ok : db_ok b';
  read_max : db_max_size b' = db_max_size b;
  read_input : db_data b' ++ unread st' = db_data b ++ unread st;
  read_count : Z.of_nat r.1 = Z.of_nat total + Z.min (wanted goal total b) (Z.of_nat (length (unread st)));
  read_length : Z.of_nat (length (db_data b'))
    = Z.of_nat (length (db_data b)) + Z.min (wanted goal total b) (Z.of_nat (length (unread st)));
  read_error : r.2 = if wanted goal total b <=? Z.of_nat (length (unread st)) then None else Some Eof;
}.

Context (goal : option nat) (Hstops : stops_at goal).

(** The numbers of a round, for the two ways in which it can go on. *)
Lemma available_spec total b st :
  ready b st -> from_option (fun g => total <= g)%nat True goal ->
  0 <= bytes_available None total b <= 65536 /\ bytes_available None total b <= wanted goal total b /\
  (0 < wanted goal total b -> 0 < bytes_available None total b) /\ 0 <= wanted goal total b.
Proof.
  intros Hready Htotal. unfold bytes_available. rewrite bool_decide_eq_false_2 by (by intros [? ?]).
  unfold adapt_size_result. pose proof Hready as [Hok Hsize Hlimit].
  destruct Hstops as [Herr Hgoal Hbefore]. destruct (decide (within goal total)) as [Hin|Hout].
  - destruct (Hbefore total Hin) as (Hpos & Hmost & Hto).
    destruct (more_to_read (Z.of_nat (completion_condition false total)) b st) as (H1 & H2 & H3); [done|lia|].
    rewrite (bytes_to_read_spec _ b st) in * by (done || lia).
    unfold wanted, within in *. destruct goal as [g|]; cbn [from_option] in *; lia.
  - rewrite Hgoal by done. rewrite (bytes_to_read_spec _ b st) by (done || lia).
    unfold wanted, within in *. destruct goal as [g|]; cbn [from_option] in *; [|tauto]. lia.
Qed.

Lemma read_done_now total b st b' st' :
  ready b st -> wanted goal total b = 0 -> b' = b /\ st' = st \/ moved [] b st b' st' ->
  read_done goal total b st b' st' (total, None).
Proof.
  intros [Hok Hsize Hlimit] Hzero Hend.
  assert (db_ok b' /\ db_max_size b' = db_max_size b /\ db_data b' = db_data b /\ unread st' = unread st)
    as (Hok' & Hmax & Hdata & Hunread).
  { destruct Hend as [[-> ->]|[[Hok' _ _] Hdata Hmax Hunread]]; [done|].
    by rewrite (right_id_L [] (++)) in Hdata. }
  split; [done|done|by rewrite Hdata, Hunread|..]; rewrite Hzero; cbn [fst snd]; [lia|rewrite Hdata; lia|].
  by rewrite (proj2 (Z.leb_le _ _)) by lia.
Qed.

Lemma read_done_end total b st b' st' :
  moved [] b st b' st' -> unread st = [] -> 0 < wanted goal total b ->
  read_done goal total b st b' st' (total, Some Eof).
Proof.
  intros [[Hok _ _] Hdata Hmax Hunread] Hend Hpos. rewrite (right_id_L [] (++)) in Hdata.
  split; [done|done|by rewrite Hdata, Hunread|..]; rewrite Hend; cbn [fst snd length]; [lia|rewrite Hdata; lia|].
  by rewrite (proj2 (Z.leb_gt _ _)) by lia.
Qed.

Lemma read_done_moved total bytes b st b1 st1 b' st' r :
  moved bytes b st b1 st1 -> Z.of_nat (length bytes) <= wanted goal total b ->
  read_done goal (total + length bytes) b1 st1 b' st' r -> read_done goal total b st b' st' r.
Proof.
  intros [Hready Hdata Hmax Hunread] Hlen [Hok' Hmax' Hinput Hcount Hlength Herror].
  assert (wanted goal (total + length bytes) b1 = wanted goal total b - Z.of_nat (length bytes)) as Hwanted.
  { unfold wanted. rewrite Hmax, Hdata, length_app. destruct goal; cbn [from_option]; lia. }
  apply (f_equal length) in Hunread as Hlens. rewrite length_app in Hlens.
  rewrite Hwanted in *. rewrite Hdata, ?length_app in Hlength.
  split; [done|by rewrite Hmax'| |lia|lia|].
  - by rewrite Hinput, Hdata, Hunread, (assoc_L (++)).
  - rewrite Herror. destruct (Z.leb_spec (wanted goal total b - Z.of_nat (length bytes)) (Z.of_nat (length (unread st1)))),
      (Z.leb_spec (wanted goal total b) (Z.of_nat (length (unread st)))); (done || lia).
Qed.

(** One round of reading [n] bytes at most. *)
Lemma round_total total bytes b st b' st' :
  from_option (fun g => total <= g)%nat True goal -> moved bytes b st b' st' ->
  Z.of_nat (length bytes) <= wanted goal total b ->
  from_option (fun g => total + length bytes <= g)%nat True goal.
Proof. intros Htotal _ Hlen. unfold wanted in Hlen. destruct goal; cbn [from_option] in *; [lia|done]. Qed.

Lemma error_stops total b st :
  ready b st -> bytes_available (Some Eof) total b = 0.
Proof.
  intros Hready. pose proof Hready as [Hok Hsize Hlimit]. unfold bytes_available.
  rewrite bool_decide_eq_true_2 by eauto. destruct Hstops as [-> _ _]. unfold adapt_size_result.
  rewrite (bytes_to_read_spec _ b st) by (done || lia). lia.
Qed.

Lemma read_dynamic_loop_done fuel total b st :
  ready b st -> from_option (fun g => total <= g)%nat True goal ->
  (length (unread st) + 1 < fuel)%nat ->
  exists b' st' r,
    read_dynamic_loop fuel None total (bytes_available None total b) b st = (b', st', Ok r) /\
    read_done goal total b st b' st' r.
Proof.
  revert total b st. induction fuel as [|fuel IH]; intros total b st Hready Htotal Hfuel; [lia|].
  pose proof (available_spec total b st Hready Htotal) as (Hto & Hwanted & Hpos & Hnonneg).
  cbn [read_dynamic_loop]. destruct (Z.eqb_spec (bytes_available None total b) 0) as [Hzero|Hmore].
  { do 3 eexists. split; [done|]. apply read_done_now; [done|lia|by left]. }
  pose proof Hready as [Hok Hsize Hlimit].
  assert (Z.of_nat (length (db_data b)) + bytes_available None total b <= db_max_size b) as Hfits.
  { unfold wanted in Hwanted. destruct goal; cbn [from_option] in *; lia. }
  destruct (read_round (bytes_available None total b) b st) as
    (buf & b1 & bytes & ec & b2 & b' & st' & -> & -> & -> & Hmoved & Hlen & Hcases); [done|lia|done|].
  assert (Z.of_nat (length bytes) <= wanted goal total b) as Hbytes by lia.
  destruct Hcases as [(Hzero & _)|[(_ & Hne & ->)|(_ & -> & -> & Hend)]]; [lia| |].
  - destruct (IH (total + length bytes)%nat b' st') as (b'' & st'' & r & -> & Hdone).
    + apply Hmoved.
    + by apply (round_total total bytes b st b' st').
    + pose proof (moved_shorter _ _ _ _ _ Hmoved Hne). lia.
    + do 3 eexists. split; [done|]. by apply (read_done_moved total bytes b st b' st').
  - destruct fuel as [|fuel]; [lia|]. cbn [read_dynamic_loop length].
    rewrite (error_stops _ b' st') by apply Hmoved. cbn [Z.eqb]. rewrite Nat.add_0_r.
    do 3 eexists. split; [done|]. apply read_done_end; [done|done|lia].
Qed.

Lemma dynbuf_available_alt ec total b :
  dynbuf_available ec (mkDynbufOp b total) = bytes_available ec total b.
Proof. done. Qed.

Lemma run_dynbuf_op_done fuel total b st :
  ready b st -> from_option (fun g => total <= g)%nat True goal ->
  (length (unread st) + 1 < fuel)%nat ->
  exists b' st' r,
    run_dynbuf_op fuel (dynbuf_suspend (bytes_available None total b) (mkDynbufOp b total)) st
      = Ok (b', st', r) /\
    read_done goal total b st b' st' r.
Proof.
  revert total b st. induction fuel as [|fuel IH]; intros total b st Hready Htotal Hfuel; [lia|].
  pose proof (available_spec total b st Hready Htotal) as (Hto & Hwanted & Hpos & Hnonneg).
  pose proof Hready as [Hok Hsize Hlimit].
  assert (Z.of_nat (length (db_data b)) + bytes_available None total b <= db_max_size b) as Hfits.
  { unfold wanted in Hwanted. destruct goal; cbn [from_option] in *; lia. }
  destruct (read_round (bytes_available None total b) b st) as
    (buf & b1 & bytes & ec & b2 & b' & st' & Hprepare & Hread & Hcommit & Hmoved & Hlen & Hcases); [done|lia|done|].
  assert (Z.of_nat (length bytes) <= wanted goal total b) as Hbytes by lia.
  unfold dynbuf_suspend. cbn [dynbuf_buffers total_transferred_]. rewrite Hprepare.
  cbn [run_dynbuf_op dynbuf_buffers total_transferred_]. rewrite Hread.
  unfold dynbuf_call. cbn [Nat.eqb dynbuf_buffers total_transferred_]. rewrite Hcommit.
  cbn [mbind result_bind]. rewrite dynbuf_available_alt.
  destruct fuel as [|fuel]; [lia|].
  destruct Hcases as [(Hzero & -> & ->)|[(_ & Hne & ->)|(Hsome & -> & -> & Hend)]].
  - cbn [length Nat.eqb]. rewrite bool_decide_eq_true_2 by done. cbn [andb orb run_dynbuf_op].
    rewrite Nat.add_0_r. do 3 eexists. split; [done|]. apply read_done_now; [done|lia|by right].
  - rewrite (proj2 (Nat.eqb_neq (length bytes) 0)) by (by destruct bytes). rewrite andb_false_r. cbn [orb].
    assert (from_option (fun g => total + length bytes <= g)%nat True goal) as Htotal'.
    { by apply (round_total total bytes b st b' st'). }
    destruct (Z.eqb_spec (bytes_available None (total + length bytes) b') 0) as [Hzero|Hmore].
    + cbn [run_dynbuf_op]. do 3 eexists. split; [done|].
      apply (read_done_moved total bytes b st b' st'); [done..|].
      pose proof (available_spec _ b' st' (moved_ready _ _ _ _ _ Hmoved) Htotal') as (_ & _ & Hpos' & Hnonneg').
      apply read_done_now; [apply Hmoved|lia|by left].
    + pose proof (moved_shorter _ _ _ _ _ Hmoved Hne).
      destruct (IH (total + length bytes)%nat b' st') as (b'' & st'' & r & -> & Hdone); [apply Hmoved|done|lia|].
      do 3 eexists. split; [done|]. by apply (read_done_moved total bytes b st b' st').
  - rewrite (error_stops _ b' st') by apply Hmoved. rewrite orb_true_r. cbn [run_dynbuf_op length].
    rewrite Nat.add_0_r. do 3 eexists. split; [done|]. apply read_done_end; [done|done|lia].
Qed.

End read_dynamic.

(** The conditions of completion_condition.hpp. *)
Lemma transfer_all_stops : stops_at transfer_all None.
Proof. split; cbn; intros n; [done|tauto|]. intros _. unfold default_max_transfer_size. lia. Qed.

Lemma transfer_exactly_stops size : stops_at (transfer_exactly size) (Some size).
Proof.
  unfold transfer_exactly. split; cbn [within from_option orb]; intros n; [done|..].
  - intros Hn. by rewrite (proj2 (Nat.leb_le _ _)) by lia.
  - intros Hn. rewrite (proj2 (Nat.leb_gt _ _)) by lia.
    pose proof (eq_refl : default_max_transfer_size = Z.to_nat 65536) as Hmax.
    destruct (Nat.ltb_spec (size - n) default_max_transfer_size); lia.
Qed.

(** ** Properties *)

Section properties.
Context {B : Type} `{DynamicBufferOk B} {St : Type} `{SyncReadStreamOk St}.

(** C40. Searching round by round is one search.  [read_until] and its
    asynchronous operation end, for every dynamic buffer, every search that is
    sound and however the stream cuts its bytes into pieces, with what one search
    through the buffer's data and the whole stream finds within [max_size]
    bytes: the end of the first match, which is then in the buffer; else
    [not_found] when the buffer is full, or the end of the stream.  No byte is
    lost: what is not in the buffer is still in the stream. *)
Theorem read_until_is_one_search look `{!SearchOk look} fuel b (st : St) :
  ready b st -> (length (unread st) + 1 < fuel)%nat ->
  (exists b' st' r, read_until look fuel b st = (b', st', Ok r) /\
    until_done (first_match look) b st b' st' r) /\
  (exists b' st' r, async_read_until look fuel b st = Ok (b', st', r) /\
    until_done (first_match look) b st b' st' r).
Proof.
  intros Hready Hfuel. split.
  - apply (read_until_loop_done look fuel 0); [done|simpl; lia|apply skippable_start|lia].
  - apply (run_search_done look fuel 1 0); [done|simpl; lia|apply skippable_start|by right|done].
Qed.

(** Reading into a dynamic buffer.  [read] and [async_read] append the next
    bytes of the stream until the condition is met, [max_size] is reached or the
    stream ends, which is the only error. *)
Theorem read_dynamic_appends completion_condition goal fuel b (st : St) :
  stops_at completion_condition goal -> ready b st -> (length (unread st) + 1 < fuel)%nat ->
  (exists b' st' r, read_dynamic completion_condition fuel b st = (b', st', Ok r) /\
    read_done goal 0 b st b' st' r) /\
  (exists b' st' r, async_read_dynamic completion_condition fuel b st = Ok (b', st', r) /\
    read_done goal 0 b st b' st' r).
Proof.
  intros Hstops Hready Hfuel.
  assert (from_option (fun g => 0 <= g)%nat True goal) as Hzero by (destruct goal; cbn; [lia|done]).
  split; [by apply read_dynamic_loop_done|by apply run_dynbuf_op_done].
Qed.

End properties.

(** ** Examples *)

Definition text_buffer (bytes : list Z) (maximum_size : Z) : dynamic_string_buffer :=
  dynamic_string.construct (mkStorage bytes (Z.of_nat (length bytes))) maximum_size.

Lemma text_buffer_ready bytes maximum_size (st : list (list Z)) :
  (Z.of_nat (length bytes) <= maximum_size < 2 ^ 64)%Z ->
  (Z.of_nat (length (bytes ++ concat st)) < 2 ^ 32)%Z ->
  ready (text_buffer bytes maximum_size) st.
Proof.
  intros Hmax Hlen. rewrite length_app in Hlen.
  assert (db_data (text_buffer bytes maximum_size) = bytes) as Hdata.
  { cbn. unfold dynamic_string.data. cbn. by rewrite firstn_all. }
  split; rewrite ?Hdata, ?length_app; cbn; [|lia|lia].
  split; [split; cbn; lia|]. cbn. lia.
Qed.

(** A delimiter of two bytes that arrives in two pieces, after a false start. *)
Lemma read_until_is_one_search_witness :
  exists b' st', async_read_until (look_string [13; 10]%Z) 12 (text_buffer [65; 13]%Z 100)
      [[66; 13]; [13]; [10; 67]; [68]]%Z = Ok (b', st', (6%nat, None)) /\
    db_data b' ++ concat st' = [65; 13; 66; 13; 13; 10; 67; 68]%Z /\
    string_first_match [13; 10]%Z (db_data b') = Some 6.
Proof.
  destruct (read_until_is_one_search (look_string [13; 10]%Z) 12 (text_buffer [65; 13]%Z 100)
    [[66; 13]; [13]; [10; 67]; [68]]%Z) as [_ (b' & st' & r & Heq & [_ _ Hinput Hresult Hheld])].
  - apply text_buffer_ready; cbn; lia.
  - vm_compute. lia.
  - vm_compute in Hresult. subst r. exists b', st'. split; [exact Heq|]. split; [exact Hinput|].
    by apply Hheld.
Defined.

Lemma read_dynamic_appends_witness :
  exists b' st', read_dynamic transfer_all 12 (text_buffer [65]%Z 4) [[66; 13]; [13]; [10; 67]]%Z
      = (b', st', Ok (3%nat, None)) /\
    db_data b' ++ concat st' = [65; 66; 13; 13; 10; 67]%Z /\ length (db_data b') = 4%nat.
Proof.
  destruct (read_dynamic_appends transfer_all None 12 (text_buffer [65]%Z 4) [[66; 13]; [13]; [10; 67]]%Z)
    as [(b' & st' & [n ec] & Heq & [_ _ Hinput Hcount Hlength Herror]) _].
  - apply transfer_all_stops.
  - apply text_buffer_ready; cbn; lia.
  - vm_compute. lia.
  - assert (Z.min (wanted None 0 (text_buffer [65]%Z 4)) (Z.of_nat (length (unread [[66; 13]; [13]; [10; 67]]%Z))) = 3%Z)
      as Hwanted by reflexivity.
    rewrite Hwanted in *. cbn [fst snd] in *. vm_compute in Herror. subst ec. exists b', st'.
    assert (n = 3%nat) as -> by lia. split; [exact Heq|]. split; [exact Hinput|].
    change (length (db_data (text_buffer [65]%Z 4))) with 1%nat in Hlength. lia.
Defined.

(** A buffer that is longer than [max_size] and holds the delimiter: the
    synchronous version finds it, the asynchronous one prepares a buffer of no
    bytes before it completes and throws. *)
Example oversized_buffer_with_match :
  (read_until (look_char 10) 5 (text_buffer [65; 10; 66]%Z 2) [[67]]%Z).2 = Ok (2%nat, None) /\
  async_read_until (look_char 10) 5 (text_buffer [65; 10; 66]%Z 2) [[67]]%Z
    = Err (LengthError "dynamic_string_buffer too long").
Proof. by split. Qed.

(** Two lines through a stream buffer, which is consumed between them. *)
Definition two_lines : result (nat * list Z * nat * list Z) :=
  b ← streambuf.construct (mkStorage [] 0) 100;
  let '(b, st, r) := read_until (look_char 10) 5 b [[65; 10; 66]; [67; 10]]%Z in
  '(n, _) ← r;
  let first_line := take n (streambuf.data b) in
  b ← streambuf.consume (Z.of_nat n) b;
  let '(b, st, r) := read_until (look_char 10) 5 b st in
  '(m, _) ← r;
  Ok (n, first_line, m, streambuf.data b).

Example lines_of_a_stream : two_lines = Ok (2%nat, [65; 10]%Z, 3%nat, [66; 67; 10]%Z).
Proof. reflexivity. Qed.
