(* ===== verification/AsioWrite.v ===== *)
(** * asio: the composed write operations

    The counterpart of AsioRead.v: [write] and [async_write] hand the bytes of a
    buffer sequence to a stream until all are written or an error occurs.  That
    a failed write stops before the last byte is what ConnectionPool.v assumes
    of the network. *)
From S2P Require Import Prelude Utils NetworkUtil NodeCommon Node AsioBuffers AsioRead.

(** The bytes at the given addresses. *)
Definition load_bytes (addrs : list nat) (m : memory) : list Z :=
  (fun a => m !!! a) <$> addrs.

(** [write_some bytes st] writes a first part of [bytes] and says how much. *)
Class SyncWriteStream (St : Type) := {
  write_some : list Z -> St -> nat * option ErrorCode * St;
}.

(** Without an error something is written, with one nothing. *)
Class SyncWriteStreamOk (St : Type) `{SyncWriteStream St} := {
  written_bytes : St -> list Z;
  write_some_nil st : write_some [] st = (0, None, st);
  write_some_part bytes st : bytes <> [] ->
    exists n ec st', write_some bytes st = (n, ec, st') /\ n <= length bytes /\
      written_bytes st' = written_bytes st ++ take n bytes /\
      (ec = None -> 0 < n) /\ (ec <> None -> n = 0);
}.

Section write.
Context {C : Type} `{!Consuming C} {St : Type} `{!SyncWriteStream St}.
Context (m : memory).

Definition write_from (bufs : list buffer) (st : St) : nat * option ErrorCode * St :=
  write_some (load_bytes (flat bufs) m) st.

(** The loop of [detail::write_buffer_sequence]. *)
Fixpoint write_loop (fuel : nat) (tmp : C) (completion_condition : CompletionCondition)
    (ec : option ErrorCode) (st : St) : result (nat * option ErrorCode * St) :=
  match fuel with
  | O => Err OutOfFuel
  | Datatypes.S fuel =>
      if cb_empty tmp then Ok (cb_consumed tmp, ec, st)
      else
        let max_size :=
          adapt_size_result (completion_condition (bool_decide (is_Some ec)) (cb_consumed tmp)) in
        if (max_size =? 0)%nat then Ok (cb_consumed tmp, ec, st)
        else
          let '(n, ec, st) := write_from (cb_prepare max_size tmp) st in
          write_loop fuel (cb_consume n tmp) completion_condition ec st
  end.

Definition write_buffer_sequence (fuel : nat) (tmp : C) (completion_condition : CompletionCondition)
    (st : St) : result (nat * option ErrorCode * St) :=
  write_loop fuel tmp completion_condition None st.

Definition write_all (fuel : nat) (tmp : C) (st : St) : result (nat * option ErrorCode * St) :=
  write_buffer_sequence fuel tmp transfer_all st.

(** The overloads that throw. *)
Definition write_or_throw (fuel : nat) (tmp : C) (completion_condition : CompletionCondition)
    (st : St) : result (nat * St) :=
  '(bytes_transferred, ec, st) ← write_buffer_sequence fuel tmp completion_condition st;
  match ec with
  | Some _ => Err (SystemError "write")
  | None => Ok (bytes_transferred, st)
  end.

(** class [write_op] *)
Record write_op := mkWriteOp { write_buffers : C; write_start : nat }.

Inductive WriteStep :=
| WriteSuspend (bufs : list buffer) (op : write_op)
| WriteComplete (ec : option ErrorCode) (bytes_transferred : nat).

Definition write_op_call (completion_condition : CompletionCondition) (ec : option ErrorCode)
    (bytes_transferred start : nat) (op : write_op) : WriteStep :=
  let err := bool_decide (is_Some ec) in
  if (start =? 1)%nat then
    let max_size := check_for_completion completion_condition err (cb_consumed (write_buffers op)) in
    WriteSuspend (cb_prepare max_size (write_buffers op)) (mkWriteOp (write_buffers op) start)
  else
    let buffers := cb_consume bytes_transferred (write_buffers op) in
    if (negb err && (bytes_transferred =? 0)%nat) || cb_empty buffers
    then WriteComplete ec (cb_consumed buffers)
    else
      let max_size := check_for_completion completion_condition err (cb_consumed buffers) in
      if (0 <? max_size)%nat
      then WriteSuspend (cb_prepare max_size buffers) (mkWriteOp buffers start)
      else WriteComplete ec (cb_consumed buffers).

Fixpoint run_write_op (fuel : nat) (completion_condition : CompletionCondition) (step : WriteStep)
    (st : St) : result (nat * option ErrorCode * St) :=
  match fuel with
  | O => Err OutOfFuel
  | Datatypes.S fuel =>
      match step with
      | WriteComplete ec n => Ok (n, ec, st)
      | WriteSuspend bufs op =>
          let '(n, ec, st) := write_from bufs st in
          run_write_op fuel completion_condition (write_op_call completion_condition ec n 0 op) st
      end
  end.

Definition start_write_buffer_sequence_op (completion_condition : CompletionCondition) (buffers : C)
    : WriteStep :=
  write_op_call completion_condition None 0 1 (mkWriteOp buffers 0).

Definition async_write_all (fuel : nat) (buffers : C) (st : St) : result (nat * option ErrorCode * St) :=
  run_write_op fuel transfer_all (start_write_buffer_sequence_op transfer_all buffers) st.

(** ** Facts *)

Context `{!ConsumingOk C} `{!SyncWriteStreamOk St}.

(** What a write leaves: a first part of the bytes is written, all of them
    exactly when there was no error. *)
Definition drained (c : C) (st : St) (r : nat * option ErrorCode * St) : Prop :=
  let '(k, ec, st') := r in
  exists n, k = cb_consumed c + n /\
    written_bytes st' = written_bytes st ++ take n (load_bytes (cb_remaining c) m) /\
    (ec = None -> n = length (cb_remaining c)) /\ (ec <> None -> n < length (cb_remaining c)).

Lemma length_load addrs : length (load_bytes addrs m) = length addrs.
Proof. apply length_fmap. Qed.

Lemma load_drop n addrs : load_bytes (drop n addrs) m = drop n (load_bytes addrs m).
Proof. apply fmap_drop. Qed.

Lemma drained_empty c st : cb_remaining c = [] -> drained c st (cb_consumed c, None, st).
Proof.
  intros Hrem. exists 0. rewrite Hrem. cbn. rewrite (right_id_L [] (++)). split_and!; [lia|done..].
Qed.

Lemma drained_piece c st n st' r :
  cb_ok c -> n <= length (cb_remaining c) ->
  written_bytes st' = written_bytes st ++ take n (load_bytes (cb_remaining c) m) ->
  drained (cb_consume n c) st' r -> drained c st r.
Proof.
  intros Hok Hn Hst'. destruct r as [[k ec] st'']. intros (n' & -> & Hst & Hall & Hpart).
  rewrite cb_consume_remaining in *. rewrite length_drop in *. rewrite load_drop in *.
  exists (n + n'). rewrite cb_consume_consumed. split_and!.
  - lia.
  - by rewrite Hst, Hst', <- (assoc_L (++)), take_take_drop.
  - intros Hec. specialize (Hall Hec). lia.
  - intros Hec. specialize (Hpart Hec). lia.
Qed.

Lemma drained_error c st ec st' :
  cb_remaining c <> [] -> written_bytes st' = written_bytes st -> ec <> None ->
  drained c st (cb_consumed c, ec, st').
Proof.
  intros Hrem Hst Hec. exists 0. rewrite take_0, (right_id_L [] (++)).
  split_and!; [lia|done|done|]. intros _. by apply length_pos.
Qed.

Lemma write_from_part c max_size st :
  cb_ok c -> 0 < max_size -> cb_remaining c <> [] ->
  exists n ec st', write_from (cb_prepare max_size c) st = (n, ec, st') /\
    n <= length (cb_remaining c) /\
    written_bytes st' = written_bytes st ++ take n (load_bytes (cb_remaining c) m) /\
    (ec = None -> 0 < n) /\ (ec <> None -> n = 0).
Proof.
  intros Hok Hmax Hrem. destruct (cb_prepare_prefix max_size c Hok) as [[rest Hpre] _].
  pose proof (cb_prepare_progress max_size c Hok Hmax Hrem) as Hne.
  set (addrs := flat (cb_prepare max_size c)) in *.
  destruct (write_some_part (load_bytes addrs m) st) as (n & ec & st' & Hw & Hn & Hst & Hok' & Herr).
  { intros Hnil%(f_equal length). rewrite length_load in Hnil. by apply nil_length_inv in Hnil. }
  exists n, ec, st'. rewrite length_load in Hn. rewrite Hpre, length_app. unfold write_from. fold addrs.
  split_and!; [done|lia| |done|done].
  rewrite Hst. f_equal. unfold load_bytes. rewrite fmap_app, take_app_le; [done|].
  by rewrite length_fmap.
Qed.

Lemma write_loop_drains fuel c st :
  cb_ok c -> length (cb_remaining c) + 1 < fuel ->
  exists r, write_loop fuel c transfer_all None st = Ok r /\ drained c st r.
Proof.
  revert c st. induction fuel as [|fuel IH]; intros c st Hok Hfuel; [lia|]. cbn [write_loop].
  destruct (cb_empty c) eqn:Hempty.
  { eexists. split; [done|]. by apply drained_empty, cb_empty_spec. }
  assert (cb_remaining c <> []) as Hrem.
  { intros Hnil%cb_empty_spec; [|done]. congruence. }
  pose proof (transfer_all_goes_on (cb_consumed c)) as Hmax. unfold adapt_size_result.
  rewrite bool_decide_eq_false_2 by (by intros [? ?]). rewrite (proj2 (Nat.eqb_neq _ _)) by lia.
  destruct (write_from_part c _ st Hok Hmax Hrem) as (n & ec & st' & -> & Hn & Hst & Hgo & Herr).
  destruct ec as [ec|].
  - rewrite Herr in * by done. exists (cb_consumed c, Some ec, st'). split.
    + destruct fuel as [|fuel]; [lia|]. cbn [write_loop]. rewrite bool_decide_eq_true_2 by eauto.
      cbn [transfer_all Nat.eqb]. rewrite cb_consume_consumed, Nat.add_0_r.
      by destruct (cb_empty (cb_consume 0 c)).
    + apply drained_error; [done| |done]. by rewrite Hst, take_0, (right_id_L [] (++)).
  - specialize (Hgo eq_refl). destruct (IH (cb_consume n c) st') as (r & -> & Hr).
    { by apply cb_consume_ok. }
    { rewrite cb_consume_remaining, length_drop. lia. }
    exists r. split; [done|]. by apply (drained_piece c st n st').
Qed.

Lemma run_write_op_drains fuel c st start max_size :
  cb_ok c -> length (cb_remaining c) + 1 < fuel -> cb_remaining c <> [] -> 0 < max_size ->
  exists r, run_write_op fuel transfer_all
      (WriteSuspend (cb_prepare max_size c) (mkWriteOp c start)) st = Ok r /\ drained c st r.
Proof.
  revert c st start max_size.
  induction fuel as [|fuel IH]; intros c st start max_size Hok Hfuel Hrem Hmax; [lia|].
  cbn [run_write_op].
  destruct (write_from_part c _ st Hok Hmax Hrem) as (n & ec & st' & -> & Hn & Hst & Hgo & Herr).
  unfold write_op_call, check_for_completion, adapt_size_result. cbn [write_buffers Nat.eqb].
  destruct ec as [ec|].
  - rewrite Herr in * by done. exists (cb_consumed c, Some ec, st'). split.
    + destruct fuel as [|fuel]; [lia|]. rewrite bool_decide_eq_true_2 by eauto.
      cbn [negb andb orb transfer_all Nat.ltb Nat.leb]. rewrite cb_consume_consumed, Nat.add_0_r.
      by destruct (cb_empty (cb_consume 0 c)).
    + apply drained_error; [done| |done]. by rewrite Hst, take_0, (right_id_L [] (++)).
  - specialize (Hgo eq_refl). set (c' := cb_consume n c).
    assert (cb_ok c') as Hok' by (by apply cb_consume_ok).
    enough (exists r, run_write_op fuel transfer_all
        (write_op_call transfer_all None n 0 (mkWriteOp c start)) st' = Ok r /\ drained c' st' r)
      as (r & Hrun & Hr).
    { exists r. split; [exact Hrun|]. by apply (drained_piece c st n st'). }
    unfold write_op_call, check_for_completion, adapt_size_result. cbn [write_buffers Nat.eqb].
    rewrite bool_decide_eq_false_2 by (by intros [? ?]). fold c'. cbn [negb andb].
    rewrite (proj2 (Nat.eqb_neq _ _)) by lia. cbn [orb]. destruct (cb_empty c') eqn:Hempty.
    + destruct fuel as [|fuel]; [lia|]. eexists. split; [done|]. by apply drained_empty, cb_empty_spec.
    + pose proof (transfer_all_goes_on (cb_consumed c')) as Hmax'.
      rewrite (proj2 (Nat.ltb_lt _ _)) by done. apply IH; [done| | |done].
      * unfold c'. rewrite cb_consume_remaining, length_drop. lia.
      * intros Hnil%cb_empty_spec; [|done]. congruence.
Qed.

(** ** Properties *)

(** Writing drains the buffers.  [write] and [async_write] end, for every
    kind of buffer sequence and however much the stream takes at a time: the
    peer receives a first part of the bytes, in order, and all of them exactly
    when no error is reported. *)
Theorem writes_drain_buffers fuel c st :
  cb_ok c -> length (cb_remaining c) + 1 < fuel ->
  (exists r, write_all fuel c st = Ok r /\ drained c st r) /\
  (exists r, async_write_all fuel c st = Ok r /\ drained c st r).
Proof.
  intros Hok Hfuel. split; [by apply write_loop_drains|].
  unfold async_write_all, start_write_buffer_sequence_op, write_op_call. cbn [Nat.eqb write_buffers].
  rewrite bool_decide_eq_false_2 by (by intros [? ?]). unfold check_for_completion, adapt_size_result.
  pose proof (transfer_all_goes_on (cb_consumed c)) as Hmax.
  destruct (decide (cb_remaining c = [])) as [Hnil|Hrem]; [|by apply run_write_op_drains].
  exists (cb_consumed c, None, st). split; [|by apply drained_empty].
  destruct fuel as [|[|fuel]]; [lia..|]. cbn [run_write_op].
  destruct (cb_prepare_prefix (transfer_all false (cb_consumed c)) c Hok) as [Hpre _].
  rewrite Hnil in Hpre. apply prefix_nil_inv in Hpre. unfold write_from. rewrite Hpre.
  cbn [load_bytes fmap list_fmap]. rewrite write_some_nil.
  unfold write_op_call. cbn [Nat.eqb write_buffers]. rewrite bool_decide_eq_false_2 by (by intros [? ?]).
  cbn [negb andb orb run_write_op]. by rewrite cb_consume_consumed, Nat.add_0_r.
Qed.

End write.

(** ** Examples *)

(** A socket that takes [chunk] bytes at a time and fails after [budget]. *)
Record Socket := mkSocket { budget : nat; chunk : nat; received : list Z }.

#[export] Instance socket_stream : SyncWriteStream Socket := {|
  write_some bytes s :=
    match bytes with
    | [] => (0, None, s)
    | _ =>
        let n := (length bytes `min` S (chunk s)) `min` budget s in
        if (n =? 0)%nat then (0, Some OtherError, s)
        else (n, None, mkSocket (budget s - n) (chunk s) (received s ++ take n bytes))
    end;
|}.

#[export] Instance socket_stream_ok : SyncWriteStreamOk Socket.
Proof.
  refine {| written_bytes := received |}; [done|].
  intros [|x bytes] [b c r] Hne; [done|]. cbn [write_some socket_stream budget chunk received].
  set (n := _ `min` _). destruct (Nat.eqb_spec n 0) as [Hn|Hn].
  - exists 0, (Some OtherError), (mkSocket b c r). cbn [received].
    rewrite take_0, (right_id_L [] (++)). split_and!; [done|lia|done|done|done].
  - do 3 eexists. split; [reflexivity|]. cbn [received].
    split_and!; [unfold n; lia|done|lia|done].
Defined.

Lemma writes_drain_buffers_witness :
  exists k st', write_all [1%Z; 2%Z; 3%Z; 4%Z; 5%Z] 7 (new_consuming_pair (mkBuffer 3 2) (mkBuffer 0 2))
      (mkSocket 3 1 []) = Ok (k, Some OtherError, st') /\ received st' = [4%Z; 5%Z; 1%Z] /\ k = 3.
Proof.
  destruct (writes_drain_buffers [1%Z; 2%Z; 3%Z; 4%Z; 5%Z] 7
    (new_consuming_pair (mkBuffer 3 2) (mkBuffer 0 2)) (mkSocket 3 1 [])) as [(r & Hr & Hd) _].
  - exact I.
  - vm_compute. lia.
  - pose proof Hr as Hr'. vm_compute in Hr'. injection Hr' as <-.
    destruct Hd as (n & Hk & Hw & _). do 2 eexists. split; [exact Hr|]. split; reflexivity.
Defined.
