(* ===== verification/AsioConnect.v ===== *)
(** * asio: connecting to one of several end points

    A name may resolve to several end points.  [connect] tries them one after
    the other until one accepts; [async_connect] does the same in steps, once
    for a sequence with an index ([range_connect_op]) and once for iterators
    ([iterator_connect_op]).  An iterator is the list of the end points from its
    position on, [end] the empty list. *)
From S2P Require Import Prelude Utils NetworkUtil NodeCommon ConnectionPool.

Inductive ConnectError :=
| not_found
| operation_aborted
| SocketError (code : nat).

#[global] Instance ConnectError_eq_dec : EqDecision ConnectError.
Proof. solve_decision. Defined.

(** A [basic_socket]: whether it is open and the attempts made with it. *)
Record TcpSocket (E : Type) := mkTcpSocket { is_open : bool; attempts : list E }.
Arguments mkTcpSocket {E} _ _.
Arguments is_open {E} _.
Arguments attempts {E} _.

(** A condition of today decides about one end point; a legacy condition moves
    the iterator itself. *)
Inductive ConnectCondition (E : Type) :=
| EachCondition (accept : option ConnectError -> E -> bool)
| LegacyCondition (next : option ConnectError -> list E -> list E).
Arguments EachCondition {E} _.
Arguments LegacyCondition {E} _.

Section connect.
Context {E : Type}.
(** How the [k]-th attempt of a socket ends, and whether the user closes the
    socket while it goes on. *)
Context (outcome : nat -> E -> option ConnectError) (closed_meanwhile : nat -> bool).

Implicit Types (s : TcpSocket E) (ec : option ConnectError) (iter : list E).

(** [s.close (ec)] and [s.connect (endpoint, ec)], which opens the socket. *)
Definition sock_close s : option ConnectError * TcpSocket E := (None, mkTcpSocket false (attempts s)).

Definition sock_connect (e : E) s : option ConnectError * TcpSocket E :=
  let k := length (attempts s) in
  (outcome k e, mkTcpSocket (negb (closed_meanwhile k)) (attempts s ++ [e])).

Definition default_connect_condition : ConnectCondition E := EachCondition (fun _ _ => true).

(** The loop of [call_connect_condition] for a condition of today. *)
Fixpoint next_accepted (accept : option ConnectError -> E -> bool) ec iter : list E :=
  match iter with
  | [] => []
  | e :: rest => if accept ec e then iter else next_accepted accept ec rest
  end.

Definition call_connect_condition (c : ConnectCondition E) ec iter : list E :=
  match c with
  | EachCondition accept => next_accepted accept ec iter
  | LegacyCondition next => match iter with [] => [] | _ => next ec iter end
  end.

(** ** connect *)

Fixpoint connect_loop (fuel : nat) (c : ConnectCondition E) ec s iter
    : result (list E * option ConnectError * TcpSocket E) :=
  match fuel with
  | O => Err OutOfFuel
  | Datatypes.S fuel =>
      let fall_out ec := Ok ([], match ec with None => Some not_found | _ => ec end, s) in
      match iter with
      | [] => fall_out ec
      | _ =>
          match call_connect_condition c ec iter with
          | [] => fall_out ec
          | e :: rest =>
              let '(_, s) := sock_close s in
              let '(ec, s) := sock_connect e s in
              match ec with
              | None => Ok (e :: rest, None, s)
              | Some _ => connect_loop fuel c ec s rest
              end
          end
      end
  end.

(** The overload for two iterators, a condition and an error code. *)
Definition connect (c : ConnectCondition E) s begin : result (list E * option ConnectError * TcpSocket E) :=
  connect_loop (S (length begin)) c None s begin.

(** [deref_connect_result]: the default end point is [None]. *)
Definition deref_connect_result iter ec : option E :=
  match ec with Some _ => None | None => head iter end.

(** The overloads for a sequence of end points. *)
Definition connect_sequence (c : ConnectCondition E) s (endpoints : list E)
    : result (option E * option ConnectError * TcpSocket E) :=
  '(iter, ec, s) ← connect c s endpoints;
  Ok (deref_connect_result iter ec, ec, s).

Definition connect_or_throw (c : ConnectCondition E) s (endpoints : list E)
    : result (option E * TcpSocket E) :=
  '(e, ec, s) ← connect_sequence c s endpoints;
  match ec with
  | Some _ => Err (SystemError "connect")
  | None => Ok (e, s)
  end.

(** ** async_connect *)

(** [base_from_connect_condition::check_condition], a no-op for the default. *)
Definition check_condition (c : ConnectCondition E) ec iter : list E := call_connect_condition c ec iter.

(** What a call of the operation leads to: an [async_connect] of one end point, a
    call posted to the executor, or the handler. *)
Inductive ConnectStep (Op R : Type) :=
| Connecting (e : E) (op : Op) (s : TcpSocket E)
| Posted (ec : option ConnectError) (op : Op) (s : TcpSocket E)
| Finished (ec : option ConnectError) (r : R) (s : TcpSocket E).
Arguments Connecting {Op R} _ _ _.
Arguments Posted {Op R} _ _ _.
Arguments Finished {Op R} _ _ _.

(** [iterator_connect_op]: the member [iter_].  The top of its loop, and the
    part behind the label [default]. *)
Definition iterator_loop_top (c : ConnectCondition E) ec (start : nat) iter s
    : ConnectStep (list E) (list E) :=
  match check_condition c ec iter with
  | e :: rest => let '(_, s) := sock_close s in Connecting e (e :: rest) s
  | [] => if (start =? 0)%nat then Finished ec [] s else Posted (Some not_found) [] s
  end.

Definition iterator_connect_call (c : ConnectCondition E) ec (start : nat) iter s
    : ConnectStep (list E) (list E) :=
  if (start =? 1)%nat then iterator_loop_top c ec start iter s
  else
    match iter with
    | [] => Finished ec [] s
    | _ :: rest =>
        if negb (is_open s) then Finished (Some operation_aborted) iter s
        else
          match ec with
          | None => Finished None iter s
          | Some _ => iterator_loop_top c ec start rest s
          end
    end.

(** [range_connect_op]: the members [endpoints_] and [index_]. *)
Definition range_loop_top (c : ConnectCondition E) (endpoints : list E) ec (start : nat) iter s
    : ConnectStep nat (option E) :=
  let iter := check_condition c ec iter in
  let index := length endpoints - length iter in
  match iter with
  | e :: _ => let '(_, s) := sock_close s in Connecting e index s
  | [] => if (start =? 0)%nat then Finished ec None s else Posted (Some not_found) index s
  end.

Definition range_connect_call (c : ConnectCondition E) (endpoints : list E) ec (start index : nat) s
    : ConnectStep nat (option E) :=
  let iter := drop index endpoints in
  if (start =? 1)%nat then range_loop_top c endpoints ec start iter s
  else
    match iter with
    | [] => Finished ec None s
    | e :: rest =>
        if negb (is_open s) then Finished (Some operation_aborted) None s
        else
          match ec with
          | None => Finished None (Some e) s
          | Some _ => range_loop_top c endpoints ec start rest s
          end
    end.

(** The executor completes what the operation waits for. *)
Fixpoint run_connect {Op R} (fuel : nat) (call : option ConnectError -> Op -> TcpSocket E -> ConnectStep Op R)
    (step : ConnectStep Op R) : result (R * option ConnectError * TcpSocket E) :=
  match fuel with
  | O => Err OutOfFuel
  | Datatypes.S fuel =>
      match step with
      | Finished ec r s => Ok (r, ec, s)
      | Posted ec op s => run_connect fuel call (call ec op s)
      | Connecting e op s => let '(ec, s) := sock_connect e s in run_connect fuel call (call ec op s)
      end
  end.

Definition async_connect_iterator (c : ConnectCondition E) s begin
    : result (list E * option ConnectError * TcpSocket E) :=
  run_connect (S (S (length begin))) (fun ec iter s => iterator_connect_call c ec 0 iter s)
    (iterator_connect_call c None 1 begin s).

Definition async_connect_range (c : ConnectCondition E) s (endpoints : list E)
    : result (option E * option ConnectError * TcpSocket E) :=
  run_connect (S (S (length endpoints))) (fun ec index s => range_connect_call c endpoints ec 0 index s)
    (range_connect_call c endpoints None 1 0 s).

(** ** Facts *)

Lemma next_accepted_suffix accept ec iter :
  exists skipped, iter = skipped ++ next_accepted accept ec iter.
Proof.
  induction iter as [|e rest [skipped IH]]; [by exists []|]. simpl.
  destruct (accept ec e); [by exists []|]. exists (e :: skipped). simpl. by f_equal.
Qed.

Lemma next_accepted_length accept ec iter e rest :
  next_accepted accept ec iter = e :: rest -> length rest < length iter.
Proof.
  intros Heq. destruct (next_accepted_suffix accept ec iter) as [skipped Hs].
  rewrite Heq in Hs. rewrite Hs, length_app. simpl. lia.
Qed.

(** While nobody closes the socket, the iterator operation does what [connect]
    does: [ec] is the error of the last attempt. *)
Lemma iterator_run_agrees accept fuel err s iter e0 :
  (forall k, closed_meanwhile k = false) -> length iter < fuel ->
  is_open s = true ->
  run_connect fuel (fun ec iter s => iterator_connect_call (EachCondition accept) ec 0 iter s)
    (iterator_connect_call (EachCondition accept) (Some err) 0 (e0 :: iter) s)
  = connect_loop fuel (EachCondition accept) (Some err) s iter.
Proof.
  intros Hopen. revert err s iter e0.
  induction fuel as [|fuel IH]; intros err s iter e0 Hfuel Hs; [lia|].
  unfold iterator_connect_call at 2. cbn [Nat.eqb]. rewrite Hs. cbn [negb].
  unfold iterator_loop_top, check_condition. cbn [connect_loop call_connect_condition].
  destruct iter as [|e1 iter]; [done|].
  destruct (next_accepted accept (Some err) (e1 :: iter)) as [|e rest] eqn:Hnext; [done|].
  apply next_accepted_length in Hnext. cbn [sock_close run_connect sock_connect attempts fst snd].
  destruct (outcome _ e) as [err'|].
  - rewrite IH; [done|lia|]. cbn. by rewrite Hopen.
  - unfold iterator_connect_call. cbn [Nat.eqb is_open]. rewrite Hopen. cbn [negb].
    destruct fuel as [|fuel]; [simpl in Hfuel; lia|]. done.
Qed.

Lemma run_connecting {Op R} fuel (call : option ConnectError -> Op -> TcpSocket E -> ConnectStep Op R) e op s :
  run_connect (S fuel) call (Connecting e op s)
  = run_connect fuel call (call (sock_connect e s).1 op (sock_connect e s).2).
Proof. done. Qed.

Lemma connect_loop_more accept fuel fuel' ec s iter :
  length iter < fuel -> length iter < fuel' ->
  connect_loop fuel (EachCondition accept) ec s iter = connect_loop fuel' (EachCondition accept) ec s iter.
Proof.
  revert fuel' ec s iter. induction fuel as [|fuel IH]; intros fuel' ec s iter Hf Hf'; [lia|].
  destruct fuel' as [|fuel']; [lia|]. cbn [connect_loop call_connect_condition].
  destruct iter as [|e1 iter]; [done|].
  destruct (next_accepted accept ec (e1 :: iter)) as [|e rest] eqn:Hnext; [done|].
  apply next_accepted_length in Hnext. cbn [sock_close sock_connect attempts].
  destruct (outcome _ e); [|done]. apply IH; lia.
Qed.

Lemma iterator_agrees accept s begin :
  (forall k, closed_meanwhile k = false) ->
  async_connect_iterator (EachCondition accept) s begin = connect (EachCondition accept) s begin.
Proof.
  intros Hopen. unfold async_connect_iterator, connect, iterator_connect_call at 2.
  cbn [Nat.eqb]. unfold iterator_loop_top, check_condition. cbn [connect_loop call_connect_condition].
  destruct begin as [|e1 begin]; [done|].
  destruct (next_accepted accept None (e1 :: begin)) as [|e rest] eqn:Hnext; [done|].
  apply next_accepted_length in Hnext. cbn [sock_close sock_connect attempts fst snd].
  rewrite run_connecting. cbn [sock_connect attempts fst snd].
  destruct (outcome _ e) as [err|].
  - rewrite iterator_run_agrees; [|done|lia|by cbn; rewrite Hopen].
    apply connect_loop_more; lia.
  - unfold iterator_connect_call. cbn [Nat.eqb is_open]. by rewrite Hopen.
Qed.

(** The index of the range operation and the iterator point to the same place. *)
Inductive same_step (endpoints : list E) : ConnectStep nat (option E) -> ConnectStep (list E) (list E) -> Prop :=
| same_connecting e index iter s :
    drop index endpoints = iter ->
    same_step endpoints (Connecting e index s) (Connecting e iter s)
| same_posted ec index iter s :
    drop index endpoints = iter -> same_step endpoints (Posted ec index s) (Posted ec iter s)
| same_finished ec iter s :
    same_step endpoints (Finished ec (deref_connect_result iter ec) s) (Finished ec iter s).

Lemma suffix_drop (endpoints skipped iter : list E) :
  endpoints = skipped ++ iter -> drop (length endpoints - length iter) endpoints = iter.
Proof. intros ->. apply drop_app_length'. rewrite length_app. lia. Qed.

Lemma loop_top_same accept endpoints skipped ec start iter s :
  endpoints = skipped ++ iter ->
  same_step endpoints (range_loop_top (EachCondition accept) endpoints ec start iter s)
    (iterator_loop_top (EachCondition accept) ec start iter s).
Proof.
  intros Hend. unfold range_loop_top, iterator_loop_top, check_condition. cbn [call_connect_condition].
  destruct (next_accepted_suffix accept ec iter) as [skipped' Hs].
  rewrite Hs, (assoc_L (++)) in Hend. apply suffix_drop in Hend.
  destruct (next_accepted accept ec iter) as [|e rest].
  - destruct (start =? 0)%nat; [|by constructor].
    replace (@None E) with (deref_connect_result [] ec) at 1 by (by destruct ec). constructor.
  - cbn [sock_close]. by constructor.
Qed.

Lemma call_same accept endpoints ec start index s :
  same_step endpoints (range_connect_call (EachCondition accept) endpoints ec start index s)
    (iterator_connect_call (EachCondition accept) ec start (drop index endpoints) s).
Proof.
  unfold range_connect_call, iterator_connect_call.
  pose proof (take_drop index endpoints) as Hsplit.
  destruct (start =? 1)%nat; [by eapply loop_top_same|].
  destruct (drop index endpoints) as [|e rest].
  - replace (@None E) with (deref_connect_result [] ec) at 1 by (by destruct ec). constructor.
  - destruct (is_open s); cbn [negb].
    + destruct ec as [err|].
      * apply (loop_top_same accept endpoints (take index endpoints ++ [e])).
        by rewrite <- (assoc_L (++)).
      * apply (same_finished _ None (e :: rest)).
    + apply (same_finished _ (Some operation_aborted) (e :: rest)).
Qed.

Lemma run_same accept endpoints fuel step step' :
  same_step endpoints step step' ->
  run_connect fuel (fun ec index s => range_connect_call (EachCondition accept) endpoints ec 0 index s) step
  = ('(iter, ec, s) ← run_connect fuel
        (fun ec iter s => iterator_connect_call (EachCondition accept) ec 0 iter s) step';
     Ok (deref_connect_result iter ec, ec, s)).
Proof.
  revert step step'. induction fuel as [|fuel IH]; intros step step' Hsame; [done|].
  destruct Hsame as [e index iter s <-|ec index iter s <-|ec iter s]; cbn [run_connect]; [..|done].
  - destruct (sock_connect e s) as [ec s']. apply IH, call_same.
  - apply IH, call_same.
Qed.

Lemma range_agrees accept s endpoints :
  (forall k, closed_meanwhile k = false) ->
  async_connect_range (EachCondition accept) s endpoints = connect_sequence (EachCondition accept) s endpoints.
Proof.
  intros Hopen. unfold connect_sequence. rewrite <- iterator_agrees by done.
  unfold async_connect_range, async_connect_iterator.
  apply run_same. by apply (call_same accept endpoints None 1 0).
Qed.

(** Where the first attempt that succeeds stands. *)
Fixpoint first_success (k : nat) (l : list E) : option nat :=
  match l with
  | [] => None
  | e :: l => match outcome k e with None => Some 0 | Some _ => S <$> first_success (S k) l end
  end.

(** The error of the last attempt. *)
Fixpoint last_error (k : nat) (l : list E) (ec : option ConnectError) : option ConnectError :=
  match l with
  | [] => ec
  | e :: l => last_error (S k) l (outcome k e)
  end.

Definition tried s (l : list E) : TcpSocket E :=
  match l with
  | [] => s
  | _ => mkTcpSocket (negb (closed_meanwhile (length (attempts s) + length l - 1))) (attempts s ++ l)
  end.

Lemma tried_cons e l s : tried (sock_connect e (sock_close s).2).2 l = tried s (e :: l).
Proof.
  unfold tried. destruct l as [|e' l]; cbn [sock_connect sock_close snd attempts].
  - cbn [length]. do 3 f_equal. lia.
  - rewrite length_app, <- (assoc_L (++)). cbn [length app]. do 3 f_equal. lia.
Qed.

Lemma connect_loop_default fuel ec s iter :
  length iter < fuel ->
  connect_loop fuel default_connect_condition ec s iter =
  match first_success (length (attempts s)) iter with
  | Some j => Ok (drop j iter, None, tried s (take (S j) iter))
  | None =>
      Ok ([], match last_error (length (attempts s)) iter ec with None => Some not_found | err => err end,
          tried s iter)
  end.
Proof.
  revert ec s iter. induction fuel as [|fuel IH]; intros ec s iter Hfuel; [lia|].
  destruct iter as [|e iter]; [by destruct ec|]. cbn [length] in Hfuel.
  cbn [connect_loop default_connect_condition call_connect_condition next_accepted first_success last_error].
  cbn [sock_close sock_connect attempts]. set (k := length (attempts s)).
  destruct (outcome k e) as [err|] eqn:Hout.
  2: { cbn [drop take]. rewrite take_0. unfold tried. cbn [length]. fold k.
    by replace (k + 1 - 1) with k by lia. }
  set (s' := mkTcpSocket _ _). assert (s' = (sock_connect e (sock_close s).2).2) as Hs' by done.
  specialize (IH (Some err) s' iter ltac:(lia)). rewrite IH.
  assert (length (attempts s') = S k) as ->.
  { cbn. rewrite length_app. cbn [length]. fold k. lia. }
  rewrite !Hs', !tried_cons.
  destruct (first_success (S k) iter) as [j|]; cbn [fmap option_fmap option_map drop]; [|done].
  by rewrite tried_cons.
Qed.

(** ** Properties *)

(** Connecting picks the first end point that accepts.  With the default
    condition [connect] tries the end points of the sequence in order, returns
    the first for which the attempt succeeds and makes no attempt after it; when
    none does it reports the last error, and [not_found] for no end point. *)
Theorem connect_first_success s endpoints :
  connect default_connect_condition s endpoints =
  match first_success (length (attempts s)) endpoints with
  | Some j => Ok (drop j endpoints, None, tried s (take (S j) endpoints))
  | None =>
      Ok ([], match last_error (length (attempts s)) endpoints None with None => Some not_found | err => err end,
          tried s endpoints)
  end.
Proof. apply connect_loop_default. lia. Qed.

(** The asynchronous operations agree with [connect]: for every condition,
    while nobody closes the socket, [async_connect] on iterators or on a
    sequence calls its handler with what [connect] returns, after the same
    attempts. *)
Theorem async_connect_agrees accept s endpoints :
  (forall k, closed_meanwhile k = false) ->
  async_connect_iterator (EachCondition accept) s endpoints = connect (EachCondition accept) s endpoints /\
  async_connect_range (EachCondition accept) s endpoints = connect_sequence (EachCondition accept) s endpoints.
Proof. intros Hopen. split; [by apply iterator_agrees|by apply range_agrees]. Qed.

End connect.

(** ** The interface of ConnectionPool.v *)

(** [resolver.resolve] and [connect] as [create] uses them: the resolver's answer
    to the [k]-th dial, or the error it throws, and the outcomes of the attempts. *)
Definition asio_dial {E} (resolve : nat -> EndPoint -> option (list E))
    (outcome : nat -> nat -> E -> option ConnectError) (k : nat) (endpoint : EndPoint) : DialOutcome :=
  match resolve k endpoint with
  | None => ResolveThrows
  | Some results =>
      match connect_sequence (outcome k) (fun _ => false) default_connect_condition
              (mkTcpSocket false []) results with
      | Ok (_, None, _) => Connected
      | _ => ConnectFails
      end
  end.

Lemma asio_dial_connected {E} (resolve : nat -> EndPoint -> option (list E)) outcome k endpoint :
  asio_dial resolve outcome k endpoint = Connected <->
  exists results j, resolve k endpoint = Some results /\ first_success (outcome k) 0 results = Some j.
Proof.
  unfold asio_dial, connect_sequence, connect.
  destruct (resolve k endpoint) as [results|].
  2: { split; [done|]. by intros (? & ? & ? & _). }
  rewrite connect_loop_default by lia. cbn [attempts length].
  destruct (first_success (outcome k) 0 results) as [j|] eqn:Hj; cbn.
  - split; [|done]. intros _. by exists results, j.
  - split; [|intros (? & ? & [= <-] & ?); congruence].
    by destruct (last_error _ _ _ _).
Qed.

(** ** Examples *)

(** Three end points; the second accepts. *)
Definition second_accepts (k : nat) (e : nat) : option ConnectError :=
  if (e =? 2)%nat then None else Some (SocketError 111).

Lemma async_connect_agrees_witness :
  async_connect_range second_accepts (fun _ => false) (EachCondition (fun _ e => negb (e =? 1)%nat))
    (mkTcpSocket false []) [3; 1; 2; 4]
  = Ok (Some 2, None, mkTcpSocket true [3; 2]).
Proof.
  destruct (async_connect_agrees second_accepts (fun _ => false) (fun _ e => negb (e =? 1)%nat)
    (mkTcpSocket false []) [3; 1; 2; 4] (fun _ => eq_refl)) as [_ Heq].
  rewrite Heq. reflexivity.
Defined.
