(* ===== verification/AsioQueue.v ===== *)
(** * asio: the intrusive queue of operations

    [op_queue] links the operations through their own member [next_].  The heap
    maps the address of every live operation to that member; an access through
    any other address is undefined.  The queue is proved to behave like a list,
    and to leave alone the operations of every other queue. *)
From S2P Require Import Prelude.

(** The member [next_] of each operation. *)
Abbreviation op_heap := (gmap nat (option nat)).

Record op_queue := mkOpQueue { front_ : option nat; back_ : option nat }.

Definition new_op_queue : op_queue := mkOpQueue None None.

(** [op_queue_access::next], to read and to write. *)
Definition get_next (o : nat) (h : op_heap) : result (option nat) :=
  match h !! o with
  | Some next => Ok next
  | None => Err (UndefinedBehaviour "dangling operation")
  end.

Definition set_next (o : nat) (next : option nat) (h : op_heap) : result op_heap :=
  match h !! o with
  | Some _ => Ok (<[o := next]> h)
  | None => Err (UndefinedBehaviour "dangling operation")
  end.

Definition oq_front (q : op_queue) : option nat := front_ q.

Definition oq_pop (h : op_heap) (q : op_queue) : result (op_heap * op_queue) :=
  match front_ q with
  | Some tmp =>
      front ← get_next tmp h;
      let back := match front with None => None | Some _ => back_ q end in
      h ← set_next tmp None h;
      Ok (h, mkOpQueue front back)
  | None => Ok (h, q)
  end.

Definition oq_push (o : nat) (h : op_heap) (q : op_queue) : result (op_heap * op_queue) :=
  h ← set_next o None h;
  match back_ q with
  | Some back => h ← set_next back (Some o) h; Ok (h, mkOpQueue (front_ q) (Some o))
  | None => Ok (h, mkOpQueue (Some o) (Some o))
  end.

(** [push] of another queue [p], which is empty afterwards. *)
Definition oq_push_queue (p : op_queue) (h : op_heap) (q : op_queue)
    : result (op_heap * op_queue * op_queue) :=
  match front_ p with
  | Some other_front =>
      '(h, front) ← match back_ q with
                    | Some back => h ← set_next back (Some other_front) h; Ok (h, front_ q)
                    | None => Ok (h, Some other_front)
                    end;
      Ok (h, mkOpQueue front (back_ p), mkOpQueue None None)
  | None => Ok (h, q, p)
  end.

Definition oq_empty (q : op_queue) : bool := bool_decide (front_ q = None).

Definition oq_is_enqueued (o : nat) (h : op_heap) (q : op_queue) : result bool :=
  next ← get_next o h;
  Ok (bool_decide (is_Some next) || bool_decide (back_ q = Some o)).

(** The destructor: every operation is popped and destroyed, in order. *)
Fixpoint oq_destroy (fuel : nat) (h : op_heap) (q : op_queue) : result (list nat * op_heap) :=
  match fuel with
  | O => Err OutOfFuel
  | S fuel =>
      match front_ q with
      | None => Ok ([], h)
      | Some o =>
          '(h, q) ← oq_pop h q;
          '(os, h) ← oq_destroy fuel (delete o h) q;
          Ok (o :: os, h)
      end
  end.

(** ** The list a queue stands for *)

Fixpoint chain (h : op_heap) (l : list nat) : Prop :=
  match l with
  | [] => True
  | o :: l => h !! o = Some (head l) /\ chain h l
  end.

Record represents (h : op_heap) (q : op_queue) (l : list nat) : Prop := {
  rep_front : front_ q = head l;
  rep_back : back_ q = last l;
  rep_chain : chain h l;
  rep_nodup : NoDup l;
}.

Lemma chain_lookup h l o : chain h l -> o ∈ l -> is_Some (h !! o).
Proof.
  induction l as [|x l IH]; [by intros _ ?%elem_of_nil|]. intros [Hx Hl] [->|Ho]%elem_of_cons; eauto.
Qed.

Lemma chain_insert h l o next : o ∉ l -> chain h l -> chain (<[o := next]> h) l.
Proof.
  induction l as [|x l IH]; [done|]. intros [Hne Ho]%not_elem_of_cons [Hx Hl].
  split; [by rewrite lookup_insert_ne|by apply IH].
Qed.

Lemma chain_delete h l o : o ∉ l -> chain h l -> chain (delete o h) l.
Proof.
  induction l as [|x l IH]; [done|]. intros [Hne Ho]%not_elem_of_cons [Hx Hl].
  split; [by rewrite lookup_delete_ne|by apply IH].
Qed.

(** Linking the last operation of a chain to the first of another. *)
Lemma chain_link h l o l' :
  NoDup (l ++ o :: l') -> chain h (l ++ [o]) -> chain h l' ->
  chain (<[o := head l']> h) (l ++ o :: l').
Proof.
  intros Hnd Hl Hl'. induction l as [|x l IH].
  - cbn [app] in *. apply NoDup_cons in Hnd as [Ho _].
    split; [by rewrite lookup_insert_eq|by apply chain_insert].
  - cbn [app] in *. apply NoDup_cons in Hnd as [Hx Hnd]. destruct Hl as [Hh Hl].
    split; [|by apply IH]. rewrite lookup_insert_ne.
    + rewrite Hh. by destruct l.
    + intros ->. apply Hx. apply elem_of_app. right. left.
Qed.

Lemma last_cases (l : list nat) : l = [] /\ last l = None \/ exists l0 o, l = l0 ++ [o] /\ last l = Some o.
Proof.
  destruct l as [|o l0 _] using rev_ind; [by left|]. right. exists l0, o. by rewrite last_snoc.
Qed.

Lemma new_represents h : represents h new_op_queue [].
Proof. split; [done..|constructor]. Qed.

(** What an operation on the queue of [l] leaves alone. *)
Definition untouched (h h' : op_heap) (l : list nat) : Prop :=
  forall l', l' ## l -> chain h l' -> chain h' l'.

Lemma pop_represents h q o l :
  represents h q (o :: l) ->
  exists q', oq_pop h q = Ok (<[o := None]> h, q') /\ represents (<[o := None]> h) q' l /\
    untouched h (<[o := None]> h) (o :: l).
Proof.
  intros [Hf Hb [Ho Hl] Hnd]. apply NoDup_cons in Hnd as [Hno Hnd].
  unfold oq_pop. rewrite Hf. cbn [head]. unfold get_next, set_next. rewrite Ho.
  cbn [mbind result_bind]. eexists. split; [reflexivity|]. split.
  - split; [done| |by apply chain_insert|done]. cbn [back_]. rewrite Hb.
    destruct l as [|x l]; [done|]. by rewrite last_cons_cons.
  - intros l' Hdis Hl'. apply chain_insert; [|done]. set_solver.
Qed.

Lemma push_represents h q l o :
  represents h q l -> is_Some (h !! o) -> o ∉ l ->
  exists h' q', oq_push o h q = Ok (h', q') /\ represents h' q' (l ++ [o]) /\
    untouched h h' (l ++ [o]).
Proof.
  intros [Hf Hb Hc Hnd] [n Ho] Hno. unfold oq_push, set_next. rewrite Ho. cbn [mbind result_bind].
  assert (NoDup (l ++ [o])) as Hnd'.
  { apply NoDup_app. split_and!; [done|set_solver|apply NoDup_singleton]. }
  rewrite Hb. destruct (last_cases l) as [[-> Hlast]|(l0 & b & -> & Hlast)]; rewrite Hlast.
  - do 2 eexists. split; [reflexivity|]. split.
    + split; [done|done| |done]. split; [by rewrite lookup_insert_eq|done].
    + intros l' Hdis Hl'. apply chain_insert; [|done]. set_solver.
  - assert (b <> o) as Hbo by set_solver.
    destruct (chain_lookup h _ b Hc) as [nb Hnb]; [set_solver|].
    rewrite lookup_insert_ne, Hnb by done. cbn [mbind result_bind].
    do 2 eexists. split; [reflexivity|]. split.
    + split; cbn [front_ back_].
      * rewrite Hf. by destruct l0.
      * by rewrite last_snoc.
      * rewrite <- (assoc_L (++)). cbn [app]. apply (chain_link _ l0 b [o]).
        -- by rewrite <- (assoc_L (++)) in Hnd'.
        -- by apply chain_insert.
        -- split; [by rewrite lookup_insert_eq|done].
      * done.
    + intros l' Hdis Hl'. apply chain_insert; [set_solver|]. apply chain_insert; [set_solver|done].
Qed.

Lemma push_queue_represents h q l p l' :
  represents h q l -> represents h p l' -> l ## l' ->
  exists h' q' p', oq_push_queue p h q = Ok (h', q', p') /\ represents h' q' (l ++ l') /\
    represents h' p' [] /\ untouched h h' (l ++ l').
Proof.
  intros [Hf Hb Hc Hnd] [Hf' Hb' Hc' Hnd'] Hdis. unfold oq_push_queue. rewrite Hf'.
  assert (NoDup (l ++ l')) as Hnd2 by (apply NoDup_app; set_solver).
  destruct l' as [|o l']; cbn [head].
  { rewrite (right_id_L [] (++)). exists h, q, p. split_and!; [done|done|done|by intros l2]. }
  rewrite Hb. destruct (last_cases l) as [[-> Hlast]|(l0 & b & -> & Hlast)]; rewrite Hlast.
  - cbn [mbind result_bind]. do 3 eexists. split; [reflexivity|]. split_and!.
    + by split.
    + apply new_represents.
    + by intros l2 _.
  - destruct (chain_lookup h _ b Hc) as [nb Hnb]; [set_solver|]. unfold set_next. rewrite Hnb.
    cbn [mbind result_bind]. do 3 eexists. split; [reflexivity|].
    rewrite <- (assoc_L (++)) in Hnd2 |- *. cbn [app] in Hnd2 |- *. split_and!.
    + split; cbn [front_ back_].
      * rewrite Hf. by destruct l0.
      * by rewrite Hb', last_app_cons.
      * by apply (chain_link _ l0 b (o :: l')).
      * done.
    + apply new_represents.
    + intros l2 Hl2 Hc2. apply chain_insert; [|done]. set_solver.
Qed.

Lemma destroy_represents fuel h q l :
  represents h q l -> length l < fuel ->
  exists h', oq_destroy fuel h q = Ok (l, h') /\ (forall o, o ∈ l -> h' !! o = None) /\
    forall o, o ∉ l -> h' !! o = h !! o.
Proof.
  revert h q l. induction fuel as [|fuel IH]; intros h q l Hrep Hfuel; [lia|].
  cbn [oq_destroy]. rewrite (rep_front _ _ _ Hrep). destruct l as [|o l]; cbn [head].
  { exists h. split_and!; [done|by intros o ?%elem_of_nil|done]. }
  destruct (pop_represents h q o l Hrep) as (q1 & -> & Hrep1 & _).
  pose proof (rep_nodup _ _ _ Hrep) as [Ho Hnd]%NoDup_cons.
  cbn [mbind result_bind length] in *.
  destruct (IH (delete o (<[o := None]> h)) q1 l) as (h2 & -> & Hgone & Hkept); [|lia|].
  { destruct Hrep1. split; [done..|by apply chain_delete|done]. }
  exists h2. split; [done|]. split.
  - intros x [->|Hx]%elem_of_cons; [|by apply Hgone]. by rewrite Hkept, lookup_delete_eq.
  - intros x [Hxo Hx]%not_elem_of_cons. by rewrite Hkept, lookup_delete_ne, lookup_insert_ne.
Qed.

(** An operation that is in no queue has no next one. *)
Lemma is_enqueued_represents h q l o :
  represents h q l -> o ∈ l \/ h !! o = Some None -> o ∈ l \/ o ∉ l ->
  oq_is_enqueued o h q = Ok (bool_decide (o ∈ l)).
Proof.
  intros [Hf Hb Hc Hnd] Ho Hdec. unfold oq_is_enqueued, get_next.
  assert (forall o, o ∈ l -> exists next, h !! o = Some next /\ (is_Some next \/ last l = Some o)) as Hin.
  { clear Hf Hb Hnd Ho Hdec. induction l as [|x l IH]; [by intros ? ?%elem_of_nil|]. destruct Hc as [Hx Hl].
    intros y [->|Hy]%elem_of_cons.
    - exists (head l). split; [done|]. destruct l; [by right|left; eauto].
    - destruct (IH Hl y Hy) as (next & ? & ?). exists next. split; [done|].
      destruct l; [by apply elem_of_nil in Hy|]. by rewrite last_cons_cons. }
  destruct Hdec as [Hyes|Hno].
  - destruct (Hin o Hyes) as (next & -> & Hcase). cbn [mbind result_bind]. f_equal.
    rewrite (bool_decide_eq_true_2 (o ∈ l)), Hb by done.
    destruct Hcase as [Hs|Hl]; [by rewrite bool_decide_eq_true_2|].
    rewrite (bool_decide_eq_true_2 (last l = Some o)) by done. by rewrite orb_true_r.
  - destruct Ho as [?| ->]; [done|]. cbn [mbind result_bind]. f_equal.
    rewrite !bool_decide_eq_false_2; [done|done| |by intros [? ?]].
    rewrite Hb. intros Hl. apply Hno. by apply last_Some_elem_of in Hl.
Qed.

(** ** Properties *)

(** The queue of operations is a list.  On queues that stand for disjoint
    lists [push] appends an operation, [push] of a queue appends its operations
    and empties it, [pop] removes the first, [front] and [empty] show the first,
    the destructor destroys the operations in order and nothing else; none of
    them follows a dangling pointer, and the links of operations in other queues
    stay as they are. *)
Theorem op_queue_is_list h q l :
  represents h q l ->
  oq_front q = head l /\ oq_empty q = bool_decide (l = []) /\
  (l = [] -> oq_pop h q = Ok (h, q)) /\
  (forall o l', l = o :: l' -> exists h' q', oq_pop h q = Ok (h', q') /\ represents h' q' l' /\
    untouched h h' l) /\
  (forall o, is_Some (h !! o) -> o ∉ l -> exists h' q', oq_push o h q = Ok (h', q') /\
    represents h' q' (l ++ [o]) /\ untouched h h' (l ++ [o])) /\
  (forall p l', represents h p l' -> l ## l' -> exists h' q' p', oq_push_queue p h q = Ok (h', q', p') /\
    represents h' q' (l ++ l') /\ represents h' p' [] /\ untouched h h' (l ++ l')) /\
  (forall o, o ∈ l \/ h !! o = Some None -> oq_is_enqueued o h q = Ok (bool_decide (o ∈ l))) /\
  (exists h', oq_destroy (S (length l)) h q = Ok (l, h') /\ (forall o, o ∈ l -> h' !! o = None) /\
    forall o, o ∉ l -> h' !! o = h !! o).
Proof.
  intros Hrep. pose proof (rep_front _ _ _ Hrep) as Hf. split_and!.
  - done.
  - unfold oq_empty. rewrite Hf. destruct l; by repeat case_bool_decide.
  - intros ->. unfold oq_pop. by rewrite Hf.
  - intros o l' ->. destruct (pop_represents h q o l' Hrep) as (q' & ? & ? & ?). eauto.
  - intros o Ho Hno. by apply push_represents.
  - intros p l' Hp Hdis. by apply push_queue_represents.
  - intros o Ho. apply is_enqueued_represents; [done|done|]. destruct (decide (o ∈ l)); auto.
  - apply destroy_represents; [done|lia].
Qed.

(** Three operations of which the second was queued before the first. *)
Definition sample_heap : op_heap := <[1 := None]> (<[2 := Some 1]> (<[3 := None]> ∅)).
Definition sample_queue : op_queue := mkOpQueue (Some 2) (Some 1).

Lemma op_queue_is_list_witness :
  exists h' q', oq_push 3 sample_heap sample_queue = Ok (h', q') /\ represents h' q' [2; 1; 3] /\
    untouched sample_heap h' [2; 1; 3].
Proof.
  apply (op_queue_is_list sample_heap sample_queue [2; 1]).
  - split; [done|done|by vm_compute|]. apply (bool_decide_unpack _). by vm_compute.
  - eexists. vm_compute. reflexivity.
  - apply (bool_decide_unpack _). by vm_compute.
Defined.
