(* ===== verification/AsioScheduler.v ===== *)
(** * asio: the event loop of an io_context

    [scheduler] runs the handlers of completed operations, among them those of
    the server's accepts and reads.  Its queue, proved a list in AsioQueue.v, also
    holds the task, the reactor that waits for the sockets.  One thread runs the
    loop; the handlers it runs and other threads call the scheduler whenever the
    mutex is free: [during] lists the calls of each such window, in order and
    marked with whether the running thread makes them, [reactor] the operations
    each run of the task completes. *)
From S2P Require Import Prelude.
Local Open Scope Z_scope.

(** ** Data *)

(** The position of the task in the queue, or an operation with its handler. *)
Inductive IoOp := TaskOperation | Operation (id : nat).

#[global] Instance IoOp_eq_dec : EqDecision IoOp.
Proof. solve_decision. Defined.

(** class [scheduler] with the [thread_info] of the thread that runs it, and
    the number of windows and of task runs so far. *)
Record IoScheduler := mkIo {
  op_queue_ : list IoOp;
  task_ : bool;
  task_interrupted_ : bool;
  outstanding_work_ : Z;
  stopped_ : bool;
  shutdown_ : bool;
  private_op_queue : list IoOp;
  private_outstanding_work : Z;
  waiting : bool;
  window : nat;
  runs : nat;
}.

(** The public operations of [scheduler]. *)
Inductive IoCall :=
| PostImmediateCompletion (id : nat) (is_continuation : bool)
| PostDeferredCompletion (id : nat)
| PostDeferredCompletions (ids : list nat)
| DoDispatch (id : nat)
| AbandonOperations (ids : list nat)
| WorkStarted
| WorkFinished
| CompensatingWorkStarted
| StopIo
| RestartIo
| InitTask.

Inductive IoEffect :=
| CompleteOperation (id : nat)      (* [o->complete (...)]: the handler *)
| DestroyOperation (id : nat)
| RunTask (usec : Z)                (* [task_->run (usec, ...)]: -1 blocks *)
| InterruptTask
| SignalOne
| SignalAll
| WaitEvent (usec : option Z).

Section setters.
Implicit Types (s : IoScheduler).

Definition set_op_queue x s := mkIo x (task_ s) (task_interrupted_ s) (outstanding_work_ s) (stopped_ s)
  (shutdown_ s) (private_op_queue s) (private_outstanding_work s) (waiting s) (window s) (runs s).
Definition set_task x s := mkIo (op_queue_ s) x (task_interrupted_ s) (outstanding_work_ s) (stopped_ s)
  (shutdown_ s) (private_op_queue s) (private_outstanding_work s) (waiting s) (window s) (runs s).
Definition set_interrupted x s := mkIo (op_queue_ s) (task_ s) x (outstanding_work_ s) (stopped_ s)
  (shutdown_ s) (private_op_queue s) (private_outstanding_work s) (waiting s) (window s) (runs s).
Definition set_outstanding x s := mkIo (op_queue_ s) (task_ s) (task_interrupted_ s) x (stopped_ s)
  (shutdown_ s) (private_op_queue s) (private_outstanding_work s) (waiting s) (window s) (runs s).
Definition set_stopped x s := mkIo (op_queue_ s) (task_ s) (task_interrupted_ s) (outstanding_work_ s) x
  (shutdown_ s) (private_op_queue s) (private_outstanding_work s) (waiting s) (window s) (runs s).
Definition set_shutdown x s := mkIo (op_queue_ s) (task_ s) (task_interrupted_ s) (outstanding_work_ s)
  (stopped_ s) x (private_op_queue s) (private_outstanding_work s) (waiting s) (window s) (runs s).
Definition set_private x w s := mkIo (op_queue_ s) (task_ s) (task_interrupted_ s) (outstanding_work_ s)
  (stopped_ s) (shutdown_ s) x w (waiting s) (window s) (runs s).
Definition set_waiting x s := mkIo (op_queue_ s) (task_ s) (task_interrupted_ s) (outstanding_work_ s)
  (stopped_ s) (shutdown_ s) (private_op_queue s) (private_outstanding_work s) x (window s) (runs s).
Definition set_window x s := mkIo (op_queue_ s) (task_ s) (task_interrupted_ s) (outstanding_work_ s)
  (stopped_ s) (shutdown_ s) (private_op_queue s) (private_outstanding_work s) (waiting s) x (runs s).
Definition set_runs x s := mkIo (op_queue_ s) (task_ s) (task_interrupted_ s) (outstanding_work_ s)
  (stopped_ s) (shutdown_ s) (private_op_queue s) (private_outstanding_work s) (waiting s) (window s) x.
End setters.

(** The constructor. *)
Definition new_scheduler_io : IoScheduler := mkIo [] false true 0 false false [] 0 false 0 0.

Section io.
Context (one_thread : bool) (during : nat -> list (bool * IoCall)) (reactor : nat -> list nat).

Local Abbreviation M := (comp IoScheduler IoEffect).
Implicit Types (s : IoScheduler).

(** ** The operations *)

Definition push_op (o : IoOp) : M unit := modify (fun s => set_op_queue (op_queue_ s ++ [o]) s).
Definition push_ops (os : list IoOp) : M unit := modify (fun s => set_op_queue (op_queue_ s ++ os) s).

(** [task_->interrupt ()], unless it was interrupted already. *)
Definition interrupt_task : M unit :=
  s ← get_state;
  when (negb (task_interrupted_ s) && task_ s)
    (modify (set_interrupted true) ;; (emit InterruptTask)).

Definition stop_all_threads : M unit :=
  modify (set_stopped true) ;; (emit SignalAll ;; interrupt_task).

Definition stop_io : M unit := stop_all_threads.

(** [maybe_unlock_and_signal_one] succeeds when a thread waits. *)
Definition wake_one_thread_and_unlock : M unit :=
  s ← get_state;
  if waiting s then emit SignalOne else interrupt_task.

Definition work_started : M unit := modify (fun s => set_outstanding (outstanding_work_ s + 1) s).

Definition work_finished : M unit :=
  modify (fun s => set_outstanding (outstanding_work_ s - 1) s) ;;
  (s ← get_state; when (outstanding_work_ s =? 0) stop_io).

(** [inside]: the caller is the thread that runs the scheduler. *)
Definition compensating_work_started (inside : bool) : M unit :=
  if inside then modify (fun s => set_private (private_op_queue s) (private_outstanding_work s + 1) s)
  else fail_with (UndefinedBehaviour "no thread info").

Definition post_immediate_completion (inside : bool) (op : nat) (is_continuation : bool) : M unit :=
  if (one_thread || is_continuation) && inside
  then modify (fun s => set_private (private_op_queue s ++ [Operation op]) (private_outstanding_work s + 1) s)
  else work_started ;; (push_op (Operation op) ;; wake_one_thread_and_unlock).

Definition post_deferred_completion (inside : bool) (op : nat) : M unit :=
  if one_thread && inside
  then modify (fun s => set_private (private_op_queue s ++ [Operation op]) (private_outstanding_work s) s)
  else push_op (Operation op) ;; wake_one_thread_and_unlock.

Definition post_deferred_completions (inside : bool) (ops : list nat) : M unit :=
  match ops with
  | [] => mret tt
  | _ =>
      if one_thread && inside
      then modify (fun s => set_private (private_op_queue s ++ (Operation <$> ops)) (private_outstanding_work s) s)
      else push_ops (Operation <$> ops) ;; wake_one_thread_and_unlock
  end.

Definition do_dispatch (op : nat) : M unit :=
  work_started ;; (push_op (Operation op) ;; wake_one_thread_and_unlock).

(** The operations move to a local queue, whose destructor destroys them. *)
Definition abandon_operations (ops : list nat) : M unit := for_each (fun o => emit (DestroyOperation o)) ops.

Definition restart_io : M unit := modify (set_stopped false).

Definition init_task : M unit :=
  s ← get_state;
  when (negb (shutdown_ s) && negb (task_ s))
    (modify (set_task true) ;; (push_op TaskOperation ;; wake_one_thread_and_unlock)).

Definition io_call (inside : bool) (c : IoCall) : M unit :=
  match c with
  | PostImmediateCompletion id k => post_immediate_completion inside id k
  | PostDeferredCompletion id => post_deferred_completion inside id
  | PostDeferredCompletions ids => post_deferred_completions inside ids
  | DoDispatch id => do_dispatch id
  | AbandonOperations ids => abandon_operations ids
  | WorkStarted => work_started
  | WorkFinished => work_finished
  | CompensatingWorkStarted => compensating_work_started inside
  | StopIo => stop_io
  | RestartIo => restart_io
  | InitTask => init_task
  end.

(** The mutex is free: the calls of the next window are made. *)
Definition open_window : M unit :=
  s ← get_state;
  modify (set_window (S (window s))) ;;
  (for_each (fun c => io_call c.1 c.2) (during (window s))).

(** ** The loop *)

Definition task_cleanup : M unit :=
  modify (fun s =>
    set_private (private_op_queue s) 0
      (if 0 <? private_outstanding_work s
       then set_outstanding (outstanding_work_ s + private_outstanding_work s) s else s)) ;;
  (modify (set_interrupted true) ;;
   (modify (fun s => set_private [] (private_outstanding_work s)
      (set_op_queue (op_queue_ s ++ private_op_queue s) s)) ;;
    (push_op TaskOperation))).

Definition work_cleanup : M unit :=
  s ← get_state;
  (if 1 <? private_outstanding_work s
   then modify (set_outstanding (outstanding_work_ s + (private_outstanding_work s - 1)))
   else when (private_outstanding_work s <? 1) work_finished) ;;
  (modify (fun s => set_private (private_op_queue s) 0 s) ;;
   (modify (fun s => set_private [] (private_outstanding_work s)
      (set_op_queue (op_queue_ s ++ private_op_queue s) s)))).

(** [task_->run (usec, private_op_queue)] *)
Definition run_task (usec : Z) : M unit :=
  emit (RunTask usec) ;;
  (open_window ;;
   (s ← get_state;
    modify (set_runs (S (runs s))) ;;
    (modify (fun s' => set_private (private_op_queue s' ++ (Operation <$> reactor (runs s)))
       (private_outstanding_work s') s')))).

(** [o->complete (...)] *)
Definition complete (id : nat) : M unit := emit (CompleteOperation id) ;; open_window.

(** [wakeup_event_.wait (lock)], with a timeout or without *)
Definition wait_event (usec : option Z) : M unit :=
  emit (WaitEvent usec) ;; (modify (set_waiting true) ;; (open_window ;; (modify (set_waiting false)))).

(** The part of the three loops that runs the task at the head of the queue. *)
Definition run_task_operation (signal : bool) (usec : bool -> Z) (q : list IoOp) : M unit :=
  let more_handlers := negb (bool_decide (q = [])) in
  modify (set_op_queue q) ;;
  (when signal (modify (set_interrupted more_handlers) ;;
                (when (more_handlers && negb one_thread) (emit SignalOne))) ;;
   (run_task (usec more_handlers) ;; task_cleanup)).

(** The part that runs the handler at the head of the queue. *)
Definition run_operation (id : nat) (q : list IoOp) : M nat :=
  let more_handlers := negb (bool_decide (q = [])) in
  modify (set_op_queue q) ;;
  (when (more_handlers && negb one_thread) wake_one_thread_and_unlock ;;
   (complete id ;; (work_cleanup ;; (mret 1%nat)))).

Fixpoint do_run_one (fuel : nat) : M nat :=
  match fuel with
  | O => fail_with OutOfFuel
  | S fuel =>
      s ← get_state;
      if stopped_ s then mret 0%nat
      else
        match op_queue_ s with
        | TaskOperation :: q =>
            run_task_operation true (fun more => if more then 0 else -1) q ;; (do_run_one fuel)
        | Operation id :: q => run_operation id q
        | [] => wait_event None ;; (do_run_one fuel)
        end
  end.

(** What [do_wait_one] and [do_poll_one] do after the task. *)
Definition run_front (signal : bool) : M nat :=
  s ← get_state;
  match op_queue_ s with
  | Operation id :: q => run_operation id q
  | TaskOperation :: _ => when (signal && waiting s) (emit SignalOne) ;; (mret 0%nat)
  | [] => mret 0%nat
  end.

Definition do_wait_one (usec : Z) : M nat :=
  s ← get_state;
  if stopped_ s then mret 0%nat
  else
    (if bool_decide (op_queue_ s = []) then wait_event (Some usec) else mret tt) ;;
    (let usec := if bool_decide (op_queue_ s = []) then 0 else usec in
     s ← get_state;
     match op_queue_ s with
     | TaskOperation :: q =>
         run_task_operation true (fun more => if more then 0 else usec) q ;; (run_front (negb one_thread))
     | _ => run_front (negb one_thread)
     end).

Definition do_poll_one : M nat :=
  s ← get_state;
  if stopped_ s then mret 0%nat
  else
    match op_queue_ s with
    | TaskOperation :: q => run_task_operation false (fun _ => 0) q ;; (run_front true)
    | _ => run_front true
    end.

(** The common beginning of the public functions: without work the scheduler is
    stopped, otherwise the thread gets a [thread_info] of its own. *)
Definition with_thread_info (body : M nat) : M nat :=
  s ← get_state;
  if outstanding_work_ s =? 0 then stop_io ;; (mret 0%nat)
  else modify (set_private [] 0) ;; body.

(** The loop of [run] and [poll]: the count stays at the greatest [size_t]. *)
Fixpoint run_all (fuel : nat) (one : M nat) (n : Z) : M Z :=
  match fuel with
  | O => fail_with OutOfFuel
  | S fuel =>
      r ← one;
      if (r =? 0)%nat then mret n
      else run_all fuel one (if n =? uint64_max then n else n + 1)
  end.

Definition with_thread_info_all (body : M Z) : M Z :=
  s ← get_state;
  if outstanding_work_ s =? 0 then stop_io ;; (mret 0)
  else modify (set_private [] 0) ;; body.

Definition run_io (fuel : nat) : M Z := with_thread_info_all (run_all fuel (do_run_one fuel) 0).
Definition run_one_io (fuel : nat) : M nat := with_thread_info (do_run_one fuel).
Definition wait_one_io (usec : Z) : M nat := with_thread_info (do_wait_one usec).

(** A [poll] within a handler takes over the private queue [outer] of the run
    around it. *)
Definition take_outer (outer : list IoOp) : M unit := when one_thread (push_ops outer).

Definition poll_io (outer : list IoOp) (fuel : nat) : M Z :=
  with_thread_info_all (take_outer outer ;; (run_all fuel do_poll_one 0)).
Definition poll_one_io (outer : list IoOp) : M nat := with_thread_info (take_outer outer ;; do_poll_one).

(** [shutdown]: the handlers in the queue are destroyed. *)
Definition shutdown_io : M unit :=
  modify (set_shutdown true) ;;
  (s ← get_state;
   for_each (fun o => match o with Operation id => emit (DestroyOperation id) | TaskOperation => mret tt end)
     (op_queue_ s) ;;
   (modify (set_op_queue []) ;; (modify (set_task false)))).

(** ** Every operation is executed once *)

Definition handlers (os : list IoOp) : list nat :=
  omap (fun o => match o with Operation id => Some id | TaskOperation => None end) os.

(** The operations that wait for their turn. *)
Definition queued s : list nat := handlers (op_queue_ s) ++ handlers (private_op_queue s).

(** The operations whose handlers were called or destroyed. *)
Definition done_with (es : list IoEffect) : list nat :=
  omap (fun e => match e with CompleteOperation id | DestroyOperation id => Some id | _ => None end) es.

(** The operations a call hands to the scheduler. *)
Definition posted (c : IoCall) : list nat :=
  match c with
  | PostImmediateCompletion id _ | PostDeferredCompletion id | DoDispatch id => [id]
  | PostDeferredCompletions ids | AbandonOperations ids => ids
  | _ => []
  end.

Definition posted_during (k : nat) : list nat := during k ≫= (fun c => posted c.2).

(** What came in between two states: through calls and from the reactor. *)
Definition arrived s s' : list nat :=
  (seq (window s) (window s' - window s) ≫= posted_during) ++
  (seq (runs s) (runs s' - runs s) ≫= reactor).

(** In the state [s], [m] takes over the operations [inn] and hands back [out]. *)
Definition conserves_at s {A} (inn : list nat) (m : M A) (out : A -> list nat) : Prop :=
  forall es s' a, m s = (es, s', Ok a) ->
    (window s <= window s')%nat /\ (runs s <= runs s')%nat /\
    done_with es ++ queued s' ++ out a ≡ₚ queued s ++ inn ++ arrived s s'.

Definition conserves {A} (inn : list nat) (m : M A) (out : A -> list nat) : Prop :=
  forall s, conserves_at s inn m out.

Lemma handlers_app os os' : handlers (os ++ os') = handlers os ++ handlers os'.
Proof. apply omap_app. Qed.

Lemma handlers_fmap ids : handlers (Operation <$> ids) = ids.
Proof. induction ids as [|id ids IH]; [done|]. cbn. by f_equal. Qed.

Lemma done_with_app es es' : done_with (es ++ es') = done_with es ++ done_with es'.
Proof. apply omap_app. Qed.

Lemma arrived_same s s' : window s' = window s -> runs s' = runs s -> arrived s s' = [].
Proof. unfold arrived. intros -> ->. by rewrite !Nat.sub_diag. Qed.

Lemma seq_bind_split {B} (f : nat -> list B) i j k :
  (i <= j)%nat -> (j <= k)%nat ->
  seq i (k - i) ≫= f = (seq i (j - i) ≫= f) ++ (seq j (k - j) ≫= f).
Proof.
  intros Hij Hjk. replace (k - i)%nat with (j - i + (k - j))%nat by lia.
  rewrite seq_app, bind_app. by replace (i + (j - i))%nat with j by lia.
Qed.

Lemma arrived_trans s s1 s2 :
  (window s <= window s1)%nat -> (runs s <= runs s1)%nat ->
  (window s1 <= window s2)%nat -> (runs s1 <= runs s2)%nat ->
  arrived s s2 ≡ₚ arrived s s1 ++ arrived s1 s2.
Proof.
  intros. unfold arrived. rewrite (seq_bind_split posted_during _ (window s1)) by done.
  rewrite (seq_bind_split reactor _ (runs s1)) by done. solve_Permutation.
Qed.

Lemma conserves_at_bind {A B} s inn (m : M A) (f : A -> M B) mid out :
  conserves_at s inn m mid -> (forall a, conserves (mid a) (f a) out) ->
  conserves_at s inn (m ≫= f) out.
Proof.
  intros Hm Hf es s' b. unfold mbind, comp_bind.
  destruct (m s) as [[es1 s1] [a|err]] eqn:Hrun; [|done].
  destruct (f a s1) as [[es2 s2] [b'|err]] eqn:Hrun2; [|done]. intros [= <- <- <-].
  destruct (Hm _ _ _ Hrun) as (Hw & Hr & Hp). destruct (Hf _ _ _ _ _ Hrun2) as (Hw2 & Hr2 & Hp2).
  split; [lia|]. split; [lia|]. rewrite done_with_app, (arrived_trans s s1 s2) by done.
  rewrite <- (assoc_L (++)), Hp2, !(assoc_L (++)). f_equiv.
  by rewrite <- !(assoc_L (++)), (assoc_L (++) (queued s)), <- (assoc_L (++)).
Qed.

Lemma conserves_bind {A B} inn (m : M A) (f : A -> M B) mid out :
  conserves inn m mid -> (forall a, conserves (mid a) (f a) out) -> conserves inn (m ≫= f) out.
Proof. intros Hm Hf s. by apply (conserves_at_bind s inn m f mid). Qed.

(** The usual case: both parts hand nothing over. *)
Lemma conserves_then {A B} (m : M A) (f : A -> M B) out :
  conserves [] m (fun _ => []) -> (forall a, conserves [] (f a) out) -> conserves [] (m ≫= f) out.
Proof. intros Hm Hf. by apply (conserves_bind [] m f (fun _ => [])). Qed.

Lemma conserves_get {A} s inn (f : IoScheduler -> M A) out :
  conserves_at s inn (f s) out -> conserves_at s inn (get_state ≫= f) out.
Proof. intros Hf es s' a. rewrite run_get. apply Hf. Qed.

Lemma conserves_modify s inn out g :
  window (g s) = window s -> runs (g s) = runs s -> queued (g s) ++ out ≡ₚ queued s ++ inn ->
  conserves_at s inn (modify g) (fun _ => out).
Proof.
  intros Hw Hr Hq es s' a [= <- <- <-]. rewrite Hw, Hr, arrived_same by done.
  rewrite !(right_id_L [] (++)). split; [done|]. split; [done|]. exact Hq.
Qed.

Lemma conserves_ret {A} inn (a : A) : conserves inn (mret a) (fun _ => inn).
Proof.
  intros s es s' b [= <- <- <-]. rewrite arrived_same by done. rewrite !(right_id_L [] (++)). done.
Qed.

(** An effect that says what became of the operations [inn]. *)
Lemma conserves_emit inn e : done_with [e] = inn -> conserves inn (emit e) (fun _ => []).
Proof.
  intros Hd s es s' a [= <- <- <-]. rewrite arrived_same, Hd by done.
  rewrite !(right_id_L [] (++)). split; [done|]. split; [done|]. apply Permutation_app_comm.
Qed.

Lemma conserves_fail {A} inn err (out : A -> list nat) : conserves inn (fail_with err) out.
Proof. by intros s es s' a. Qed.

Lemma conserves_when inn b (m : M unit) :
  (b = true -> conserves inn m (fun _ => inn)) -> conserves inn (when b m) (fun _ => inn).
Proof. destruct b; intros Hm; [by apply Hm|apply conserves_ret]. Qed.

(** A change that keeps the queues. *)
Lemma conserves_keep g :
  (forall s, window (g s) = window s /\ runs (g s) = runs s /\ queued (g s) = queued s) ->
  conserves [] (modify g) (fun _ => []).
Proof. intros Hg s. destruct (Hg s) as (? & ? & Hq). apply conserves_modify; [done..|by rewrite Hq]. Qed.

(** What is done with the state does not depend on its queues. *)
Lemma conserves_get_any {A} inn (f : IoScheduler -> M A) out :
  (forall s, conserves inn (f s) out) -> conserves inn (get_state ≫= f) out.
Proof. intros Hf s. apply conserves_get, Hf. Qed.

Ltac keep := apply conserves_keep; intros ?; split_and!; reflexivity.
Ltac conserve_step :=
  lazymatch goal with
  | |- conserves _ (mret _) _ => apply conserves_ret
  | |- conserves _ (emit _) _ => by apply conserves_emit
  | |- conserves _ (fail_with _) _ => apply conserves_fail
  | |- conserves _ (modify _) _ => keep
  | |- conserves _ (when _ _) _ => apply conserves_when; intros _
  | |- conserves _ (get_state ≫= _) _ => apply conserves_get_any; intros ?
  | |- conserves [] (_ ≫= _) _ => apply conserves_then; [|intros ?]
  end.
Ltac conserve := repeat conserve_step.

Lemma interrupt_task_conserves : conserves [] interrupt_task (fun _ => []).
Proof. apply conserves_get_any. intros s. conserve. Qed.

Lemma stop_io_conserves : conserves [] stop_io (fun _ => []).
Proof. unfold stop_io, stop_all_threads. conserve. apply interrupt_task_conserves. Qed.

Lemma wake_conserves : conserves [] wake_one_thread_and_unlock (fun _ => []).
Proof.
  apply conserves_get_any. intros s. destruct (waiting s); [conserve|apply interrupt_task_conserves].
Qed.

Lemma work_started_conserves : conserves [] work_started (fun _ => []).
Proof. unfold work_started. conserve. Qed.

Lemma work_finished_conserves : conserves [] work_finished (fun _ => []).
Proof.
  unfold work_finished. conserve. apply stop_io_conserves.
Qed.

Lemma push_ops_conserves os : conserves (handlers os) (push_ops os) (fun _ => []).
Proof.
  intros s. apply conserves_modify; [done..|]. unfold queued. cbn [op_queue_ private_op_queue set_op_queue].
  rewrite handlers_app. solve_Permutation.
Qed.

Lemma push_private_conserves os w :
  conserves (handlers os) (modify (fun s => set_private (private_op_queue s ++ os) (w s) s)) (fun _ => []).
Proof.
  intros s. apply conserves_modify; [done..|]. unfold queued. cbn [op_queue_ private_op_queue set_private].
  rewrite handlers_app. solve_Permutation.
Qed.

Lemma push_and_wake_conserves os :
  conserves (handlers os) (push_ops os ;; wake_one_thread_and_unlock) (fun _ => []).
Proof. eapply conserves_bind; [apply push_ops_conserves|]. intros ?. apply wake_conserves. Qed.

(** Doing something else first. *)
Lemma conserves_before {A B} inn (m : M A) (f : A -> M B) out :
  conserves [] m (fun _ => []) -> (forall a, conserves inn (f a) out) -> conserves inn (m ≫= f) out.
Proof.
  intros Hm Hf. apply (conserves_bind inn m f (fun _ => inn)); [|done].
  intros s es s' a Hrun. destruct (Hm s es s' a Hrun) as (? & ? & Hp). split; [done|]. split; [done|].
  rewrite (assoc_L (++)), (right_id_L [] (++)) in *. rewrite Hp. solve_Permutation.
Qed.

Lemma abandon_conserves ops : conserves ops (abandon_operations ops) (fun _ => []).
Proof.
  induction ops as [|o ops IH]; [apply conserves_ret|]. intros s.
  apply (conserves_at_bind s (o :: ops) _ _ (fun _ => ops)); [|intros ?; apply IH].
  intros es s' a [= <- <- <-]. rewrite arrived_same by done. rewrite (right_id_L [] (++)).
  split; [done|]. split; [done|]. cbn [done_with omap list_omap]. solve_Permutation.
Qed.

Lemma io_call_conserves inside c : conserves (posted c) (io_call inside c) (fun _ => []).
Proof.
  destruct c as [id k|id|ids|id|ids| | | | | |]; cbn [io_call posted].
  - unfold post_immediate_completion. destruct (_ && _).
    + apply (push_private_conserves [Operation id]).
    + apply conserves_before; [apply work_started_conserves|]. intros ?.
      apply (push_and_wake_conserves [Operation id]).
  - unfold post_deferred_completion. destruct (_ && _).
    + apply (push_private_conserves [Operation id]).
    + apply (push_and_wake_conserves [Operation id]).
  - unfold post_deferred_completions. rewrite <- (handlers_fmap ids) at 1.
    destruct ids as [|id ids]; [apply conserves_ret|]. destruct (_ && _).
    + apply push_private_conserves.
    + apply push_and_wake_conserves.
  - apply conserves_before; [apply work_started_conserves|]. intros ?.
    apply (push_and_wake_conserves [Operation id]).
  - apply abandon_conserves.
  - apply work_started_conserves.
  - apply work_finished_conserves.
  - unfold compensating_work_started. destruct inside; conserve.
  - apply stop_io_conserves.
  - unfold restart_io. conserve.
  - apply conserves_get_any. intros s. conserve; [|apply wake_conserves].
    apply (push_ops_conserves [TaskOperation]).
Qed.

Lemma calls_conserve cs :
  conserves (cs ≫= (fun c => posted c.2)) (for_each (fun c => io_call c.1 c.2) cs) (fun _ => []).
Proof.
  induction cs as [|c cs IH]; [apply conserves_ret|]. cbn [for_each mbind list_bind].
  apply (conserves_bind _ _ _ (fun _ => cs ≫= (fun c => posted c.2))); [|by intros ?].
  intros s es s' a Hrun. destruct (io_call_conserves c.1 c.2 s es s' a Hrun) as (? & ? & Hp).
  split; [done|]. split; [done|]. rewrite (right_id_L [] (++)) in Hp.
  rewrite (assoc_L (++)), Hp. solve_Permutation.
Qed.

Lemma open_window_conserves : conserves [] (open_window) (fun _ => []).
Proof.
  intros s. apply conserves_get. intros es s' a. rewrite run_modify. intros Hrun.
  destruct (calls_conserve (during (window s)) (set_window (S (window s)) s) es s' a Hrun) as (Hw & Hr & Hp).
  cbn [window runs set_window] in Hw, Hr. split; [lia|]. split; [done|]. rewrite Hp.
  unfold arrived. cbn [window runs set_window].
  rewrite (seq_bind_split posted_during (window s) (S (window s))) by lia.
  replace (S (window s) - window s)%nat with 1%nat by lia.
  cbn [seq mbind list_bind]. unfold posted_during at 2.
  change (queued (set_window (S (window s)) s)) with (queued s).
  rewrite (right_id_L [] (++)). cbn [app]. solve_Permutation.
Qed.

Lemma run_task_conserves usec : conserves [] (run_task usec) (fun _ => []).
Proof.
  unfold run_task. apply conserves_then; [conserve|intros ?].
  apply conserves_then; [apply open_window_conserves|intros ?].
  intros s. apply conserves_get. intros es s' b. rewrite run_modify.
  set (s1 := set_runs (S (runs s)) s). intros Hrun.
  destruct (push_private_conserves (Operation <$> reactor (runs s)) private_outstanding_work s1 es s' b Hrun)
    as (Hw & Hr & Hp).
  cbn [window runs s1 set_runs] in Hw, Hr. split; [lia|]. split; [lia|]. rewrite Hp, handlers_fmap.
  unfold arrived. cbn [window runs s1 set_runs].
  rewrite (seq_bind_split reactor (runs s) (S (runs s))) by lia.
  replace (S (runs s) - runs s)%nat with 1%nat by lia. cbn [seq mbind list_bind].
  change (queued s1) with (queued s). rewrite (right_id_L [] (++)). cbn [app]. solve_Permutation.
Qed.

(** The private queue moves to the end of the shared one. *)
Lemma flush_conserves :
  conserves [] (modify (fun s => set_private [] (private_outstanding_work s)
    (set_op_queue (op_queue_ s ++ private_op_queue s) s))) (fun _ => []).
Proof.
  intros s. apply conserves_modify; [done..|]. unfold queued.
  cbn [op_queue_ private_op_queue set_private set_op_queue].
  rewrite handlers_app. change (handlers []) with (@nil nat). solve_Permutation.
Qed.

Lemma task_cleanup_conserves : conserves [] task_cleanup (fun _ => []).
Proof.
  unfold task_cleanup. apply conserves_then.
  - apply conserves_keep. intros s. by destruct (_ <? _).
  - intros ?. conserve; [apply flush_conserves|]. apply (push_ops_conserves [TaskOperation]).
Qed.

Lemma work_cleanup_conserves : conserves [] work_cleanup (fun _ => []).
Proof.
  apply conserves_get_any. intros s. apply conserves_then.
  - destruct (_ <? _); conserve. apply work_finished_conserves.
  - intros ?. conserve. apply flush_conserves.
Qed.

Lemma wait_event_conserves usec : conserves [] (wait_event usec) (fun _ => []).
Proof. unfold wait_event. conserve. apply open_window_conserves. Qed.

Lemma complete_conserves id : conserves [id] (complete id) (fun _ => []).
Proof.
  unfold complete. apply (conserves_bind _ _ _ (fun _ => [])); [by apply conserves_emit|].
  intros ?. apply open_window_conserves.
Qed.

Lemma run_operation_conserves s id q :
  op_queue_ s = Operation id :: q -> conserves_at s [] (run_operation id q) (fun _ => []).
Proof.
  intros Hq. apply (conserves_at_bind s _ _ _ (fun _ => [id])).
  - apply conserves_modify; [done..|]. unfold queued. rewrite Hq. cbn. solve_Permutation.
  - intros ?. apply conserves_before; [conserve; apply wake_conserves|]. intros ?.
    apply (conserves_bind _ _ _ (fun _ => [])); [apply complete_conserves|]. intros ?.
    conserve. apply work_cleanup_conserves.
Qed.

Lemma run_task_operation_conserves s signal usec q :
  op_queue_ s = TaskOperation :: q ->
  conserves_at s [] (run_task_operation signal usec q) (fun _ => []).
Proof.
  intros Hq. apply (conserves_at_bind s _ _ _ (fun _ => [])).
  - apply conserves_modify; [done..|]. unfold queued. by rewrite Hq.
  - intros ?. conserve; [apply run_task_conserves|apply task_cleanup_conserves].
Qed.

Lemma run_front_conserves signal : conserves [] (run_front signal) (fun _ => []).
Proof.
  intros s. apply conserves_get. destruct (op_queue_ s) as [|[|id] q] eqn:Hq.
  - apply conserves_ret.
  - eapply conserves_at_bind; [apply conserves_when; intros ?; by apply conserves_emit|].
    intros ?. apply conserves_ret.
  - by apply run_operation_conserves.
Qed.

Lemma do_run_one_conserves fuel : conserves [] (do_run_one fuel) (fun _ => []).
Proof.
  induction fuel as [|fuel IH]; [apply conserves_fail|]. intros s. apply conserves_get.
  destruct (stopped_ s); [apply conserves_ret|]. destruct (op_queue_ s) as [|[|id] q] eqn:Hq.
  - apply (conserves_then (wait_event None)); [apply wait_event_conserves|by intros ?].
  - eapply conserves_at_bind; [by apply run_task_operation_conserves|]. by intros ?.
  - by apply run_operation_conserves.
Qed.

Lemma do_wait_one_conserves usec : conserves [] (do_wait_one usec) (fun _ => []).
Proof.
  intros s. apply conserves_get. destruct (stopped_ s); [apply conserves_ret|].
  revert s. intros s0. generalize (bool_decide (op_queue_ s0 = [])). intros b.
  apply (conserves_then (if b then _ else _)).
  - destruct b; [apply wait_event_conserves|apply conserves_ret].
  - intros ? s. apply conserves_get. destruct (op_queue_ s) as [|[|id] q] eqn:Hq.
    + apply run_front_conserves.
    + eapply conserves_at_bind; [by apply run_task_operation_conserves|]. intros ?. apply run_front_conserves.
    + apply run_front_conserves.
Qed.

Lemma do_poll_one_conserves : conserves [] (do_poll_one) (fun _ => []).
Proof.
  intros s. apply conserves_get. destruct (stopped_ s); [apply conserves_ret|].
  destruct (op_queue_ s) as [|[|id] q] eqn:Hq.
  - apply run_front_conserves.
  - eapply conserves_at_bind; [by apply run_task_operation_conserves|]. intros ?. apply run_front_conserves.
  - apply run_front_conserves.
Qed.

Lemma run_all_conserves fuel one n :
  conserves [] one (fun _ => []) -> conserves [] (run_all fuel one n) (fun _ => []).
Proof.
  intros Hone. revert n. induction fuel as [|fuel IH]; intros n; [apply conserves_fail|].
  apply conserves_then; [done|]. intros r. destruct (r =? 0)%nat; [apply conserves_ret|apply IH].
Qed.

Lemma take_outer_conserves : conserves [] (take_outer []) (fun _ => []).
Proof. apply conserves_when. intros _. apply (push_ops_conserves []). Qed.

(** Between two calls no thread has operations of its own. *)
Lemma thread_info_conserves {A} s (body : M A) (zero : A) :
  conserves [] body (fun _ => []) -> private_op_queue s = [] ->
  conserves_at s [] (s ← get_state;
    if outstanding_work_ s =? 0 then stop_io ;; (mret zero) else modify (set_private [] 0) ;; body)
    (fun _ => []).
Proof.
  intros Hbody Hs. apply conserves_get. destruct (_ =? 0).
  - eapply conserves_at_bind; [apply stop_io_conserves|]. intros ?. apply conserves_ret.
  - apply (conserves_at_bind s _ _ _ (fun _ => [])); [|by intros ?].
    apply conserves_modify; [done..|]. unfold queued. by rewrite Hs.
Qed.

(** ** A quiet run *)

(** The number of task positions before the first handler. *)
Fixpoint leading (q : list IoOp) : nat :=
  match q with TaskOperation :: q => S (leading q) | _ => 0 end.

Lemma leading_length q : (leading q <= length q)%nat.
Proof. induction q as [|[|id] q IH]; simpl; lia. Qed.

Lemma leading_task q : handlers q <> [] -> leading (q ++ [TaskOperation]) = leading q.
Proof.
  induction q as [|[|id] q IH]; [done| |done]. intros Hq. cbn [app leading]. f_equal. by apply IH.
Qed.

(** A scheduler that is not stopped, whose work is what the queue [q] holds. *)
Record ready s (q : list IoOp) : Prop := {
  ready_queue : op_queue_ s = q;
  ready_stopped : stopped_ s = false;
  ready_private : private_op_queue s = [];
  ready_work : private_outstanding_work s = 0;
  ready_waiting : waiting s = false;
  ready_outstanding : outstanding_work_ s = Z.of_nat (length (handlers q));
}.

End io.

Section quiet.
Context (one_thread : bool).

(** Nobody calls the scheduler, and no socket is ready. *)
Local Abbreviation quiet_during := (fun _ : nat => @nil (bool * IoCall)).
Local Abbreviation quiet_reactor := (fun _ : nat => @nil nat).
Local Abbreviation M := (comp IoScheduler IoEffect).

(** What the loop does, next, in such a state. *)
Definition interrupted s : IoScheduler := set_interrupted (task_interrupted_ s || task_ s) s.

Lemma quiet_interrupt s : exists es, interrupt_task s = (es, interrupted s, Ok tt) /\ done_with es = [].
Proof.
  unfold interrupt_task. rewrite run_get. unfold interrupted. destruct s as [q t i]; cbn.
  destruct i, t; cbn; by eexists.
Qed.

Lemma quiet_wake s : waiting s = false ->
  exists es, wake_one_thread_and_unlock s = (es, interrupted s, Ok tt) /\ done_with es = [].
Proof.
  intros Hw. unfold wake_one_thread_and_unlock. rewrite run_get, Hw. apply quiet_interrupt.
Qed.

Lemma quiet_window s : open_window one_thread quiet_during s = ([], set_window (S (window s)) s, Ok tt).
Proof. done. Qed.

Lemma quiet_task s q :
  ready s (TaskOperation :: q) -> handlers q <> [] ->
  exists es s', run_task_operation one_thread quiet_during quiet_reactor true
      (fun more => if more then 0 else -1) q s = (es, s', Ok tt) /\ done_with es = [] /\
    ready s' (q ++ [TaskOperation]).
Proof.
  intros [Hq Hst Hp Hw Hwait Hout] Hne.
  destruct s as [qu t i o' st sh p w wt wi ru]. cbn [op_queue_ stopped_ private_op_queue
    private_outstanding_work waiting outstanding_work_] in Hq, Hst, Hp, Hw, Hwait, Hout. subst.
  destruct q as [|o q]; [done|].
  change (handlers (TaskOperation :: o :: q)) with (handlers (o :: q)).
  exists (if one_thread then [RunTask 0] else [SignalOne; RunTask 0]).
  exists (mkIo (((o :: q) ++ []) ++ [TaskOperation]) t true (Z.of_nat (length (handlers (o :: q))))
    false sh [] 0 false (S wi) (S ru)).
  split; [by destruct one_thread|]. split; [by destruct one_thread|].
  split; cbn [op_queue_ stopped_ private_op_queue private_outstanding_work waiting outstanding_work_];
    rewrite ?(right_id_L [] (++)); [done..|].
  rewrite handlers_app. change (handlers [TaskOperation]) with (@nil nat). by rewrite (right_id_L [] (++)).
Qed.

Lemma quiet_handler s id q :
  ready s (Operation id :: q) ->
  exists es s', run_operation one_thread quiet_during id q s = (es, s', Ok 1%nat) /\ done_with es = [id] /\
    if bool_decide (handlers q = []) then stopped_ s' = true /\ outstanding_work_ s' = 0 else ready s' q.
Proof.
  intros [Hq Hst Hp Hw Hwait Hout].
  destruct s as [qu t i o' st sh p w wt wi ru]. cbn [op_queue_ stopped_ private_op_queue
    private_outstanding_work waiting outstanding_work_] in Hq, Hst, Hp, Hw, Hwait, Hout. subst.
  change (handlers (Operation id :: q)) with (id :: handlers q).
  set (work := Z.of_nat (length (id :: handlers q))).
  assert (exists es i1, when (negb (bool_decide (q = [])) && negb one_thread) wake_one_thread_and_unlock
      (mkIo q t i work false sh [] 0 false wi ru)
    = (es, mkIo q t i1 work false sh [] 0 false wi ru, Ok tt) /\ done_with es = []) as (es1 & i1 & Hwake & Hd1).
  { destruct (_ && _); [|by exists [], i].
    destruct (quiet_wake (mkIo q t i work false sh [] 0 false wi ru) eq_refl) as (es & Hw & Hd).
    by exists es, (i || t). }
  assert (exists es i2, work_finished (mkIo q t i1 work false sh [] 0 false (S wi) ru)
    = (es, mkIo q t i2 (work - 1) (work - 1 =? 0) sh [] 0 false (S wi) ru, Ok tt) /\
    done_with es = []) as (es2 & i2 & Hfinish & Hd2).
  { unfold work_finished. rewrite run_modify, run_get. cbn [set_outstanding outstanding_work_].
    destruct (work - 1 =? 0); [|by exists [], i1].
    destruct (quiet_interrupt (mkIo q t i1 (work - 1) true sh [] 0 false (S wi) ru)) as (es & Hi & Hd).
    exists (SignalAll :: es), (i1 || t). split; [|done]. cbn [when]. unfold stop_io, stop_all_threads.
    rewrite run_modify, run_emit. unfold set_stopped, set_outstanding. cbn [op_queue_ task_ task_interrupted_ outstanding_work_ shutdown_
      private_op_queue private_outstanding_work waiting window runs]. by rewrite Hi. }
  assert ((work_cleanup ;; (mret 1%nat)) (mkIo q t i1 work false sh [] 0 false (S wi) ru)
    = (es2 ++ [], mkIo (q ++ []) t i2 (work - 1) (work - 1 =? 0) sh [] 0 false (S wi) ru, Ok 1%nat)) as Hclean.
  { unfold work_cleanup. rewrite run_bind_bind, run_get. cbn [private_outstanding_work].
    change (1 <? 0) with false. change (0 <? 1) with true. cbn [when].
    rewrite run_bind_bind. erewrite run_bind_ok by exact Hfinish. done. }
  exists (es1 ++ [CompleteOperation id] ++ es2 ++ []).
  exists (mkIo (q ++ []) t i2 (work - 1) (work - 1 =? 0) sh [] 0 false (S wi) ru). split.
  { unfold run_operation. rewrite run_modify. cbn [set_op_queue].
    erewrite run_bind_ok by exact Hwake.
    rewrite (run_bind_ok (complete one_thread quiet_during id) _ _ [CompleteOperation id]
      (mkIo q t i1 work false sh [] 0 false (S wi) ru) tt) by done.
    rewrite Hclean. done. }
  rewrite !done_with_app, Hd1, Hd2. split; [done|]. rewrite (right_id_L [] (++)).
  unfold work. cbn [length].
  destruct (bool_decide_reflect (handlers q = [])) as [Hnil|Hnil]; cbn [stopped_ outstanding_work_].
  - rewrite Hnil. done.
  - pose proof (length_pos _ Hnil). split; cbn [op_queue_ stopped_ private_op_queue private_outstanding_work
      waiting outstanding_work_]; first [done | apply Z.eqb_neq; lia | lia].
Qed.

Lemma quiet_run_one fuel s q id ids :
  ready s q -> handlers q = id :: ids -> (leading q < fuel)%nat ->
  exists es s', do_run_one one_thread quiet_during quiet_reactor fuel s = (es, s', Ok 1%nat) /\
    done_with es = [id] /\
    if bool_decide (ids = []) then stopped_ s' = true /\ outstanding_work_ s' = 0
    else exists q', ready s' q' /\ handlers q' = ids /\ (length q' <= length q)%nat.
Proof.
  revert s q. induction fuel as [|fuel IH]; intros s q Hready Hids Hfuel; [lia|].
  cbn [do_run_one]. rewrite run_get, (ready_stopped _ _ Hready), (ready_queue _ _ Hready).
  destruct q as [|[|id'] q]; [done| |].
  - cbn [leading] in Hfuel. change (handlers (TaskOperation :: q)) with (handlers q) in Hids.
    destruct (quiet_task s q Hready) as (es1 & s1 & Hrun & Hd1 & Hready1); [by rewrite Hids|].
    erewrite run_bind_ok by exact Hrun.
    destruct (IH s1 (q ++ [TaskOperation]) Hready1) as (es & s' & -> & Hd & Hcase).
    { rewrite handlers_app, Hids. apply (right_id_L [] (++)). }
    { rewrite leading_task; [lia|]. by rewrite Hids. }
    do 2 eexists. split; [reflexivity|]. rewrite done_with_app, Hd1. split; [done|].
    rewrite length_app, Nat.add_1_r in Hcase. exact Hcase.
  - change (handlers (Operation id' :: q)) with (id' :: handlers q) in Hids. injection Hids as -> <-.
    destruct (quiet_handler s id q Hready) as (es & s' & Hrun & Hd & Hcase).
    exists es, s'. split; [done|]. split; [done|]. case_bool_decide; [done|].
    exists q. split_and!; [done|done|simpl; lia].
Qed.

Lemma quiet_run_all fuel inner s q ids n :
  ready s q -> handlers q = ids -> ids <> [] -> (S (length ids) < fuel)%nat -> (length q < inner)%nat ->
  0 <= n -> n + Z.of_nat (length ids) <= uint64_max ->
  exists es s', run_all fuel (do_run_one one_thread quiet_during quiet_reactor inner) n s
      = (es, s', Ok (n + Z.of_nat (length ids))) /\
    done_with es = ids /\ stopped_ s' = true /\ outstanding_work_ s' = 0.
Proof.
  revert s q ids n. induction fuel as [|fuel IH]; intros s q ids n Hready Hids Hne Hfuel Hinner Hn Hmax; [lia|].
  destruct ids as [|id ids]; [done|]. cbn [length] in *.
  destruct (quiet_run_one inner s q id ids Hready Hids) as (es1 & s1 & Hrun & Hd1 & Hcase).
  { pose proof (leading_length q). lia. }
  cbn [run_all]. erewrite run_bind_ok by exact Hrun. cbn [Nat.eqb].
  rewrite (proj2 (Z.eqb_neq n _)) by lia. case_bool_decide as Hnil.
  - subst ids. destruct Hcase as [Hst Hout]. destruct fuel as [|fuel]; [lia|]. cbn [run_all].
    destruct inner as [|inner]; [lia|]. cbn [do_run_one].
    assert ((get_state ≫= (fun s => if stopped_ s then (mret 0%nat : M nat) else
        match op_queue_ s with
        | [] => wait_event one_thread quiet_during None ;; (do_run_one one_thread quiet_during quiet_reactor inner)
        | TaskOperation :: q => run_task_operation one_thread quiet_during quiet_reactor true
            (fun more => if more then 0 else -1) q ;; (do_run_one one_thread quiet_during quiet_reactor inner)
        | Operation id :: q => run_operation one_thread quiet_during id q
        end)) s1 = ([], s1, Ok 0%nat)) as Hstop by (rewrite run_get, Hst; done).
    erewrite run_bind_ok by exact Hstop. cbn [Nat.eqb].
    exists (es1 ++ []), s1. split; [|by rewrite (right_id_L [] (++))].
    by rewrite after_nil.
  - destruct Hcase as (q' & Hready' & Hids' & Hlen).
    destruct (IH s1 q' ids (n + 1) Hready' Hids') as (es & s' & -> & Hd & Hst & Hout); [done|lia..|].
    exists (es1 ++ es), s'. rewrite done_with_app, Hd1, Hd. split_and!; [|done..].
    unfold after. do 2 f_equal. lia.
Qed.

Lemma quiet_run fuel s q :
  ready s q -> handlers q <> [] -> (length q + 2 < fuel)%nat -> Z.of_nat (length q) <= uint64_max ->
  exists es s', run_io one_thread quiet_during quiet_reactor fuel s
      = (es, s', Ok (Z.of_nat (length (handlers q)))) /\
    done_with es = handlers q /\ stopped_ s' = true /\ outstanding_work_ s' = 0.
Proof.
  intros Hready Hne Hfuel Hmax. unfold run_io, with_thread_info_all. rewrite run_get.
  pose proof (length_pos _ Hne) as Hpos. rewrite (ready_outstanding _ _ Hready), (proj2 (Z.eqb_neq _ _)) by lia.
  rewrite run_modify.
  assert (length (handlers q) <= length q)%nat as Hlen.
  { clear. induction q as [|[|id] q IH]; [done| |]; unfold handlers in *; cbn in *; lia. }
  apply (quiet_run_all fuel fuel _ q (handlers q) 0); [|done|done|lia..].
  by destruct Hready.
Qed.

End quiet.

(** ** Properties *)

(** The event loop executes every operation once.  Whatever the handlers, the
    other threads and the reactor do: when [run], [run_one], [wait_one], [poll]
    or [poll_one] returns, each operation that was queued before, posted in the
    meantime or completed by the reactor was either executed (or destroyed)
    once or is still queued once ([poll] is called outside of handlers here). *)
Theorem io_executes_each_once one_thread during reactor fuel usec s es s' :
  private_op_queue s = [] ->
  (exists n, run_io one_thread during reactor fuel s = (es, s', Ok n) \/
             poll_io one_thread during reactor [] fuel s = (es, s', Ok n)) \/
  (exists n, run_one_io one_thread during reactor fuel s = (es, s', Ok n) \/
             wait_one_io one_thread during reactor usec s = (es, s', Ok n) \/
             poll_one_io one_thread during reactor [] s = (es, s', Ok n)) ->
  done_with es ++ queued s' ≡ₚ queued s ++ arrived during reactor s s'.
Proof.
  intros Hs Hcases.
  enough (exists (A : Type) (m : comp IoScheduler IoEffect A) n, m s = (es, s', Ok n) /\
    conserves_at during reactor s [] m (fun _ => [])) as (A & m & n & Hrun & Hm).
  { destruct (Hm _ _ _ Hrun) as (_ & _ & Hp). by rewrite (right_id_L [] (++)) in Hp. }
  destruct Hcases as [[n [Hrun|Hrun]]|[n [Hrun|[Hrun|Hrun]]]].
  all: do 3 eexists; split; [exact Hrun|]; apply thread_info_conserves; [|done].
  - apply run_all_conserves, do_run_one_conserves.
  - apply conserves_then; [apply take_outer_conserves|]. intros ?. apply run_all_conserves, do_poll_one_conserves.
  - apply do_run_one_conserves.
  - apply do_wait_one_conserves.
  - apply conserves_then; [apply take_outer_conserves|]. intros ?. apply do_poll_one_conserves.
Qed.

(** The event loop drains its queue and returns.  While nobody else calls the
    scheduler, [run] executes the queued handlers in their order, returns their
    number and leaves the scheduler stopped, as soon as the work is done; on a
    stopped scheduler, or one without work, it returns 0 and executes nothing
    until [restart]. *)
Theorem io_run_drains one_thread fuel s q :
  (length q + 2 < fuel)%nat -> Z.of_nat (length q) <= uint64_max ->
  (ready s q -> handlers q <> [] ->
   exists es s', run_io one_thread (fun _ => []) (fun _ => []) fuel s
       = (es, s', Ok (Z.of_nat (length (handlers q)))) /\
     done_with es = handlers q /\ stopped_ s' = true /\ outstanding_work_ s' = 0) /\
  (stopped_ s = true \/ outstanding_work_ s = 0 -> forall during reactor,
   exists es s', run_io one_thread during reactor fuel s = (es, s', Ok 0) /\
     done_with es = [] /\ stopped_ s' = true).
Proof.
  intros Hfuel Hmax. split; [intros; by apply quiet_run|].
  intros Hstop during reactor. unfold run_io, with_thread_info_all. rewrite run_get.
  destruct (Z.eqb_spec (outstanding_work_ s) 0) as [_|Hwork].
  - unfold stop_io, stop_all_threads. rewrite !run_bind_bind, run_modify, !run_bind_bind, run_emit.
    destruct (quiet_interrupt (set_stopped true s)) as (es & Hi & Hd).
    erewrite run_bind_ok by exact Hi. do 2 eexists. split; [reflexivity|].
    cbn [app]. split; [|done]. unfold done_with in *. cbn. by rewrite omap_app, Hd.
  - destruct Hstop as [Hst|]; [|done]. rewrite run_modify. destruct fuel as [|fuel]; [lia|].
    assert (do_run_one one_thread during reactor (S fuel) (set_private [] 0 s)
      = ([], set_private [] 0 s, Ok 0%nat)) as Hone.
    { cbn [do_run_one]. rewrite run_get. change (stopped_ (set_private [] 0 s)) with (stopped_ s). by rewrite Hst. }
    cbn [run_all]. erewrite run_bind_ok by exact Hone.
    by do 2 eexists.
Qed.

(** ** Examples *)

(** Three operations; the handler of the first posts a continuation and stops. *)
Definition example_io : IoScheduler :=
  mkIo [Operation 1; TaskOperation; Operation 2; Operation 3] true true 3 false false [] 0 false 0 0.

Definition example_during (k : nat) : list (bool * IoCall) :=
  match k with
  | O => [(true, PostImmediateCompletion 9 true); (false, PostImmediateCompletion 8 false); (true, StopIo)]
  | _ => []
  end.

Lemma io_executes_each_once_witness :
  exists es s', run_io false example_during (fun _ => []) 9 example_io = (es, s', Ok 1) /\
    done_with es = [1%nat] /\ [1%nat] ++ queued s' ≡ₚ [1%nat; 2%nat; 3%nat] ++ [9%nat; 8%nat].
Proof.
  destruct (run_io false example_during (fun _ => []) 9 example_io) as [[es s'] r] eqn:Hrun.
  pose proof Hrun as Heq. vm_compute in Heq. injection Heq as <- <- <-.
  do 2 eexists. split; [reflexivity|]. split; [reflexivity|].
  exact (io_executes_each_once false example_during (fun _ => []) 9 0 example_io _ _
    eq_refl (or_introl (ex_intro _ 1 (or_introl Hrun)))).
Defined.

Lemma io_run_drains_witness :
  exists es s', run_io false (fun _ => []) (fun _ => []) 9 example_io = (es, s', Ok 3) /\
    done_with es = [1%nat; 2%nat; 3%nat] /\ stopped_ s' = true /\ outstanding_work_ s' = 0.
Proof.
  apply (io_run_drains false 9 example_io [Operation 1; TaskOperation; Operation 2; Operation 3]).
  - simpl. lia.
  - simpl. lia.
  - by split.
  - discriminate.
Defined.
