(* ===== verification/AsioThreads.v ===== *)
(** * asio: an event loop that many threads run and call

    AsioScheduler.v is the loop of one thread.  Here any number of threads call
    [run] on one [io_context], and these and others post operations and stop it.  A
    thread is at one of a few program points; a step is what it does between two
    points at which others can interfere: a section under the mutex of the
    scheduler, one access to the atomic count of work, the call that wakes another
    thread after the mutex was released, a return of the reactor.  A thread that
    waits for the event may also wake up spuriously, and a signal for a thread that
    does not sleep yet is lost, as for any condition variable. *)
From S2P Require Import Prelude AsioScheduler.
Local Open Scope Z_scope.

(** ** class posix_event

    The member [state_]: the lowest bit is set when the event is signalled, the
    others count the waiting threads. *)
Module posix_event.

Definition new_event : Z := 0.

Definition signal_all (state : Z) : Z := Z.lor state 1.

(** The new state and [have_waiters]; [maybe_unlock_and_signal_one] makes the same
    test. *)
Definition unlock_and_signal_one (state : Z) : Z * bool := (Z.lor state 1, 1 <? Z.lor state 1).

Definition clear (state : Z) : Z := Z.ldiff state 1.

Definition signalled (state : Z) : bool := negb (Z.land state 1 =? 0).

(** Around [pthread_cond_wait]. *)
Definition begin_wait (state : Z) : Z := u64 (state + 2).
Definition end_wait (state : Z) : Z := u64 (state - 2).

End posix_event.

(** ** Threads *)

(** Outside of [run], or in [o->complete ()] of an operation. *)
Inductive Place := Outside | InHandler (op : nat).

(** What follows a section or a signal. *)
Inductive Next :=
| Back (p : Place)
| NextTask
| NextLoop.

(** What a thread is about to lock the mutex for. *)
Inductive Section :=
| PushOps (ops : list nat)     (* [op_queue_.push (...); wake_one_thread_and_unlock (lock);] *)
| Stop
| Init.

Inductive Pc :=
| At (p : Place)               (* free to call the scheduler *)
| Locking (c : Section) (n : Next)
| Signalling (n : Next)        (* released the mutex, about to call [pthread_cond_signal] *)
| RunLock                      (* about to lock the mutex in [run] *)
| RunTask (block : bool)       (* in [task_->run (...)] *)
| TaskDone                     (* it has returned *)
| TaskLock                     (* about to lock the mutex in [~task_cleanup] *)
| Waiting                      (* asleep in [pthread_cond_wait] *)
| Woken.                       (* about to lock the mutex again in it *)

Record Thr := mkThr {
  pc : Pc;
  private_ops : list nat;
  private_work : Z;
}.

(** class [scheduler]; [poked] says that the interrupter of the reactor is ready. *)
Record Loop := mkLoop {
  op_queue_ : list IoOp;
  task_ : bool;
  task_interrupted_ : bool;
  outstanding_work_ : Z;
  stopped_ : bool;
  wakeup_event_ : Z;
  poked : bool;
  threads : gmap nat Thr;
}.

(** [Given]: an operation enters the scheduler. *)
Inductive Event := Given (op : nat) | Completed (op : nat).

(** The public calls. *)
Inductive Call :=
| CallPost (op : nat) (is_continuation : bool)
| CallDeferred (ops : list nat)
| CallDispatch (op : nat)
| CallWorkStarted
| CallWorkFinished
| CallCompensating
| CallStop
| CallInit
| CallRun.

(** What decides a step: nothing, or the thread that a signal wakes, the call a
    thread makes, the end of a handler, what the reactor returns and whether it
    took note of the interrupter, a spurious wake-up. *)
Inductive Choice :=
| Go
| Wake (j : nat)
| Make (c : Call)
| Finish
| Return (ops : list nat) (consumed : bool)
| Spurious.

Section setters.
Implicit Types (s : Loop).
Definition set_queue x s := mkLoop x (task_ s) (task_interrupted_ s) (outstanding_work_ s) (stopped_ s) (wakeup_event_ s) (poked s) (threads s).
Definition set_task x s := mkLoop (op_queue_ s) x (task_interrupted_ s) (outstanding_work_ s) (stopped_ s) (wakeup_event_ s) (poked s) (threads s).
Definition set_interrupted x s := mkLoop (op_queue_ s) (task_ s) x (outstanding_work_ s) (stopped_ s) (wakeup_event_ s) (poked s) (threads s).
Definition set_work x s := mkLoop (op_queue_ s) (task_ s) (task_interrupted_ s) x (stopped_ s) (wakeup_event_ s) (poked s) (threads s).
Definition set_stopped s := mkLoop (op_queue_ s) (task_ s) (task_interrupted_ s) (outstanding_work_ s) true (wakeup_event_ s) (poked s) (threads s).
Definition set_event x s := mkLoop (op_queue_ s) (task_ s) (task_interrupted_ s) (outstanding_work_ s) (stopped_ s) x (poked s) (threads s).
Definition set_poked x s := mkLoop (op_queue_ s) (task_ s) (task_interrupted_ s) (outstanding_work_ s) (stopped_ s) (wakeup_event_ s) x (threads s).
Definition set_threads x s := mkLoop (op_queue_ s) (task_ s) (task_interrupted_ s) (outstanding_work_ s) (stopped_ s) (wakeup_event_ s) (poked s) x.
End setters.

(** The constructor; every thread is outside of [run]. *)
Definition new_loop (ids : gset nat) : Loop :=
  mkLoop [] false true 0 false posix_event.new_event false (gset_to_gmap (mkThr (At Outside) [] 0) ids).

Section steps.
Context (one_thread : bool).
Implicit Types (s : Loop) (t : Thr) (i : nat).

(** ** Sections under the mutex *)

Definition goto i t s : Loop := set_threads (<[i := t]> (threads s)) s.

Definition with_pc (p : Pc) t : Thr := mkThr p (private_ops t) (private_work t).

Definition next_pc (n : Next) : Pc :=
  match n with Back p => At p | NextTask => RunTask false | NextLoop => RunLock end.

Definition add_work (n : Z) s : Loop := set_work (outstanding_work_ s + n) s.
Definition push (os : list IoOp) s : Loop := set_queue (op_queue_ s ++ os) s.

Definition interrupt_task s : Loop :=
  if negb (task_interrupted_ s) && task_ s then set_poked true (set_interrupted true s) else s.

(** Thread [i] goes on with [n]. *)
Definition wake_one_thread_and_unlock i t (n : Next) s : Loop :=
  let '(e, have_waiters) := posix_event.unlock_and_signal_one (wakeup_event_ s) in
  if have_waiters then goto i (with_pc (Signalling n) t) (set_event e s)
  else goto i (with_pc (next_pc n) t) (interrupt_task (set_event e s)).

(** [pthread_cond_broadcast] *)
Definition wake t : Thr := match pc t with Waiting => with_pc Woken t | _ => t end.

Definition stop_all_threads s : Loop :=
  interrupt_task (set_event (posix_event.signal_all (wakeup_event_ s)) (set_threads (wake <$> threads s) (set_stopped s))).

(** The loop of [do_run_one] from the test of [stopped_] until the mutex is
    released; where it returns, so does [run]. *)
Definition do_run_one i t s : list Event * Loop :=
  if stopped_ s then ([], goto i (with_pc (At Outside) t) s)
  else
    match op_queue_ s with
    | [] =>
        let e := posix_event.begin_wait (posix_event.clear (wakeup_event_ s)) in
        ([], goto i (with_pc Waiting t) (set_event e s))
    | TaskOperation :: rest =>
        let more_handlers := negb (bool_decide (rest = [])) in
        let s := set_interrupted more_handlers (set_queue rest s) in
        if more_handlers && negb one_thread then
          let '(e, have_waiters) := posix_event.unlock_and_signal_one (wakeup_event_ s) in
          ([], goto i (with_pc (if have_waiters : bool then Signalling NextTask else RunTask false) t) (set_event e s))
        else ([], goto i (with_pc (RunTask (negb more_handlers)) t) s)
    | Operation op :: rest =>
        let s := set_queue rest s in
        if negb (bool_decide (rest = [])) && negb one_thread then
          ([Completed op], wake_one_thread_and_unlock i t (Back (InHandler op)) s)
        else ([Completed op], goto i (with_pc (At (InHandler op)) t) s)
    end.

(** ** Calls and the ends of handlers *)

Definition inside (p : Place) : bool := match p with InHandler _ => true | Outside => false end.

(** [None]: the thread information that [compensating_work_started] needs does not
    exist; and a handler does not call [run]. *)
Definition make_call i t (p : Place) (c : Call) s : option (list Event * Loop) :=
  match c with
  | CallPost op is_continuation =>
      Some ([Given op],
        if (one_thread || is_continuation) && inside p
        then goto i (mkThr (At p) (private_ops t ++ [op]) (private_work t + 1)) s
        else goto i (with_pc (Locking (PushOps [op]) (Back p)) t) (add_work 1 s))
  | CallDeferred ops =>
      Some (Given <$> ops,
        if bool_decide (ops = []) then s
        else if one_thread && inside p then goto i (mkThr (At p) (private_ops t ++ ops) (private_work t)) s
        else goto i (with_pc (Locking (PushOps ops) (Back p)) t) s)
  | CallDispatch op => Some ([Given op], goto i (with_pc (Locking (PushOps [op]) (Back p)) t) (add_work 1 s))
  | CallWorkStarted => Some ([], add_work 1 s)
  | CallWorkFinished =>
      let s := add_work (-1) s in
      Some ([], if outstanding_work_ s =? 0 then goto i (with_pc (Locking Stop (Back p)) t) s else s)
  | CallCompensating =>
      if inside p then Some ([], goto i (mkThr (At p) (private_ops t) (private_work t + 1)) s) else None
  | CallStop => Some ([], goto i (with_pc (Locking Stop (Back p)) t) s)
  | CallInit => Some ([], goto i (with_pc (Locking Init (Back p)) t) s)
  | CallRun =>
      if inside p then None
      else Some ([], if outstanding_work_ s =? 0 then goto i (with_pc (Locking Stop (Back Outside)) t) s
                     else goto i (mkThr RunLock [] 0) s)
  end.

(** [~work_cleanup] up to the mutex. *)
Definition work_cleanup i t s : Loop :=
  if 1 <? private_work t then goto i (mkThr RunLock (private_ops t) 0) (add_work (private_work t - 1) s)
  else if private_work t <? 1 then
    let s := add_work (-1) s in
    goto i (mkThr (if outstanding_work_ s =? 0 then Locking Stop NextLoop else RunLock) (private_ops t) 0) s
  else goto i (mkThr RunLock (private_ops t) 0) s.

(** ** Steps *)

Definition is_waiting t : bool := match pc t with Waiting => true | _ => false end.

(** One step of thread [i]; [None] where it cannot make that step. *)
Definition step i (c : Choice) s : option (list Event * Loop) :=
  t ← threads s !! i;
  match pc t, c with
  | At p, Make call => make_call i t p call s
  | At (InHandler _), Finish => Some ([], work_cleanup i t s)
  | Locking (PushOps ops) n, Go => Some ([], wake_one_thread_and_unlock i t n (push (Operation <$> ops) s))
  | Locking Stop n, Go => Some ([], goto i (with_pc (next_pc n) t) (stop_all_threads s))
  | Locking Init n, Go =>
      Some ([], if task_ s then goto i (with_pc (next_pc n) t) s
                else wake_one_thread_and_unlock i t n (push [TaskOperation] (set_task true s)))
  | Signalling n, Wake j =>
      u ← threads s !! j;
      if is_waiting u then Some ([], goto i (with_pc (next_pc n) t) (goto j (with_pc Woken u) s)) else None
  | Signalling n, Go =>
      if bool_decide (map_Forall (fun _ u => is_waiting u = false) (threads s))
      then Some ([], goto i (with_pc (next_pc n) t) s) else None
  | RunLock, Go =>
      Some (do_run_one i (mkThr RunLock [] (private_work t)) (push (Operation <$> private_ops t) s))
  | RunTask _, Return ops consumed =>
      Some (Given <$> ops, goto i (mkThr TaskDone (private_ops t ++ ops) (private_work t))
                             (set_poked (poked s && negb consumed) s))
  | TaskDone, Go => Some ([], goto i (mkThr TaskLock (private_ops t) 0) (add_work (Z.max 0 (private_work t)) s))
  | TaskLock, Go =>
      Some (do_run_one i (mkThr RunLock [] 0)
              (push ((Operation <$> private_ops t) ++ [TaskOperation]) (set_interrupted true s)))
  | Waiting, Spurious => Some ([], goto i (with_pc Woken t) s)
  | Woken, Go =>
      let e := posix_event.end_wait (wakeup_event_ s) in
      if posix_event.signalled e then Some (do_run_one i (with_pc RunLock t) (set_event e s))
      else Some ([], goto i (with_pc Waiting t) (set_event (posix_event.begin_wait e) s))
  | _, _ => None
  end.

Fixpoint steps (schedule : list (nat * Choice)) s : option (list Event * Loop) :=
  match schedule with
  | [] => Some ([], s)
  | (i, c) :: schedule =>
      '(es, s) ← step i c s;
      '(es', s) ← steps schedule s;
      Some (es ++ es', s)
  end.

End steps.

(** ** The event *)

(** The event with [n] waiting threads, signalled or not. *)
Definition event_of (b : bool) (n : nat) : Z := Z.b2z b + 2 * Z.of_nat n.

Lemma event_bit b n : Z.land (event_of b n) 1 = Z.b2z b.
Proof.
  change 1 with (Z.ones 1). rewrite Z.land_ones by done. unfold event_of. change (2 ^ 1) with 2.
  rewrite Z.add_comm, Z.mul_comm, Z.add_comm, Z.mod_add by done. by destruct b.
Qed.

Lemma event_signalled b n : posix_event.signalled (event_of b n) = b.
Proof. unfold posix_event.signalled. rewrite event_bit. by destruct b. Qed.

Lemma event_signal_all b n : posix_event.signal_all (event_of b n) = event_of true n.
Proof.
  unfold posix_event.signal_all. pose proof (Z.add_lor_land (event_of b n) 1) as Hsum. rewrite event_bit in Hsum.
  unfold event_of in *. destruct b; cbn [Z.b2z] in *; lia.
Qed.

Lemma event_signal_one b n : posix_event.unlock_and_signal_one (event_of b n) = (event_of true n, negb (n =? 0)%nat).
Proof.
  unfold posix_event.unlock_and_signal_one. fold (posix_event.signal_all (event_of b n)). rewrite event_signal_all.
  f_equal. unfold event_of. cbn [Z.b2z]. destruct (Nat.eqb_spec n 0); lia.
Qed.

Lemma event_clear b n : posix_event.clear (event_of b n) = event_of false n.
Proof.
  unfold posix_event.clear. change 1 with (Z.ones 1). rewrite Z.ldiff_ones_r by done.
  rewrite Z.shiftl_mul_pow2, Z.shiftr_div_pow2 by done. change (2 ^ 1) with 2. unfold event_of. cbn [Z.b2z].
  rewrite (Z.mul_comm 2), Z.div_add by done. by destruct b.
Qed.

Lemma event_begin b n : Z.of_nat n < 2 ^ 62 -> posix_event.begin_wait (event_of b n) = event_of b (S n).
Proof. intros Hn. unfold posix_event.begin_wait, u64, event_of. rewrite Z.mod_small; destruct b; cbn [Z.b2z]; lia. Qed.

Lemma event_end b n : Z.of_nat (S n) < 2 ^ 62 -> posix_event.end_wait (event_of b (S n)) = event_of b n.
Proof. intros Hn. unfold posix_event.end_wait, u64, event_of. rewrite Z.mod_small; destruct b; cbn [Z.b2z]; lia. Qed.

Definition next_runs (n : Next) : bool := match n with Back Outside => false | _ => true end.

(** Inside [run]. *)
Definition runs t : bool :=
  match pc t with
  | At p => inside p
  | Locking _ n | Signalling n => next_runs n
  | _ => true
  end.

Definition sleeps t : bool := match pc t with Waiting | Woken => true | _ => false end.

(** ** Accounting for the operations *)

Definition given (es : list Event) : list nat := omap (fun e => match e with Given op => Some op | Completed _ => None end) es.
Definition completed (es : list Event) : list nat := omap (fun e => match e with Completed op => Some op | Given _ => None end) es.
Definition queued (q : list IoOp) : list nat := omap (fun o => match o with Operation op => Some op | TaskOperation => None end) q.

(** The operations a thread has in its private queue or is about to push. *)
Definition in_hand (t : Thr) : list nat :=
  private_ops t ++ match pc t with Locking (PushOps ops) _ => ops | _ => [] end.

Definition held (s : Loop) : list nat := queued (op_queue_ s) ++ gather in_hand (threads s).

(** A step of thread [i]. *)
Definition accounts (s : Loop) (es : list Event) (s' : Loop) : Prop := given es ++ held s ≡ₚ completed es ++ held s'.

Lemma held_step s i t t' es s' : threads s !! i = Some t -> threads s' = <[i := t']> (threads s) ->
  given es ++ queued (op_queue_ s) ++ in_hand t ≡ₚ completed es ++ queued (op_queue_ s') ++ in_hand t' -> accounts s es s'.
Proof.
  intros Hi Hs' Hstep. unfold accounts, held. rewrite Hs'. rewrite (gather_lookup in_hand _ _ _ Hi), gather_set.
  rewrite !app_assoc in *. by rewrite Hstep.
Qed.

Lemma accounts_trans s s1 s2 : accounts s [] s1 -> accounts s1 [] s2 -> accounts s [] s2.
Proof. unfold accounts. cbn. intros -> ->. done. Qed.

Lemma queued_app q q' : queued (q ++ q') = queued q ++ queued q'.
Proof. apply omap_app. Qed.

Lemma queued_ops ops : queued (Operation <$> ops) = ops.
Proof. unfold queued. induction ops as [|op ops IH]; [done|]. cbn. by rewrite IH. Qed.

Lemma given_ops ops : given (Given <$> ops) = ops.
Proof. unfold given. induction ops as [|op ops IH]; [done|]. cbn. by rewrite IH. Qed.

Lemma completed_ops ops : completed (Given <$> ops) = [].
Proof. unfold completed. by induction ops. Qed.

Lemma interrupt_queue s : op_queue_ (interrupt_task s) = op_queue_ s.
Proof. unfold interrupt_task. by destruct (_ && _). Qed.

Lemma interrupt_threads s : threads (interrupt_task s) = threads s.
Proof. unfold interrupt_task. by destruct (_ && _). Qed.

Lemma next_in_hand t n : in_hand (with_pc (next_pc n) t) = private_ops t.
Proof. unfold in_hand. destruct n as [[]| |]; apply app_nil_r. Qed.

Lemma wake_one_shape i t n s : op_queue_ (wake_one_thread_and_unlock i t n s) = op_queue_ s /\
  exists t', threads (wake_one_thread_and_unlock i t n s) = <[i := t']> (threads s) /\
    in_hand t' = private_ops t /\ private_ops t' = private_ops t /\ runs t' = next_runs n /\ sleeps t' = false.
Proof.
  unfold wake_one_thread_and_unlock. cbn. destruct (1 <? _).
  - split; [done|]. eexists. split; [done|]. split; [apply app_nil_r|done].
  - cbn. rewrite interrupt_queue, interrupt_threads. split; [done|]. eexists. split; [done|].
    split; [apply next_in_hand|]. by destruct n as [[]| |].
Qed.

Lemma do_run_one_shape one_thread i t s : let r := do_run_one one_thread i t s in
  given r.1 = [] /\ queued (op_queue_ s) = completed r.1 ++ queued (op_queue_ r.2) /\
  exists t', threads r.2 = <[i := t']> (threads s) /\ in_hand t' = private_ops t /\ private_ops t' = private_ops t.
Proof.
  assert (forall p, (forall ops n, p <> Locking (PushOps ops) n) -> in_hand (with_pc p t) = private_ops t) as Hhand.
  { intros p Hp. unfold in_hand. cbn. destruct p as [|[]| | | | | | |]; try apply app_nil_r. by destruct (Hp ops n). }
  unfold do_run_one. destruct (stopped_ s).
  { split; [done|]. split; [done|]. eexists. split; [done|]. by rewrite Hhand. }
  destruct (op_queue_ s) as [|[|op] rest] eqn:Hq.
  - cbn. rewrite Hq. split; [done|]. split; [done|]. eexists. split; [done|]. by rewrite Hhand.
  - destruct (_ && _); cbn; (split; [done|]; split; [done|]); eexists; (split; [done|]); rewrite Hhand; try done.
    by destruct (1 <? _).
  - destruct (_ && _).
    + cbn [fst snd]. destruct (wake_one_shape i t (Back (InHandler op)) (set_queue rest s)) as [-> (t' & Ht & Hp & Hp' & _)].
      split; [done|]. split; [done|]. by exists t'.
    + split; [done|]. split; [done|]. eexists. split; [done|]. by rewrite Hhand.
Qed.

Lemma do_run_one_accounts one_thread s i t u q s1 : threads s !! i = Some t -> threads s1 = threads s ->
  op_queue_ s1 = op_queue_ s ++ q -> in_hand t = private_ops u ++ queued q ->
  accounts s (do_run_one one_thread i u s1).1 (do_run_one one_thread i u s1).2.
Proof.
  intros Hi Hth Hq Hhand. destruct (do_run_one_shape one_thread i u s1) as (Hg & Hc & t' & Ht' & Hu & _).
  apply (held_step s i t t'); [done|by rewrite Ht', Hth|]. rewrite Hg, Hu, Hhand. rewrite Hq, queued_app in Hc.
  rewrite (app_assoc (completed _)), <- Hc. cbn. solve_Permutation.
Qed.

(** A thread that is outside of [run], or asleep, has nothing in its private queue. *)
Definition tidy (t : Thr) : Prop := runs t = false \/ sleeps t = true -> private_ops t = [].

Lemma make_call_accounts one_thread i t p c s es s' : threads s !! i = Some t -> pc t = At p -> tidy t ->
  make_call one_thread i t p c s = Some (es, s') -> accounts s es s'.
Proof.
  intros Hi Hpc Htidy Hcall. assert (in_hand t = private_ops t) as Hhand by (unfold in_hand; rewrite Hpc; apply app_nil_r).
  assert (forall t' es w, completed es = [] -> in_hand t' ≡ₚ given es ++ private_ops t ->
    accounts s es (goto i t' (set_work w s))) as Hgo.
  { intros t' es' w Hc Ht'. apply (held_step s i t t'); [done..|]. rewrite Hc, Ht', Hhand. cbn. solve_Permutation. }
  assert (forall t' es, completed es = [] -> in_hand t' ≡ₚ given es ++ private_ops t -> accounts s es (goto i t' s)) as Hgo'
    by (intros t' es'; apply (Hgo t' es' (outstanding_work_ s))).
  assert (forall l n, in_hand (with_pc (Locking (PushOps l) n) t) ≡ₚ l ++ private_ops t) as Hlock
    by (intros l n; unfold in_hand; cbn; solve_Permutation).
  assert (forall q l w, in_hand (mkThr (At q) l w) = l) as Hat by (intros q l w; apply app_nil_r).
  assert (forall k n, k = Stop \/ k = Init -> in_hand (with_pc (Locking k n) t) = private_ops t) as Hlocks
    by (intros k n [-> | ->]; apply app_nil_r).
  destruct c as [op cont|ops|op| | | | | |]; cbn in Hcall.
  - destruct (_ && _); simplify_eq; [apply Hgo'|apply Hgo]; try done. rewrite Hat. cbn. solve_Permutation.
  - case_bool_decide as Hops; [|destruct (_ && _)]; simplify_eq.
    + by unfold accounts.
    + apply Hgo'; [apply completed_ops|]. rewrite Hat, given_ops. solve_Permutation.
    + apply Hgo'; [apply completed_ops|]. by rewrite given_ops.
  - simplify_eq. by apply Hgo.
  - simplify_eq. by unfold accounts.
  - destruct (_ =? 0); simplify_eq; [apply Hgo; [done|]|by unfold accounts]. rewrite Hlocks by auto. done.
  - destruct (inside p); simplify_eq. apply Hgo'; [done|]. by rewrite Hat.
  - simplify_eq. apply Hgo'; [done|]. by rewrite Hlocks by auto.
  - simplify_eq. apply Hgo'; [done|]. by rewrite Hlocks by auto.
  - destruct (inside p) eqn:Hin; [done|]. destruct (_ =? 0); simplify_eq; (apply Hgo'; [done|]); [by rewrite Hlocks by auto|].
    rewrite Htidy; [done|]. left. unfold runs. by rewrite Hpc.
Qed.

Lemma work_cleanup_accounts i t op s : threads s !! i = Some t -> pc t = At (InHandler op) -> accounts s [] (work_cleanup i t s).
Proof.
  intros Hi Hpc. unfold work_cleanup.
  assert (forall p w w', p = RunLock \/ p = Locking Stop NextLoop ->
    accounts s [] (goto i (mkThr p (private_ops t) w) (set_work w' s))) as Hgo.
  { intros p w w' Hp. apply (held_step s i t (mkThr p (private_ops t) w)); [done..|]. unfold in_hand. rewrite Hpc. by destruct Hp as [-> | ->]. }
  destruct (1 <? _); [by apply Hgo; left|]. destruct (_ <? 1); [|apply (Hgo _ _ (outstanding_work_ s)); by left].
  apply Hgo. destruct (_ =? 0); auto.
Qed.

Lemma step_accounts one_thread s i c es s' : map_Forall (fun _ => tidy) (threads s) ->
  step one_thread i c s = Some (es, s') -> accounts s es s'.
Proof.
  intros Htidy Hstep. unfold step in Hstep. destruct (threads s !! i) as [t|] eqn:Hi; [|done]. cbn [mbind option_bind] in Hstep.
  pose proof (Htidy i t Hi) as Ht.
  destruct (pc t) as [p|k n|n| |block| | | |] eqn:Hpc.
  - destruct c as [|j|call| |ops' consumed|]; try (by destruct p).
    + apply (make_call_accounts one_thread i t p call s es s'); [done..|]. destruct p; exact Hstep.
    + destruct p as [|op]; simplify_eq. apply (work_cleanup_accounts i t op s Hi Hpc).
  - destruct k as [ops| |], c; try discriminate Hstep; injection Hstep as <- <-.
    + destruct (wake_one_shape i t n (push (Operation <$> ops) s)) as [Hq (t' & Ht' & Hp & _)].
      apply (held_step s i t t'); [done..|]. rewrite Hp, Hq. unfold in_hand. rewrite Hpc. cbn.
      rewrite queued_app, queued_ops. solve_Permutation.
    + assert (threads (stop_all_threads s) = wake <$> threads s) as Hw by (unfold stop_all_threads; by rewrite interrupt_threads).
      assert (accounts s [] (stop_all_threads s)) as Hs.
      { unfold accounts, held, stop_all_threads. rewrite interrupt_queue, interrupt_threads. cbn. rewrite gather_fmap; [done|].
        intros u. unfold in_hand, wake. by destruct (pc u) eqn:Hu; rewrite ?Hu. }
      assert (threads (stop_all_threads s) !! i = Some t) as Hi' by (rewrite Hw, lookup_fmap, Hi; cbn; unfold wake; by rewrite Hpc).
      apply (accounts_trans _ _ _ Hs), (held_step _ i t (with_pc (next_pc n) t)); [done..|]. rewrite next_in_hand.
      unfold in_hand. by rewrite Hpc, app_nil_r.
    + assert (in_hand t = private_ops t) as Hhand by (unfold in_hand; rewrite Hpc; apply app_nil_r).
      destruct (task_ s).
      * apply (held_step s i t (with_pc (next_pc n) t)); [done..|]. by rewrite next_in_hand, Hhand.
      * destruct (wake_one_shape i t n (push [TaskOperation] (set_task true s))) as [Hq (t' & Ht' & Hp & _)].
        apply (held_step s i t t'); [done..|]. rewrite Hp, Hq, Hhand. cbn. rewrite queued_app. cbn. solve_Permutation.
  - assert (in_hand t = private_ops t) as Hhand by (unfold in_hand; rewrite Hpc; apply app_nil_r).
    destruct c as [|j| | | |]; try discriminate Hstep.
    + case_bool_decide; simplify_eq. apply (held_step s i t (with_pc (next_pc n) t)); [done..|]. by rewrite next_in_hand, Hhand.
    + destruct (threads s !! j) as [u|] eqn:Hj; [|done]. cbn [mbind option_bind] in Hstep. destruct (is_waiting u) eqn:Hu; simplify_eq.
      assert (j <> i) as Hne by (intros ->; unfold is_waiting in Hu; simplify_eq; by rewrite Hpc in Hu).
      assert (accounts s [] (goto j (with_pc Woken u) s)) as Hs.
      { apply (held_step s j u (with_pc Woken u)); [done..|]. unfold in_hand, is_waiting in *. by destruct (pc u). }
      apply (accounts_trans _ _ _ Hs), (held_step _ i t (with_pc (next_pc n) t)); [by cbn; rewrite lookup_insert_ne|done|].
      by rewrite next_in_hand, Hhand.
  - destruct c; try discriminate Hstep. injection Hstep as Hrun.
    change es with (es, s').1. change s' with (es, s').2 at 2. rewrite <- Hrun.
    apply (do_run_one_accounts _ s i t _ (Operation <$> private_ops t)); [done..|]. cbn. rewrite queued_ops.
    unfold in_hand. rewrite Hpc. apply app_nil_r.
  - destruct c; simplify_eq. apply (held_step s i t (mkThr TaskDone (private_ops t ++ ops) (private_work t))); [done..|].
    rewrite given_ops, completed_ops. unfold in_hand. rewrite Hpc. cbn. solve_Permutation.
  - destruct c; simplify_eq. apply (held_step s i t (mkThr TaskLock (private_ops t) 0)); [done..|].
    unfold in_hand. by rewrite Hpc.
  - destruct c; try discriminate Hstep. injection Hstep as Hrun.
    change es with (es, s').1. change s' with (es, s').2 at 2. rewrite <- Hrun.
    apply (do_run_one_accounts _ s i t _ ((Operation <$> private_ops t) ++ [TaskOperation])); [done..|].
    rewrite queued_app, queued_ops. cbn. unfold in_hand. by rewrite Hpc.
  - destruct c; simplify_eq. apply (held_step s i t (with_pc Woken t)); [done..|]. unfold in_hand. by rewrite Hpc.
  - destruct c; try discriminate Hstep. cbn beta zeta in Hstep. destruct (posix_event.signalled _).
    + injection Hstep as Hrun. change es with (es, s').1. change s' with (es, s').2 at 2. rewrite <- Hrun.
      apply (do_run_one_accounts _ s i t _ []); [done..|by rewrite app_nil_r|]. unfold in_hand. by rewrite Hpc.
    + simplify_eq. apply (held_step s i t (with_pc Waiting t)); [done..|]. unfold in_hand. by rewrite Hpc.
Qed.

Lemma goto_tidy i t' s : map_Forall (fun _ => tidy) (threads s) -> tidy t' -> map_Forall (fun _ => tidy) (threads (goto i t' s)).
Proof. intros Hs Ht. by apply map_Forall_insert_2. Qed.

Lemma wake_one_tidy i t n s : map_Forall (fun _ => tidy) (threads s) -> (next_runs n = false -> private_ops t = []) ->
  map_Forall (fun _ => tidy) (threads (wake_one_thread_and_unlock i t n s)).
Proof.
  intros Hs Hn. destruct (wake_one_shape i t n s) as (_ & t' & -> & _ & Hp & Hr & Hsl). apply map_Forall_insert_2; [|done].
  intros Hcase. rewrite Hp. apply Hn. rewrite Hr, Hsl in Hcase. by destruct Hcase.
Qed.

Lemma do_run_one_tidy one_thread i t s : map_Forall (fun _ => tidy) (threads s) -> private_ops t = [] ->
  map_Forall (fun _ => tidy) (threads (do_run_one one_thread i t s).2).
Proof.
  intros Hs Ht. destruct (do_run_one_shape one_thread i t s) as (_ & _ & t' & -> & _ & Hp). apply map_Forall_insert_2; [|done].
  intros _. congruence.
Qed.

Lemma make_call_tidy one_thread i t p c s es s' : map_Forall (fun _ => tidy) (threads s) ->
  (inside p = false -> private_ops t = []) -> make_call one_thread i t p c s = Some (es, s') ->
  map_Forall (fun _ => tidy) (threads s').
Proof.
  intros Hs Hp Hcall.
  assert (forall t', (inside p = false -> private_ops t' = []) -> sleeps t' = false ->
    (inside p = true -> runs t' = true) -> tidy t') as Htidy
    by (intros t' Ht' Hsl Hr [Hr'|Hsl']; destruct (inside p); auto; [|congruence]; rewrite Hr in Hr'; done).
  unfold make_call in Hcall. destruct c, p; simplify_option_eq; repeat case_match; simplify_eq; try done.
  all: try match goal with H : _ && false = true |- _ => by apply andb_prop in H as [_ ?] end.
  all: apply goto_tidy; [done|]; apply Htidy; done || (intros; auto).
Qed.

Lemma next_runs_private t n : tidy t -> (exists c, pc t = Locking c n) \/ pc t = Signalling n ->
  next_runs n = false -> private_ops t = [].
Proof. intros Ht Hpc Hn. apply Ht. left. unfold runs. by destruct Hpc as [[c ->] | ->]. Qed.

Lemma proceed_tidy i t n s : map_Forall (fun _ => tidy) (threads s) -> (next_runs n = false -> private_ops t = []) ->
  map_Forall (fun _ => tidy) (threads (goto i (with_pc (next_pc n) t) s)).
Proof. intros Hs Hn. apply goto_tidy; [done|]. intros Hcase. apply Hn. destruct n as [[]| |]; try done; by destruct Hcase. Qed.

Lemma stop_tidy s : map_Forall (fun _ => tidy) (threads s) -> map_Forall (fun _ => tidy) (threads (stop_all_threads s)).
Proof.
  intros Hs i t Hi. unfold stop_all_threads in Hi. rewrite interrupt_threads in Hi. cbn in Hi.
  apply lookup_fmap_Some in Hi as (u & <- & Hu). pose proof (Hs i u Hu) as Ht. cbn in Ht. unfold wake.
  destruct (pc u) eqn:Hpc; try done. intros _. cbn. apply Ht. right. unfold sleeps. by rewrite Hpc.
Qed.

Lemma step_tidy one_thread s i c es s' : map_Forall (fun _ => tidy) (threads s) ->
  step one_thread i c s = Some (es, s') -> map_Forall (fun _ => tidy) (threads s').
Proof.
  intros Htidy Hstep. unfold step in Hstep. destruct (threads s !! i) as [t|] eqn:Hi; [|done]. cbn [mbind option_bind] in Hstep.
  pose proof (Htidy i t Hi) as Ht. cbn in Ht.
  assert (forall u, runs u = true -> sleeps u = false -> tidy u) as Hbusy by (intros u Hr Hs [|]; congruence).
  destruct (pc t) as [p|k n|n| |block| | | |] eqn:Hpc.
  - destruct c as [|j|call| |ops' consumed|]; try (by destruct p).
    + apply (make_call_tidy one_thread i t p call s es s'); [done| |destruct p; exact Hstep].
      intros Hin. apply Ht. left. unfold runs. by rewrite Hpc.
    + destruct p as [|op]; simplify_eq. unfold work_cleanup.
      destruct (1 <? _); [|destruct (_ <? 1)]; (apply goto_tidy; [done|]); apply Hbusy; try done; by destruct (_ =? 0).
  - assert (next_runs n = false -> private_ops t = []) as Hn by (apply next_runs_private; eauto).
    destruct k as [ops| |], c; try discriminate Hstep; injection Hstep as <- <-.
    + by apply wake_one_tidy.
    + by apply proceed_tidy, Hn; apply stop_tidy.
    + destruct (task_ s); [by apply proceed_tidy|by apply wake_one_tidy].
  - assert (next_runs n = false -> private_ops t = []) as Hn by (apply next_runs_private; eauto).
    destruct c as [|j| | | |]; try discriminate Hstep.
    + case_bool_decide; simplify_eq. by apply proceed_tidy.
    + destruct (threads s !! j) as [u|] eqn:Hj; [|done]. cbn [mbind option_bind] in Hstep.
      destruct (is_waiting u) eqn:Hu; simplify_eq. apply proceed_tidy; [|done]. apply goto_tidy; [done|].
      intros _. apply (Htidy j u Hj). right. unfold is_waiting, sleeps in *. by destruct (pc u).
  - destruct c; try discriminate Hstep. injection Hstep as Hrun. change s' with (es, s').2. rewrite <- Hrun.
    by apply do_run_one_tidy.
  - destruct c; simplify_eq. apply goto_tidy; [done|]. by apply Hbusy.
  - destruct c; simplify_eq. apply goto_tidy; [done|]. by apply Hbusy.
  - destruct c; try discriminate Hstep. injection Hstep as Hrun. change s' with (es, s').2. rewrite <- Hrun.
    by apply do_run_one_tidy.
  - assert (private_ops t = []) as Hp by (apply Ht; right; unfold sleeps; by rewrite Hpc).
    destruct c; simplify_eq. apply goto_tidy; [done|]. by intros _.
  - assert (private_ops t = []) as Hp by (apply Ht; right; unfold sleeps; by rewrite Hpc).
    destruct c; try discriminate Hstep. cbn beta zeta in Hstep. destruct (posix_event.signalled _).
    + injection Hstep as Hrun. change s' with (es, s').2. rewrite <- Hrun. by apply do_run_one_tidy.
    + simplify_eq. apply goto_tidy; [done|]. by intros _.
Qed.

Lemma given_app es es' : given (es ++ es') = given es ++ given es'.
Proof. apply omap_app. Qed.

Lemma completed_app es es' : completed (es ++ es') = completed es ++ completed es'.
Proof. apply omap_app. Qed.

Lemma steps_account one_thread schedule s es s' : map_Forall (fun _ => tidy) (threads s) ->
  steps one_thread schedule s = Some (es, s') -> accounts s es s'.
Proof.
  revert s es. induction schedule as [|[i c] schedule IH]; intros s es Hs Hsteps; cbn in Hsteps.
  { simplify_eq. by unfold accounts. }
  destruct (step one_thread i c s) as [[es1 s1]|] eqn:Hstep; [|done]. cbn in Hsteps.
  destruct (steps one_thread schedule s1) as [[es2 s2]|] eqn:Hrest; [|done]. cbn in Hsteps. simplify_eq.
  pose proof (step_accounts _ _ _ _ _ _ Hs Hstep) as H1. pose proof (IH _ _ (step_tidy _ _ _ _ _ _ Hs Hstep) Hrest) as H2.
  unfold accounts in *. rewrite given_app, completed_app.
  rewrite <- (app_assoc (completed es1)), <- H2, (Permutation_app_comm (given es1)), <- app_assoc, H1. solve_Permutation.
Qed.

(** ** The invariant *)

(** Inside [run], and on its way back to the queue. *)
Definition busy t : bool := runs t && match pc t with Waiting | Woken | RunTask true => false | _ => true end.

(** Holds the task. *)
Definition has_task t : bool :=
  match pc t with
  | Locking _ NextTask | Signalling NextTask | RunTask _ | TaskDone | TaskLock => true
  | _ => false
  end.

(** Since it took the task with nothing else in the queue, or on the way back. *)
Definition in_reactor t : bool := match pc t with RunTask _ | TaskDone | TaskLock => true | _ => false end.

Definition is_signalling t : bool := match pc t with Signalling _ => true | _ => false end.
Definition is_woken t : bool := match pc t with Woken => true | _ => false end.
Definition blocks t : bool := match pc t with RunTask true => true | _ => false end.

Definition somewhere (f : Thr -> bool) (ts : gmap nat Thr) : Prop := exists i t, ts !! i = Some t /\ f t = true.

(** Some thread will look at the queue without help from outside. *)
Definition attended (bit poke : bool) (ts : gmap nat Thr) : Prop :=
  somewhere busy ts \/ (poke = true /\ somewhere blocks ts) \/
  (bit = true /\ (somewhere is_woken ts \/ somewhere is_signalling ts /\ somewhere is_waiting ts)).

Definition count_task (q : list IoOp) : nat := length (filter (fun o => o = TaskOperation) q).

(** All but that the queue is attended to. *)
Record loop_safe (b : bool) (s : Loop) : Prop := {
  lo_bound : Z.of_nat (size (threads s)) < 2 ^ 62;
  lo_event : wakeup_event_ s = event_of b (count_if sleeps (threads s));
  lo_task : (count_if has_task (threads s) + count_task (op_queue_ s) = Nat.b2n (task_ s))%nat;
  lo_interrupted : task_interrupted_ s = false -> somewhere in_reactor (threads s);
  lo_blocked : somewhere blocks (threads s) -> poked s = true \/ task_interrupted_ s = false;
  lo_stopped : stopped_ s = true -> (~ somewhere is_waiting (threads s)) /\
    (somewhere is_woken (threads s) -> b = true) /\ (somewhere blocks (threads s) -> poked s = true);
}.

Definition loop_attended (b : bool) (s : Loop) : Prop :=
  op_queue_ s <> [] -> stopped_ s = false -> somewhere runs (threads s) -> attended b (poked s) (threads s).

Definition loop_ok (s : Loop) : Prop := exists b, loop_safe b s /\ loop_attended b s.

Lemma somewhere_here f ts i t : f t = true -> somewhere f (<[i := t]> ts).
Proof. intros Hf. exists i, t. by rewrite lookup_insert_eq. Qed.

Lemma somewhere_other f ts i t t' : ts !! i = Some t -> f t = false -> somewhere f ts -> somewhere f (<[i := t']> ts).
Proof.
  intros Hi Hf (j & u & Hj & Hu). exists j, u. split; [|done]. rewrite lookup_insert_ne; [done|]. intros <-. congruence.
Qed.

Lemma somewhere_insert f ts i t : somewhere f (<[i := t]> ts) -> f t = true \/ somewhere f ts.
Proof. intros (j & u & [[<- <-]|[_ Hj]]%lookup_insert_Some & Hu); [by left|right; by exists j, u]. Qed.

Lemma runs_cases t : runs t = true -> busy t = true \/ blocks t = true \/ is_waiting t = true \/ is_woken t = true.
Proof. unfold busy, blocks, is_waiting, is_woken. intros ->. destruct (pc t) as [| | | |[]| | | |]; tauto. Qed.

Lemma idle_flags t : runs t = false -> busy t = false /\ blocks t = false /\ is_waiting t = false /\ is_woken t = false.
Proof. unfold busy, blocks, is_waiting, is_woken, runs. by destruct (pc t) as [| | | |[]| | | |]; cbn; intros ->. Qed.

(** A thread outside of [run] does as it likes, unless it was to wake another. *)
Lemma attended_idle b k ts i t t' : ts !! i = Some t -> runs t = false ->
  (b = true -> is_signalling t = true -> somewhere is_waiting ts -> somewhere is_woken ts) ->
  attended b k ts -> attended b k (<[i := t']> ts).
Proof.
  intros Hi (Hb & Hbl & Hwt & Hwo)%idle_flags Hsig.
  assert (forall f, f t = false -> somewhere f ts -> somewhere f (<[i := t']> ts)) as Hkeep
    by (intros f; by apply somewhere_other).
  intros [Hbusy|[[Hp Hbls]|[Hbit Hw]]]; [left; auto|right; left; auto|]. right. right. split; [done|].
  destruct Hw as [Hw|[Hsg Hw]]; [auto|]. destruct (is_signalling t) eqn:Hst; [left|right]; auto.
Qed.

(** A sleeping thread wakes up. *)
Lemma attended_wake b k ts j u : ts !! j = Some u -> is_waiting u = true ->
  attended b k ts -> attended b k (<[j := with_pc Woken u]> ts).
Proof.
  intros Hj Hu. assert (forall f, f u = false -> somewhere f ts -> somewhere f (<[j := with_pc Woken u]> ts)) as Hkeep
    by (intros f; by apply somewhere_other).
  unfold is_waiting in Hu. destruct (pc u) eqn:Hpc; try done.
  intros [Hbusy|[[Hp Hbls]|[Hbit Hw]]].
  - left. apply Hkeep; [|done]. unfold busy. rewrite Hpc. by rewrite andb_false_r.
  - right. left. split; [done|]. apply Hkeep; [|done]. unfold blocks. by rewrite Hpc.
  - right. right. split; [done|]. left. by apply somewhere_here.
Qed.

(** *** One thread moves *)

(** What a step of one thread has to guarantee for the invariant. *)
Record move (b : bool) (s : Loop) (i : nat) (t t' : Thr) (b' : bool) (q : list IoOp) (task intr : bool) (ev : Z) (pk : bool)
    : Prop := {
  mv_event : ev = event_of b' (count_if sleeps (<[i := t']> (threads s)));
  mv_task : (Nat.b2n (has_task t') + count_task q + Nat.b2n (task_ s)
             = Nat.b2n (has_task t) + count_task (op_queue_ s) + Nat.b2n task)%nat;
  mv_interrupted : intr = false -> in_reactor t' = true \/ (task_interrupted_ s = false /\ in_reactor t = false);
  mv_blocked : blocks t' = true -> pk = true \/ intr = false;
  mv_others : has_task t = false -> poked s = true \/ task_interrupted_ s = false -> pk = true \/ intr = false;
  mv_stopped : stopped_ s = true -> is_waiting t' = false /\ (is_woken t' = true -> b' = true) /\
    (blocks t' = true -> pk = true) /\ (b = true -> b' = true) /\ (has_task t = false -> poked s = true -> pk = true);
}.

Lemma one_has_task b s i t j u : loop_safe b s -> threads s !! i = Some t -> has_task t = true ->
  threads s !! j = Some u -> has_task u = true -> j = i.
Proof.
  intros Hok Hi Ht Hj Hu. destruct (decide (j = i)) as [|Hne]; [done|]. exfalso.
  pose proof (lo_task _ _ Hok) as Hone. rewrite <- (insert_delete_id _ _ _ Hi) in Hone.
  rewrite count_if_fresh in Hone by apply lookup_delete_eq.
  assert (delete i (threads s) !! j = Some u) as Hj' by by rewrite lookup_delete_ne.
  rewrite <- (insert_delete_id _ _ _ Hj') in Hone.
  rewrite count_if_fresh in Hone by apply lookup_delete_eq. rewrite Ht, Hu in Hone. destruct (task_ s); simpl in Hone; lia.
Qed.

Lemma blocks_has_task t : blocks t = true -> has_task t = true.
Proof. unfold blocks, has_task. by destruct (pc t). Qed.

(** Another thread that blocks has the task, so that [i] has not. *)
Lemma blocks_elsewhere b s i t t' : loop_safe b s -> threads s !! i = Some t -> somewhere blocks (<[i := t']> (threads s)) ->
  blocks t' = true \/ (somewhere blocks (threads s) /\ has_task t = false).
Proof.
  intros Hok Hi (j & u & [[<- <-]|[Hne Hj]]%lookup_insert_Some & Hu); [by left|right]. split; [by exists j, u|].
  destruct (has_task t) eqn:Ht; [|done]. destruct Hne. symmetry. by apply (one_has_task b s i t j u), blocks_has_task.
Qed.

Lemma safe_move b s i t t' b' q task intr work ev pk :
  loop_safe b s -> threads s !! i = Some t -> move b s i t t' b' q task intr ev pk ->
  loop_safe b' (mkLoop q task intr work (stopped_ s) ev pk (<[i := t']> (threads s))).
Proof.
  intros Hok Hi [Me Mt Mi Mb Mo Ms].
  split; cbn [threads op_queue_ task_ task_interrupted_ stopped_ wakeup_event_ poked].
  - rewrite map_size_insert_Some by eauto. apply Hok.
  - done.
  - pose proof (lo_task _ _ Hok). pose proof (count_if_insert has_task (threads s) i t t' Hi). lia.
  - intros [Hr|[Hs Hr]]%Mi; [by apply somewhere_here|].
    by apply (somewhere_other _ _ _ t), (lo_interrupted _ _ Hok).
  - intros [?|[Hbl Ht]]%(blocks_elsewhere b s i t t' Hok Hi); [auto|]. apply Mo; [done|]. by apply (lo_blocked _ _ Hok).
  - intros Hst. destruct (Ms Hst) as (Mw & Mwo & Mbl & Mbit & Mpk). destruct (lo_stopped _ _ Hok Hst) as (Hw & Hwo & Hbl).
    split; [|split].
    + intros [?|?]%somewhere_insert; [congruence|done].
    + intros [?|?]%somewhere_insert; auto.
    + intros [?|[Hb Ht]]%(blocks_elsewhere b s i t t' Hok Hi); auto.
Qed.

Lemma busy_attended b q task intr work st ev pk ts i t :
  busy t = true -> loop_attended b (mkLoop q task intr work st ev pk (<[i := t]> ts)).
Proof. intros Ht _ _ _. left. by apply somewhere_here. Qed.

Lemma sleeps_kept (ts : gmap nat Thr) i t t' :
  ts !! i = Some t -> sleeps t' = sleeps t -> count_if sleeps (<[i := t']> ts) = count_if sleeps ts.
Proof. intros Hi Hs. pose proof (count_if_insert sleeps ts i t t' Hi). rewrite Hs in *. lia. Qed.

(** A step that changes nothing another thread could wait for. *)
Lemma quiet_ok b s i t t' q w :
  loop_safe b s -> loop_attended b s -> threads s !! i = Some t -> count_task q = count_task (op_queue_ s) ->
  has_task t' = has_task t -> in_reactor t' = in_reactor t -> sleeps t = false -> sleeps t' = false -> blocks t' = false ->
  busy t' = true \/ (q = op_queue_ s /\ runs t = false /\ is_signalling t = false /\ runs t' = false) ->
  loop_safe b (goto i t' (set_queue q (set_work w s))) /\ loop_attended b (goto i t' (set_queue q (set_work w s))).
Proof.
  intros Hok Hatt Hi Hq Ht Hr Hs Hs' Hb' Hcase. split.
  - apply (safe_move b s i t t'); [done..|]. split.
    + rewrite (sleeps_kept _ _ t) by congruence. apply Hok.
    + rewrite Ht. cbn [set_queue set_work task_ op_queue_]. lia.
    + cbn. intros Hintr. destruct (in_reactor t) eqn:Hit; [by left; congruence|by right].
    + congruence.
    + done.
    + intros _. unfold is_waiting, is_woken. rewrite Hb'. unfold sleeps in Hs'. by destruct (pc t').
  - destruct Hcase as [Hbusy|(-> & Hidle & Hsig & Hidle')]; [by apply busy_attended|]. intros Hne Hst Hruns.
    apply (attended_idle b (poked s) _ i t t'); [done..|congruence|]. apply Hatt; [done..|].
    destruct (somewhere_insert _ _ _ _ Hruns); [congruence|done].
Qed.

(** *** Waking a thread *)

Lemma none_sleeps s : count_if sleeps (threads s) = 0%nat -> ~ somewhere sleeps (threads s).
Proof.
  intros Hz (i & t & Hi & Ht). rewrite <- (insert_delete_id _ _ _ Hi), count_if_fresh in Hz by apply lookup_delete_eq.
  rewrite Ht in Hz. simpl in Hz. lia.
Qed.

Lemma in_reactor_task b s : loop_safe b s -> somewhere in_reactor (threads s) -> task_ s = true.
Proof.
  intros Hok (i & t & Hi & Ht). pose proof (lo_task _ _ Hok) as Hone.
  rewrite <- (insert_delete_id _ _ _ Hi), count_if_fresh in Hone by apply lookup_delete_eq.
  assert (has_task t = true) as Hht by (unfold in_reactor, has_task in *; by destruct (pc t)).
  rewrite Hht in Hone. destruct (task_ s); simpl in *; [done|lia].
Qed.

(** [interrupt_task] makes sure that a thread blocked in the reactor returns. *)
Lemma interrupt_poked b s : loop_safe b s -> somewhere blocks (threads s) -> poked (interrupt_task s) = true.
Proof.
  intros Hok Hbl. unfold interrupt_task. destruct (task_interrupted_ s) eqn:Hintr; cbn.
  - destruct (lo_blocked _ _ Hok Hbl); [done|congruence].
  - by rewrite (in_reactor_task b s Hok (lo_interrupted _ _ Hok Hintr)).
Qed.

Lemma next_flags t n : has_task (with_pc (next_pc n) t) = has_task (with_pc (Signalling n) t) /\
  sleeps (with_pc (next_pc n) t) = false /\ blocks (with_pc (next_pc n) t) = false.
Proof. by destruct n as [[]| |]. Qed.

Lemma next_runs_busy t n : runs (with_pc (next_pc n) t) = true -> busy (with_pc (next_pc n) t) = true.
Proof. by destruct n as [[]| |]. Qed.

Lemma interrupt_safe b s : loop_safe b s -> loop_safe b (interrupt_task s).
Proof.
  intros Hok. pose proof (interrupt_poked b s Hok) as Hp. unfold interrupt_task in *.
  destruct (_ && _); [|done]. split; cbn; try apply Hok; [done|by left|].
  intros Hst. destruct (lo_stopped _ _ Hok Hst) as (? & ? & ?). auto.
Qed.

(** A thread that goes on, where nothing of the loop itself changes. *)
Lemma goto_safe b s i t t' :
  loop_safe b s -> threads s !! i = Some t -> has_task t' = has_task t -> (in_reactor t = true -> in_reactor t' = true) ->
  sleeps t' = sleeps t -> is_waiting t' = is_waiting t -> (blocks t' = true -> blocks t = true) ->
  loop_safe b (goto i t' s).
Proof.
  intros Hok Hi Ht Hr Hs Hw Hb. apply (safe_move b s i t t'); [done..|]. split.
  - rewrite (sleeps_kept _ _ t) by done. apply Hok.
  - rewrite Ht. lia.
  - intros Hintr. destruct (in_reactor t) eqn:Hit; [by left; apply Hr|by right].
  - intros ?%Hb. apply (lo_blocked _ _ Hok). by exists i, t.
  - done.
  - intros Hst. destruct (lo_stopped _ _ Hok Hst) as (Hnw & Hwo & Hbl).
    assert (is_waiting t = false) as Hwt by (destruct (is_waiting t) eqn:?; [destruct Hnw; by exists i, t|done]).
    rewrite Hw. split; [done|]. split; [|split]; [| |done].
    + intros Hwo'. apply Hwo. exists i, t. split; [done|]. unfold sleeps, is_waiting, is_woken in *.
      destruct (pc t'); try done. by destruct (pc t).
    + intros ?%Hb. apply Hbl. by exists i, t.
Qed.

Lemma event_safe b s : loop_safe b s -> loop_safe true (set_event (event_of true (count_if sleeps (threads s))) s).
Proof.
  intros Hok. split; try apply Hok; cbn; [done|]. intros Hst. destruct (lo_stopped _ _ Hok Hst) as (? & ? & ?). auto.
Qed.

Lemma wake_ok b s i t n :
  loop_safe b s -> threads s !! i = Some t -> sleeps t = false -> in_reactor t = false ->
  has_task (with_pc (Signalling n) t) = has_task t ->
  loop_safe true (wake_one_thread_and_unlock i t n s) /\ loop_attended true (wake_one_thread_and_unlock i t n s).
Proof.
  intros Hok Hi Hs Hr Ht. pose proof (event_safe b s Hok) as Hok'. destruct (next_flags t n) as (Hnt & Hns & Hnb).
  assert (is_waiting t = false) as Hw by (unfold sleeps, is_waiting in *; by destruct (pc t)).
  unfold wake_one_thread_and_unlock. rewrite (lo_event _ _ Hok), event_signal_one.
  destruct (Nat.eqb_spec (count_if sleeps (threads s)) 0) as [Hz|Hz]; cbn [negb].
  - set (s' := set_event _ s) in *. split.
    + apply (goto_safe _ _ i t); [by apply interrupt_safe|by rewrite interrupt_threads|congruence..| |congruence].
      unfold sleeps in Hns. unfold is_waiting at 1. rewrite Hw. by destruct (pc (with_pc (next_pc n) t)).
    + intros _ _ Hruns. cbn [threads poked goto set_threads] in *. rewrite interrupt_threads in *.
      destruct Hruns as (j & u & Hj & Hu). destruct (decide (j = i)) as [->|Hne].
      * rewrite lookup_insert_eq in Hj. injection Hj as <-. left. by apply somewhere_here, next_runs_busy.
      * rewrite lookup_insert_ne in Hj by done.
        assert (forall f, f u = true -> somewhere f (<[i := with_pc (next_pc n) t]> (threads s))) as Hstill
          by (intros f Hf; exists j, u; by rewrite lookup_insert_ne).
        destruct (runs_cases u Hu) as [Hc|[Hc|Hc]]; [left; auto|right; left; split; [|by auto]|].
        -- apply (interrupt_poked true); [done|]. by exists j, u.
        -- destruct (none_sleeps s Hz). exists j, u. split; [done|]. unfold is_waiting, is_woken, sleeps in *.
           by destruct (pc u), Hc.
  - split.
    + apply (goto_safe _ _ i t); [done..|congruence|done| |done]. unfold is_waiting at 1. by rewrite Hw.
    + intros _ _ _. right. right. split; [done|]. destruct (count_if_pos _ _ Hz) as (j & u & Hj & Hu).
      assert (j <> i) as Hne by (intros ->; congruence).
      assert (forall f, f u = true -> somewhere f (<[i := with_pc (Signalling n) t]> (threads s))) as Hstill
        by (intros f Hf; exists j, u; by rewrite lookup_insert_ne).
      unfold sleeps in Hu. destruct (pc u) eqn:Hpc; try done.
      * right. split; [by apply somewhere_here|]. apply Hstill. unfold is_waiting. by rewrite Hpc.
      * left. apply Hstill. unfold is_woken. by rewrite Hpc.
Qed.

(** *** The loop of run *)

Lemma count_if_le {A} (f : A -> bool) (m : gmap nat A) : (count_if f m <= size m)%nat.
Proof. unfold count_if. apply map_size_filter. Qed.

(** Taking from the queue, and what the thread makes of it. *)
Lemma take_safe b s i t t' q intr :
  loop_safe b s -> stopped_ s = false -> threads s !! i = Some t -> has_task t = false -> sleeps t = false ->
  (Nat.b2n (has_task t') + count_task q = count_task (op_queue_ s))%nat -> sleeps t' = false ->
  (intr = false -> in_reactor t' = true \/ task_interrupted_ s = false) -> (blocks t' = true -> intr = false) ->
  (has_task t' = false -> intr = task_interrupted_ s) ->
  loop_safe b (goto i t' (set_interrupted intr (set_queue q s))).
Proof.
  intros Hok Hst Hi Ht Hs Hq Hs' Hr Hb Hintr. apply (safe_move b s i t t'); [done..|]. split; cbn [set_interrupted set_queue].
  - rewrite (sleeps_kept _ _ t) by congruence. apply Hok.
  - rewrite Ht. change (Nat.b2n false) with 0%nat. cbn [task_ op_queue_ set_interrupted set_queue]. lia.
  - intros Hf. destruct (Hr Hf); [by left|right]. split; [done|]. unfold in_reactor, has_task in *. by destruct (pc t).
  - cbn. auto.
  - cbn. intros _ Hor. destruct (has_task t') eqn:Hht; [|by rewrite Hintr].
    destruct intr; [|by right]. destruct Hor as [|Hf]; [by left|]. exfalso.
    pose proof (in_reactor_task b s Hok (lo_interrupted _ _ Hok Hf)) as Htask. pose proof (lo_task _ _ Hok) as Hone.
    destruct (lo_interrupted _ _ Hok Hf) as (j & u & Hj & Hu).
    rewrite <- (insert_delete_id _ _ _ Hj), count_if_fresh in Hone by apply lookup_delete_eq.
    assert (has_task u = true) as Hhu by (unfold in_reactor, has_task in *; by destruct (pc u)).
    rewrite Hhu, Htask in Hone. simpl in *. lia.
  - congruence.
Qed.

Lemma queue_safe b s q : loop_safe b s -> count_task q = count_task (op_queue_ s) -> loop_safe b (set_queue q s).
Proof. intros Hok Hq. split; try apply Hok. cbn [set_queue op_queue_ task_ threads]. rewrite Hq. apply Hok. Qed.

Lemma do_run_one_ok one_thread b s i t :
  loop_safe b s -> threads s !! i = Some t -> pc t = RunLock -> loop_ok (do_run_one one_thread i t s).2.
Proof.
  intros Hok Hi Hpc. unfold loop_ok.
  assert (has_task t = false /\ sleeps t = false /\ in_reactor t = false) as (Ht & Hs & Hr)
    by (unfold has_task, sleeps, in_reactor; by rewrite Hpc).
  unfold do_run_one. destruct (stopped_ s) eqn:Hst.
  - exists b. split; [|intros _ Hns; cbn in Hns; congruence]. apply (goto_safe _ _ i t); [done..|by rewrite Ht|by rewrite Hr|by rewrite Hs| |done].
    unfold is_waiting. by rewrite Hpc.
  - destruct (op_queue_ s) as [|[|op] rest] eqn:Hq.
    + exists false. split; [|intros Hne; cbn in Hne; congruence].
      refine (safe_move b s i t (with_pc Waiting t) false (op_queue_ s) (task_ s) (task_interrupted_ s) _ _ (poked s) Hok Hi _). split.
      * rewrite (lo_event _ _ Hok), event_clear.
        pose proof (count_if_insert sleeps (threads s) i t (with_pc Waiting t) Hi) as Hc. rewrite Hs in Hc.
        pose proof (lo_bound _ _ Hok). pose proof (count_if_le sleeps (threads s)).
        rewrite event_begin by lia. cbn [set_event wakeup_event_]. f_equal. simpl in Hc. lia.
      * rewrite Ht. change (has_task (with_pc Waiting t)) with false. lia.
      * by right.
      * done.
      * done.
      * congruence.
    + set (more := negb (bool_decide (rest = []))).
      assert (forall u, pc u <> RunTask true -> has_task u = true -> sleeps u = false -> busy u = true -> more = true ->
        loop_safe b (goto i u (set_interrupted true (set_queue rest s)))) as Htake.
      { intros u Hu Hut Hus Hub Hm. apply (take_safe b s i t); try done; [by rewrite Hut, Hq| |congruence].
        unfold blocks. by destruct (pc u) as [| | | |[]| | | |]. }
      destruct (more && negb one_thread) eqn:Hm.
      * apply andb_prop in Hm as [Hm _]. rewrite Hm in *.
        rewrite (lo_event _ _ Hok : wakeup_event_ (set_interrupted true (set_queue rest s)) = _), event_signal_one.
        set (u := with_pc _ t).
        assert (busy u = true /\ has_task u = true /\ sleeps u = false /\ pc u <> RunTask true) as (Hub & Hut & Hus & Hup)
          by (subst u; by destruct (negb (_ =? _)%nat)).
        exists true. cbn [snd]. split; [|by apply busy_attended].
        pose proof (Htake u Hup Hut Hus Hub eq_refl) as Hu.
        assert (count_if sleeps (threads s) = count_if sleeps (threads (goto i u (set_interrupted true (set_queue rest s))))) as ->
          by (symmetry; apply (sleeps_kept _ i t u); [done|congruence]).
        exact (event_safe _ _ Hu).
      * exists b. cbn [snd]. destruct more eqn:Hmore; cbn [negb].
        -- split; [by apply Htake|by apply busy_attended].
        -- split; [|intros []; by apply negb_false_iff, bool_decide_eq_true in Hmore].
           apply (take_safe b s i t); try done; [|by left]. by rewrite Hq.
    + destruct (negb (bool_decide (rest = [])) && negb one_thread).
      * exists true. apply (wake_ok b (set_queue rest s)); try done.
        apply queue_safe; [done|]. by rewrite Hq.
      * exists b. split; [|by apply busy_attended].
        apply (take_safe b s i t _ rest (task_interrupted_ s)); try done; [by rewrite Hq|by right].
Qed.

(** *** The sections *)

Lemma count_task_app q q' : count_task (q ++ q') = (count_task q + count_task q')%nat.
Proof. unfold count_task. by rewrite filter_app, length_app. Qed.

Lemma count_task_ops ops : count_task (Operation <$> ops) = 0%nat.
Proof. unfold count_task. by induction ops. Qed.

Lemma do_run_one_goto one_thread i t u s : do_run_one one_thread i t (goto i u s) = do_run_one one_thread i t s.
Proof.
  unfold do_run_one, wake_one_thread_and_unlock, interrupt_task, goto. cbn. destruct s as [q task intr w st e pk ts]; cbn.
  destruct st; [by rewrite insert_insert_eq|].
  destruct q as [|[|op] rest]; [by rewrite insert_insert_eq|..].
  all: destruct (_ && negb one_thread); [|by rewrite insert_insert_eq].
  - by rewrite insert_insert_eq.
  - destruct (1 <? _); [by rewrite insert_insert_eq|]. by destruct (_ && _); cbn; rewrite insert_insert_eq.
Qed.

Lemma resume_ok one_thread b s i u :
  loop_safe b (goto i u s) -> pc u = RunLock -> loop_ok (do_run_one one_thread i u s).2.
Proof.
  intros Hok Hpc. rewrite <- (do_run_one_goto _ _ _ u). apply (do_run_one_ok _ b); [done| |done].
  apply lookup_insert_eq.
Qed.

Lemma run_lock_ok one_thread b s i t : loop_safe b s -> threads s !! i = Some t -> pc t = RunLock ->
  loop_ok (do_run_one one_thread i (mkThr RunLock [] (private_work t)) (push (Operation <$> private_ops t) s)).2.
Proof.
  intros Hok Hi Hpc. apply (resume_ok _ b); [|done]. apply (goto_safe _ _ i t); try done.
  - apply queue_safe; [done|]. by rewrite count_task_app, count_task_ops, Nat.add_0_r.
  - unfold has_task. by rewrite Hpc.
  - unfold in_reactor. by rewrite Hpc.
  - unfold sleeps. by rewrite Hpc.
  - unfold is_waiting. by rewrite Hpc.
Qed.

Lemma task_lock_ok one_thread b s i t : loop_safe b s -> threads s !! i = Some t -> pc t = TaskLock ->
  loop_ok (do_run_one one_thread i (mkThr RunLock [] 0)
    (push ((Operation <$> private_ops t) ++ [TaskOperation]) (set_interrupted true s))).2.
Proof.
  intros Hok Hi Hpc. apply (resume_ok _ b); [|done].
  assert (has_task t = true /\ sleeps t = false) as [Ht Hs] by (unfold has_task, sleeps; by rewrite Hpc).
  apply (safe_move b s i t (mkThr RunLock [] 0) b _ (task_ s) true _ (wakeup_event_ s) (poked s)); [done..|]. split; try done.
  - rewrite (sleeps_kept _ _ t) by done. apply Hok.
  - rewrite Ht. cbn [push set_queue set_interrupted op_queue_]. rewrite !count_task_app, count_task_ops.
    change (has_task (mkThr RunLock [] 0)) with false. change (count_task [TaskOperation]) with 1%nat. cbn [Nat.b2n]. lia.
  - congruence.
Qed.

Lemma woken_event b s i t : loop_safe b s -> threads s !! i = Some t -> pc t = Woken ->
  exists n, count_if sleeps (threads s) = S n /\ posix_event.end_wait (wakeup_event_ s) = event_of b n /\ Z.of_nat (S n) < 2 ^ 62.
Proof.
  intros Hok Hi Hpc. pose proof (lo_bound _ _ Hok). pose proof (count_if_le sleeps (threads s)).
  pose proof (lo_event _ _ Hok) as He. destruct (count_if sleeps (threads s)) as [|n] eqn:Hn.
  - destruct (none_sleeps s Hn). exists i, t. split; [done|]. unfold sleeps. by rewrite Hpc.
  - exists n. split; [done|]. rewrite He, event_end by lia. split; [done|]. lia.
Qed.

Lemma woken_ok one_thread s i t : loop_ok s -> threads s !! i = Some t -> pc t = Woken ->
  let e := posix_event.end_wait (wakeup_event_ s) in
  loop_ok (if posix_event.signalled e then (do_run_one one_thread i (with_pc RunLock t) (set_event e s)).2
           else goto i (with_pc Waiting t) (set_event (posix_event.begin_wait e) s)).
Proof.
  intros (b & Hok & Hatt) Hi Hpc. destruct (woken_event b s i t Hok Hi Hpc) as (n & Hn & -> & Hbound). cbn.
  assert (has_task t = false /\ in_reactor t = false /\ is_woken t = true /\ sleeps t = true) as (Ht & Hr & Hw & Hs)
    by (unfold has_task, in_reactor, is_woken, sleeps; by rewrite Hpc).
  rewrite event_signalled. destruct b.
  - apply (resume_ok _ true); [|done]. apply (safe_move true s i t); [done..|]. split; try done.
    + pose proof (count_if_insert sleeps (threads s) i t (with_pc RunLock t) Hi) as Hc. rewrite Hs in Hc. simpl in Hc.
      cbn [set_event wakeup_event_]. f_equal. lia.
    + by rewrite Ht.
    + by right.
  - rewrite event_begin by lia. exists false. split.
    + apply (safe_move false s i t); [done..|]. split; try done.
      * rewrite (sleeps_kept _ _ t), Hn by done. done.
      * by rewrite Ht.
      * by right.
      * intros Hst. destruct (lo_stopped _ _ Hok Hst) as (_ & Hwo & _). discriminate Hwo. by exists i, t.
    + intros Hne Hst Hruns. assert (somewhere runs (threads s)) as Hsome.
      { exists i, t. split; [done|]. unfold runs. by rewrite Hpc. }
      destruct (Hatt Hne Hst Hsome) as [Hb|[[Hp Hb]|[? _]]]; [left|right; left; split; [done|]|done].
      all: apply (somewhere_other _ _ _ t); [done| |done]; unfold busy, blocks; rewrite Hpc; by rewrite ?andb_false_r.
Qed.

Lemma wake_flags u : runs (wake u) = runs u /\ sleeps (wake u) = sleeps u /\ has_task (wake u) = has_task u /\
  in_reactor (wake u) = in_reactor u /\ blocks (wake u) = blocks u /\ is_waiting (wake u) = false.
Proof. unfold wake, runs, sleeps, has_task, in_reactor, blocks, is_waiting. by destruct (pc u) eqn:Hpc; rewrite ?Hpc. Qed.

Lemma somewhere_wake f ts : (forall u, f (wake u) = f u) -> somewhere f (wake <$> ts) <-> somewhere f ts.
Proof.
  intros Hf. unfold somewhere. setoid_rewrite lookup_fmap_Some. split.
  - intros (i & t & (u & <- & Hi) & Ht). exists i, u. by rewrite <- Hf.
  - intros (i & u & Hi & Hu). exists i, (wake u). rewrite Hf. eauto.
Qed.

Lemma stop_safe b s : loop_safe b s -> loop_safe true (stop_all_threads s).
Proof.
  intros Hok. set (s' := set_event (posix_event.signal_all (wakeup_event_ s)) (set_threads (wake <$> threads s) (set_stopped s))).
  assert (forall u, runs (wake u) = runs u /\ sleeps (wake u) = sleeps u /\ has_task (wake u) = has_task u /\
    in_reactor (wake u) = in_reactor u /\ blocks (wake u) = blocks u /\ is_waiting (wake u) = false) as Hw by apply wake_flags.
  assert (loop_safe true (mkLoop (op_queue_ s) (task_ s) (task_interrupted_ s) (outstanding_work_ s) false
    (wakeup_event_ s') (poked s) (threads s'))) as Hs'.
  { split; cbn.
    - rewrite map_size_fmap. apply Hok.
    - rewrite (lo_event _ _ Hok), event_signal_all, count_if_fmap; [done|apply Hw].
    - rewrite count_if_fmap; [apply Hok|apply Hw].
    - rewrite somewhere_wake; [apply Hok|apply Hw].
    - rewrite somewhere_wake; [apply Hok|apply Hw].
    - done. }
  pose proof (interrupt_safe _ _ Hs') as Hi. pose proof (interrupt_poked _ _ Hs') as Hp.
  unfold stop_all_threads. fold s'. unfold interrupt_task in *. cbn [task_interrupted_ task_ set_event set_threads set_stopped s'] in *.
  destruct (_ && _); split; try apply Hi; cbn in *; intros _.
  all: split; [|split; [done|]].
  all: try done; intros (i & t & (u & <- & _)%lookup_fmap_Some & Ht); by destruct (Hw u) as (_ & _ & _ & _ & _ & ?); congruence.
Qed.

(** A thread with a section or a signal behind it goes on. *)
Definition on_its_way t n : Prop := pc t = Signalling n \/ exists c, pc t = Locking c n.

Lemma on_its_way_flags t n : on_its_way t n -> has_task t = has_task (with_pc (next_pc n) t) /\ sleeps t = false /\
  in_reactor t = false /\ is_waiting t = false /\ (runs t = true -> busy (with_pc (next_pc n) t) = true) /\
  (runs t = false -> runs (with_pc (next_pc n) t) = false).
Proof. unfold has_task, sleeps, in_reactor, is_waiting, runs. intros [Hpc|[c Hpc]]; rewrite Hpc; by destruct n as [[]| |]. Qed.

Lemma proceed_safe b s i t n : loop_safe b s -> threads s !! i = Some t -> on_its_way t n ->
  loop_safe b (goto i (with_pc (next_pc n) t) s).
Proof.
  intros Hok Hi (Ht & Hs & Hr & Hw & _)%on_its_way_flags. destruct (next_flags t n) as (Hnt & Hns & Hnb).
  apply (goto_safe _ _ i t); try done; try congruence. rewrite Hw. unfold sleeps in Hns. unfold is_waiting.
  by destruct (pc (with_pc _ _)).
Qed.

(** It is on its way back to the queue, or leaves [run]. *)
Lemma proceed_attended b s i t n : threads s !! i = Some t -> on_its_way t n ->
  (is_signalling t = true -> somewhere is_waiting (threads s) -> somewhere is_woken (threads s)) ->
  loop_attended b s -> loop_attended b (goto i (with_pc (next_pc n) t) s).
Proof.
  intros Hi (_ & _ & _ & _ & Hin & Hout)%on_its_way_flags Hsig Hatt. destruct (runs t) eqn:Hrun; [by apply busy_attended, Hin|].
  intros Hne Hst Hruns. apply (attended_idle _ _ _ _ t); [done..|auto|]. apply Hatt; [done..|].
  destruct (somewhere_insert _ _ _ _ Hruns) as [Hr|]; [|done]. rewrite Hout in Hr; done.
Qed.

Lemma stop_ok b s i t n : loop_safe b s -> threads s !! i = Some t -> pc t = Locking Stop n ->
  loop_ok (goto i (with_pc (next_pc n) t) (stop_all_threads s)).
Proof.
  intros Hok Hi Hpc. exists true. split.
  - apply proceed_safe; [by apply (stop_safe b)| |right; by eexists].
    unfold stop_all_threads. rewrite interrupt_threads. cbn. rewrite lookup_fmap, Hi. cbn. unfold wake. by rewrite Hpc.
  - intros _ Hst. unfold stop_all_threads, interrupt_task in Hst. by destruct (_ && _) in Hst.
Qed.

Lemma push_ok b s i t n ops : loop_safe b s -> threads s !! i = Some t -> pc t = Locking (PushOps ops) n ->
  loop_ok (wake_one_thread_and_unlock i t n (push (Operation <$> ops) s)).
Proof.
  intros Hok Hi Hpc. exists true. apply (wake_ok b); unfold sleeps, in_reactor, has_task; rewrite ?Hpc; try done.
  apply queue_safe; [done|]. by rewrite count_task_app, count_task_ops, Nat.add_0_r.
Qed.

Lemma init_ok b s i t n : loop_safe b s -> threads s !! i = Some t -> pc t = Locking Init n -> task_ s = false ->
  loop_ok (wake_one_thread_and_unlock i t n (push [TaskOperation] (set_task true s))).
Proof.
  intros Hok Hi Hpc Htask. exists true. apply (wake_ok b); unfold sleeps, in_reactor, has_task; rewrite ?Hpc; try done.
  assert (loop_safe b (goto i t (push [TaskOperation] (set_task true s)))) as Hs.
  { apply (safe_move b s i t); [done..|]. split; try done.
    - rewrite (sleeps_kept _ _ t) by done. apply Hok.
    - cbn [push set_queue set_task op_queue_]. rewrite count_task_app, Htask. change (count_task [TaskOperation]) with 1%nat.
      cbn. lia.
    - unfold in_reactor. rewrite Hpc. by right.
    - unfold blocks. by rewrite Hpc.
    - unfold is_waiting, is_woken, blocks. rewrite Hpc. done. }
  unfold goto in Hs. cbn in Hs. by rewrite insert_id in Hs.
Qed.

Lemma woken_safe b s j u : loop_safe b s -> threads s !! j = Some u -> is_waiting u = true ->
  loop_safe b (goto j (with_pc Woken u) s).
Proof.
  intros Hok Hj Hu. apply (safe_move b s j u); [done..|]. unfold is_waiting in Hu. destruct (pc u) eqn:Hpc; try done. split; try done.
  - rewrite (sleeps_kept _ _ u); [apply Hok|done|]. unfold sleeps. by rewrite Hpc.
  - unfold has_task. by rewrite Hpc.
  - unfold in_reactor. rewrite Hpc. by right.
  - intros Hst. destruct (lo_stopped _ _ Hok Hst) as [Hw _]. destruct Hw. exists j, u. unfold is_waiting. by rewrite Hpc.
Qed.

Lemma waking_attended b s j u : loop_attended b s -> threads s !! j = Some u -> is_waiting u = true ->
  loop_attended b (goto j (with_pc Woken u) s).
Proof.
  intros Hatt Hj Hu Hne Hst _. apply attended_wake; [done..|]. apply Hatt; [done..|]. exists j, u. split; [done|].
  unfold is_waiting in Hu. unfold runs. by destruct (pc u).
Qed.

Lemma signal_ok b s i t n j u : loop_safe b s -> loop_attended b s -> threads s !! i = Some t -> pc t = Signalling n ->
  threads s !! j = Some u -> is_waiting u = true ->
  loop_ok (goto i (with_pc (next_pc n) t) (goto j (with_pc Woken u) s)).
Proof.
  intros Hok Hatt Hi Hpc Hj Hu. assert (j <> i) as Hne by (intros ->; unfold is_waiting in Hu; simplify_eq; by rewrite Hpc in Hu).
  assert (threads (goto j (with_pc Woken u) s) !! i = Some t) as Hi' by (cbn; by rewrite lookup_insert_ne).
  exists b. split.
  - apply proceed_safe; [by apply woken_safe|done|by left].
  - apply proceed_attended; [done|by left| |by apply waking_attended]. intros _ _. by apply somewhere_here.
Qed.

Lemma return_ok b s i t block ops consumed : loop_safe b s -> threads s !! i = Some t -> pc t = RunTask block ->
  loop_ok (goto i (mkThr TaskDone (private_ops t ++ ops) (private_work t)) (set_poked (poked s && negb consumed) s)).
Proof.
  intros Hok Hi Hpc. exists b. split; [|by apply busy_attended].
  assert (has_task t = true) as Ht by (unfold has_task; by rewrite Hpc).
  apply (safe_move b s i t); [done..|]. split; try done.
  - rewrite (sleeps_kept _ _ t); [apply Hok|done|]. unfold sleeps. by rewrite Hpc.
  - rewrite Ht. done.
  - by left.
  - congruence.
  - intros _. repeat split; try done. congruence.
Qed.

(** *** Every step *)

Lemma work_ok s w : loop_ok s -> loop_ok (set_work w s).
Proof. intros (b & Hok & Hatt). exists b. split; [split; apply Hok|exact Hatt]. Qed.

Lemma call_moves_ok s i t p t' w : loop_ok s -> threads s !! i = Some t -> pc t = At p ->
  has_task t' = false -> in_reactor t' = false -> sleeps t' = false -> blocks t' = false ->
  busy t' = true \/ (p = Outside /\ runs t' = false) -> loop_ok (goto i t' (set_work w s)).
Proof.
  intros (b & Hok & Hatt) Hi Hpc Ht Hr Hs Hb Hcase. exists b.
  apply (quiet_ok b s i t t' (op_queue_ s) w Hok Hatt Hi);
    [done|unfold has_task at 2|unfold in_reactor at 2|unfold sleeps|done|done|]; rewrite ?Hpc; try done.
  destruct Hcase as [?|[-> ?]]; [by left|right]. unfold runs at 1, is_signalling. by rewrite Hpc.
Qed.

Lemma make_call_ok one_thread i t p c s es s' : loop_ok s -> threads s !! i = Some t -> pc t = At p ->
  make_call one_thread i t p c s = Some (es, s') -> loop_ok s'.
Proof.
  intros Hok Hi Hpc Hcall.
  assert (forall t' w, has_task t' = false -> in_reactor t' = false -> sleeps t' = false -> blocks t' = false ->
    busy t' = true \/ (p = Outside /\ runs t' = false) -> loop_ok (goto i t' (set_work w s))) as Hmove
    by (intros t' w; by apply (call_moves_ok s i t)).
  unfold make_call in Hcall. destruct c, p; simplify_option_eq.
  all: repeat case_match; simplify_eq; first [done | by apply work_ok
    | apply Hmove; try done; first [by left|by right]
    | by apply (Hmove _ (outstanding_work_ s)); first [done|by left|by right] ].
Qed.

Lemma finish_ok s i t op : loop_ok s -> threads s !! i = Some t -> pc t = At (InHandler op) -> loop_ok (work_cleanup i t s).
Proof.
  intros Hok Hi Hpc. unfold work_cleanup.
  destruct (1 <? private_work t); [by apply (call_moves_ok s i t _ _ _ Hok Hi Hpc); try done; left|].
  destruct (private_work t <? 1).
  - apply (call_moves_ok s i t _ _ _ Hok Hi Hpc); destruct (_ =? 0); try done; by left.
  - apply (call_moves_ok s i t _ _ (outstanding_work_ s) Hok Hi Hpc); try done; by left.
Qed.

Lemma task_done_ok s i t : loop_ok s -> threads s !! i = Some t -> pc t = TaskDone ->
  loop_ok (goto i (mkThr TaskLock (private_ops t) 0) (add_work (Z.max 0 (private_work t)) s)).
Proof.
  intros (b & Hok & Hatt) Hi Hpc. exists b.
  apply (quiet_ok b s i t (mkThr TaskLock (private_ops t) 0) (op_queue_ s) _ Hok Hatt Hi);
    unfold has_task, in_reactor, sleeps; rewrite ?Hpc; try done. by left.
Qed.

Lemma thread_step_ok one_thread s i c es s' : loop_ok s -> step one_thread i c s = Some (es, s') -> loop_ok s'.
Proof.
  intros Hok Hstep. unfold step in Hstep. destruct (threads s !! i) as [t|] eqn:Hi; [|done]. cbn in Hstep.
  destruct Hok as (b & Hsafe & Hatt). assert (loop_ok s) as Hok by by exists b.
  destruct (pc t) as [p|[ops| |] n|n| |block| | | |] eqn:Hpc; destruct c as [|j|call| |ops' consumed|];
    try discriminate Hstep; try (by destruct p).
  - destruct p; exact (make_call_ok one_thread i t _ call s es s' Hok Hi Hpc Hstep).
  - destruct p as [|op]; simplify_eq. by apply (finish_ok s i t op).
  - simplify_eq. by apply (push_ok b).
  - simplify_eq. by apply (stop_ok b).
  - destruct (task_ s) eqn:Htask; simplify_eq; [|by apply (init_ok b)]. exists b.
    assert (on_its_way t n) as Hway by (right; by eexists).
    split; [by apply proceed_safe|apply proceed_attended; [done..| |done]]. unfold is_signalling. by rewrite Hpc.
  - case_bool_decide as Hnone; simplify_eq. exists b.
    split; [by apply proceed_safe; [| |left]|]. apply proceed_attended; [done|by left| |done]. intros _ (j & u & Hj & Hu). by rewrite (Hnone j u Hj) in Hu.
  - destruct (threads s !! j) as [u|] eqn:Hj; [|done]. cbn in Hstep. destruct (is_waiting u) eqn:Hu; simplify_eq.
    by apply (signal_ok b s i t n j u).
  - injection Hstep as Hrun. change s' with (es, s').2. rewrite <- Hrun. by apply (run_lock_ok _ b).
  - simplify_eq. by apply (return_ok b s i t block).
  - simplify_eq. by apply task_done_ok.
  - injection Hstep as Hrun. change s' with (es, s').2. rewrite <- Hrun. by apply (task_lock_ok _ b).
  - simplify_eq. exists b. split; [apply woken_safe|apply waking_attended]; unfold is_waiting; by rewrite ?Hpc.
  - pose proof (woken_ok one_thread s i t Hok Hi Hpc) as Hw. cbn in Hw. destruct (posix_event.signalled _); simplify_eq; [|done].
    by rewrite Hstep in Hw.
Qed.

Lemma thread_steps_ok one_thread schedule s es s' : loop_ok s -> steps one_thread schedule s = Some (es, s') -> loop_ok s'.
Proof.
  revert s es. induction schedule as [|[i c] schedule IH]; intros s es Hok Hsteps; [by simplify_eq/=|]. cbn in Hsteps.
  destruct (step one_thread i c s) as [[es1 s1]|] eqn:Hstep; [|done]. cbn in Hsteps.
  destruct (steps one_thread schedule s1) as [[es2 s2]|] eqn:Hrest; [|done]. simplify_eq/=.
  by eapply IH; [eapply thread_step_ok|].
Qed.

Lemma new_loop_ok ids : Z.of_nat (size ids) < 2 ^ 62 -> loop_ok (new_loop ids).
Proof.
  intros Hsize. exists false.
  assert (forall f, f (mkThr (At Outside) [] 0) = false -> ~ somewhere f (threads (new_loop ids))) as Hnone.
  { intros f Hf (i & t & [_ <-]%lookup_gset_to_gmap_Some & Ht). congruence. }
  assert (forall f, f (mkThr (At Outside) [] 0) = false -> count_if f (threads (new_loop ids)) = 0%nat) as Hzero.
  { intros f Hf. destruct (decide (count_if f (threads (new_loop ids)) = 0%nat)) as [|Hne]; [done|].
    destruct (count_if_pos _ _ Hne) as (i & t & Hi & Ht). destruct (Hnone f Hf). by exists i, t. }
  split; [split|by intros []].
  - cbn. by rewrite <- (size_dom (D := gset nat)), dom_gset_to_gmap.
  - by rewrite Hzero.
  - by rewrite Hzero.
  - done.
  - by intros []%Hnone.
  - done.
Qed.

(** ** Progress *)

(** A step that thread [t] makes by itself: not a spurious wake-up, not a call it
    may as well not make, and if the reactor may block, it returns because of the
    interrupter; a thread that wakes up finds the event signalled. *)
Definition own_step (s : Loop) (t : Thr) (c : Choice) : bool :=
  match pc t, c with
  | Waiting, _ | At Outside, _ => false
  | At (InHandler _), Finish => true
  | RunTask block, Return _ _ => negb block || poked s
  | Woken, Go => posix_event.signalled (posix_event.end_wait (wakeup_event_ s))
  | Signalling _, (Go | Wake _) | Locking _ _, Go | RunLock, Go | TaskDone, Go | TaskLock, Go => true
  | _, _ => false
  end.

Fixpoint own_steps (one_thread : bool) (schedule : list (nat * Choice)) (s : Loop) : option (list Event * Loop) :=
  match schedule with
  | [] => Some ([], s)
  | (i, c) :: schedule =>
      t ← threads s !! i;
      if own_step s t c then
        '(es, s) ← step one_thread i c s;
        '(es', s) ← own_steps one_thread schedule s;
        Some (es ++ es', s)
      else None
  end.

(** Steps of a thread until it looks at the queue. *)
Definition distance_next (n : Next) : nat :=
  match n with Back _ => 3 | NextTask => 2 | NextLoop => 0 end.

Definition distance (t : Thr) : nat :=
  match pc t with
  | At _ => 3
  | Locking _ n => 2 + distance_next n
  | Signalling n => 1 + distance_next n
  | RunTask _ => 2
  | TaskDone => 1
  | _ => 0
  end.

(** It will get there without help. *)
Definition ready (s : Loop) (t : Thr) : bool :=
  match pc t with
  | Waiting => false
  | Woken => posix_event.signalled (posix_event.end_wait (wakeup_event_ s))
  | RunTask block => negb block || poked s
  | _ => runs t
  end.

(** What a step to a point nearer to the queue keeps. *)
Definition kept (s s' : Loop) : Prop :=
  (exists more, op_queue_ s' = op_queue_ s ++ more) /\ (stopped_ s = true -> stopped_ s' = true).

Lemma busy_ready s t : busy t = true -> ready s t = true.
Proof. unfold busy, ready. intros [Hr Hp]%andb_prop. by destruct (pc t) as [| | | |[]| | | |]. Qed.

Lemma wake_one_kept s i t n q :
  kept s (wake_one_thread_and_unlock i t n (set_queue (op_queue_ s ++ q) s)) /\
  threads (wake_one_thread_and_unlock i t n (set_queue (op_queue_ s ++ q) s)) !! i
  = Some (with_pc (if (posix_event.unlock_and_signal_one (wakeup_event_ s)).2 then Signalling n else next_pc n) t).
Proof.
  unfold wake_one_thread_and_unlock, interrupt_task. cbn. destruct (1 <? _); [|destruct (_ && _)].
  all: split; [split; [by eexists|done]|apply lookup_insert_eq].
Qed.

Lemma next_ready s t n : next_runs n = true ->
  ready s (with_pc (next_pc n) t) = true /\ (distance (with_pc (next_pc n) t) <= distance_next n)%nat.
Proof. destruct n as [[]| |]; cbn; [done|..]; intros _; split; try done; unfold distance; cbn; lia. Qed.

Lemma stop_kept s : kept s (stop_all_threads s).
Proof.
  unfold stop_all_threads, interrupt_task. by destruct (_ && _); (split; [exists []; by rewrite app_nil_r|]).
Qed.

Definition closer (one_thread : bool) (s : Loop) (i : nat) (t : Thr) : Prop :=
  exists c es s' t', own_step s t c = true /\ step one_thread i c s = Some (es, s') /\ kept s s' /\
    threads s' !! i = Some t' /\ ready s' t' = true /\ (distance t' < distance t)%nat.

Lemma kept_same s s' : op_queue_ s' = op_queue_ s -> stopped_ s' = stopped_ s -> kept s s'.
Proof. intros Hq Hst. split; [exists []; by rewrite app_nil_r|by rewrite Hst]. Qed.

Lemma signalling_closer one_thread s i t n : threads s !! i = Some t -> pc t = Signalling n -> next_runs n = true ->
  closer one_thread s i t.
Proof.
  intros Hi Hpc Hn. unfold closer, step, own_step. rewrite Hi. cbn. rewrite Hpc.
  assert (distance t = 1 + distance_next n)%nat as -> by (unfold distance; by rewrite Hpc).
  destruct (decide (map_Forall (fun _ u => is_waiting u = false) (threads s))) as [Hnone|Hsome].
  - eexists Go, [], _, _. rewrite bool_decide_eq_true_2 by done. split; [done|]. split; [done|]. split; [by apply kept_same|].
    split; [apply lookup_insert_eq|]. destruct (next_ready (goto i (with_pc (next_pc n) t) s) t n Hn). split; [done|lia].
  - apply map_not_Forall in Hsome as (j & u & Hj & Hu); [|apply _]. apply not_false_is_true in Hu.
    eexists (Wake j), [], _, _. rewrite Hj. cbn. rewrite Hu. split; [done|]. split; [done|]. split; [by apply kept_same|].
    split; [apply lookup_insert_eq|].
    destruct (next_ready (goto i (with_pc (next_pc n) t) (goto j (with_pc Woken u) s)) t n Hn). split; [done|lia].
Qed.

Lemma locking_closer one_thread s i t k n : threads s !! i = Some t -> pc t = Locking k n -> next_runs n = true ->
  closer one_thread s i t.
Proof.
  intros Hi Hpc Hn. unfold closer, step, own_step. rewrite Hi. cbn. rewrite Hpc.
  assert (distance t = 2 + distance_next n)%nat as -> by (unfold distance; by rewrite Hpc).
  assert (forall s' b, ready s' (with_pc (if b : bool then Signalling n else next_pc n) t) = true /\
    (distance (with_pc (if b : bool then Signalling n else next_pc n) t) < 2 + distance_next n)%nat) as Hnext.
  { intros s' b. destruct (next_ready s' t n Hn). destruct b; split; [done| |done|lia]. unfold distance. cbn. lia. }
  destruct k as [ops| |].
  - destruct (wake_one_kept s i t n (Operation <$> ops)) as [Hk Hl]. eexists Go, [], _, _. eauto 10.
  - eexists Go, [], _, _. split; [done|]. split; [done|]. split; [apply stop_kept|]. split; [apply lookup_insert_eq|].
    apply (Hnext _ false).
  - destruct (task_ s).
    + eexists Go, [], _, _. split; [done|]. split; [done|]. split; [by apply kept_same|]. split; [apply lookup_insert_eq|].
      apply (Hnext _ false).
    + destruct (wake_one_kept (set_task true s) i t n [TaskOperation]) as [Hk Hl]. eexists Go, [], _, _. eauto 10.
Qed.

Lemma ready_closer one_thread s i t : threads s !! i = Some t -> ready s t = true -> distance t <> 0%nat ->
  closer one_thread s i t.
Proof.
  intros Hi Hready Hd. destruct (pc t) as [[|op]|k n|n| |block| | | |] eqn:Hpc;
    try (unfold distance in Hd; by rewrite Hpc in Hd).
  - unfold ready, runs in Hready. by rewrite Hpc in Hready.
  - assert (distance t = 3)%nat as Hdist by (unfold distance; by rewrite Hpc).
    unfold closer, step, own_step. rewrite Hi, Hdist. cbn. rewrite Hpc. unfold work_cleanup.
    destruct (1 <? _); [|destruct (_ <? 1); [destruct (_ =? 0)|]]; eexists Finish, [], _, _.
    all: split; [done|]; split; [done|]; split; [by apply kept_same|]; split; [apply lookup_insert_eq|].
    all: split; [done|cbn; lia].
  - apply (locking_closer one_thread s i t k n); [done..|]. unfold ready, runs in Hready. by rewrite Hpc in Hready.
  - apply (signalling_closer one_thread s i t n); [done..|]. unfold ready, runs in Hready. by rewrite Hpc in Hready.
  - unfold closer, step, own_step, distance. rewrite Hi. cbn. rewrite Hpc. unfold ready in Hready. rewrite Hpc in Hready.
    eexists (Return [] true), [], _, _. split; [done|]. split; [done|]. split; [by apply kept_same|].
    split; [apply lookup_insert_eq|]. split; [done|]. cbn. lia.
  - unfold closer, step, own_step, distance. rewrite Hi. cbn. rewrite Hpc.
    eexists Go, [], _, _. split; [done|]. split; [done|]. split; [by apply kept_same|].
    split; [apply lookup_insert_eq|]. split; [done|]. cbn. lia.
Qed.

Lemma kept_trans s s' s'' : kept s s' -> kept s' s'' -> kept s s''.
Proof. intros [[m Hm] Hst] [[m' Hm'] Hst']. split; [exists (m ++ m'); by rewrite app_assoc, <- Hm|auto]. Qed.

Lemma gets_to_the_queue one_thread s i t : loop_ok s -> threads s !! i = Some t -> ready s t = true ->
  exists schedule es s' t', Forall (fun x => x.1 = i) schedule /\ (length schedule <= distance t)%nat /\
    own_steps one_thread schedule s = Some (es, s') /\ loop_ok s' /\ kept s s' /\
    threads s' !! i = Some t' /\ ready s' t' = true /\ distance t' = 0%nat.
Proof.
  remember (distance t) as d eqn:Hd. revert s t Hd. induction (lt_wf d) as [d _ IH]. intros s t -> Hok Hi Hr.
  destruct (decide (distance t = 0%nat)) as [Hz|Hnz].
  - exists [], [], s, t. split; [constructor|]. split; [simpl; lia|]. split; [done|]. split; [done|]. split; [by apply kept_same|]. done.
  - destruct (ready_closer one_thread s i t Hi Hr Hnz) as (c & es & s1 & t1 & Hown & Hstep & Hk & Hi1 & Hr1 & Hlt).
    destruct (IH _ Hlt s1 t1 eq_refl) as (schedule & es' & s' & t' & Hall & Hlen & Hsteps & Hok' & Hk' & Hrest);
      [by eapply thread_step_ok|done..|].
    exists ((i, c) :: schedule), (es ++ es'), s', t'. split; [by constructor|]. split; [simpl; lia|].
    split; [cbn; by rewrite Hi; cbn; rewrite Hown, Hstep; cbn; rewrite Hsteps|].
    split; [done|]. split; [by eapply kept_trans|done].
Qed.

Lemma at_the_queue one_thread s i t : threads s !! i = Some t -> ready s t = true -> distance t = 0%nat ->
  exists t0 s0, own_step s t Go = true /\ step one_thread i Go s = Some (do_run_one one_thread i t0 s0) /\
    (exists more, op_queue_ s0 = op_queue_ s ++ more) /\ stopped_ s0 = stopped_ s.
Proof.
  intros Hi Hr Hd. unfold step, own_step. rewrite Hi. cbn. unfold ready, distance in *.
  destruct (pc t) as [| | | |block| | | |] eqn:Hpc; try done.
  - eexists _, _. split; [done|]. split; [done|]. split; [by eexists|done].
  - eexists _, _. split; [done|]. split; [done|]. split; [by eexists|done].
  - rewrite Hr. eexists _, _. split; [done|]. split; [done|]. split; [exists []; by rewrite app_nil_r|done].
Qed.

Lemma do_run_one_stopped one_thread i t s : stopped_ s = true ->
  threads (do_run_one one_thread i t s).2 !! i = Some (with_pc (At Outside) t).
Proof. intros Hst. unfold do_run_one. rewrite Hst. apply lookup_insert_eq. Qed.

Lemma wake_one_queue i t n s : op_queue_ (wake_one_thread_and_unlock i t n s) = op_queue_ s.
Proof. unfold wake_one_thread_and_unlock. cbn. destruct (1 <? _); [done|]. etrans; [apply interrupt_queue|done]. Qed.

(** What [do_run_one] does with the front of the queue. *)
Definition serves (o : IoOp) (es : list Event) : Prop :=
  match o with Operation op => es = [Completed op] | TaskOperation => es = [] end.

Lemma do_run_one_serves one_thread i t s o rest : stopped_ s = false -> op_queue_ s = o :: rest ->
  op_queue_ (do_run_one one_thread i t s).2 = rest /\ serves o (do_run_one one_thread i t s).1.
Proof.
  intros Hst Hq. unfold do_run_one. rewrite Hst, Hq. destruct o as [|op].
  - by destruct (_ && _).
  - destruct (_ && _); [|done]. cbn [snd fst]. by rewrite wake_one_queue.
Qed.

Lemma own_steps_snoc one_thread schedule s es s1 i t c es' s' :
  own_steps one_thread schedule s = Some (es, s1) -> threads s1 !! i = Some t -> own_step s1 t c = true ->
  step one_thread i c s1 = Some (es', s') -> own_steps one_thread (schedule ++ [(i, c)]) s = Some (es ++ es', s').
Proof.
  intros Hsteps Hi Hown Hstep. revert s es Hsteps.
  induction schedule as [|[j d] schedule IH]; intros s es Hsteps; cbn in *.
  - simplify_eq. rewrite Hi. cbn. rewrite Hown, Hstep. cbn. by rewrite app_nil_r.
  - destruct (threads s !! j) as [u|]; [|done]. cbn in *. destruct (own_step s u d); [|done].
    destruct (step one_thread j d s) as [[es1 s2]|]; [|done]. cbn in *.
    destruct (own_steps one_thread schedule s2) as [[es2 s3]|] eqn:Hrest; [|done]. cbn in *. simplify_eq.
    rewrite (IH _ _ Hrest). cbn. by rewrite app_assoc.
Qed.

(** Served, or stopped on the way. *)
Definition served (s : Loop) (es : list Event) (s' : Loop) : Prop :=
  stopped_ s' = true \/
  exists o rest more before after, op_queue_ s = o :: rest /\ op_queue_ s' = rest ++ more /\ es = before ++ after /\ serves o after.

Lemma distance_bound t : (distance t <= 5)%nat.
Proof. unfold distance, distance_next. destruct (pc t) as [|k n|n| | | | | |]; try (destruct n); lia. Qed.

Lemma do_run_one_stays one_thread i t s : stopped_ s = true -> stopped_ (do_run_one one_thread i t s).2 = true.
Proof. intros Hst. unfold do_run_one. by rewrite Hst. Qed.

Lemma ready_serves one_thread s i t : loop_ok s -> threads s !! i = Some t -> ready s t = true -> op_queue_ s <> [] ->
  exists schedule es s', (length schedule <= S (distance t))%nat /\ own_steps one_thread schedule s = Some (es, s') /\ served s es s'.
Proof.
  intros Hok Hi Hr Hq.
  destruct (gets_to_the_queue one_thread s i t Hok Hi Hr)
    as (schedule & es & s1 & t1 & _ & Hlen & Hsteps & _ & [[more Hk] _] & Hi1 & Hr1 & Hd1).
  destruct (at_the_queue one_thread s1 i t1 Hi1 Hr1 Hd1) as (t0 & s0 & Hown & Hstep & [more' Hmore] & Hst).
  destruct (do_run_one one_thread i t0 s0) as [es' s'] eqn:Hrun. exists (schedule ++ [(i, Go)]), (es ++ es'), s'.
  split; [rewrite length_app; simpl; lia|]. split; [by eapply own_steps_snoc|].
  destruct (stopped_ s0) eqn:Hst0.
  - left. change s' with (es', s').2. rewrite <- Hrun. by apply do_run_one_stays.
  - right. destruct (op_queue_ s) as [|o rest] eqn:Hqs; [done|]. rewrite Hk in Hmore.
    destruct (do_run_one_serves one_thread i t0 s0 o ((rest ++ more) ++ more') Hst0 Hmore) as [Hq' Hs].
    rewrite Hrun in Hq', Hs. exists o, rest, (more ++ more'), es, es'. by rewrite app_assoc.
Qed.

Lemma woken_ready s i t : loop_safe true s -> threads s !! i = Some t -> is_woken t = true -> ready s t = true.
Proof.
  intros Hok Hi Ht. unfold is_woken, ready in *. destruct (pc t) eqn:Hpc; try done.
  destruct (woken_event true s i t Hok Hi Hpc) as (n & _ & -> & _). apply event_signalled.
Qed.

(** A signal wakes a thread up, which then serves the queue. *)
Lemma signal_serves one_thread s i t j u : loop_safe true s -> op_queue_ s <> [] ->
  threads s !! i = Some t -> is_signalling t = true -> threads s !! j = Some u -> is_waiting u = true ->
  exists schedule es s', (length schedule <= 6)%nat /\ own_steps one_thread schedule s = Some (es, s') /\ served s es s'.
Proof.
  intros Hok Hq Hi Ht Hj Hu. unfold is_signalling in Ht. destruct (pc t) as [| |n| | | | | |] eqn:Hpc; try done.
  assert (j <> i) as Hne by (intros ->; unfold is_waiting in Hu; simplify_eq; by rewrite Hpc in Hu).
  set (s1 := goto i (with_pc (next_pc n) t) (goto j (with_pc Woken u) s)).
  assert (threads s1 !! j = Some (with_pc Woken u)) as Hj1 by (cbn; by rewrite lookup_insert_ne, lookup_insert_eq).
  assert (loop_safe true s1) as Hok1.
  { apply proceed_safe; [by apply woken_safe| |by left]. cbn. by rewrite lookup_insert_ne. }
  destruct (ready_serves one_thread s1 j (with_pc Woken u)) as (schedule & es & s' & Hlen & Hsteps & Hserved); [|done| |done|].
  - exists true. split; [done|].
    intros _ _ _. right. right. split; [done|]. left. by exists j, (with_pc Woken u).
  - by apply (woken_ready s1 j).
  - exists ((i, Wake j) :: schedule), es, s'. split; [cbn in *; lia|]. split; [|done].
    cbn. rewrite Hi. cbn. unfold own_step, step. rewrite Hpc, Hi. cbn. rewrite Hpc, Hj. cbn. rewrite Hu. cbn.
    fold s1. by rewrite Hsteps.
Qed.

Lemma unstopped_served one_thread s : loop_ok s -> stopped_ s = false -> op_queue_ s <> [] -> somewhere runs (threads s) ->
  exists schedule es s', (length schedule <= 6)%nat /\ own_steps one_thread schedule s = Some (es, s') /\ served s es s'.
Proof.
  intros Hok Hst Hq Hruns.
  assert (forall i t, threads s !! i = Some t -> ready s t = true -> exists schedule es s',
    (length schedule <= 6)%nat /\ own_steps one_thread schedule s = Some (es, s') /\ served s es s') as Hready.
  { intros i t Hi Ht. destruct (ready_serves one_thread s i t Hok Hi Ht Hq) as (schedule & es & s' & Hlen & Hrest).
    exists schedule, es, s'. split; [|done]. pose proof (distance_bound t). lia. }
  destruct Hok as (b & Hsafe & Hatt).
  destruct (Hatt Hq Hst Hruns) as [(i & t & Hi & Ht)|[[Hp (i & t & Hi & Ht)]|[-> [(i & t & Hi & Ht)|[Hsig Hwait]]]]].
  - by apply (Hready i t), busy_ready.
  - apply (Hready i t); [done|]. unfold ready, blocks in *. destruct (pc t); try done. by rewrite Hp, orb_true_r.
  - by apply (Hready i t), (woken_ready s i).
  - destruct Hsig as (i & t & Hi & Ht), Hwait as (j & u & Hj & Hu). by apply (signal_serves _ s i t j u).
Qed.

(** C19. No wake-up is lost: whatever threads have posted, run and stopped, by
    whatever interleaving, while a thread is inside of [run] and the queue is not
    empty, six steps that threads make by themselves, without a spurious wake-up or
    any event at the sockets, take the front of the queue (and run it, where it is
    an operation) or find the loop stopped. *)
Theorem queue_is_served one_thread ids schedule es s :
  Z.of_nat (size ids) < 2 ^ 62 -> steps one_thread schedule (new_loop ids) = Some (es, s) ->
  op_queue_ s <> [] -> somewhere runs (threads s) ->
  exists schedule' es' s', (length schedule' <= 6)%nat /\ own_steps one_thread schedule' s = Some (es', s') /\ served s es' s'.
Proof.
  intros Hids Hsteps Hq Hruns. pose proof (thread_steps_ok _ _ _ _ _ (new_loop_ok ids Hids) Hsteps) as Hok.
  destruct (stopped_ s) eqn:Hst.
  { exists [], [], s. split; [simpl; lia|]. split; [done|]. by left. }
  by apply unstopped_served.
Qed.

(** A stopped loop lets every thread go. *)
Lemma stopped_ready b s i t : loop_safe b s -> stopped_ s = true -> threads s !! i = Some t -> runs t = true -> ready s t = true.
Proof.
  intros Hok Hst Hi Hr. destruct (lo_stopped _ _ Hok Hst) as (Hw & Hwo & Hbl). destruct (pc t) as [| | | |block| | | |] eqn:Hpc.
  all: unfold ready; rewrite Hpc; try done.
  - destruct block; [|done]. cbn. apply Hbl. exists i, t. unfold blocks. by rewrite Hpc.
  - destruct Hw. exists i, t. unfold is_waiting. by rewrite Hpc.
  - assert (b = true) as -> by (apply Hwo; exists i, t; unfold is_woken; by rewrite Hpc).
    destruct (woken_event true s i t Hok Hi Hpc) as (n & _ & -> & _). apply event_signalled.
Qed.

(** C20. After a stop every thread inside of [run] leaves it, in at most six steps of
    its own: none stays asleep, and none stays blocked in the reactor. *)
Theorem stop_reaches_every_thread one_thread ids schedule es s i t :
  Z.of_nat (size ids) < 2 ^ 62 -> steps one_thread schedule (new_loop ids) = Some (es, s) ->
  stopped_ s = true -> threads s !! i = Some t -> runs t = true ->
  exists schedule' es' s' t', Forall (fun x => x.1 = i) schedule' /\ (length schedule' <= 6)%nat /\
    own_steps one_thread schedule' s = Some (es', s') /\ stopped_ s' = true /\ threads s' !! i = Some t' /\ pc t' = At Outside.
Proof.
  intros Hids Hsteps Hst Hi Hr. pose proof (thread_steps_ok _ _ _ _ _ (new_loop_ok ids Hids) Hsteps) as Hok.
  assert (ready s t = true) as Hready by (destruct Hok as (b & Hsafe & _); by apply (stopped_ready b s i t)).
  destruct (gets_to_the_queue one_thread s i t Hok Hi Hready)
    as (sch & es1 & s1 & t1 & Hall & Hlen & Hs1 & _ & [_ Hst1] & Hi1 & Hr1 & Hd1).
  destruct (at_the_queue one_thread s1 i t1 Hi1 Hr1 Hd1) as (t0 & s0 & Hown & Hstep & _ & Hst0).
  rewrite (Hst1 Hst) in Hst0. exists (sch ++ [(i, Go)]), (es1 ++ (do_run_one one_thread i t0 s0).1), (do_run_one one_thread i t0 s0).2.
  exists (with_pc (At Outside) t0). split; [apply Forall_app; split; [done|by repeat constructor]|].
  split; [rewrite length_app; simpl; pose proof (distance_bound t); lia|].
  split; [eapply own_steps_snoc; [done..|]; by rewrite Hstep; destruct (do_run_one one_thread i t0 s0)|].
  split; [by apply do_run_one_stays|]. split; [by apply do_run_one_stopped|done].
Qed.

Lemma taken_once b s i t j u : loop_safe b s -> threads s !! i = Some t -> has_task t = true ->
  (threads s !! j = Some u -> has_task u = true -> i = j) /\ TaskOperation ∉ op_queue_ s.
Proof.
  intros Hok Hi Ht. split; [intros Hj Hu; by apply (one_has_task b s j u i t)|]. intros Hin.
  pose proof (lo_task _ _ Hok) as Hone. rewrite <- (insert_delete_id _ _ _ Hi), count_if_fresh in Hone by apply lookup_delete_eq.
  rewrite Ht in Hone. apply list_elem_of_split in Hin as (q1 & q2 & Hq). rewrite Hq, count_task_app in Hone.
  change (TaskOperation :: q2) with ([TaskOperation] ++ q2) in Hone. rewrite count_task_app in Hone.
  change (count_task [TaskOperation]) with 1%nat in Hone. destruct (task_ s); cbn [Nat.b2n] in Hone; lia.
Qed.

(** The reactor is never run by two threads: of the threads at most one holds
    the task, and while one does it is not in the queue. *)
Theorem one_thread_in_the_reactor one_thread ids schedule es s i t j u :
  Z.of_nat (size ids) < 2 ^ 62 -> steps one_thread schedule (new_loop ids) = Some (es, s) ->
  threads s !! i = Some t -> threads s !! j = Some u -> has_task t = true ->
  (has_task u = true -> i = j) /\ TaskOperation ∉ op_queue_ s.
Proof.
  intros Hids Hsteps Hi Hj Ht. destruct (thread_steps_ok _ _ _ _ _ (new_loop_ok ids Hids) Hsteps) as (b & Hok & _).
  destruct (taken_once b s i t j u Hok Hi Ht). auto.
Qed.

Lemma gather_empty {A B} (f : A -> list B) (m : gmap nat A) : (forall i x, m !! i = Some x -> f x = []) -> gather f m = [].
Proof.
  intros Hf. apply Permutation_nil_r. unfold gather. assert (forall x, x ∈ (map_to_list m).*2 -> f x = []) as Hl.
  { intros x ([i y] & -> & Hin)%list_elem_of_fmap. apply elem_of_map_to_list in Hin. by eapply Hf. }
  induction ((map_to_list m).*2) as [|x l IH]; [done|]. cbn. rewrite (Hl x) by left. apply IH. intros y Hy. apply Hl. by right.
Qed.

(** C21. Whatever the threads do and however they interleave, of the operations given
    to the scheduler each is, once, in the trace of the executed ones, in the queue,
    in the private queue of one thread, or about to be pushed by one. *)
Theorem threads_execute_each_once one_thread ids schedule es s :
  steps one_thread schedule (new_loop ids) = Some (es, s) -> given es ≡ₚ completed es ++ held s.
Proof.
  intros Hsteps.
  assert (forall i t, threads (new_loop ids) !! i = Some t -> t = mkThr (At Outside) [] 0) as Hnew
    by (intros i t [_ <-]%lookup_gset_to_gmap_Some; done).
  assert (accounts (new_loop ids) es s) as Hacc.
  { apply (steps_account one_thread schedule); [|done]. intros i t Hi. by rewrite (Hnew i t Hi). }
  assert (held (new_loop ids) = []) as Hheld.
  { unfold held. cbn. apply gather_empty. intros i t Hi. by rewrite (Hnew i t Hi). }
  unfold accounts in Hacc. by rewrite Hheld, app_nil_r in Hacc.
Qed.

(** ** Witnesses *)

(** Thread 0 blocks in the reactor, thread 1 sleeps, and thread 2, which has posted
    operation 7, is about to wake thread 1. *)
Definition posted : list (nat * Choice) :=
  [(2, Make CallInit); (2, Go); (2, Make CallWorkStarted); (0, Make CallRun); (0, Go); (1, Make CallRun); (1, Go);
   (2, Make (CallPost 7 false)); (2, Go)]%nat.

(** Then it stops the loop. *)
Definition stopping : list (nat * Choice) := posted ++ [(2, Wake 1); (2, Make CallStop); (2, Go)]%nat.

Definition three : gset nat := {[0; 1; 2]}%nat.

Definition outcome (schedule : list (nat * Choice)) : list Event * Loop :=
  default ([], new_loop three) (steps false schedule (new_loop three)).

Definition thread_of (s : Loop) (i : nat) : Thr := default (mkThr (At Outside) [] 0) (threads s !! i).

Lemma queue_is_served_witness : exists schedule es s, (length schedule <= 6)%nat /\
  own_steps false schedule (outcome posted).2 = Some (es, s) /\ served (outcome posted).2 es s.
Proof.
  apply (queue_is_served false three posted (outcome posted).1).
  - by vm_compute.
  - by vm_compute.
  - by vm_compute.
  - exists 0%nat, (thread_of (outcome posted).2 0). by split; vm_compute.
Defined.

Lemma stop_reaches_every_thread_witness : exists schedule es s t, Forall (fun x => x.1 = 1%nat) schedule /\
  (length schedule <= 6)%nat /\ own_steps false schedule (outcome stopping).2 = Some (es, s) /\ stopped_ s = true /\
  threads s !! 1%nat = Some t /\ pc t = At Outside.
Proof.
  apply (stop_reaches_every_thread false three stopping (outcome stopping).1 (outcome stopping).2 1 (thread_of (outcome stopping).2 1)).
  all: by vm_compute.
Defined.

Lemma one_thread_in_the_reactor_witness :
  (has_task (thread_of (outcome posted).2 1) = true -> 0%nat = 1%nat) /\ TaskOperation ∉ op_queue_ (outcome posted).2.
Proof.
  apply (one_thread_in_the_reactor false three posted (outcome posted).1 (outcome posted).2 0 (thread_of (outcome posted).2 0)).
  all: by vm_compute.
Defined.

Lemma threads_execute_each_once_witness :
  given (outcome stopping).1 ≡ₚ completed (outcome stopping).1 ++ held (outcome stopping).2.
Proof. apply (threads_execute_each_once false three stopping). by vm_compute. Defined.
