(* ===== verification/AsioTime.v ===== *)
(** * asio: times and durations

    [chrono_time_traits] for a clock whose times are 64-bit counts of ticks since
    its epoch, one tick being [num]/[den] seconds.  Its additions saturate instead
    of overflowing; an overflow of the arithmetic it does itself is undefined. *)
From S2P Require Import Prelude.
Local Open Scope Z_scope.

Definition time_max : Z := 2 ^ 63 - 1.
Definition time_min : Z := - 2 ^ 63.

(** 64-bit signed arithmetic. *)
Definition int64_arith (z : Z) : result Z :=
  _ ← defined_when (bool_decide (time_min <= z <= time_max)) "signed overflow"; Ok z.

Definition less_than (t1 t2 : Z) : bool := t1 <? t2.

Definition time_add (t d : Z) : result Z :=
  if 0 <=? t then
    room ← int64_arith (time_max - t);
    if room <? d then Ok time_max else int64_arith (t + d)
  else
    room ← int64_arith (t - time_min);
    room ← int64_arith (- room);
    if d <? room then Ok time_min else int64_arith (t + d).

Definition time_subtract (t1 t2 : Z) : result Z :=
  if 0 <=? t1 then
    if 0 <=? t2 then int64_arith (t1 - t2)
    else if t2 =? time_min then Ok time_max
    else
      room ← int64_arith (time_max - t1);
      back ← int64_arith (0 - t2);
      if room <? back then Ok time_max else int64_arith (t1 - t2)
  else
    if t2 <? 0 then int64_arith (t1 - t2)
    else if t1 =? time_min then Ok time_min
    else
      room ← int64_arith (time_max - t2);
      back ← int64_arith (0 - t1);
      if room <? back then Ok time_min
      else d ← int64_arith (t2 - t1); int64_arith (- d).

Section durations.
Context (period_num period_den : Z).

(** [posix_time_duration::duration_cast]: the constants are computed by the
    compiler. *)
Definition duration_cast (num den ticks : Z) : result Z :=
  let num1 := period_num / Z.gcd period_num num in
  let num2 := num / Z.gcd period_num num in
  let den1 := period_den / Z.gcd period_den den in
  let den2 := den / Z.gcd period_den den in
  let n := num1 * den2 in
  let d := num2 * den1 in
  if (n =? 1) && (d =? 1) then Ok ticks
  else if negb (n =? 1) && (d =? 1) then int64_arith (ticks * n)
  else if (n =? 1) && negb (period_den =? 1) then Ok (Z.quot ticks d)
  else ticks ← int64_arith (ticks * n); Ok (Z.quot ticks d).

Definition total_seconds (ticks : Z) : result Z := duration_cast 1 1 ticks.
Definition total_milliseconds (ticks : Z) : result Z := duration_cast 1 1000 ticks.
Definition total_microseconds (ticks : Z) : result Z := duration_cast 1 1000000 ticks.

(** [timer_queue::to_msec] and [to_usec]: at least one unit while there is time
    left, at most [max_duration]. *)
Definition clamp_duration (total : Z -> result Z) (ticks max_duration : Z) : result Z :=
  if ticks <=? 0 then Ok 0
  else
    units ← total ticks;
    if units =? 0 then Ok 1
    else if max_duration <? units then Ok max_duration
    else Ok units.

Definition to_msec (ticks max_duration : Z) : result Z := clamp_duration total_milliseconds ticks max_duration.
Definition to_usec (ticks max_duration : Z) : result Z := clamp_duration total_microseconds ticks max_duration.
End durations.

(** ** Properties *)

Definition in_time (t : Z) : Prop := time_min <= t <= time_max.

Definition saturate (t : Z) : Z := Z.max time_min (Z.min time_max t).

Lemma int64_arith_ok z : in_time z -> int64_arith z = Ok z.
Proof. intros Hz. unfold int64_arith. by rewrite bool_decide_eq_true_2. Qed.

Ltac time_arith :=
  repeat first
    [ match goal with |- int64_arith ?z ≫= _ = _ =>
        rewrite (int64_arith_ok z) by (unfold in_time, time_min, time_max in *; lia); cbn [mbind result_bind] end
    | match goal with |- int64_arith ?z = _ =>
        rewrite (int64_arith_ok z) by (unfold in_time, time_min, time_max in *; lia) end
    | match goal with |- context [if ?b then _ else _] => destruct b eqn:? end ];
  f_equal; unfold saturate, in_time, time_min, time_max in *; lia.

Lemma time_subtract_saturates t u : in_time t -> in_time u -> time_subtract t u = Ok (saturate (t - u)).
Proof. intros Ht Hu. unfold time_subtract. time_arith. Qed.

(** Neither operation overflows; each yields the exact result, or the end of the
    range it lies beyond. *)
Theorem time_arithmetic_saturates (t u : Z) :
  in_time t -> in_time u ->
  time_add t u = Ok (saturate (t + u)) /\ time_subtract t u = Ok (saturate (t - u)).
Proof. intros Ht Hu. unfold time_add, time_subtract. split; time_arith. Qed.

Lemma time_arithmetic_saturates_witness :
  in_time (-5) /\ in_time time_max /\
  time_add (-5) time_max = Ok (saturate (-5 + time_max)) /\
  time_subtract (-5) time_max = Ok (saturate (-5 - time_max)).
Proof.
  split; [vm_compute; split; discriminate|]. split; [vm_compute; split; discriminate|].
  apply time_arithmetic_saturates; vm_compute; split; discriminate.
Defined.

(** Waiting for the time left never ends before it is due by more than a unit, and
    never takes no time at all while there is time left.  *)
Lemma clamp_duration_bounds (total : Z -> result Z) (ticks max units : Z) :
  total ticks = Ok units -> 0 <= units -> 0 < max ->
  exists r, clamp_duration total ticks max = Ok r /\ 0 <= r <= max /\ (0 < ticks -> 0 < r).
Proof.
  intros Ht Hu Hm. unfold clamp_duration. destruct (Z.leb_spec ticks 0); [exists 0; split; [done|lia]|].
  rewrite Ht. cbn. destruct (Z.eqb_spec units 0); [exists 1; split; [done|lia]|].
  destruct (Z.ltb_spec max units); [exists max; split; [done|lia]|].
  exists units. split; [done|lia].
Qed.
