(* ===== verification/AsioReactor.v ===== *)
(** * asio: the reactor that waits for sockets

    [epoll_reactor] keeps the operations that wait for a descriptor in three
    queues per descriptor and hands them to the scheduler once they are done.
    The kernel is an argument: [perform k] is the status of the [k]-th attempt to
    carry out an operation, [epoll_ctl k] the error number of the [k]-th call and
    [epoll_wait k] the events the [k]-th wait returns.  The timer queues are
    behind the interface [TimerQueueSet], which AsioTimerQueue.v implements.
    Each function is one step: it runs under the mutex of the descriptor. *)
From S2P Require Import Prelude AsioScheduler.
Local Open Scope Z_scope.

(** ** Data *)

Inductive OpType := read_op | write_op | except_op.
Definition connect_op : OpType := write_op.

#[global] Instance OpType_eq_dec : EqDecision OpType.
Proof. solve_decision. Defined.

(** An array with [max_ops] elements. *)
Record PerOp (A : Type) := mkPerOp { at_read : A; at_write : A; at_except : A }.
Arguments mkPerOp {A} _ _ _.
Arguments at_read {A} _.
Arguments at_write {A} _.
Arguments at_except {A} _.

Definition per_op {A} (t : OpType) (p : PerOp A) : A :=
  match t with read_op => at_read p | write_op => at_write p | except_op => at_except p end.

Definition set_per_op {A} (t : OpType) (x : A) (p : PerOp A) : PerOp A :=
  match t with
  | read_op => mkPerOp x (at_write p) (at_except p)
  | write_op => mkPerOp (at_read p) x (at_except p)
  | except_op => mkPerOp (at_read p) (at_write p) x
  end.

Inductive Status := not_done | done | done_and_exhausted.

#[global] Instance Status_eq_dec : EqDecision Status.
Proof. solve_decision. Defined.

Inductive OpError :=
| bad_descriptor
| operation_not_supported
| reactor_operation_aborted
| system_error (errno : Z).

(** class [descriptor_state]; [task_result_] is the member of its base class in
    which the events wait. *)
Record descriptor_state := mkDescriptor {
  descriptor_ : Z;
  registered_events_ : Z;
  desc_queue : PerOp (list nat);
  try_speculative_ : PerOp bool;
  desc_shutdown_ : bool;
  task_result_ : Z;
}.

(** A new object; the members the constructor leaves open are written before
    they are read. *)
Definition new_descriptor_state : descriptor_state :=
  mkDescriptor 0 0 (mkPerOp [] [] []) (mkPerOp false false false) false 0.

(** <sys/epoll.h> *)
Definition EPOLLIN : Z := 1.
Definition EPOLLPRI : Z := 2.
Definition EPOLLOUT : Z := 4.
Definition EPOLLERR : Z := 8.
Definition EPOLLHUP : Z := 16.
Definition EPOLLET : Z := 2 ^ 31.
Definition EPERM : Z := 1.

Definition bits (flags : list Z) : Z := foldr Z.lor 0 flags.

Definition flag (t : OpType) : Z :=
  match t with read_op => EPOLLIN | write_op => EPOLLOUT | except_op => EPOLLPRI end.

(** What [data.ptr] of an event points to. *)
Inductive EventPtr := PtrInterrupter | PtrTimerFd | PtrDescriptor (d : nat).

Inductive CtlOp := EPOLL_CTL_ADD | EPOLL_CTL_MOD | EPOLL_CTL_DEL.

(** The descriptors the reactor owns itself, or a socket. *)
Inductive CtlTarget := InterrupterFd | TimerFd | Socket (descriptor : Z).

Inductive ReactorEffect :=
| ToScheduler (c : IoCall)
| Perform (op : nat)
| CompleteReactorOp (op : nat)
| DestroyReactorOp (op : nat)
| EpollCtl (o : CtlOp) (target : CtlTarget) (events : Z) (ptr : EventPtr)
| EpollWait (timeout : Z)
| SetTimerFd (flags sec nsec : Z)
| WriteInterrupter.

(** What [run] adds to the queue of the scheduler. *)
Inductive RunOp := RunDescriptor (d : nat) | RunOperation (op : nat).

#[global] Instance RunOp_eq_dec : EqDecision RunOp.
Proof. solve_decision. Defined.

(** ** The timer queues *)

(** [timer_queue_set] and the queues in it, which are numbered. *)
Class TimerQueueSet (Q : Type) := {
  tqs_wait_msec : Z -> Q -> result (Z * Q);
  tqs_wait_usec : Z -> Q -> result (Z * Q);
  tqs_get_ready : Q -> result (list nat * Q);
  tqs_get_all : Q -> result (list nat * Q);
  tqs_enqueue : nat -> Z -> nat -> nat -> Q -> result (bool * Q);
  tqs_cancel : nat -> nat -> Z -> Q -> result (list nat * Q);
  tqs_move : nat -> nat -> nat -> Q -> result (unit * Q);
}.

(** What the reactor relies on: no operation is lost or made up.  A [valid]
    timer exists and a [size_t] can count its operations, an [idle] one has none,
    an [active] one has some. *)
Class TimerQueueSetOk (Q : Type) `{TimerQueueSet Q} := {
  tqs_ok : Q -> Prop;
  tqs_pending : Q -> list nat;
  tqs_valid : nat -> nat -> Q -> Prop;
  tqs_idle : nat -> nat -> Q -> Prop;
  tqs_active : nat -> nat -> Q -> Prop;
  tqs_time : Z -> Prop;
  tqs_wait_msec_spec n q : tqs_ok q -> exists r q',
    tqs_wait_msec n q = Ok (r, q') /\ tqs_ok q' /\ tqs_pending q' ≡ₚ tqs_pending q;
  tqs_wait_usec_spec n q : tqs_ok q -> exists r q',
    tqs_wait_usec n q = Ok (r, q') /\ tqs_ok q' /\ tqs_pending q' ≡ₚ tqs_pending q;
  tqs_get_ready_spec q : tqs_ok q -> exists ops q',
    tqs_get_ready q = Ok (ops, q') /\ tqs_ok q' /\ ops ++ tqs_pending q' ≡ₚ tqs_pending q;
  tqs_get_all_spec q : tqs_ok q -> exists ops q',
    tqs_get_all q = Ok (ops, q') /\ tqs_ok q' /\ ops ++ tqs_pending q' ≡ₚ tqs_pending q;
  tqs_enqueue_spec i time t op q : tqs_ok q -> tqs_time time -> tqs_valid i t q -> exists r q',
    tqs_enqueue i time t op q = Ok (r, q') /\ tqs_ok q' /\ tqs_pending q' ≡ₚ op :: tqs_pending q;
  tqs_cancel_spec i t n q : tqs_ok q -> tqs_valid i t q -> exists ops q',
    tqs_cancel i t n q = Ok (ops, q') /\ tqs_ok q' /\ ops ++ tqs_pending q' ≡ₚ tqs_pending q /\
    (n = uint64_max -> tqs_idle i t q') /\ (forall t', t' <> t -> tqs_active i t' q -> tqs_active i t' q');
  tqs_move_spec i t t' q : tqs_ok q -> t' <> t -> tqs_active i t' q -> tqs_idle i t q -> exists q',
    tqs_move i t t' q = Ok (tt, q') /\ tqs_ok q' /\ tqs_pending q' ≡ₚ tqs_pending q;
}.

(** ** The reactor *)

(** class [epoll_reactor].  [states] are the [descriptor_state] objects, and the
    [object_pool] of them is the lists of those in use and of those free. *)
Record Reactor (Q : Type) := mkReactor {
  states : gmap nat descriptor_state;
  live_list_ : list nat;
  free_list_ : list nat;
  timer_fd_ : bool;
  timer_queues_ : Q;
  reactor_shutdown_ : bool;
  op_ec_ : gmap nat OpError;
  performs : nat;
  ctls : nat;
  waits : nat;
}.
Arguments mkReactor {Q} _ _ _ _ _ _ _ _ _ _.
Arguments states {Q} _.
Arguments live_list_ {Q} _.
Arguments free_list_ {Q} _.
Arguments timer_fd_ {Q} _.
Arguments timer_queues_ {Q} _.
Arguments reactor_shutdown_ {Q} _.
Arguments op_ec_ {Q} _.
Arguments performs {Q} _.
Arguments ctls {Q} _.
Arguments waits {Q} _.

Section reactor_setters.
Context {Q : Type}.
Implicit Types (s : Reactor Q) (d : descriptor_state).

Definition set_states x s := mkReactor x (live_list_ s) (free_list_ s) (timer_fd_ s) (timer_queues_ s)
  (reactor_shutdown_ s) (op_ec_ s) (performs s) (ctls s) (waits s).
Definition set_pool live free s := mkReactor (states s) live free (timer_fd_ s) (timer_queues_ s)
  (reactor_shutdown_ s) (op_ec_ s) (performs s) (ctls s) (waits s).
Definition set_timer_queues (x : Q) s := mkReactor (states s) (live_list_ s) (free_list_ s) (timer_fd_ s) x
  (reactor_shutdown_ s) (op_ec_ s) (performs s) (ctls s) (waits s).
Definition set_reactor_shutdown x s := mkReactor (states s) (live_list_ s) (free_list_ s) (timer_fd_ s)
  (timer_queues_ s) x (op_ec_ s) (performs s) (ctls s) (waits s).
Definition set_op_ec x s := mkReactor (states s) (live_list_ s) (free_list_ s) (timer_fd_ s)
  (timer_queues_ s) (reactor_shutdown_ s) x (performs s) (ctls s) (waits s).
Definition set_performs x s := mkReactor (states s) (live_list_ s) (free_list_ s) (timer_fd_ s)
  (timer_queues_ s) (reactor_shutdown_ s) (op_ec_ s) x (ctls s) (waits s).
Definition set_ctls x s := mkReactor (states s) (live_list_ s) (free_list_ s) (timer_fd_ s)
  (timer_queues_ s) (reactor_shutdown_ s) (op_ec_ s) (performs s) x (waits s).
Definition set_waits x s := mkReactor (states s) (live_list_ s) (free_list_ s) (timer_fd_ s)
  (timer_queues_ s) (reactor_shutdown_ s) (op_ec_ s) (performs s) (ctls s) x.

Definition set_descriptor x d := mkDescriptor x (registered_events_ d) (desc_queue d)
  (try_speculative_ d) (desc_shutdown_ d) (task_result_ d).
Definition set_registered x d := mkDescriptor (descriptor_ d) x (desc_queue d)
  (try_speculative_ d) (desc_shutdown_ d) (task_result_ d).
Definition set_queue t x d := mkDescriptor (descriptor_ d) (registered_events_ d)
  (set_per_op t x (desc_queue d)) (try_speculative_ d) (desc_shutdown_ d) (task_result_ d).
Definition set_speculative x d := mkDescriptor (descriptor_ d) (registered_events_ d) (desc_queue d)
  x (desc_shutdown_ d) (task_result_ d).
Definition set_desc_shutdown x d := mkDescriptor (descriptor_ d) (registered_events_ d) (desc_queue d)
  (try_speculative_ d) x (task_result_ d).
Definition set_task_result x d := mkDescriptor (descriptor_ d) (registered_events_ d) (desc_queue d)
  (try_speculative_ d) (desc_shutdown_ d) x.
End reactor_setters.

Section reactor.
Context {Q : Type} `{!TimerQueueSet Q}.
Context (perform : nat -> Status) (epoll_ctl : nat -> Z) (epoll_wait : nat -> list (EventPtr * Z)).

Local Abbreviation M := (comp (Reactor Q) ReactorEffect).
Implicit Types (s : Reactor Q) (d op : nat) (t : OpType) (st : descriptor_state).

(** *** Access to the parts of the state *)

Definition deref (d : nat) : M descriptor_state :=
  s ← get_state;
  match states s !! d with
  | Some state => mret state
  | None => fail_with (UndefinedBehaviour "no descriptor state")
  end.

Definition update_state (d : nat) (f : descriptor_state -> descriptor_state) : M unit :=
  modify (fun s => set_states (alter f d (states s)) s).

Definition set_error (op : nat) (e : OpError) : M unit :=
  modify (fun s => set_op_ec (<[op := e]> (op_ec_ s)) s).

(** [op->perform ()] *)
Definition do_perform (op : nat) : M Status :=
  s ← get_state;
  emit (Perform op) ;; (modify (set_performs (S (performs s))) ;; (mret (perform (performs s)))).

Definition call_epoll_ctl (o : CtlOp) (target : CtlTarget) (events : Z) (ptr : EventPtr) : M Z :=
  s ← get_state;
  emit (EpollCtl o target events ptr) ;;
  (modify (set_ctls (S (ctls s))) ;; (mret (epoll_ctl (ctls s)))).

(** A call of one of the timer queues. *)
Definition timers {A} (f : Q -> result (A * Q)) : M A :=
  s ← get_state;
  r ← lift (f (timer_queues_ s));
  modify (set_timer_queues r.2) ;; (mret r.1).

(** *** The pool of descriptor states *)

Definition fresh_state (m : gmap nat descriptor_state) : nat := fresh (dom m : gset nat).

(** [object_pool::alloc] *)
Definition pool_alloc : M nat :=
  s ← get_state;
  match free_list_ s with
  | d :: free => modify (set_pool (d :: live_list_ s) free) ;; (mret d)
  | [] =>
      let d := fresh_state (states s) in
      modify (fun s => set_pool (d :: live_list_ s) [] (set_states (<[d := new_descriptor_state]> (states s)) s)) ;;
      (mret d)
  end.

Definition allocate_descriptor_state : M nat := pool_alloc.

(** [object_pool::free] *)
Definition pool_free (d : nat) : M unit :=
  modify (fun s => set_pool (filter (fun d' => d' <> d) (live_list_ s)) (d :: free_list_ s) s).

Definition free_descriptor_state (d : nat) : M unit := pool_free d.

(** *** Timeouts *)

Definition get_timeout (msec : Z) : M Z :=
  let max_msec := 5 * 60 * 1000 in
  r ← timers (tqs_wait_msec (if (msec <? 0) || (max_msec <? msec) then max_msec else msec));
  mret (to_int r).

(** The seconds, the nanoseconds and the flags for the timer descriptor. *)
Definition get_timeout_spec : M (Z * Z * Z) :=
  usec ← timers (tqs_wait_usec (5 * 60 * 1000 * 1000));
  mret (Z.quot usec 1000000, if usec =? 0 then 1 else Z.rem usec 1000000 * 1000,
        if usec =? 0 then 1 else 0).

Definition set_timerfd : M unit :=
  r ← get_timeout_spec;
  emit (SetTimerFd r.2 r.1.1 r.1.2).

Definition interrupter_events : Z := bits [EPOLLIN; EPOLLERR; EPOLLET].

(** [interrupt]: the result of [epoll_ctl] is not looked at. *)
Definition interrupt : M unit :=
  call_epoll_ctl EPOLL_CTL_MOD InterrupterFd interrupter_events PtrInterrupter ;; (mret tt).

Definition update_timeout : M unit :=
  s ← get_state;
  if timer_fd_ s then set_timerfd else interrupt.

(** *** Construction *)

(** The constructor after the descriptors have been created. *)
Definition construct_reactor : M unit :=
  call_epoll_ctl EPOLL_CTL_ADD InterrupterFd interrupter_events PtrInterrupter ;;
  (emit WriteInterrupter ;;
   (s ← get_state;
    if timer_fd_ s
    then call_epoll_ctl EPOLL_CTL_ADD TimerFd (bits [EPOLLIN; EPOLLERR]) PtrTimerFd ;; (mret tt)
    else mret tt)).

Definition reactor_init_task : M unit := emit (ToScheduler InitTask).

(** *** Descriptors *)

Definition descriptor_events : Z := bits [EPOLLIN; EPOLLERR; EPOLLHUP; EPOLLPRI; EPOLLET].

Definition init_descriptor (descriptor : Z) (state : descriptor_state) : descriptor_state :=
  set_descriptor descriptor (set_desc_shutdown false (set_speculative (mkPerOp true true true) state)).

(** The error number, 0 for success, and the new [descriptor_data]. *)
Definition register_descriptor (descriptor : Z) : M (Z * nat) :=
  d ← allocate_descriptor_state;
  update_state d (init_descriptor descriptor) ;;
  (update_state d (set_registered descriptor_events) ;;
   (result ← call_epoll_ctl EPOLL_CTL_ADD (Socket descriptor) descriptor_events (PtrDescriptor d);
    if result =? 0 then mret (0, d)
    else if result =? EPERM then update_state d (set_registered 0) ;; (mret (0, d))
    else mret (result, d))).

Definition push_operation (d : nat) (t : OpType) (op : nat) : M unit :=
  update_state d (fun state => set_queue t (per_op t (desc_queue state) ++ [op]) state).

Definition register_internal_descriptor (t : OpType) (descriptor : Z) (op : nat) : M (Z * nat) :=
  d ← allocate_descriptor_state;
  update_state d (init_descriptor descriptor) ;;
  (push_operation d t op ;;
   (update_state d (set_registered descriptor_events) ;;
    (result ← call_epoll_ctl EPOLL_CTL_ADD (Socket descriptor) descriptor_events (PtrDescriptor d);
     if result =? 0 then mret (0, d) else mret (result, d)))).

(** The new target and the new source. *)
Definition move_descriptor (source_descriptor_data : option nat) : option nat * option nat :=
  (source_descriptor_data, None).

Definition post_immediate (op : nat) (is_continuation : bool) : M unit :=
  emit (ToScheduler (PostImmediateCompletion op is_continuation)).

(** Complete at once with an error. *)
Definition post_error (op : nat) (e : OpError) (is_continuation : bool) : M unit :=
  set_error op e ;; (post_immediate op is_continuation).

Definition enqueue_operation (d : nat) (t : OpType) (op : nat) : M unit :=
  push_operation d t op ;; (emit (ToScheduler WorkStarted)).

(** The speculative attempt: whether the operation has been posted. *)
Definition speculate (d : nat) (t : OpType) (op : nat) (is_continuation : bool) : M bool :=
  status ← do_perform op;
  match status with
  | not_done => mret false
  | done => post_immediate op is_continuation ;; (mret true)
  | done_and_exhausted =>
      update_state d (fun state =>
        if registered_events_ state =? 0 then state
        else set_speculative (set_per_op t false (try_speculative_ state)) state) ;;
      (post_immediate op is_continuation ;; (mret true))
  end.

(** What follows a speculative attempt that did not finish the operation. *)
Definition await_descriptor (d : nat) (descriptor : Z) (t : OpType) (op : nat) (is_continuation : bool) : M unit :=
  state ← deref d;
  if registered_events_ state =? 0 then post_error op operation_not_supported is_continuation
  else if bool_decide (t = write_op) && (Z.land (registered_events_ state) EPOLLOUT =? 0) then
    (let events := Z.lor (registered_events_ state) EPOLLOUT in
     result ← call_epoll_ctl EPOLL_CTL_MOD (Socket descriptor) events (PtrDescriptor d);
     if result =? 0
     then update_state d (set_registered (Z.lor (registered_events_ state) events)) ;; (enqueue_operation d t op)
     else post_error op (system_error result) is_continuation)
  else enqueue_operation d t op.

(** The case in which no attempt is made at once: the registration is renewed,
    which makes the kernel report the present state again. *)
Definition renew_registration (d : nat) (descriptor : Z) (t : OpType) (op : nat) (is_continuation : bool) : M unit :=
  state ← deref d;
  if registered_events_ state =? 0 then post_error op operation_not_supported is_continuation
  else
    (let events := if bool_decide (t = write_op) then Z.lor (registered_events_ state) EPOLLOUT
                   else registered_events_ state in
     update_state d (set_registered events) ;;
     (call_epoll_ctl EPOLL_CTL_MOD (Socket descriptor) events (PtrDescriptor d) ;;
      (enqueue_operation d t op))).

Definition start_op (t : OpType) (descriptor : Z) (descriptor_data : option nat) (op : nat)
    (is_continuation allow_speculative : bool) : M unit :=
  match descriptor_data with
  | None => post_error op bad_descriptor is_continuation
  | Some d =>
      state ← deref d;
      if desc_shutdown_ state then post_immediate op is_continuation
      else if bool_decide (per_op t (desc_queue state) = []) then
        if allow_speculative &&
           (negb (bool_decide (t = read_op)) || bool_decide (per_op except_op (desc_queue state) = []))
        then
          finished ← (if per_op t (try_speculative_ state) then speculate d t op is_continuation else mret false);
          if finished : bool then mret tt else await_descriptor d descriptor t op is_continuation
        else renew_registration d descriptor t op is_continuation
      else enqueue_operation d t op
  end.

(** The loops of [cancel_ops] and [deregister_descriptor]: the operations of the
    three queues in turn get the error and leave. *)
Definition abort_queue (d : nat) (t : OpType) : M (list nat) :=
  state ← deref d;
  for_each (fun op => set_error op reactor_operation_aborted) (per_op t (desc_queue state)) ;;
  (update_state d (set_queue t []) ;; (mret (per_op t (desc_queue state)))).

Definition abort_queues (d : nat) : M (list nat) :=
  ops0 ← abort_queue d read_op;
  ops1 ← abort_queue d write_op;
  ops2 ← abort_queue d except_op;
  mret (ops0 ++ ops1 ++ ops2).

Definition cancel_ops (descriptor_data : option nat) : M unit :=
  match descriptor_data with
  | None => mret tt
  | Some d => ops ← abort_queues d; emit (ToScheduler (PostDeferredCompletions ops))
  end.

(** The new [descriptor_data]. *)
Definition deregister_descriptor (descriptor : Z) (descriptor_data : option nat) (closing : bool) : M (option nat) :=
  match descriptor_data with
  | None => mret None
  | Some d =>
      state ← deref d;
      if desc_shutdown_ state then mret None
      else
        when (negb closing && negb (registered_events_ state =? 0))
          (call_epoll_ctl EPOLL_CTL_DEL (Socket descriptor) 0 (PtrDescriptor d) ;; (mret tt)) ;;
        (ops ← abort_queues d;
         update_state d (fun state => set_desc_shutdown true (set_descriptor (-1) state)) ;;
         (emit (ToScheduler (PostDeferredCompletions ops)) ;; (mret (Some d))))
  end.

(** All operations of a descriptor, in the order of the queues. *)
Definition all_ops (state : descriptor_state) : list nat :=
  per_op read_op (desc_queue state) ++ per_op write_op (desc_queue state) ++ per_op except_op (desc_queue state).

Definition clear_queues (state : descriptor_state) : descriptor_state :=
  set_queue read_op [] (set_queue write_op [] (set_queue except_op [] state)).

(** The operations are destroyed with the local queue they are moved to. *)
Definition deregister_internal_descriptor (descriptor : Z) (descriptor_data : option nat) : M (option nat) :=
  match descriptor_data with
  | None => mret None
  | Some d =>
      state ← deref d;
      if desc_shutdown_ state then mret None
      else
        call_epoll_ctl EPOLL_CTL_DEL (Socket descriptor) 0 (PtrDescriptor d) ;;
        (update_state d (fun state => set_desc_shutdown true (set_descriptor (-1) (clear_queues state))) ;;
         (for_each (fun op => emit (DestroyReactorOp op)) (all_ops state) ;; (mret (Some d))))
  end.

Definition cleanup_descriptor_data (descriptor_data : option nat) : M (option nat) :=
  match descriptor_data with
  | None => mret None
  | Some d => free_descriptor_state d ;; (mret None)
  end.

(** *** Events *)

(** One event of [epoll_wait]: the queue of the scheduler and [check_timers]. *)
Definition dispatch_event (event : EventPtr * Z) (acc : list RunOp * bool) : M (list RunOp * bool) :=
  let '(ptr, events) := event in
  let '(ops, check_timers) := acc in
  s ← get_state;
  match ptr with
  | PtrInterrupter => mret (ops, if timer_fd_ s then check_timers else true)
  | PtrTimerFd => mret (ops, true)
  | PtrDescriptor d =>
      state ← deref d;
      if bool_decide (RunDescriptor d ∈ ops) then
        update_state d (set_task_result (Z.lor (task_result_ state) events)) ;; (mret acc)
      else update_state d (set_task_result events) ;; (mret (ops ++ [RunDescriptor d], check_timers))
  end.

Fixpoint dispatch_events (events : list (EventPtr * Z)) (acc : list RunOp * bool) : M (list RunOp * bool) :=
  match events with
  | [] => mret acc
  | event :: events => acc ← dispatch_event event acc; dispatch_events events acc
  end.

(** [epoll_wait] fills an array of 128 events. *)
Definition wait_for_events (timeout : Z) : M (list (EventPtr * Z)) :=
  s ← get_state;
  emit (EpollWait timeout) ;; (modify (set_waits (S (waits s))) ;; (mret (take 128 (epoll_wait (waits s))))).

Definition wait_timeout (usec : Z) : M Z :=
  if usec =? 0 then mret 0
  else
    (let timeout := if usec <? 0 then -1 else to_int (Z.quot (usec - 1) 1000 + 1) in
     s ← get_state;
     if timer_fd_ s then mret timeout else get_timeout timeout).

Definition run_reactor (usec : Z) (ops : list RunOp) : M (list RunOp) :=
  timeout ← wait_timeout usec;
  events ← wait_for_events timeout;
  s ← get_state;
  r ← dispatch_events events (ops, negb (timer_fd_ s));
  if r.2 : bool then
    ready ← timers tqs_get_ready;
    when (timer_fd_ s) set_timerfd ;; (mret (r.1 ++ (RunOperation <$> ready)))
  else mret r.1.

(** The loop over one queue: the operations that have finished. *)
Fixpoint perform_queue (d : nat) (t : OpType) (q : list nat) : M (list nat) :=
  match q with
  | [] => mret []
  | op :: q =>
      status ← do_perform op;
      match status with
      | not_done => mret []
      | done => update_state d (set_queue t q) ;; (ops ← perform_queue d t q; mret (op :: ops))
      | done_and_exhausted =>
          update_state d (fun state =>
            set_speculative (set_per_op t false (try_speculative_ state)) (set_queue t q state)) ;;
          (mret [op])
      end
  end.

Definition perform_ready (d : nat) (events : Z) (t : OpType) : M (list nat) :=
  if Z.land events (bits [flag t; EPOLLERR; EPOLLHUP]) =? 0 then mret []
  else
    update_state d (fun state => set_speculative (set_per_op t true (try_speculative_ state)) state) ;;
    (state ← deref d; perform_queue d t (per_op t (desc_queue state))).

(** The destructor of [perform_io_cleanup_on_block_exit]. *)
Definition io_cleanup (first_op : option nat) (ops : list nat) : M unit :=
  match first_op with
  | Some _ => when (negb (bool_decide (ops = []))) (emit (ToScheduler (PostDeferredCompletions ops)))
  | None => emit (ToScheduler CompensatingWorkStarted)
  end.

Definition perform_io (d : nat) (events : Z) : M (option nat) :=
  ops2 ← perform_ready d events except_op;
  ops1 ← perform_ready d events write_op;
  ops0 ← perform_ready d events read_op;
  let ops := ops2 ++ ops1 ++ ops0 in
  io_cleanup (head ops) (tail ops) ;; (mret (head ops)).

(** [descriptor_state::do_complete], called by the scheduler ([owner]) or, without
    an owner, to destroy the operation. *)
Definition do_complete (owner : bool) (d : nat) (events : Z) : M unit :=
  if owner then
    first_op ← perform_io d events;
    match first_op with
    | Some op => emit (CompleteReactorOp op)
    | None => mret tt
    end
  else mret tt.

(** *** Timers *)

Definition schedule_timer (queue : nat) (time : Z) (timer op : nat) : M unit :=
  s ← get_state;
  if reactor_shutdown_ s then post_immediate op false
  else
    earliest ← timers (tqs_enqueue queue time timer op);
    emit (ToScheduler WorkStarted) ;; (when earliest update_timeout).

Definition cancel_timer (queue timer : nat) (max_cancelled : Z) : M nat :=
  ops ← timers (tqs_cancel queue timer max_cancelled);
  emit (ToScheduler (PostDeferredCompletions ops)) ;; (mret (length ops)).

Definition move_timer (queue target source : nat) : M unit :=
  ops ← timers (tqs_cancel queue target uint64_max);
  timers (tqs_move queue target source) ;; (emit (ToScheduler (PostDeferredCompletions ops))).

(** *** Shutdown *)

Fixpoint shut_descriptors (live : list nat) : M (list nat) :=
  match live with
  | [] => mret []
  | d :: live =>
      state ← deref d;
      update_state d (fun state => set_desc_shutdown true (clear_queues state)) ;;
      (free_descriptor_state d ;;
       (ops ← shut_descriptors live; mret (all_ops state ++ ops)))
  end.

Definition reactor_shutdown : M unit :=
  modify (set_reactor_shutdown true) ;;
  (s ← get_state;
   ops ← shut_descriptors (live_list_ s);
   timer_ops ← timers tqs_get_all;
   emit (ToScheduler (AbandonOperations (ops ++ timer_ops)))).

(** ** The calls, and what they do to operations and work *)

Inductive ReactorCall :=
| RegisterDescriptor (descriptor : Z)
| RegisterInternal (t : OpType) (descriptor : Z) (op : nat)
| StartOp (t : OpType) (descriptor : Z) (data : option nat) (op : nat) (is_continuation speculative : bool)
| CancelOps (data : option nat)
| Deregister (descriptor : Z) (data : option nat) (closing : bool)
| DeregisterInternal (descriptor : Z) (data : option nat)
| Cleanup (data : option nat)
| RunReactor (usec : Z)
| CompleteDescriptor (d : nat) (events : Z)
| ScheduleTimer (queue : nat) (time : Z) (timer op : nat)
| CancelTimer (queue timer : nat) (max_cancelled : Z)
| MoveTimer (queue target source : nat)
| Interrupt
| ShutdownReactor.

Definition without_result {A} (m : M A) : M (list RunOp) := m ;; (mret []).

(** A call; the result is what it hands to the queue of the scheduler. *)
Definition reactor_call (c : ReactorCall) : M (list RunOp) :=
  match c with
  | RegisterDescriptor fd => without_result (register_descriptor fd)
  | RegisterInternal t fd op => without_result (register_internal_descriptor t fd op)
  | StartOp t fd data op k spec => without_result (start_op t fd data op k spec)
  | CancelOps data => without_result (cancel_ops data)
  | Deregister fd data closing => without_result (deregister_descriptor fd data closing)
  | DeregisterInternal fd data => without_result (deregister_internal_descriptor fd data)
  | Cleanup data => without_result (cleanup_descriptor_data data)
  | RunReactor usec => run_reactor usec []
  | CompleteDescriptor d events => without_result (do_complete true d events)
  | ScheduleTimer i time timer op => without_result (schedule_timer i time timer op)
  | CancelTimer i timer n => without_result (cancel_timer i timer n)
  | MoveTimer i target source => without_result (move_timer i target source)
  | Interrupt => without_result interrupt
  | ShutdownReactor => without_result reactor_shutdown
  end.

(** The operations a call begins; those of internal descriptors do not count as
    work. *)
Definition begun (c : ReactorCall) : list nat :=
  match c with
  | RegisterInternal _ _ op | StartOp _ _ _ op _ _ | ScheduleTimer _ _ _ op => [op]
  | _ => []
  end.

Definition counted (c : ReactorCall) : Z :=
  match c with StartOp _ _ _ _ _ _ | ScheduleTimer _ _ _ _ => 1 | _ => 0 end.

(** The operations that leave the reactor: handed to the scheduler, completed or
    destroyed. *)
Definition leaving (e : ReactorEffect) : list nat :=
  match e with
  | ToScheduler c => posted c
  | CompleteReactorOp op | DestroyReactorOp op => [op]
  | _ => []
  end.

Definition left_reactor (es : list ReactorEffect) : list nat := es ≫= leaving.

(** What a call of the scheduler adds to its count of outstanding work. *)
Definition call_work (c : IoCall) : Z :=
  match c with
  | PostImmediateCompletion _ _ | DoDispatch _ | WorkStarted | CompensatingWorkStarted => 1
  | WorkFinished => -1
  | _ => 0
  end.

Definition effect_work (e : ReactorEffect) : Z :=
  match e with ToScheduler c => call_work c | _ => 0 end.

Definition work (es : list ReactorEffect) : Z := foldr Z.add 0 (effect_work <$> es).

Definition completes (e : ReactorEffect) : bool :=
  match e with CompleteReactorOp _ => true | _ => false end.

Definition timer_ops (ops : list RunOp) : list nat :=
  omap (fun o => match o with RunOperation op => Some op | RunDescriptor _ => None end) ops.

Context `{!TimerQueueSetOk Q}.

Definition states_pending (m : gmap nat descriptor_state) : list nat :=
  gather all_ops m.

(** The operations that wait in the reactor. *)
Definition reactor_pending s : list nat := states_pending (states s) ++ tqs_pending (timer_queues_ s).

Definition reactor_ok s : Prop :=
  tqs_ok (timer_queues_ s) /\ NoDup (live_list_ s ++ free_list_ s) /\
  Forall (fun d => is_Some (states s !! d)) (live_list_ s ++ free_list_ s).

Definition data_ok s (data : option nat) : Prop := forall d, data = Some d -> d ∈ live_list_ s.

(** The pointers of a call point to objects, and so do the events of the kernel. *)
Definition call_ok s (c : ReactorCall) : Prop :=
  match c with
  | StartOp _ _ data _ _ _ | CancelOps data | Deregister _ data _ | DeregisterInternal _ data | Cleanup data =>
      data_ok s data
  | CompleteDescriptor d _ => is_Some (states s !! d)
  | RunReactor _ => Forall (fun e => match e.1 with PtrDescriptor d => is_Some (states s !! d) | _ => True end)
                      (epoll_wait (waits s))
  | ScheduleTimer i time timer _ => tqs_time time /\ tqs_valid i timer (timer_queues_ s)
  | CancelTimer i timer _ => tqs_valid i timer (timer_queues_ s)
  | MoveTimer i target source =>
      source <> target /\ tqs_valid i target (timer_queues_ s) /\ tqs_active i source (timer_queues_ s)
  | _ => True
  end.

(** ** Accounting *)

(** [m] runs from [s] without a fault; [inn] are operations it takes over, and in
    the end [out] are those still in its hands. *)
Definition accounts {A} s (m : M A) (inn : list nat)
    (Φ : Reactor Q -> A -> list nat -> Z -> Prop) : Prop :=
  exists es s' a out, m s = (es, s', Ok a) /\ reactor_ok s' /\ dom (states s) ⊆ dom (states s') /\
    left_reactor es ++ reactor_pending s' ++ out ≡ₚ reactor_pending s ++ inn /\ Φ s' a out (work es).

Lemma left_app es es' : left_reactor (es ++ es') = left_reactor es ++ left_reactor es'.
Proof. apply bind_app. Qed.

Lemma work_app es es' : work (es ++ es') = work es + work es'.
Proof. unfold work. rewrite fmap_app. induction (effect_work <$> es); cbn; lia. Qed.

Lemma accounts_bind {A B} s (m : M A) (f : A -> M B) inn Φ Ψ :
  accounts s m inn Φ ->
  (forall s' a out w, reactor_ok s' -> dom (states s) ⊆ dom (states s') -> Φ s' a out w ->
    accounts s' (f a) out (fun s'' b out' w' => Ψ s'' b out' (w + w'))) ->
  accounts s (m ≫= f) inn Ψ.
Proof.
  intros (es & s' & a & out & Hm & Hok & Hd & Hp & HΦ) Hf.
  destruct (Hf _ _ _ _ Hok Hd HΦ) as (es' & s'' & b & out' & Hm' & Hok' & Hd' & Hp' & HΨ).
  exists (es ++ es'), s'', b, out'. rewrite (run_bind_ok _ _ _ _ _ _ Hm), Hm'. split; [done|].
  split; [done|]. split; [set_solver|]. rewrite left_app, work_app. split; [|done].
  rewrite <- (assoc_L (++)), Hp', !(assoc_L (++)), <- (assoc_L (++)). done.
Qed.

Lemma accounts_impl {A} s (m : M A) inn (Φ Ψ : Reactor Q -> A -> list nat -> Z -> Prop) :
  accounts s m inn Φ -> (forall s' a out w, reactor_ok s' -> dom (states s) ⊆ dom (states s') ->
    Φ s' a out w -> Ψ s' a out w) -> accounts s m inn Ψ.
Proof. intros (es & s' & a & out & ? & ? & ? & ? & ?) HΨ. exists es, s', a, out. eauto 10. Qed.

(** Operations [m] does not touch. *)
Lemma accounts_frame {A} s (m : M A) inn fr Φ :
  accounts s m inn Φ -> accounts s m (inn ++ fr) (fun s' a out w => exists out', out = out' ++ fr /\ Φ s' a out' w).
Proof.
  intros (es & s' & a & out & ? & ? & ? & Hp & ?). exists es, s', a, (out ++ fr).
  split; [done|]. split; [done|]. split; [done|]. split; [|by eauto].
  rewrite !(assoc_L (++)) in *. by rewrite Hp.
Qed.

Lemma accounts_get {A} s (f : Reactor Q -> M A) inn Φ : accounts s (f s) inn Φ -> accounts s (get_state ≫= f) inn Φ.
Proof. intros (es & s' & a & out & ? & ?). exists es, s', a, out. by rewrite run_get. Qed.

Lemma accounts_ret {A} s (a : A) inn (Φ : Reactor Q -> A -> list nat -> Z -> Prop) :
  reactor_ok s -> Φ s a inn 0 -> accounts s (mret a) inn Φ.
Proof. intros. exists [], s, a, inn. done. Qed.

Lemma accounts_emit s e inn out (Φ : Reactor Q -> unit -> list nat -> Z -> Prop) :
  reactor_ok s -> leaving e ++ out ≡ₚ inn -> Φ s tt out (effect_work e) -> accounts s (emit e) inn Φ.
Proof.
  intros Hok Hl HΦ. exists [e], s, tt, out. split; [done|]. split; [done|]. split; [done|].
  unfold left_reactor, work. cbn. rewrite (right_id_L [] (++)), Z.add_0_r. split; [|done].
  rewrite <- Hl. solve_Permutation.
Qed.

Lemma accounts_modify s g inn out (Φ : Reactor Q -> unit -> list nat -> Z -> Prop) :
  reactor_ok (g s) -> dom (states s) ⊆ dom (states (g s)) ->
  reactor_pending (g s) ++ out ≡ₚ reactor_pending s ++ inn -> Φ (g s) tt out 0 -> accounts s (modify g) inn Φ.
Proof. intros. exists [], (g s), tt, out. done. Qed.

Lemma accounts_step {A B} s (m : M A) (f : A -> M B) inn fr Φ Ψ :
  accounts s m inn Φ ->
  (forall s' a out w, reactor_ok s' -> dom (states s) ⊆ dom (states s') -> Φ s' a out w ->
    accounts s' (f a) (out ++ fr) (fun s'' b out' w' => Ψ s'' b out' (w + w'))) ->
  accounts s (m ≫= f) (inn ++ fr) Ψ.
Proof.
  intros Hm Hf. apply accounts_bind with (1 := accounts_frame _ _ _ fr _ Hm).
  intros s' a out w Hok Hd (out' & -> & HΦ). by apply Hf.
Qed.

Lemma accounts_perm {A} s (m : M A) inn inn' Φ : inn ≡ₚ inn' -> accounts s m inn Φ -> accounts s m inn' Φ.
Proof. intros Hi (es & s' & a & out & ? & ? & ? & Hp & ?). exists es, s', a, out. by rewrite <- Hi. Qed.

Lemma states_pending_alter m d f st : m !! d = Some st ->
  states_pending (alter f d m) ++ all_ops st ≡ₚ states_pending m ++ all_ops (f st).
Proof. intros Hd. rewrite alter_alt, Hd. by apply gather_insert. Qed.

Lemma live_state s d : reactor_ok s -> d ∈ live_list_ s -> exists st, states s !! d = Some st.
Proof.
  intros (_ & _ & Hall) Hd. rewrite Forall_forall in Hall. apply Hall, elem_of_app. by left.
Qed.

Lemma state_later s s' d : is_Some (states s !! d) -> dom (states s) ⊆ dom (states s') ->
  exists st, states s' !! d = Some st.
Proof. intros Hd Hsub. apply elem_of_dom in Hd. apply Hsub, elem_of_dom in Hd. exact Hd. Qed.

Lemma reactor_ok_alter s d f : reactor_ok s -> reactor_ok (set_states (alter f d (states s)) s).
Proof.
  intros (? & ? & Hall). split; [done|]. split; [done|].
  eapply Forall_impl; [exact Hall|]. intros d' Hd'. cbn in *. apply elem_of_dom.
  rewrite dom_alter_L. by apply elem_of_dom.
Qed.

Lemma accounts_update s d f st inn out (Φ : Reactor Q -> unit -> list nat -> Z -> Prop) :
  reactor_ok s -> states s !! d = Some st -> all_ops (f st) ++ out ≡ₚ all_ops st ++ inn ->
  Φ (set_states (alter f d (states s)) s) tt out 0 -> accounts s (update_state d f) inn Φ.
Proof.
  intros Hok Hd Hp HΦ. apply accounts_modify with (out := out); [by apply reactor_ok_alter| |
    |exact HΦ].
  - cbn. by rewrite dom_alter_L.
  - unfold reactor_pending. cbn. pose proof (states_pending_alter (states s) d f st Hd) as Ha.
    apply (Permutation_app_inv_l (all_ops st)).
    transitivity ((states_pending (alter f d (states s)) ++ all_ops st) ++ tqs_pending (timer_queues_ s) ++ out).
    { solve_Permutation. }
    rewrite Ha. transitivity (states_pending (states s) ++ tqs_pending (timer_queues_ s) ++ all_ops (f st) ++ out).
    { solve_Permutation. }
    rewrite Hp. solve_Permutation.
Qed.

(** A change that leaves the queues alone. *)
Lemma accounts_update_same s d f inn (Φ : Reactor Q -> unit -> list nat -> Z -> Prop) :
  reactor_ok s -> is_Some (states s !! d) -> (forall st, all_ops (f st) = all_ops st) ->
  (forall s', reactor_ok s' -> dom (states s) ⊆ dom (states s') -> Φ s' tt inn 0) ->
  accounts s (update_state d f) inn Φ.
Proof.
  intros Hok [st Hd] Hf HΦ. apply accounts_update with (1 := Hok) (2 := Hd) (out := inn).
  - by rewrite Hf.
  - apply HΦ; [by apply reactor_ok_alter|]. cbn. by rewrite dom_alter_L.
Qed.

Lemma accounts_deref s d st (A : Type) (f : descriptor_state -> M A) inn Φ :
  states s !! d = Some st -> accounts s (f st) inn Φ -> accounts s (deref d ≫= f) inn Φ.
Proof.
  intros Hd (es & s' & a & out & Hm & ?). exists es, s', a, out. unfold deref.
  rewrite run_bind_bind, run_get, Hd, run_ret. done.
Qed.

(** The parts of the state that hold operations. *)
Definition same_ops s s' : Prop :=
  states s' = states s /\ live_list_ s' = live_list_ s /\ free_list_ s' = free_list_ s /\
  timer_queues_ s' = timer_queues_ s.

Lemma same_ops_ok s s' : same_ops s s' -> reactor_ok s -> reactor_ok s'.
Proof. unfold reactor_ok. by intros (-> & -> & -> & ->). Qed.

Lemma same_ops_pending s s' : same_ops s s' -> reactor_pending s' = reactor_pending s.
Proof. unfold reactor_pending. by intros (-> & _ & _ & ->). Qed.

(** A step that only counts or emits what is no operation. *)
Definition quiet {A} (m : M A) : Prop :=
  forall s, exists es s' a, m s = (es, s', Ok a) /\ left_reactor es = [] /\ work es = 0 /\ same_ops s s'.

Lemma accounts_quiet {A B} s (m : M A) (f : A -> M B) inn Φ :
  quiet m -> reactor_ok s -> (forall s' a, same_ops s s' -> accounts s' (f a) inn Φ) ->
  accounts s (m ≫= f) inn Φ.
Proof.
  intros Hm Hok Hf. destruct (Hm s) as (es & s' & a & Hr & Hl & Hw & Hs).
  eapply accounts_bind with (Φ := fun s1 a1 out1 w1 => s1 = s' /\ a1 = a /\ out1 = inn /\ w1 = 0).
  - exists es, s', a, inn. split; [done|]. split; [by apply (same_ops_ok s)|].
    split; [by rewrite (proj1 Hs)|]. by rewrite Hl, (same_ops_pending s).
  - intros ? ? ? ? _ _ (-> & -> & -> & ->). specialize (Hf s' a Hs).
    destruct Hf as (es' & s'' & b & out & ?). by exists es', s'', b, out.
Qed.

Lemma quiet_last s (m : M unit) inn (Φ : Reactor Q -> unit -> list nat -> Z -> Prop) :
  quiet m -> reactor_ok s -> (forall s', same_ops s s' -> Φ s' tt inn 0) -> accounts s m inn Φ.
Proof.
  intros Hm Hok HΦ. destruct (Hm s) as (es & s' & [] & Hr & Hl & Hw & Hs).
  exists es, s', tt, inn. split; [done|]. split; [by apply (same_ops_ok s)|].
  split; [by rewrite (proj1 Hs)|]. rewrite Hl, (same_ops_pending s), Hw by done. auto.
Qed.

Lemma quiet_emit e : leaving e = [] -> effect_work e = 0 -> quiet (emit e).
Proof.
  intros Hl Hw s. exists [e], s, tt. unfold left_reactor, work. cbn. rewrite Hl, Hw. done.
Qed.

Lemma quiet_modify g : (forall s, same_ops s (g s)) -> quiet (modify g).
Proof. intros Hg s. by exists [], (g s), tt. Qed.

Lemma quiet_ret {A} (a : A) : quiet (mret a).
Proof. intros s. by exists [], s, a. Qed.

Lemma quiet_bind {A B} (m : M A) (f : A -> M B) : quiet m -> (forall a, quiet (f a)) -> quiet (m ≫= f).
Proof.
  intros Hm Hf s. destruct (Hm s) as (es & s' & a & Hr & Hl & Hw & Hs).
  destruct (Hf a s') as (es' & s'' & b & Hr' & Hl' & Hw' & Hs').
  exists (es ++ es'), s'', b. rewrite (run_bind_ok _ _ _ _ _ _ Hr), Hr', left_app, work_app, Hl, Hl', Hw, Hw'.
  split; [done|]. split; [done|]. split; [done|]. destruct Hs as (?&?&?&?), Hs' as (?&?&?&?).
  repeat split; congruence.
Qed.

Lemma quiet_get {A} (f : Reactor Q -> M A) : (forall s, quiet (f s)) -> quiet (get_state ≫= f).
Proof. intros Hf s. destruct (Hf s s) as (es & s' & a & ?). exists es, s', a. by rewrite run_get. Qed.

Create HintDb quiet.
#[local] Hint Resolve quiet_emit quiet_modify quiet_ret : quiet.
#[local] Hint Extern 1 (quiet (_ ≫= _)) => first [apply quiet_get; intros ? | apply quiet_bind; [|intros ?]] : quiet.
#[local] Hint Extern 1 (same_ops _ _) => done : quiet.
#[local] Hint Extern 1 (leaving _ = _) => reflexivity : quiet.
#[local] Hint Extern 1 (effect_work _ = _) => reflexivity : quiet.

Lemma quiet_do_perform op : quiet (do_perform op).
Proof. unfold do_perform. auto 10 with quiet. Qed.

Lemma quiet_call_epoll_ctl o target events ptr : quiet (call_epoll_ctl o target events ptr).
Proof. unfold call_epoll_ctl. auto 10 with quiet. Qed.

Lemma quiet_set_error op e : quiet (set_error op e).
Proof. unfold set_error. auto with quiet. Qed.

Lemma quiet_wait_for_events timeout : quiet (wait_for_events timeout).
Proof. unfold wait_for_events. auto 10 with quiet. Qed.

#[local] Hint Resolve quiet_do_perform quiet_call_epoll_ctl quiet_set_error quiet_wait_for_events : quiet.

Lemma quiet_for_each {A} (f : A -> M unit) l : (forall x, quiet (f x)) -> quiet (for_each f l).
Proof. intros Hf. induction l as [|x l IH]; cbn; auto with quiet. Qed.

Lemma reactor_quiet_interrupt : quiet interrupt.
Proof. unfold interrupt. auto with quiet. Qed.

#[local] Hint Resolve quiet_for_each reactor_quiet_interrupt : quiet.

(** A call of the timer queues. *)
Lemma accounts_timers {A B} s (f : Q -> result (A * Q)) (g : A -> M B) a q' inn out Φ :
  reactor_ok s -> f (timer_queues_ s) = Ok (a, q') -> tqs_ok q' ->
  out ++ tqs_pending q' ≡ₚ inn ++ tqs_pending (timer_queues_ s) ->
  (forall s', reactor_ok s' -> states s' = states s -> timer_queues_ s' = q' -> timer_fd_ s' = timer_fd_ s ->
     live_list_ s' = live_list_ s -> accounts s' (g a) out Φ) ->
  accounts s (timers f ≫= g) inn Φ.
Proof.
  intros (Hok & Hnd & Hall) Hf Hq Hp Hg.
  destruct (Hg (set_timer_queues q' s)) as (es & s' & b & out' & Hr & ? & Hd & Hp' & ?); [done..|].
  exists es, s', b, out'. unfold timers. rewrite run_bind_bind, run_get, run_bind_bind, Hf, run_lift.
  rewrite run_bind_bind, run_modify, run_ret. split; [done|]. split; [done|]. split; [done|]. split; [|done].
  rewrite Hp'. unfold reactor_pending. cbn. rewrite <- !(assoc_L (++)). f_equiv.
  rewrite (Permutation_app_comm (tqs_pending (timer_queues_ s))), <- Hp. by rewrite (Permutation_app_comm out).
Qed.

Lemma fresh_state_None m : m !! fresh_state m = None.
Proof. apply not_elem_of_dom. apply (is_fresh (dom m : gset nat)). Qed.

Lemma allocate_accounts s inn : reactor_ok s ->
  accounts s allocate_descriptor_state inn (fun s' d out w => out = inn /\ w = 0 /\ is_Some (states s' !! d)).
Proof.
  intros (Hok & Hnd & Hall). unfold allocate_descriptor_state, pool_alloc. apply accounts_get.
  destruct (free_list_ s) as [|d free] eqn:Hfree.
  - set (d := fresh_state (states s)). pose proof (fresh_state_None (states s)) as Hd.
    assert (d ∉ live_list_ s) as Hnew.
    { intros Hin. rewrite Forall_forall in Hall. destruct (Hall d) as [x Hx].
      - rewrite elem_of_app. by left.
      - subst d. congruence. }
    eapply accounts_bind with (Φ := fun s' _ out w => out = inn /\ w = 0 /\ is_Some (states s' !! d)).
    + eapply accounts_modify with (out := inn).
      * split; [done|]. cbn [live_list_ free_list_ states set_pool set_states]. rewrite app_nil_r in *.
        split; [by constructor|]. constructor; [by rewrite lookup_insert_eq; eauto|].
        eapply Forall_impl; [exact Hall|]. intros d' [x Hx]. cbn.
        apply lookup_insert_is_Some. right. split; [|by eauto]. intros <-. subst d. congruence.
      * cbn. rewrite dom_insert_L. set_solver.
      * unfold reactor_pending. cbn. unfold states_pending. by rewrite gather_fresh.
      * cbn. rewrite lookup_insert_eq. eauto.
    + intros s' _ out w Hok' _ (-> & -> & Hs). by apply accounts_ret.
  - eapply accounts_bind with (Φ := fun s' _ out w => out = inn /\ w = 0 /\ is_Some (states s' !! d)).
    + eapply accounts_modify with (out := inn); [|done|done|].
      * split; [done|]. cbn. split.
        -- by rewrite Permutation_middle.
        -- eapply Permutation_Forall; [symmetry; apply Permutation_middle|].
           exact Hall.
      * cbn. rewrite Forall_forall in Hall. split; [done|]. split; [done|]. apply Hall, elem_of_app. right. left.
    + intros s' _ out w Hok' _ (-> & -> & Hs). by apply accounts_ret.
Qed.

Lemma all_ops_set_queue t st : exists rest, all_ops st ≡ₚ per_op t (desc_queue st) ++ rest /\
  forall q', all_ops (set_queue t q' st) ≡ₚ q' ++ rest.
Proof.
  destruct t.
  - exists (per_op write_op (desc_queue st) ++ per_op except_op (desc_queue st)). split; [done|]. done.
  - exists (per_op read_op (desc_queue st) ++ per_op except_op (desc_queue st)).
    split; [|intros q']; unfold all_ops; cbn; solve_Permutation.
  - exists (per_op read_op (desc_queue st) ++ per_op write_op (desc_queue st)).
    split; [|intros q']; unfold all_ops; cbn; solve_Permutation.
Qed.

Lemma push_accounts s d t op inn : reactor_ok s -> is_Some (states s !! d) ->
  accounts s (push_operation d t op) (op :: inn) (fun _ _ out w => out = inn /\ w = 0).
Proof.
  intros Hok [st Hd]. apply accounts_update with (1 := Hok) (2 := Hd) (out := inn); [|done].
  destruct (all_ops_set_queue t st) as (rest & Hall & Hset). rewrite Hset, Hall. solve_Permutation.
Qed.

Lemma enqueue_accounts s d t op inn : reactor_ok s -> is_Some (states s !! d) ->
  accounts s (enqueue_operation d t op) (op :: inn) (fun _ _ out w => out = inn /\ w = 1).
Proof.
  intros Hok Hd. apply accounts_bind with (1 := push_accounts s d t op inn Hok Hd).
  intros s' _ out w Hok' _ [-> ->]. by apply accounts_emit with (out := inn).
Qed.

Lemma post_accounts s op k inn : reactor_ok s ->
  accounts s (post_immediate op k) (op :: inn) (fun _ _ out w => out = inn /\ w = 1).
Proof. intros Hok. by apply accounts_emit with (out := inn). Qed.

Lemma post_error_accounts s op e k inn : reactor_ok s ->
  accounts s (post_error op e k) (op :: inn) (fun _ _ out w => out = inn /\ w = 1).
Proof.
  intros Hok. apply accounts_quiet; [auto with quiet|done|]. intros s' _ Hs.
  by apply post_accounts, (same_ops_ok s).
Qed.

Lemma is_Some_later s s' d : is_Some (states s !! d) -> dom (states s) ⊆ dom (states s') -> is_Some (states s' !! d).
Proof. intros Hd Hsub. destruct (state_later s s' d Hd Hsub) as [st Hst]. by exists st. Qed.

Lemma same_states s s' d : same_ops s s' -> is_Some (states s !! d) -> is_Some (states s' !! d).
Proof. by intros (-> & _). Qed.

Create HintDb reactor.
#[local] Hint Resolve same_ops_ok same_states is_Some_later : reactor.

Lemma speculate_accounts s d t op k inn : reactor_ok s -> is_Some (states s !! d) ->
  accounts s (speculate d t op k) (op :: inn)
    (fun _ finished out w => if finished then out = inn /\ w = 1 else out = op :: inn /\ w = 0).
Proof.
  intros Hok Hd. apply accounts_quiet; [auto with quiet|done|]. intros s1 status Hs.
  assert (reactor_ok s1) by eauto with reactor. assert (is_Some (states s1 !! d)) by eauto with reactor.
  destruct status.
  - by apply accounts_ret.
  - apply accounts_bind with (1 := post_accounts s1 op k inn H). intros s2 _ out w Hok2 _ [-> ->].
    by apply accounts_ret.
  - eapply accounts_bind with (Φ := fun _ _ out w => out = op :: inn /\ w = 0).
    + apply accounts_update_same; [done|done| |done]. intros st. by destruct (_ =? _).
    + intros s2 _ out w Hok2 _ [-> ->].
      apply accounts_bind with (1 := post_accounts s2 op k inn Hok2). intros s3 _ out w Hok3 _ [-> ->].
      by apply accounts_ret.
Qed.

Lemma await_accounts s d fd t op k inn : reactor_ok s -> is_Some (states s !! d) ->
  accounts s (await_descriptor d fd t op k) (op :: inn) (fun _ _ out w => out = inn /\ w = 1).
Proof.
  intros Hok [st Hd]. apply accounts_deref with (1 := Hd). assert (is_Some (states s !! d)) as Hsome by eauto.
  destruct (registered_events_ st =? 0); [by apply post_error_accounts|].
  destruct (bool_decide (t = write_op) && _); [|by apply enqueue_accounts].
  apply accounts_quiet; [auto with quiet|done|]. intros s1 r Hs.
  assert (reactor_ok s1) by eauto with reactor. assert (is_Some (states s1 !! d)) by eauto with reactor.
  destruct (r =? 0); [|by apply post_error_accounts].
  eapply accounts_bind with (Φ := fun _ _ out w => out = op :: inn /\ w = 0).
  - by apply accounts_update_same.
  - intros s2 _ out w Hok2 Hdom [-> ->]. apply enqueue_accounts; eauto with reactor.
Qed.

Lemma renew_accounts s d fd t op k inn : reactor_ok s -> is_Some (states s !! d) ->
  accounts s (renew_registration d fd t op k) (op :: inn) (fun _ _ out w => out = inn /\ w = 1).
Proof.
  intros Hok [st Hd]. apply accounts_deref with (1 := Hd). assert (is_Some (states s !! d)) as Hsome by eauto.
  destruct (registered_events_ st =? 0); [by apply post_error_accounts|].
  eapply accounts_bind with (Φ := fun _ _ out w => out = op :: inn /\ w = 0).
  - by apply accounts_update_same.
  - intros s1 _ out w Hok1 Hdom [-> ->]. apply accounts_quiet; [auto with quiet|done|].
    intros s2 r Hs. apply enqueue_accounts; eauto with reactor.
Qed.

Lemma start_op_accounts s t fd data op k spec inn : reactor_ok s -> data_ok s data ->
  accounts s (start_op t fd data op k spec) (op :: inn) (fun _ _ out w => out = inn /\ w = 1).
Proof.
  intros Hok Hdata. destruct data as [d|]; [|by apply post_error_accounts].
  destruct (live_state s d Hok (Hdata d eq_refl)) as [st Hd].
  assert (is_Some (states s !! d)) as Hsome by eauto. apply accounts_deref with (1 := Hd).
  destruct (desc_shutdown_ st); [by apply post_accounts|].
  destruct (bool_decide (per_op t _ = [])); [|by apply enqueue_accounts].
  destruct (spec && _); [|by apply renew_accounts].
  eapply accounts_bind with (Φ := fun _ (finished : bool) out w =>
    if finished then out = inn /\ w = 1 else out = op :: inn /\ w = 0).
  - destruct (per_op t (try_speculative_ st)); [by apply speculate_accounts|by apply accounts_ret].
  - intros s1 [] out w Hok1 Hdom [-> ->]; [by apply accounts_ret|].
    apply await_accounts; eauto with reactor.
Qed.

Lemma abort_queue_accounts s d t inn : reactor_ok s -> is_Some (states s !! d) ->
  accounts s (abort_queue d t) inn (fun _ ops out w => out = ops ++ inn /\ w = 0).
Proof.
  intros Hok [st Hd]. apply accounts_deref with (1 := Hd).
  apply accounts_quiet; [auto with quiet|done|]. intros s1 _ Hs.
  assert (states s1 !! d = Some st) as Hd1 by (by rewrite (proj1 Hs)).
  eapply accounts_bind with (Φ := fun _ _ out w => out = per_op t (desc_queue st) ++ inn /\ w = 0).
  - apply accounts_update with (2 := Hd1) (out := per_op t (desc_queue st) ++ inn); [by eauto with reactor| |done].
    destruct (all_ops_set_queue t st) as (rest & Hall & Hset). rewrite Hset, Hall. cbn. solve_Permutation.
  - intros s2 _ out w Hok2 _ [-> ->]. by apply accounts_ret.
Qed.

Lemma abort_queues_accounts s d inn : reactor_ok s -> is_Some (states s !! d) ->
  accounts s (abort_queues d) inn (fun _ ops out w => out ≡ₚ ops ++ inn /\ w = 0).
Proof.
  intros Hok Hd. apply accounts_bind with (1 := abort_queue_accounts s d read_op inn Hok Hd).
  intros s1 ops0 ? ? Hok1 Hd1 [-> ->].
  apply accounts_bind with (1 := abort_queue_accounts s1 d write_op _ Hok1 (is_Some_later _ _ _ Hd Hd1)).
  intros s2 ops1 ? ? Hok2 Hd2 [-> ->].
  apply accounts_bind with (1 := abort_queue_accounts s2 d except_op _ Hok2
    (is_Some_later _ _ _ Hd (transitivity Hd1 Hd2))).
  intros s3 ops2 ? ? Hok3 Hd3 [-> ->]. apply accounts_ret; [done|]. split; [|done]. solve_Permutation.
Qed.

Lemma cancel_accounts s data inn : reactor_ok s -> data_ok s data ->
  accounts s (cancel_ops data) inn (fun _ _ out w => out = inn /\ w = 0).
Proof.
  intros Hok Hdata. destruct data as [d|]; [|by apply accounts_ret].
  destruct (live_state s d Hok (Hdata d eq_refl)) as [st Hd].
  apply accounts_bind with (1 := abort_queues_accounts s d inn Hok (ex_intro _ st Hd)).
  intros s1 ops out w Hok1 _ [Hout ->]. by apply accounts_emit with (out := inn).
Qed.

Lemma destroy_accounts s ops inn : reactor_ok s ->
  accounts s (for_each (fun op => emit (DestroyReactorOp op)) ops) (ops ++ inn) (fun _ _ out w => out = inn /\ w = 0).
Proof.
  revert s. induction ops as [|op ops IH]; intros s Hok; [by apply accounts_ret|]. cbn.
  eapply accounts_bind with (Φ := fun _ _ out w => out = ops ++ inn /\ w = 0).
  - by apply accounts_emit with (out := ops ++ inn).
  - intros s1 _ out w Hok1 _ [-> ->]. by apply IH.
Qed.

Lemma all_ops_clear st : all_ops (clear_queues st) = [].
Proof. done. Qed.

Lemma deregister_accounts s fd data closing inn : reactor_ok s -> data_ok s data ->
  accounts s (deregister_descriptor fd data closing) inn (fun _ _ out w => out = inn /\ w = 0).
Proof.
  intros Hok Hdata. destruct data as [d|]; [|by apply accounts_ret].
  destruct (live_state s d Hok (Hdata d eq_refl)) as [st Hd].
  assert (is_Some (states s !! d)) as Hsome by eauto. apply accounts_deref with (1 := Hd).
  destruct (desc_shutdown_ st); [by apply accounts_ret|].
  apply accounts_quiet; [destruct (_ && _); cbn; auto with quiet|done|]. intros s1 _ Hs.
  apply accounts_bind with (1 := abort_queues_accounts s1 d inn (same_ops_ok _ _ Hs Hok) (same_states _ _ _ Hs Hsome)).
  intros s2 ops out w Hok2 Hd2 [Hout ->].
  eapply accounts_bind with (Φ := fun _ _ out' w => out' = out /\ w = 0).
  - apply accounts_update_same; [done|by eauto with reactor|done|done].
  - intros s3 _ ? ? Hok3 _ [-> ->]. eapply accounts_bind with (Φ := fun _ _ out w => out = inn /\ w = 0).
    + by apply accounts_emit with (out := inn).
    + intros s4 _ ? ? Hok4 _ [-> ->]. by apply accounts_ret.
Qed.

Lemma deregister_internal_accounts s fd data inn : reactor_ok s -> data_ok s data ->
  accounts s (deregister_internal_descriptor fd data) inn (fun _ _ out w => out = inn /\ w = 0).
Proof.
  intros Hok Hdata. destruct data as [d|]; [|by apply accounts_ret].
  destruct (live_state s d Hok (Hdata d eq_refl)) as [st Hd]. apply accounts_deref with (1 := Hd).
  destruct (desc_shutdown_ st); [by apply accounts_ret|].
  apply accounts_quiet; [auto with quiet|done|]. intros s1 r Hs.
  assert (states s1 !! d = Some st) as Hd1 by (by rewrite (proj1 Hs)).
  eapply accounts_bind with (Φ := fun _ _ out w => out = all_ops st ++ inn /\ w = 0).
  - apply accounts_update with (2 := Hd1) (out := all_ops st ++ inn); [by eauto with reactor|done|done].
  - intros s2 _ ? ? Hok2 _ [-> ->]. apply accounts_bind with (1 := destroy_accounts s2 (all_ops st) inn Hok2).
    intros s3 _ ? ? Hok3 _ [-> ->]. by apply accounts_ret.
Qed.

Lemma pool_without d (live : list nat) : NoDup live -> d ∈ live ->
  d :: filter (fun d' => d' <> d) live ≡ₚ live.
Proof.
  intros Hnd Hd. induction live as [|d' live IH]; [by apply not_elem_of_nil in Hd|].
  apply NoDup_cons in Hnd as [Hd' Hnd]. destruct (decide (d' = d)) as [->|Hne].
  - rewrite filter_cons_False by tauto. f_equiv.
    rewrite list_filter_all; [done|]. intros x Hx ->. done.
  - apply elem_of_cons in Hd as [->|Hd]; [done|].
    rewrite filter_cons_True by done. rewrite perm_swap. by rewrite IH.
Qed.

Lemma free_accounts s d inn : reactor_ok s -> d ∈ live_list_ s ->
  accounts s (free_descriptor_state d) inn (fun s' _ out w => out = inn /\ w = 0 /\
    live_list_ s' = filter (fun d' => d' <> d) (live_list_ s)).
Proof.
  intros (Hok & Hnd & Hall) Hd.
  assert (filter (fun d' => d' <> d) (live_list_ s) ++ d :: free_list_ s ≡ₚ live_list_ s ++ free_list_ s) as Hpool.
  { rewrite <- (pool_without d (live_list_ s)) at 2; [|by apply NoDup_app in Hnd as [? _]|done].
    by rewrite <- Permutation_middle. }
  apply accounts_modify with (out := inn); [|done|done|done].
  split; [done|]. cbn. by rewrite Hpool.
Qed.

Lemma cleanup_accounts s data inn : reactor_ok s -> data_ok s data ->
  accounts s (cleanup_descriptor_data data) inn (fun _ _ out w => out = inn /\ w = 0).
Proof.
  intros Hok Hdata. destruct data as [d|]; [|by apply accounts_ret].
  apply accounts_bind with (1 := free_accounts s d inn Hok (Hdata d eq_refl)).
  intros s1 _ ? ? Hok1 _ (-> & -> & _). by apply accounts_ret.
Qed.

Lemma register_accounts s fd inn : reactor_ok s ->
  accounts s (register_descriptor fd) inn (fun _ _ out w => out = inn /\ w = 0).
Proof.
  intros Hok. apply accounts_bind with (1 := allocate_accounts s inn Hok).
  intros s1 d ? ? Hok1 _ (-> & -> & Hd).
  eapply accounts_bind with (Φ := fun _ _ out w => out = inn /\ w = 0); [by apply accounts_update_same|].
  intros s2 _ ? ? Hok2 Hd2 [-> ->].
  eapply accounts_bind with (Φ := fun _ _ out w => out = inn /\ w = 0);
    [apply accounts_update_same; by eauto with reactor|].
  intros s3 _ ? ? Hok3 Hd3 [-> ->]. apply accounts_quiet; [auto with quiet|done|]. intros s4 r Hs4.
  destruct (r =? 0); [by apply accounts_ret; eauto with reactor|].
  destruct (r =? EPERM); [|by apply accounts_ret; eauto with reactor].
  eapply accounts_bind with (Φ := fun _ _ out w => out = inn /\ w = 0);
    [apply accounts_update_same; by eauto with reactor|].
  intros s5 _ ? ? Hok5 _ [-> ->]. by apply accounts_ret.
Qed.

Lemma register_internal_accounts s t fd op inn : reactor_ok s ->
  accounts s (register_internal_descriptor t fd op) (op :: inn) (fun _ _ out w => out = inn /\ w = 0).
Proof.
  intros Hok. apply accounts_bind with (1 := allocate_accounts s _ Hok).
  intros s1 d ? ? Hok1 _ (-> & -> & Hd).
  eapply accounts_bind with (Φ := fun _ _ out w => out = op :: inn /\ w = 0); [by apply accounts_update_same|].
  intros s2 _ ? ? Hok2 Hd2 [-> ->].
  apply accounts_bind with (1 := push_accounts s2 d t op inn Hok2 (is_Some_later _ _ _ Hd Hd2)).
  intros s3 _ ? ? Hok3 Hd3 [-> ->].
  eapply accounts_bind with (Φ := fun _ _ out w => out = inn /\ w = 0);
    [apply accounts_update_same; by eauto with reactor|].
  intros s4 _ ? ? Hok4 Hd4 [-> ->]. apply accounts_quiet; [auto with quiet|done|]. intros s5 r Hs5.
  destruct (r =? 0); by apply accounts_ret; eauto with reactor.
Qed.

Lemma get_timeout_accounts s msec inn : reactor_ok s ->
  accounts s (get_timeout msec) inn (fun _ _ out w => out = inn /\ w = 0).
Proof.
  intros Hok. unfold get_timeout.
  destruct (tqs_wait_msec_spec (if (msec <? 0) || (5 * 60 * 1000 <? msec) then 5 * 60 * 1000 else msec)
    (timer_queues_ s) (proj1 Hok)) as (r & q' & Hr & Hq & Hp).
  apply accounts_timers with (1 := Hok) (2 := Hr) (3 := Hq) (out := inn); [by rewrite Hp|].
  intros s' Hok' _ _ _ _. by apply accounts_ret.
Qed.

Lemma get_timeout_spec_accounts s inn : reactor_ok s ->
  accounts s get_timeout_spec inn (fun _ _ out w => out = inn /\ w = 0).
Proof.
  intros Hok. unfold get_timeout_spec.
  destruct (tqs_wait_usec_spec (5 * 60 * 1000 * 1000) (timer_queues_ s) (proj1 Hok)) as (r & q' & Hr & Hq & Hp).
  apply accounts_timers with (1 := Hok) (2 := Hr) (3 := Hq) (out := inn); [by rewrite Hp|].
  intros s' Hok' _ _ _ _. by apply accounts_ret.
Qed.

Lemma set_timerfd_accounts s inn : reactor_ok s ->
  accounts s set_timerfd inn (fun _ _ out w => out = inn /\ w = 0).
Proof.
  intros Hok. apply accounts_bind with (1 := get_timeout_spec_accounts s inn Hok).
  intros s1 r ? ? Hok1 _ [-> ->]. apply quiet_last; [auto with quiet|done|done].
Qed.

Lemma update_timeout_accounts s inn : reactor_ok s ->
  accounts s update_timeout inn (fun _ _ out w => out = inn /\ w = 0).
Proof.
  intros Hok. apply accounts_get. destruct (timer_fd_ s); [by apply set_timerfd_accounts|].
  apply quiet_last; [auto with quiet|done|done].
Qed.

Lemma when_accounts s b m inn : reactor_ok s ->
  accounts s m inn (fun _ _ out w => out = inn /\ w = 0) ->
  accounts s (when b m) inn (fun _ _ out w => out = inn /\ w = 0).
Proof. intros. destruct b; [done|]. by apply accounts_ret. Qed.

Lemma schedule_timer_accounts s i time timer op inn : reactor_ok s -> tqs_time time -> tqs_valid i timer (timer_queues_ s) ->
  accounts s (schedule_timer i time timer op) (op :: inn) (fun _ _ out w => out = inn /\ w = 1).
Proof.
  intros Hok Ht Hv. apply accounts_get. destruct (reactor_shutdown_ s); [by apply post_accounts|].
  destruct (tqs_enqueue_spec i time timer op _ (proj1 Hok) Ht Hv) as (r & q' & Hr & Hq & Hp).
  apply accounts_timers with (1 := Hok) (2 := Hr) (3 := Hq) (out := inn).
  { rewrite Hp. solve_Permutation. }
  intros s1 Hok1 _ _ _ _. eapply accounts_bind with (Φ := fun _ _ out w => out = inn /\ w = 1).
  - by apply accounts_emit with (out := inn).
  - intros s2 _ ? ? Hok2 _ [-> ->]. eapply accounts_impl; [by apply when_accounts, update_timeout_accounts|].
    by intros ? ? ? ? _ _ [-> ->].
Qed.

Lemma cancel_timer_accounts s i timer n inn : reactor_ok s -> tqs_valid i timer (timer_queues_ s) ->
  accounts s (cancel_timer i timer n) inn (fun _ _ out w => out = inn /\ w = 0).
Proof.
  intros Hok Hv. destruct (tqs_cancel_spec i timer n _ (proj1 Hok) Hv) as (ops & q' & Hr & Hq & Hp & _).
  apply accounts_timers with (1 := Hok) (2 := Hr) (3 := Hq) (out := ops ++ inn).
  { rewrite <- Hp. solve_Permutation. }
  intros s1 Hok1 _ _ _ _. eapply accounts_bind with (Φ := fun _ _ out w => out = inn /\ w = 0).
  - by apply accounts_emit with (out := inn).
  - intros s2 _ ? ? Hok2 _ [-> ->]. by apply accounts_ret.
Qed.

Lemma move_timer_accounts s i target source inn : reactor_ok s ->
  source <> target -> tqs_valid i target (timer_queues_ s) -> tqs_active i source (timer_queues_ s) ->
  accounts s (move_timer i target source) inn (fun _ _ out w => out = inn /\ w = 0).
Proof.
  intros Hok Hne Hv Hv'.
  destruct (tqs_cancel_spec i target uint64_max _ (proj1 Hok) Hv) as (ops & q' & Hr & Hq & Hp & Hidle & Hval).
  apply accounts_timers with (1 := Hok) (2 := Hr) (3 := Hq) (out := ops ++ inn).
  { rewrite <- Hp. solve_Permutation. }
  intros s1 Hok1 _ Hq1 _ _. rewrite <- Hq1 in *.
  destruct (tqs_move_spec i target source _ Hq Hne (Hval _ Hne Hv') (Hidle eq_refl)) as (q2 & Hr2 & Hq2 & Hp2).
  apply accounts_timers with (1 := Hok1) (2 := Hr2) (3 := Hq2) (out := ops ++ inn).
  { by rewrite Hp2. }
  intros s2 Hok2 _ _ _ _. by apply accounts_emit with (out := inn).
Qed.

(** *** Events *)

Definition event_ok s (e : EventPtr * Z) : Prop :=
  match e.1 with PtrDescriptor d => is_Some (states s !! d) | _ => True end.

Lemma dispatch_event_accounts s e acc inn : reactor_ok s -> event_ok s e ->
  accounts s (dispatch_event e acc) inn
    (fun _ acc' out w => out = inn /\ w = 0 /\ timer_ops acc'.1 = timer_ops acc.1).
Proof.
  intros Hok He. destruct e as [ptr events], acc as [ops check]. apply accounts_get.
  destruct ptr as [| |d]; [by apply accounts_ret..|].
  destruct He as [st Hd]. apply accounts_deref with (1 := Hd). assert (is_Some (states s !! d)) as Hsome by eauto.
  destruct (bool_decide _).
  - eapply accounts_bind with (Φ := fun _ _ out w => out = inn /\ w = 0); [by apply accounts_update_same|].
    intros s1 _ ? ? Hok1 _ [-> ->]. by apply accounts_ret.
  - eapply accounts_bind with (Φ := fun _ _ out w => out = inn /\ w = 0); [by apply accounts_update_same|].
    intros s1 _ ? ? Hok1 _ [-> ->]. apply accounts_ret; [done|]. split; [done|]. split; [done|].
    unfold timer_ops. cbn. rewrite omap_app. cbn. by rewrite app_nil_r.
Qed.

Lemma dispatch_events_accounts s es acc inn : reactor_ok s -> Forall (event_ok s) es ->
  accounts s (dispatch_events es acc) inn
    (fun _ acc' out w => out = inn /\ w = 0 /\ timer_ops acc'.1 = timer_ops acc.1).
Proof.
  revert s acc. induction es as [|e es IH]; intros s acc Hok Hes; [by apply accounts_ret|].
  apply Forall_cons in Hes as [He Hes].
  apply accounts_bind with (1 := dispatch_event_accounts s e acc inn Hok He).
  intros s1 acc1 ? ? Hok1 Hd1 (-> & -> & Hops). rewrite <- Hops. apply IH; [done|].
  eapply Forall_impl; [exact Hes|]. intros [[| |d] ?] Hd; [done..|]. cbn in *. by eauto with reactor.
Qed.

Lemma timer_ops_app ops ops' : timer_ops (ops ++ ops') = timer_ops ops ++ timer_ops ops'.
Proof. apply omap_app. Qed.

Lemma timer_ops_run ops : timer_ops (RunOperation <$> ops) = ops.
Proof. induction ops as [|op ops IH]; [done|]. cbn. by f_equal. Qed.

Lemma wait_timeout_accounts s usec inn : reactor_ok s ->
  accounts s (wait_timeout usec) inn (fun s' _ out w => out = inn /\ w = 0 /\ waits s' = waits s).
Proof.
  intros Hok. unfold wait_timeout. destruct (usec =? 0); [by apply accounts_ret|].
  apply accounts_get. destruct (timer_fd_ s); [by apply accounts_ret|].
  unfold get_timeout. match goal with |- context [tqs_wait_msec ?n] =>
    destruct (tqs_wait_msec_spec n (timer_queues_ s) (proj1 Hok)) as (r & q' & Hr & Hq & Hp) end.
  unfold accounts, timers. rewrite run_bind_bind, run_get, run_bind_bind, Hr, run_lift, run_bind_bind, run_modify, run_ret.
  exists [], (set_timer_queues q' s), (to_int r), inn. split; [done|].
  split; [by split; [|apply Hok]|]. split; [done|]. split; [|done]. unfold reactor_pending. cbn. by rewrite Hp.
Qed.

Lemma wait_for_events_accounts s timeout inn : reactor_ok s ->
  accounts s (wait_for_events timeout) inn
    (fun _ events out w => out = inn /\ w = 0 /\ events = take 128 (epoll_wait (waits s))).
Proof.
  intros Hok. exists [EpollWait timeout], (set_waits (S (waits s)) s), (take 128 (epoll_wait (waits s))), inn.
  by split; [|split; [|split]].
Qed.

Lemma run_reactor_accounts s usec ops inn : reactor_ok s -> Forall (event_ok s) (epoll_wait (waits s)) ->
  accounts s (run_reactor usec ops) inn
    (fun _ ops' out w => timer_ops ops' ++ inn ≡ₚ timer_ops ops ++ out /\ w = 0).
Proof.
  intros Hok Hev. apply accounts_bind with (1 := wait_timeout_accounts s usec inn Hok).
  intros s1 timeout ? ? Hok1 Hd1 (-> & -> & Hw1).
  apply accounts_bind with (1 := wait_for_events_accounts s1 timeout inn Hok1).
  intros s2 events ? ? Hok2 Hd2 (-> & -> & ->). rewrite Hw1. apply accounts_get.
  apply accounts_bind with (Φ := fun _ r out w => out = inn /\ w = 0 /\ timer_ops r.1 = timer_ops ops).
  { apply (dispatch_events_accounts s2 _ (ops, _)); [done|]. apply Forall_take.
    eapply Forall_impl; [exact Hev|]. intros [[| |d] ?] He; [done..|]. unfold event_ok in *. cbn in *.
    apply (is_Some_later s); [done|]. by etrans. }
  intros s3 [ops3 []] ? ? Hok3 Hd3 (-> & -> & Hops); cbn [fst snd] in *; [|apply accounts_ret; [done|]; by rewrite Hops].
  destruct (tqs_get_ready_spec _ (proj1 Hok3)) as (ready & q' & Hr & Hq & Hp).
  apply accounts_timers with (1 := Hok3) (2 := Hr) (3 := Hq) (out := ready ++ inn).
  { rewrite <- Hp. solve_Permutation. }
  intros s4 Hok4 _ _ Hfd _.
  apply accounts_bind with (1 := when_accounts s4 _ _ (ready ++ inn) Hok4 (set_timerfd_accounts s4 _ Hok4)).
  intros s5 _ ? ? Hok5 _ [-> ->]. apply accounts_ret; [done|]. split; [|done].
  rewrite timer_ops_app, timer_ops_run, Hops. solve_Permutation.
Qed.

(** *** Completions *)

(** What performing operations of the descriptor [d] leaves as it was. *)
Record performed d s st s' st' : Prop := {
  pf_states : states s' = <[d := st']> (states s);
  pf_live : live_list_ s' = live_list_ s;
  pf_free : free_list_ s' = free_list_ s;
  pf_timers : timer_queues_ s' = timer_queues_ s;
  pf_performs : (performs s <= performs s')%nat;
}.

Lemma performed_trans d s st s1 st1 s2 st2 :
  performed d s st s1 st1 -> performed d s1 st1 s2 st2 -> performed d s st s2 st2.
Proof.
  intros [Hs Hl Hf Ht Hp] [Hs' Hl' Hf' Ht' Hp']. split; [|congruence..|lia].
  by rewrite Hs', Hs, insert_insert_eq.
Qed.

Lemma performed_refl d s st : states s !! d = Some st -> performed d s st s st.
Proof. intros Hd. split; [|done..]. by rewrite insert_id. Qed.

Lemma performed_update d s st f n :
  states s !! d = Some st -> (performs s <= n)%nat ->
  performed d s st (set_states (alter f d (states s)) (set_performs n s)) (f st).
Proof. intros Hd Hn. split; [|done..]. cbn. by rewrite alter_alt, Hd. Qed.

Lemma run_do_perform {A} op (f : Status -> M A) s :
  (do_perform op ≫= f) s = after [Perform op] (f (perform (performs s)) (set_performs (S (performs s)) s)).
Proof. unfold do_perform. rewrite run_bind_bind, run_get, run_bind_bind, run_emit, run_bind_bind, run_modify, run_ret. done. Qed.

(** Whether the kernel said, at an attempt between two states, to wait. *)
Definition told_to_wait s s' : Prop :=
  exists k, (performs s <= k < performs s')%nat /\ perform k <> done.

(** The queue [t] of a descriptor has been worked on: some of its operations, the
    first ones, are done. *)
Record queue_taken t st ops st' : Prop := {
  qt_queue : per_op t (desc_queue st) = ops ++ per_op t (desc_queue st');
  qt_others t' : t' <> t -> per_op t' (desc_queue st') = per_op t' (desc_queue st);
}.

Lemma per_op_set {A} t (x : A) p : per_op t (set_per_op t x p) = x.
Proof. by destruct t. Qed.

Lemma per_op_set_ne {A} t t' (x : A) p : t' <> t -> per_op t' (set_per_op t x p) = per_op t' p.
Proof. by destruct t, t'. Qed.

Lemma queue_taken_set t st op q st' :
  per_op t (desc_queue st) = op :: q -> desc_queue st' = set_per_op t q (desc_queue st) ->
  queue_taken t st [op] st'.
Proof.
  intros Hq Hst. split; [by rewrite Hst, per_op_set|]. intros t' Ht. by rewrite Hst, per_op_set_ne.
Qed.

Lemma queue_taken_trans t st ops st1 ops' st2 :
  queue_taken t st ops st1 -> queue_taken t st1 ops' st2 -> queue_taken t st (ops ++ ops') st2.
Proof.
  intros [Hq Ho] [Hq' Ho']. split; [by rewrite Hq, Hq', (assoc_L (++))|]. intros t' Ht.
  by rewrite Ho', Ho.
Qed.

Lemma queue_taken_nil t st : queue_taken t st [] st.
Proof. done. Qed.

(** The effects of attempts: nothing leaves the reactor. *)
Definition attempts (es : list ReactorEffect) : Prop := Forall (fun e => exists op, e = Perform op) es.

Lemma attempts_quiet es : attempts es -> left_reactor es = [] /\ work es = 0.
Proof.
  intros He. induction He as [|e es (op & ->) _ [IHl IHw]]; [done|].
  unfold left_reactor, work in *. cbn. by rewrite IHl, IHw.
Qed.

Lemma perform_queue_spec d t q s st : states s !! d = Some st -> per_op t (desc_queue st) = q ->
  exists es s' ops st', perform_queue d t q s = (es, s', Ok ops) /\ attempts es /\
    performed d s st s' st' /\ queue_taken t st ops st' /\
    (per_op t (desc_queue st') <> [] -> told_to_wait s s').
Proof.
  revert s st. induction q as [|op q IH]; intros s st Hd Hq.
  { exists [], s, [], st. split; [done|]. split; [by constructor|].
    split; [by apply performed_refl|]. by rewrite Hq. }
  cbn [perform_queue]. rewrite run_do_perform. destruct (perform (performs s)) eqn:Hst.
  - exists [Perform op], (set_performs (S (performs s)) s), [], st. split; [done|].
    split; [by repeat econstructor|]. split; [|split; [done|]].
    + split; [cbn; by rewrite insert_id|done..|cbn; lia].
    + intros _. exists (performs s). cbn. split; [lia|]. by rewrite Hst.
  - unfold update_state. rewrite run_modify.
    set (s1 := set_states _ _). set (st1 := set_queue t q st).
    assert (performed d s st s1 st1) as Hp1 by (apply (performed_update d s st (set_queue t q) _ Hd); lia).
    assert (states s1 !! d = Some st1) as Hd1 by (by rewrite (pf_states _ _ _ _ _ Hp1), lookup_insert_eq).
    destruct (IH s1 st1 Hd1) as (es & s2 & ops & st2 & Hr & Hes & Hp2 & Hq2 & Hw).
    { apply per_op_set. }
    exists (Perform op :: es), s2, (op :: ops), st2. rewrite (run_bind_ok _ _ _ _ _ _ Hr).
    split; [cbn; by rewrite app_nil_r|]. split; [by repeat econstructor|].
    split; [by eapply performed_trans|]. split.
    + apply (queue_taken_trans t st [op] st1); [by apply (queue_taken_set _ _ _ q)|done].
    + intros Hne. destruct (Hw Hne) as (k & Hk & ?). exists k. cbn in Hk. split; [lia|done].
  - unfold update_state. rewrite run_modify. cbn [after]. set (s1 := set_states _ _).
    eexists _, s1, [op], _. split; [done|]. split; [by repeat econstructor|]. split; [apply (performed_update d s st _ _ Hd); lia|].
    split; [by apply (queue_taken_set _ _ _ q)|]. intros _. exists (performs s). cbn. split; [lia|]. by rewrite Hst.
Qed.

Definition flagged (events : Z) t : bool := negb (Z.land events (bits [flag t; EPOLLERR; EPOLLHUP]) =? 0).

Lemma perform_ready_spec d events t s st : states s !! d = Some st ->
  exists es s' ops st', perform_ready d events t s = (es, s', Ok ops) /\ attempts es /\
    performed d s st s' st' /\ queue_taken t st ops st' /\
    (flagged events t = false -> ops = []) /\
    (flagged events t = true -> per_op t (desc_queue st') <> [] -> told_to_wait s s').
Proof.
  intros Hd. unfold perform_ready, flagged. destruct (_ =? 0).
  { exists [], s, [], st. split; [done|]. split; [by constructor|]. by split; [apply performed_refl|]. }
  unfold update_state. rewrite run_modify. set (s1 := set_states _ _).
  set (g := fun st => set_speculative (set_per_op t true (try_speculative_ st)) st).
  assert (performed d s st s1 (g st)) as Hp1 by exact (performed_update d s st g (performs s) Hd (le_n _)).
  assert (states s1 !! d = Some (g st)) as Hd1 by (by rewrite (pf_states _ _ _ _ _ Hp1), lookup_insert_eq).
  unfold deref. rewrite run_bind_bind, run_get, Hd1, run_ret.
  destruct (perform_queue_spec d t (per_op t (desc_queue (g st))) s1 (g st) Hd1 eq_refl)
    as (es & s' & ops & st' & Hr & Hes & Hp & Hq & Hw).
  exists es, s', ops, st'. split; [done|]. split; [done|]. split; [by eapply performed_trans|].
  split; [by destruct Hq; split|]. split; [done|]. intros _ Hne.
  destruct (Hw Hne) as (k & Hk & ?). exists k. destruct Hp1 as [_ _ _ _ Hp1]. split; [lia|done].
Qed.

Lemma told_to_wait_mono s s' s1 s1' :
  (performs s <= performs s1)%nat -> (performs s1' <= performs s')%nat -> told_to_wait s1 s1' -> told_to_wait s s'.
Proof. intros ? ? (k & ? & ?). exists k. split; [lia|done]. Qed.

(** What a completed descriptor hands over: the first operation to its handler,
    the others to the queue of the scheduler. *)
Definition handed_over (ops : list nat) : list ReactorEffect :=
  match ops with
  | [] => [ToScheduler CompensatingWorkStarted]
  | op :: rest =>
      (if bool_decide (rest = []) then [] else [ToScheduler (PostDeferredCompletions rest)]) ++ [CompleteReactorOp op]
  end.

Lemma do_complete_spec d events s st : states s !! d = Some st ->
  exists es s' ops st', do_complete true d events s = (es ++ handed_over (per_op except_op ops ++ per_op write_op ops ++ per_op read_op ops), s', Ok tt) /\
    attempts es /\ performed d s st s' st' /\
    forall t, per_op t (desc_queue st) = per_op t ops ++ per_op t (desc_queue st') /\
      (flagged events t = false -> per_op t ops = []) /\
      (flagged events t = true -> per_op t (desc_queue st') <> [] -> told_to_wait s s').
Proof.
  intros Hd.
  destruct (perform_ready_spec d events except_op s st Hd) as (es2 & s2 & ops2 & st2 & Hr2 & Ha2 & Hp2 & [Hq2 Ho2] & Hn2 & Hw2).
  assert (states s2 !! d = Some st2) as Hd2 by (by rewrite (pf_states _ _ _ _ _ Hp2), lookup_insert_eq).
  destruct (perform_ready_spec d events write_op s2 st2 Hd2) as (es1 & s1 & ops1 & st1 & Hr1 & Ha1 & Hp1 & [Hq1 Ho1] & Hn1 & Hw1).
  assert (states s1 !! d = Some st1) as Hd1 by (by rewrite (pf_states _ _ _ _ _ Hp1), lookup_insert_eq).
  destruct (perform_ready_spec d events read_op s1 st1 Hd1) as (es0 & s0 & ops0 & st0 & Hr0 & Ha0 & Hp0 & [Hq0 Ho0] & Hn0 & Hw0).
  pose proof (pf_performs _ _ _ _ _ Hp2). pose proof (pf_performs _ _ _ _ _ Hp1). pose proof (pf_performs _ _ _ _ _ Hp0).
  exists ((es2 ++ es1) ++ es0), s0, (mkPerOp ops0 ops1 ops2), st0. split; [|split; [|split]].
  - unfold do_complete, perform_io. cbn [per_op at_read at_write at_except].
    rewrite run_bind_bind, (run_bind_ok _ _ _ _ _ _ Hr2), run_bind_bind, (run_bind_ok _ _ _ _ _ _ Hr1).
    rewrite run_bind_bind, (run_bind_ok _ _ _ _ _ _ Hr0), !after_after.
    destruct (ops2 ++ ops1 ++ ops0) as [|op rest]; [done|]. cbn. by destruct (bool_decide (rest = [])).
  - unfold attempts. by rewrite !Forall_app.
  - eauto using performed_trans.
  - pose proof (Ho0 write_op ltac:(done)). pose proof (Ho0 except_op ltac:(done)).
    pose proof (Ho1 read_op ltac:(done)). pose proof (Ho1 except_op ltac:(done)).
    pose proof (Ho2 read_op ltac:(done)). pose proof (Ho2 write_op ltac:(done)).
    intros [| |]; cbn [per_op at_read at_write at_except] in *;
      (split; [congruence|]; split; [done|]); intros Hf Hne;
      [eapply told_to_wait_mono; [| |apply (Hw0 Hf); congruence]
      |eapply told_to_wait_mono; [| |apply (Hw1 Hf); congruence]
      |eapply told_to_wait_mono; [| |apply (Hw2 Hf); congruence]]; lia.
Qed.

Lemma shut_descriptors_accounts s live inn : reactor_ok s -> NoDup live -> (forall d, d ∈ live -> d ∈ live_list_ s) ->
  accounts s (shut_descriptors live) inn (fun _ ops out w => out ≡ₚ ops ++ inn /\ w = 0).
Proof.
  revert s inn. induction live as [|d live IH]; intros s inn Hok Hnd Hin; [by apply accounts_ret|].
  apply NoDup_cons in Hnd as [Hd Hnd]. assert (d ∈ live_list_ s) as Hlive by (apply Hin; left).
  destruct (live_state s d Hok Hlive) as [st Hst]. apply accounts_deref with (1 := Hst).
  eapply accounts_bind with (Φ := fun s' _ out w => out = all_ops st ++ inn /\ w = 0 /\ live_list_ s' = live_list_ s).
  { apply accounts_update with (1 := Hok) (2 := Hst) (out := all_ops st ++ inn); done. }
  intros s1 _ ? ? Hok1 _ (-> & -> & Hl1).
  eapply accounts_bind. { apply free_accounts; [done|by rewrite Hl1]. }
  intros s2 _ ? ? Hok2 _ (-> & -> & Hl2).
  eapply accounts_bind. { apply IH with (inn := all_ops st ++ inn); [done|done|]. intros d' Hd'.
    rewrite Hl2, Hl1. apply list_elem_of_filter. split; [by intros ->|]. apply Hin. by right. }
  intros s3 ops out ? Hok3 _ [Hout ->]. apply accounts_ret; [done|]. split; [|done].
  rewrite Hout. solve_Permutation.
Qed.

Lemma shutdown_accounts s inn : reactor_ok s ->
  accounts s reactor_shutdown inn (fun _ _ out w => out = inn /\ w = 0).
Proof.
  intros Hok. eapply accounts_bind with (Φ := fun s' _ out w => out = inn /\ w = 0 /\ live_list_ s' = live_list_ s).
  { by apply accounts_modify with (out := inn). }
  intros s1 _ ? ? Hok1 _ (-> & -> & Hl1). apply accounts_get.
  eapply accounts_bind. { apply shut_descriptors_accounts with (inn := inn); [done| |done].
    destruct Hok1 as (_ & Hnd & _). by apply NoDup_app in Hnd as [? _]. }
  intros s2 ops out ? Hok2 _ [Hout ->].
  destruct (tqs_get_all_spec _ (proj1 Hok2)) as (timers & q' & Hr & Hq & Hp).
  apply accounts_timers with (1 := Hok2) (2 := Hr) (3 := Hq) (out := timers ++ ops ++ inn).
  { rewrite <- Hp, <- Hout. solve_Permutation. }
  intros s3 Hok3 _ _ _ _. apply accounts_emit with (out := inn); [done| |done]. cbn. solve_Permutation.
Qed.

Lemma queue_split_all_ops st st' ops :
  (forall t, per_op t (desc_queue st) = per_op t ops ++ per_op t (desc_queue st')) ->
  all_ops st ≡ₚ (per_op except_op ops ++ per_op write_op ops ++ per_op read_op ops) ++ all_ops st'.
Proof. intros Hq. unfold all_ops. rewrite !Hq. solve_Permutation. Qed.

Lemma handed_over_left ops : left_reactor (handed_over ops) ≡ₚ ops.
Proof.
  destruct ops as [|op rest]; [done|]. unfold left_reactor. cbn.
  case_bool_decide as Hr; [by subst|]. cbn. by rewrite <- Permutation_cons_append.
Qed.

Lemma handed_over_work ops : work (handed_over ops) = if existsb completes (handed_over ops) then 0 else 1.
Proof. destruct ops as [|op rest]; [done|]. cbn. by case_bool_decide. Qed.

Lemma attempts_complete es es' : attempts es -> existsb completes (es ++ es') = existsb completes es'.
Proof. intros He. by induction He as [|e es (op & ->) _ IH]. Qed.

Definition idle (c : ReactorCall) (es : list ReactorEffect) : Z :=
  match c with
  | CompleteDescriptor _ _ => if existsb completes es then 0 else 1
  | _ => 0
  end.

Lemma complete_accounts d events s : reactor_ok s -> is_Some (states s !! d) ->
  exists es s', do_complete true d events s = (es, s', Ok tt) /\ reactor_ok s' /\
    left_reactor es ++ reactor_pending s' ≡ₚ reactor_pending s /\
    work es = if existsb completes es then 0 else 1.
Proof.
  intros Hok [st Hd]. destruct (do_complete_spec d events s st Hd) as (es & s' & ops & st' & Hr & Ha & Hp & Hq).
  eexists _, s'. split; [exact Hr|]. destruct (attempts_quiet es Ha) as [Hl Hw].
  destruct Hp as [Hs Hlive Hfree Htimers _]. split; [|split].
  - destruct Hok as (? & ? & Hall). unfold reactor_ok. rewrite Htimers, Hlive, Hfree, Hs.
    split; [done|]. split; [done|]. eapply Forall_impl; [exact Hall|]. intros d' Hd'. cbn in *.
    apply lookup_insert_is_Some. destruct (decide (d = d')); [by left|by right].
  - rewrite left_app, Hl, handed_over_left. unfold reactor_pending. rewrite Hs, Htimers, !app_nil_l, (assoc_L (++)).
    f_equiv. pose proof (gather_insert all_ops (states s) d st st' Hd) as H.
    rewrite (queue_split_all_ops st st' ops) in H by apply Hq.
    apply (Permutation_app_inv_r (all_ops st')). rewrite <- H. solve_Permutation.
  - rewrite work_app, Hw, handed_over_work, attempts_complete by done. done.
Qed.

Definition conclusion s (c : ReactorCall) : Prop :=
  exists es s' ops, reactor_call c s = (es, s', Ok ops) /\ reactor_ok s' /\
    left_reactor es ++ timer_ops ops ++ reactor_pending s' ≡ₚ reactor_pending s ++ begun c /\
    work es = counted c + idle c es.

Lemma conclude {A} s (m : M A) c w : reactor_call c = without_result m ->
  (forall es, idle c es = 0) -> counted c = w ->
  accounts s m (begun c) (fun _ _ out w' => out = [] /\ w' = w) -> conclusion s c.
Proof.
  intros Hc Hi Hw (es & s' & a & out & Hr & Hok & _ & Hp & -> & Hwork). exists es, s', []. rewrite Hc.
  unfold without_result. rewrite (run_bind_ok _ _ _ _ _ _ Hr). split; [cbn; by rewrite app_nil_r|].
  split; [done|]. rewrite app_nil_r in Hp. cbn. split; [done|]. rewrite Hi, Hw, Hwork. lia.
Qed.

Lemma reactor_call_accounts s c : reactor_ok s -> call_ok s c -> conclusion s c.
Proof.
  intros Hok Hc. destruct c; cbn [call_ok] in Hc.
  - eapply conclude; [done..|]. by apply register_accounts.
  - eapply conclude; [done..|]. by apply register_internal_accounts.
  - eapply conclude; [done..|]. by apply start_op_accounts.
  - eapply conclude; [done..|]. by apply cancel_accounts.
  - eapply conclude; [done..|]. by apply deregister_accounts.
  - eapply conclude; [done..|]. by apply deregister_internal_accounts.
  - eapply conclude; [done..|]. by apply cleanup_accounts.
  - destruct (run_reactor_accounts s usec [] [] Hok Hc) as (es & s' & ops & out & Hr & Hok' & _ & Hp & Hops & Hw).
    exists es, s', ops. split; [done|]. split; [done|]. split; [|done].
    rewrite app_nil_r in Hops. rewrite Hops, <- Hp. cbn. solve_Permutation.
  - destruct (complete_accounts d events s Hok Hc) as (es & s' & Hr & Hok' & Hp & Hw).
    exists es, s', []. cbn [reactor_call]. unfold without_result. rewrite (run_bind_ok _ _ _ _ _ _ Hr).
    split; [cbn; by rewrite app_nil_r|]. cbn. rewrite app_nil_r. done.
  - destruct Hc. eapply conclude; [done..|]. by apply schedule_timer_accounts.
  - eapply conclude; [done..|]. by apply cancel_timer_accounts.
  - destruct Hc as (? & ? & ?). eapply conclude; [done..|]. by apply move_timer_accounts.
  - eapply conclude; [done..|]. apply quiet_last; [auto with quiet|done|done].
  - eapply conclude; [done..|]. by apply shutdown_accounts.
Qed.

(** ** The reactor with the scheduler's count *)

(** [outstanding_io] is the scheduler's count of outstanding work, [handed] the
    operations in its queue. *)
Record IoContext := mkIoContext { io_reactor : Reactor Q; handed : list nat; outstanding_io : Z }.

(** The calls of a program that uses sockets and timers. *)
Definition user_call (c : ReactorCall) : bool :=
  match c with
  | RegisterInternal _ _ _ | DeregisterInternal _ _ | ShutdownReactor | CompleteDescriptor _ _ => false
  | _ => true
  end.

Definition to_queue (e : ReactorEffect) : list nat :=
  match e with ToScheduler c => posted c | _ => [] end.

(** A call of the reactor, the completion of a descriptor by the scheduler, which
    counts one less afterwards, or of an operation in its queue. *)
Inductive io_step : IoContext -> IoContext -> Prop :=
| io_call_step c x es r ops :
    user_call c = true -> call_ok (io_reactor x) c -> reactor_call c (io_reactor x) = (es, r, Ok ops) ->
    io_step x (mkIoContext r (handed x ++ (es ≫= to_queue) ++ timer_ops ops) (outstanding_io x + work es))
| io_complete_step d events x es r ops :
    is_Some (states (io_reactor x) !! d) ->
    reactor_call (CompleteDescriptor d events) (io_reactor x) = (es, r, Ok ops) ->
    io_step x (mkIoContext r (handed x ++ (es ≫= to_queue)) (outstanding_io x + work es - 1))
| io_execute_step op before rest x :
    handed x = before ++ op :: rest ->
    io_step x (mkIoContext (io_reactor x) (before ++ rest) (outstanding_io x - 1)).

(** The count is the number of operations that wait. *)
Definition count_exact (x : IoContext) : Prop :=
  reactor_ok (io_reactor x) /\
  outstanding_io x = Z.of_nat (length (reactor_pending (io_reactor x)) + length (handed x)).

(** Calls of a program complete and destroy nothing: what leaves the reactor goes
    to the scheduler. *)
Definition hands_over (e : ReactorEffect) : Prop := leaving e = to_queue e.

Definition emits {A} (m : M A) : Prop := forall s, Forall hands_over (m s).1.1.

Lemma emits_bind {A B} (m : M A) (f : A -> M B) : emits m -> (forall a, emits (f a)) -> emits (m ≫= f).
Proof.
  intros Hm Hf s. unfold mbind, comp_bind. specialize (Hm s). destruct (m s) as [[es s1] [a|err]]; [|done].
  specialize (Hf a s1). destruct (f a s1) as [[es' s2] r]. by apply Forall_app.
Qed.

Lemma emits_emit e : hands_over e -> emits (emit e).
Proof. intros He s. by repeat constructor. Qed.

Lemma emits_nothing {A} (m : M A) : (forall s, (m s).1.1 = []) -> emits m.
Proof. intros Hm s. rewrite Hm. constructor. Qed.

Create HintDb emits.
#[local] Hint Extern 1 (emits (mret _)) => by apply emits_nothing : emits.
#[local] Hint Extern 1 (emits (modify _)) => by apply emits_nothing : emits.
#[local] Hint Extern 1 (emits get_state) => by apply emits_nothing : emits.
#[local] Hint Extern 1 (emits (lift _)) => by apply emits_nothing : emits.
#[local] Hint Extern 1 (emits (fail_with _)) => by apply emits_nothing : emits.
#[local] Hint Extern 1 (emits (emit _)) => apply emits_emit; reflexivity : emits.
#[local] Hint Extern 2 (emits (_ ≫= _)) => apply emits_bind; [|intros ?] : emits.
#[local] Hint Extern 3 (emits (match ?x with _ => _ end)) => destruct x : emits.
#[local] Hint Extern 3 (emits (if ?x then _ else _)) => destruct x : emits.
#[local] Hint Extern 3 (emits (when ?x _)) => unfold when; destruct x : emits.

Ltac emits := auto 30 with emits.

Lemma emits_update d f : emits (update_state d f).
Proof. unfold update_state. emits. Qed.

Lemma emits_deref d : emits (deref d).
Proof. unfold deref. emits. Qed.

Lemma emits_timers {A} (f : Q -> result (A * Q)) : emits (timers f).
Proof. unfold timers. emits. Qed.

Lemma emits_call_ctl o target events ptr : emits (call_epoll_ctl o target events ptr).
Proof. unfold call_epoll_ctl. emits. Qed.

#[local] Hint Resolve emits_update emits_deref emits_timers emits_call_ctl : emits.

Lemma emits_allocate : emits allocate_descriptor_state.
Proof. unfold allocate_descriptor_state, pool_alloc. emits. Qed.

Lemma emits_post_error op e k : emits (post_error op e k).
Proof. unfold post_error, set_error, post_immediate. emits. Qed.

Lemma emits_enqueue d t op : emits (enqueue_operation d t op).
Proof. unfold enqueue_operation, push_operation. emits. Qed.

Lemma emits_for_each {A} (f : A -> M unit) l : (forall x, emits (f x)) -> emits (for_each f l).
Proof. intros Hf. induction l as [|x l IH]; cbn; emits. Qed.

#[local] Hint Resolve emits_allocate emits_post_error emits_enqueue emits_for_each : emits.

Lemma emits_abort d t : emits (abort_queue d t).
Proof. unfold abort_queue, set_error. emits. Qed.

Lemma emits_abort_queues d : emits (abort_queues d).
Proof. pose proof emits_abort. unfold abort_queues. emits. Qed.

Lemma emits_update_timeout : emits update_timeout.
Proof. unfold update_timeout, set_timerfd, get_timeout_spec, interrupt. emits. Qed.

Lemma emits_start_op t fd data op k spec : emits (start_op t fd data op k spec).
Proof. unfold start_op, speculate, await_descriptor, renew_registration, do_perform, post_immediate. emits. Qed.

Lemma emits_dispatch events acc : emits (dispatch_events events acc).
Proof.
  revert acc. induction events as [|[[| |d] ev] events IH]; intros [ops check]; cbn [dispatch_events dispatch_event]; emits.
Qed.

Lemma emits_run usec ops : emits (run_reactor usec ops).
Proof.
  pose proof emits_dispatch.
  unfold run_reactor, wait_timeout, get_timeout, wait_for_events, set_timerfd, get_timeout_spec. emits.
Qed.

Lemma emits_user_call c : user_call c = true -> emits (reactor_call c).
Proof.
  pose proof emits_abort_queues. pose proof emits_update_timeout. pose proof emits_start_op. pose proof emits_run.
  destruct c; intros Hu; try discriminate Hu; cbn [reactor_call]; unfold without_result;
    try unfold register_descriptor; try unfold cancel_ops; try unfold deregister_descriptor;
    try unfold cleanup_descriptor_data; try unfold free_descriptor_state; try unfold pool_free; try unfold schedule_timer;
    try unfold cancel_timer; try unfold move_timer; try unfold interrupt; try unfold post_immediate; emits.
Qed.

Lemma user_call_to_queue c s es s' r : user_call c = true -> reactor_call c s = (es, s', r) ->
  es ≫= to_queue = left_reactor es.
Proof.
  intros Hu Hr. pose proof (emits_user_call c Hu s) as He. rewrite Hr in He. cbn in He.
  clear Hr. unfold left_reactor. induction He as [|e es He _ IH]; [done|]. cbn. unfold hands_over in He. rewrite He. f_equal. exact IH.
Qed.

Lemma attempts_to_queue es : attempts es -> es ≫= to_queue = [].
Proof. intros He. by induction He as [|e es (op & ->) _ IH]. Qed.

Lemma handed_over_count ops :
  Z.of_nat (length (handed_over ops ≫= to_queue)) =
  Z.of_nat (length ops) - (if existsb completes (handed_over ops) then 1 else 0).
Proof.
  destruct ops as [|op rest]; [done|]. cbn [handed_over]. case_bool_decide as Hr; [by subst|].
  cbn. rewrite app_nil_r. lia.
Qed.

Lemma complete_to_queue d events s es s' ops :
  is_Some (states s !! d) -> reactor_call (CompleteDescriptor d events) s = (es, s', Ok ops) ->
  Z.of_nat (length (es ≫= to_queue)) =
  Z.of_nat (length (left_reactor es)) - (if existsb completes es then 1 else 0).
Proof.
  intros [st Hd]. destruct (do_complete_spec d events s st Hd) as (es1 & s1 & ops1 & st1 & Hr & Ha & _).
  cbn [reactor_call]. unfold without_result. rewrite (run_bind_ok _ _ _ _ _ _ Hr). intros [= <- _ _].
  rewrite app_nil_r, bind_app, attempts_to_queue, left_app, attempts_complete by done.
  destruct (attempts_quiet es1 Ha) as [-> _]. cbn [app]. rewrite handed_over_count.
  by rewrite handed_over_left.
Qed.

Lemma io_step_exact x x' : count_exact x -> io_step x x' -> count_exact x'.
Proof.
  intros [Hok Hcount] Hstep. unfold count_exact. destruct Hstep as [c x es r ops Hu Hc Hr|d events x es r ops Hd Hr|op before rest x Hh]; cbn.
  - destruct (reactor_call_accounts _ c Hok Hc) as (es' & r' & ops' & Hr' & Hok' & Hp & Hw).
    rewrite Hr in Hr'. injection Hr' as <- <- <-. split; [done|].
    rewrite (user_call_to_queue c _ _ _ _ Hu Hr). apply Permutation_length in Hp. rewrite !length_app in *.
    rewrite Hw, Hcount. destruct c; cbn in *; try discriminate Hu; lia.
  - destruct (reactor_call_accounts _ (CompleteDescriptor d events) Hok Hd) as (es' & r' & ops' & Hr' & Hok' & Hp & Hw).
    pose proof (complete_to_queue _ _ _ _ _ _ Hd Hr) as Hq.
    assert (ops = []) as ->.
    { revert Hr. cbn [reactor_call]. unfold without_result, mbind, comp_bind.
      by destruct (do_complete _ _ _ _) as [[? ?] [?|?]]; intros [=]. }
    rewrite Hr in Hr'. injection Hr' as <- <- <-. split; [done|].
    apply Permutation_length in Hp. cbn in Hp, Hw. rewrite !length_app in *. cbn in *.
    rewrite Hw, Hcount. destruct (existsb completes es); lia.
  - split; [done|]. rewrite Hcount, Hh, !length_app. cbn. lia.
Qed.

Lemma count_exact_reachable x x' : count_exact x -> rtc io_step x x' -> count_exact x'.
Proof. intros Hx Hsteps. induction Hsteps as [|x y z Hxy _ IH]; [done|]. by apply IH, (io_step_exact x). Qed.

End reactor.

(** ** The count of the scheduler *)

Definition total_work (s : IoScheduler) : Z := outstanding_work_ s + private_outstanding_work s.

Definition keeps_work (m : comp IoScheduler IoEffect unit) (n : Z) : Prop :=
  forall s es s' r, m s = (es, s', Ok r) -> total_work s' = total_work s + n.

Lemma keeps_work_bind (m : comp IoScheduler IoEffect unit) f n n' :
  keeps_work m n -> (forall u, keeps_work (f u) n') -> keeps_work (m ≫= f) (n + n').
Proof.
  intros Hm Hf s es s' r. unfold mbind, comp_bind.
  destruct (m s) as [[es1 s1] [u|err]] eqn:Hr; [|done].
  destruct (f u s1) as [[es2 s2] [u'|err]] eqn:Hr2; [|done]. intros [= _ <- _].
  rewrite (Hf u _ _ _ _ Hr2), (Hm _ _ _ _ Hr). lia.
Qed.

Lemma keeps_work_modify g n : (forall s, total_work (g s) = total_work s + n) -> keeps_work (modify g) n.
Proof. intros Hg s es s' r [= _ <- _]. apply Hg. Qed.

Lemma keeps_work_emit e : keeps_work (emit e) 0.
Proof. intros s es s' r [= _ <- _]. lia. Qed.

Lemma keeps_work_interrupt : keeps_work interrupt_task 0.
Proof.
  intros s es s' r. unfold interrupt_task. rewrite run_get. unfold when.
  destruct (_ && _); [|intros [= _ <- _]; lia]. rewrite run_modify. intros [= _ <- _]. unfold total_work. cbn. lia.
Qed.

Lemma keeps_work_wake : keeps_work wake_one_thread_and_unlock 0.
Proof.
  intros s es s' r. unfold wake_one_thread_and_unlock. rewrite run_get.
  destruct (waiting s); [apply keeps_work_emit|apply keeps_work_interrupt].
Qed.

Lemma keeps_work_stop : keeps_work stop_io 0.
Proof.
  unfold stop_io, stop_all_threads. apply (keeps_work_bind _ _ 0 0).
  - apply keeps_work_modify. intros s. unfold total_work. cbn. lia.
  - intros _. apply (keeps_work_bind _ _ 0 0); [apply keeps_work_emit|intros _; apply keeps_work_interrupt].
Qed.

Lemma keeps_work_push_wake os n : keeps_work (push_ops os ;; wake_one_thread_and_unlock) 0 /\
  keeps_work (work_started ;; (push_op n ;; wake_one_thread_and_unlock)) 1 /\
  keeps_work (push_op n ;; wake_one_thread_and_unlock) 0.
Proof.
  assert (keeps_work (push_op n ;; wake_one_thread_and_unlock) 0) as Hp.
  { apply (keeps_work_bind _ _ 0 0); [|intros _; apply keeps_work_wake].
    apply keeps_work_modify. intros s. unfold total_work. cbn. lia. }
  split; [|split; [|done]].
  - apply (keeps_work_bind _ _ 0 0); [|intros _; apply keeps_work_wake].
    apply keeps_work_modify. intros s. unfold total_work. cbn. lia.
  - apply (keeps_work_bind _ _ 1 0); [|intros _; done].
    apply keeps_work_modify. intros s. unfold total_work. cbn. lia.
Qed.

(** [call_work] is what the scheduler's own code adds to its two counters. *)
Lemma io_call_work one_thread inside c : keeps_work (io_call one_thread inside c) (call_work c).
Proof.
  assert (forall ops, keeps_work (abandon_operations ops) 0) as Habandon.
  { intros ops. induction ops as [|op ops IH]; [intros s es s' r [= _ <- _]; lia|].
    apply (keeps_work_bind _ _ 0 0); [apply keeps_work_emit|intros _; exact IH]. }
  destruct c as [op k|op|ops|op|ops| | | | | |]; cbn [io_call call_work].
  - unfold post_immediate_completion. destruct (_ && _); [|by apply (keeps_work_push_wake [])].
    apply keeps_work_modify. intros s. unfold total_work. cbn. lia.
  - unfold post_deferred_completion. destruct (_ && _); [|by apply (keeps_work_push_wake [])].
    apply keeps_work_modify. intros s. unfold total_work. cbn. lia.
  - destruct ops as [|op ops]; [intros s es s' r [= _ <- _]; lia|]. unfold post_deferred_completions.
    destruct (_ && _); [|by apply (keeps_work_push_wake _ TaskOperation)].
    apply keeps_work_modify. intros s. unfold total_work. cbn. lia.
  - by apply (keeps_work_push_wake []).
  - apply Habandon.
  - apply keeps_work_modify. intros s. unfold total_work. cbn. lia.
  - apply (keeps_work_bind _ _ (-1) 0).
    + apply keeps_work_modify. intros s. unfold total_work. cbn. lia.
    + intros _ s es s' r. rewrite run_get. destruct (_ =? 0); [apply keeps_work_stop|intros [= _ <- _]; lia].
  - unfold compensating_work_started. destruct inside; [|done].
    apply keeps_work_modify. intros s. unfold total_work. cbn. lia.
  - apply keeps_work_stop.
  - apply keeps_work_modify. intros s. unfold total_work. cbn. lia.
  - intros s es s' r. unfold init_task. rewrite run_get. destruct (_ && _); [|intros [= _ <- _]; lia].
    cbn [when]. rewrite run_modify. intros Hr.
    rewrite ((proj2 (proj2 (keeps_work_push_wake [] TaskOperation))) _ _ _ _ Hr). unfold total_work. cbn. lia.
Qed.

(** ** Properties *)

(** Every call of the reactor runs without a fault, loses or duplicates no
    operation, and reports to the scheduler exactly the operations it takes on;
    a descriptor that is completed without one finished operation reports one to
    make up for the decrement that follows. *)
Theorem reactor_accounts_for_work {Q} `{TimerQueueSetOk Q} perform epoll_ctl epoll_wait (s : Reactor Q) (c : ReactorCall) :
  reactor_ok s -> call_ok epoll_wait s c ->
  exists es s' ops, reactor_call perform epoll_ctl epoll_wait c s = (es, s', Ok ops) /\ reactor_ok s' /\
    left_reactor es ++ timer_ops ops ++ reactor_pending s' ≡ₚ reactor_pending s ++ begun c /\
    work es = counted c + idle c es.
Proof. apply reactor_call_accounts. Qed.

(** The scheduler's count of outstanding work is the number of operations that
    wait in the reactor or in the queue of the scheduler: the event loop ends when
    there are none, and not before. *)
Theorem outstanding_work_is_exact {Q} `{TimerQueueSetOk Q} perform epoll_ctl epoll_wait (s : Reactor Q) (x : IoContext) :
  reactor_ok s -> reactor_pending s = [] ->
  rtc (io_step perform epoll_ctl epoll_wait) (mkIoContext s [] 0) x ->
  outstanding_io x = Z.of_nat (length (reactor_pending (io_reactor x)) + length (handed x)) /\
  (outstanding_io x = 0 <-> reactor_pending (io_reactor x) = [] /\ handed x = []).
Proof.
  intros Hok Hnone Hsteps. eapply count_exact_reachable in Hsteps as [_ Hcount].
  - split; [done|]. rewrite Hcount. split; [|by intros [-> ->]].
    intros Hz. split; apply length_zero_iff_nil; lia.
  - split; [done|]. cbn. by rewrite Hnone.
Qed.

(** When the events of a descriptor arrive, its operations finish in the order
    in which they were started, those on exceptions first; the first is
    completed at once and the others are posted.  An operation that is left
    waiting, though an event for it arrived, was told to wait. *)
Theorem completions_in_order {Q} `{TimerQueueSet Q} perform (d : nat) (events : Z) (s : Reactor Q) (st : descriptor_state) :
  states s !! d = Some st ->
  exists es s' ops st',
    do_complete perform true d events s =
      (es ++ handed_over (per_op except_op ops ++ per_op write_op ops ++ per_op read_op ops), s', Ok tt) /\
    attempts es /\ states s' = <[d := st']> (states s) /\
    forall t, per_op t (desc_queue st) = per_op t ops ++ per_op t (desc_queue st') /\
      (flagged events t = false -> per_op t ops = []) /\
      (flagged events t = true -> per_op t (desc_queue st') <> [] -> told_to_wait perform s s').
Proof.
  intros Hd. destruct (do_complete_spec perform d events s st Hd) as (es & s' & ops & st' & Hr & Ha & Hp & Hq).
  exists es, s', ops, st'. split; [done|]. split; [done|]. split; [by destruct Hp|done].
Qed.
