(* ===== verification/AsioTimerQueue.v ===== *)
(** * asio: the queue of timers

    [timer_queue] keeps the timers with pending waits twice: in a binary heap,
    the earliest first, and in a doubly linked list through the timers
    themselves.  Each timer remembers its place in the heap.  The queue is proved
    to keep the two consistent and the heap ordered; [TimerSet] is the set of all
    queues, which the reactor asks for expired timers. *)
From S2P Require Import Prelude AsioTime AsioReactor.
Local Open Scope Z_scope.

(** ** Data *)

(** class [per_timer_data]; [None] as an index is the greatest [size_t]. *)
Record per_timer_data := mkTimer {
  wait_queue : list nat;
  heap_index_ : option nat;
  next_ : option nat;
  prev_ : option nat;
}.

Definition new_timer : per_timer_data := mkTimer [] None None None.

(** class [timer_queue]: [timer_data] are the timer objects of the program, [reads]
    counts the readings of the clock. *)
Record TimerQueue := mkTimerQueue {
  timer_data : gmap nat per_timer_data;
  timers_ : option nat;
  heap_ : list (Z * nat);
  reads : nat;
}.

Definition new_timer_queue : TimerQueue := mkTimerQueue ∅ None [] 0.

(** [op->ec_ = operation_aborted] *)
Inductive TimerEffect := Abort_wait (op : nat).

Section timer_setters.
Implicit Types (q : TimerQueue) (t : per_timer_data).

Definition set_data x q := mkTimerQueue x (timers_ q) (heap_ q) (reads q).
Definition set_first x q := mkTimerQueue (timer_data q) x (heap_ q) (reads q).
Definition set_heap x q := mkTimerQueue (timer_data q) (timers_ q) x (reads q).
Definition set_reads x q := mkTimerQueue (timer_data q) (timers_ q) (heap_ q) x.

Definition set_waits_of x t := mkTimer x (heap_index_ t) (next_ t) (prev_ t).
Definition set_index x t := mkTimer (wait_queue t) x (next_ t) (prev_ t).
Definition set_next_of x t := mkTimer (wait_queue t) (heap_index_ t) x (prev_ t).
Definition set_prev_of x t := mkTimer (wait_queue t) (heap_index_ t) (next_ t) x.
End timer_setters.

Section timer_queue.
(** [clock k] is the [k]-th reading of the clock, [infinite] tells the times that
    never come, a tick is [period_num]/[period_den] seconds. *)
Context (clock : nat -> Z) (infinite : Z -> bool) (period_num period_den : Z).

Local Abbreviation M := (comp TimerQueue TimerEffect).
Implicit Types (q : TimerQueue) (t i : nat).

(** ** Access *)

Definition timer_at t : M per_timer_data :=
  q ← get_state;
  match timer_data q !! t with
  | Some d => mret d
  | None => fail_with (UndefinedBehaviour "no timer")
  end.

Definition change_timer t (f : per_timer_data -> per_timer_data) : M unit :=
  d ← timer_at t;
  modify (fun q => set_data (<[t := f d]> (timer_data q)) q).

(** The same through a pointer that may be null. *)
Definition change_if (p : option nat) (f : per_timer_data -> per_timer_data) : M unit :=
  match p with Some t => change_timer t f | None => mret tt end.

Definition heap_at i : M (Z * nat) :=
  q ← get_state;
  match heap_ q !! i with
  | Some e => mret e
  | None => fail_with (UndefinedBehaviour "heap index")
  end.

Definition clock_now : M Z :=
  q ← get_state;
  modify (set_reads (S (reads q))) ;; (mret (clock (reads q))).

(** ** The heap *)

Definition swap_heap (index1 index2 : nat) : M unit :=
  e1 ← heap_at index1;
  e2 ← heap_at index2;
  modify (fun q => set_heap (<[index2 := e1]> (<[index1 := e2]> (heap_ q))) q) ;;
  (change_timer e2.2 (set_index (Some index1)) ;; (change_timer e1.2 (set_index (Some index2)))).

Definition parent (i : nat) : nat := ((i - 1) / 2)%nat.

Fixpoint up_heap (fuel index : nat) : M unit :=
  match fuel with
  | O => fail_with OutOfFuel
  | S fuel =>
      if (index =? 0)%nat then mret tt
      else
        e ← heap_at index;
        p ← heap_at (parent index);
        if less_than e.1 p.1 then swap_heap index (parent index) ;; (up_heap fuel (parent index))
        else mret tt
  end.

(** The smaller child of the one at [child] and its neighbour. *)
Definition min_child_of (child : nat) : M nat :=
  q ← get_state;
  if (child + 1 =? length (heap_ q))%nat then mret child
  else
    e ← heap_at child;
    e' ← heap_at (child + 1);
    mret (if less_than e.1 e'.1 then child else child + 1)%nat.

Fixpoint down_heap (fuel index : nat) : M unit :=
  match fuel with
  | O => fail_with OutOfFuel
  | S fuel =>
      q ← get_state;
      let child := (index * 2 + 1)%nat in
      if (child <? length (heap_ q))%nat then
        min_child ← min_child_of child;
        e ← heap_at index;
        m ← heap_at min_child;
        if less_than e.1 m.1 then mret tt
        else swap_heap index min_child ;; (down_heap fuel min_child)
      else mret tt
  end.

Definition pop_back : M unit := modify (fun q => set_heap (take (length (heap_ q) - 1) (heap_ q)) q).

(** The loops go up or down the tree, at most as often as it has entries. *)
Definition fuel_of q : nat := S (length (heap_ q)).

(** ** Removing a timer *)

Definition remove_from_heap t : M unit :=
  d ← timer_at t;
  q ← get_state;
  match heap_index_ d with
  | None => mret tt
  | Some index =>
      if bool_decide (heap_ q = []) || (length (heap_ q) <=? index)%nat then mret tt
      else if (index =? length (heap_ q) - 1)%nat then pop_back
      else
        swap_heap index (length (heap_ q) - 1) ;;
        (pop_back ;;
         (e ← heap_at index;
          up ← (if (index =? 0)%nat then mret false
                else p ← heap_at (parent index); mret (less_than e.1 p.1));
          if up : bool then up_heap (fuel_of q) index else down_heap (fuel_of q) index))
  end.

Definition remove_from_list t : M unit :=
  q ← get_state;
  d ← timer_at t;
  (if bool_decide (timers_ q = Some t) then modify (set_first (next_ d)) else mret tt) ;;
  (change_if (prev_ d) (set_next_of (next_ d)) ;;
   (change_if (next_ d) (set_prev_of (prev_ d)) ;;
    (change_timer t (set_next_of None) ;; (change_timer t (set_prev_of None))))).

Definition remove_timer t : M unit := remove_from_heap t ;; (remove_from_list t).

(** ** The operations *)

Definition add_to_heap (time : Z) t : M unit :=
  if infinite time then change_timer t (set_index None)
  else
    q ← get_state;
    change_timer t (set_index (Some (length (heap_ q)))) ;;
    (modify (fun q => set_heap (heap_ q ++ [(time, t)]) q) ;;
     (q ← get_state; up_heap (fuel_of q) (length (heap_ q) - 1))).

Definition add_to_list t : M unit :=
  q ← get_state;
  change_timer t (set_next_of (timers_ q)) ;;
  (change_timer t (set_prev_of None) ;;
   (change_if (timers_ q) (set_prev_of (Some t)) ;; (modify (set_first (Some t))))).

(** [timer.prev_ == 0 && &timer != timers_] *)
Definition is_idle t : M bool :=
  d ← timer_at t;
  q ← get_state;
  mret (bool_decide (prev_ d = None) && negb (bool_decide (timers_ q = Some t))).

Definition enqueue_timer (time : Z) t (op : nat) : M bool :=
  idle ← is_idle t;
  when idle (add_to_heap time t ;; (add_to_list t)) ;;
  (change_timer t (fun d => set_waits_of (wait_queue d ++ [op]) d) ;;
   (d ← timer_at t;
    mret (bool_decide (heap_index_ d = Some 0%nat) && bool_decide (head (wait_queue d) = Some op)))).

Definition tq_empty q : bool := bool_decide (timers_ q = None).

(** The common part of [wait_duration_msec] and [wait_duration_usec]. *)
Definition wait_duration (convert : Z -> Z -> result Z) (max_duration : Z) : M Z :=
  q ← get_state;
  match heap_ q with
  | [] => mret max_duration
  | e :: _ =>
      now ← clock_now;
      d ← lift (time_subtract e.1 now);
      lift (convert d max_duration)
  end.

Definition wait_duration_msec (max_duration : Z) : M Z := wait_duration (to_msec period_num period_den) max_duration.
Definition wait_duration_usec (max_duration : Z) : M Z := wait_duration (to_usec period_num period_den) max_duration.

(** Its waits leave a timer for the queue of the caller. *)
Definition take_waits t : M (list nat) :=
  d ← timer_at t;
  change_timer t (set_waits_of []) ;; (mret (wait_queue d)).

Fixpoint ready_loop (fuel : nat) (now : Z) : M (list nat) :=
  match fuel with
  | O => fail_with OutOfFuel
  | S fuel =>
      q ← get_state;
      match heap_ q with
      | [] => mret []
      | e :: _ =>
          if less_than now e.1 then mret []
          else
            ops ← take_waits e.2;
            remove_timer e.2 ;; (rest ← ready_loop fuel now; mret (ops ++ rest))
      end
  end.

Definition get_ready_timers : M (list nat) :=
  q ← get_state;
  match heap_ q with
  | [] => mret []
  | _ => now ← clock_now; ready_loop (fuel_of q) now
  end.

Fixpoint all_loop (fuel : nat) : M (list nat) :=
  match fuel with
  | O => fail_with OutOfFuel
  | S fuel =>
      q ← get_state;
      match timers_ q with
      | None => mret []
      | Some t =>
          d ← timer_at t;
          modify (set_first (next_ d)) ;;
          (ops ← take_waits t;
           change_timer t (set_next_of None) ;;
           (change_timer t (set_prev_of None) ;; (rest ← all_loop fuel; mret (ops ++ rest))))
      end
  end.

Definition get_all_timers : M (list nat) :=
  q ← get_state;
  ops ← all_loop (S (size (timer_data q)));
  modify (set_heap []) ;; (mret ops).

(** The waits cancelled of [queue], when [num] have been already. *)
Fixpoint cancel_loop t (queue : list nat) (num max_cancelled : Z) : M (list nat) :=
  if num =? max_cancelled then mret []
  else
    match queue with
    | [] => mret []
    | op :: queue =>
        emit (Abort_wait op) ;;
        (change_timer t (set_waits_of queue) ;;
         (ops ← cancel_loop t queue (u64 (num + 1)) max_cancelled; mret (op :: ops)))
    end.

Definition tq_cancel_timer t (max_cancelled : Z) : M (list nat) :=
  idle ← is_idle t;
  if idle : bool then mret []
  else
    d ← timer_at t;
    ops ← cancel_loop t (wait_queue d) 0 max_cancelled;
    d ← timer_at t;
    when (bool_decide (wait_queue d = [])) (remove_timer t) ;; (mret ops).

(** The waits and the place in the heap go from [source] to [target]; the result
    is the source as it then is. *)
Definition move_contents (target source : nat) : M per_timer_data :=
  ops ← take_waits source;
  change_timer target (fun d => set_waits_of (wait_queue d ++ ops) d) ;;
  (s ← timer_at source;
   change_timer target (set_index (heap_index_ s)) ;;
   (change_timer source (set_index None) ;;
    (q ← get_state;
     (match heap_index_ s with
      | Some i =>
          if (i <? length (heap_ q))%nat
          then e ← heap_at i; modify (fun q => set_heap (<[i := (e.1, target)]> (heap_ q)) q)
          else mret tt
      | None => mret tt
      end) ;; (mret s)))).

(** The place in the list. *)
Definition move_links (target source : nat) (s : per_timer_data) : M unit :=
  q ← get_state;
  (if bool_decide (timers_ q = Some source) then modify (set_first (Some target)) else mret tt) ;;
  (change_if (prev_ s) (set_next_of (Some target)) ;;
   (change_if (next_ s) (set_prev_of (Some target)) ;;
    (change_timer target (set_next_of (next_ s)) ;;
     (change_timer target (set_prev_of (prev_ s)) ;;
      (change_timer source (set_next_of None) ;; (change_timer source (set_prev_of None))))))).

Definition tq_move_timer (target source : nat) : M unit :=
  s ← move_contents target source; move_links target source s.

End timer_queue.
(** ** The order of the heap *)

Section heap_order.
Implicit Types (l : list (Z * nat)) (i j k : nat).

Lemma parent_spec k : (0 < k)%nat -> (k = 2 * parent k + 1 \/ k = 2 * parent k + 2)%nat.
Proof.
  intros Hk. unfold parent. pose proof (Nat.div_mod (k - 1) 2). pose proof (Nat.mod_upper_bound (k - 1) 2). lia.
Qed.

Definition time_at l k : Z := (l !!! k).1.

Lemma time_at_lookup l k e : l !! k = Some e -> time_at l k = e.1.
Proof. intros Hk. unfold time_at. by rewrite (list_lookup_total_correct _ _ _ Hk). Qed.

(** No entry is earlier than its parent. *)
Definition heap_ordered l : Prop :=
  forall k, (0 < k < length l)%nat -> time_at l (parent k) <= time_at l k.

(** The same but for the entry [j], which may be too early for its parents. *)
Definition ordered_above l j : Prop :=
  (forall k, (0 < k < length l)%nat -> k <> j -> time_at l (parent k) <= time_at l k) /\
  (forall k, (0 < k < length l)%nat -> parent k = j -> (0 < j)%nat -> time_at l (parent j) <= time_at l k).

(** The same but for the entry [j], which may be too late for its children. *)
Definition ordered_below l j : Prop :=
  (forall k, (0 < k < length l)%nat -> parent k <> j -> time_at l (parent k) <= time_at l k) /\
  (forall k, (0 < k < length l)%nat -> parent k = j -> (0 < j)%nat -> time_at l (parent j) <= time_at l k).

Definition swapped i j (a b : Z * nat) l : list (Z * nat) := <[j := a]> (<[i := b]> l).

Lemma swapped_length i j a b l : length (swapped i j a b l) = length l.
Proof. unfold swapped. by rewrite !length_insert. Qed.

Lemma swapped_time i j a b l k : (i < length l)%nat -> (j < length l)%nat ->
  time_at (swapped i j a b l) k = if decide (k = j) then a.1 else if decide (k = i) then b.1 else time_at l k.
Proof.
  intros Hi Hj. unfold time_at, swapped. destruct (decide (k = j)) as [->|Hkj].
  - by rewrite list_lookup_total_insert_eq by (by rewrite length_insert).
  - rewrite list_lookup_total_insert_ne by done. destruct (decide (k = i)) as [->|Hki].
    + by rewrite list_lookup_total_insert_eq.
    + by rewrite list_lookup_total_insert_ne.
Qed.

(** Case distinction on the places an exchange changes. *)
Ltac heap_cases k :=
  repeat case_decide; subst; try lia;
  repeat match goal with H : parent k = _ |- _ => rewrite H in * end; try congruence; try lia.

Lemma ordered_above_stop l j : ordered_above l j ->
  (j = 0%nat \/ time_at l (parent j) <= time_at l j) -> heap_ordered l.
Proof.
  intros [Hall _] Hj k Hk. destruct (decide (k = j)) as [->|Hne]; [|by apply Hall]. destruct Hj; [lia|done].
Qed.

Lemma ordered_above_swap l j a b : (0 < j)%nat -> l !! j = Some a -> l !! parent j = Some b ->
  a.1 < b.1 -> ordered_above l j -> ordered_above (swapped j (parent j) a b l) (parent j).
Proof.
  intros Hj Ha Hb Hlt [Hall Hgrand]. pose proof (lookup_lt_Some _ _ _ Ha). pose proof (lookup_lt_Some _ _ _ Hb).
  rewrite <- (time_at_lookup _ _ _ Ha), <- (time_at_lookup _ _ _ Hb) in Hlt. pose proof (parent_spec j Hj) as Hpj.
  split; rewrite swapped_length; intros k Hk; rewrite !swapped_time by done;
    rewrite <- (time_at_lookup _ _ _ Ha), <- (time_at_lookup _ _ _ Hb); pose proof (parent_spec k ltac:(lia)) as Hpk;
    pose proof (Hall k Hk) as Hk1; pose proof (Hgrand k Hk) as Hk2.
  - intros Hne. heap_cases k.
  - intros Hpar Hpos. pose proof (parent_spec (parent j) Hpos). pose proof (Hall (parent j) ltac:(lia) ltac:(lia)).
    rewrite Hpar in *. heap_cases k.
Qed.
Lemma ordered_below_stop l j : ordered_below l j ->
  (forall k, (0 < k < length l)%nat -> parent k = j -> time_at l j <= time_at l k) -> heap_ordered l.
Proof.
  intros [Hall _] Hj k Hk. destruct (decide (parent k = j)) as [Hp|Hne]; [|by apply Hall].
  rewrite Hp. by apply Hj.
Qed.

Lemma ordered_below_swap l j m a b : (0 < m)%nat -> parent m = j -> l !! j = Some a -> l !! m = Some b ->
  b.1 <= a.1 -> (forall k, (0 < k < length l)%nat -> parent k = j -> b.1 <= time_at l k) ->
  ordered_below l j -> ordered_below (swapped j m a b l) m.
Proof.
  intros Hm Hpar Ha Hb Hle Hmin [Hall Hgrand]. pose proof (lookup_lt_Some _ _ _ Ha). pose proof (lookup_lt_Some _ _ _ Hb).
  rewrite <- (time_at_lookup _ _ _ Ha), <- (time_at_lookup _ _ _ Hb) in Hle.
  rewrite <- (time_at_lookup _ _ _ Hb) in Hmin. pose proof (parent_spec m Hm) as Hpm.
  split; rewrite swapped_length; intros k Hk; rewrite !swapped_time by done;
    rewrite <- (time_at_lookup _ _ _ Ha), <- (time_at_lookup _ _ _ Hb); pose proof (parent_spec k ltac:(lia)) as Hpk;
    pose proof (Hall k Hk) as Hk1; pose proof (Hgrand m ltac:(lia) Hpar) as Hgm; pose proof (Hmin k Hk) as Hk3.
  - intros Hne. heap_cases k.
  - intros Hpk' Hpos. rewrite Hpk', Hpar in *. heap_cases k.
Qed.

(** The last entry may go, and any entry may be replaced by it. *)
Lemma heap_ordered_take l n : heap_ordered l -> heap_ordered (take n l).
Proof.
  intros Hl k Hk. rewrite length_take in Hk. unfold time_at. pose proof (parent_spec k ltac:(lia)).
  rewrite !lookup_total_take, !decide_True by lia. apply Hl. lia.
Qed.

Lemma time_at_take l n k : (k < n)%nat -> time_at (take n l) k = time_at l k.
Proof. intros. unfold time_at. by rewrite lookup_total_take, decide_True. Qed.

Lemma replace_by_last l j a b : heap_ordered l -> (j < length l - 1)%nat ->
  l !! j = Some a -> l !! (length l - 1)%nat = Some b ->
  let l' := take (length l - 1) (swapped j (length l - 1) a b l) in
  (if (j =? 0)%nat then ordered_below l' j
   else if less_than b.1 (time_at l (parent j)) then ordered_above l' j else ordered_below l' j).
Proof.
  intros Hl Hj Ha Hb l'. pose proof (lookup_lt_Some _ _ _ Hb) as Hlen.
  assert (forall k, (k < length l - 1)%nat -> time_at l' k = if decide (k = j) then b.1 else time_at l k) as Ht.
  { intros k Hk. subst l'. rewrite time_at_take, swapped_time by lia. repeat case_decide; done || lia. }
  assert (length l' = length l - 1)%nat as Hl' by (subst l'; rewrite length_take, swapped_length; lia).
  clearbody l'. unfold less_than. destruct (Nat.eqb_spec j 0) as [->|Hj0].
  - split; rewrite Hl'; intros k Hk; pose proof (parent_spec k ltac:(lia)) as Hpk; [|lia].
    intros Hne. rewrite !Ht by lia. pose proof (Hl k ltac:(lia)). heap_cases k.
  - pose proof (parent_spec j ltac:(lia)) as Hpj. pose proof (Hl j ltac:(lia)) as Hlj. destruct (Z.ltb_spec b.1 (time_at l (parent j)));
      (split; rewrite Hl'; intros k Hk; pose proof (parent_spec k ltac:(lia)) as Hpk; pose proof (Hl k ltac:(lia)) as Hlk).
    + intros Hne. rewrite !Ht by lia. heap_cases k.
    + intros Hpar _. rewrite !Ht by lia. heap_cases k.
    + intros Hne. rewrite !Ht by lia. heap_cases k.
    + intros Hpar _. rewrite !Ht by lia. heap_cases k.
Qed.
End heap_order.

(** ** The heap and the places the timers remember *)

Section heap_operations.
Implicit Types (q : TimerQueue) (t i j k : nat).
Local Abbreviation M := (comp TimerQueue TimerEffect).

Lemma run_timer_at {A} q t d (f : per_timer_data -> M A) :
  timer_data q !! t = Some d -> (timer_at t ≫= f) q = f d q.
Proof. intros Ht. unfold timer_at. by rewrite run_bind_bind, run_get, Ht, run_ret. Qed.

Lemma change_timer_run q t d g : timer_data q !! t = Some d ->
  change_timer t g q = ([], set_data (<[t := g d]> (timer_data q)) q, Ok tt).
Proof. intros Ht. unfold change_timer. by rewrite (run_timer_at q t d). Qed.

Lemma run_change {A} q t d g (f : unit -> M A) : timer_data q !! t = Some d ->
  (change_timer t g ≫= f) q = f tt (set_data (<[t := g d]> (timer_data q)) q).
Proof. intros Ht. by rewrite (run_bind_ok _ _ _ _ _ _ (change_timer_run q t d g Ht)), after_nil. Qed.

Lemma run_heap_at {A} q i e (f : Z * nat -> M A) : heap_ q !! i = Some e -> (heap_at i ≫= f) q = f e q.
Proof. intros Hi. unfold heap_at. by rewrite run_bind_bind, run_get, Hi, run_ret. Qed.

(** Each timer in the heap remembers where. *)
Definition consistent q : Prop :=
  forall i e, heap_ q !! i = Some e -> exists d, timer_data q !! e.2 = Some d /\ heap_index_ d = Some i.

Lemma consistent_inj q i j e e' : consistent q -> heap_ q !! i = Some e -> heap_ q !! j = Some e' -> e.2 = e'.2 -> i = j.
Proof. intros Hc Hi Hj He. destruct (Hc i e Hi) as (d & Hd & Hdi). destruct (Hc j e' Hj) as (d' & Hd' & Hdj). congruence. Qed.

(** What the timers hold, field by field. *)
Definition links q : gmap nat (option nat * option nat) := (fun d => (next_ d, prev_ d)) <$> timer_data q.
Definition waits_of q : gmap nat (list nat) := wait_queue <$> timer_data q.
Definition places q : gmap nat (option nat) := heap_index_ <$> timer_data q.

(** The heap has been rearranged, and nothing else has changed. *)
Record moved q q' : Prop := {
  mv_first : timers_ q' = timers_ q;
  mv_reads : reads q' = reads q;
  mv_perm : heap_ q' ≡ₚ heap_ q;
  mv_links : links q' = links q;
  mv_waits : waits_of q' = waits_of q;
  mv_others t : t ∉ (heap_ q).*2 -> timer_data q' !! t = timer_data q !! t;
}.

Lemma moved_refl q : moved q q.
Proof. done. Qed.

Lemma moved_trans q q1 q2 : moved q q1 -> moved q1 q2 -> moved q q2.
Proof.
  intros [Hf Hr Hp Hl Hw Ho] [Hf' Hr' Hp' Hl' Hw' Ho']. split; [congruence|congruence|by rewrite Hp'|congruence|congruence|].
  intros t Ht. rewrite Ho'; [by apply Ho|]. by rewrite Hp.
Qed.

Lemma proj_insert {A} (g : per_timer_data -> A) (m : gmap nat per_timer_data) t d d' :
  m !! t = Some d -> g d' = g d -> g <$> <[t := d']> m = g <$> m.
Proof. intros Ht Hd. rewrite fmap_insert, Hd. apply insert_id. by rewrite lookup_fmap, Ht. Qed.

Lemma swap_heap_spec q i j a b : consistent q -> i <> j -> heap_ q !! i = Some a -> heap_ q !! j = Some b ->
  exists q', swap_heap i j q = ([], q', Ok tt) /\ moved q q' /\ consistent q' /\
    heap_ q' = swapped i j a b (heap_ q).
Proof.
  intros Hc Hij Ha Hb. destruct (Hc i a Ha) as (da & Hda & Hia). destruct (Hc j b Hb) as (db & Hdb & Hjb).
  assert (a.2 <> b.2) as Hne by (intros He; by apply Hij, (consistent_inj q i j a b)).
  eexists. split; [|split; [|split]].
  - unfold swap_heap. rewrite (run_heap_at q i a), (run_heap_at q j b), run_modify by done.
    rewrite (run_change _ _ db) by done. rewrite (change_timer_run _ _ da); [reflexivity|].
    cbn. by rewrite lookup_insert_ne.
  - assert (forall A (g : per_timer_data -> A), (forall x d, g (set_index x d) = g d) ->
      g <$> <[a.2 := set_index (Some j) da]> (<[b.2 := set_index (Some i) db]> (timer_data q)) = g <$> timer_data q) as Hg.
    { intros A g Hg. rewrite (proj_insert _ _ _ da); [|by rewrite lookup_insert_ne|done]. by apply (proj_insert _ _ _ db). }
    split; [done|done|by apply Permutation_insert_swap|by apply Hg|by apply Hg|].
    intros t Ht. cbn. rewrite !lookup_insert_ne; [done| |]; intros <-; apply Ht, list_elem_of_fmap; eauto using list_elem_of_lookup_2.
  - intros k e. cbn. unfold swapped. destruct (decide (k = j)) as [->|Hkj].
    + rewrite list_lookup_insert_eq by (rewrite length_insert; by eapply lookup_lt_Some). intros [= <-].
      rewrite lookup_insert_eq. eauto.
    + rewrite list_lookup_insert_ne by done. destruct (decide (k = i)) as [->|Hki].
      * rewrite list_lookup_insert_eq by (by eapply lookup_lt_Some). intros [= <-].
        rewrite lookup_insert_ne, lookup_insert_eq by done. eauto.
      * rewrite list_lookup_insert_ne by done. intros Hk.
        rewrite !lookup_insert_ne; [by apply Hc| |]; intros He.
        -- by apply Hkj, (consistent_inj q k j e b).
        -- by apply Hki, (consistent_inj q k i e a).
  - done.
Qed.

Lemma up_heap_spec fuel q i : consistent q -> (i < length (heap_ q))%nat -> (i < fuel)%nat ->
  ordered_above (heap_ q) i ->
  exists q', up_heap fuel i q = ([], q', Ok tt) /\ moved q q' /\ consistent q' /\ heap_ordered (heap_ q').
Proof.
  revert q i. induction fuel as [|fuel IH]; intros q i Hc Hi Hf Ho; [lia|]. cbn [up_heap].
  destruct (Nat.eqb_spec i 0) as [->|Hi0].
  { exists q. split; [done|]. split; [done|]. split; [done|]. apply (ordered_above_stop _ _ Ho). by left. }
  pose proof (parent_spec i ltac:(lia)) as Hp.
  destruct (lookup_lt_is_Some_2 (heap_ q) i Hi) as [e He].
  destruct (lookup_lt_is_Some_2 (heap_ q) (parent i) ltac:(lia)) as [p Hep].
  rewrite (run_heap_at q i e), (run_heap_at q _ p) by done. unfold less_than.
  destruct (Z.ltb_spec e.1 p.1) as [Hlt|Hle].
  - destruct (swap_heap_spec q i (parent i) e p Hc ltac:(lia) He Hep) as (q1 & Hr & Hm & Hc1 & Hh).
    rewrite (run_bind_ok _ _ _ _ _ _ Hr), after_nil.
    destruct (IH q1 (parent i) Hc1) as (q' & Hr' & Hm' & Hc' & Hh').
    + rewrite Hh, swapped_length. lia.
    + lia.
    + rewrite Hh. by apply ordered_above_swap; [lia|..].
    + exists q'. split; [done|]. split; [by eapply moved_trans|done].
  - exists q. split; [done|]. split; [done|]. split; [done|]. apply (ordered_above_stop _ _ Ho). right.
    by rewrite (time_at_lookup _ _ _ He), (time_at_lookup _ _ _ Hep).
Qed.

Lemma min_child_spec q c : (c < length (heap_ q))%nat ->
  exists m, min_child_of c q = ([], q, Ok m) /\ (m = c \/ m = c + 1)%nat /\ (m < length (heap_ q))%nat /\
    (forall k, (k = c \/ k = c + 1)%nat -> (k < length (heap_ q))%nat -> time_at (heap_ q) m <= time_at (heap_ q) k).
Proof.
  intros Hc. unfold min_child_of. rewrite run_get. destruct (Nat.eqb_spec (c + 1) (length (heap_ q))) as [He|Hne].
  { exists c. split; [done|]. split; [by left|]. split; [done|]. intros k [->| ->] Hk; lia. }
  destruct (lookup_lt_is_Some_2 (heap_ q) c Hc) as [e He].
  destruct (lookup_lt_is_Some_2 (heap_ q) (c + 1) ltac:(lia)) as [e' He'].
  rewrite (run_heap_at q c e), (run_heap_at q _ e') by done. unfold less_than.
  eexists. split; [reflexivity|]. pose proof (time_at_lookup _ _ _ He). pose proof (time_at_lookup _ _ _ He').
  destruct (Z.ltb_spec e.1 e'.1); (split; [lia|]; split; [lia|]); intros k [->| ->] Hk; lia.
Qed.

Lemma down_heap_spec fuel q i : consistent q -> (i < length (heap_ q))%nat -> (length (heap_ q) - i < fuel)%nat ->
  ordered_below (heap_ q) i ->
  exists q', down_heap fuel i q = ([], q', Ok tt) /\ moved q q' /\ consistent q' /\ heap_ordered (heap_ q').
Proof.
  revert q i. induction fuel as [|fuel IH]; intros q i Hc Hi Hf Ho; [lia|]. cbn [down_heap]. rewrite run_get.
  destruct (Nat.ltb_spec (i * 2 + 1) (length (heap_ q))) as [Hlt|Hge].
  - destruct (min_child_spec q (i * 2 + 1) Hlt) as (m & Hr & Hm & Hml & Hmin).
    rewrite (run_bind_ok _ _ _ _ _ _ Hr), after_nil.
    destruct (lookup_lt_is_Some_2 (heap_ q) i Hi) as [e He].
    destruct (lookup_lt_is_Some_2 (heap_ q) m Hml) as [em Hem].
    rewrite (run_heap_at q i e), (run_heap_at q m em) by done. unfold less_than.
    assert (parent m = i) as Hpm by (pose proof (parent_spec m ltac:(lia)); lia).
    pose proof (time_at_lookup _ _ _ He) as Hte. pose proof (time_at_lookup _ _ _ Hem) as Htm.
    destruct (Z.ltb_spec e.1 em.1) as [Hl|Hle].
    + exists q. split; [done|]. split; [done|]. split; [done|]. apply (ordered_below_stop _ i Ho).
      intros k Hk Hpk. pose proof (parent_spec k ltac:(lia)). pose proof (Hmin k ltac:(lia) ltac:(lia)). lia.
    + destruct (swap_heap_spec q i m e em Hc ltac:(lia) He Hem) as (q1 & Hr1 & Hm1 & Hc1 & Hh).
      rewrite (run_bind_ok _ _ _ _ _ _ Hr1), after_nil.
      destruct (IH q1 m Hc1) as (q' & Hr' & Hm' & Hc' & Hh').
      * by rewrite Hh, swapped_length.
      * rewrite Hh, swapped_length. lia.
      * rewrite Hh. apply ordered_below_swap; try done; [lia|].
        intros k Hk Hpk. pose proof (parent_spec k ltac:(lia)). rewrite <- Htm. apply Hmin; lia.
      * exists q'. split; [done|]. split; [by eapply moved_trans|done].
  - exists q. split; [done|]. split; [done|]. split; [done|]. apply (ordered_below_stop _ i Ho).
    intros k Hk Hpk. pose proof (parent_spec k ltac:(lia)). lia.
Qed.
End heap_operations.

(** ** The invariant *)

(** The list [order] of timers, linked through [next_] and [prev_]. *)
Definition linked (l : gmap nat (option nat * option nat)) (order : list nat) : Prop :=
  forall l1 t l2, order = l1 ++ t :: l2 -> l !! t = Some (head l2, last l1).

Record tq_inv (order : list nat) (q : TimerQueue) : Prop := {
  ti_nodup : NoDup order;
  ti_first : timers_ q = head order;
  ti_linked : linked (links q) order;
  ti_idle_links t l : links q !! t = Some l -> t ∉ order -> l = (None, None);
  ti_idle_waits t w : waits_of q !! t = Some w -> t ∉ order -> w = [];
  ti_places t p : places q !! t = Some p -> t ∈ order -> p = None \/ t ∈ (heap_ q).*2;
  ti_heap t : t ∈ (heap_ q).*2 -> t ∈ order;
  ti_consistent : consistent q;
  ti_ordered : heap_ordered (heap_ q);
}.

Section invariant.
Implicit Types (q : TimerQueue) (t i j k : nat) (order : list nat).
Local Abbreviation M := (comp TimerQueue TimerEffect).

Lemma proj_lookup {A} (g : per_timer_data -> A) q t d : timer_data q !! t = Some d -> (g <$> timer_data q) !! t = Some (g d).
Proof. intros Ht. by rewrite lookup_fmap, Ht. Qed.

Lemma heap_place q t : consistent q -> t ∈ (heap_ q).*2 ->
  exists i time d, heap_ q !! i = Some (time, t) /\ timer_data q !! t = Some d /\ heap_index_ d = Some i.
Proof.
  intros Hc Ht. apply list_elem_of_fmap in Ht as ([time t'] & -> & Hin).
  apply list_elem_of_lookup in Hin as [i Hi]. destruct (Hc i _ Hi) as (d & ? & ?). eauto 10.
Qed.

Lemma not_in_heap q t d : consistent q -> timer_data q !! t = Some d -> heap_index_ d = None -> t ∉ (heap_ q).*2.
Proof. intros Hc Hd Hi Ht. destruct (heap_place q t Hc Ht) as (? & ? & ? & ? & ? & ?). congruence. Qed.

(** After rearranging, the places are right again. *)
Lemma moved_places order q q' : consistent q -> consistent q' -> moved q q' ->
  (forall t p, places q !! t = Some p -> t ∈ order -> p = None \/ t ∈ (heap_ q).*2) ->
  forall t p, places q' !! t = Some p -> t ∈ order -> p = None \/ t ∈ (heap_ q').*2.
Proof.
  intros Hc Hc' Hm Hp t p Ht Hin. destruct (decide (t ∈ (heap_ q).*2)) as [Hh|Hh].
  - right. by rewrite (mv_perm _ _ Hm).
  - pose proof (mv_others _ _ Hm t Hh) as Ho. unfold places in Ht. rewrite lookup_fmap, Ho in Ht.
    assert (places q !! t = Some p) as Htp by (unfold places; by rewrite lookup_fmap).
    destruct (Hp t p Htp Hin); [by left|done].
Qed.

Lemma pop_back_spec q : consistent q -> exists q', pop_back q = ([], q', Ok tt) /\ consistent q' /\
  timer_data q' = timer_data q /\ timers_ q' = timers_ q /\ reads q' = reads q /\
  heap_ q' = take (length (heap_ q) - 1) (heap_ q).
Proof.
  intros Hc. eexists. split; [reflexivity|]. split; [|done].
  intros i e Hi. apply Hc. cbn in Hi. by apply lookup_take_Some in Hi as [? _].
Qed.

(** The timer is not in the heap any more. *)
Record unheaped t q q' : Prop := {
  uh_first : timers_ q' = timers_ q;
  uh_reads : reads q' = reads q;
  uh_links : links q' = links q;
  uh_waits : waits_of q' = waits_of q;
  uh_heap : exists es, heap_ q ≡ₚ es ++ heap_ q' /\ forall e, e ∈ es -> e.2 = t;
  uh_gone : t ∉ (heap_ q').*2;
  uh_others u : u <> t -> u ∉ (heap_ q).*2 -> timer_data q' !! u = timer_data q !! u;
}.

Lemma last_split {A} (l : list A) x : l !! (length l - 1)%nat = Some x -> l = take (length l - 1) l ++ [x].
Proof. intros Hx. by rewrite <- (take_drop (length l - 1) l) at 1; rewrite (drop_S _ x), drop_ge by (done || lia). Qed.

(** Restoring the order at the entry [i], [tp] being the time of its parent. *)
Definition sift (fuel i : nat) (e : Z * nat) : M unit :=
  up ← (if (i =? 0)%nat then mret false else p ← heap_at (parent i); mret (less_than e.1 p.1));
  if up : bool then up_heap fuel i else down_heap fuel i.

Lemma sift_spec fuel q i e tp : consistent q -> (i < length (heap_ q))%nat -> (length (heap_ q) < fuel)%nat ->
  ((0 < i)%nat -> time_at (heap_ q) (parent i) = tp) ->
  (if (i =? 0)%nat then ordered_below (heap_ q) i
   else if less_than e.1 tp then ordered_above (heap_ q) i else ordered_below (heap_ q) i) ->
  exists q', sift fuel i e q = ([], q', Ok tt) /\ moved q q' /\ consistent q' /\ heap_ordered (heap_ q').
Proof.
  intros Hc Hi Hf Htp Ho. unfold sift. destruct (Nat.eqb_spec i 0) as [Hi0|Hi0].
  - rewrite run_ret. by apply down_heap_spec; [| |lia|].
  - pose proof (parent_spec i ltac:(lia)).
    destruct (lookup_lt_is_Some_2 (heap_ q) (parent i) ltac:(lia)) as [p Hp].
    rewrite run_bind_bind, (run_heap_at q _ p), run_ret by done.
    rewrite <- (time_at_lookup _ _ _ Hp), Htp by lia.
    destruct (less_than e.1 tp); [by apply up_heap_spec; [| |lia|]|by apply down_heap_spec; [| |lia|]].
Qed.

(** Removing an entry that is not the last: the last takes its place. *)
Lemma remove_inner_spec q t i time b : consistent q -> heap_ordered (heap_ q) ->
  heap_ q !! i = Some (time, t) -> i <> (length (heap_ q) - 1)%nat ->
  heap_ q !! (length (heap_ q) - 1)%nat = Some b ->
  exists q', (swap_heap i (length (heap_ q) - 1) ;; (pop_back ;; (e ← heap_at i; sift (fuel_of q) i e))) q
      = ([], q', Ok tt) /\ unheaped t q q' /\ consistent q' /\ heap_ordered (heap_ q').
Proof.
  intros Hc Ho Hh Hnotlast Hb. pose proof (lookup_lt_Some _ _ _ Hh) as Hlen.
  destruct (swap_heap_spec q i (length (heap_ q) - 1) (time, t) b Hc Hnotlast Hh Hb) as (q1 & Hr1 & Hm1 & Hc1 & Hh1).
  rewrite (run_bind_ok _ _ _ _ _ _ Hr1), after_nil.
  destruct (pop_back_spec q1 Hc1) as (q2 & Hr2 & Hc2 & Hdata2 & Hf2 & Hreads2 & Hh2).
  rewrite (run_bind_ok _ _ _ _ _ _ Hr2), after_nil.
  assert (heap_ q2 = take (length (heap_ q) - 1) (swapped i (length (heap_ q) - 1) (time, t) b (heap_ q))) as Hheap2.
  { by rewrite Hh2, Hh1, swapped_length. }
  pose proof (replace_by_last (heap_ q) i (time, t) b Ho ltac:(lia) Hh Hb) as Hrep. rewrite <- Hheap2 in Hrep.
  assert (length (heap_ q2) = length (heap_ q) - 1)%nat as Hlen2 by (rewrite Hheap2, length_take, swapped_length; lia).
  assert (heap_ q2 !! i = Some b) as Hb2.
  { rewrite Hheap2, lookup_take by lia. unfold swapped. rewrite decide_True by lia.
    rewrite list_lookup_insert_ne, list_lookup_insert_eq by lia. done. }
  rewrite (run_heap_at q2 i b) by done.
  destruct (sift_spec (fuel_of q) q2 i b (time_at (heap_ q) (parent i)) Hc2) as (q3 & Hr3 & Hm3 & Hc3 & Ho3).
  { lia. } { unfold fuel_of. lia. }
  { intros Hi. pose proof (parent_spec i Hi). rewrite Hheap2, time_at_take, swapped_time by lia.
    by rewrite !decide_False by lia. }
  { exact Hrep. }
  exists q3. split; [exact Hr3|]. split; [|done].
  destruct Hm1 as [Hf1 Hre1 Hp1 Hl1 Hw1 Hother1], Hm3 as [Hf3 Hre3 Hp3 Hl3 Hw3 Hother3].
  assert (swapped i (length (heap_ q) - 1) (time, t) b (heap_ q) = heap_ q2 ++ [(time, t)]) as Hsw.
  { pose proof (last_split (swapped i (length (heap_ q) - 1) (time, t) b (heap_ q)) (time, t)) as Hls.
    rewrite swapped_length in Hls. rewrite Hheap2. apply Hls.
    unfold swapped. rewrite list_lookup_insert_eq; [done|]. rewrite length_insert. lia. }
  split; [congruence|congruence| | | | |].
  - rewrite Hl3. unfold links in *. by rewrite Hdata2.
  - rewrite Hw3. unfold waits_of in *. by rewrite Hdata2.
  - exists [(time, t)]. split; [|by intros e ->%list_elem_of_singleton].
    rewrite Hp3, <- Hp1, Hh1, Hsw. by rewrite Permutation_app_comm.
  - rewrite Hp3. intros Hin. destruct (heap_place q2 t Hc2 Hin) as (k & tm & d' & Hk & Hd'' & Hkd).
    destruct (Hc1 (length (heap_ q) - 1)%nat (time, t)) as (d'' & Hd1 & Hk1).
    { rewrite Hh1, Hsw, <- Hlen2. by apply list_lookup_middle. }
    rewrite Hdata2 in Hd''. cbn in Hd1. apply lookup_lt_Some in Hk. simplify_eq. lia.
  - intros u Hu Hun. rewrite Hother3, Hdata2; [by apply Hother1|]. intros Hin. apply Hun.
    rewrite <- Hp1, Hh1, Hsw, fmap_app. apply elem_of_app. by left.
Qed.

Lemma remove_from_heap_spec order q t d : tq_inv order q -> timer_data q !! t = Some d -> t ∈ order ->
  exists q', remove_from_heap t q = ([], q', Ok tt) /\ unheaped t q q' /\ consistent q' /\ heap_ordered (heap_ q').
Proof.
  intros Hinv Hd Ht. pose proof (ti_consistent _ _ Hinv) as Hc. pose proof (ti_ordered _ _ Hinv) as Ho.
  unfold remove_from_heap. rewrite (run_timer_at q t d), run_get by done.
  destruct (ti_places _ _ Hinv t (heap_index_ d) (proj_lookup _ _ _ _ Hd) Ht) as [Hi|Hi].
  { rewrite Hi. exists q. split; [done|]. split; [|done]. split; try done.
    - exists []. split; [done|]. by intros e ?%not_elem_of_nil.
    - by apply (not_in_heap q t d). }
  destruct (heap_place q t Hc Hi) as (i & time & d' & Hh & Hd' & Hid). simplify_eq. rewrite Hid.
  pose proof (lookup_lt_Some _ _ _ Hh) as Hlen. rewrite bool_decide_eq_false_2 by (by intros He; rewrite He in Hh).
  destruct (Nat.leb_spec (length (heap_ q)) i) as [?|_]; [lia|]. cbn [orb].
  destruct (Nat.eqb_spec i (length (heap_ q) - 1)) as [Hlast|Hnotlast].
  - destruct (pop_back_spec q Hc) as (q' & Hr & Hc' & Hdata & Hf & Hreads & Hh'). exists q'. split; [done|].
    rewrite Hlast in Hh. pose proof (last_split _ _ Hh) as Hsplit.
    split; [|split; [done|by rewrite Hh'; apply heap_ordered_take]].
    split; [done|done|by unfold links; rewrite Hdata|by unfold waits_of; rewrite Hdata| | |by rewrite Hdata].
    + exists [(time, t)]. rewrite Hh'. split; [rewrite Hsplit at 1; by rewrite Permutation_app_comm|].
      intros e He. by apply list_elem_of_singleton in He as ->.
    + intros Hin. destruct (heap_place q' t Hc' Hin) as (k & ? & d' & Hk & Hd'' & Hkd).
      rewrite Hdata in Hd''. apply lookup_lt_Some in Hk. rewrite Hh', length_take in Hk. simplify_eq. lia.
  - destruct (lookup_lt_is_Some_2 (heap_ q) (length (heap_ q) - 1) ltac:(lia)) as [b Hb].
    by apply (remove_inner_spec q t i time b).
Qed.
End invariant.

(** ** The linked list *)

Section linked_list.
Implicit Types (q : TimerQueue) (t u : nat) (order : list nat).

Definition alter_if {A} (p : option nat) (f : A -> A) (m : gmap nat A) : gmap nat A :=
  match p with Some t => alter f t m | None => m end.

Lemma lookup_alter_if {A} p (f : A -> A) m u : alter_if p f m !! u = if decide (p = Some u) then f <$> m !! u else m !! u.
Proof.
  destruct p as [t|]; cbn; [|by rewrite decide_False]. destruct (decide (t = u)) as [->|Hne].
  - by rewrite lookup_alter_eq, decide_True.
  - rewrite lookup_alter_ne, decide_False by congruence. done.
Qed.

(** Everything but the links. *)
Record relinked q q' : Prop := {
  rl_first : timers_ q' = timers_ q;
  rl_heap : heap_ q' = heap_ q;
  rl_reads : reads q' = reads q;
  rl_waits : waits_of q' = waits_of q;
  rl_places : places q' = places q;
}.

Lemma relinked_trans q q1 q2 : relinked q q1 -> relinked q1 q2 -> relinked q q2.
Proof. intros [] []. split; congruence. Qed.

Lemma links_data q t : is_Some (links q !! t) <-> is_Some (timer_data q !! t).
Proof. unfold links. by rewrite lookup_fmap, fmap_is_Some. Qed.

(** Both ways to change a link. *)
Lemma change_links_spec q p (g : per_timer_data -> per_timer_data) h :
  (forall d, (next_ (g d), prev_ (g d)) = h (next_ d, prev_ d)) ->
  (forall d, wait_queue (g d) = wait_queue d) -> (forall d, heap_index_ (g d) = heap_index_ d) ->
  (forall t, p = Some t -> is_Some (links q !! t)) ->
  exists q', change_if p g q = ([], q', Ok tt) /\ links q' = alter_if p h (links q) /\ relinked q q'.
Proof.
  intros Hl Hw Hi Hp. destruct p as [t|]; [|by exists q].
  destruct (proj1 (links_data q t) (Hp t eq_refl)) as [d Hd].
  eexists. split; [by apply change_timer_run|]. cbn. split.
  - unfold links. cbn. rewrite fmap_insert, Hl, alter_alt, (proj_lookup _ _ _ _ Hd). done.
  - split; [done..| |]; [unfold waits_of|unfold places]; cbn; by apply (proj_insert _ _ _ d).
Qed.

(** The link of a removed timer's neighbours. *)
Lemma linked_remove l l1 t l2 : NoDup (l1 ++ t :: l2) -> linked l (l1 ++ t :: l2) ->
  linked (alter (fun _ => (None, None)) t
    (alter_if (head l2) (fun x => (x.1, last l1)) (alter_if (last l1) (fun x => (head l2, x.2)) l))) (l1 ++ l2).
Proof.
  intros Hnd Hl a u b Hab. rewrite NoDup_app, NoDup_cons in Hnd. destruct Hnd as (Hnd1 & Hdisj & Ht2 & Hnd2).
  assert (u <> t) as Hut.
  { intros ->. assert (t ∈ l1 ++ l2) as Hin by (rewrite Hab, elem_of_app; right; left).
    apply elem_of_app in Hin as [Hin|Hin]; [|done]. apply (Hdisj t Hin). left. }
  assert (forall v, v ∈ l1 -> head l2 <> Some v) as Hhead.
  { intros v Hv Hh. destruct l2 as [|w l2]; [done|]. injection Hh as ->. apply (Hdisj v); [done|right; left]. }
  assert (forall v, v ∈ l2 -> last l1 <> Some v) as Hlast.
  { intros v Hv [l1' ->]%last_Some. apply (Hdisj v); [apply elem_of_app; right; left|by right]. }
  rewrite lookup_alter_ne, !lookup_alter_if by done.
  apply app_eq_app in Hab as (c & [[-> Hc]|[-> ->]]).
  - destruct c as [|v c].
    + cbn in Hc. subst l2. rewrite app_nil_r in *.
      rewrite decide_True, decide_False by (done || apply Hlast; left).
      rewrite (Hl (a ++ [t]) u b) by (by rewrite <- (assoc_L (++))). done.
    + injection Hc as <- ->. rewrite (Hl a u (c ++ t :: l2)) by (by rewrite <- (assoc_L (++))).
      rewrite decide_False by (apply Hhead, elem_of_app; right; left).
      rewrite last_app_cons. destruct c as [|w c]; [by rewrite decide_True|].
      rewrite decide_False; [done|]. rewrite last_cons_cons. intros [c' Hc]%last_Some.
      apply NoDup_app in Hnd1 as (_ & _ & Hnd1). apply NoDup_cons in Hnd1 as [Hnd1 _]. apply Hnd1.
      rewrite Hc. apply elem_of_app. right. left.
  - rewrite (Hl (l1 ++ t :: c) u b) by (by rewrite <- (assoc_L (++))).
    rewrite (decide_False (P := last l1 = Some u)) by (apply Hlast, elem_of_app; right; left).
    destruct c as [|v c].
    + rewrite decide_True by done. by rewrite app_nil_r.
    + rewrite decide_False; [by rewrite !last_app_cons|].
      cbn. intros [= ->]. apply NoDup_cons in Hnd2 as [Hnd2 _]. apply Hnd2. apply elem_of_app. right. left.
Qed.

Lemma linked_add l t order : t ∉ order -> NoDup order -> is_Some (l !! t) -> linked l order ->
  linked (alter_if (head order) (fun x => (x.1, Some t))
    (alter (fun x => (x.1, None)) t (alter (fun x => (head order, x.2)) t l))) (t :: order).
Proof.
  intros Ht Hnd [x Hx] Hl a u b Hab. rewrite lookup_alter_if. destruct a as [|v a]; injection Hab as -> Hab.
  - subst b. rewrite decide_False.
    + by rewrite !lookup_alter_eq, Hx.
    + intros Hh. apply Ht. destruct order; [done|]. injection Hh as ->. left.
  - assert (u <> v) as Huv by (intros ->; apply Ht; rewrite Hab; apply elem_of_app; right; left).
    rewrite !lookup_alter_ne, (Hl a u b) by done. destruct a as [|w a]; subst order.
    + by rewrite decide_True.
    + rewrite decide_False; [by rewrite last_cons_cons|]. cbn. intros [= ->].
      cbn in Hnd. apply NoDup_cons in Hnd as [Hnd _]. apply Hnd, elem_of_app. right. left.
Qed.
End linked_list.

(** ** The operations keep the invariant *)

Section preservation.
Implicit Types (q : TimerQueue) (t u : nat) (order : list nat).

Lemma linked_in l order t : linked l order -> t ∈ order -> is_Some (l !! t).
Proof. intros Hl (l1 & l2 & ->)%list_elem_of_split. rewrite (Hl l1 t l2); eauto. Qed.

Lemma alter_if_is_Some {A} p (f : A -> A) m u : is_Some (m !! u) -> is_Some (alter_if p f m !! u).
Proof. intros [x Hx]. rewrite lookup_alter_if, Hx. destruct (decide _); eauto. Qed.

Lemma set_first_links q x : links (set_first x q) = links q.
Proof. done. Qed.

(** [consistent] only depends on the heap and the places. *)
Lemma consistent_places q : consistent q <-> forall i e, heap_ q !! i = Some e -> places q !! e.2 = Some (Some i).
Proof.
  unfold consistent, places. split; intros Hc i e Hi.
  - destruct (Hc i e Hi) as (d & Hd & Hdi). by rewrite lookup_fmap, Hd, <- Hdi.
  - specialize (Hc i e Hi). rewrite lookup_fmap in Hc. apply fmap_Some in Hc as (d & Hd & Hdi). eauto.
Qed.

(** The links of a timer, set one after the other. *)
Lemma set_links_spec q t n p : is_Some (links q !! t) ->
  exists q', (change_timer t (set_next_of n) ;; (change_timer t (set_prev_of p))) q = ([], q', Ok tt) /\
    links q' = alter (fun _ => (n, p)) t (links q) /\ relinked q q'.
Proof.
  intros Hsome.
  destruct (change_links_spec q (Some t) (set_next_of n) (fun x => (n, x.2))) as (q1 & Hr1 & Hl1 & Hs1); [done..| |].
  { by intros v [= <-]. }
  destruct (change_links_spec q1 (Some t) (set_prev_of p) (fun x => (x.1, p))) as (q2 & Hr2 & Hl2 & Hs2); [done..| |].
  { intros v [= <-]. rewrite Hl1. by apply alter_if_is_Some. }
  exists q2. cbn [change_if] in Hr1, Hr2. rewrite (run_bind_ok _ _ _ _ _ _ Hr1), after_nil. split; [done|].
  split; [|by apply (relinked_trans _ q1)]. rewrite Hl2, Hl1. cbn [alter_if]. apply map_eq. intros u.
  destruct (decide (t = u)) as [->|Hne]; [|by rewrite !lookup_alter_ne].
  rewrite !lookup_alter_eq. by destruct (links q !! u).
Qed.

Lemma alter_is_Some {A} (f : A -> A) t u (m : gmap nat A) : is_Some (m !! u) -> is_Some (alter f t m !! u).
Proof. apply (alter_if_is_Some (Some t)). Qed.

Lemma change_timer_assoc {A} (m m' : comp TimerQueue TimerEffect unit) (k : unit -> comp TimerQueue TimerEffect A) q :
  (m ;; (m' ≫= k)) q = ((m ;; m') ≫= k) q.
Proof. by rewrite run_bind_bind. Qed.

(** The first timer of the list, when [t] gives way to what follows it in [rest]. *)
Lemma relink_first_spec q t l1 l2 rest : NoDup (l1 ++ t :: l2) -> timers_ q = head (l1 ++ t :: l2) ->
  ((if bool_decide (timers_ q = Some t) then modify (set_first (head rest)) else mret tt) : comp TimerQueue TimerEffect unit) q
    = ([], set_first (head (l1 ++ rest)) q, Ok tt).
Proof.
  intros Hnd Hf. rewrite Hf. destruct l1 as [|v l1]; cbn [head app]; [by rewrite bool_decide_eq_true_2|].
  rewrite bool_decide_eq_false_2.
  - cbn [app head] in Hf. rewrite <- Hf. by destruct q.
  - intros [= ->]. cbn in Hnd. apply NoDup_cons in Hnd as [Hv _]. apply Hv, elem_of_app. right. left.
Qed.

(** The links after the neighbours of [t], and then [u] and [t], have been changed. *)
Definition relinks l1 l2 (x y : option nat) (l : gmap nat (option nat * option nat)) : gmap nat (option nat * option nat) :=
  alter_if (head l2) (fun z => (z.1, y)) (alter_if (last l1) (fun z => (x, z.2)) l).

Lemma relinks_is_Some l1 l2 x y l u : is_Some (l !! u) -> is_Some (relinks l1 l2 x y l !! u).
Proof. intros. by apply alter_if_is_Some, alter_if_is_Some. Qed.

Lemma relinks_others l1 l2 t x y l u : u ∉ l1 ++ t :: l2 -> relinks l1 l2 x y l !! u = l !! u.
Proof.
  intros Hu. rewrite elem_of_app, elem_of_cons in Hu. unfold relinks. rewrite !lookup_alter_if.
  rewrite !decide_False; [done|intros [l1' ->]%last_Some|intros Hh]; apply Hu.
  - left. apply elem_of_app. right. left.
  - right. right. destruct l2; [done|]. injection Hh as ->. left.
Qed.

Lemma neighbours_spec {A} q t l1 l2 x y (k : unit -> comp TimerQueue TimerEffect A) : linked (links q) (l1 ++ t :: l2) ->
  exists q', (change_if (last l1) (set_next_of x) ;; (change_if (head l2) (set_prev_of y) ≫= k)) q = k tt q' /\
    links q' = relinks l1 l2 x y (links q) /\ relinked q q'.
Proof.
  intros Hl. assert (forall v, v ∈ l1 ++ t :: l2 -> is_Some (links q !! v)) as Hsome by (intros v; by apply linked_in).
  destruct (change_links_spec q (last l1) (set_next_of x) (fun z => (x, z.2))) as (q1 & Hr1 & Hl1 & Hs1); [done..| |].
  { intros v [l1' ->]%last_Some. apply Hsome. rewrite !elem_of_app. left. right. left. }
  destruct (change_links_spec q1 (head l2) (set_prev_of y) (fun z => (z.1, y))) as (q2 & Hr2 & Hl2 & Hs2); [done..| |].
  { intros v Hv. rewrite Hl1. apply alter_if_is_Some, Hsome. destruct l2; [done|]. injection Hv as ->.
    apply elem_of_app. right. right. left. }
  exists q2. rewrite (run_bind_ok _ _ _ _ _ _ Hr1), after_nil, (run_bind_ok _ _ _ _ _ _ Hr2), after_nil.
  split; [done|]. split; [by rewrite Hl2, Hl1|by apply (relinked_trans _ q1)].
Qed.

Lemma remove_from_list_spec q t l1 l2 :
  NoDup (l1 ++ t :: l2) -> linked (links q) (l1 ++ t :: l2) -> timers_ q = head (l1 ++ t :: l2) ->
  exists q', remove_from_list t q = ([], q', Ok tt) /\ timers_ q' = head (l1 ++ l2) /\ heap_ q' = heap_ q /\
    reads q' = reads q /\ waits_of q' = waits_of q /\ places q' = places q /\ linked (links q') (l1 ++ l2) /\
    links q' !! t = Some (None, None) /\ (forall u, u ∉ l1 ++ t :: l2 -> links q' !! u = links q !! u).
Proof.
  intros Hnd Hl Hf. pose proof (Hl l1 t l2 eq_refl) as Ht.
  destruct (proj1 (links_data q t) (ex_intro _ _ Ht)) as [d Hd].
  pose proof (proj_lookup (fun d => (next_ d, prev_ d)) q t d Hd) as Hlt. fold (links q) in Hlt.
  rewrite Ht in Hlt. injection Hlt as Hnext Hprev.
  unfold remove_from_list. rewrite run_get, (run_timer_at q t d) by done. rewrite <- Hnext, <- Hprev.
  rewrite (run_bind_ok _ _ _ _ _ _ (relink_first_spec q t l1 l2 l2 Hnd Hf)), after_nil.
  set (q0 := set_first _ q). destruct (neighbours_spec q0 t l1 l2 (head l2) (last l1)
    (fun _ => change_timer t (set_next_of None) ;; (change_timer t (set_prev_of None))) Hl) as (q1 & -> & Hl1 & Hs1).
  destruct (set_links_spec q1 t None None) as (q2 & Hr2 & Hl2 & Hs2); [rewrite Hl1; by apply relinks_is_Some; eauto|].
  destruct (relinked_trans _ _ _ Hs1 Hs2) as [Hf' Hh' Hre' Hw' Hp']. exists q2.
  split; [done|]. split; [by rewrite Hf'|]. split; [done|]. split; [done|]. split; [done|]. split; [done|].
  rewrite Hl2, Hl1. split; [by apply linked_remove|]. split.
  - rewrite lookup_alter_eq. destruct (relinks_is_Some l1 l2 (head l2) (last l1) (links q0) t) as [y ->]; [|done].
    change (links q0) with (links q). eauto.
  - intros u Hu. rewrite lookup_alter_ne by (intros <-; apply Hu, elem_of_app; right; left).
    by apply (relinks_others _ _ t).
Qed.
End preservation.

Section timer_operations.
Implicit Types (q : TimerQueue) (t u : nat) (order : list nat).

Lemma places_data q u d : timer_data q !! u = Some d -> places q !! u = Some (heap_index_ d).
Proof. intros Hu. unfold places. by rewrite lookup_fmap, Hu. Qed.

Lemma unheaped_places order q q' t : tq_inv order q -> unheaped t q q' ->
  forall u p, places q' !! u = Some p -> u ∈ order -> u <> t -> p = None \/ u ∈ (heap_ q').*2.
Proof.
  intros Hinv Hun u p Hu Hin Hne. destruct (uh_heap _ _ _ Hun) as (es & Hp & Hes).
  destruct (decide (u ∈ (heap_ q).*2)) as [Hh|Hh].
  - right. rewrite Hp, fmap_app in Hh. apply elem_of_app in Hh as [Hh|Hh]; [|done].
    apply list_elem_of_fmap in Hh as (e & -> & He). by rewrite (Hes e He) in Hne.
  - left. unfold places in Hu. rewrite lookup_fmap, (uh_others _ _ _ Hun u Hne Hh) in Hu.
    destruct (ti_places _ _ Hinv u p) as [?|?]; [|done|done|done]. unfold places. by rewrite lookup_fmap.
Qed.

Lemma remove_timer_spec order q t : tq_inv order q -> t ∈ order -> waits_of q !! t = Some [] ->
  exists q' order', remove_timer t q = ([], q', Ok tt) /\ tq_inv order' q' /\ order ≡ₚ t :: order' /\
    waits_of q' = waits_of q /\ reads q' = reads q /\ (t ∉ (heap_ q').*2) /\
    (forall u, u <> t -> (u ∉ (heap_ q).*2) -> places q' !! u = places q !! u) /\
    (exists es, heap_ q ≡ₚ es ++ heap_ q' /\ forall e, e ∈ es -> e.2 = t).
Proof.
  intros Hinv Ht Hwt.
  assert (exists d, timer_data q !! t = Some d) as [d Hd].
  { unfold waits_of in Hwt. rewrite lookup_fmap in Hwt. apply fmap_Some in Hwt as (d & ? & _). eauto. }
  destruct (remove_from_heap_spec order q t d Hinv Hd Ht) as (q1 & Hr1 & Hun & Hc1 & Ho1).
  pose proof (unheaped_places order q q1 t Hinv Hun) as Hplaces.
  destruct Hun as [Hf1 Hre1 Hl1 Hw1 (es & Hp1 & Hes) Hgone Hother].
  apply list_elem_of_split in Ht as (l1 & l2 & ->).
  pose proof (ti_nodup _ _ Hinv) as Hnd. assert (NoDup (t :: l1 ++ l2)) as Hnd' by (by rewrite Permutation_middle).
  apply NoDup_cons in Hnd' as [Htn Hnd'].
  destruct (remove_from_list_spec q1 t l1 l2 Hnd) as (q' & Hr' & Hf' & Hh' & Hre' & Hw' & Hpl' & Hl' & Hlt & Hlo).
  { rewrite Hl1. apply (ti_linked _ _ Hinv). }
  { rewrite Hf1. apply (ti_first _ _ Hinv). }
  exists q', (l1 ++ l2). unfold remove_timer. rewrite (run_bind_ok _ _ _ _ _ _ Hr1), after_nil.
  split; [done|]. split; [|split; [by rewrite Permutation_middle|]].
  - split; [done|done|done| | | | | |by rewrite Hh'].
    + intros u l Hu Hin. destruct (decide (u = t)) as [->|Hne]; [congruence|].
      assert (u ∉ l1 ++ t :: l2) as Hin' by (rewrite <- Permutation_middle, not_elem_of_cons; done).
      rewrite Hlo, Hl1 in Hu by done. by apply (ti_idle_links _ _ Hinv u l).
    + intros u w Hu Hin. rewrite Hw', Hw1 in Hu. destruct (decide (u = t)) as [->|Hne]; [congruence|].
      apply (ti_idle_waits _ _ Hinv u w Hu). by rewrite <- Permutation_middle, not_elem_of_cons.
    + intros u p Hu Hin. rewrite Hpl' in Hu. rewrite Hh'. apply (Hplaces u p Hu).
      * rewrite <- Permutation_middle. by right.
      * by intros ->.
    + intros u Hu. rewrite Hh' in Hu. assert (u <> t) by (by intros ->).
      assert (u ∈ (heap_ q).*2) as Hin by (rewrite Hp1, fmap_app, elem_of_app; by right).
      apply (ti_heap _ _ Hinv) in Hin. rewrite <- Permutation_middle in Hin. by apply elem_of_cons in Hin as [?|?].
    + apply consistent_places. rewrite Hh', Hpl'. by apply consistent_places.
  - rewrite Hw', Hre', Hh', Hpl'. split; [done|]. split; [done|]. split; [done|]. split; [|by eauto].
    intros u Hu Hun. unfold places. by rewrite !lookup_fmap, Hother.
Qed.

(** A change of the waits of a timer only. *)
Record rewaited t (w : list nat) q q' : Prop := {
  rw_first : timers_ q' = timers_ q;
  rw_heap : heap_ q' = heap_ q;
  rw_reads : reads q' = reads q;
  rw_links : links q' = links q;
  rw_places : places q' = places q;
  rw_waits : waits_of q' = <[t := w]> (waits_of q);
}.

Lemma change_waits_spec q t w (f : list nat -> list nat) : waits_of q !! t = Some w ->
  exists q', change_timer t (fun d => set_waits_of (f (wait_queue d)) d) q = ([], q', Ok tt) /\ rewaited t (f w) q q'.
Proof.
  intros Hw. unfold waits_of in Hw. rewrite lookup_fmap in Hw. apply fmap_Some in Hw as (d & Hd & ->).
  eexists. split; [by apply change_timer_run|].
  split; [done..| | |]; [unfold links|unfold places|unfold waits_of; cbn; by rewrite fmap_insert];
    by apply (proj_insert _ _ _ d).
Qed.

Lemma rewaited_inv order t w q q' : tq_inv order q -> rewaited t w q q' -> t ∈ order \/ w = [] -> tq_inv order q'.
Proof.
  intros [? ? ? ? Hiw ? ? Hc ?] [Hf Hh Hre Hl Hp Hw] Ht.
  split; rewrite ?Hf, ?Hh, ?Hl; try done.
  - intros u x Hu Hin. rewrite Hw in Hu. apply lookup_insert_Some in Hu as [[-> <-]|[_ Hu]]; [|by apply (Hiw u)].
    by destruct Ht.
  - intros u p. rewrite Hp. auto.
  - apply consistent_places. rewrite Hh, Hp. by apply consistent_places.
Qed.

Lemma take_waits_spec q t w : waits_of q !! t = Some w ->
  exists q', take_waits t q = ([], q', Ok w) /\ rewaited t [] q q'.
Proof.
  intros Hw. destruct (change_waits_spec q t w (fun _ => []) Hw) as (q' & Hr & Hq'). exists q'. split; [|done].
  unfold waits_of in Hw. rewrite lookup_fmap in Hw. apply fmap_Some in Hw as (d & Hd & ->).
  unfold take_waits. by rewrite (run_timer_at q t d), (run_bind_ok _ _ _ _ _ _ Hr), after_nil.
Qed.

Lemma order_data order q t : tq_inv order q -> t ∈ order -> exists w, waits_of q !! t = Some w.
Proof.
  intros Hinv Ht. destruct (linked_in _ _ _ (ti_linked _ _ Hinv) Ht) as [l Hl].
  destruct (proj1 (links_data q t) (ex_intro _ l Hl)) as [d Hd]. exists (wait_queue d).
  unfold waits_of. by rewrite lookup_fmap, Hd.
Qed.

(** A timer is in the heap at most once. *)
Lemma heap_nodup q : consistent q -> NoDup (heap_ q).*2.
Proof.
  intros Hc. apply NoDup_alt. intros i j t Hi Hj. rewrite list_lookup_fmap in Hi, Hj.
  apply fmap_Some in Hi as (e & Hi & ->), Hj as (e' & Hj & He). by apply (consistent_inj q i j e e').
Qed.

Lemma only_entry (l l' es : list (Z * nat)) e : NoDup l.*2 -> l ≡ₚ es ++ l' -> (forall x, x ∈ es -> x.2 = e.2) ->
  (e.2 ∉ l'.*2) -> e ∈ l -> l ≡ₚ e :: l'.
Proof.
  intros Hnd Hp Hes Hout He. rewrite Hp in He. apply elem_of_app in He as [He|He].
  2: { destruct Hout. by apply list_elem_of_fmap_2. }
  rewrite Hp, fmap_app in Hnd. apply NoDup_app in Hnd as (Hnd & _ & _).
  apply list_elem_of_split in He as (l1 & l2 & ->). rewrite fmap_app, fmap_cons, NoDup_app, NoDup_cons in Hnd.
  destruct Hnd as (_ & Hd & Hd2 & _). destruct l1 as [|x l1], l2 as [|y l2]; [done| | |].
  - destruct Hd2. rewrite fmap_cons, <- (Hes y) by (right; left). left.
  - destruct (Hd x.2); [rewrite fmap_cons; left|]. rewrite (Hes x) by left. left.
  - destruct (Hd x.2); [rewrite fmap_cons; left|]. rewrite (Hes x) by left. left.
Qed.

(** The root is the earliest. *)
Lemma heap_root l k : heap_ordered l -> (k < length l)%nat -> time_at l 0 <= time_at l k.
Proof.
  intros Hl. induction k as [k IH] using lt_wf_ind. intros Hk. destruct (decide (k = 0%nat)) as [->|Hne]; [lia|].
  pose proof (parent_spec k ltac:(lia)). pose proof (Hl k ltac:(lia)). pose proof (IH (parent k) ltac:(lia) ltac:(lia)). lia.
Qed.

Lemma heap_root_elem e l e' : heap_ordered (e :: l) -> e' ∈ e :: l -> e.1 <= e'.1.
Proof.
  intros Hl [k Hk]%list_elem_of_lookup. pose proof (heap_root _ k Hl (lookup_lt_Some _ _ _ Hk)) as Hr.
  by rewrite (time_at_lookup _ _ _ Hk) in Hr.
Qed.

(** The waits on the timer of an entry. *)
Definition waits_at q (e : Z * nat) : list nat := default [] (waits_of q !! e.2).

Definition tq_pending q : list nat := gather (fun w => w) (waits_of q).

Lemma waits_at_lookup q e w : waits_of q !! e.2 = Some w -> waits_at q e = w.
Proof. intros Hw. unfold waits_at. by rewrite Hw. Qed.

(** What getting the expired timers does. *)
Record released (now : Z) (expired : list (Z * nat)) q q' : Prop := {
  re_heap : heap_ q ≡ₚ expired ++ heap_ q';
  re_sorted : StronglySorted (fun e e' => e.1 <= e'.1) expired;
  re_expired e : e ∈ expired -> e.1 <= now;
  re_later e : e ∈ heap_ q' -> now < e.1;
  re_others u : u ∉ expired.*2 -> waits_of q' !! u = waits_of q !! u;
  re_pending : (expired ≫= waits_at q) ++ tq_pending q' ≡ₚ tq_pending q;
}.

Lemma bind_ext_in {A B} (f g : A -> list B) (l : list A) : (forall x, x ∈ l -> f x = g x) -> l ≫= f = l ≫= g.
Proof.
  induction l as [|x l IH]; [done|]. intros Hfg. cbn. rewrite Hfg by left. f_equal. apply IH.
  intros y Hy. apply Hfg. by right.
Qed.

Lemma release_one now e w expired q q1 q2 q' :
  heap_ordered (heap_ q) -> (exists h, heap_ q = e :: h) -> e.1 <= now ->
  waits_of q !! e.2 = Some w -> waits_of q1 = <[e.2 := []]> (waits_of q) -> waits_of q2 = waits_of q1 ->
  heap_ q ≡ₚ e :: heap_ q2 -> (e.2 ∉ (heap_ q2).*2) -> released now expired q2 q' ->
  released now (e :: expired) q q' /\ (e :: expired) ≫= waits_at q = w ++ (expired ≫= waits_at q2).
Proof.
  intros Ho [h Hh] Hle Hw Hw1 Hw2 Hp Hnin [Hp' Hs He Hl Hoth Hpend].
  assert (e.2 ∉ expired.*2) as Hne.
  { intros Hin. apply Hnin. rewrite Hp', fmap_app, elem_of_app. by left. }
  assert (expired ≫= waits_at q = expired ≫= waits_at q2) as Hsame.
  { apply bind_ext_in. intros x Hx. unfold waits_at. rewrite Hw2, Hw1, lookup_insert_ne; [done|].
    intros Heq. apply Hne. rewrite Heq. by apply list_elem_of_fmap_2. }
  assert ((e :: expired) ≫= waits_at q = w ++ (expired ≫= waits_at q2)) as Hbind.
  { cbn. by rewrite (waits_at_lookup q e w Hw), <- Hsame. }
  split; [|done]. split.
  - by rewrite Hp, Hp'.
  - constructor; [done|]. apply Forall_forall. intros x Hx. rewrite Hh in Ho. apply (heap_root_elem e h x Ho).
    rewrite <- Hh, Hp, Hp'. right. apply elem_of_app. by left.
  - intros x [->|Hx]%elem_of_cons; [done|by apply He].
  - done.
  - intros u Hu. rewrite fmap_cons, not_elem_of_cons in Hu. destruct Hu as [Hu1 Hu2].
    by rewrite Hoth, Hw2, Hw1, lookup_insert_ne.
  - rewrite Hbind, <- (assoc_L (++)), Hpend. unfold tq_pending. rewrite Hw2, Hw1.
    pose proof (gather_insert (fun w => w) (waits_of q) e.2 w [] Hw) as Hg. rewrite app_nil_r in Hg.
    rewrite <- Hg. by rewrite Permutation_app_comm.
Qed.

Lemma released_nil now q : (forall e, e ∈ heap_ q -> now < e.1) -> released now [] q q.
Proof. intros Hl. split; [done|constructor|by intros e ?%not_elem_of_nil|done|done|done]. Qed.

Lemma ready_loop_spec fuel order q now : tq_inv order q -> (length (heap_ q) < fuel)%nat ->
  exists q' order' expired, ready_loop fuel now q = ([], q', Ok (expired ≫= waits_at q)) /\
    tq_inv order' q' /\ reads q' = reads q /\ released now expired q q'.
Proof.
  revert order q. induction fuel as [|fuel IH]; intros order q Hinv Hf; [lia|]. cbn [ready_loop]. rewrite run_get.
  destruct (heap_ q) as [|e h] eqn:Hh.
  { exists q, order, []. split; [done|]. split; [done|]. split; [done|].
    apply released_nil. rewrite Hh. by intros x ?%not_elem_of_nil. }
  pose proof (ti_ordered _ _ Hinv) as Ho.
  assert (e.2 ∈ (heap_ q).*2) as Hin by (rewrite Hh, fmap_cons; left).
  pose proof (ti_heap _ _ Hinv _ Hin) as Horder. unfold less_than.
  destruct (Z.ltb_spec now e.1) as [Hlt|Hle].
  { exists q, order, []. split; [done|]. split; [done|]. split; [done|].
    apply released_nil. intros x Hx. rewrite Hh in *. pose proof (heap_root_elem e h x Ho Hx). lia. }
  destruct (order_data order q e.2 Hinv Horder) as [w Hw].
  destruct (take_waits_spec q e.2 w Hw) as (q1 & Hr1 & Hq1).
  rewrite (run_bind_ok _ _ _ _ _ _ Hr1), after_nil.
  pose proof (rewaited_inv order e.2 [] q q1 Hinv Hq1 (or_introl Horder)) as Hinv1.
  destruct (remove_timer_spec order q1 e.2 Hinv1 Horder) as (q2 & order2 & Hr2 & Hinv2 & Hp2 & Hw2 & Hre2 & Hgone & _ & es & Hes & Heq).
  { rewrite (rw_waits _ _ _ _ Hq1). apply lookup_insert_eq. }
  rewrite (run_bind_ok _ _ _ _ _ _ Hr2), after_nil. rewrite (rw_heap _ _ _ _ Hq1) in Hes.
  assert (heap_ q ≡ₚ e :: heap_ q2) as Hp.
  { apply (only_entry _ _ es e); [by apply heap_nodup, (ti_consistent _ _ Hinv)|done|done|done|rewrite Hh; left]. }
  destruct (IH order2 q2 Hinv2) as (q' & order' & expired & Hr' & Hinv' & Hre' & Hrel).
  { apply Permutation_length in Hp. rewrite Hh in Hp. cbn in *. lia. }
  destruct (release_one now e w expired q q1 q2 q') as [Hrel' Hbind]; try done; [by eauto|apply Hq1|].
  exists q', order', (e :: expired). rewrite (run_bind_ok _ _ _ _ _ _ Hr'), Hbind.
  split; [done|]. split; [done|]. split; [|done].
  rewrite Hre', Hre2. apply (rw_reads _ _ _ _ Hq1).
Qed.

Lemma reads_inv order q n : tq_inv order q -> tq_inv order (set_reads n q).
Proof. by intros []. Qed.

Lemma get_ready_spec clock order q : tq_inv order q ->
  exists q' order' expired now, get_ready_timers clock q = ([], q', Ok (expired ≫= waits_at q)) /\
    tq_inv order' q' /\ released now expired q q' /\ (heap_ q <> [] -> now = clock (reads q)).
Proof.
  intros Hinv. unfold get_ready_timers. rewrite run_get. destruct (heap_ q) as [|e h] eqn:Hh.
  - exists q, order, [], 0. split; [done|]. split; [done|]. split; [|done].
    apply released_nil. rewrite Hh. by intros x ?%not_elem_of_nil.
  - unfold clock_now. rewrite run_bind_bind, run_get, run_bind_bind, run_modify, run_ret.
    destruct (ready_loop_spec (fuel_of q) order (set_reads (S (reads q)) q) (clock (reads q)))
      as (q' & order' & expired & Hr & Hinv' & _ & Hrel); [by apply reads_inv|unfold fuel_of; cbn; lia|].
    exists q', order', expired, (clock (reads q)). split; [done|]. split; [done|]. split; [|done].
    by destruct Hrel.
Qed.

(** *** All timers *)

(** The part of the list that is left: linked forwards. *)
Record chained (order : list nat) (q : TimerQueue) : Prop := {
  ch_nodup : NoDup order;
  ch_first : timers_ q = head order;
  ch_next l1 t l2 : order = l1 ++ t :: l2 -> exists p, links q !! t = Some (head l2, p);
  ch_idle_links t l : links q !! t = Some l -> t ∉ order -> l = (None, None);
  ch_idle_waits t w : waits_of q !! t = Some w -> t ∉ order -> w = [];
}.

Lemma all_loop_spec fuel order q : chained order q -> (length order < fuel)%nat ->
  exists q' ops, all_loop fuel q = ([], q', Ok ops) /\ chained [] q' /\
    ops ++ tq_pending q' ≡ₚ tq_pending q.
Proof.
  revert order q. induction fuel as [|fuel IH]; intros order q Hc Hf; [lia|]. cbn [all_loop]. rewrite run_get.
  rewrite (ch_first _ _ Hc). destruct order as [|t order]; cbn [head]; [by exists q, []|].
  destruct (ch_next _ _ Hc [] t order eq_refl) as [p Ht].
  destruct (proj1 (links_data q t) (ex_intro _ _ Ht)) as [d Hd].
  assert (next_ d = head order) as Hnext.
  { unfold links in Ht. rewrite lookup_fmap, Hd in Ht. by injection Ht. }
  rewrite (run_timer_at q t d), run_modify, Hnext by done.
  set (q0 := set_first (head order) q).
  assert (waits_of q0 !! t = Some (wait_queue d)) as Hw by (unfold waits_of; cbn; by rewrite lookup_fmap, Hd).
  destruct (take_waits_spec q0 t _ Hw) as (q1 & Hr1 & Hq1). rewrite (run_bind_ok _ _ _ _ _ _ Hr1), after_nil.
  assert (links q1 = links q) as Hl1 by (rewrite (rw_links _ _ _ _ Hq1); done).
  destruct (change_links_spec q1 (Some t) (set_next_of None) (fun x => (None, x.2))) as (q2 & Hr2 & Hl2 & Hs2); [done..| |].
  { intros v [= <-]. by rewrite Hl1, Ht. }
  cbn [change_if] in Hr2. rewrite (run_bind_ok _ _ _ _ _ _ Hr2), after_nil.
  destruct (change_links_spec q2 (Some t) (set_prev_of None) (fun x => (x.1, None))) as (q3 & Hr3 & Hl3 & Hs3); [done..| |].
  { intros v [= <-]. rewrite Hl2, Hl1. apply alter_if_is_Some. by rewrite Ht. }
  cbn [change_if] in Hr3. rewrite (run_bind_ok _ _ _ _ _ _ Hr3), after_nil.
  destruct (relinked_trans _ _ _ Hs2 Hs3) as [Hf' Hh' Hre' Hw' Hp'].
  assert (links q3 !! t = Some (None, None)) as Hlt.
  { rewrite Hl3, Hl2, Hl1. cbn [alter_if]. by rewrite !lookup_alter_eq, Ht. }
  assert (forall u, u <> t -> links q3 !! u = links q !! u) as Hlu.
  { intros u Hu. rewrite Hl3, Hl2, Hl1. cbn [alter_if]. by rewrite !lookup_alter_ne by congruence. }
  assert (waits_of q3 = <[t := []]> (waits_of q)) as Hw3 by (by rewrite Hw', (rw_waits _ _ _ _ Hq1)).
  pose proof (ch_nodup _ _ Hc) as Hnd. apply NoDup_cons in Hnd as [Htn Hnd].
  destruct (IH order q3) as (q' & ops & Hr' & Hc' & Hp); [|cbn in Hf; lia|].
  - split; [done| | | |].
    + by rewrite Hf', (rw_first _ _ _ _ Hq1).
    + intros l1 u l2 Hu. rewrite Hlu; [by apply (ch_next _ _ Hc (t :: l1)); rewrite Hu|].
      intros ->. apply Htn. rewrite Hu, elem_of_app. right. left.
    + intros u l Hu Hin. destruct (decide (u = t)) as [->|Hne]; [congruence|]. rewrite Hlu in Hu by done.
      apply (ch_idle_links _ _ Hc u l Hu). by apply not_elem_of_cons.
    + intros u w Hu Hin. rewrite Hw3 in Hu. apply lookup_insert_Some in Hu as [[-> <-]|[Hne Hu]]; [done|].
      apply (ch_idle_waits _ _ Hc u w Hu). by apply not_elem_of_cons.
  - exists q', (wait_queue d ++ ops). rewrite (run_bind_ok _ _ _ _ _ _ Hr'). split; [done|]. split; [done|].
    rewrite <- (assoc_L (++)), Hp. unfold tq_pending. rewrite Hw3.
    pose proof (gather_insert (fun w => w) (waits_of q) t (wait_queue d) [] Hw) as Hg. rewrite app_nil_r in Hg.
    rewrite <- Hg. by rewrite Permutation_app_comm.
Qed.

Lemma order_size order q : tq_inv order q -> (length order <= size (timer_data q))%nat.
Proof.
  intros Hinv. rewrite <- size_dom, <- (size_list_to_set (C := gset nat)) by apply (ti_nodup _ _ Hinv).
  apply subseteq_size. intros t Ht. apply elem_of_list_to_set in Ht. apply elem_of_dom, links_data.
  by apply (linked_in _ order); [apply (ti_linked _ _ Hinv)|].
Qed.

Lemma get_all_spec order q : tq_inv order q ->
  exists q' ops, get_all_timers q = ([], q', Ok ops) /\ tq_inv [] q' /\ ops ++ tq_pending q' ≡ₚ tq_pending q.
Proof.
  intros Hinv. destruct (all_loop_spec (S (size (timer_data q))) order q) as (q1 & ops & Hr & Hc & Hp).
  { split; try apply Hinv. intros l1 t l2 Ht. rewrite (ti_linked _ _ Hinv _ _ _ Ht). eauto. }
  { pose proof (order_size order q Hinv). lia. }
  exists (set_heap [] q1), ops. unfold get_all_timers. rewrite run_get, (run_bind_ok _ _ _ _ _ _ Hr), after_nil.
  split; [done|]. split; [|done]. destruct Hc as [? ? _ ? ?].
  split; try done; try (by intros ? ? ? ?%not_elem_of_nil); try (by intros ? ?%not_elem_of_nil).
  intros l1 t l2 Hl. by destruct l1.
Qed.

(** *** Enqueuing *)

Lemma is_idle_spec order q t : tq_inv order q -> is_Some (timer_data q !! t) ->
  is_idle t q = ([], q, Ok (bool_decide (t ∉ order))).
Proof.
  intros Hinv [d Hd]. unfold is_idle. rewrite (run_timer_at q t d), run_get by done.
  unfold mret, comp_ret. do 2 f_equal.
  pose proof (proj_lookup (fun d => (next_ d, prev_ d)) q t d Hd) as Hl. fold (links q) in Hl.
  destruct (decide (t ∈ order)) as [Hin|Hin].
  - rewrite (bool_decide_eq_false_2 (t ∉ order)) by tauto.
    apply list_elem_of_split in Hin as (l1 & l2 & Ho).
    rewrite (ti_linked _ _ Hinv _ _ _ Ho) in Hl. injection Hl as _ <-.
    rewrite (ti_first _ _ Hinv), Ho. destruct l1 as [|v l1]; cbn [head app].
    + by rewrite (bool_decide_eq_true_2 (Some t = Some t)), andb_false_r.
    + rewrite bool_decide_eq_false_2; [done|]. by rewrite last_None.
  - rewrite (bool_decide_eq_true_2 (t ∉ order)) by done.
    apply (ti_idle_links _ _ Hinv t) in Hl; [|done]. injection Hl as _ Hp. rewrite Hp.
    rewrite bool_decide_eq_true_2 by done. rewrite bool_decide_eq_false_2; [done|].
    rewrite (ti_first _ _ Hinv). intros Hh. apply Hin. destruct order; [done|]. injection Hh as ->. left.
Qed.

Lemma ordered_above_snoc l e : heap_ordered l -> ordered_above (l ++ [e]) (length l).
Proof.
  intros Hl. split; rewrite length_app; cbn [length]; intros k Hk.
  - intros Hne. pose proof (parent_spec k ltac:(lia)). unfold time_at. rewrite !lookup_total_app_l by lia. apply Hl. lia.
  - intros Hp. pose proof (parent_spec k ltac:(lia)). lia.
Qed.

(** The queue once the timer is in the heap, if it ever expires. *)
Record heaped (infinite : Z -> bool) (time : Z) t q q' : Prop := {
  hp_first : timers_ q' = timers_ q;
  hp_reads : reads q' = reads q;
  hp_links : links q' = links q;
  hp_waits : waits_of q' = waits_of q;
  hp_heap : heap_ q' ≡ₚ (if infinite time then [] else [(time, t)]) ++ heap_ q;
  hp_consistent : consistent q';
  hp_ordered : heap_ordered (heap_ q');
  hp_places u p : places q' !! u = Some p -> u = t \/ (u ∈ (heap_ q).*2) \/ places q !! u = Some p;
  hp_place p : places q' !! t = Some p -> p = None \/ t ∈ (heap_ q').*2;
}.

Lemma insert_place_consistent q t d n : consistent q -> t ∉ (heap_ q).*2 -> 
  consistent (set_data (<[t := set_index n d]> (timer_data q)) q).
Proof.
  intros Hc Ht i e Hi. destruct (Hc i e Hi) as (d' & Hd' & Hdi). exists d'. split; [|done].
  cbn. rewrite lookup_insert_ne; [done|]. intros ->. apply Ht.
  apply list_elem_of_fmap_2, list_elem_of_lookup. by exists i.
Qed.

Lemma add_to_heap_spec infinite q time t d : consistent q -> heap_ordered (heap_ q) ->
  t ∉ (heap_ q).*2 -> timer_data q !! t = Some d ->
  exists q', add_to_heap infinite time t q = ([], q', Ok tt) /\ heaped infinite time t q q'.
Proof.
  intros Hc Ho Ht Hd.
  assert (forall A (g : per_timer_data -> A) n, g (set_index n d) = g d ->
    g <$> <[t := set_index n d]> (timer_data q) = g <$> timer_data q) as Hg by (intros; by apply (proj_insert _ _ _ d)).
  assert (forall n u p, places (set_data (<[t := set_index n d]> (timer_data q)) q) !! u = Some p ->
    u = t \/ places q !! u = Some p) as Hpl.
  { intros n u p. unfold places. cbn. rewrite fmap_insert. intros [[-> _]|[_ ?]]%lookup_insert_Some; auto. }
  unfold add_to_heap. destruct (infinite time) eqn:Hinf.
  - eexists. split; [by apply change_timer_run|]. split; try done.
    + by apply Hg.
    + by apply Hg.
    + by rewrite Hinf.
    + by apply insert_place_consistent.
    + intros u p Hu. destruct (Hpl _ _ _ Hu); auto.
    + intros p. unfold places. cbn. rewrite fmap_insert, lookup_insert_eq. intros [= <-]. by left.
  - rewrite run_get, (run_change q t d), run_modify, run_get by done. cbn [heap_ set_data set_heap].
    set (q1 := set_heap _ _). assert (heap_ q1 = heap_ q ++ [(time, t)]) as Hh1 by done.
    assert (consistent q1) as Hc1.
    { intros i e Hi. rewrite Hh1 in Hi. apply lookup_app_Some in Hi as [Hi|[Hge Hi]].
      - destruct (insert_place_consistent q t d (Some (length (heap_ q))) Hc Ht i e Hi) as (d' & ? & ?). eauto.
      - apply list_lookup_singleton_Some in Hi as [Hi <-]. cbn. rewrite lookup_insert_eq.
        eexists. split; [done|]. cbn. f_equal. lia. }
    assert (length (heap_ q1) = S (length (heap_ q))) as Hlen by (rewrite Hh1, length_app; cbn; lia).
    destruct (up_heap_spec (fuel_of q1) q1 (length (heap_ q)) Hc1) as (q' & Hr & Hm & Hc' & Ho').
    { lia. } { unfold fuel_of. lia. } { rewrite Hh1. by apply ordered_above_snoc. }
    exists q'. rewrite <- Hh1, Hlen. cbn [Nat.sub]. rewrite Nat.sub_0_r. split; [done|].
    destruct Hm as [Hf Hre Hp Hl Hw Hother]. split; try done.
    + rewrite Hl. by apply (Hg _ (fun d => (next_ d, prev_ d))).
    + rewrite Hw. by apply (Hg _ wait_queue).
    + rewrite Hinf, Hp, Hh1. by rewrite Permutation_app_comm.
    + intros u p Hu. destruct (decide (u ∈ (heap_ q1).*2)) as [Hin|Hin].
      * rewrite Hh1, fmap_app, elem_of_app in Hin. destruct Hin as [Hin| ->%list_elem_of_singleton]; auto.
      * unfold places in Hu. rewrite lookup_fmap, Hother, <- lookup_fmap in Hu by done.
        destruct (Hpl _ _ _ Hu); auto.
    + intros p _. right. rewrite Hp, Hh1, fmap_app, elem_of_app. right. left.
Qed.

Lemma add_to_list_spec q t order : t ∉ order -> NoDup order -> timers_ q = head order ->
  linked (links q) order -> is_Some (links q !! t) ->
  exists q', add_to_list t q = ([], q', Ok tt) /\ timers_ q' = Some t /\ heap_ q' = heap_ q /\
    reads q' = reads q /\ waits_of q' = waits_of q /\ places q' = places q /\
    linked (links q') (t :: order) /\ (forall u, u ∉ t :: order -> links q' !! u = links q !! u).
Proof.
  intros Ht Hnd Hf Hl Hsome. unfold add_to_list. rewrite run_get, Hf.
  destruct (change_links_spec q (Some t) (set_next_of (head order)) (fun x => (head order, x.2))) as (q1 & Hr1 & Hl1 & Hs1); [done..| |].
  { by intros v [= <-]. }
  cbn [change_if] in Hr1. rewrite (run_bind_ok _ _ _ _ _ _ Hr1), after_nil.
  destruct (change_links_spec q1 (Some t) (set_prev_of None) (fun x => (x.1, None))) as (q2 & Hr2 & Hl2 & Hs2); [done..| |].
  { intros v [= <-]. rewrite Hl1. by apply alter_if_is_Some. }
  cbn [change_if] in Hr2. rewrite (run_bind_ok _ _ _ _ _ _ Hr2), after_nil.
  destruct (change_links_spec q2 (head order) (set_prev_of (Some t)) (fun x => (x.1, Some t))) as (q3 & Hr3 & Hl3 & Hs3); [done..| |].
  { intros v Hv. rewrite Hl2, Hl1. apply alter_if_is_Some, alter_if_is_Some, (linked_in _ order); [done|].
    destruct order; [done|]. injection Hv as ->. left. }
  rewrite (run_bind_ok _ _ _ _ _ _ Hr3), after_nil.
  destruct (relinked_trans _ _ _ (relinked_trans _ _ _ Hs1 Hs2) Hs3) as [_ Hh' Hre' Hw' Hp'].
  exists (set_first (Some t) q3). split; [done|]. split; [done|]. split; [done|]. split; [done|]. split; [done|].
  split; [done|]. rewrite set_first_links, Hl3, Hl2, Hl1. cbn [alter_if]. split; [by apply linked_add|].
  intros u [Hut Hu]%not_elem_of_cons. rewrite lookup_alter_if, decide_False.
  - by rewrite !lookup_alter_ne.
  - intros Hh. apply Hu. destruct order; [done|]. injection Hh as ->. left.
Qed.

(** A timer becomes active. *)
Lemma activate_spec infinite order q time t : tq_inv order q -> is_Some (timer_data q !! t) -> t ∉ order ->
  exists q', (add_to_heap infinite time t ;; (add_to_list t)) q = ([], q', Ok tt) /\ tq_inv (t :: order) q' /\
    waits_of q' = waits_of q /\ heap_ q' ≡ₚ (if infinite time then [] else [(time, t)]) ++ heap_ q.
Proof.
  intros Hinv [d Hd] Ht.
  assert (t ∉ (heap_ q).*2) as Hth by (intros Hin; by apply Ht, (ti_heap _ _ Hinv)).
  destruct (add_to_heap_spec infinite q time t d (ti_consistent _ _ Hinv) (ti_ordered _ _ Hinv) Hth Hd)
    as (q1 & Hr1 & [Hf1 Hre1 Hl1 Hw1 Hh1 Hc1 Ho1 Hp1 Hp1']).
  destruct (add_to_list_spec q1 t order Ht (ti_nodup _ _ Hinv)) as (q2 & Hr2 & Hf2 & Hh2 & Hre2 & Hw2 & Hp2 & Hl2 & Hlo).
  { rewrite Hf1. apply (ti_first _ _ Hinv). } { rewrite Hl1. apply (ti_linked _ _ Hinv). }
  { rewrite Hl1. apply links_data. eauto. }
  exists q2. rewrite (run_bind_ok _ _ _ _ _ _ Hr1), after_nil. split; [done|].
  assert (forall u, u ∈ (heap_ q2).*2 -> u = t \/ u ∈ (heap_ q).*2) as Hin2.
  { intros u. rewrite Hh2, Hh1, fmap_app, elem_of_app. intros [Hu|Hu]; [left|by right].
    destruct (infinite time); [by apply not_elem_of_nil in Hu|by apply list_elem_of_singleton in Hu]. }
  split; [|split; [by rewrite Hw2|by rewrite Hh2]]. split.
  - constructor; [done|]. apply (ti_nodup _ _ Hinv).
  - done.
  - done.
  - intros u l Hu Hin. rewrite Hlo, Hl1 in Hu by done. apply not_elem_of_cons in Hin as [_ Hin].
    by apply (ti_idle_links _ _ Hinv u l).
  - intros u w Hu Hin. rewrite Hw2, Hw1 in Hu. apply not_elem_of_cons in Hin as [_ Hin].
    by apply (ti_idle_waits _ _ Hinv u w).
  - intros u p Hu Hin. rewrite Hp2 in Hu. rewrite Hh2. destruct (decide (u = t)) as [->|Hne]; [by apply Hp1'|].
    apply elem_of_cons in Hin as [?|Hin]; [done|].
    assert (u ∈ (heap_ q).*2 -> u ∈ (heap_ q1).*2) as Hkeep by (intros Hu'; rewrite Hh1, fmap_app, elem_of_app; by right).
    destruct (Hp1 u p Hu) as [?|[?|Hu']]; [done|by right; apply Hkeep|].
    destruct (ti_places _ _ Hinv u p Hu' Hin); [by left|right; by apply Hkeep].
  - intros u Hu. destruct (Hin2 u Hu) as [->|Hu']; [left|right]. by apply (ti_heap _ _ Hinv).
  - apply consistent_places. rewrite Hh2, Hp2. by apply consistent_places.
  - by rewrite Hh2.
Qed.

Lemma enqueue_spec infinite order q time t op : tq_inv order q -> is_Some (timer_data q !! t) ->
  exists q' order' r, enqueue_timer infinite time t op q = ([], q', Ok r) /\ tq_inv order' q' /\
    waits_of q' = alter (fun w => w ++ [op]) t (waits_of q) /\
    heap_ q' ≡ₚ (if bool_decide (t ∈ order) || infinite time then [] else [(time, t)]) ++ heap_ q.
Proof.
  intros Hinv Hsome. unfold enqueue_timer.
  rewrite (run_bind_ok _ _ _ _ _ _ (is_idle_spec order q t Hinv Hsome)), after_nil.
  assert (exists q1 order1, when (bool_decide (t ∉ order)) (add_to_heap infinite time t ;; (add_to_list t)) q = ([], q1, Ok tt) /\
    tq_inv order1 q1 /\ t ∈ order1 /\ waits_of q1 = waits_of q /\
    heap_ q1 ≡ₚ (if bool_decide (t ∈ order) || infinite time then [] else [(time, t)]) ++ heap_ q)
    as (q1 & order1 & Hr1 & Hinv1 & Hin1 & Hw1 & Hh1).
  { destruct (decide (t ∈ order)) as [Hin|Hin].
    - rewrite (bool_decide_eq_false_2 (t ∉ order)), (bool_decide_eq_true_2 (t ∈ order)) by tauto. by exists q, order.
    - rewrite (bool_decide_eq_true_2 (t ∉ order)), (bool_decide_eq_false_2 (t ∈ order)) by done. cbn [when orb].
      destruct (activate_spec infinite order q time t Hinv Hsome Hin) as (q1 & ? & ? & ? & ?).
      exists q1, (t :: order). split; [done|]. split; [done|]. split; [left|done]. }
  rewrite (run_bind_ok _ _ _ _ _ _ Hr1), after_nil.
  destruct (order_data order1 q1 t Hinv1 Hin1) as [w Hw].
  destruct (change_waits_spec q1 t w (fun w => w ++ [op]) Hw) as (q2 & Hr2 & Hq2).
  rewrite (run_bind_ok _ _ _ _ _ _ Hr2), after_nil.
  assert (exists d, timer_data q2 !! t = Some d) as [d Hd].
  { destruct (proj1 (links_data q2 t)) as [d ?]; [|by exists d]. rewrite (rw_links _ _ _ _ Hq2).
    by apply (linked_in _ order1), Hin1; apply (ti_linked _ _ Hinv1). }
  rewrite (run_timer_at q2 t d) by done. eexists q2, order1, _. split; [reflexivity|].
  split; [by apply (rewaited_inv order1 t (w ++ [op]) q1); [| |left]|].
  split; [|by rewrite (rw_heap _ _ _ _ Hq2)].
  rewrite (rw_waits _ _ _ _ Hq2), Hw1 in *. by rewrite alter_alt, Hw.
Qed.

(** *** Cancelling *)

Lemma cancel_loop_spec t queue num max q : waits_of q !! t = Some queue ->
  exists es q' ops rest, cancel_loop t queue num max q = (es, q', Ok ops) /\ queue = ops ++ rest /\
    es = Abort_wait <$> ops /\ rewaited t rest q q' /\
    (0 <= num <= max -> max <= uint64_max -> Z.of_nat (length ops) = Z.min (Z.of_nat (length queue)) (max - num)).
Proof.
  assert (forall queue q, waits_of q !! t = Some queue -> rewaited t queue q q) as Hsame.
  { intros queue' q' Hw. split; try done. by rewrite insert_id. }
  revert num q. induction queue as [|op queue IH]; intros num q Hw; cbn [cancel_loop];
    destruct (Z.eqb_spec num max) as [->|Hne].
  - exists [], q, [], []. repeat (split; [done|]). split; [by apply Hsame|]. cbn. lia.
  - exists [], q, [], []. repeat (split; [done|]). split; [by apply Hsame|]. cbn. lia.
  - exists [], q, [], (op :: queue). repeat (split; [done|]). split; [by apply Hsame|]. cbn. lia.
  - rewrite run_emit. destruct (change_waits_spec q t (op :: queue) (fun _ => queue) Hw) as (q1 & Hr1 & Hq1).
    change (change_timer t (set_waits_of queue)) with (change_timer t (fun d => set_waits_of ((fun _ => queue) (wait_queue d)) d)).
    rewrite (run_bind_ok _ _ _ _ _ _ Hr1), after_nil.
    destruct (IH (u64 (num + 1)) q1) as (es & q' & ops & rest & Hr & -> & -> & Hq' & Hlen).
    { rewrite (rw_waits _ _ _ _ Hq1). apply lookup_insert_eq. }
    exists (Abort_wait op :: (Abort_wait <$> ops)), q', (op :: ops), rest. rewrite (run_bind_ok _ _ _ _ _ _ Hr).
    split; [cbn; by rewrite app_nil_r|]. split; [done|]. split; [done|]. split.
    + destruct Hq1 as [? ? ? ? ? Hw1], Hq' as [? ? ? ? ? Hw']. split; try congruence.
      by rewrite Hw', Hw1, insert_insert_eq.
    + intros Hn Hmax. rewrite u64_succ in Hlen by lia. cbn [length]. specialize (Hlen ltac:(lia) Hmax). lia.
Qed.

(** What cancelling leaves. *)
Record cancelled t (ops : list nat) order q order' q' : Prop := {
  cc_waits : exists w rest, waits_of q !! t = Some w /\ w = ops ++ rest /\ waits_of q' = <[t := rest]> (waits_of q) /\
    (rest = [] -> t ∉ order') /\ (rest <> [] -> heap_ q' = heap_ q);
  cc_order u : u <> t -> u ∈ order' <-> u ∈ order;
  cc_heap : exists es, heap_ q ≡ₚ es ++ heap_ q' /\ forall e, e ∈ es -> e.2 = t;
  cc_places u : u <> t -> places q !! u = Some None -> places q' !! u = Some None;
}.

Lemma not_placed q u : consistent q -> places q !! u = Some None -> u ∉ (heap_ q).*2.
Proof.
  intros Hc Hu Hin. destruct (heap_place q u Hc Hin) as (i & time & d & _ & Hd & Hi).
  rewrite (places_data q u d Hd) in Hu. congruence.
Qed.

Lemma cancel_spec order q t max : tq_inv order q -> is_Some (timer_data q !! t) ->
  exists es q' order' ops, tq_cancel_timer t max q = (es, q', Ok ops) /\ es = Abort_wait <$> ops /\
    tq_inv order' q' /\ cancelled t ops order q order' q' /\
    (0 <= max <= uint64_max -> forall w, waits_of q !! t = Some w -> Z.of_nat (length ops) = Z.min (Z.of_nat (length w)) max).
Proof.
  intros Hinv Hsome. unfold tq_cancel_timer.
  rewrite (run_bind_ok _ _ _ _ _ _ (is_idle_spec order q t Hinv Hsome)), after_nil.
  destruct Hsome as [d Hd]. assert (waits_of q !! t = Some (wait_queue d)) as Hw by (unfold waits_of; by rewrite lookup_fmap, Hd).
  destruct (decide (t ∈ order)) as [Hin|Hin].
  - rewrite (bool_decide_eq_false_2 (t ∉ order)) by tauto. rewrite (run_timer_at q t d) by done.
    destruct (cancel_loop_spec t (wait_queue d) 0 max q Hw) as (es & q1 & ops & rest & Hr1 & Hsplit & -> & Hq1 & Hlen).
    rewrite (run_bind_ok _ _ _ _ _ _ Hr1).
    assert (exists d1, timer_data q1 !! t = Some d1 /\ wait_queue d1 = rest) as (d1 & Hd1 & Hrest).
    { pose proof (rw_waits _ _ _ _ Hq1) as Hwq. apply (f_equal (lookup t)) in Hwq. rewrite lookup_insert_eq in Hwq.
      unfold waits_of in Hwq. rewrite lookup_fmap in Hwq. by apply fmap_Some in Hwq as (d1 & ? & ->); eauto. }
    rewrite (run_timer_at q1 t d1), Hrest by done.
    pose proof (rewaited_inv order t rest q q1 Hinv Hq1 (or_introl Hin)) as Hinv1.
    assert (0 <= max <= uint64_max -> forall w, waits_of q !! t = Some w -> Z.of_nat (length ops) = Z.min (Z.of_nat (length w)) max) as Hlen'.
    { intros Hmax w Hw'. simplify_eq. rewrite Hlen by lia. lia. }
    destruct Hq1 as [Hf1 Hh1 Hre1 Hl1 Hp1 Hw1]. destruct (decide (rest = [])) as [Hr0|Hr0].
    + rewrite (bool_decide_eq_true_2 (rest = [])) by done. cbn [when].
      destruct (remove_timer_spec order q1 t Hinv1 Hin) as (q2 & order2 & Hr2 & Hinv2 & Hp2 & Hw2 & Hre2 & Hgone & Hpl2 & es & Hes & Heq).
      { by rewrite Hw1, Hr0, lookup_insert_eq. }
      rewrite (run_bind_ok _ _ _ _ _ _ Hr2), after_nil.
      exists (Abort_wait <$> ops), q2, order2, ops. split; [cbn; by rewrite app_nil_r|]. split; [done|]. split; [done|]. split; [|done].
      pose proof (ti_nodup _ _ Hinv) as Hnd. rewrite Hp2 in Hnd. apply NoDup_cons in Hnd as [Hnd _]. split.
      * exists (wait_queue d), rest. split; [done|]. split; [done|]. split; [by rewrite Hw2|]. by split.
      * intros u Hu. rewrite Hp2, elem_of_cons. split; [by right|intros [?|?]; done].
      * rewrite <- Hh1. eauto.
      * intros u Hu Hn. rewrite <- Hp1 in Hn. rewrite Hpl2; [done|done|].
        by apply not_placed; [apply (ti_consistent _ _ Hinv1)|].
    + rewrite (bool_decide_eq_false_2 (rest = [])) by done. cbn [when]. rewrite run_ret.
      exists (Abort_wait <$> ops), q1, order, ops. split; [cbn; by rewrite app_nil_r|]. split; [done|]. split; [done|]. split; [|done].
      split; [|done|exists []; rewrite Hh1; split; [done|by intros e ?%not_elem_of_nil]|by rewrite Hp1].
      exists (wait_queue d), rest. split; [done|]. split; [done|]. by split.
  - rewrite (bool_decide_eq_true_2 (t ∉ order)) by done. pose proof (ti_idle_waits _ _ Hinv _ _ Hw Hin) as Hnil.
    exists [], q, order, []. split; [done|]. split; [done|]. split; [done|]. split.
    + split; [|done|exists []; split; [done|by intros e ?%not_elem_of_nil]|done].
      exists [], []. rewrite <- Hnil. split; [done|]. rewrite Hnil. split; [done|]. split; [|by split].
      symmetry. apply insert_id. by rewrite Hw, Hnil.
    + intros Hmax w Hw'. rewrite Hw in Hw'. injection Hw' as <-. rewrite Hnil. cbn. lia.
Qed.

Lemma wait_spec clock convert max order q : tq_inv order q ->
  (forall e d, head (heap_ q) = Some e -> time_subtract e.1 (clock (reads q)) = Ok d -> exists r, convert d max = Ok r) ->
  (forall e, head (heap_ q) = Some e -> in_time e.1 /\ in_time (clock (reads q))) ->
  exists q' r, wait_duration clock convert max q = ([], q', Ok r) /\ tq_inv order q' /\ waits_of q' = waits_of q /\ heap_ q' = heap_ q.
Proof.
  intros Hinv Hconv Htime. unfold wait_duration. rewrite run_get. destruct (heap_ q) as [|e h] eqn:Hh.
  { exists q, max. split; [done|]. split; [done|]. split; [done|done]. }
  unfold clock_now. rewrite run_bind_bind, run_get, run_bind_bind, run_modify, run_ret.
  destruct (Htime e eq_refl) as [He Hc].
  assert (time_subtract e.1 (clock (reads q)) = Ok (saturate (e.1 - clock (reads q)))) as Hsub by by apply time_subtract_saturates.
  rewrite Hsub, run_lift. destruct (Hconv e _ eq_refl Hsub) as [r Hr]. rewrite Hr.
  eexists _, r. split; [reflexivity|]. split; [by apply reads_inv|done].
Qed.

(** *** Moving *)

Lemma linked_replace l l1 s l2 t : NoDup (l1 ++ s :: l2) -> (t ∉ l1 ++ s :: l2) -> is_Some (l !! t) ->
  linked l (l1 ++ s :: l2) ->
  linked (alter (fun _ => (None, None)) s (alter (fun _ => (head l2, last l1)) t
    (alter_if (head l2) (fun x => (x.1, Some t)) (alter_if (last l1) (fun x => (Some t, x.2)) l)))) (l1 ++ t :: l2).
Proof.
  intros Hnd Ht [x Hx] Hl a u b Hab.
  assert (NoDup (l1 ++ t :: l2)) as Hnd'.
  { rewrite <- Permutation_middle in Hnd, Ht |- *. apply NoDup_cons in Hnd as [_ Hnd]. apply not_elem_of_cons in Ht as [_ Ht].
    by constructor. }
  assert (u <> s) as Hus.
  { intros ->. assert (s ∈ l1 ++ t :: l2) as Hin by (rewrite Hab, elem_of_app; right; left).
    rewrite <- Permutation_middle in Hin, Hnd, Ht. apply NoDup_cons in Hnd as [Hs _]. apply elem_of_cons in Hin as [->|Hin]; [|done].
    apply Ht. left. }
  rewrite lookup_alter_ne by done. destruct (decide (t = u)) as [<-|Htu].
  - assert (a = l1 /\ b = l2) as [-> ->].
    { apply app_eq_app in Hab as (c & [[-> Hc]|[-> Hc]]); destruct c as [|v c]; injection Hc as ?; subst;
        rewrite ?app_nil_r in *; try done.
      - rewrite NoDup_app in Hnd'. destruct Hnd' as (_ & Hd & _). destruct (Hd v); [apply elem_of_app; right; left|left].
      - rewrite NoDup_app in Hnd'. destruct Hnd' as (_ & _ & Hd). apply NoDup_cons in Hd as [Hd _].
        destruct Hd. apply elem_of_app. right. left. }
    rewrite lookup_alter_eq. destruct (alter_if_is_Some (head l2) (fun x => (x.1, Some t)) _ t
      (alter_if_is_Some (last l1) (fun x => (Some t, x.2)) l t (ex_intro _ _ Hx))) as [y ->]. done.
  - rewrite lookup_alter_ne, !lookup_alter_if by done.
    pose proof Hnd as Hnd2. rewrite NoDup_app, NoDup_cons in Hnd2. destruct Hnd2 as (Hnd1 & Hdisj & Hs2 & Hnd2).
    apply app_eq_app in Hab as (c & [[-> Hc]|[-> Hc]]).
    + destruct c as [|v c]; [by injection Hc as ?|]. injection Hc as <- ->.
      rewrite (Hl a u (c ++ s :: l2)) by (by rewrite <- (assoc_L (++))).
      rewrite decide_False.
      2: { intros Hh. destruct l2; [done|]. injection Hh as ->. apply (Hdisj u); [apply elem_of_app; right; left|right; left]. }
      rewrite last_app_cons. destruct c as [|w c]; [by rewrite decide_True|].
      rewrite decide_False; [done|]. rewrite last_cons_cons. intros [c' Hc]%last_Some.
      apply NoDup_app in Hnd1 as (_ & _ & Hnd1). apply NoDup_cons in Hnd1 as [Hnd1 _]. apply Hnd1.
      rewrite Hc. apply elem_of_app. right. left.
    + destruct c as [|v c]; [by injection Hc as ?|]. injection Hc as -> ->.
      rewrite (Hl (l1 ++ s :: c) u b) by (by rewrite <- (assoc_L (++))).
      rewrite (decide_False (P := last l1 = Some u)).
      2: { intros [l1' ->]%last_Some. apply (Hdisj u); [apply elem_of_app; right; left|]. right. apply elem_of_app. right. left. }
      rewrite !last_app_cons. destruct c as [|w c]; [by rewrite decide_True|].
      rewrite decide_False; [by rewrite !last_cons_cons|]. cbn. intros [= ->].
      apply NoDup_cons in Hnd2 as [Hnd2 _]. apply Hnd2. apply elem_of_app. right. left.
Qed.

Lemma change_place_spec q t x : is_Some (timer_data q !! t) ->
  exists q', change_timer t (set_index x) q = ([], q', Ok tt) /\ timers_ q' = timers_ q /\ heap_ q' = heap_ q /\
    reads q' = reads q /\ links q' = links q /\ waits_of q' = waits_of q /\ places q' = <[t := x]> (places q).
Proof.
  intros [d Hd]. eexists. split; [by apply change_timer_run|]. cbn. split; [done|]. split; [done|]. split; [done|].
  split; [by apply (proj_insert _ _ _ d)|]. split; [by apply (proj_insert _ _ _ d)|].
  unfold places. cbn. by rewrite fmap_insert.
Qed.

Lemma data_of_links q t : is_Some (links q !! t) -> is_Some (timer_data q !! t).
Proof. apply links_data. Qed.

(** Renaming the timer of an entry keeps the heap a heap. *)
Lemma rename_ordered l i time s t : l !! i = Some (time, s) -> heap_ordered l -> heap_ordered (<[i := (time, t)]> l).
Proof.
  intros Hi Hl k. rewrite length_insert. intros Hk. pose proof (parent_spec k ltac:(lia)).
  assert (forall j, (j < length l)%nat -> time_at (<[i := (time, t)]> l) j = time_at l j) as Hsame.
  { intros j Hj. unfold time_at. destruct (decide (i = j)) as [->|Hne].
    - rewrite list_lookup_total_insert_eq by done. by rewrite (list_lookup_total_correct _ _ _ Hi).
    - by rewrite list_lookup_total_insert_ne. }
  rewrite !Hsame by lia. by apply Hl.
Qed.

Record contents_moved t s (w : list nat) (d : per_timer_data) q q' : Prop := {
  cm_first : timers_ q' = timers_ q;
  cm_reads : reads q' = reads q;
  cm_links : links q' = links q;
  cm_waits : waits_of q' = <[t := w]> (<[s := []]> (waits_of q));
  cm_data : links q !! s = Some (next_ d, prev_ d);
  cm_consistent : consistent q';
  cm_ordered : heap_ordered (heap_ q');
  cm_heap u : u ∈ (heap_ q').*2 -> u = t \/ (u ∈ (heap_ q).*2 /\ u <> s);
  cm_keeps u : u ∈ (heap_ q).*2 -> u <> s -> u ∈ (heap_ q').*2;
  cm_times : (heap_ q').*1 = (heap_ q).*1;
  cm_place p : places q' !! t = Some p -> p = None \/ t ∈ (heap_ q').*2;
  cm_places u : u <> t -> u <> s -> places q' !! u = places q !! u;
}.

(** What the assignments before the test on the heap leave. *)
Record contents_copied t s (w : list nat) (d : per_timer_data) q q' : Prop := {
  cpy_first : timers_ q' = timers_ q;
  cpy_heap : heap_ q' = heap_ q;
  cpy_reads : reads q' = reads q;
  cpy_links : links q' = links q;
  cpy_waits : waits_of q' = <[t := w]> (<[s := []]> (waits_of q));
  cpy_places : places q' = <[s := None]> (<[t := heap_index_ d]> (places q));
  cpy_data : links q !! s = Some (next_ d, prev_ d);
}.

Lemma copied_unplaced t s w d q q' : consistent q -> heap_ordered (heap_ q) -> contents_copied t s w d q q' ->
  t <> s -> (t ∉ (heap_ q).*2) -> (s ∉ (heap_ q).*2) -> heap_index_ d = None -> contents_moved t s w d q q'.
Proof.
  intros Hc Ho [Hf Hh Hre Hl Hw Hp Hd] Hts Hth Hsh Hnone. rewrite Hnone in Hp. rewrite consistent_places in Hc.
  split; try done.
  - apply consistent_places. rewrite Hh, Hp. intros i e Hi.
    assert (e.2 ∈ (heap_ q).*2) as Hin by (apply list_elem_of_fmap_2, list_elem_of_lookup; eauto).
    rewrite !lookup_insert_ne by (intros He; by rewrite <- He in Hin). by apply Hc.
  - by rewrite Hh.
  - intros u Hu. rewrite Hh in Hu. right. split; [done|]. by intros ->.
  - by rewrite Hh.
  - by rewrite Hh.
  - rewrite Hp, lookup_insert_ne, lookup_insert_eq by done. intros p [= <-]. by left.
  - intros u Hut Hus. by rewrite Hp, !lookup_insert_ne.
Qed.

(** The entry of [s] becomes one of [t]. *)
Lemma renamed_entry q i time s t k e : consistent q -> (t ∉ (heap_ q).*2) -> heap_ q !! i = Some (time, s) ->
  <[i := (time, t)]> (heap_ q) !! k = Some e ->
  (k = i /\ e = (time, t)) \/ (k <> i /\ heap_ q !! k = Some e /\ e.2 <> s /\ e.2 <> t).
Proof.
  intros Hc Hth Hi. destruct (decide (k = i)) as [->|Hk].
  - rewrite list_lookup_insert_eq by (by eapply lookup_lt_Some). intros [= <-]. by left.
  - rewrite list_lookup_insert_ne by done. intros He. right. split; [done|]. split; [done|]. split.
    + intros Hes. apply Hk. by apply (consistent_inj q k i e (time, s)).
    + intros Het. apply Hth. rewrite <- Het. apply list_elem_of_fmap_2, list_elem_of_lookup. eauto.
Qed.

Lemma copied_placed t s w d q q' i time : consistent q -> heap_ordered (heap_ q) -> contents_copied t s w d q q' ->
  t <> s -> (t ∉ (heap_ q).*2) -> heap_ q !! i = Some (time, s) -> heap_index_ d = Some i ->
  contents_moved t s w d q (set_heap (<[i := (time, t)]> (heap_ q)) q').
Proof.
  intros Hc Ho [Hf Hh Hre Hl Hw Hp Hd] Hts Hth Hi Hdi. rewrite Hdi in Hp.
  pose proof (fun k e => renamed_entry q i time s t k e Hc Hth Hi) as Hent. rewrite consistent_places in Hc.
  split; cbn [timers_ reads heap_ set_heap]; try done; try exact Hl; try exact Hw.
  - apply consistent_places. cbn [heap_ set_heap]. change (places (set_heap _ q')) with (places q').
    rewrite Hp. intros k e He. destruct (Hent k e He) as [[-> ->]|(_ & He' & Hes & Het)]; cbn [snd].
    + by rewrite lookup_insert_ne, lookup_insert_eq.
    + rewrite !lookup_insert_ne by done. by apply Hc.
  - by apply (rename_ordered _ _ _ s).
  - intros u (e & -> & (k & Hk)%list_elem_of_lookup)%list_elem_of_fmap.
    destruct (Hent k e Hk) as [[_ ->]|(_ & He' & Hes & _)]; [by left|right]. split; [|done].
    apply list_elem_of_fmap_2, list_elem_of_lookup. eauto.
  - intros u (e & -> & (k & Hk)%list_elem_of_lookup)%list_elem_of_fmap Hus.
    apply list_elem_of_fmap_2, list_elem_of_lookup. exists k. rewrite list_lookup_insert_ne; [done|].
    intros ->. rewrite Hi in Hk. by injection Hk as <-.
  - rewrite list_fmap_insert. apply list_insert_id. by rewrite list_lookup_fmap, Hi.
  - intros p _. right. apply (list_elem_of_fmap_2 snd _ (time, t)), list_elem_of_lookup.
    exists i. apply list_lookup_insert_eq. by eapply lookup_lt_Some.
  - intros u Hut Hus. change (places (set_heap _ q')) with (places q'). by rewrite Hp, !lookup_insert_ne.
Qed.

Lemma copy_contents_run q t s w : t <> s -> is_Some (links q !! s) -> is_Some (timer_data q !! t) ->
  waits_of q !! s = Some w -> waits_of q !! t = Some [] ->
  exists q' d, contents_copied t s w d q q' /\ places q !! s = Some (heap_index_ d) /\
    move_contents t s q = ((match heap_index_ d with
      | Some i => if (i <? length (heap_ q'))%nat
                  then e ← heap_at i; modify (fun q => set_heap (<[i := (e.1, t)]> (heap_ q)) q) else mret tt
      | None => mret tt
      end) ;; (mret d)) q'.
Proof.
  intros Hts Hls Ht Hw Hwt.
  unfold move_contents. destruct (take_waits_spec q s w Hw) as (q1 & Hr1 & [Hf1 Hh1 Hre1 Hl1 Hp1 Hw1]).
  rewrite (run_bind_ok _ _ _ _ _ _ Hr1), after_nil.
  destruct (change_waits_spec q1 t [] (fun x => x ++ w)) as (q2 & Hr2 & [Hf2 Hh2 Hre2 Hl2 Hp2 Hw2]).
  { by rewrite Hw1, lookup_insert_ne. }
  rewrite (run_bind_ok _ _ _ _ _ _ Hr2), after_nil.
  assert (forall u, is_Some (links q !! u) -> is_Some (timer_data q2 !! u)) as Hdata.
  { intros u Hu. apply links_data. by rewrite Hl2, Hl1. }
  destruct (Hdata s Hls) as [d Hd]. rewrite (run_timer_at q2 s d) by done.
  destruct (change_place_spec q2 t (heap_index_ d)) as (q3 & Hr3 & Hf3 & Hh3 & Hre3 & Hl3 & Hw3 & Hp3).
  { by apply Hdata, links_data. }
  rewrite (run_bind_ok _ _ _ _ _ _ Hr3), after_nil.
  destruct (change_place_spec q3 s None) as (q4 & Hr4 & Hf4 & Hh4 & Hre4 & Hl4 & Hw4 & Hp4).
  { apply links_data. by rewrite Hl3, Hl2, Hl1. }
  rewrite (run_bind_ok _ _ _ _ _ _ Hr4), after_nil, run_get.
  exists q4, d. split; [|split; [|done]].
  - split; [congruence|congruence|congruence|congruence|by rewrite Hw4, Hw3, Hw2, Hw1|by rewrite Hp4, Hp3, Hp2, Hp1|].
    rewrite <- Hl1, <- Hl2. unfold links. by rewrite lookup_fmap, Hd.
  - rewrite <- Hp1, <- Hp2. by apply places_data.
Qed.

Lemma move_contents_spec order q t s : tq_inv order q -> s ∈ order -> t ∉ order -> is_Some (timer_data q !! t) ->
  exists q' d w, move_contents t s q = ([], q', Ok d) /\ waits_of q !! s = Some w /\ contents_moved t s w d q q'.
Proof.
  intros Hinv Hs Ht Hsome. assert (t <> s) as Hts by (by intros ->).
  destruct (order_data order q s Hinv Hs) as [w Hw].
  assert (waits_of q !! t = Some []) as Hwt.
  { destruct Hsome as [d Hd]. assert (waits_of q !! t = Some (wait_queue d)) as Hwd by (unfold waits_of; by rewrite lookup_fmap, Hd).
    by rewrite Hwd, (ti_idle_waits _ _ Hinv _ _ Hwd Ht). }
  assert (is_Some (links q !! s)) as Hls by (apply (linked_in _ order), Hs; apply (ti_linked _ _ Hinv)).
  destruct (copy_contents_run q t s w Hts Hls Hsome Hw Hwt) as (q' & d & Hcopied & Hps & ->).
  assert (t ∉ (heap_ q).*2) as Hth by (intros Hin; by apply Ht, (ti_heap _ _ Hinv)).
  pose proof (ti_consistent _ _ Hinv) as Hc. pose proof (ti_ordered _ _ Hinv) as Ho. pose proof (cpy_heap _ _ _ _ _ _ Hcopied) as Hh.
  destruct (ti_places _ _ Hinv s _ Hps Hs) as [Hnone|Hin].
  - rewrite Hnone. exists q', d, w. rewrite run_ret. split; [done|]. split; [done|]. apply copied_unplaced; try done.
    apply not_placed; [done|]. by rewrite <- Hnone.
  - destruct (heap_place q s Hc Hin) as (i & time & d' & Hi & Hd' & Hid).
    assert (heap_index_ d = Some i) as Hdi.
    { apply places_data in Hd'. rewrite Hps, Hid in Hd'. by injection Hd'. }
    rewrite Hdi, Hh. destruct (Nat.ltb_spec i (length (heap_ q))) as [_|Hge].
    2: { apply lookup_lt_Some in Hi. lia. }
    rewrite run_bind_bind, (run_heap_at q' i (time, s)), run_modify by (by rewrite Hh). cbn [fst]. rewrite Hh.
    eexists _, d, w. split; [done|]. split; [done|]. by apply copied_placed.
Qed.

Lemma move_links_spec q t s d l1 l2 :
  NoDup (l1 ++ s :: l2) -> (t ∉ l1 ++ s :: l2) -> is_Some (links q !! t) -> linked (links q) (l1 ++ s :: l2) ->
  timers_ q = head (l1 ++ s :: l2) -> next_ d = head l2 -> prev_ d = last l1 ->
  exists q', move_links t s d q = ([], q', Ok tt) /\ timers_ q' = head (l1 ++ t :: l2) /\ heap_ q' = heap_ q /\
    reads q' = reads q /\ waits_of q' = waits_of q /\ places q' = places q /\ linked (links q') (l1 ++ t :: l2) /\
    (forall u, u ∉ l1 ++ t :: l2 -> u <> s -> links q' !! u = links q !! u) /\ links q' !! s = Some (None, None).
Proof.
  intros Hnd Ht Hsome Hl Hf Hn Hp. unfold move_links. rewrite run_get, Hn, Hp.
  rewrite (run_bind_ok _ _ _ _ _ _ (relink_first_spec q s l1 l2 (t :: l2) Hnd Hf)), after_nil.
  set (q0 := set_first _ q). destruct (neighbours_spec q0 s l1 l2 (Some t) (Some t)
    (fun _ => change_timer t (set_next_of (head l2)) ;; (change_timer t (set_prev_of (last l1)) ;;
      (change_timer s (set_next_of None) ;; (change_timer s (set_prev_of None))))) Hl) as (q1 & -> & Hl1 & Hs1).
  rewrite change_timer_assoc.
  destruct (set_links_spec q1 t (head l2) (last l1)) as (q2 & Hr2 & Hl2 & Hs2); [rewrite Hl1; by apply relinks_is_Some|].
  rewrite (run_bind_ok _ _ _ _ _ _ Hr2), after_nil.
  assert (is_Some (links q2 !! s)) as Hs.
  { rewrite Hl2, Hl1. apply alter_is_Some, relinks_is_Some, (linked_in _ (l1 ++ s :: l2)); [done|]. apply elem_of_app. right. left. }
  destruct (set_links_spec q2 s None None Hs) as (q3 & Hr3 & Hl3 & Hs3). exists q3. split; [done|].
  destruct (relinked_trans _ _ _ (relinked_trans _ _ _ Hs1 Hs2) Hs3) as [Hf' Hh' Hre' Hw' Hp'].
  split; [by rewrite Hf'|]. split; [done|]. split; [done|]. split; [done|]. split; [done|].
  split; [rewrite Hl3, Hl2, Hl1; by apply linked_replace|]. rewrite Hl3. split.
  - intros u Hu Hus. rewrite Hl2, Hl1. rewrite elem_of_app, elem_of_cons in Hu.
    rewrite !lookup_alter_ne by (intros ->; tauto). apply (relinks_others _ _ s).
    rewrite elem_of_app, elem_of_cons. tauto.
  - rewrite lookup_alter_eq. by destruct Hs as [y ->].
Qed.

Lemma move_timer_spec order q t s : tq_inv order q -> s ∈ order -> t ∉ order -> is_Some (timer_data q !! t) ->
  exists q' order' w, tq_move_timer t s q = ([], q', Ok tt) /\ tq_inv order' q' /\ waits_of q !! s = Some w /\
    waits_of q' = <[t := w]> (<[s := []]> (waits_of q)) /\ t ∈ order' /\ (s ∉ order') /\ (heap_ q').*1 = (heap_ q).*1.
Proof.
  intros Hinv Hs Ht Hsome. assert (t <> s) as Hts by (by intros ->).
  destruct (move_contents_spec order q t s Hinv Hs Ht Hsome) as (q1 & d & w & Hr1 & Hw & Hcm).
  destruct Hcm as [Hf1 Hre1 Hl1 Hw1 Hd1 Hc1 Ho1 Hin1 Hkeep1 Htimes1 Hpt1 Hpl1].
  apply list_elem_of_split in Hs as (l1 & l2 & ->). pose proof (ti_nodup _ _ Hinv) as Hnd.
  assert (Some (next_ d, prev_ d) = Some (head l2, last l1)) as [= Hn Hp].
  { by rewrite <- Hd1, (ti_linked _ _ Hinv l1 s l2 eq_refl). }
  destruct (move_links_spec q1 t s d l1 l2 Hnd Ht) as (q' & Hr' & Hf' & Hh' & Hre' & Hw' & Hp' & Hl' & Hlo & Hls).
  { rewrite Hl1. by apply links_data. } { rewrite Hl1. apply (ti_linked _ _ Hinv). }
  { rewrite Hf1. apply (ti_first _ _ Hinv). } { done. } { done. }
  exists q', (l1 ++ t :: l2), w. unfold tq_move_timer. rewrite (run_bind_ok _ _ _ _ _ _ Hr1), after_nil.
  assert (forall u, u ∈ l1 ++ t :: l2 <-> u = t \/ (u <> s /\ u ∈ l1 ++ s :: l2)) as Hmem.
  { intros u. rewrite <- !Permutation_middle, !elem_of_cons. rewrite <- Permutation_middle in Hnd.
    apply NoDup_cons in Hnd as [Hnd _]. split; [|tauto]. intros [?|Hu]; [by left|right]. split; [by intros ->|by right]. }
  split; [done|]. split; [|split; [done|split; [by rewrite Hw'|split; [apply elem_of_app; right; left|split; [|by rewrite Hh']]]]].
  - split; rewrite ?Hh'; try done.
    + rewrite <- Permutation_middle in Hnd, Ht |- *. apply NoDup_cons in Hnd as [_ Hnd].
      apply not_elem_of_cons in Ht as [_ Ht]. by constructor.
    + intros u l Hu Hin. destruct (decide (u = s)) as [->|Hus]; [congruence|].
      rewrite Hlo, Hl1 in Hu by done. apply (ti_idle_links _ _ Hinv u l Hu). intros Hin'. apply Hin, Hmem. by right.
    + intros u x Hu Hin. rewrite Hw', Hw1 in Hu. apply lookup_insert_Some in Hu as [[<- _]|[_ Hu]].
      { destruct Hin. apply Hmem. by left. }
      apply lookup_insert_Some in Hu as [[_ <-]|[Hus Hu]]; [done|].
      apply (ti_idle_waits _ _ Hinv u x Hu). intros Hin'. apply Hin, Hmem. by right.
    + intros u p Hu Hin. rewrite Hp' in Hu. apply Hmem in Hin as [->|[Hus Hin]]; [by apply Hpt1|].
      assert (u <> t) as Hut by (by intros ->). rewrite Hpl1 in Hu by done.
      destruct (ti_places _ _ Hinv u p Hu Hin) as [?|Hh]; [by left|right]. by apply Hkeep1.
    + intros u Hu. apply Hmem. destruct (Hin1 u Hu) as [?|[Hh Hus]]; [by left|right]. split; [done|].
      by apply (ti_heap _ _ Hinv).
    + apply consistent_places. rewrite Hh', Hp'. by apply consistent_places.
  - rewrite Hmem. by intros [?|[? _]].
Qed.
End timer_operations.
