(* ===== verification/AsioTimerSet.v ===== *)
(** * asio: the set of timer queues, and its properties

    [timer_queue_set] links the timer queues of a reactor and passes its calls on
    to each of them.  Over [steady_clock], whose ticks are nanoseconds, it is the
    [TimerQueueSet] that AsioReactor.v asks for. *)
From S2P Require Import Prelude AsioTime AsioScheduler AsioReactor AsioTimerQueue.
Local Open Scope Z_scope.

(** class [timer_queue_set]: [first_] lists the queues linked through their
    members [next_]. *)
Record TimerSet := mkTimerSet { first_ : list nat; queues : gmap nat TimerQueue }.

Definition new_timer_set : TimerSet := mkTimerSet [] ∅.

Definition set_insert (i : nat) (s : TimerSet) : TimerSet := mkTimerSet (i :: first_ s) (queues s).

Fixpoint erase_from (i : nat) (l : list nat) : list nat :=
  match l with
  | [] => []
  | j :: l => if bool_decide (j = i) then l else j :: erase_from i l
  end.

Definition set_erase (i : nat) (s : TimerSet) : TimerSet := mkTimerSet (erase_from i (first_ s)) (queues s).

(** A call of the queue [i]. *)
Definition run_queue {A} (i : nat) (m : comp TimerQueue TimerEffect A) (s : TimerSet) : result (A * TimerSet) :=
  match queues s !! i with
  | None => Err (UndefinedBehaviour "no timer queue")
  | Some q =>
      let '(_, q', r) := m q in
      a ← r; Ok (a, mkTimerSet (first_ s) (<[i := q']> (queues s)))
  end.

Fixpoint all_empty (l : list nat) (s : TimerSet) : result bool :=
  match l with
  | [] => Ok true
  | i :: l =>
      match queues s !! i with
      | None => Err (UndefinedBehaviour "no timer queue")
      | Some q => if tq_empty q then all_empty l s else Ok false
      end
  end.

(** The least of the times the queues [l] ask for. *)
Fixpoint set_wait (wait : nat -> Z -> comp TimerQueue TimerEffect Z) (l : list nat) (min_duration : Z)
    (s : TimerSet) : result (Z * TimerSet) :=
  match l with
  | [] => Ok (min_duration, s)
  | i :: l => r ← run_queue i (wait i min_duration) s; set_wait wait l r.1 r.2
  end.

Fixpoint set_collect (get : nat -> comp TimerQueue TimerEffect (list nat)) (l : list nat)
    (s : TimerSet) : result (list nat * TimerSet) :=
  match l with
  | [] => Ok ([], s)
  | i :: l => r ← run_queue i (get i) s; r' ← set_collect get l r.2; Ok (r.1 ++ r'.1, r'.2)
  end.

Section steady.
(** [clocks i k] is the [k]-th time the queue [i] reads the clock. *)
Context (clocks : nat -> nat -> Z).

(** [is_positive_infinity] of a [std::chrono] time. *)
Definition never (time : Z) : bool := false.

Definition nano : Z := 10 ^ 9.

#[local] Instance steady_timers : TimerQueueSet TimerSet := {
  tqs_wait_msec n s := set_wait (fun i => wait_duration_msec (clocks i) 1 nano) (first_ s) n s;
  tqs_wait_usec n s := set_wait (fun i => wait_duration_usec (clocks i) 1 nano) (first_ s) n s;
  tqs_get_ready s := set_collect (fun i => get_ready_timers (clocks i)) (first_ s) s;
  tqs_get_all s := set_collect (fun _ => get_all_timers) (first_ s) s;
  tqs_enqueue i time t op s := run_queue i (enqueue_timer never time t op) s;
  tqs_cancel i t n s := run_queue i (tq_cancel_timer t n) s;
  tqs_move i target source s := run_queue i (tq_move_timer target source) s;
}.

(** ** The contract *)

Implicit Types (s : TimerSet) (q : TimerQueue) (i t : nat).

(** A queue in order, with times a clock can show. *)
Definition queue_ok q : Prop := (exists order, tq_inv order q) /\ Forall (fun e => in_time e.1) (heap_ q).

Definition set_ok s : Prop :=
  (forall i q, queues s !! i = Some q -> queue_ok q) /\ Forall (fun i => is_Some (queues s !! i)) (first_ s).

Definition set_pending s : list nat := gather tq_pending (queues s).

(** Whether a timer is in its queue, as [enqueue_timer] and [cancel_timer] ask. *)
Definition timer_active q t : bool :=
  match timer_data q !! t with
  | Some d => negb (bool_decide (prev_ d = None) && negb (bool_decide (timers_ q = Some t)))
  | None => false
  end.

Definition set_valid i t s : Prop :=
  exists q, queues s !! i = Some q /\ is_Some (timer_data q !! t) /\
    forall w, waits_of q !! t = Some w -> Z.of_nat (length w) <= uint64_max.
Definition set_idle i t s : Prop :=
  exists q, queues s !! i = Some q /\ is_Some (timer_data q !! t) /\ timer_active q t = false.
Definition set_active i t s : Prop := exists q, queues s !! i = Some q /\ timer_active q t = true.

Lemma timer_active_spec order q t : tq_inv order q -> is_Some (timer_data q !! t) ->
  timer_active q t = bool_decide (t ∈ order).
Proof.
  intros Hinv Hsome. pose proof (is_idle_spec order q t Hinv Hsome) as Hi. destruct Hsome as [d Hd].
  unfold is_idle in Hi. rewrite (run_timer_at q t d), run_get in Hi by done. injection Hi as Hi.
  unfold timer_active. rewrite Hd, Hi. rewrite bool_decide_not. apply negb_involutive.
Qed.

Lemma active_data q t : timer_active q t = true -> is_Some (timer_data q !! t).
Proof. unfold timer_active. destruct (timer_data q !! t); [eauto|done]. Qed.

(** A call of one queue that keeps it in order. *)
Lemma run_queue_spec {A} i (m : comp TimerQueue TimerEffect A) s q es q' a :
  set_ok s -> queues s !! i = Some q -> m q = (es, q', Ok a) -> queue_ok q' ->
  let s' := mkTimerSet (first_ s) (<[i := q']> (queues s)) in
  run_queue i m s = Ok (a, s') /\ set_ok s' /\ set_pending s' ++ tq_pending q ≡ₚ set_pending s ++ tq_pending q'.
Proof.
  intros [Hok Hall] Hi Hm Hq' s'. unfold run_queue. rewrite Hi, Hm. split; [done|]. split; [split|].
  - intros j r. cbn. intros [[_ <-]|[_ Hj]]%lookup_insert_Some; [done|by apply (Hok j)].
  - eapply Forall_impl; [exact Hall|]. intros j Hj. cbn. apply lookup_insert_is_Some.
    destruct (decide (i = j)); [by left|by right].
  - by apply gather_insert.
Qed.

Lemma queue_ok_heap q q' order es : queue_ok q -> tq_inv order q' -> heap_ q ≡ₚ es ++ heap_ q' -> queue_ok q'.
Proof.
  intros [_ Ht] Hinv Hp. split; [by exists order|]. rewrite Hp, Forall_app in Ht. by destruct Ht.
Qed.

Lemma set_collect_spec get l s : 
  (forall i q, queue_ok q -> exists es q' ops, get i q = (es, q', Ok ops) /\ queue_ok q' /\ ops ++ tq_pending q' ≡ₚ tq_pending q) ->
  set_ok s -> Forall (fun i => is_Some (queues s !! i)) l ->
  exists ops s', set_collect get l s = Ok (ops, s') /\ set_ok s' /\ ops ++ set_pending s' ≡ₚ set_pending s.
Proof.
  intros Hget. revert s. induction l as [|i l IH]; intros s Hok Hl; [by exists [], s|].
  apply Forall_cons in Hl as [[q Hi] Hl]. destruct (Hget i q) as (es & q' & ops & Hr & Hq' & Hp); [by apply (proj1 Hok i)|].
  destruct (run_queue_spec i (get i) s q es q' ops Hok Hi Hr Hq') as (Hr' & Hok' & Hp').
  cbn [set_collect]. rewrite Hr'. cbn [mbind result_bind fst snd].
  set (s' := mkTimerSet _ _) in *.
  destruct (IH s' Hok') as (rest & s'' & -> & Hok'' & Hp'').
  { eapply Forall_impl; [exact Hl|]. intros j Hj. cbn. apply lookup_insert_is_Some.
    destruct (decide (i = j)); [by left|by right]. }
  exists (ops ++ rest), s''. split; [done|]. split; [done|]. rewrite <- (assoc_L (++)), Hp''.
  apply (Permutation_app_inv_r (tq_pending q)). rewrite <- (assoc_L (++)), Hp', <- Hp. solve_Permutation.
Qed.

Lemma set_wait_spec wait l n s :
  (forall i n q, queue_ok q -> exists q' r, wait i n q = ([], q', Ok r) /\ queue_ok q' /\ tq_pending q' = tq_pending q) ->
  set_ok s -> Forall (fun i => is_Some (queues s !! i)) l ->
  exists r s', set_wait wait l n s = Ok (r, s') /\ set_ok s' /\ set_pending s' ≡ₚ set_pending s.
Proof.
  intros Hwait. revert n s. induction l as [|i l IH]; intros n s Hok Hl; [by exists n, s|].
  apply Forall_cons in Hl as [[q Hi] Hl]. destruct (Hwait i n q) as (q' & r & Hr & Hq' & Hp); [by apply (proj1 Hok i)|].
  destruct (run_queue_spec i (wait i n) s q [] q' r Hok Hi Hr Hq') as (Hr' & Hok' & Hp').
  cbn [set_wait]. rewrite Hr'. cbn [mbind result_bind fst snd].
  destruct (IH r _ Hok') as (r' & s'' & -> & Hok'' & Hp'').
  { eapply Forall_impl; [exact Hl|]. intros j Hj. cbn. apply lookup_insert_is_Some.
    destruct (decide (i = j)); [by left|by right]. }
  exists r', s''. split; [done|]. split; [done|]. rewrite Hp''. rewrite Hp in Hp'.
  by apply (Permutation_app_inv_r (tq_pending q)).
Qed.

Context (clock_range : forall i k, in_time (clocks i k)).

Lemma steady_wait_ok i convert total n q : queue_ok q ->
  (forall d, exists r, total d = Ok r) -> (forall d m, convert d m = clamp_duration total d m) ->
  exists q' r, wait_duration (clocks i) convert n q = ([], q', Ok r) /\ queue_ok q' /\ tq_pending q' = tq_pending q.
Proof.
  intros [[order Hinv] Ht] Htotal Hconv.
  destruct (wait_spec (clocks i) convert n order q Hinv) as (q' & r & Hr & Hinv' & Hw & Hh).
  - intros e d _ _. rewrite Hconv. unfold clamp_duration. destruct (d <=? 0); [eauto|].
    destruct (Htotal d) as [u ->]. cbn. split_ifs; eauto.
  - intros e He. split; [|done]. rewrite Forall_forall in Ht. apply Ht, head_Some_elem_of, He.
  - exists q', r. split; [done|]. split; [split; [by exists order|by rewrite Hh]|].
    unfold tq_pending. by rewrite Hw.
Qed.

Lemma get_ready_ok i q : queue_ok q ->
  exists es q' ops, get_ready_timers (clocks i) q = (es, q', Ok ops) /\ queue_ok q' /\ ops ++ tq_pending q' ≡ₚ tq_pending q.
Proof.
  intros Hq. destruct (proj1 Hq) as [order Hinv].
  destruct (get_ready_spec (clocks i) order q Hinv) as (q' & order' & expired & now & Hr & Hinv' & Hrel & _).
  eexists _, q', _. split; [exact Hr|]. split; [|apply (re_pending _ _ _ _ Hrel)].
  by apply (queue_ok_heap q q' order' expired); [| |apply (re_heap _ _ _ _ Hrel)].
Qed.

Lemma get_all_ok q : queue_ok q ->
  exists es q' ops, get_all_timers q = (es, q', Ok ops) /\ queue_ok q' /\ ops ++ tq_pending q' ≡ₚ tq_pending q.
Proof.
  intros [[order Hinv] _]. destruct (get_all_spec order q Hinv) as (q' & ops & Hr & Hinv' & Hp).
  eexists _, q', ops. split; [exact Hr|]. split; [|done]. split; [by exists []|].
  apply Forall_forall. intros e He. exfalso. eapply not_elem_of_nil, (ti_heap _ _ Hinv').
  by apply list_elem_of_fmap_2.
Qed.

(** Adding a wait, cancelling and moving, on one queue. *)
Lemma enqueue_ok time t op q : queue_ok q -> in_time time -> is_Some (timer_data q !! t) ->
  exists q' r, enqueue_timer never time t op q = ([], q', Ok r) /\ queue_ok q' /\ tq_pending q' ≡ₚ op :: tq_pending q.
Proof.
  intros [[order Hinv] Ht] Htime Hsome.
  destruct (enqueue_spec never order q time t op Hinv Hsome) as (q' & order' & r & Hr & Hinv' & Hw & Hh).
  exists q', r. split; [done|]. split.
  - split; [by exists order'|]. rewrite Hh. apply Forall_app. split; [|done].
    destruct (bool_decide (t ∈ order) || never time); [apply Forall_nil_2|by apply Forall_singleton].
  - destruct Hsome as [d Hd]. assert (waits_of q !! t = Some (wait_queue d)) as Hwt by (unfold waits_of; by rewrite lookup_fmap, Hd).
    unfold tq_pending. rewrite Hw, alter_alt, Hwt.
    pose proof (gather_insert (fun w => w) (waits_of q) t _ (wait_queue d ++ [op]) Hwt) as Hg.
    apply (Permutation_app_inv_r (wait_queue d)). rewrite Hg. solve_Permutation.
Qed.

Lemma cancel_ok t n q : queue_ok q -> is_Some (timer_data q !! t) ->
  (forall w, waits_of q !! t = Some w -> Z.of_nat (length w) <= uint64_max) ->
  exists es q' ops, tq_cancel_timer t n q = (es, q', Ok ops) /\ queue_ok q' /\ ops ++ tq_pending q' ≡ₚ tq_pending q /\
    is_Some (timer_data q' !! t) /\ (n = uint64_max -> timer_active q' t = false) /\
    (forall u, u <> t -> timer_active q u = true -> timer_active q' u = true).
Proof.
  intros Hq Hsome Hlen. destruct (proj1 Hq) as [order Hinv].
  destruct (cancel_spec order q t n Hinv Hsome) as (es & q' & order' & ops & Hr & -> & Hinv' & Hc & Hn).
  destruct Hc as [(w & rest & Hw & Hsplit & Hw' & Hgone & _) Hmem (es & Hp & _) _].
  assert (forall u, is_Some (timer_data q' !! u) <-> is_Some (timer_data q !! u)) as Hdata.
  { intros u. trans (is_Some (waits_of q' !! u)).
    { unfold waits_of. by rewrite lookup_fmap, fmap_is_Some. }
    rewrite Hw', lookup_insert_is_Some. trans (is_Some (waits_of q !! u)).
    2: { unfold waits_of. by rewrite lookup_fmap, fmap_is_Some. }
    split; [intros [<-|[_ ?]]; eauto|]. intros ?. destruct (decide (t = u)); [by left|by right]. }
  eexists _, q', ops. split; [exact Hr|]. split; [by apply (queue_ok_heap q q' order' es)|].
  split; [|split; [by apply Hdata|split]].
  - unfold tq_pending. rewrite Hw'. pose proof (gather_insert (fun w => w) (waits_of q) t w rest Hw) as Hg.
    apply (Permutation_app_inv_r rest). rewrite <- Hg, Hsplit. solve_Permutation.
  - intros ->. rewrite (timer_active_spec order') by (done || by apply Hdata).
    apply bool_decide_eq_false_2, Hgone. specialize (Hn ltac:(lia) w Hw). specialize (Hlen w Hw).
    rewrite Hsplit, length_app in *. destruct rest; [done|]. cbn in *. lia.
  - intros u Hu Ha. pose proof (active_data q u Ha) as Hus.
    rewrite (timer_active_spec order) in Ha by done. rewrite (timer_active_spec order') by (done || by apply Hdata).
    apply bool_decide_eq_true in Ha. apply bool_decide_eq_true_2. by apply Hmem.
Qed.

Lemma times_in_range q q' : (heap_ q).*1 = (heap_ q').*1 ->
  Forall (fun e => in_time e.1) (heap_ q') -> Forall (fun e => in_time e.1) (heap_ q).
Proof.
  intros He Hq'. apply Forall_forall. intros e Hin. apply (list_elem_of_fmap_2 fst) in Hin. rewrite He in Hin.
  apply list_elem_of_fmap in Hin as (e' & -> & Hin). rewrite Forall_forall in Hq'. by apply Hq'.
Qed.

Lemma move_ok t u q : queue_ok q -> u <> t -> timer_active q u = true ->
  is_Some (timer_data q !! t) -> timer_active q t = false ->
  exists q', tq_move_timer t u q = ([], q', Ok tt) /\ queue_ok q' /\ tq_pending q' ≡ₚ tq_pending q.
Proof.
  intros [[order Hinv] Ht] Hne Hu Hsome Hti. pose proof (active_data q u Hu) as Hus.
  rewrite (timer_active_spec order) in Hu, Hti by done.
  apply bool_decide_eq_true in Hu. apply bool_decide_eq_false in Hti.
  destruct (move_timer_spec order q t u Hinv Hu Hti Hsome) as (q' & order' & w & Hr & Hinv' & Hw & Hw' & _ & _ & Htimes).
  exists q'. split; [done|]. split.
  - split; [by exists order'|]. apply (times_in_range q' q); done.
  - destruct Hsome as [d Hd]. assert (waits_of q !! t = Some []) as Hwt.
    { assert (waits_of q !! t = Some (wait_queue d)) as Hwd by (unfold waits_of; by rewrite lookup_fmap, Hd).
      by rewrite Hwd, (ti_idle_waits _ _ Hinv _ _ Hwd Hti). }
    unfold tq_pending. rewrite Hw'.
    pose proof (gather_insert (fun w => w) (waits_of q) u w [] Hw) as Hg1.
    pose proof (gather_insert (fun w => w) (<[u := []]> (waits_of q)) t [] w) as Hg2.
    rewrite lookup_insert_ne in Hg2 by done. specialize (Hg2 Hwt). rewrite app_nil_r in *. by rewrite Hg2.
Qed.

#[local] Instance steady_timers_ok : @TimerQueueSetOk TimerSet steady_timers.
Proof.
  refine (@Build_TimerQueueSetOk TimerSet steady_timers set_ok set_pending set_valid set_idle set_active in_time
    _ _ _ _ _ _ _).
  - intros n s [Hok Hall]. apply set_wait_spec; [|done|done]. intros i m q Hq.
    by apply (steady_wait_ok i _ (total_milliseconds 1 nano)); [|eexists; reflexivity|].
  - intros n s [Hok Hall]. apply set_wait_spec; [|done|done]. intros i m q Hq.
    by apply (steady_wait_ok i _ (total_microseconds 1 nano)); [|eexists; reflexivity|].
  - intros s Hs. apply set_collect_spec; [apply get_ready_ok|done|apply Hs].
  - intros s Hs. apply set_collect_spec; [intros _; apply get_all_ok|done|apply Hs].
  - intros i time t op s Hs Htime (q & Hi & Hsome & _).
    destruct (enqueue_ok time t op q (proj1 Hs i q Hi) Htime Hsome) as (q' & r & Hr & Hq' & Hp).
    destruct (run_queue_spec i _ s q [] q' r Hs Hi Hr Hq') as (Hr' & Hs' & Hp').
    exists r. eexists. split; [exact Hr'|]. split; [done|].
    apply (Permutation_app_inv_r (tq_pending q)). rewrite Hp', Hp. solve_Permutation.
  - intros i t n s Hs (q & Hi & Hsome & Hlen).
    destruct (cancel_ok t n q (proj1 Hs i q Hi) Hsome Hlen) as (es & q' & ops & Hr & Hq' & Hp & Hsome' & Hidle & Hact).
    destruct (run_queue_spec i _ s q es q' ops Hs Hi Hr Hq') as (Hr' & Hs' & Hp').
    exists ops. eexists. split; [exact Hr'|]. split; [done|]. split; [|split].
    + apply (Permutation_app_inv_r (tq_pending q)). rewrite <- (assoc_L (++)), Hp', <- Hp. solve_Permutation.
    + intros Hn. exists q'. cbn. rewrite lookup_insert_eq. auto.
    + intros u Hu (r & Hi' & Ha). simplify_eq. exists q'. cbn. rewrite lookup_insert_eq. auto.
  - intros i t u s Hs Hne (q & Hi & Ha) (q2 & Hi2 & Hsome & Hti). simplify_eq.
    destruct (move_ok t u q (proj1 Hs i q Hi) Hne Ha Hsome Hti) as (q' & Hr & Hq' & Hp).
    destruct (run_queue_spec i _ s q [] q' tt Hs Hi Hr Hq') as (Hr' & Hs' & Hp').
    eexists. split; [exact Hr'|]. split; [done|].
    apply (Permutation_app_inv_r (tq_pending q)). by rewrite Hp', Hp.
Defined.

End steady.

(** ** Properties *)

(** C38. Asking a queue in order for its expired timers releases the waits of exactly
    the timers that are due, earlier timers first and the waits of each timer in
    the order in which they were added, and leaves the queue in order. *)
Theorem timers_expire_in_order clock (q : TimerQueue) :
  (exists order, tq_inv order q) ->
  exists q' expired now, get_ready_timers clock q = ([], q', Ok (expired ≫= waits_at q)) /\
    (exists order, tq_inv order q') /\ (heap_ q <> [] -> now = clock (reads q)) /\
    heap_ q ≡ₚ expired ++ heap_ q' /\ StronglySorted (fun e e' => e.1 <= e'.1) expired /\
    (forall e, e ∈ expired -> e.1 <= now) /\ (forall e, e ∈ heap_ q' -> now < e.1) /\
    (forall t, t ∉ expired.*2 -> waits_of q' !! t = waits_of q !! t).
Proof.
  intros [order Hinv].
  destruct (get_ready_spec clock order q Hinv) as (q' & order' & expired & now & Hr & Hinv' & [] & Hnow).
  exists q', expired, now. eauto 10.
Qed.

Lemma new_queue_inv (m : gmap nat per_timer_data) n :
  (forall t d, m !! t = Some d -> d = new_timer) -> tq_inv [] (mkTimerQueue m None [] n).
Proof.
  intros Hm. assert (forall A (g : per_timer_data -> A) t x, (g <$> m) !! t = Some x -> x = g new_timer) as Hg.
  { intros A g t x. rewrite lookup_fmap, fmap_Some. by intros (d & ->%Hm & ->). }
  split; try done.
  - constructor.
  - intros l1 t l2 Hl. by destruct l1.
  - intros t l Hl _. by apply Hg in Hl.
  - intros t w Hw _. by apply Hg in Hw.
  - by intros t p _ ?%not_elem_of_nil.
Qed.

(** A queue with three timers. *)
Definition three_timers : TimerQueue :=
  mkTimerQueue {[0%nat := new_timer; 1%nat := new_timer; 2%nat := new_timer]} None [] 0.

Lemma three_timers_new t d : timer_data three_timers !! t = Some d -> d = new_timer.
Proof.
  unfold three_timers. cbn [timer_data]. intros Hd.
  do 2 (apply lookup_insert_Some in Hd as [[_ <-]|[_ Hd]]; [done|]). by apply lookup_singleton_Some in Hd as [_ <-].
Qed.

(** The state after some calls. *)
Definition after_call {A} (m : comp TimerQueue TimerEffect A) (q : TimerQueue) : TimerQueue := (m q).1.2.

(** Moving from a timer that has expired before: it still remembers a place in
    the heap, where another timer is by then.  That timer's entry goes to the
    target of the move, and its wait is never released, at whatever time. *)
Definition timers_after_move : TimerQueue :=
  after_call (get_ready_timers (fun _ => 100))
    (after_call (tq_move_timer 2 0)
      (after_call (enqueue_timer never 50 1 7)
        (after_call (get_ready_timers (fun _ => 20))
          (after_call (enqueue_timer never 10 0 6) three_timers)))).

Theorem move_can_lose_a_wait clock :
  waits_of timers_after_move !! 1%nat = Some [7%nat] /\
  exists q', get_ready_timers clock timers_after_move = ([], q', Ok []).
Proof.
  split; [vm_compute; reflexivity|]. assert (heap_ timers_after_move = []) as Hh by (vm_compute; reflexivity).
  exists timers_after_move. unfold get_ready_timers. by rewrite run_get, Hh.
Qed.

Lemma timers_expire_in_order_witness :
  let q := after_call (enqueue_timer never 30 0 3) (after_call (enqueue_timer never 10 1 2) three_timers) in
  (exists order, tq_inv order q) /\
  exists q' expired now, get_ready_timers (fun _ => 20) q = ([], q', Ok (expired ≫= waits_at q)) /\
    (exists order, tq_inv order q') /\ (heap_ q <> [] -> now = 20) /\
    heap_ q ≡ₚ expired ++ heap_ q' /\ StronglySorted (fun e e' => e.1 <= e'.1) expired /\
    (forall e, e ∈ expired -> e.1 <= now) /\ (forall e, e ∈ heap_ q' -> now < e.1) /\
    (forall t, t ∉ expired.*2 -> waits_of q' !! t = waits_of q !! t).
Proof.
  intros q.
  assert (exists order, tq_inv order q) as Hq.
  { destruct (enqueue_spec never [] three_timers 10 1 2) as (q1 & order1 & r1 & Hr1 & Hinv1 & Hw1 & _).
    { apply new_queue_inv, three_timers_new. } { vm_compute. eauto. }
    destruct (enqueue_spec never order1 q1 30 0 3 Hinv1) as (q2 & order2 & r2 & Hr2 & Hinv2 & _).
    { assert (q1 = after_call (enqueue_timer never 10 1 2) three_timers) as -> by (unfold after_call; by rewrite Hr1).
      vm_compute. eauto. }
    exists order2. subst q. unfold after_call. rewrite Hr1. cbn [fst snd]. by rewrite Hr2. }
  split; [exact Hq|]. apply (timers_expire_in_order (fun _ => 20) q Hq).
Defined.

(** ** The reactor over these queues *)

Definition no_clock (i k : nat) : Z := 0.

#[local] Instance no_clock_set : TimerQueueSet TimerSet := steady_timers no_clock.
#[local] Instance no_clock_timers : TimerQueueSetOk TimerSet.
Proof. apply steady_timers_ok. intros. vm_compute. split; discriminate. Defined.

Lemma three_timers_ok l m :
  Forall (fun i : nat => is_Some (m !! i)) l -> (forall i q, m !! i = Some q -> q = three_timers) -> set_ok (mkTimerSet l m).
Proof.
  intros Hl Hm. split; [|done]. cbn. intros i q ->%Hm. split; [|constructor]. exists [].
  apply new_queue_inv, three_timers_new.
Qed.

(** One socket with two reads and a write that wait. *)
Definition example_timers : TimerSet := mkTimerSet [0%nat] {[0%nat := three_timers]}.

Definition example_descriptor (reads writes : list nat) : descriptor_state :=
  mkDescriptor 5 descriptor_events (mkPerOp reads writes []) (mkPerOp true true true) false 0.

Definition example_reactor (reads writes : list nat) : Reactor TimerSet :=
  mkReactor {[0%nat := example_descriptor reads writes]} [0%nat] [] true example_timers false ∅ 0 0 0.

Lemma example_reactor_ok reads writes :
  reactor_ok (example_reactor reads writes).
Proof.
  split; [|split].
  - apply three_timers_ok; [repeat constructor; vm_compute; eauto|]. by intros i q [_ <-]%lookup_singleton_Some.
  - cbn. apply NoDup_singleton.
  - cbn. repeat constructor. eauto.
Qed.

Definition example_perform (k : nat) : Status := match k with 0%nat => done | 1%nat => not_done | _ => done_and_exhausted end.

Lemma reactor_accounts_for_work_witness :
  reactor_ok (example_reactor [1; 2] [3])%nat /\
  call_ok (fun _ => []) (example_reactor [1; 2] [3])%nat (CompleteDescriptor 0 EPOLLIN) /\
  exists es s' ops, reactor_call example_perform (fun _ => 0) (fun _ => []) (CompleteDescriptor 0 EPOLLIN)
      (example_reactor [1; 2] [3])%nat = (es, s', Ok ops) /\ reactor_ok s' /\
    left_reactor es ++ timer_ops ops ++ reactor_pending s' ≡ₚ
      reactor_pending (example_reactor [1; 2] [3])%nat ++ begun (CompleteDescriptor 0 EPOLLIN) /\
    work es = counted (CompleteDescriptor 0 EPOLLIN) + idle (CompleteDescriptor 0 EPOLLIN) es.
Proof.
  split; [apply example_reactor_ok|]. split; [vm_compute; eauto|].
  apply reactor_accounts_for_work; [apply example_reactor_ok|vm_compute; eauto].
Defined.

Lemma completions_in_order_witness :
  states (example_reactor [1; 2] [3])%nat !! 0%nat = Some (example_descriptor [1; 2] [3])%nat /\
  exists es s' ops st',
    do_complete example_perform true 0 EPOLLIN (example_reactor [1; 2] [3])%nat =
      (es ++ handed_over (per_op except_op ops ++ per_op write_op ops ++ per_op read_op ops), s', Ok tt) /\
    attempts es /\ states s' = <[0%nat := st']> (states (example_reactor [1; 2] [3])%nat) /\
    forall t, per_op t (desc_queue (example_descriptor [1; 2] [3])%nat) = per_op t ops ++ per_op t (desc_queue st') /\
      (flagged EPOLLIN t = false -> per_op t ops = []) /\
      (flagged EPOLLIN t = true -> per_op t (desc_queue st') <> [] ->
        told_to_wait example_perform (example_reactor [1; 2] [3])%nat s').
Proof. split; [reflexivity|]. apply (completions_in_order example_perform 0 EPOLLIN); reflexivity. Defined.

(** A read starts, waits, and is completed when its data arrives. *)
Definition start_a_read : ReactorCall := StartOp read_op 5 (Some 0%nat) 1 false true.

Definition reactor_after (c : ReactorCall) (s : Reactor TimerSet) : Reactor TimerSet :=
  (reactor_call (fun k => if (k =? 0)%nat then not_done else done) (fun _ => 0) (fun _ => []) c s).1.2.

Lemma outstanding_work_is_exact_witness :
  reactor_ok (example_reactor [] []) /\
  reactor_pending (example_reactor [] []) = [] /\
  exists x, rtc (io_step (fun k => if (k =? 0)%nat then not_done else done) (fun _ => 0) (fun _ => []))
      (mkIoContext (example_reactor [] []) [] 0) x /\
    outstanding_io x = Z.of_nat (length (reactor_pending (io_reactor x)) + length (handed x)) /\
    (outstanding_io x = 0 <-> reactor_pending (io_reactor x) = [] /\ handed x = []).
Proof.
  split; [apply example_reactor_ok|]. split; [reflexivity|].
  set (s1 := reactor_after start_a_read (example_reactor [] [])).
  set (s2 := reactor_after (CompleteDescriptor 0 EPOLLIN) s1).
  exists (mkIoContext s2 [] 0).
  assert (rtc (io_step (fun k => if (k =? 0)%nat then not_done else done) (fun _ => 0) (fun _ => []))
      (mkIoContext (example_reactor [] []) [] 0) (mkIoContext s2 [] 0)) as Hsteps.
  { apply (rtc_l _ _ (mkIoContext s1 [] 1)).
    - refine (io_call_step _ _ _ start_a_read (mkIoContext (example_reactor [] []) [] 0)
        [Perform 1; ToScheduler WorkStarted] s1 [] _ _ _); [reflexivity| |vm_compute; reflexivity].
      intros d [= <-]. left.
    - apply rtc_once.
      refine (io_complete_step _ _ _ 0 EPOLLIN (mkIoContext s1 [] 1) [Perform 1; CompleteReactorOp 1] s2 [] _ _);
        [vm_compute; eauto|vm_compute; reflexivity]. }
  split; [exact Hsteps|].
  apply (outstanding_work_is_exact (fun k => if (k =? 0)%nat then not_done else done) (fun _ => 0) (fun _ => [])
    (example_reactor [] [])); [apply example_reactor_ok|reflexivity|exact Hsteps].
Defined.
