(* ===== verification/AsioAddress.v ===== *)
(** * asio: addresses, end points and networks

    [address_v4] and [address_v6] are the bytes the kernel sees, in network order;
    [address] is one of the two; an end point is the memory of a [sockaddr_in] or
    [sockaddr_in6], 28 bytes of which the family is in the order of the machine
    and the port in network order.  [network_v4] is an address with a prefix.  The
    text of addresses is written and read by the operating system and is not
    modelled. *)
From S2P Require Import Prelude NetworkUtil.
Local Open Scope Z_scope.

(** ** Integers in memory *)

(** [n] bytes, the most significant one first, and the value of such bytes. *)
Fixpoint be_bytes (n : nat) (z : Z) : list Z :=
  match n with O => [] | S n => be_bytes n (z / 256) ++ [z mod 256] end.

Definition be_value (l : list Z) : Z := foldl (fun v b => v * 256 + b) 0 l.

(** An integer in the byte order of the machine. *)
Definition host_bytes (plat : Platform) (n : nat) (z : Z) : list Z :=
  if plat_big_endian plat then be_bytes n z else reverse (be_bytes n z).

Definition host_value (plat : Platform) (l : list Z) : Z :=
  be_value (if plat_big_endian plat then l else reverse l).

(** [memcmp] *)
Fixpoint memcmp (l l' : list Z) : comparison :=
  match l, l' with
  | b :: l, b' :: l' => match b ?= b' with Eq => memcmp l l' | c => c end
  | _, _ => Eq
  end.

(** [n] bytes at an offset. *)
Definition slice (off n : nat) (l : list Z) : list Z := take n (drop off l).

Definition store (off : nat) (bytes l : list Z) : list Z := take off l ++ bytes ++ drop (off + length bytes) l.

(** What the functions throw. *)
Inductive AddressError := BadAddressCast | OutOfRange (what : string) | NotValid (what : string).

(** ** Addresses *)

Module address_v4.
(** [addr_.s_addr] *)
Record t := mk { bytes : list Z }.

Definition default : t := mk (replicate 4 0).
Definition from_uint (addr : Z) : t := mk (be_bytes 4 addr).
Definition to_bytes (a : t) : list Z := bytes a.
Definition to_uint (a : t) : Z := be_value (bytes a).

Definition masked (a : t) (mask value : Z) : bool := Z.land (to_uint a) mask =? value.
Definition is_loopback (a : t) : bool := masked a 0xFF000000 0x7F000000.
Definition is_unspecified (a : t) : bool := to_uint a =? 0.
Definition is_class_a (a : t) : bool := masked a 0x80000000 0.
Definition is_class_b (a : t) : bool := masked a 0xC0000000 0x80000000.
Definition is_class_c (a : t) : bool := masked a 0xE0000000 0xC0000000.
Definition is_multicast (a : t) : bool := masked a 0xF0000000 0xE0000000.

Definition broadcast (addr mask : t) : t :=
  from_uint (Z.lor (to_uint addr) (Z.lxor (to_uint mask) 0xFFFFFFFF)).

Definition netmask (addr : t) : t :=
  if is_class_a addr then from_uint 0xFF000000
  else if is_class_b addr then from_uint 0xFFFF0000
  else if is_class_c addr then from_uint 0xFFFFFF00
  else from_uint 0xFFFFFFFF.

Definition eq (a1 a2 : t) : bool := bool_decide (bytes a1 = bytes a2).
Definition lt (a1 a2 : t) : bool := to_uint a1 <? to_uint a2.
End address_v4.

Module address_v6.
Record t := mk { bytes : list Z; scope_id_ : Z }.

Definition default : t := mk (replicate 16 0) 0.
Definition to_bytes (a : t) : list Z := bytes a.
Definition at_index (a : t) (i : nat) : Z := bytes a !!! i.
Definition zeros (a : t) (n : nat) : bool := forallb (fun i => at_index a i =? 0) (seq 0 n).

Definition is_loopback (a : t) : bool := zeros a 15 && (at_index a 15 =? 1).
Definition is_unspecified (a : t) : bool := zeros a 16.
Definition is_link_local (a : t) : bool := (at_index a 0 =? 0xfe) && (Z.land (at_index a 1) 0xc0 =? 0x80).
Definition is_site_local (a : t) : bool := (at_index a 0 =? 0xfe) && (Z.land (at_index a 1) 0xc0 =? 0xc0).
Definition is_v4_mapped (a : t) : bool := zeros a 10 && (at_index a 10 =? 0xff) && (at_index a 11 =? 0xff).
Definition is_v4_compatible (a : t) : bool :=
  zeros a 12 &&
  negb ((at_index a 12 =? 0) && (at_index a 13 =? 0) && (at_index a 14 =? 0) &&
        ((at_index a 15 =? 0) || (at_index a 15 =? 1))).
Definition is_multicast (a : t) : bool := at_index a 0 =? 0xff.
Definition multicast_scope (a : t) (scope : Z) : bool := is_multicast a && (Z.land (at_index a 1) 0x0f =? scope).
Definition is_multicast_global (a : t) : bool := multicast_scope a 0x0e.
Definition is_multicast_link_local (a : t) : bool := multicast_scope a 0x02.
Definition is_multicast_node_local (a : t) : bool := multicast_scope a 0x01.
Definition is_multicast_org_local (a : t) : bool := multicast_scope a 0x08.
Definition is_multicast_site_local (a : t) : bool := multicast_scope a 0x05.

Definition last_four (a : t) : list Z := at_index a <$> [12; 13; 14; 15]%nat.

Definition to_v4 (a : t) : AddressError + address_v4.t :=
  if negb (is_v4_mapped a) && negb (is_v4_compatible a) then inl BadAddressCast
  else inr (address_v4.mk (last_four a)).

Definition loopback : t := mk (store 15 [1] (replicate 16 0)) 0.
Definition v4_mapped (addr : address_v4.t) : t := mk (replicate 10 0 ++ [0xff; 0xff] ++ address_v4.to_bytes addr) 0.
Definition v4_compatible (addr : address_v4.t) : t := mk (replicate 12 0 ++ address_v4.to_bytes addr) 0.

(** [make_address_v4 (v4_mapped, v6_addr)] and its inverse. *)
Definition make_address_v4 (v6_addr : t) : AddressError + address_v4.t :=
  if negb (is_v4_mapped v6_addr) then inl BadAddressCast
  else inr (address_v4.mk (slice 12 4 (to_bytes v6_addr))).
Definition make_address_v6 (v4_addr : address_v4.t) : t :=
  mk (replicate 10 0 ++ [0xff; 0xff] ++ address_v4.to_bytes v4_addr) 0.

Definition eq (a1 a2 : t) : bool := bool_decide (bytes a1 = bytes a2) && (scope_id_ a1 =? scope_id_ a2).
Definition lt (a1 a2 : t) : bool :=
  match memcmp (bytes a1) (bytes a2) with Lt => true | Gt => false | Eq => scope_id_ a1 <? scope_id_ a2 end.
End address_v6.

(** class [address]: the member the type does not name has its default value. *)
Inductive address := ipv4 (a : address_v4.t) | ipv6 (a : address_v6.t).

Definition is_v4 (a : address) : bool := if a is ipv4 _ then true else false.
Definition is_v6 (a : address) : bool := if a is ipv6 _ then true else false.
Definition to_v4 (a : address) : AddressError + address_v4.t := if a is ipv4 v4 then inr v4 else inl BadAddressCast.
Definition to_v6 (a : address) : AddressError + address_v6.t := if a is ipv6 v6 then inr v6 else inl BadAddressCast.

Definition is_loopback (a : address) : bool :=
  match a with ipv4 v4 => address_v4.is_loopback v4 | ipv6 v6 => address_v6.is_loopback v6 end.
Definition is_unspecified (a : address) : bool :=
  match a with ipv4 v4 => address_v4.is_unspecified v4 | ipv6 v6 => address_v6.is_unspecified v6 end.
Definition is_multicast (a : address) : bool :=
  match a with ipv4 v4 => address_v4.is_multicast v4 | ipv6 v6 => address_v6.is_multicast v6 end.

Definition address_eq (a1 a2 : address) : bool :=
  match a1, a2 with
  | ipv4 a1, ipv4 a2 => address_v4.eq a1 a2
  | ipv6 a1, ipv6 a2 => address_v6.eq a1 a2
  | _, _ => false
  end.

Definition address_lt (a1 a2 : address) : bool :=
  match a1, a2 with
  | ipv4 _, ipv6 _ => true
  | ipv6 _, ipv4 _ => false
  | ipv6 a1, ipv6 a2 => address_v6.lt a1 a2
  | ipv4 a1, ipv4 a2 => address_v4.lt a1 a2
  end.

(** ** End points *)

Definition AF_INET : Z := 2.
Definition AF_INET6 : Z := 10.
Definition sizeof_sockaddr_in : nat := 16.
Definition sizeof_sockaddr_in6 : nat := 28.
Definition sizeof_sockaddr_storage : Z := 128.

Module endpoint.
Section endpoint.
Context (plat : Platform).

(** [data_], a union of the two structures. *)
Definition t := list Z.

Definition sockaddr_in (port_num : Z) (addr : list Z) : t :=
  host_bytes plat 2 AF_INET ++ be_bytes 2 port_num ++ addr ++ replicate 20 0.

Definition sockaddr_in6 (port_num : Z) (addr : list Z) (scope_id : Z) : t :=
  host_bytes plat 2 AF_INET6 ++ be_bytes 2 port_num ++ replicate 4 0 ++ addr ++ host_bytes plat 4 scope_id.

Definition default : t := sockaddr_in 0 (replicate 4 0).

Definition from_family (family port_num : Z) : t :=
  if family =? AF_INET then sockaddr_in port_num (replicate 4 0)
  else sockaddr_in6 port_num (replicate 16 0) 0.

Definition from_address (addr : address) (port_num : Z) : t :=
  match addr with
  | ipv4 v4 => sockaddr_in port_num (be_bytes 4 (address_v4.to_uint v4))
  | ipv6 v6 => sockaddr_in6 port_num (address_v6.to_bytes v6) (wrap 32 (address_v6.scope_id_ v6))
  end.

Definition family (e : t) : Z := host_value plat (slice 0 2 e).
Definition is_v4 (e : t) : bool := family e =? AF_INET.
Definition size (e : t) : nat := if is_v4 e then sizeof_sockaddr_in else sizeof_sockaddr_in6.
Definition capacity (e : t) : nat := sizeof_sockaddr_in6.

(** Whether [resize] returns; it throws [invalid_argument] otherwise. *)
Definition resize (new_size : Z) : bool := negb (sizeof_sockaddr_storage <? new_size).

(** [sin_port] and [sin6_port] are in the same place. *)
Definition port (e : t) : Z := be_value (slice 2 2 e).
Definition set_port (port_num : Z) (e : t) : t := store 2 (be_bytes 2 port_num) e.

Definition get_address (e : t) : address :=
  if is_v4 e then ipv4 (address_v4.from_uint (be_value (slice 4 4 e)))
  else ipv6 (address_v6.mk (slice 8 16 e) (host_value plat (slice 24 4 e))).

Definition set_address (addr : address) (e : t) : t := from_address addr (port e).

Definition eq (e1 e2 : t) : bool := address_eq (get_address e1) (get_address e2) && (port e1 =? port e2).

Definition lt (e1 e2 : t) : bool :=
  if address_lt (get_address e1) (get_address e2) then true
  else if negb (address_eq (get_address e1) (get_address e2)) then false
  else port e1 <? port e2.
End endpoint.
End endpoint.

(** class [ip::tcp]: the family. *)
Record tcp := mkTcp { tcp_family : Z }.
Definition tcp_v4 : tcp := mkTcp AF_INET.
Definition tcp_v6 : tcp := mkTcp AF_INET6.
Definition IPPROTO_TCP : Z := 6.

(** [basic_endpoint::protocol] *)
Definition protocol_of (plat : Platform) (e : endpoint.t) : tcp := if endpoint.is_v4 plat e then tcp_v4 else tcp_v6.

(** ** Networks *)

Module network_v4.
Record t := mk { address_ : address_v4.t; prefix_length_ : Z }.

Definition from_prefix (addr : address_v4.t) (prefix_len : Z) : AddressError + t :=
  if 32 <? prefix_len then inl (OutOfRange "prefix length too large") else inr (mk addr prefix_len).

(** The [switch] on a byte of the mask: how much the prefix grows, and whether it
    ends in this byte; the cases fall through. *)
Definition mask_byte (b : Z) : option (Z * bool) :=
  if b =? 255 then Some (8, false) else if b =? 254 then Some (7, true)
  else if b =? 252 then Some (6, true) else if b =? 248 then Some (5, true)
  else if b =? 240 then Some (4, true) else if b =? 224 then Some (3, true)
  else if b =? 192 then Some (2, true) else if b =? 128 then Some (1, true)
  else if b =? 0 then Some (0, true) else None.

Fixpoint mask_loop (mask_bytes : list Z) (finished : bool) (prefix_length : Z) : AddressError + Z :=
  match mask_bytes with
  | [] => inr prefix_length
  | b :: mask_bytes =>
      if finished then
        if negb (b =? 0) then inl (NotValid "non-contiguous netmask") else mask_loop mask_bytes finished prefix_length
      else
        match mask_byte b with
        | Some (n, finished) => mask_loop mask_bytes finished (prefix_length + n)
        | None => inl (OutOfRange "non-contiguous netmask")
        end
  end.

Definition from_mask (addr mask : address_v4.t) : AddressError + t :=
  match mask_loop (address_v4.to_bytes mask) false 0 with
  | inr prefix_length => inr (mk addr prefix_length)
  | inl e => inl e
  end.

(** A shift of [uint32_t] by 32 minus the prefix. *)
Definition netmask (n : t) : address_v4.t :=
  address_v4.from_uint
    (if prefix_length_ n =? 0 then 0 else wrap 32 (Z.shiftl 0xffffffff (32 - prefix_length_ n))).

Definition network (n : t) : address_v4.t :=
  address_v4.from_uint (Z.land (address_v4.to_uint (address_ n)) (address_v4.to_uint (netmask n))).

Definition broadcast (n : t) : address_v4.t :=
  address_v4.from_uint (Z.lor (address_v4.to_uint (network n)) (Z.lxor (address_v4.to_uint (netmask n)) 0xFFFFFFFF)).

Definition is_host (n : t) : bool := prefix_length_ n =? 32.

(** [hosts]: the first address of the range and the one behind the last. *)
Definition hosts (n : t) : address_v4.t * address_v4.t :=
  if is_host n then (address_ n, address_v4.from_uint (wrap 32 (address_v4.to_uint (address_ n) + 1)))
  else (address_v4.from_uint (wrap 32 (address_v4.to_uint (network n) + 1)), broadcast n).

Definition canonical (n : t) : AddressError + t := from_mask (network n) (netmask n).

Definition eq (a b : t) : bool := address_v4.eq (address_ a) (address_ b) && (prefix_length_ a =? prefix_length_ b).

Definition is_subnet_of (n other : t) : AddressError + bool :=
  if prefix_length_ n <=? prefix_length_ other then inr false
  else
    match from_prefix (address_ n) (prefix_length_ other) with
    | inl e => inl e
    | inr me =>
        match canonical other, canonical me with
        | inr c, inr c' => inr (eq c c')
        | inl e, _ | _, inl e => inl e
        end
    end.
End network_v4.

(** [address_v4_range]: the number of its elements and whether [find] finds. *)
Definition range_size (r : address_v4.t * address_v4.t) : Z :=
  wrap 32 (address_v4.to_uint r.2 - address_v4.to_uint r.1).

Definition range_finds (addr : address_v4.t) (r : address_v4.t * address_v4.t) : bool :=
  negb (address_v4.lt addr r.1) && address_v4.lt addr r.2.

(** ** Lemmas *)

#[local] Arguments be_value : simpl never.

Lemma be_value_snoc l b : be_value (l ++ [b]) = be_value l * 256 + b.
Proof. unfold be_value. by rewrite foldl_app. Qed.

Lemma length_be_bytes n z : length (be_bytes n z) = n.
Proof. revert z. induction n as [|n IH]; intros z; [done|]. cbn [be_bytes]. rewrite length_app, IH. cbn. lia. Qed.

Lemma be_bytes_ok n z : bytes_ok (be_bytes n z).
Proof.
  revert z. induction n as [|n IH]; intros z; [by apply Forall_nil|]. cbn [be_bytes]. apply Forall_app. split; [apply IH|].
  apply Forall_singleton. apply Z.mod_pos_bound. lia.
Qed.

Lemma be_value_bytes n z : be_value (be_bytes n z) = z mod 256 ^ Z.of_nat n.
Proof.
  revert z. induction n as [|n IH]; intros z; [cbn; by rewrite Z.mod_1_r|]. cbn [be_bytes].
  rewrite be_value_snoc, IH. rewrite Nat2Z.inj_succ, Z.pow_succ_r, Z.rem_mul_r by lia. lia.
Qed.

Lemma be_value_range l : bytes_ok l -> 0 <= be_value l < 256 ^ Z.of_nat (length l).
Proof.
  induction l as [|b l IH] using rev_ind; intros Hl; [done|]. apply Forall_app in Hl as [Hl [Hb _]%Forall_cons].
  cbn beta in Hb. specialize (IH Hl). rewrite be_value_snoc, length_app. cbn [length]. rewrite Nat.add_1_r, Nat2Z.inj_succ, Z.pow_succ_r by lia. lia.
Qed.

Lemma be_bytes_value l : bytes_ok l -> be_bytes (length l) (be_value l) = l.
Proof.
  induction l as [|b l IH] using rev_ind; intros Hl; [done|]. apply Forall_app in Hl as [Hl [Hb _]%Forall_cons].
  cbn beta in Hb. rewrite length_app. cbn [length]. rewrite Nat.add_1_r. cbn [be_bytes]. rewrite be_value_snoc.
  rewrite Z.div_add_l, (Z.div_small b), Z.add_0_r, IH by done. f_equal. f_equal.
  rewrite Z.add_comm, Z.mod_add by done. by apply Z.mod_small.
Qed.

Lemma host_value_bytes plat n z : host_value plat (host_bytes plat n z) = z mod 256 ^ Z.of_nat n.
Proof. unfold host_value, host_bytes. destruct (plat_big_endian plat); rewrite ?reverse_involutive; apply be_value_bytes. Qed.

Lemma length_host_bytes plat n z : length (host_bytes plat n z) = n.
Proof. unfold host_bytes. destruct (plat_big_endian plat); rewrite ?length_reverse; apply length_be_bytes. Qed.

Lemma host_value_range plat l : bytes_ok l -> 0 <= host_value plat l < 256 ^ Z.of_nat (length l).
Proof.
  intros Hl. unfold host_value. destruct (plat_big_endian plat); [by apply be_value_range|].
  rewrite <- (length_reverse l). apply be_value_range. by apply Forall_reverse.
Qed.

(** Reading a part of bytes laid out one after another. *)
Lemma slice_app l1 l2 l3 off n : length l1 = off -> length l2 = n -> slice off n (l1 ++ l2 ++ l3) = l2.
Proof. intros <- <-. unfold slice. by rewrite drop_app_length, take_app_length. Qed.

Lemma slice_front l2 l3 n : length l2 = n -> slice 0 n (l2 ++ l3) = l2.
Proof. apply (slice_app []). done. Qed.

Lemma length_slice off n l : (off + n <= length l)%nat -> length (slice off n l) = n.
Proof. intros. unfold slice. rewrite length_take, length_drop. lia. Qed.

Lemma slice_ok off n l : bytes_ok l -> bytes_ok (slice off n l).
Proof. intros Hl. by apply Forall_take, Forall_drop. Qed.

(** A part that ends before the bytes that are stored, or begins behind them. *)
Lemma slice_store off n bytes l at_ : (at_ + length bytes <= length l)%nat ->
  (off + n <= at_)%nat \/ (at_ + length bytes <= off)%nat -> slice off n (store at_ bytes l) = slice off n l.
Proof.
  intros Hfit Hcase. unfold slice, store. destruct Hcase as [Hcase|Hcase].
  - rewrite !take_drop_commute. f_equal. rewrite take_app_le by (rewrite length_take; lia).
    rewrite take_take. f_equal. lia.
  - f_equal. rewrite drop_app_ge by (rewrite length_take; lia). rewrite length_take, Nat.min_l by lia.
    rewrite drop_app_ge by lia. rewrite drop_drop. f_equal. lia.
Qed.

Lemma slice_stored bytes l at_ : (at_ + length bytes <= length l)%nat -> slice at_ (length bytes) (store at_ bytes l) = bytes.
Proof. intros Hfit. apply slice_app; [rewrite length_take; lia|done]. Qed.

Lemma memcmp_value l l' : bytes_ok l -> bytes_ok l' -> length l = length l' -> memcmp l l' = (be_value l ?= be_value l').
Proof.
  assert (forall l v, foldl (fun v b => v * 256 + b) v l = v * 256 ^ Z.of_nat (length l) + be_value l) as Hfold.
  { clear. induction l as [|b l IH]; intros v; [unfold be_value; cbn; lia|]. cbn [foldl length]. rewrite IH.
    assert (be_value (b :: l) = (0 * 256 + b) * 256 ^ Z.of_nat (length l) + be_value l) as -> by apply IH.
    rewrite Nat2Z.inj_succ, Z.pow_succ_r by lia. ring. }
  assert (forall b l, be_value (b :: l) = b * 256 ^ Z.of_nat (length l) + be_value l) as Hcons.
  { intros b0 l0. etrans; [apply (Hfold l0 (0 * 256 + b0))|ring]. }
  intros Hl. revert l'. induction Hl as [|b l Hb Hl IH]; intros [|b' l'] Hl' Hlen; try done.
  apply Forall_cons in Hl' as [Hb' Hl']. injection Hlen as Hlen. cbn [memcmp]. rewrite !Hcons, <- Hlen.
  pose proof (be_value_range l Hl) as Hr. pose proof (be_value_range l' Hl') as Hr'. rewrite <- Hlen in Hr'.
  destruct (Z.compare_spec b b') as [->|Hlt|Hgt].
  - rewrite IH by done. symmetry. apply Zcompare_plus_compat.
  - symmetry. apply Z.compare_lt_iff. nia.
  - symmetry. apply Z.compare_gt_iff. nia.
Qed.

(** *** Addresses as numbers *)

Definition v4_ok (a : address_v4.t) : Prop := length (address_v4.bytes a) = 4%nat /\ bytes_ok (address_v4.bytes a).
Definition v6_ok (a : address_v6.t) : Prop :=
  length (address_v6.bytes a) = 16%nat /\ bytes_ok (address_v6.bytes a) /\ in_range 64 (address_v6.scope_id_ a).
Definition address_ok (a : address) : Prop := match a with ipv4 v4 => v4_ok v4 | ipv6 v6 => v6_ok v6 end.

Lemma v4_uint a : v4_ok a -> in_range 32 (address_v4.to_uint a) /\ address_v4.from_uint (address_v4.to_uint a) = a.
Proof.
  intros [Hlen Hok]. destruct a as [l]. cbn in *. unfold address_v4.to_uint, address_v4.from_uint. cbn [address_v4.bytes].
  pose proof (be_value_range l Hok) as Hr. rewrite Hlen in Hr. split; [done|]. f_equal. rewrite <- Hlen at 1. by apply be_bytes_value.
Qed.

Lemma from_uint_ok z : v4_ok (address_v4.from_uint z).
Proof. split; [apply length_be_bytes|apply be_bytes_ok]. Qed.

Lemma to_from_uint z : address_v4.to_uint (address_v4.from_uint z) = wrap 32 z.
Proof. apply be_value_bytes. Qed.

Lemma to_from_small z : in_range 32 z -> address_v4.to_uint (address_v4.from_uint z) = z.
Proof. intros Hz. rewrite to_from_uint. by apply wrap_small. Qed.

Lemma v4_eq_uint a1 a2 : v4_ok a1 -> v4_ok a2 -> address_v4.eq a1 a2 = (address_v4.to_uint a1 =? address_v4.to_uint a2).
Proof.
  intros H1 H2. destruct (v4_uint a1 H1) as [_ E1], (v4_uint a2 H2) as [_ E2]. unfold address_v4.eq.
  destruct (Z.eqb_spec (address_v4.to_uint a1) (address_v4.to_uint a2)) as [E|E].
  - apply bool_decide_eq_true. rewrite <- E1, <- E2. by rewrite E.
  - apply bool_decide_eq_false. intros Hb. apply E. unfold address_v4.to_uint. by rewrite Hb.
Qed.

(** A number for each address, in the order of [operator<]. *)
Definition address_rank (a : address) : Z :=
  match a with
  | ipv4 v4 => address_v4.to_uint v4
  | ipv6 v6 => 2 ^ 32 + be_value (address_v6.bytes v6) * 2 ^ 64 + address_v6.scope_id_ v6
  end.

Lemma v6_rank a1 a2 : v6_ok a1 -> v6_ok a2 ->
  address_v6.lt a1 a2 = (address_rank (ipv6 a1) <? address_rank (ipv6 a2)) /\
  address_v6.eq a1 a2 = (address_rank (ipv6 a1) =? address_rank (ipv6 a2)).
Proof.
  intros (L1 & B1 & S1) (L2 & B2 & S2). destruct a1 as [l1 s1], a2 as [l2 s2]. cbn in *.
  pose proof (be_value_range l1 B1) as R1. pose proof (be_value_range l2 B2) as R2. unfold in_range in *.
  unfold address_v6.lt, address_v6.eq. cbn. rewrite (memcmp_value l1 l2) by congruence.
  assert (bool_decide (l1 = l2) = (be_value l1 =? be_value l2)) as ->.
  { destruct (Z.eqb_spec (be_value l1) (be_value l2)) as [E|E]; [|by apply bool_decide_eq_false; intros ->].
    apply bool_decide_eq_true. rewrite <- (be_bytes_value l1), <- (be_bytes_value l2) by done. congruence. }
  set (v1 := be_value l1) in *. set (v2 := be_value l2) in *. clearbody v1 v2. split.
  - destruct (Z.compare_spec v1 v2) as [->|Hlt|Hgt].
    + apply Bool.eq_iff_eq_true. rewrite !Z.ltb_lt. lia.
    + symmetry. apply Z.ltb_lt. lia.
    + symmetry. apply Z.ltb_ge. lia.
  - apply Bool.eq_iff_eq_true. rewrite andb_true_iff, !Z.eqb_eq. lia.
Qed.

Lemma address_order a1 a2 : address_ok a1 -> address_ok a2 ->
  address_lt a1 a2 = (address_rank a1 <? address_rank a2) /\ address_eq a1 a2 = (address_rank a1 =? address_rank a2).
Proof.
  assert (forall v, v6_ok v -> 2 ^ 32 <= address_rank (ipv6 v)) as Hv6.
  { intros [l s] (L & B & S). cbn in *. pose proof (be_value_range l B). unfold in_range in S. lia. }
  destruct a1 as [a1|a1], a2 as [a2|a2]; intros H1 H2; cbn [address_ok address_lt address_eq] in *.
  - split; [done|by apply v4_eq_uint].
  - destruct (v4_uint a1 H1) as [R1 _]. specialize (Hv6 a2 H2). unfold in_range in R1. cbn [address_rank] in *.
    split; symmetry; [apply Z.ltb_lt|apply Z.eqb_neq]; lia.
  - destruct (v4_uint a2 H2) as [R2 _]. specialize (Hv6 a1 H1). unfold in_range in R2. cbn [address_rank] in *.
    split; symmetry; [apply Z.ltb_ge|apply Z.eqb_neq]; lia.
  - by apply v6_rank.
Qed.

(** *** The memory of an end point *)

Definition endpoint_ok (e : endpoint.t) : Prop := length e = sizeof_sockaddr_in6 /\ bytes_ok e.

Lemma get_address_ok plat e : endpoint_ok e -> address_ok (endpoint.get_address plat e).
Proof.
  intros [Hlen Hok]. unfold endpoint.get_address, sizeof_sockaddr_in6 in *. destruct (endpoint.is_v4 plat e); cbn.
  - apply from_uint_ok.
  - split; [apply length_slice; lia|]. split; [by apply slice_ok|]. cbn.
    pose proof (host_value_range plat (slice 24 4 e) (slice_ok _ _ _ Hok)) as Hr.
    rewrite length_slice in Hr by lia. unfold in_range. change (256 ^ Z.of_nat 4) with (2 ^ 32) in Hr. lia.
Qed.

Lemma port_range e : endpoint_ok e -> in_range 16 (endpoint.port e).
Proof.
  intros [Hlen Hok]. unfold sizeof_sockaddr_in6 in Hlen.
  pose proof (be_value_range (slice 2 2 e) (slice_ok _ _ _ Hok)) as Hr. by rewrite length_slice in Hr by lia.
Qed.

Lemma host_bytes_ok plat n z : bytes_ok (host_bytes plat n z).
Proof. unfold host_bytes. destruct (plat_big_endian plat); [|apply Forall_reverse]; apply be_bytes_ok. Qed.

Lemma zeros_ok n : bytes_ok (replicate n 0).
Proof. apply Forall_replicate. lia. Qed.

Lemma sockaddr_in_fields plat p addr : length addr = 4%nat -> bytes_ok addr ->
  let e := endpoint.sockaddr_in plat p addr in
  endpoint_ok e /\ endpoint.family plat e = AF_INET /\ endpoint.port e = wrap 16 p /\ slice 4 4 e = addr.
Proof.
  intros Hlen Hok e. pose proof (length_host_bytes plat 2 AF_INET) as Lf. pose proof (length_be_bytes 2 p) as Lp. split; [split|split_and!].
  - unfold e, endpoint.sockaddr_in. rewrite !length_app, length_replicate, Lf, Lp, Hlen. done.
  - unfold e, endpoint.sockaddr_in. apply Forall_app_2; [apply host_bytes_ok|]. apply Forall_app_2; [apply be_bytes_ok|].
    apply Forall_app_2; [exact Hok|apply zeros_ok].
  - unfold endpoint.family, e, endpoint.sockaddr_in.
    rewrite slice_front by done. by rewrite host_value_bytes.
  - unfold endpoint.port, e, endpoint.sockaddr_in. rewrite slice_app by done. apply be_value_bytes.
  - unfold e, endpoint.sockaddr_in. rewrite (assoc_L (++)). apply slice_app; [by rewrite length_app, Lf, Lp|done].
Qed.

Lemma sockaddr_in6_fields plat p addr scope : length addr = 16%nat -> bytes_ok addr ->
  let e := endpoint.sockaddr_in6 plat p addr scope in
  endpoint_ok e /\ endpoint.family plat e = AF_INET6 /\ endpoint.port e = wrap 16 p /\ slice 8 16 e = addr /\
  host_value plat (slice 24 4 e) = wrap 32 scope.
Proof.
  intros Hlen Hok e. pose proof (length_host_bytes plat 2 AF_INET6) as Lf. pose proof (length_be_bytes 2 p) as Lp.
  pose proof (length_host_bytes plat 4 scope) as Ls. split; [split|split_and!].
  - unfold e, endpoint.sockaddr_in6. rewrite !length_app, length_replicate, Lf, Lp, Ls, Hlen. done.
  - unfold e, endpoint.sockaddr_in6. apply Forall_app_2; [apply host_bytes_ok|]. apply Forall_app_2; [apply be_bytes_ok|].
    apply Forall_app_2; [apply zeros_ok|]. apply Forall_app_2; [exact Hok|apply host_bytes_ok].
  - unfold endpoint.family, e, endpoint.sockaddr_in6.
    rewrite slice_front by done. by rewrite host_value_bytes.
  - unfold endpoint.port, e, endpoint.sockaddr_in6. rewrite slice_app by done. apply be_value_bytes.
  - unfold e, endpoint.sockaddr_in6. rewrite !(assoc_L (++)), <- (assoc_L (++) _ addr).
    apply slice_app; [by rewrite !length_app, length_replicate, Lf, Lp|done].
  - unfold e, endpoint.sockaddr_in6. rewrite !(assoc_L (++)), <- (app_nil_r (_ ++ host_bytes plat 4 scope)), <- (assoc_L (++)).
    rewrite slice_app; [apply host_value_bytes|by rewrite !length_app, length_replicate, Lf, Lp, Hlen|done].
Qed.

(** *** Masks *)

(** The addresses of a network agree above the last [32 - prefix] bits. *)
Definition host_bits (n : network_v4.t) : Z := 32 - network_v4.prefix_length_ n.
Definition network_ok (n : network_v4.t) : Prop :=
  v4_ok (network_v4.address_ n) /\ 0 <= network_v4.prefix_length_ n <= 32.
Definition in_network (n : network_v4.t) (x : Z) : Prop :=
  Z.shiftr x (host_bits n) = Z.shiftr (address_v4.to_uint (network_v4.address_ n)) (host_bits n).

Definition mask_of (p : Z) : Z := 2 ^ 32 - 2 ^ (32 - p).

Lemma prefixes p : 0 <= p <= 32 -> p ∈ seqZ 0 33.
Proof. intros. apply elem_of_seqZ. lia. Qed.

Lemma netmask_value n : network_ok n -> address_v4.to_uint (network_v4.netmask n) = mask_of (network_v4.prefix_length_ n).
Proof.
  intros [_ Hp%prefixes]. destruct n as [a p]. unfold network_v4.netmask. cbn in *. revert p Hp. apply Forall_forall.
  apply (bool_decide_unpack _). by vm_compute.
Qed.

Lemma mask_range p : 0 <= p <= 32 -> in_range 32 (mask_of p).
Proof. intros Hp%prefixes. revert p Hp. apply Forall_forall, (bool_decide_unpack _). by vm_compute. Qed.

Lemma mask_complement p : 0 <= p <= 32 -> Z.lxor (mask_of p) 0xFFFFFFFF = Z.ones (32 - p).
Proof. intros Hp%prefixes. revert p Hp. apply Forall_forall, (bool_decide_unpack _). by vm_compute. Qed.

(** What the loop makes of the mask with prefix [p]. *)
Lemma mask_loop_prefix p : 0 <= p <= 32 -> network_v4.mask_loop (be_bytes 4 (mask_of p)) false 0 = inr p.
Proof.
  intros Hp%prefixes. revert p Hp. assert (Forall (fun p => network_v4.mask_loop (be_bytes 4 (mask_of p)) false 0 = inr p) (seqZ 0 33)) as Hall.
  { repeat (apply Forall_cons; split; [by vm_compute|]). by apply Forall_nil. }
  by apply Forall_forall.
Qed.

Lemma land_mask x p : 0 <= p <= 32 -> in_range 32 x -> Z.land x (mask_of p) = Z.shiftl (Z.shiftr x (32 - p)) (32 - p).
Proof.
  intros Hp [Hx0 Hx]. apply Z.bits_inj'. intros i Hi. rewrite Z.land_spec, Z.shiftl_spec by done.
  assert (mask_of p = Z.shiftl (Z.ones p) (32 - p)) as ->.
  { unfold mask_of. rewrite Z.shiftl_mul_pow2, Z.ones_equiv by lia. unfold Z.pred. rewrite Z.mul_add_distr_r, <- Z.pow_add_r by lia.
    replace (p + (32 - p)) with 32 by lia. lia. }
  rewrite Z.shiftl_spec by done. destruct (decide (i < 32 - p)) as [Hlt|Hge].
  - rewrite !(Z.testbit_neg_r _ (i - (32 - p))) by lia. apply andb_false_r.
  - rewrite Z.shiftr_spec by lia. replace (i - (32 - p) + (32 - p)) with i by lia.
    destruct (decide (i < 32)) as [Hi32|Hi32].
    + rewrite Z.ones_spec_low by lia. apply andb_true_r.
    + rewrite Z.ones_spec_high by lia. rewrite andb_false_r. symmetry. apply (Z.bits_above_log2 x i); [done|].
      destruct (decide (x = 0)) as [->|Hnz]; [cbn; lia|]. apply Z.lt_le_trans with 32; [|lia]. apply Z.log2_lt_pow2; lia.
Qed.

Lemma in_network_masked n x : network_ok n -> in_range 32 x ->
  in_network n x <-> Z.land x (mask_of (network_v4.prefix_length_ n)) = address_v4.to_uint (network_v4.network n).
Proof.
  intros [Ha Hp] Hx. destruct (v4_uint _ Ha) as [Hr _]. unfold in_network, network_v4.network, host_bits.
  rewrite netmask_value by done. set (p := network_v4.prefix_length_ n) in *.
  set (y := address_v4.to_uint (network_v4.address_ n)) in *.
  assert (in_range 32 (Z.land y (mask_of p))) as Hland.
  { destruct (mask_range p Hp) as [Hm _]. destruct Hr as [Hy0 Hy]. split; [by apply Z.land_nonneg; left|].
    rewrite land_mask by done. rewrite Z.shiftl_mul_pow2, Z.shiftr_div_pow2 by lia.
    pose proof (Z.mul_div_le y (2 ^ (32 - p))). lia. }
  rewrite to_from_small by done. rewrite !land_mask by done. split; [by intros ->|].
  intros Heq. apply (f_equal (fun z => Z.shiftr z (32 - p))) in Heq.
  by rewrite !Z.shiftr_shiftl_l, !Z.sub_diag, !Z.shiftl_0_r in Heq by lia.
Qed.

Lemma canonical_ok n : network_ok n ->
  network_v4.canonical n = inr (network_v4.mk (network_v4.network n) (network_v4.prefix_length_ n)).
Proof.
  intros Hn. pose proof (netmask_value n Hn) as Hm. destruct Hn as [Ha Hp].
  unfold network_v4.canonical, network_v4.from_mask, address_v4.to_bytes.
  assert (address_v4.bytes (network_v4.netmask n) = be_bytes 4 (mask_of (network_v4.prefix_length_ n))) as ->.
  { rewrite <- Hm. destruct (v4_uint (network_v4.netmask n) (from_uint_ok _)) as [_ E]. rewrite <- E at 1. done. }
  by rewrite mask_loop_prefix.
Qed.

(** The bytes of a mask that the loop accepts. *)
Lemma mask_loop_inv l q : length l = 4%nat -> network_v4.mask_loop l false 0 = inr q ->
  (forall addr, network_v4.netmask (network_v4.mk addr q) = address_v4.mk l) /\ 0 <= q <= 32.
Proof.
  intros Hlen. destruct l as [|b1 [|b2 [|b3 [|b4 [|]]]]]; try done. clear Hlen.
  unfold network_v4.mask_loop, network_v4.mask_byte.
  repeat (case_match; try done); intros [= <-]; repeat match goal with
    | H : (_ =? _) = true |- _ => apply Z.eqb_eq in H
    | H : negb (_ =? _) = false |- _ => apply negb_false_iff, Z.eqb_eq in H end; simplify_eq; by split.
Qed.

(** A larger network contains a smaller one, or they are disjoint. *)
Lemma in_network_coarser (n m : network_v4.t) x : network_ok n -> network_ok m ->
  network_v4.prefix_length_ m <= network_v4.prefix_length_ n ->
  in_network m (address_v4.to_uint (network_v4.address_ n)) -> in_network n x -> in_network m x.
Proof.
  intros [_ Hn] [_ Hm] Hle Hin Hx. unfold in_network, host_bits in *. rewrite <- Hin.
  set (p := network_v4.prefix_length_ n) in *. set (q := network_v4.prefix_length_ m) in *.
  replace (32 - q) with ((32 - p) + (p - q)) by lia. rewrite <- !Z.shiftr_shiftr by lia. by rewrite Hx.
Qed.

Lemma network_value n : network_ok n -> let k := host_bits n in
  address_v4.to_uint (network_v4.network n) = Z.shiftr (address_v4.to_uint (network_v4.address_ n)) k * 2 ^ k /\
  address_v4.to_uint (network_v4.broadcast n) = address_v4.to_uint (network_v4.network n) + (2 ^ k - 1).
Proof.
  intros Hn k. pose proof Hn as [Ha Hp]. destruct (v4_uint _ Ha) as [Hr _].
  assert (in_network n (address_v4.to_uint (network_v4.address_ n))) as Hin by done.
  apply in_network_masked in Hin; [|done..]. rewrite land_mask, Z.shiftl_mul_pow2 in Hin by (done || lia).
  unfold host_bits in *. split; [by rewrite <- Hin|]. unfold network_v4.broadcast. rewrite netmask_value by done.
  set (p := network_v4.prefix_length_ n) in *. set (v := address_v4.to_uint (network_v4.network n)) in *.
  assert (Z.lxor (mask_of p) 0xFFFFFFFF = Z.ones (32 - p)) as ->.
  { by apply mask_complement. }
  assert (Z.land v (Z.ones (32 - p)) = 0) as Hl.
  { rewrite Z.land_ones, <- Hin by lia. apply Z.mod_mul. lia. }
  pose proof (Z.add_lor_land v (Z.ones (32 - p))) as Hlor. rewrite Hl, Z.add_0_r in Hlor. rewrite Hlor, to_from_small.
  - unfold k, host_bits. rewrite Z.ones_equiv. fold p. lia.
  - rewrite Z.ones_equiv, <- Hin. set (y := Z.shiftr _ _).
    assert (0 <= y < 2 ^ p) as Hy.
    { unfold y. rewrite Z.shiftr_div_pow2 by lia. destruct Hr as [Hr0 Hr]. split; [by apply Z.div_pos; lia|].
      apply Z.div_lt_upper_bound; [lia|]. rewrite <- Z.pow_add_r by lia. by replace (32 - p + p) with 32 by lia. }
    assert (2 ^ 32 = 2 ^ p * 2 ^ (32 - p)) as Hpow by (rewrite <- Z.pow_add_r by lia; f_equal; lia).
    unfold in_range. rewrite Hpow. pose proof (Z.pow_pos_nonneg 2 (32 - p)). nia.
Qed.

(** ** Properties *)

(** The kernel's memory of an end point and back, for both families and both byte
    orders: address and port are read back as they were written, a scope id modulo
    2^32, and the size is that of the structure of the family. *)
Theorem endpoint_roundtrip plat a p : address_ok a -> in_range 16 p ->
  let e := endpoint.from_address plat a p in
  endpoint_ok e /\ endpoint.port e = p /\ endpoint.is_v4 plat e = is_v4 a /\
  endpoint.size plat e = (if is_v4 a then 16 else 28)%nat /\
  endpoint.get_address plat e
  = match a with ipv6 v6 => ipv6 (address_v6.mk (address_v6.bytes v6) (wrap 32 (address_v6.scope_id_ v6))) | _ => a end.
Proof.
  intros Ha Hp e. destruct a as [a|a]; cbn [address_ok is_v4] in *.
  - destruct (v4_uint a Ha) as [Hr Ea]. destruct Ha as [Hlen Hok].
    destruct (sockaddr_in_fields plat p (be_bytes 4 (address_v4.to_uint a)) (length_be_bytes _ _) (be_bytes_ok _ _)) as (He & Hf & Hport & Haddr).
    assert (endpoint.is_v4 plat e = true) as Hv4.
    { unfold endpoint.is_v4. change e with (endpoint.sockaddr_in plat p (be_bytes 4 (address_v4.to_uint a))). by rewrite Hf. }
    split; [done|]. split; [etrans; [exact Hport|by apply wrap_small]|]. split; [done|].
    split; [unfold endpoint.size; by rewrite Hv4|]. unfold endpoint.get_address. rewrite Hv4.
    change e with (endpoint.sockaddr_in plat p (be_bytes 4 (address_v4.to_uint a))). rewrite Haddr, be_value_bytes.
    change (256 ^ Z.of_nat 4) with (2 ^ 32). rewrite Z.mod_small by done. by rewrite Ea.
  - destruct Ha as (Hlen & Hok & Hs).
    destruct (sockaddr_in6_fields plat p (address_v6.to_bytes a) (wrap 32 (address_v6.scope_id_ a)) Hlen Hok) as (He & Hf & Hport & Haddr & Hscope).
    assert (endpoint.is_v4 plat e = false) as Hv4.
    { unfold endpoint.is_v4. change e with (endpoint.sockaddr_in6 plat p (address_v6.to_bytes a) (wrap 32 (address_v6.scope_id_ a))). by rewrite Hf. }
    split; [done|]. split; [etrans; [exact Hport|by apply wrap_small]|]. split; [done|].
    split; [unfold endpoint.size; by rewrite Hv4|]. unfold endpoint.get_address. rewrite Hv4.
    change e with (endpoint.sockaddr_in6 plat p (address_v6.to_bytes a) (wrap 32 (address_v6.scope_id_ a))).
    rewrite Haddr, Hscope. unfold wrap. by rewrite Z.mod_mod.
Qed.

(** The setters change what they are named after and nothing else. *)
Theorem endpoint_setters plat e p a : endpoint_ok e -> in_range 16 p ->
  endpoint.port (endpoint.set_port p e) = p /\
  endpoint.get_address plat (endpoint.set_port p e) = endpoint.get_address plat e /\
  (address_ok a -> endpoint.port (endpoint.set_address plat a e) = endpoint.port e).
Proof.
  intros [Hlen Hok] Hp. unfold sizeof_sockaddr_in6 in Hlen.
  assert (forall off n, (off + n <= 2)%nat \/ (4 <= off)%nat -> slice off n (endpoint.set_port p e) = slice off n e) as Hkeep.
  { intros off n Hcase. apply slice_store; rewrite length_be_bytes; lia. }
  split; [|split].
  - unfold endpoint.port, endpoint.set_port.
    pose proof (slice_stored (be_bytes 2 p) e 2) as Hst. rewrite length_be_bytes in Hst. rewrite Hst by lia.
    rewrite be_value_bytes. by apply Z.mod_small.
  - unfold endpoint.get_address, endpoint.is_v4, endpoint.family. rewrite !Hkeep by lia. done.
  - intros Ha. destruct (endpoint_roundtrip plat a (endpoint.port e) Ha) as (_ & Hport & _); [by apply port_range|]. exact Hport.
Qed.

(** End points are ordered like integers: there is a number for each end point such
    that [operator<] and [operator==] compare the numbers, so that they can be the
    keys of an ordered map. *)
Theorem endpoint_order plat e1 e2 : endpoint_ok e1 -> endpoint_ok e2 ->
  let rank e := address_rank (endpoint.get_address plat e) * 2 ^ 16 + endpoint.port e in
  endpoint.lt plat e1 e2 = (rank e1 <? rank e2) /\ endpoint.eq plat e1 e2 = (rank e1 =? rank e2).
Proof.
  intros H1 H2 rank. destruct (address_order _ _ (get_address_ok plat e1 H1) (get_address_ok plat e2 H2)) as [Hlt Heq].
  pose proof (port_range e1 H1) as P1. pose proof (port_range e2 H2) as P2. unfold in_range in P1, P2.
  unfold endpoint.lt, endpoint.eq, rank. rewrite Hlt, Heq.
  set (r1 := address_rank (endpoint.get_address plat e1)). set (r2 := address_rank (endpoint.get_address plat e2)).
  set (p1 := endpoint.port e1) in *. set (p2 := endpoint.port e2) in *. clearbody r1 r2 p1 p2.
  destruct (Z.ltb_spec r1 r2), (Z.eqb_spec r1 r2); cbn [negb andb]; split; try lia;
    apply Bool.eq_iff_eq_true; rewrite ?Z.ltb_lt, ?Z.eqb_eq; lia.
Qed.

(** A network made from a mask: it is made exactly if the mask is [p] ones followed by
    zeros, and then its prefix is [p] and its own mask is the given one. *)
Theorem mask_roundtrip addr p : v4_ok addr -> 0 <= p <= 32 ->
  let n := network_v4.mk addr p in
  network_v4.from_prefix addr p = inr n /\ network_v4.from_mask addr (network_v4.netmask n) = inr n /\
  (forall mask m, v4_ok mask -> network_v4.from_mask addr mask = inr m ->
    network_v4.netmask m = mask /\ 0 <= network_v4.prefix_length_ m <= 32).
Proof.
  intros Ha Hp n. assert (network_ok n) as Hn by done. split; [|split].
  - unfold network_v4.from_prefix. destruct (Z.ltb_spec 32 p); [lia|done].
  - pose proof (canonical_ok n Hn) as Hc. unfold network_v4.canonical, network_v4.from_mask in *.
    destruct (network_v4.mask_loop _ _ _); [done|]. injection Hc as ->. done.
  - intros [l] m [Hlen _] Hm. cbn in Hlen. unfold network_v4.from_mask in Hm. cbn [address_v4.to_bytes address_v4.bytes] in Hm.
    destruct (network_v4.mask_loop l false 0) as [err|q] eqn:Hl; [done|]. injection Hm as <-. cbn [network_v4.prefix_length_].
    destruct (mask_loop_inv l q Hlen Hl) as [Hmask Hq]. by rewrite Hmask.
Qed.

(** C39. [is_subnet_of] is inclusion: a network is a subnet of another exactly if its prefix
    is longer and each of its addresses is an address of the other. *)
Theorem subnet_is_inclusion n m : network_ok n -> network_ok m ->
  exists b, network_v4.is_subnet_of n m = inr b /\
    (b = true <-> network_v4.prefix_length_ m < network_v4.prefix_length_ n /\
      forall x, in_range 32 x -> in_network n x -> in_network m x).
Proof.
  intros Hn Hm. pose proof Hn as [Ha Hp]. pose proof Hm as [Hb Hq]. destruct (v4_uint _ Ha) as [Hr _].
  unfold network_v4.is_subnet_of. destruct (Z.leb_spec (network_v4.prefix_length_ n) (network_v4.prefix_length_ m)).
  { exists false. split; [done|]. split; [done|lia]. }
  unfold network_v4.from_prefix. destruct (Z.ltb_spec 32 (network_v4.prefix_length_ m)); [lia|].
  set (me := network_v4.mk (network_v4.address_ n) (network_v4.prefix_length_ m)).
  assert (network_ok me) as Hme by done. rewrite !canonical_ok by done. eexists. split; [done|].
  unfold network_v4.eq. cbn [network_v4.address_ network_v4.prefix_length_ me]. rewrite Z.eqb_refl, andb_true_r.
  rewrite v4_eq_uint by apply from_uint_ok. rewrite Z.eqb_eq.
  pose proof (in_network_masked m (address_v4.to_uint (network_v4.address_ n)) Hm Hr) as Hiff.
  pose proof (in_network_masked me (address_v4.to_uint (network_v4.address_ n)) Hme Hr) as Hself.
  assert (in_network me (address_v4.to_uint (network_v4.address_ n))) as Hin by done. apply Hself in Hin.
  cbn [network_v4.prefix_length_ me] in Hin. rewrite Hin in Hiff. split.
  - intros Heq. split; [done|]. intros x Hx Hxn. apply (in_network_coarser n m x); [done|done|lia| |done]. by apply Hiff.
  - intros [_ Hall]. symmetry. apply Hiff. by apply Hall.
Qed.

(** The range [hosts] of a network of more than one address: all its addresses but the
    first, which names the network, and the last, which is for broadcasts. *)
Theorem hosts_of_network n x : network_ok n -> network_v4.prefix_length_ n < 32 -> in_range 32 x ->
  range_finds (address_v4.from_uint x) (network_v4.hosts n) = true <->
  in_network n x /\ x <> address_v4.to_uint (network_v4.network n) /\ x <> address_v4.to_uint (network_v4.broadcast n).
Proof.
  intros Hn Hp32 Hx. destruct (network_value n Hn) as [Hnet Hbc]. pose proof Hn as [Ha Hp]. destruct (v4_uint _ Ha) as [Hr _].
  destruct (v4_uint (network_v4.broadcast n) (from_uint_ok _)) as [Hb _].
  destruct (v4_uint (network_v4.network n) (from_uint_ok _)) as [Hv _]. unfold network_v4.hosts, network_v4.is_host.
  destruct (Z.eqb_spec (network_v4.prefix_length_ n) 32); [lia|]. unfold range_finds. cbn [fst snd].
  unfold address_v4.lt. rewrite !to_from_small by (apply wrap_range || done).
  set (v := address_v4.to_uint (network_v4.network n)) in *. set (b := address_v4.to_uint (network_v4.broadcast n)) in *.
  assert (2 <= 2 ^ host_bits n) as Hk.
  { unfold host_bits. change 2 with (2 ^ 1) at 1. apply Z.pow_le_mono_r; lia. }
  unfold in_range in *. rewrite wrap_small, to_from_small by (unfold in_range; lia).
  rewrite andb_true_iff, negb_true_iff, Z.ltb_ge, Z.ltb_lt. unfold in_network.
  set (y := Z.shiftr (address_v4.to_uint (network_v4.address_ n)) (host_bits n)) in *.
  assert (Z.shiftr x (host_bits n) = y <-> v <= x < v + 2 ^ host_bits n) as ->; [|lia].
  rewrite Z.shiftr_div_pow2 by (unfold host_bits; lia). rewrite Hnet. set (k := 2 ^ host_bits n) in *.
  pose proof (Z.div_mod x k). pose proof (Z.mod_pos_bound x k). split; [intros <-; lia|]. intros. symmetry. apply (Z.div_unique x k y (x - y * k)); lia.
Qed.

(** The range of the last address alone has one element and [find] does not find it. *)
Example last_host_not_found :
  let n := network_v4.mk (address_v4.from_uint 0xFFFFFFFF) 32 in
  range_size (network_v4.hosts n) = 1 /\ range_finds (address_v4.from_uint 0xFFFFFFFF) (network_v4.hosts n) = false.
Proof. by vm_compute. Qed.

(** ** Examples *)

Definition localhost : address := ipv4 (address_v4.from_uint 0x7F000001).
Definition link_local : address := ipv6 (address_v6.mk (store 0 [0xfe; 0x80] (replicate 15 0 ++ [1])) 7).

Lemma localhost_ok : address_ok localhost.
Proof. apply from_uint_ok. Qed.

Lemma endpoint_roundtrip_witness :
  endpoint.from_address x86_64 localhost 9990 = [2; 0; 39; 6; 127; 0; 0; 1] ++ replicate 20 0 /\
  endpoint.get_address x86_64 (endpoint.from_address x86_64 localhost 9990) = localhost.
Proof.
  split; [by vm_compute|].
  destruct (endpoint_roundtrip x86_64 localhost 9990 localhost_ok) as (_ & _ & _ & _ & H); [by vm_compute|exact H].
Defined.

Definition office : network_v4.t := network_v4.mk (address_v4.from_uint 0x0A010203) 24.
Definition company : network_v4.t := network_v4.mk (address_v4.from_uint 0x0A000000) 8.

Lemma office_ok : network_ok office.
Proof. split; [apply from_uint_ok|cbn; lia]. Qed.
Lemma company_ok : network_ok company.
Proof. split; [apply from_uint_ok|cbn; lia]. Qed.

Lemma subnet_is_inclusion_witness : network_v4.is_subnet_of office company = inr true /\
  forall x, in_range 32 x -> in_network office x -> in_network company x.
Proof.
  destruct (subnet_is_inclusion office company office_ok company_ok) as (b & Hb & Hiff).
  assert (b = true) as -> by (vm_compute in Hb; congruence). split; [exact Hb|]. by apply Hiff.
Defined.
