(* ===== verification/AsioSocketOps.v ===== *)
(** * asio: system calls on sockets

    [socket_ops] wraps the calls of the operating system on sockets: it turns
    [errno] into an [error_code], waits where the user asked for blocking calls,
    and repeats what a signal interrupts.  Modelled as compiled for Linux.  The
    kernel is an argument; each call of it is emitted. *)
From S2P Require Import Prelude.
Local Open Scope Z_scope.

(** ** Error codes *)

Inductive Category := SystemCategory | MiscCategory.

Record error_code := mkEc { category : Category; value : Z }.

#[global] Instance Category_eq_dec : EqDecision Category.
Proof. solve_decision. Defined.
#[global] Instance error_code_eq_dec : EqDecision error_code.
Proof. solve_decision. Defined.

Definition no_error : error_code := mkEc SystemCategory 0.
Definition system_code (errno : Z) : error_code := mkEc SystemCategory errno.

(** The conversion to [bool]. *)
Definition failed (ec : error_code) : bool := negb (value ec =? 0).

(** <errno.h> *)
Definition EINTR : Z := 4.
Definition EBADF : Z := 9.
Definition EAGAIN : Z := 11.
Definition EINVAL : Z := 22.
Definition ENOTTY : Z := 25.
Definition EPROTO : Z := 71.
Definition ENOTSOCK : Z := 88.
Definition ECONNABORTED : Z := 103.
Definition ENOBUFS : Z := 105.
Definition EINPROGRESS : Z := 115.

Module error.
Definition interrupted := system_code EINTR.
Definition bad_descriptor := system_code EBADF.
Definition try_again := system_code EAGAIN.
Definition would_block := system_code EAGAIN.
Definition invalid_argument := system_code EINVAL.
Definition not_socket := system_code ENOTSOCK.
Definition connection_aborted := system_code ECONNABORTED.
Definition no_buffer_space := system_code ENOBUFS.
Definition in_progress := system_code EINPROGRESS.
Definition already_open := mkEc MiscCategory 1.
Definition eof := mkEc MiscCategory 2.
End error.

(** ** The kernel *)

Definition invalid_socket : Z := -1.
Definition socket_error_retval : Z := -1.

Definition POLLIN : Z := 1.
Definition POLLPRI : Z := 2.
Definition POLLOUT : Z := 4.
Definition POLLERR : Z := 8.
Definition POLLHUP : Z := 16.
Definition FIONBIO : Z := 0x5421.
Definition FIONREAD : Z := 0x541B.
Definition SIOCATMARK : Z := 0x8905.
Definition SOL_SOCKET : Z := 1.
Definition SO_ERROR : Z := 4.
Definition SO_SNDBUF : Z := 7.
Definition SO_RCVBUF : Z := 8.
Definition SO_LINGER : Z := 13.
Definition MSG_NOSIGNAL : Z := 0x4000.
Definition SOCK_STREAM : Z := 1.
Definition SOCK_DGRAM : Z := 2.
Definition custom_socket_option_level : Z := 0xA5100000 - 2 ^ 32.
Definition enable_connection_aborted_option : Z := 1.
Definition always_fail_option : Z := 2.

(** A call and what the kernel reads of its arguments; [capacity] is the size of
    all buffers together. *)
Inductive Syscall :=
| SysSocket (af type protocol : Z)
| SysAccept (s : Z) (addrlen : option Z)
| SysBind (s : Z) (addr : list Z)
| SysListen (s backlog : Z)
| SysConnect (s : Z) (addr : list Z)
| SysClose (s : Z)
| SysShutdown (s what : Z)
| SysIoctl (s cmd arg : Z)
| SysPoll (s events timeout : Z)
| SysRecvmsg (s capacity flags : Z)
| SysSendmsg (s : Z) (bytes : list Z) (flags : Z)
| SysSetsockopt (s level optname : Z) (optval : list Z) (optlen : Z)
| SysGetsockopt (s level optname optlen : Z)
| SysGetsockname (s addrlen : Z)
| SysGetpeername (s addrlen : Z).

#[global] Instance Syscall_eq_dec : EqDecision Syscall.
Proof. solve_decision. Defined.

(** -1 and an error number, or the result and what the kernel writes: the bytes
    of [recvmsg], the length of [accept]'s address, the argument of [ioctl], the
    value and the length of [getsockopt], and the length and the bytes of the address
    of [getsockname] and [getpeername]. *)
Inductive Answer :=
| Failed (errno : Z)
| Returned (ret : Z) (written : list Z).

Class Kernel (K : Type) := { syscall : Syscall -> K -> Answer * K }.

(** Only finitely often does a call fail for a reason that makes its caller try
    again, and a wait does not fail for the reason it is there for. *)
Class PatientKernel (K : Type) `{Kernel K} := {
  patience : K -> nat;
  patience_retry c k e k' : syscall c k = (Failed e, k') ->
    e = EAGAIN \/ e = EINTR \/ e = ECONNABORTED \/ e = EPROTO -> (patience k' < patience k)%nat;
  patience_poll s events timeout k a k' : syscall (SysPoll s events timeout) k = (a, k') ->
    (patience k' <= patience k)%nat;
  poll_error_again s events timeout k e k' : syscall (SysPoll s events timeout) k = (Failed e, k') -> e <> EAGAIN;
}.

(** What a thread sees. *)
Record Thread (K : Type) := mkThread { errno_ : Z; kernel_ : K }.
Arguments mkThread {K} _ _.
Arguments errno_ {K} _.
Arguments kernel_ {K} _.

(** ** State flags *)

Definition user_set_non_blocking : Z := 1.
Definition internal_non_blocking : Z := 2.
Definition non_blocking : Z := Z.lor user_set_non_blocking internal_non_blocking.
Definition enable_connection_aborted : Z := 4.
Definition user_set_linger : Z := 8.
Definition stream_oriented : Z := 16.
Definition datagram_oriented : Z := 32.
Definition possible_dup : Z := 64.

Definition has (state flags : Z) : bool := negb (Z.land state flags =? 0).

Module socket_ops.
Section socket_ops.
Context {K : Type} `{!Kernel K}.

Local Abbreviation M := (comp (Thread K) Syscall).
Implicit Types (s state : Z) (ec : error_code).

Definition call (c : Syscall) : M (Z * list Z) :=
  t ← get_state;
  emit c ;;
  match syscall c (kernel_ t) with
  | (Failed e, k) => modify (fun _ => mkThread e k) ;; (mret (-1, []))
  | (Returned r written, k) => modify (fun _ => mkThread (errno_ t) k) ;; (mret (r, written))
  end.

Definition clear_last_error : M unit := modify (fun t => mkThread 0 (kernel_ t)).

Definition error_wrapper {A} (m : M A) : M (A * error_code) :=
  a ← m; t ← get_state; mret (a, system_code (errno_ t)).

(** [ec = error_code ()] if the call succeeded. *)
Definition clear_if (ok : bool) ec : error_code := if ok then no_error else ec.

(** The pattern of [listen], [bind], [shutdown]: a check, a call, an error code. *)
Definition simple_call s (c : Syscall) : M (Z * error_code) :=
  if s =? invalid_socket then mret (socket_error_retval, error.bad_descriptor)
  else
    clear_last_error ;;
    (r ← error_wrapper (call c);
     mret (r.1.1, clear_if (r.1.1 =? 0) r.2)).

(** ** Waiting *)

Definition poll s events timeout : M (Z * error_code) :=
  clear_last_error ;;
  (r ← error_wrapper (call (SysPoll s events timeout)); mret (r.1.1, r.2)).

(** [poll_read], [poll_write] and [poll_error] differ in the events. *)
Definition poll_for events s state (msec : Z) : M (Z * error_code) :=
  if s =? invalid_socket then mret (socket_error_retval, error.bad_descriptor)
  else
    r ← poll s events (if has state user_set_non_blocking then 0 else msec);
    mret (r.1, if r.1 =? 0 then (if has state user_set_non_blocking then error.would_block else no_error)
               else clear_if (0 <? r.1) r.2).

Definition poll_read := poll_for POLLIN.
Definition poll_write := poll_for POLLOUT.
Definition poll_error := poll_for (Z.lor (Z.lor POLLPRI POLLERR) POLLHUP).

Definition poll_connect s (msec : Z) : M (Z * error_code) :=
  if s =? invalid_socket then mret (socket_error_retval, error.bad_descriptor)
  else r ← poll s POLLOUT msec; mret (r.1, clear_if (0 <=? r.1) r.2).

(** ** Creation and destruction *)

Definition socket (af type protocol : Z) : M (Z * error_code) :=
  clear_last_error ;;
  (r ← error_wrapper (call (SysSocket af type protocol));
   mret (r.1.1, clear_if (0 <=? r.1.1) r.2)).

Definition bind s (addr : list Z) : M (Z * error_code) := simple_call s (SysBind s addr).
Definition listen s (backlog : Z) : M (Z * error_code) := simple_call s (SysListen s backlog).
Definition shutdown s (what : Z) : M (Z * error_code) := simple_call s (SysShutdown s what).

(** The result, the new state and the error code. *)
Definition setsockopt s state (level optname : Z) (optval : list Z) (optlen : Z) : M (Z * Z * error_code) :=
  if s =? invalid_socket then mret (socket_error_retval, state, error.bad_descriptor)
  else if (level =? custom_socket_option_level) && (optname =? always_fail_option)
  then mret (socket_error_retval, state, error.invalid_argument)
  else if (level =? custom_socket_option_level) && (optname =? enable_connection_aborted_option) then
    if negb (optlen =? 4) then mret (socket_error_retval, state, error.invalid_argument)
    else mret (0, if hd 0 optval =? 0 then Z.ldiff state enable_connection_aborted
                  else Z.lor state enable_connection_aborted, no_error)
  else
    let state := if (level =? SOL_SOCKET) && (optname =? SO_LINGER)
                 then Z.lor state user_set_linger else state in
    clear_last_error ;;
    (r ← error_wrapper (call (SysSetsockopt s level optname optval optlen));
     mret (r.1.1, state, clear_if (r.1.1 =? 0) r.2)).

(** The result, the value, its length and the error code. *)
Definition getsockopt s state (level optname optval optlen : Z) : M (Z * Z * Z * error_code) :=
  if s =? invalid_socket then mret (socket_error_retval, optval, optlen, error.bad_descriptor)
  else if (level =? custom_socket_option_level) && (optname =? always_fail_option)
  then mret (socket_error_retval, optval, optlen, error.invalid_argument)
  else if (level =? custom_socket_option_level) && (optname =? enable_connection_aborted_option) then
    if negb (optlen =? 4) then mret (socket_error_retval, optval, optlen, error.invalid_argument)
    else mret (0, if has state enable_connection_aborted then 1 else 0, optlen, no_error)
  else
    clear_last_error ;;
    (r ← error_wrapper (call (SysGetsockopt s level optname optlen));
     let optval := default optval (r.1.2 !! 0%nat) in
     let optlen := default optlen (r.1.2 !! 1%nat) in
     let halved := (r.1.1 =? 0) && (level =? SOL_SOCKET) && (optlen =? 4) &&
                   ((optname =? SO_SNDBUF) || (optname =? SO_RCVBUF)) in
     mret (r.1.1, if halved then Z.quot optval 2 else optval, optlen, clear_if (r.1.1 =? 0) r.2)).

(** The pattern of [getsockname] and [getpeername]: the result, the memory of the
    address, its length and the error code. *)
Definition name_call s (c : Syscall) (addr : list Z) : M (Z * list Z * Z * error_code) :=
  if s =? invalid_socket then mret (socket_error_retval, addr, Z.of_nat (length addr), error.bad_descriptor)
  else
    clear_last_error ;;
    (r ← error_wrapper (call c);
     let bytes := take (length addr) (drop 1 r.1.2) in
     mret (r.1.1, bytes ++ drop (length bytes) addr, default (Z.of_nat (length addr)) (head r.1.2),
           clear_if (r.1.1 =? 0) r.2)).

Definition getsockname s (addr : list Z) : M (Z * list Z * Z * error_code) :=
  name_call s (SysGetsockname s (Z.of_nat (length addr))) addr.
Definition getpeername s (addr : list Z) : M (Z * list Z * Z * error_code) :=
  name_call s (SysGetpeername s (Z.of_nat (length addr))) addr.

(** [::close] between [clear_last_error] and [error_wrapper]. *)
Definition sys_close s : M (Z * error_code) :=
  clear_last_error ;; (r ← error_wrapper (call (SysClose s)); mret (r.1.1, r.2)).

(** The result, the new state and the error code. *)
Definition close s state (destruction : bool) ec : M (Z * Z * error_code) :=
  if s =? invalid_socket then mret (0, state, no_error)
  else
    state ← (if destruction && has state user_set_linger
             then r ← setsockopt s state SOL_SOCKET SO_LINGER [0; 0] 8; mret r.1.2
             else mret state);
    r ← sys_close s;
    r ← (if negb (r.1 =? 0) && (bool_decide (r.2 = error.would_block) || bool_decide (r.2 = error.try_again))
         then call (SysIoctl s FIONBIO 0) ;;
              (r ← sys_close s; mret (r.1, Z.ldiff state non_blocking, r.2))
         else mret (r.1, state, r.2));
    mret (r.1.1, r.1.2, clear_if (r.1.1 =? 0) r.2).

(** ** Modes *)

Definition set_mode s (value : bool) : M (Z * error_code) :=
  clear_last_error ;;
  (r ← error_wrapper (call (SysIoctl s FIONBIO (if value then 1 else 0))); mret (r.1.1, r.2)).

(** The state after the mode of the user changed. *)
Definition with_user_mode state (value : bool) : Z :=
  if value then Z.lor state user_set_non_blocking
  else Z.ldiff state (Z.lor user_set_non_blocking internal_non_blocking).

(** Whether it succeeded, the new state and the error code. *)
Definition set_user_non_blocking s state (value : bool) : M (bool * Z * error_code) :=
  if s =? invalid_socket then mret (false, state, error.bad_descriptor)
  else
    r ← set_mode s value;
    if 0 <=? r.1 then mret (true, with_user_mode state value, no_error) else mret (false, state, r.2).

Definition set_internal_non_blocking s state (value : bool) : M (bool * Z * error_code) :=
  if s =? invalid_socket then mret (false, state, error.bad_descriptor)
  else if negb value && has state user_set_non_blocking then mret (false, state, error.invalid_argument)
  else
    r ← set_mode s value;
    if 0 <=? r.1 then
      mret (true, if value then Z.lor state internal_non_blocking
                  else Z.ldiff state internal_non_blocking, no_error)
    else mret (false, state, r.2).

(** The result, the new state, the argument and the error code. *)
Definition ioctl s state (cmd arg : Z) : M (Z * Z * Z * error_code) :=
  if s =? invalid_socket then mret (socket_error_retval, state, arg, error.bad_descriptor)
  else
    clear_last_error ;;
    (r ← error_wrapper (call (SysIoctl s cmd arg));
     let arg := default arg (head r.1.2) in
     if 0 <=? r.1.1 then
       mret (r.1.1, if cmd =? FIONBIO then with_user_mode state (negb (arg =? 0)) else state, arg, no_error)
     else mret (r.1.1, state, arg, r.2)).

(** A value the kernel writes, and the error code; [errno] is not cleared. *)
Definition query s (cmd : Z) : M (Z * error_code) :=
  r ← error_wrapper (call (SysIoctl s cmd 0));
  let ec := clear_if (r.1.1 =? 0) r.2 in
  mret (default 0 (head r.1.2), if value ec =? ENOTTY then error.not_socket else ec).

Definition sockatmark s : M (bool * error_code) :=
  if s =? invalid_socket then mret (false, error.bad_descriptor)
  else r ← query s SIOCATMARK; mret (if failed r.2 then false else negb (r.1 =? 0), r.2).

(** The conversion of an [int] to [size_t] wraps around. *)
Definition available s : M (Z * error_code) :=
  if s =? invalid_socket then mret (0, error.bad_descriptor)
  else r ← query s FIONREAD; mret (if failed r.2 then 0 else u64 r.1, r.2).

(** ** Accepting *)

(** The new socket, the length of the address and the error code. *)
Definition accept s (addrlen : option Z) : M (Z * option Z * error_code) :=
  if s =? invalid_socket then mret (invalid_socket, addrlen, error.bad_descriptor)
  else
    clear_last_error ;;
    (r ← error_wrapper (call (SysAccept s addrlen));
     let addrlen := (fun n => default n (head r.1.2)) <$> addrlen in
     mret (r.1.1, addrlen, clear_if (negb (r.1.1 =? invalid_socket)) r.2)).

(** The test that follows a failed [accept]: whether to try again later. *)
Definition accept_again state ec : bool :=
  if bool_decide (ec = error.would_block) || bool_decide (ec = error.try_again)
  then true
  else if bool_decide (ec = error.connection_aborted) || (value ec =? EPROTO)
  then negb (has state enable_connection_aborted)
  else false.

Fixpoint sync_accept (fuel : nat) s state (addrlen : option Z) : M (Z * option Z * error_code) :=
  match fuel with
  | O => fail_with OutOfFuel
  | S fuel =>
      '(new_socket, addrlen, ec) ← accept s addrlen;
      if negb (new_socket =? invalid_socket) then mret (new_socket, addrlen, ec)
      else if (bool_decide (ec = error.would_block) || bool_decide (ec = error.try_again)) &&
              has state user_set_non_blocking
      then mret (invalid_socket, addrlen, ec)
      else if accept_again state ec then
        r ← poll_read s 0 (-1);
        if r.1 <? 0 then mret (invalid_socket, addrlen, r.2) else sync_accept fuel s state addrlen
      else mret (invalid_socket, addrlen, ec)
  end.

(** Whether the operation is complete, the new socket, the length and the error. *)
Fixpoint non_blocking_accept (fuel : nat) s state (addrlen : option Z) : M (bool * Z * option Z * error_code) :=
  match fuel with
  | O => fail_with OutOfFuel
  | S fuel =>
      '(new_socket, addrlen, ec) ← accept s addrlen;
      if negb (new_socket =? invalid_socket) then mret (true, new_socket, addrlen, ec)
      else if bool_decide (ec = error.interrupted) then non_blocking_accept fuel s state addrlen
      else mret (negb (accept_again state ec), new_socket, addrlen, ec)
  end.

(** ** Connecting *)

Definition connect s (addr : list Z) : M (Z * error_code) :=
  if s =? invalid_socket then mret (socket_error_retval, error.bad_descriptor)
  else
    clear_last_error ;;
    (r ← error_wrapper (call (SysConnect s addr));
     mret (r.1.1, if r.1.1 =? 0 then no_error
                  else if bool_decide (r.2 = error.try_again) then error.no_buffer_space else r.2)).

Definition sync_connect s (addr : list Z) : M error_code :=
  r ← connect s addr;
  if negb (bool_decide (r.2 = error.in_progress)) && negb (bool_decide (r.2 = error.would_block))
  then mret r.2
  else
    w ← poll_connect s (-1);
    if w.1 <? 0 then mret w.2
    else
      g ← getsockopt s 0 SOL_SOCKET SO_ERROR 0 4;
      if g.1.1.1 =? socket_error_retval then mret g.2 else mret (system_code g.1.1.2).

(** Whether the connection attempt is over, and its result. *)
Definition non_blocking_connect s ec : M (bool * error_code) :=
  r ← call (SysPoll s POLLOUT 0);
  if r.1 =? 0 then mret (false, ec)
  else
    g ← getsockopt s 0 SOL_SOCKET SO_ERROR 0 4;
    mret (true, if g.1.1.1 =? 0 then system_code g.1.1.2 else g.2).

(** ** Receiving and sending *)

(** The result, the bytes put into the buffers and the error code. *)
Definition recv s (capacity flags : Z) : M (Z * list Z * error_code) :=
  clear_last_error ;;
  (r ← error_wrapper (call (SysRecvmsg s capacity flags));
   mret (r.1.1, r.1.2, clear_if (0 <=? r.1.1) r.2)).

(** The loop of [sync_recv]. *)
Fixpoint recv_loop (fuel : nat) s state (capacity flags : Z) : M (Z * list Z * error_code) :=
  match fuel with
  | O => fail_with OutOfFuel
  | S fuel =>
      '(bytes, data, ec) ← recv s capacity flags;
      if 0 <? bytes then mret (bytes, data, ec)
      else if has state stream_oriented && (bytes =? 0) then mret (0, [], error.eof)
      else if has state user_set_non_blocking
           || (negb (bool_decide (ec = error.would_block)) && negb (bool_decide (ec = error.try_again)))
      then mret (0, [], ec)
      else
        r ← poll_read s 0 (-1);
        if r.1 <? 0 then mret (0, [], r.2) else recv_loop fuel s state capacity flags
  end.

Definition sync_recv (fuel : nat) s state (capacity flags : Z) (all_empty : bool) : M (Z * list Z * error_code) :=
  if s =? invalid_socket then mret (0, [], error.bad_descriptor)
  else if all_empty && has state stream_oriented then mret (0, [], no_error)
  else recv_loop fuel s state capacity flags.

(** Whether the operation is complete; then the error code, the number of bytes
    and the bytes.  At the end of the stream the number is left as it was. *)
Fixpoint non_blocking_recv (fuel : nat) s (capacity flags : Z) (is_stream : bool) (transferred : Z)
    : M (bool * error_code * Z * list Z) :=
  match fuel with
  | O => fail_with OutOfFuel
  | S fuel =>
      '(bytes, data, ec) ← recv s capacity flags;
      if is_stream && (bytes =? 0) then mret (true, error.eof, transferred, [])
      else if bool_decide (ec = error.interrupted)
      then non_blocking_recv fuel s capacity flags is_stream transferred
      else if bool_decide (ec = error.would_block) || bool_decide (ec = error.try_again)
      then mret (false, ec, transferred, [])
      else if 0 <=? bytes then mret (true, no_error, bytes, data) else mret (true, ec, 0, [])
  end.

Definition send s (bytes : list Z) (flags : Z) : M (Z * error_code) :=
  clear_last_error ;;
  (r ← error_wrapper (call (SysSendmsg s bytes (Z.lor flags MSG_NOSIGNAL)));
   mret (r.1.1, clear_if (0 <=? r.1.1) r.2)).

Fixpoint send_loop (fuel : nat) s state (bytes : list Z) (flags : Z) : M (Z * error_code) :=
  match fuel with
  | O => fail_with OutOfFuel
  | S fuel =>
      '(sent, ec) ← send s bytes flags;
      if 0 <=? sent then mret (sent, ec)
      else if has state user_set_non_blocking
           || (negb (bool_decide (ec = error.would_block)) && negb (bool_decide (ec = error.try_again)))
      then mret (0, ec)
      else
        r ← poll_write s 0 (-1);
        if r.1 <? 0 then mret (0, r.2) else send_loop fuel s state bytes flags
  end.

Definition sync_send (fuel : nat) s state (bytes : list Z) (flags : Z) (all_empty : bool) : M (Z * error_code) :=
  if s =? invalid_socket then mret (0, error.bad_descriptor)
  else if all_empty && has state stream_oriented then mret (0, no_error)
  else send_loop fuel s state bytes flags.

Fixpoint non_blocking_send (fuel : nat) s (bytes : list Z) (flags transferred : Z) : M (bool * error_code * Z) :=
  match fuel with
  | O => fail_with OutOfFuel
  | S fuel =>
      '(sent, ec) ← send s bytes flags;
      if bool_decide (ec = error.interrupted) then non_blocking_send fuel s bytes flags transferred
      else if bool_decide (ec = error.would_block) || bool_decide (ec = error.try_again)
      then mret (false, ec, transferred)
      else if 0 <=? sent then mret (true, no_error, sent) else mret (true, ec, 0)
  end.

(** ** Facts *)

(** What a call leaves: its result, what was written, and the error code of a
    wrapper that clears [errno] first. *)
Definition answered (c : Syscall) (k : K) (r : Z) (written : list Z) ec (t : Thread K) : Prop :=
  (exists e k', syscall c k = (Failed e, k') /\ r = -1 /\ written = [] /\ ec = system_code e /\ t = mkThread e k') \/
  (exists k', syscall c k = (Returned r written, k') /\ ec = no_error /\ t = mkThread 0 k').

Lemma wrapped_call_spec (c : Syscall) t : exists r written ec t',
  (clear_last_error ;; error_wrapper (call c)) t = ([c], t', Ok (r, written, ec)) /\
  answered c (kernel_ t) r written ec t'.
Proof.
  unfold clear_last_error, error_wrapper, call, answered. run. cbn [kernel_].
  destruct (syscall c (kernel_ t)) as [[e|r written] k'] eqn:Hc; run; cbn [after app errno_].
  - exists (-1), [], (system_code e), (mkThread e k'). split; [done|]. left. by exists e, k'.
  - exists r, written, no_error, (mkThread 0 k'). split; [done|]. right. by exists k'.
Qed.

Lemma run_wrapped {A} (c : Syscall) (f : Z * list Z * error_code -> M A) t : exists r written ec t',
  (clear_last_error ;; (error_wrapper (call c) ≫= f)) t = after [c] (f (r, written, ec) t') /\
  answered c (kernel_ t) r written ec t'.
Proof.
  destruct (wrapped_call_spec c t) as (r & written & ec & t' & Hrun & Ha). exists r, written, ec, t'.
  split; [|done]. rewrite <- run_bind_bind. by rewrite (run_bind_ok _ _ _ _ _ _ Hrun).
Qed.

Lemma clear_answered c k r written ec t b : answered c k r written ec t -> (b = true -> r <> -1) ->
  clear_if b ec = ec.
Proof.
  intros [(e & k' & _ & -> & _)|(k' & _ & -> & _)] Hb; destruct b; try done. by destruct Hb.
Qed.

Lemma recv_spec s capacity flags t : exists r written ec t',
  recv s capacity flags t = ([SysRecvmsg s capacity flags], t', Ok (r, written, ec)) /\
  answered (SysRecvmsg s capacity flags) (kernel_ t) r written ec t'.
Proof.
  unfold recv. destruct (run_wrapped (SysRecvmsg s capacity flags)
    (fun r => mret (r.1.1, r.1.2, clear_if (0 <=? r.1.1) r.2)) t) as (r & written & ec & t' & Hrun & Ha).
  exists r, written, ec, t'. split; [|done]. rewrite Hrun. cbn [fst snd after mret comp_ret app].
  rewrite (clear_answered _ _ _ _ _ _ _ Ha); [done|lia].
Qed.

Lemma send_spec s bytes flags t : exists r written ec t',
  send s bytes flags t = ([SysSendmsg s bytes (Z.lor flags MSG_NOSIGNAL)], t', Ok (r, ec)) /\
  answered (SysSendmsg s bytes (Z.lor flags MSG_NOSIGNAL)) (kernel_ t) r written ec t'.
Proof.
  unfold send. destruct (run_wrapped (SysSendmsg s bytes (Z.lor flags MSG_NOSIGNAL))
    (fun r => mret (r.1.1, clear_if (0 <=? r.1.1) r.2)) t) as (r & written & ec & t' & Hrun & Ha).
  exists r, written, ec, t'. split; [|done]. rewrite Hrun. cbn [fst snd after mret comp_ret app].
  rewrite (clear_answered _ _ _ _ _ _ _ Ha); [done|lia].
Qed.

(** A wait without a limit for a socket of which the mode does not matter. *)
Lemma poll_spec events s t : s <> invalid_socket -> exists r written ec t',
  poll_for events s 0 (-1) t =
    ([SysPoll s events (-1)], t', Ok (r, if r =? 0 then no_error else ec)) /\
  answered (SysPoll s events (-1)) (kernel_ t) r written ec t'.
Proof.
  intros Hs. unfold poll_for. destruct (Z.eqb_spec s invalid_socket); [done|].
  change (has 0 user_set_non_blocking) with false. cbn match.
  unfold poll. rewrite run_bind_bind.
  destruct (run_wrapped (SysPoll s events (-1)) (fun r => mret (r.1.1, r.2) ≫= (fun r : Z * error_code =>
    mret (r.1, if r.1 =? 0 then no_error else clear_if (0 <? r.1) r.2))) t) as (r & written & ec & t' & Hrun & Ha).
  exists r, written, ec, t'. split; [|done]. etrans; [|etrans; [exact Hrun|]].
  - unfold clear_last_error. rewrite !run_modify. by rewrite run_bind_bind.
  - rewrite run_ret. cbn [fst snd after mret comp_ret app].
    rewrite (clear_answered _ _ _ _ _ _ _ Ha); [done|lia].
Qed.

(** *** Blocking and non-blocking calls *)

Definition waits (c : Syscall) : bool := match c with SysPoll _ _ _ => true | _ => false end.

(** Where the user asked for non-blocking calls there is no wait; elsewhere the
    call does not report that it would have had to wait. *)
Definition honours state (calls : list Syscall) ec : Prop :=
  if has state user_set_non_blocking then Forall (fun c => waits c = false) calls
  else ec <> error.would_block.

Context `{!PatientKernel K}.

Lemma honours_cons state c calls ec : has state user_set_non_blocking = false \/ waits c = false ->
  honours state calls ec -> honours state (c :: calls) ec.
Proof.
  unfold honours. destruct (has state _); [|done]. intros [?|Hc] Hcalls; [done|by apply Forall_cons].
Qed.

Lemma honours_one state c ec : waits c = false -> (has state user_set_non_blocking = false -> ec <> error.would_block) ->
  honours state [c] ec.
Proof.
  unfold honours. intros Hc Hec. destruct (has state _); [|by apply Hec]. by repeat apply Forall_cons.
Qed.

Lemma not_again e : e <> EAGAIN -> system_code e <> error.would_block.
Proof. intros He [= ?]. done. Qed.

(** One more round: after a failure to be repeated the thread waits, without a
    limit, and either the wait fails or the loop goes on. *)
Lemma wait_round {A} events s state (fail : error_code -> A) (again : M A) c t :
  s <> invalid_socket -> has state user_set_non_blocking = false ->
  (forall t', (patience (kernel_ t') <= patience (kernel_ t))%nat -> exists es t'' a,
    again t' = (es, t'', Ok a) /\ honours state es (c a)) ->
  (forall ec, c (fail ec) = ec) ->
  exists es t'' a,
    (poll_for events s 0 (-1) ≫= (fun r => if r.1 <? 0 then mret (fail r.2) else again)) t = (es, t'', Ok a) /\
    honours state es (c a).
Proof.
  intros Hs Hstate Hagain Hc. destruct (poll_spec events s t Hs) as (r & written & ec & t' & Hpoll & Ha).
  rewrite (run_bind_ok _ _ _ _ _ _ Hpoll). cbn [fst snd].
  destruct Ha as [(e & k' & Hk & -> & -> & -> & ->)|(k' & Hk & -> & ->)].
  - eexists _, _, _. split; [done|]. unfold honours. rewrite Hstate, Hc. apply not_again.
    by apply (poll_error_again _ _ _ _ _ _ Hk).
  - destruct (Z.ltb_spec r 0).
    + eexists _, _, _. split; [done|]. unfold honours. rewrite Hstate, Hc. by destruct (r =? 0).
    + destruct (Hagain (mkThread 0 k')) as (es & t'' & a & -> & Hes).
      { apply (patience_poll _ _ _ _ _ _ Hk). }
      eexists _, _, _. split; [done|]. apply honours_cons; [by left|done].
Qed.

Lemma again_patience c k r written ec t :
  answered c k r written ec t -> ec = error.would_block -> (patience (kernel_ t) < patience k)%nat.
Proof.
  intros [(e & k' & Hk & _ & _ & -> & ->)|(k' & _ & -> & _)] Hec; [|done].
  injection Hec as ->. apply (patience_retry _ _ _ _ Hk). by left.
Qed.

Lemma recv_loop_honours fuel s state capacity flags t :
  s <> invalid_socket -> (patience (kernel_ t) < fuel)%nat ->
  exists es t' r, recv_loop fuel s state capacity flags t = (es, t', Ok r) /\ honours state es r.2.
Proof.
  intros Hs. revert t. induction fuel as [|fuel IH]; intros t Hfuel; [lia|]. cbn [recv_loop].
  destruct (recv_spec s capacity flags t) as (r & written & ec & t' & Hrun & Ha).
  rewrite (run_bind_ok _ _ _ _ _ _ Hrun). cbn beta iota.
  destruct (Z.ltb_spec 0 r).
  { eexists _, _, _. split; [done|]. apply honours_one; [done|]. intros _.
    by destruct Ha as [(e & k' & _ & -> & _)|(k' & _ & -> & _)]. }
  destruct (has state stream_oriented && (r =? 0)).
  { eexists _, _, _. split; [done|]. by apply honours_one. }
  change error.try_again with error.would_block. rewrite andb_diag.
  destruct (has state user_set_non_blocking) eqn:Hstate; cbn [orb].
  { eexists _, _, _. split; [done|]. apply honours_one; [done|congruence]. }
  destruct (bool_decide_reflect (ec = error.would_block)) as [Hec|Hec]; cbn [negb].
  - edestruct (wait_round POLLIN s state (fun ec => (0, [], ec)) (recv_loop fuel s state capacity flags) snd t')
      as (es & t'' & a & Hround & Hes); [done|done| |done|].
    { intros t'' Hle. apply IH. pose proof (again_patience _ _ _ _ _ _ Ha Hec). lia. }
    unfold poll_read. rewrite Hround. eexists _, _, _. split; [done|]. apply honours_cons; [by left|done].
  - eexists _, _, _. split; [done|]. by apply honours_one.
Qed.

Lemma send_loop_honours fuel s state bytes flags t :
  s <> invalid_socket -> (patience (kernel_ t) < fuel)%nat ->
  exists es t' r, send_loop fuel s state bytes flags t = (es, t', Ok r) /\ honours state es r.2.
Proof.
  intros Hs. revert t. induction fuel as [|fuel IH]; intros t Hfuel; [lia|]. cbn [send_loop].
  destruct (send_spec s bytes flags t) as (r & written & ec & t' & Hrun & Ha).
  rewrite (run_bind_ok _ _ _ _ _ _ Hrun). cbn beta iota.
  destruct (Z.leb_spec 0 r).
  { eexists _, _, _. split; [done|]. apply honours_one; [done|]. intros _.
    destruct Ha as [(e & k' & _ & -> & _)|(k' & _ & -> & _)]; [lia|done]. }
  change error.try_again with error.would_block. rewrite andb_diag.
  destruct (has state user_set_non_blocking) eqn:Hstate; cbn [orb].
  { eexists _, _, _. split; [done|]. apply honours_one; [done|congruence]. }
  destruct (bool_decide_reflect (ec = error.would_block)) as [Hec|Hec]; cbn [negb].
  - edestruct (wait_round POLLOUT s state (fun ec => (0, ec)) (send_loop fuel s state bytes flags) snd t')
      as (es & t'' & a & Hround & Hes); [done|done| |done|].
    { intros t'' Hle. apply IH. pose proof (again_patience _ _ _ _ _ _ Ha Hec). lia. }
    unfold poll_write. rewrite Hround. eexists _, _, _. split; [done|]. apply honours_cons; [by left|done].
  - eexists _, _, _. split; [done|]. by apply honours_one.
Qed.

Lemma accept_spec s addrlen t : s <> invalid_socket -> exists r addrlen' written ec t',
  accept s addrlen t = ([SysAccept s addrlen], t', Ok (r, addrlen', ec)) /\
  answered (SysAccept s addrlen) (kernel_ t) r written ec t'.
Proof.
  intros Hs. unfold accept. destruct (Z.eqb_spec s invalid_socket); [done|].
  destruct (run_wrapped (SysAccept s addrlen) (fun r =>
    mret (r.1.1, (fun n => default n (head r.1.2)) <$> addrlen, clear_if (negb (r.1.1 =? invalid_socket)) r.2)) t)
    as (r & written & ec & t' & Hrun & Ha).
  eexists r, _, written, ec, t'. split; [|done]. rewrite Hrun. cbn [fst snd after mret comp_ret app].
  rewrite (clear_answered _ _ _ _ _ _ _ Ha); [done|]. unfold invalid_socket. lia.
Qed.

(** A retry is due to a failure, which uses up patience. *)
Lemma accept_retry c k r written ec t state :
  answered c k r written ec t -> accept_again state ec = true -> (patience (kernel_ t) < patience k)%nat.
Proof.
  intros [(e & k' & Hk & _ & _ & -> & ->)|(k' & Hk & -> & _)]; [|done]. unfold accept_again.
  cbn [kernel_ value system_code]. change error.try_again with error.would_block. rewrite orb_diag.
  destruct (bool_decide_reflect (system_code e = error.would_block)) as [[= ->]|_].
  { intros _. apply (patience_retry _ _ _ _ Hk). by left. }
  destruct (bool_decide_reflect (system_code e = error.connection_aborted)) as [[= ->]|_]; cbn [orb].
  { intros _. apply (patience_retry _ _ _ _ Hk). by right; right; left. }
  destruct (Z.eqb_spec e EPROTO) as [->|_]; [|done].
  intros _. apply (patience_retry _ _ _ _ Hk). by right; right; right.
Qed.

Lemma sync_accept_honours fuel s state addrlen t :
  s <> invalid_socket -> (patience (kernel_ t) < fuel)%nat ->
  has state user_set_non_blocking = false \/ has state enable_connection_aborted = true ->
  exists es t' r, sync_accept fuel s state addrlen t = (es, t', Ok r) /\ honours state es r.2.
Proof.
  intros Hs. revert t addrlen. induction fuel as [|fuel IH]; intros t addrlen Hfuel Hmode; [lia|]. cbn [sync_accept].
  destruct (accept_spec s addrlen t Hs) as (r & addrlen' & written & ec & t' & Hrun & Ha).
  rewrite (run_bind_ok _ _ _ _ _ _ Hrun). cbn beta iota.
  destruct (Z.eqb_spec r invalid_socket) as [Hr|Hr]; cbn [negb].
  2: { eexists _, _, _. split; [done|]. apply honours_one; [done|]. intros _.
    by destruct Ha as [(e & k' & _ & -> & _)|(k' & _ & -> & _)]. }
  change error.try_again with error.would_block. rewrite orb_diag.
  destruct (has state user_set_non_blocking) eqn:Hstate.
  - rewrite andb_true_r. destruct Hmode as [|Hmode]; [done|].
    destruct (bool_decide_reflect (ec = error.would_block)) as [Hec|Hec].
    { eexists _, _, _. split; [done|]. apply honours_one; [done|congruence]. }
    assert (accept_again state ec = false) as ->.
    { unfold accept_again. change error.try_again with error.would_block. rewrite orb_diag, Hmode.
      rewrite bool_decide_eq_false_2 by done. by destruct (_ || _). }
    eexists _, _, _. split; [done|]. apply honours_one; [done|congruence].
  - rewrite andb_false_r. destruct (accept_again state ec) eqn:Hagain.
    + edestruct (wait_round POLLIN s state (fun ec => (invalid_socket, addrlen', ec)) (sync_accept fuel s state addrlen') snd t')
        as (es & t'' & a & Hround & Hes); [done|done| |done|].
      { intros t'' Hle. apply IH; [|done]. pose proof (accept_retry _ _ _ _ _ _ _ Ha Hagain). lia. }
      unfold poll_read. rewrite Hround. eexists _, _, _. split; [done|]. apply honours_cons; [by left|done].
    + eexists _, _, _. split; [done|]. apply honours_one; [done|]. intros _ Hec. cbn [snd] in Hec. by rewrite Hec in Hagain.
Qed.

(** Every synchronous receive and send returns.  If the user asked for
    non-blocking calls it does so without waiting; if not, it never reports that
    it would have to wait.  The same holds of accept, except for connections that
    are aborted before they are accepted. *)
Theorem sync_calls_honour_mode fuel s state t :
  s <> invalid_socket -> (patience (kernel_ t) < fuel)%nat ->
  (forall capacity flags all_empty, exists es t' r,
    sync_recv fuel s state capacity flags all_empty t = (es, t', Ok r) /\ honours state es r.2) /\
  (forall bytes flags all_empty, exists es t' r,
    sync_send fuel s state bytes flags all_empty t = (es, t', Ok r) /\ honours state es r.2) /\
  (has state user_set_non_blocking = false \/ has state enable_connection_aborted = true ->
   forall addrlen, exists es t' r,
    sync_accept fuel s state addrlen t = (es, t', Ok r) /\ honours state es r.2).
Proof.
  intros Hs Hfuel. assert (honours state [] no_error) as Hnil by (unfold honours; by destruct (has state _)).
  split_and!.
  - intros capacity flags all_empty. unfold sync_recv. destruct (Z.eqb_spec s invalid_socket); [done|].
    destruct (all_empty && _); [by eexists _, _, _|by apply recv_loop_honours].
  - intros bytes flags all_empty. unfold sync_send. destruct (Z.eqb_spec s invalid_socket); [done|].
    destruct (all_empty && _); [by eexists _, _, _|by apply send_loop_honours].
  - intros Hmode addrlen. by apply sync_accept_honours.
Qed.

(** A connection that is aborted before it is accepted makes the call wait without
    a limit, even if the user asked for non-blocking calls. *)
Theorem non_blocking_accept_can_wait fuel s state addrlen t k :
  s <> invalid_socket -> has state enable_connection_aborted = false ->
  syscall (SysAccept s addrlen) (kernel_ t) = (Failed ECONNABORTED, k) ->
  exists es t' r, sync_accept (S fuel) s state addrlen t
    = (SysAccept s addrlen :: SysPoll s POLLIN (-1) :: es, t', r).
Proof.
  intros Hs Hstate Hk. cbn [sync_accept].
  destruct (accept_spec s addrlen t Hs) as (r & addrlen' & written & ec & t' & Hrun & Ha).
  rewrite (run_bind_ok _ _ _ _ _ _ Hrun). cbn beta iota.
  destruct Ha as [(e & k' & Hk' & -> & _ & -> & _)|(k' & Hk' & _)]; rewrite Hk in Hk'; [|done].
  injection Hk' as <- <-. change (-1 =? invalid_socket) with true.
  assert (accept_again state (system_code ECONNABORTED) = true) as ->.
  { unfold accept_again. by rewrite Hstate. }
  rewrite !bool_decide_eq_false_2 by done. cbn [negb orb andb].
  destruct (poll_spec POLLIN s t' Hs) as (r & ? & ec & t'' & Hpoll & _).
  unfold poll_read. rewrite (run_bind_ok _ _ _ _ _ _ Hpoll). unfold after.
  destruct (_ t'') as [[es t3] r']. by exists es, t3, r'.
Qed.

End socket_ops.
End socket_ops.

(** ** A kernel that answers from a list *)

(** The answers to come, but for waits, which end at once; when there are none
    left, success. *)
Definition script : Type := list Answer.

#[export] Instance script_kernel : Kernel script := {|
  syscall c k :=
    match c, k with
    | SysPoll _ _ _, _ | _, [] => (Returned 1 [], k)
    | _, a :: k => (a, k)
    end;
|}.

#[export] Instance script_patient : PatientKernel script.
Proof.
  refine {| patience := @length Answer |}.
  - intros c k e k' Hc _. destruct c, k; cbn in Hc; try done; injection Hc as _ <-; cbn; lia.
  - intros s events timeout k a k' [= _ <-]. lia.
  - by intros s events timeout k e k'.
Defined.

(** Where the user asked for non-blocking calls: the second answer would have
    been data. *)
Lemma sync_calls_honour_mode_witness : exists es t' r,
  socket_ops.sync_recv 3 5 (Z.lor stream_oriented user_set_non_blocking) 10 0 false
    (mkThread 0 [Failed EAGAIN; Returned 2 [7; 7]]) = (es, t', Ok r) /\
  socket_ops.honours (Z.lor stream_oriented user_set_non_blocking) es r.2.
Proof. apply (socket_ops.sync_calls_honour_mode 3 5); [done|]. cbn. lia. Defined.

Lemma non_blocking_accept_can_wait_witness : exists es t' r,
  socket_ops.sync_accept 2 5 user_set_non_blocking None (mkThread 0 [Failed ECONNABORTED])
    = (SysAccept 5 None :: SysPoll 5 POLLIN (-1) :: es, t', r).
Proof. by apply (socket_ops.non_blocking_accept_can_wait 1 5 _ _ _ []). Defined.
