(* ===== verification/AsioSocketStream.v ===== *)
(** * asio: stream sockets

    The operations the reactor carries out on sockets, and what a connected
    stream socket is to the composed operations: with the functions of
    AsioSocketOps.v a synchronous receive and an asynchronous one are both a
    [SyncReadStream], the sends a [SyncWriteStream], whatever pieces the kernel
    moves the bytes in and however often it makes the caller wait. *)
From S2P Require Import Prelude Utils NetworkUtil NodeCommon Node AsioBuffers AsioRead AsioWrite.
From S2P Require Import AsioScheduler AsioReactor AsioSocketOps.
Local Open Scope Z_scope.

(** ** The operations of the reactor *)

(** class [reactive_socket_recv_op_base]; of the buffers, their size. *)
Record recv_op := mkRecvOp {
  recv_socket : Z;
  recv_state : Z;
  recv_capacity : Z;
  recv_flags : Z;
  recv_ec : error_code;
  recv_transferred : Z;
}.

Definition new_recv_op (socket state capacity flags : Z) : recv_op :=
  mkRecvOp socket state capacity flags no_error 0.

(** class [reactive_socket_send_op_base]; of the buffers, their bytes. *)
Record send_op := mkSendOp {
  send_socket : Z;
  send_state : Z;
  send_bytes : list Z;
  send_flags : Z;
  send_ec : error_code;
  send_transferred : Z;
}.

Definition new_send_op (socket state : Z) (bytes : list Z) (flags : Z) : send_op :=
  mkSendOp socket state bytes flags no_error 0.

(** class [reactive_socket_accept_op_base]: [new_socket_] is the descriptor the
    [socket_holder] owns. *)
Record accept_op := mkAcceptOp {
  accept_socket : Z;
  accept_state : Z;
  accept_addrlen : option Z;
  new_socket_ : Z;
  accept_ec : error_code;
}.

Definition new_accept_op (socket state : Z) (addrlen : option Z) : accept_op :=
  mkAcceptOp socket state addrlen invalid_socket no_error.

Section operations.
Context {K : Type} `{!Kernel K}.

Local Abbreviation M := (comp (Thread K) Syscall).

(** [reactive_socket_recv_op_base::do_perform], with the bytes received. *)
Definition recv_perform (fuel : nat) (o : recv_op) : M (Status * recv_op * list Z) :=
  '(complete, ec, transferred, data) ← socket_ops.non_blocking_recv fuel (recv_socket o) (recv_capacity o)
    (recv_flags o) (has (recv_state o) stream_oriented) (recv_transferred o);
  let result := if complete : bool then
      if has (recv_state o) stream_oriented && (transferred =? 0) then done_and_exhausted else done
    else not_done in
  mret (result, mkRecvOp (recv_socket o) (recv_state o) (recv_capacity o) (recv_flags o) ec transferred, data).

(** [reactive_socket_send_op_base::do_perform] *)
Definition send_perform (fuel : nat) (o : send_op) : M (Status * send_op) :=
  '(complete, ec, transferred) ← socket_ops.non_blocking_send fuel (send_socket o) (send_bytes o)
    (send_flags o) (send_transferred o);
  let result := if complete : bool then
      if has (send_state o) stream_oriented && (transferred <? Z.of_nat (length (send_bytes o)))
      then done_and_exhausted else done
    else not_done in
  mret (result, mkSendOp (send_socket o) (send_state o) (send_bytes o) (send_flags o) ec transferred).

(** [reactive_socket_connect_op_base::do_perform] *)
Definition connect_perform (socket : Z) (ec : error_code) : M (Status * error_code) :=
  r ← socket_ops.non_blocking_connect socket ec;
  mret (if r.1 : bool then done else not_done, r.2).

(** [reactive_wait_op::do_perform] *)
Definition wait_perform : M Status := mret done.

(** [socket_holder::reset]: what it owns is closed. *)
Definition holder_reset (held s : Z) : M Z :=
  when (negb (held =? invalid_socket)) (socket_ops.close held 0 true no_error ;; (mret tt)) ;; (mret s).

(** [reactive_socket_accept_op_base::do_perform] *)
Definition accept_perform (fuel : nat) (o : accept_op) : M (Status * accept_op) :=
  '(complete, new_socket, addrlen, ec) ← socket_ops.non_blocking_accept fuel (accept_socket o)
    (accept_state o) (accept_addrlen o);
  held ← holder_reset (new_socket_ o) new_socket;
  mret (if complete : bool then done else not_done,
        mkAcceptOp (accept_socket o) (accept_state o) addrlen held ec).

(** The reactor carries out an operation each time the socket is ready, until it
    is done. *)
Fixpoint await_recv (attempts fuel : nat) (o : recv_op) : M (recv_op * list Z) :=
  match attempts with
  | O => fail_with OutOfFuel
  | S attempts =>
      '(status, o, data) ← recv_perform fuel o;
      if bool_decide (status = not_done) then await_recv attempts fuel o else mret (o, data)
  end.

Fixpoint await_send (attempts fuel : nat) (o : send_op) : M send_op :=
  match attempts with
  | O => fail_with OutOfFuel
  | S attempts =>
      '(status, o) ← send_perform fuel o;
      if bool_decide (status = not_done) then await_send attempts fuel o else mret o
  end.

(** [async_receive] and [async_send] up to the call of the handler: nothing is
    to be done for empty buffers of a stream. *)
Definition async_receive (fuel : nat) (s state capacity flags : Z) (all_empty : bool) : M (recv_op * list Z) :=
  if has state stream_oriented && all_empty then mret (new_recv_op s state capacity flags, [])
  else await_recv fuel fuel (new_recv_op s state capacity flags).

Definition async_send (fuel : nat) (s state : Z) (bytes : list Z) (flags : Z) (all_empty : bool) : M send_op :=
  if has state stream_oriented && all_empty then mret (new_send_op s state bytes flags)
  else await_send fuel fuel (new_send_op s state bytes flags).

End operations.

(** ** The kernel of a connected stream socket *)

(** [to_receive] is what the peer sends until it closes the connection; the end
    of the stream shows only after all of it.  [delivered] is what the kernel has
    taken over from this side. *)
Class StreamKernel (K : Type) `{PatientKernel K} (s : Z) := {
  to_receive : K -> list Z;
  delivered : K -> list Z;
  stream_recvmsg n k : 0 < n -> exists k',
    (exists e, syscall (SysRecvmsg s n 0) k = (Failed e, k') /\ (e = EAGAIN \/ e = EINTR) /\
      to_receive k' = to_receive k) \/
    (exists bytes, syscall (SysRecvmsg s n 0) k = (Returned (Z.of_nat (length bytes)) bytes, k') /\
      Z.of_nat (length bytes) <= n /\ to_receive k = bytes ++ to_receive k' /\ (bytes = [] -> to_receive k = []));
  stream_sendmsg bytes k : bytes <> [] -> exists k',
    (exists e, syscall (SysSendmsg s bytes MSG_NOSIGNAL) k = (Failed e, k') /\ e <> 0 /\ delivered k' = delivered k) \/
    (exists n, syscall (SysSendmsg s bytes MSG_NOSIGNAL) k = (Returned (Z.of_nat n) [], k') /\
      (0 < n <= length bytes)%nat /\ delivered k' = delivered k ++ take n bytes);
  stream_poll events k : exists r k', syscall (SysPoll s events (-1)) k = (Returned r [], k') /\ 0 < r /\
    to_receive k' = to_receive k /\ delivered k' = delivered k;
}.

(** No signal handler runs while a call is in progress. *)
Class Uninterrupted (K : Type) `{Kernel K} := {
  uninterrupted c k k' : syscall c k <> (Failed EINTR, k');
}.

Section receiving.
Context {K : Type} `{!Kernel K, !PatientKernel K} (s : Z) `{!StreamKernel K s} (state : Z).

Local Abbreviation M := (comp (Thread K) Syscall).
Implicit Types (t : Thread K).

Definition unreceived t : list Z := to_receive (kernel_ t).

(** Some of the bytes that are left have arrived, or there are none left. *)
Definition got (n : Z) t (data : list Z) (ec : error_code) t' : Prop :=
  (ec = no_error /\ data <> [] /\ Z.of_nat (length data) <= n /\ unreceived t = data ++ unreceived t') \/
  (ec = error.eof /\ data = [] /\ unreceived t = [] /\ unreceived t' = []).

(** Nothing has arrived yet. *)
Definition waited t t' : Prop :=
  unreceived t' = unreceived t /\ (patience (kernel_ t') < patience (kernel_ t))%nat.

Lemma got_later n t t' data ec t'' : unreceived t' = unreceived t -> got n t' data ec t'' -> got n t data ec t''.
Proof. unfold got. by intros ->. Qed.

(** One call of [recv]. *)
Lemma recv_once n t : 0 < n -> exists r data ec t',
  socket_ops.recv s n 0 t = ([SysRecvmsg s n 0], t', Ok (r, data, ec)) /\
  ((r = -1 /\ data = [] /\ (ec = error.would_block \/ (ec = error.interrupted /\
      exists k k', syscall (SysRecvmsg s n 0) k = (Failed EINTR, k'))) /\ waited t t') \/
   (r = Z.of_nat (length data) /\ ec = no_error /\
    (data = [] -> unreceived t = [] /\ unreceived t' = []) /\
    (data <> [] -> got n t data no_error t'))).
Proof.
  intros Hn. destruct (socket_ops.recv_spec s n 0 t) as (r & data & ec & t' & Hrun & Ha).
  exists r, data, ec, t'. split; [done|].
  destruct (stream_recvmsg n (kernel_ t) Hn) as (k & [(e & Hk & He & Heq)|(bytes & Hk & Hlen & Heq & Hend)]);
    destruct Ha as [(e' & k' & Hk' & -> & -> & -> & ->)|(k' & Hk' & -> & ->)]; rewrite Hk in Hk'; try done.
  - injection Hk' as <- <-. left. split; [done|]. split; [done|]. split; [|split; [done|]].
    + destruct He as [-> | ->]; [by left|]. right. split; [done|]. by exists (kernel_ t), k.
    + cbn [kernel_]. apply (patience_retry _ _ _ _ Hk). destruct He; by auto.
  - injection Hk' as <- <- <-. right. split; [done|]. split; [done|]. split.
    + intros ->. specialize (Hend eq_refl). unfold unreceived. cbn [kernel_]. split; [done|].
      rewrite Hend in Heq. cbn in Heq. done.
    + intros Hne. left. by unfold unreceived; cbn [kernel_].
Qed.

Lemma non_blocking_recv_spec fuel n transferred t :
  0 < n -> (patience (kernel_ t) < fuel)%nat -> exists es t' complete ec tr data,
  socket_ops.non_blocking_recv fuel s n 0 true transferred t = (es, t', Ok (complete, ec, tr, data)) /\
  if complete : bool then got n t data ec t' else waited t t'.
Proof.
  intros Hn. revert t. induction fuel as [|fuel IH]; intros t Hfuel; [lia|].
  cbn [socket_ops.non_blocking_recv]. destruct (recv_once n t Hn) as (r & data & ec & t' & Hrun & Hcase).
  rewrite (run_bind_ok _ _ _ _ _ _ Hrun). cbn beta iota.
  destruct Hcase as [(-> & -> & Hec & Hwait)|(-> & -> & Hend & Hdata)].
  - change (true && (-1 =? 0)) with false. cbn match. destruct Hec as [-> |[-> _]].
    + do 6 eexists. split; [done|exact Hwait].
    + rewrite bool_decide_eq_true_2 by done. destruct Hwait as [Hun Hpat].
      destruct (IH t') as (es & t'' & complete & ec & tr & data & -> & Hres); [lia|].
      do 6 eexists. split; [done|]. destruct complete; [by apply (got_later _ _ t')|].
      destruct Hres as [Hun' Hpat']. split; [by rewrite Hun'|lia].
  - cbn [andb]. destruct (Z.eqb_spec (Z.of_nat (length data)) 0) as [Hz|Hz].
    + do 6 eexists. split; [done|]. cbn match. right. destruct data; [|done]. by destruct Hend.
    + rewrite !bool_decide_eq_false_2 by done. cbn [orb].
      rewrite (proj2 (Z.leb_le 0 _)) by lia. do 6 eexists. split; [done|]. apply Hdata. by intros ->.
Qed.

Lemma await_recv_spec attempts fuel n t : 0 < n -> has state stream_oriented = true ->
  (patience (kernel_ t) < attempts)%nat -> (patience (kernel_ t) < fuel)%nat ->
  forall ec transferred, exists es t' o data,
  await_recv attempts fuel (mkRecvOp s state n 0 ec transferred) t = (es, t', Ok (o, data)) /\
  got n t data (recv_ec o) t'.
Proof.
  intros Hn Hstream. revert t. induction attempts as [|attempts IH]; intros t Hatt Hfuel ec transferred; [lia|].
  cbn [await_recv]. unfold recv_perform. rewrite run_bind_bind.
  cbn [recv_socket recv_capacity recv_flags recv_state recv_transferred]. rewrite Hstream.
  destruct (non_blocking_recv_spec fuel n transferred t Hn Hfuel) as (es & t' & complete & ec' & tr & data & Hrun & Hres).
  rewrite (run_bind_ok _ _ _ _ _ _ Hrun). cbn beta iota. rewrite run_ret. destruct complete.
  - rewrite bool_decide_eq_false_2 by (by destruct (_ && _)). do 4 eexists. split; [done|exact Hres].
  - rewrite bool_decide_eq_true_2 by done. destruct Hres as [Hun Hpat].
    destruct (IH t' ltac:(lia) ltac:(lia) ec' tr) as (es' & t'' & o & data' & -> & Hgot).
    do 4 eexists. split; [done|]. by apply (got_later _ _ t').
Qed.

(** The wait between two attempts succeeds. *)
Lemma stream_wait events t : s <> invalid_socket -> exists r t',
  socket_ops.poll_for events s 0 (-1) t = ([SysPoll s events (-1)], t', Ok (r, no_error)) /\ 0 < r /\
  unreceived t' = unreceived t /\ delivered (kernel_ t') = delivered (kernel_ t) /\
  (patience (kernel_ t') <= patience (kernel_ t))%nat.
Proof.
  intros Hs. destruct (socket_ops.poll_spec events s t Hs) as (r & written & ec & t' & Hrun & Ha).
  destruct (stream_poll events (kernel_ t)) as (r' & k & Hk & Hr & Hun & Hdel).
  destruct Ha as [(e & k' & Hk' & _)|(k' & Hk' & -> & ->)]; rewrite Hk in Hk'; [done|].
  injection Hk' as <- _ <-. exists r', (mkThread 0 k). rewrite Hrun. split; [by destruct (r' =? 0)|].
  split; [done|]. split; [done|]. split; [done|]. by apply (patience_poll _ _ _ _ _ _ Hk).
Qed.

Lemma recv_loop_spec `{!Uninterrupted K} fuel n t : s <> invalid_socket -> 0 < n ->
  has state stream_oriented = true -> has state user_set_non_blocking = false ->
  (patience (kernel_ t) < fuel)%nat -> exists es t' r data ec,
  socket_ops.recv_loop fuel s state n 0 t = (es, t', Ok (r, data, ec)) /\ got n t data ec t'.
Proof.
  intros Hs Hn Hstream Huser. revert t. induction fuel as [|fuel IH]; intros t Hfuel; [lia|].
  cbn [socket_ops.recv_loop]. destruct (recv_once n t Hn) as (r & data & ec & t' & Hrun & Hcase).
  rewrite (run_bind_ok _ _ _ _ _ _ Hrun), Hstream, Huser. cbn beta iota.
  destruct Hcase as [(-> & -> & Hec & Hwait)|(-> & -> & Hend & Hdata)].
  - destruct Hec as [-> |(_ & k & k' & []%uninterrupted)]. destruct Hwait as [Hun Hpat].
    change (0 <? -1) with false. change (true && (-1 =? 0)) with false.
    rewrite !bool_decide_eq_true_2 by done. cbn [negb andb orb].
    destruct (stream_wait POLLIN t' Hs) as (r & t2 & Hpoll & Hr & Hun' & _ & Hpat').
    unfold socket_ops.poll_read. rewrite (run_bind_ok _ _ _ _ _ _ Hpoll). cbn [fst].
    rewrite (proj2 (Z.ltb_ge r 0)) by lia.
    destruct (IH t2 ltac:(lia)) as (es & t3 & r' & data & ec & -> & Hgot).
    do 5 eexists. split; [done|]. apply (got_later _ _ t2); [congruence|done].
  - destruct (Z.ltb_spec 0 (Z.of_nat (length data))) as [Hlen|Hlen].
    + do 5 eexists. split; [done|]. apply Hdata. by intros ->.
    + assert (data = []) as -> by (by destruct data). cbn. do 5 eexists. split; [done|]. right.
      by destruct Hend.
Qed.

(** ** The read streams *)

Definition stream_error (ec : error_code) : option ErrorCode :=
  if failed ec then Some (if bool_decide (ec = error.eof) then Eof else OtherError) else None.

Definition read_outcome (r : list Syscall * Thread K * result (list Z * error_code)) (t : Thread K)
    : list Z * option ErrorCode * Thread K :=
  match r with
  | (_, t', Ok (data, ec)) => (data, stream_error ec, t')
  | (_, _, Err _) => ([], Some OtherError, t)
  end.

(** [receive] and [async_receive] of a socket, without flags. *)
Definition receive_some (n : nat) (t : Thread K) : list Syscall * Thread K * result (list Z * error_code) :=
  (r ← socket_ops.sync_recv (S (patience (kernel_ t))) s state (Z.of_nat n) 0 (n =? 0)%nat;
   mret (r.1.2, r.2)) t.

Definition async_receive_some (n : nat) (t : Thread K) : list Syscall * Thread K * result (list Z * error_code) :=
  (r ← async_receive (S (patience (kernel_ t))) s state (Z.of_nat n) 0 (n =? 0)%nat;
   mret (r.2, recv_ec r.1)) t.

Definition sync_read_stream : SyncReadStream (Thread K) := {|
  read_some n t := read_outcome (receive_some n t) t;
|}.

Definition async_read_stream : SyncReadStream (Thread K) := {|
  read_some n t := read_outcome (async_receive_some n t) t;
|}.

Lemma got_data n t data ec t' : got (Z.of_nat n) t data ec t' -> unreceived t <> [] ->
  stream_error ec = None /\ data <> [] /\ (length data <= n)%nat /\ unreceived t = data ++ unreceived t'.
Proof. intros [(-> & Hne & Hlen & Heq)|(_ & _ & Hnil & _)] Hun; [|done]. split_and!; [done..|lia|done]. Qed.

Lemma got_end n t data ec t' : got n t data ec t' -> unreceived t = [] ->
  stream_error ec = Some Eof /\ data = [] /\ unreceived t' = [].
Proof.
  intros [(-> & Hne & _ & Heq)|(-> & -> & _ & ?)] Hun; [|done].
  rewrite Hun in Heq. symmetry in Heq. by apply app_eq_nil in Heq as [? _].
Qed.

(** What makes a function on threads a read stream. *)
Lemma read_stream_ok (read : nat -> Thread K -> list Syscall * Thread K * result (list Z * error_code)) :
  (forall t, exists es, read 0%nat t = (es, t, Ok ([], no_error))) ->
  (forall n t, (0 < n)%nat -> exists es t' data ec, read n t = (es, t', Ok (data, ec)) /\ got (Z.of_nat n) t data ec t') ->
  SyncReadStreamOk (Thread K) (H := {| read_some n t := read_outcome (read n t) t |}).
Proof.
  intros Hzero Hsome. refine {| unread := unreceived |}; cbn [read_some].
  - intros t. destruct (Hzero t) as [es Hrun]. by rewrite Hrun.
  - intros n t Hn Hun. destruct (Hsome n t Hn) as (es & t' & data & ec & Hrun & Hgot). rewrite Hrun.
    destruct (got_data _ _ _ _ _ Hgot Hun) as (Hec & Hne & Hlen & Heq).
    exists data, t'. cbn [read_outcome]. by rewrite Hec.
  - intros n t Hn Hun. destruct (Hsome n t Hn) as (es & t' & data & ec & Hrun & Hgot). rewrite Hrun.
    destruct (got_end _ _ _ _ _ Hgot Hun) as (Hec & -> & Hun'). exists t'. cbn [read_outcome]. by rewrite Hec.
Defined.

Lemma async_read_stream_ok : has state stream_oriented = true ->
  SyncReadStreamOk (Thread K) (H := async_read_stream).
Proof.
  intros Hstream. apply read_stream_ok.
  - intros t. unfold async_receive_some, async_receive. rewrite Hstream. by eexists.
  - intros n t Hn. unfold async_receive_some, async_receive. rewrite Hstream.
    rewrite (proj2 (Nat.eqb_neq n 0)) by lia. cbn [andb].
    destruct (await_recv_spec (S (patience (kernel_ t))) (S (patience (kernel_ t))) (Z.of_nat n) t
      ltac:(lia) Hstream ltac:(lia) ltac:(lia) no_error 0) as (es & t' & o & data & Hrun & Hgot).
    unfold new_recv_op. rewrite (run_bind_ok _ _ _ _ _ _ Hrun). do 4 eexists. split; [done|exact Hgot].
Defined.

Lemma sync_read_stream_ok `{!Uninterrupted K} : s <> invalid_socket -> has state stream_oriented = true ->
  has state user_set_non_blocking = false -> SyncReadStreamOk (Thread K) (H := sync_read_stream).
Proof.
  intros Hs Hstream Huser. apply read_stream_ok.
  - intros t. unfold receive_some, socket_ops.sync_recv. destruct (Z.eqb_spec s invalid_socket); [done|].
    rewrite Hstream. by eexists.
  - intros n t Hn. unfold receive_some, socket_ops.sync_recv. destruct (Z.eqb_spec s invalid_socket); [done|].
    rewrite (proj2 (Nat.eqb_neq n 0)) by lia. cbn [andb].
    destruct (recv_loop_spec (S (patience (kernel_ t))) (Z.of_nat n) t Hs ltac:(lia) Hstream Huser ltac:(lia))
      as (es & t' & r & data & ec & Hrun & Hgot).
    rewrite (run_bind_ok _ _ _ _ _ _ Hrun). do 4 eexists. split; [done|exact Hgot].
Defined.

End receiving.

Section sending.
Context {K : Type} `{!Kernel K, !PatientKernel K} (s : Z) `{!StreamKernel K s} (state : Z).

Local Abbreviation M := (comp (Thread K) Syscall).
Implicit Types (t : Thread K) (bytes : list Z).

Definition taken t : list Z := delivered (kernel_ t).

(** A first part has been taken over, or the call failed. *)
Definition put bytes t (n : Z) (ec : error_code) t' : Prop :=
  (ec = no_error /\ 0 < n <= Z.of_nat (length bytes) /\ taken t' = taken t ++ take (Z.to_nat n) bytes) \/
  (failed ec = true /\ n = 0 /\ taken t' = taken t).

(** Nothing could be taken over yet. *)
Definition stalled t t' : Prop := taken t' = taken t /\ (patience (kernel_ t') < patience (kernel_ t))%nat.

Lemma put_later bytes t t' n ec t'' : taken t' = taken t -> put bytes t' n ec t'' -> put bytes t n ec t''.
Proof. unfold put. by intros ->. Qed.

Lemma send_once bytes t : bytes <> [] -> exists r ec t',
  socket_ops.send s bytes 0 t = ([SysSendmsg s bytes MSG_NOSIGNAL], t', Ok (r, ec)) /\
  ((r = -1 /\ failed ec = true /\ taken t' = taken t /\
    (ec = error.would_block \/ ec = error.interrupted -> stalled t t')) \/
   (0 <= r /\ ec = no_error /\ put bytes t r no_error t')).
Proof.
  intros Hb. destruct (socket_ops.send_spec s bytes 0 t) as (r & data & ec & t' & Hrun & Ha).
  exists r, ec, t'. split; [done|]. change (Z.lor 0 MSG_NOSIGNAL) with MSG_NOSIGNAL in Ha.
  destruct (stream_sendmsg bytes (kernel_ t) Hb) as (k & [(e & Hk & He & Heq)|(n & Hk & Hn & Heq)]);
    destruct Ha as [(e' & k' & Hk' & -> & -> & -> & ->)|(k' & Hk' & -> & ->)]; rewrite Hk in Hk'; try done.
  - injection Hk' as <- <-. left. split; [done|]. split.
    { unfold failed. cbn. by destruct (Z.eqb_spec e 0). }
    split; [done|]. intros Hec. split; [done|]. cbn [kernel_]. apply (patience_retry _ _ _ _ Hk).
    destruct Hec as [[= ->]|[= ->]]; by auto.
  - injection Hk' as <- <- <-. right. split; [lia|]. split; [done|]. left. split; [done|]. split; [lia|].
    unfold taken. cbn [kernel_]. by rewrite Nat2Z.id.
Qed.

Lemma non_blocking_send_spec fuel bytes transferred t :
  bytes <> [] -> (patience (kernel_ t) < fuel)%nat -> exists es t' complete ec n,
  socket_ops.non_blocking_send fuel s bytes 0 transferred t = (es, t', Ok (complete, ec, n)) /\
  if complete : bool then put bytes t n ec t' else stalled t t'.
Proof.
  intros Hb. revert t. induction fuel as [|fuel IH]; intros t Hfuel; [lia|].
  cbn [socket_ops.non_blocking_send]. destruct (send_once bytes t Hb) as (r & ec & t' & Hrun & Hcase).
  rewrite (run_bind_ok _ _ _ _ _ _ Hrun). cbn beta iota.
  change error.try_again with error.would_block. rewrite orb_diag.
  destruct Hcase as [(-> & Hec & Heq & Hwait)|(Hr & -> & Hput)].
  - destruct (bool_decide_reflect (ec = error.interrupted)) as [Hint|_].
    { destruct (Hwait (or_intror Hint)) as [_ Hpat].
      destruct (IH t' ltac:(lia)) as (es & t'' & complete & ec' & n & -> & Hres).
      do 5 eexists. split; [done|]. destruct complete; [by apply (put_later _ _ t')|].
      destruct Hres as [Heq' Hpat']. split; [by rewrite Heq'|lia]. }
    destruct (bool_decide_reflect (ec = error.would_block)) as [Hblock|_].
    { do 5 eexists. split; [done|]. by apply Hwait; left. }
    do 5 eexists. split; [done|]. by right.
  - rewrite !bool_decide_eq_false_2 by done. rewrite (proj2 (Z.leb_le 0 r)) by done.
    do 5 eexists. split; [done|exact Hput].
Qed.

Lemma await_send_spec attempts fuel bytes t : bytes <> [] ->
  (patience (kernel_ t) < attempts)%nat -> (patience (kernel_ t) < fuel)%nat ->
  forall ec transferred, exists es t' o,
  await_send attempts fuel (mkSendOp s state bytes 0 ec transferred) t = (es, t', Ok o) /\
  put bytes t (send_transferred o) (send_ec o) t'.
Proof.
  intros Hb. revert t. induction attempts as [|attempts IH]; intros t Hatt Hfuel ec transferred; [lia|].
  cbn [await_send]. unfold send_perform. rewrite run_bind_bind.
  cbn [send_socket send_bytes send_flags send_state send_transferred].
  destruct (non_blocking_send_spec fuel bytes transferred t Hb Hfuel) as (es & t' & complete & ec' & n & Hrun & Hres).
  rewrite (run_bind_ok _ _ _ _ _ _ Hrun). cbn beta iota. rewrite run_ret. destruct complete.
  - rewrite bool_decide_eq_false_2 by (by destruct (_ && _)). do 3 eexists. split; [done|exact Hres].
  - rewrite bool_decide_eq_true_2 by done. destruct Hres as [Hun Hpat].
    destruct (IH t' ltac:(lia) ltac:(lia) ec' n) as (es' & t'' & o & -> & Hput).
    do 3 eexists. split; [done|]. by apply (put_later _ _ t').
Qed.

Lemma send_loop_spec fuel bytes t : s <> invalid_socket -> bytes <> [] ->
  has state user_set_non_blocking = false -> (patience (kernel_ t) < fuel)%nat -> exists es t' n ec,
  socket_ops.send_loop fuel s state bytes 0 t = (es, t', Ok (n, ec)) /\ put bytes t n ec t'.
Proof.
  intros Hs Hb Huser. revert t. induction fuel as [|fuel IH]; intros t Hfuel; [lia|].
  cbn [socket_ops.send_loop]. destruct (send_once bytes t Hb) as (r & ec & t' & Hrun & Hcase).
  rewrite (run_bind_ok _ _ _ _ _ _ Hrun), Huser. cbn beta iota.
  change error.try_again with error.would_block. rewrite andb_diag.
  destruct Hcase as [(-> & Hec & Heq & Hwait)|(Hr & -> & Hput)].
  - change (0 <=? -1) with false. cbn [orb].
    destruct (bool_decide_reflect (ec = error.would_block)) as [Hblock|_]; cbn [negb].
    2: { do 4 eexists. split; [done|]. by right. }
    destruct (Hwait (or_introl Hblock)) as [_ Hpat].
    destruct (stream_wait s POLLOUT t' Hs) as (r & t2 & Hpoll & Hr & _ & Hdel & Hpat').
    unfold socket_ops.poll_write. rewrite (run_bind_ok _ _ _ _ _ _ Hpoll). cbn [fst].
    rewrite (proj2 (Z.ltb_ge r 0)) by lia.
    destruct (IH t2 ltac:(lia)) as (es & t3 & n & ec' & -> & Hput).
    do 4 eexists. split; [done|]. apply (put_later _ _ t2); [by etrans|done].
  - rewrite (proj2 (Z.leb_le 0 r)) by done. do 4 eexists. split; [done|exact Hput].
Qed.

(** ** The write streams *)

Definition write_outcome (r : list Syscall * Thread K * result (Z * error_code)) t : nat * option ErrorCode * Thread K :=
  match r with
  | (_, t', Ok (n, ec)) => (Z.to_nat n, stream_error ec, t')
  | (_, _, Err _) => (0%nat, Some OtherError, t)
  end.

(** [send] and [async_send] of a socket, without flags. *)
Definition send_some bytes t : list Syscall * Thread K * result (Z * error_code) :=
  socket_ops.sync_send (S (patience (kernel_ t))) s state bytes 0 (length bytes =? 0)%nat t.

Definition async_send_some bytes t : list Syscall * Thread K * result (Z * error_code) :=
  (o ← async_send (S (patience (kernel_ t))) s state bytes 0 (length bytes =? 0)%nat;
   mret (send_transferred o, send_ec o)) t.

Definition sync_write_stream : SyncWriteStream (Thread K) := {|
  write_some bytes t := write_outcome (send_some bytes t) t;
|}.

Definition async_write_stream : SyncWriteStream (Thread K) := {|
  write_some bytes t := write_outcome (async_send_some bytes t) t;
|}.

(** What makes a function on threads a write stream. *)
Lemma write_stream_ok (write : list Z -> Thread K -> list Syscall * Thread K * result (Z * error_code)) :
  (forall t, exists es, write [] t = (es, t, Ok (0, no_error))) ->
  (forall bytes t, bytes <> [] -> exists es t' n ec, write bytes t = (es, t', Ok (n, ec)) /\ put bytes t n ec t') ->
  SyncWriteStreamOk (Thread K) (H := {| write_some bytes t := write_outcome (write bytes t) t |}).
Proof.
  intros Hzero Hsome. refine {| written_bytes := taken |}; cbn [write_some].
  - intros t. destruct (Hzero t) as [es Hrun]. by rewrite Hrun.
  - intros bytes t Hb. destruct (Hsome bytes t Hb) as (es & t' & n & ec & Hrun & Hput). rewrite Hrun.
    exists (Z.to_nat n), (stream_error ec), t'. split; [done|]. unfold stream_error.
    destruct Hput as [(-> & Hn & Heq)|(Hec & -> & Heq)].
    + split; [lia|]. split; [done|]. split; [lia|done].
    + rewrite Hec, Heq. change (Z.to_nat 0) with 0%nat. rewrite take_0, (right_id_L [] (++)). split; [lia|]. done.
Defined.

Lemma async_write_stream_ok : has state stream_oriented = true ->
  SyncWriteStreamOk (Thread K) (H := async_write_stream).
Proof.
  intros Hstream. apply write_stream_ok.
  - intros t. unfold async_send_some, async_send. rewrite Hstream. by eexists.
  - intros bytes t Hb. unfold async_send_some, async_send. rewrite Hstream.
    rewrite (proj2 (Nat.eqb_neq (length bytes) 0)) by (by destruct bytes). cbn [andb].
    destruct (await_send_spec (S (patience (kernel_ t))) (S (patience (kernel_ t))) bytes t
      Hb ltac:(lia) ltac:(lia) no_error 0) as (es & t' & o & Hrun & Hput).
    unfold new_send_op. rewrite (run_bind_ok _ _ _ _ _ _ Hrun). do 4 eexists. split; [done|exact Hput].
Defined.

Lemma sync_write_stream_ok : s <> invalid_socket -> has state stream_oriented = true ->
  has state user_set_non_blocking = false -> SyncWriteStreamOk (Thread K) (H := sync_write_stream).
Proof.
  intros Hs Hstream Huser. apply write_stream_ok.
  - intros t. unfold send_some, socket_ops.sync_send. destruct (Z.eqb_spec s invalid_socket); [done|].
    rewrite Hstream. by eexists.
  - intros bytes t Hb. unfold send_some, socket_ops.sync_send. destruct (Z.eqb_spec s invalid_socket); [done|].
    rewrite (proj2 (Nat.eqb_neq (length bytes) 0)) by (by destruct bytes). cbn [andb].
    apply send_loop_spec; (done || lia).
Defined.

End sending.

(** ** Properties *)

Section properties.
Context {K : Type} `{!Kernel K, !PatientKernel K} (s : Z) `{!StreamKernel K s} (state : Z).
Context {C : Type} `{ConsumingOk C}.

(** Blocking and asynchronous reading agree.  Over a connected stream socket,
    [read] with the blocking receive and [async_read] with the operations of the
    reactor both return, with the same count, the same error, the same memory and
    the same bytes left, however the kernel cuts the bytes and however often
    either has to wait: the next bytes of the peer are in the buffers. *)
Theorem socket_reads_agree `{!Uninterrupted K} fuel (c : C) t m :
  s <> invalid_socket -> has state stream_oriented = true -> has state user_set_non_blocking = false ->
  cb_ok c -> (length (cb_remaining c) + 1 < fuel)%nat ->
  exists n ec m' t1 t2,
    @read C _ (Thread K) (sync_read_stream s state) fuel c t m = Ok (n, ec, t1, m') /\
    @async_read_all C _ (Thread K) (async_read_stream s state) fuel c t m = Ok (n, ec, t2, m') /\
    n = (cb_consumed c + length (cb_remaining c) `min` length (unreceived s t))%nat /\
    m' = store_bytes (cb_remaining c) (take (length (cb_remaining c)) (unreceived s t)) m /\
    unreceived s t1 = drop (length (cb_remaining c)) (unreceived s t) /\ unreceived s t2 = unreceived s t1.
Proof.
  intros Hs Hstream Huser Hok Hfuel.
  destruct (@reads_fill C _ _ (Thread K) _ (sync_read_stream_ok s state Hs Hstream Huser) fuel c t m Hok Hfuel)
    as [([[[n1 ec1] t1] m1] & Hrun1 & -> & -> & Hun1 & ->) _].
  destruct (@reads_fill C _ _ (Thread K) _ (async_read_stream_ok s state Hstream) fuel c t m Hok Hfuel)
    as [_ ([[[n2 ec2] t2] m2] & Hrun2 & -> & -> & Hun2 & ->)].
  do 5 eexists. split; [exact Hrun1|]. split; [exact Hrun2|]. split; [done|]. split; [done|].
  split; [exact Hun1|]. etrans; [exact Hun2|]. symmetry. exact Hun1.
Qed.

(** The outcome of a composed write: a first part of the bytes has been taken over,
    all of them exactly when there is no error. *)
Definition handed_over m (c : C) (t : Thread K) (r : nat * option ErrorCode * Thread K) : Prop :=
  let '(k, ec, t') := r in
  exists n, k = (cb_consumed c + n)%nat /\
    taken s t' = taken s t ++ take n (load_bytes (cb_remaining c) m) /\
    (ec = None -> n = length (cb_remaining c)) /\ (ec <> None -> (n < length (cb_remaining c))%nat).

(** Blocking and asynchronous writing hand over a first part of the bytes, in order,
    and all of them exactly when no error is reported. *)
Theorem socket_writes_drain fuel m (c : C) t :
  s <> invalid_socket -> has state stream_oriented = true -> has state user_set_non_blocking = false ->
  cb_ok c -> (length (cb_remaining c) + 1 < fuel)%nat ->
  (exists r, @write_all C _ (Thread K) (sync_write_stream s state) m fuel c t = Ok r /\ handed_over m c t r) /\
  (exists r, @async_write_all C _ (Thread K) (async_write_stream s state) m fuel c t = Ok r /\ handed_over m c t r).
Proof.
  intros Hs Hstream Huser Hok Hfuel. split.
  - apply (@writes_drain_buffers C _ (Thread K) _ m _ (sync_write_stream_ok s state Hs Hstream Huser) fuel c t Hok Hfuel).
  - apply (@writes_drain_buffers C _ (Thread K) _ m _ (async_write_stream_ok s state Hstream) fuel c t Hok Hfuel).
Qed.

End properties.

(** C18. A server connection over a socket.  Whatever pieces the kernel moves the bytes
    in, however often a receive finds nothing and waits for the reactor or is
    interrupted: a connection that reads a socket with [async_read] delivers
    exactly the messages of the complete frames, in order, and then closes. *)
Theorem connection_over_sockets {K} `{!Kernel K, !PatientKernel K} (s : Z) `{!StreamKernel K s} (state : Z)
    (Hstream : has state stream_oriented = true) plat fuel op sender ms last k (t : Thread K) :
  Forall (acceptable plat op) (ms ++ [last]) -> (k < length (frame plat last))%nat ->
  unreceived s t = (ms ≫= frame plat) ++ take k (frame plat last) -> (2 * length ms + 3 <= fuel)%nat ->
  exists c',
    @connection plat (Thread K) (@asio_stream (Thread K) _ (async_read_stream_ok s state Hstream))
      fuel t (new_ServerConnection sender op)
    = (((fun m => Deliver m sender) <$> ms) ++ [CloseSocket], c', Ok tt) /\ pending c' = None.
Proof. apply (@connection_over_asio (Thread K) _ (async_read_stream_ok s state Hstream)). Qed.

(** ** Examples *)

(** A kernel with one connection: pieces that arrive, [None] for a moment without
    data, and how many bytes each send can take, 0 for none at the moment. *)
Record Pipe := mkPipe {
  arriving : list (option (Z * list Z));
  room : list nat;
  sent : list Z;
}.

Definition rest_of_piece (n : nat) (x : Z) (piece : list Z) (l : list (option (Z * list Z))) :=
  match drop n (x :: piece) with
  | [] => l
  | y :: piece => Some (y, piece) :: l
  end.

#[export] Instance pipe_kernel : Kernel Pipe := {|
  syscall c k :=
    match c with
    | SysRecvmsg _ n _ =>
        match arriving k with
        | [] => (Returned 0 [], k)
        | None :: l => (Failed EAGAIN, mkPipe l (room k) (sent k))
        | Some (x, piece) :: l =>
            let data := take (Z.to_nat n) (x :: piece) in
            (Returned (Z.of_nat (length data)) data, mkPipe (rest_of_piece (Z.to_nat n) x piece l) (room k) (sent k))
        end
    | SysSendmsg _ bytes _ =>
        match room k with
        | [] => (Returned (Z.of_nat (length bytes)) [], mkPipe (arriving k) [] (sent k ++ bytes))
        | O :: l => (Failed EAGAIN, mkPipe (arriving k) l (sent k))
        | S n :: l =>
            (Returned (Z.of_nat (S n `min` length bytes)) [], mkPipe (arriving k) l (sent k ++ take (S n) bytes))
        end
    | SysPoll _ _ _ => (Returned 1 [], k)
    | _ => (Returned 0 [], k)
    end;
|}.

Definition all_arriving (l : list (option (Z * list Z))) : list Z :=
  l ≫= (fun o => match o with Some (x, piece) => x :: piece | None => [] end).

#[export] Instance pipe_patient : PatientKernel Pipe.
Proof.
  refine {| patience k := (length (arriving k) + length (room k))%nat |}.
  - intros c [[|[[x piece]|] l] [|[|n] r] w] e k' Hc _; destruct c; cbn in Hc; try done;
      injection Hc as _ <-; cbn; lia.
  - intros s events timeout k a k' [= _ <-]. lia.
  - by intros s events timeout k e k'.
Defined.

#[export] Instance pipe_uninterrupted : Uninterrupted Pipe.
Proof.
  split. intros c [[|[[x piece]|] l] [|[|n] r] w] k'; destruct c; by cbn.
Defined.

Lemma rest_of_piece_all n x piece l :
  all_arriving (Some (x, piece) :: l) = take n (x :: piece) ++ all_arriving (rest_of_piece n x piece l).
Proof.
  change (all_arriving (Some (x, piece) :: l)) with ((x :: piece) ++ all_arriving l).
  unfold rest_of_piece. rewrite <- (take_drop n (x :: piece)) at 1. rewrite <- (assoc_L (++)). f_equal.
  by destruct (drop n (x :: piece)).
Qed.

#[export] Instance pipe_stream (s : Z) : StreamKernel Pipe s.
Proof.
  refine {| to_receive k := all_arriving (arriving k); delivered := sent |}.
  - intros n [[|[[x piece]|] l] r w] Hn; cbn [syscall pipe_kernel arriving room sent].
    + eexists. right. exists []. cbn. split; [done|]. split; [lia|]. done.
    + eexists. right. eexists. split; [done|]. cbn [arriving]. split; [|split].
      * rewrite length_take. lia.
      * by apply rest_of_piece_all.
      * destruct (Z.to_nat n) eqn:Hz; [lia|done].
    + eexists. left. exists EAGAIN. split; [done|]. split; [by left|done].
  - intros bytes [a [|[|n] r] w] Hb; cbn [syscall pipe_kernel arriving room sent].
    + eexists. right. exists (length bytes). split; [done|]. destruct bytes; [done|]. cbn [length]. split; [lia|].
      cbn [sent]. by rewrite take_ge by (cbn; lia).
    + eexists. left. exists EAGAIN. by split.
    + eexists. right. exists (S n `min` length bytes)%nat. split; [done|]. destruct bytes; [done|]. cbn [length].
      split; [lia|]. cbn [sent]. f_equal. destruct (Nat.min_spec (S n) (S (length bytes))) as [[Hle ->]|[Hle ->]]; [done|].
      by rewrite !take_ge by (cbn; lia).
  - intros events k. by exists 1, k.
Defined.

(** Three bytes for buffers of two and two, with a moment without data. *)
Lemma socket_reads_agree_witness : exists n ec m' t1 t2,
  let c := new_consuming_pair (mkBuffer 0 2) (mkBuffer 3 2) in
  let t := mkThread 0 (mkPipe [None; Some (7, [8]); None; Some (9, [])] [] []) in
  @read _ _ (Thread Pipe) (sync_read_stream 5 stream_oriented) 7 c t (replicate 5 0) = Ok (n, ec, t1, m') /\
  @async_read_all _ _ (Thread Pipe) (async_read_stream 5 stream_oriented) 7 c t (replicate 5 0) = Ok (n, ec, t2, m') /\
  n = (0 + 4 `min` 3)%nat /\ m' = [7; 8; 0; 9; 0] /\ unreceived 5 t1 = [] /\ unreceived 5 t2 = unreceived 5 t1.
Proof.
  destruct (socket_reads_agree 5 stream_oriented 7 (new_consuming_pair (mkBuffer 0 2) (mkBuffer 3 2))
    (mkThread 0 (mkPipe [None; Some (7, [8]); None; Some (9, [])] [] [])) (replicate 5 0))
    as (n & ec & m' & t1 & t2 & Hsync & Hasync & Hn & Hm & H1 & H2); [done|done|done|exact I|vm_compute; lia|].
  exists n, ec, m', t1, t2. split; [exact Hsync|]. split; [exact Hasync|]. split; [exact Hn|].
  split; [exact Hm|]. split; [exact H1|exact H2].
Defined.

(** Five bytes; the kernel takes two, then none, then the rest. *)
Lemma socket_writes_drain_witness : exists r,
  @async_write_all _ _ (Thread Pipe) (async_write_stream 5 stream_oriented) [1; 2; 3; 4; 5] 8
    (new_consuming_pair (mkBuffer 0 2) (mkBuffer 2 3)) (mkThread 0 (mkPipe [] [2; 0]%nat [])) = Ok r /\
  handed_over 5 [1; 2; 3; 4; 5] (new_consuming_pair (mkBuffer 0 2) (mkBuffer 2 3))
    (mkThread 0 (mkPipe [] [2; 0]%nat [])) r.
Proof.
  apply (socket_writes_drain 5 stream_oriented 8 [1; 2; 3; 4; 5]
    (new_consuming_pair (mkBuffer 0 2) (mkBuffer 2 3)) (mkThread 0 (mkPipe [] [2; 0]%nat [])));
    [done|done|done|exact I|vm_compute; lia].
Defined.

(** The frame of one message in three pieces, then the end of the stream. *)
Lemma connection_over_sockets_witness : exists c',
  @connection x86_64 (Thread Pipe)
    (@asio_stream (Thread Pipe) _ (async_read_stream_ok 5 stream_oriented eq_refl)) 5
    (mkThread 0 (mkPipe [None; Some (2, [0]); Some (0, [0; 1]); None; Some (2, [])] [] []))
    (new_ServerConnection peer small_buffer)
  = ([Deliver (mkMessage [1; 2]) peer; CloseSocket], c', Ok tt) /\ pending c' = None.
Proof.
  apply (connection_over_sockets 5 stream_oriented eq_refl x86_64 5 small_buffer peer
    [mkMessage [1; 2]] (mkMessage [9]) 0).
  - repeat (apply Forall_cons; split; [split_and!; vm_compute; (lia || intuition congruence)|]). by apply Forall_nil.
  - vm_compute. lia.
  - reflexivity.
  - cbn. lia.
Defined.
