(* ===== verification/AsioDescriptors.v ===== *)
(** * asio: descriptors and their modes

    What the functions of AsioSocketOps.v do to the descriptors of the process:
    [DescriptorKernel] is what a kernel promises, and each function is proved to
    return and to open, close or switch the descriptor it is for, and no other. *)
From S2P Require Import Prelude AsioSocketOps.
Local Open Scope Z_scope.

(** ** Descriptors of the kernel *)

(** The calls that create a descriptor, and those that neither create nor close
    one nor switch its mode. *)
Definition creates (c : Syscall) : bool :=
  match c with SysSocket _ _ _ | SysAccept _ _ => true | _ => false end.

Definition inert (c : Syscall) : bool :=
  match c with
  | SysSocket _ _ _ | SysAccept _ _ | SysClose _ => false
  | SysIoctl _ cmd _ => negb (cmd =? FIONBIO)
  | _ => true
  end.

(** [opened] are the descriptors in use, [unblocked] those in non-blocking mode.
    A new descriptor is in blocking mode; [close] gives the descriptor back even if
    it reports an error, as Linux does. *)
Class DescriptorKernel (K : Type) `{Kernel K} := {
  opened : K -> gset Z;
  unblocked : K -> gset Z;
  descriptor_nonneg k fd : fd ∈ opened k -> 0 <= fd;
  descriptor_created c k a k' : creates c = true -> syscall c k = (a, k') ->
    (exists fd w, a = Returned fd w /\ (fd ∉ opened k) /\ opened k' = ({[fd]} ∪ opened k) /\
      unblocked k' = (unblocked k ∖ {[fd]})) \/
    (exists e, a = Failed e /\ opened k' = opened k /\ unblocked k' = unblocked k);
  descriptor_closed s k a k' : syscall (SysClose s) k = (a, k') ->
    a <> Failed EAGAIN /\ opened k' = (opened k ∖ {[s]}) /\ unblocked k' = (unblocked k ∖ {[s]});
  descriptor_mode s arg k a k' : syscall (SysIoctl s FIONBIO arg) k = (a, k') ->
    opened k' = opened k /\
    ((exists e, a = Failed e /\ unblocked k' = unblocked k) \/
     (exists r, a = Returned r [] /\ 0 <= r /\
       unblocked k' = if arg =? 0 then unblocked k ∖ {[s]} else {[s]} ∪ unblocked k));
  descriptor_inert c k a k' : inert c = true -> syscall c k = (a, k') ->
    opened k' = opened k /\ unblocked k' = unblocked k;
}.

(** ** Computations that return *)

Section returns.
Context {S E : Type}.

(** From [s], [m] returns; what it returns and the state it leaves satisfy [Φ]. *)
Definition returns {A} (m : comp S E A) (s : S) (Φ : A -> S -> Prop) : Prop :=
  exists es s' a, m s = (es, s', Ok a) /\ Φ a s'.

Lemma returns_bind {A B} (m : comp S E A) (f : A -> comp S E B) s Φ Ψ :
  returns m s Φ -> (forall a s', Φ a s' -> returns (f a) s' Ψ) -> returns (m ≫= f) s Ψ.
Proof.
  intros (es & s' & a & Hm & HΦ) Hf. destruct (Hf a s' HΦ) as (es' & s'' & b & Hm' & HΨ).
  exists (es ++ es'), s'', b. by rewrite (run_bind_ok _ _ _ _ _ _ Hm), Hm'.
Qed.

Lemma returns_run {A B} (m : comp S E A) (f : A -> comp S E B) s es s' a Φ :
  m s = (es, s', Ok a) -> returns (f a) s' Φ -> returns (m ≫= f) s Φ.
Proof.
  intros Hm Hf. apply (returns_bind m f s (fun b t => b = a /\ t = s')); [by exists es, s', a|].
  by intros ? ? [-> ->].
Qed.

Lemma returns_ret {A} (a : A) s (Φ : A -> S -> Prop) : Φ a s -> returns (mret a) s Φ.
Proof. intros. by exists [], s, a. Qed.

Lemma returns_impl {A} (m : comp S E A) s (Φ Ψ : A -> S -> Prop) :
  returns m s Φ -> (forall a s', Φ a s' -> Ψ a s') -> returns m s Ψ.
Proof. intros (es & s' & a & Hm & HΦ) HΨ. exists es, s', a. auto. Qed.

Lemma returns_emit e s (Φ : unit -> S -> Prop) : Φ tt s -> returns (emit e) s Φ.
Proof. intros. by exists [e], s, tt. Qed.

Lemma returns_get {A} (f : S -> comp S E A) s Φ : returns (f s) s Φ -> returns (get_state ≫= f) s Φ.
Proof. intros (es & s' & a & Hm & HΦ). exists es, s', a. by rewrite run_get. Qed.

Lemma returns_modify g s (Φ : unit -> S -> Prop) : Φ tt (g s) -> returns (modify g) s Φ.
Proof. intros. by exists [], (g s), tt. Qed.
End returns.

(** ** Calls that return or throw *)

Section ends.
Context {S E : Type}.

(** From [s], [m] returns and leaves [Φ], or throws [std::system_error] and
    leaves [Ψ]. *)
Definition ends {A} (m : comp S E A) (s : S) (Φ : A -> S -> Prop) (Ψ : S -> Prop) : Prop :=
  exists es s' r, m s = (es, s', r) /\
    match r with Ok a => Φ a s' | Err (SystemError _) => Ψ s' | Err _ => False end.

Lemma ends_returns {A} (m : comp S E A) s Φ Ψ : returns m s Φ -> ends m s Φ Ψ.
Proof. intros (es & s' & a & Hm & HΦ). by exists es, s', (Ok a). Qed.

Lemma ends_bind {A B} (m : comp S E A) (f : A -> comp S E B) s Φ Φ' Ψ :
  ends m s Φ Ψ -> (forall a s', Φ a s' -> ends (f a) s' Φ' Ψ) -> ends (m ≫= f) s Φ' Ψ.
Proof.
  intros (es & s' & [a|err] & Hm & Hr) Hf.
  - destruct (Hf a s' Hr) as (es' & s'' & r & Hm' & Hr'). exists (es ++ es'), s'', r.
    by rewrite (run_bind_ok _ _ _ _ _ _ Hm), Hm'.
  - exists es, s', (Err err). by rewrite (run_bind_err _ _ _ _ _ _ Hm).
Qed.

Lemma ends_run {A B} (m : comp S E A) (f : A -> comp S E B) s es s' a Φ Ψ :
  m s = (es, s', Ok a) -> ends (f a) s' Φ Ψ -> ends (m ≫= f) s Φ Ψ.
Proof.
  intros Hm Hf. apply (ends_bind m f s (fun b t => b = a /\ t = s')); [by exists es, s', (Ok a)|].
  by intros ? ? [-> ->].
Qed.

Lemma ends_get {A} (f : S -> comp S E A) s Φ Ψ : ends (f s) s Φ Ψ -> ends (get_state ≫= f) s Φ Ψ.
Proof. intros (es & s' & r & Hm & Hr). exists es, s', r. by rewrite run_get. Qed.

Lemma ends_impl {A} (m : comp S E A) s (Φ Φ' : A -> S -> Prop) (Ψ Ψ' : S -> Prop) :
  ends m s Φ Ψ -> (forall a s', Φ a s' -> Φ' a s') -> (forall s', Ψ s' -> Ψ' s') -> ends m s Φ' Ψ'.
Proof.
  intros (es & s' & r & Hm & Hr) HΦ HΨ. exists es, s', r. split; [done|]. destruct r as [a|[]]; auto.
Qed.

Lemma ends_ret {A} (a : A) s (Φ : A -> S -> Prop) Ψ : Φ a s -> ends (mret a) s Φ Ψ.
Proof. intros. by apply ends_returns, returns_ret. Qed.

(** A result that is mapped. *)
Lemma returns_mapped {A B} (m : comp S E A) (g : A -> B) s Φ :
  returns (r ← m; mret (g r)) s Φ <-> returns m s (fun r => Φ (g r)).
Proof.
  split.
  - intros (es & s' & c & Hrun & HΦ). unfold mbind, comp_bind in Hrun. destruct (m s) as [[es1 s1] [a|]] eqn:Hm; [|done].
    injection Hrun as <- <- <-. by exists es1, s1, a.
  - intros Hm. eapply returns_bind; [exact Hm|]. cbn beta. intros a s'. apply returns_ret.
Qed.

Lemma ends_throw {A} what s (Φ : A -> S -> Prop) (Ψ : S -> Prop) : Ψ s -> ends (fail_with (SystemError what)) s Φ Ψ.
Proof. intros. by exists [], s, (Err (SystemError what)). Qed.

End ends.

(** ** What the functions on sockets do to descriptors *)

Section kernel.
Context {K : Type} `{!Kernel K, !DescriptorKernel K}.
Implicit Types (k : K) (t : Thread K).

Definition same_fds k k' : Prop := opened k' = opened k /\ unblocked k' = unblocked k.

(** [m] returns and leaves descriptors and modes as they are. *)
Definition harmless {A} (m : comp (Thread K) Syscall A) : Prop :=
  forall t, returns m t (fun _ t' => same_fds (kernel_ t) (kernel_ t')).

Lemma harmless_bind {A B} (m : comp (Thread K) Syscall A) (f : A -> comp (Thread K) Syscall B) :
  harmless m -> (forall a, harmless (f a)) -> harmless (m ≫= f).
Proof.
  intros Hm Hf t. eapply returns_bind; [apply Hm|]. intros a t1 [Ho Hu].
  eapply returns_impl; [apply Hf|]. intros b t2 [Ho' Hu']. split; by etrans.
Qed.

Lemma harmless_ret {A} (a : A) : harmless (mret a).
Proof. intros t. by apply returns_ret. Qed.

Lemma harmless_get {A} (f : Thread K -> comp (Thread K) Syscall A) :
  (forall t, harmless (f t)) -> harmless (get_state ≫= f).
Proof. intros Hf t. apply returns_get, Hf. Qed.

Lemma harmless_clear : harmless socket_ops.clear_last_error.
Proof. intros t. by apply returns_modify. Qed.

Lemma harmless_call c : inert c = true -> harmless (socket_ops.call c).
Proof.
  intros Hc t. unfold socket_ops.call. apply returns_get. eapply returns_bind; [by apply returns_emit with (Φ := fun _ t' => t' = t)|].
  intros _ ? ->. destruct (syscall c (kernel_ t)) as [a k] eqn:Hk.
  pose proof (descriptor_inert _ _ _ _ Hc Hk) as Hsame.
  destruct a; (eapply returns_bind; [by apply returns_modify with (Φ := fun _ t' => kernel_ t' = k)|]);
    intros _ t' <-; by apply returns_ret.
Qed.

Lemma harmless_wrapped {A} (m : comp (Thread K) Syscall A) : harmless m -> harmless (socket_ops.error_wrapper m).
Proof.
  intros Hm. apply harmless_bind; [done|]. intros a. apply harmless_get. intros t. apply harmless_ret.
Qed.

Lemma harmless_if {A} (b : bool) (m m' : comp (Thread K) Syscall A) : harmless m -> harmless m' -> harmless (if b then m else m').
Proof. by destruct b. Qed.

End kernel.

Create HintDb harmless.
#[export] Hint Resolve harmless_ret harmless_clear harmless_call harmless_wrapped harmless_if : harmless.
#[export] Hint Extern 1 (harmless (_ ≫= _)) => first [apply harmless_get; intros ? | apply harmless_bind; [|intros ?]] : harmless.
#[export] Hint Extern 1 (inert _ = true) => reflexivity : harmless.
#[export] Hint Extern 2 (harmless (let '(_, _) := ?x in _)) => destruct x : harmless.

Section functions.
Context {K : Type} `{!Kernel K, !DescriptorKernel K}.

Lemma harmless_setsockopt s state level optname optval optlen :
  harmless (socket_ops.setsockopt s state level optname optval optlen).
Proof. unfold socket_ops.setsockopt. auto 20 with harmless. Qed.

Lemma harmless_poll_for events s state msec : harmless (socket_ops.poll_for events s state msec).
Proof. unfold socket_ops.poll_for, socket_ops.poll. auto 20 with harmless. Qed.

Lemma harmless_connect s addr : harmless (socket_ops.connect s addr).
Proof. unfold socket_ops.connect. auto 20 with harmless. Qed.

Lemma harmless_simple s c : inert c = true -> harmless (socket_ops.simple_call s c).
Proof. intros Hc. unfold socket_ops.simple_call. auto 20 with harmless. Qed.

Lemma harmless_getsockopt s state level optname optval optlen :
  harmless (socket_ops.getsockopt s state level optname optval optlen).
Proof. unfold socket_ops.getsockopt. cbn zeta. auto 20 with harmless. Qed.

Lemma harmless_poll_connect s msec : harmless (socket_ops.poll_connect s msec).
Proof. unfold socket_ops.poll_connect, socket_ops.poll. auto 20 with harmless. Qed.

Lemma harmless_query s cmd : (cmd =? FIONBIO) = false -> harmless (socket_ops.query s cmd).
Proof.
  intros Hcmd. assert (inert (SysIoctl s cmd 0) = true) by (cbn; by rewrite Hcmd).
  unfold socket_ops.query. cbn zeta. auto 20 with harmless.
Qed.

#[local] Hint Resolve harmless_getsockopt harmless_poll_connect harmless_connect harmless_query harmless_poll_for : harmless.
#[local] Hint Extern 1 ((_ =? FIONBIO) = false) => reflexivity : harmless.

Lemma harmless_sync_connect s addr : harmless (socket_ops.sync_connect s addr).
Proof. unfold socket_ops.sync_connect. auto 30 with harmless. Qed.

Lemma harmless_sockatmark s : harmless (socket_ops.sockatmark s).
Proof. unfold socket_ops.sockatmark. auto 20 with harmless. Qed.

Lemma harmless_available s : harmless (socket_ops.available s).
Proof. unfold socket_ops.available. auto 20 with harmless. Qed.

(** A new descriptor, or none. *)
Definition created k (fd : Z) k' : Prop :=
  if fd =? invalid_socket then same_fds k k'
  else (fd ∉ opened k) /\ opened k' = ({[fd]} ∪ opened k) /\ unblocked k' = (unblocked k ∖ {[fd]}).

Lemma created_answered c k r written ec t : creates c = true -> socket_ops.answered c k r written ec t ->
  created k r (kernel_ t).
Proof.
  intros Hc [(e & k' & Hk & -> & _ & _ & ->)|(k' & Hk & _ & ->)]; unfold created; cbn [kernel_];
    destruct (descriptor_created _ _ _ _ Hc Hk) as [(fd & w & Ha & Hnew & Ho & Hu)|(e' & Ha & Ho & Hu)];
    try done.
  injection Ha as -> ->. destruct (Z.eqb_spec fd invalid_socket) as [->|_]; [|done].
  pose proof (descriptor_nonneg k' invalid_socket) as Hneg. rewrite Ho in Hneg.
  destruct Hneg; [|done]. by apply elem_of_union_l, elem_of_singleton.
Qed.

Lemma inert_answered c k r written ec t : inert c = true -> socket_ops.answered c k r written ec t ->
  same_fds k (kernel_ t).
Proof.
  intros Hc [(e & k' & Hk & _ & _ & _ & ->)|(k' & Hk & _ & ->)]; by apply (descriptor_inert _ _ _ _ Hc Hk).
Qed.

Lemma returns_wrapped {A} c (f : Z * list Z * error_code -> comp (Thread K) Syscall A) t Φ :
  (forall r written ec t', socket_ops.answered c (kernel_ t) r written ec t' -> returns (f (r, written, ec)) t' Φ) ->
  returns (socket_ops.clear_last_error ;; (socket_ops.error_wrapper (socket_ops.call c) ≫= f)) t Φ.
Proof.
  intros Hf. destruct (socket_ops.run_wrapped c f t) as (r & written & ec & t' & Hrun & Ha).
  destruct (Hf r written ec t' Ha) as (es & t2 & a & Hrun' & HΦ). exists (c :: es), t2, a.
  by rewrite Hrun, Hrun'.
Qed.

Lemma socket_creates af type protocol t :
  returns (socket_ops.socket af type protocol) t (fun r t' => created (kernel_ t) r.1 (kernel_ t')).
Proof.
  unfold socket_ops.socket. apply returns_wrapped. intros r written ec t' Ha. apply returns_ret.
  by apply (created_answered (SysSocket af type protocol) _ _ _ _ _ eq_refl Ha).
Qed.

Lemma created_trans k k' fd k'' : same_fds k k' -> created k' fd k'' -> created k fd k''.
Proof. unfold created, same_fds. intros [-> ->]. done. Qed.

Lemma created_none k k' : created k invalid_socket k' -> same_fds k k'.
Proof. done. Qed.

Context `{!PatientKernel K}.

Lemma sync_accept_creates fuel s state addrlen t : (patience (kernel_ t) < fuel)%nat ->
  returns (socket_ops.sync_accept fuel s state addrlen) t (fun r t' => created (kernel_ t) r.1.1 (kernel_ t')).
Proof.
  revert t addrlen. induction fuel as [|fuel IH]; intros t addrlen Hfuel; [lia|]. cbn [socket_ops.sync_accept].
  destruct (decide (s = invalid_socket)) as [->|Hs].
  { eapply returns_run; [reflexivity|]. by apply returns_ret. }
  destruct (socket_ops.accept_spec s addrlen t Hs) as (r & addrlen' & written & ec & t' & Hrun & Ha).
  pose proof (created_answered (SysAccept s addrlen) _ _ _ _ _ eq_refl Ha) as Hcreated.
  apply (returns_run _ _ _ _ _ _ _ Hrun). destruct (Z.eqb_spec r invalid_socket) as [->|Hr]; cbn [negb].
  2: { by apply returns_ret. }
  destruct (_ && has state user_set_non_blocking); [by apply returns_ret|].
  destruct (socket_ops.accept_again state ec) eqn:Hagain; [|by apply returns_ret].
  destruct (harmless_poll_for POLLIN s 0 (-1) t') as (es & t2 & r & Hpoll & Hsame).
  assert (patience (kernel_ t2) < fuel)%nat as Hpat.
  { pose proof (socket_ops.accept_retry _ _ _ _ _ _ _ Ha Hagain).
    destruct (socket_ops.poll_spec POLLIN s t' Hs) as (r' & w & ec' & t3 & Hpoll' & Ha').
    rewrite Hpoll in Hpoll'. injection Hpoll' as _ <- _.
    enough (patience (kernel_ t2) <= patience (kernel_ t'))%nat by lia.
    destruct Ha' as [(e & k' & Hk & _ & _ & _ & ->)|(k' & Hk & _ & ->)]; by apply (patience_poll _ _ _ _ _ _ Hk). }
  apply (returns_run _ _ _ _ _ _ _ Hpoll). apply created_none in Hcreated.
  destruct (r.1 <? 0); [apply returns_ret|eapply returns_impl; [by apply IH|]]; cbn.
  - destruct Hcreated, Hsame. split; by etrans.
  - intros a t3 Hc. eapply created_trans; [|exact Hc]. destruct Hcreated, Hsame. split; by etrans.
Qed.

Lemma interrupted_patience c k r written t : socket_ops.answered c k r written error.interrupted t ->
  (patience (kernel_ t) < patience k)%nat.
Proof.
  intros [(e & k' & Hk & _ & _ & [= <-] & ->)|(k' & _ & Hec & _)]; [|done].
  apply (patience_retry _ _ _ _ Hk). by right; left.
Qed.

Lemma non_blocking_accept_creates fuel s state addrlen t : (patience (kernel_ t) < fuel)%nat ->
  returns (socket_ops.non_blocking_accept fuel s state addrlen) t
    (fun r t' => created (kernel_ t) r.1.1.2 (kernel_ t')).
Proof.
  revert t addrlen. induction fuel as [|fuel IH]; intros t addrlen Hfuel; [lia|]. cbn [socket_ops.non_blocking_accept].
  destruct (decide (s = invalid_socket)) as [->|Hs].
  { eapply returns_run; [reflexivity|]. by apply returns_ret. }
  destruct (socket_ops.accept_spec s addrlen t Hs) as (r & addrlen' & written & ec & t' & Hrun & Ha).
  pose proof (created_answered (SysAccept s addrlen) _ _ _ _ _ eq_refl Ha) as Hcreated.
  apply (returns_run _ _ _ _ _ _ _ Hrun). destruct (Z.eqb_spec r invalid_socket) as [->|Hr]; cbn [negb].
  2: { by apply returns_ret. }
  destruct (bool_decide_reflect (ec = error.interrupted)) as [->|_]; [|by apply returns_ret].
  pose proof (interrupted_patience _ _ _ _ _ Ha). eapply returns_impl; [apply IH; lia|].
  intros a t2 Hc. eapply created_trans; [by apply created_none|exact Hc].
Qed.

(** A round of [recv] or [send] that has to be repeated, and the wait before it. *)
Lemma waited_patience events s t : s <> invalid_socket ->
  returns (socket_ops.poll_for events s 0 (-1)) t (fun _ t' =>
    same_fds (kernel_ t) (kernel_ t') /\ (patience (kernel_ t') <= patience (kernel_ t))%nat).
Proof.
  intros Hs. destruct (harmless_poll_for events s 0 (-1) t) as (es & t' & r & Hpoll & Hsame).
  exists es, t', r. split; [done|]. split; [done|].
  destruct (socket_ops.poll_spec events s t Hs) as (r' & w & ec & t2 & Hpoll' & Ha).
  rewrite Hpoll in Hpoll'. injection Hpoll' as _ <- _.
  destruct Ha as [(e & k & Hk & _ & _ & _ & ->)|(k & Hk & _ & ->)]; by apply (patience_poll _ _ _ _ _ _ Hk).
Qed.

Lemma same_fds_trans k k' k'' : same_fds k k' -> same_fds k' k'' -> same_fds k k''.
Proof. intros [? ?] [? ?]. split; by etrans. Qed.

Lemma repeat_round {A} events s (stop : Z * error_code -> A) (again : comp (Thread K) Syscall A) t : s <> invalid_socket ->
  (forall t', (patience (kernel_ t') <= patience (kernel_ t))%nat ->
    returns again t' (fun _ t'' => same_fds (kernel_ t') (kernel_ t''))) ->
  returns (r ← socket_ops.poll_for events s 0 (-1); if r.1 <? 0 then mret (stop r) else again) t
    (fun _ t' => same_fds (kernel_ t) (kernel_ t')).
Proof.
  intros Hs Hagain. eapply returns_bind; [by apply waited_patience|]. cbn beta. intros a t' [Hsame Hle].
  destruct (a.1 <? 0); [by apply returns_ret|]. eapply returns_impl; [by apply Hagain|]. cbn beta.
  intros _ t''. by apply same_fds_trans.
Qed.

Lemma recv_loop_same fuel s state capacity flags t : s <> invalid_socket -> (patience (kernel_ t) < fuel)%nat ->
  returns (socket_ops.recv_loop fuel s state capacity flags) t (fun _ t' => same_fds (kernel_ t) (kernel_ t')).
Proof.
  intros Hs. revert t. induction fuel as [|fuel IH]; intros t Hfuel; [lia|]. cbn [socket_ops.recv_loop].
  destruct (socket_ops.recv_spec s capacity flags t) as (r & written & ec & t' & Hrun & Ha).
  pose proof (inert_answered (SysRecvmsg s capacity flags) _ _ _ _ _ eq_refl Ha) as Hsame.
  apply (returns_run _ _ _ _ _ _ _ Hrun). destruct (0 <? r); [by apply returns_ret|].
  destruct (_ && _); [by apply returns_ret|]. change error.try_again with error.would_block. rewrite andb_diag.
  destruct (_ || _) eqn:Hwait; [by apply returns_ret|].
  assert (ec = error.would_block) as Hec.
  { apply orb_false_iff in Hwait as [_ Hec]. by destruct (bool_decide_reflect (ec = error.would_block)). }
  pose proof (socket_ops.again_patience _ _ _ _ _ _ Ha Hec).
  eapply returns_impl; [apply (repeat_round POLLIN s (fun r => (0, [], r.2))); [done|]|].
  - intros t2 Hle. apply IH. lia.
  - cbn beta. intros _ t2. by apply same_fds_trans.
Qed.

Lemma send_loop_same fuel s state bytes flags t : s <> invalid_socket -> (patience (kernel_ t) < fuel)%nat ->
  returns (socket_ops.send_loop fuel s state bytes flags) t (fun _ t' => same_fds (kernel_ t) (kernel_ t')).
Proof.
  intros Hs. revert t. induction fuel as [|fuel IH]; intros t Hfuel; [lia|]. cbn [socket_ops.send_loop].
  destruct (socket_ops.send_spec s bytes flags t) as (r & written & ec & t' & Hrun & Ha).
  pose proof (inert_answered (SysSendmsg s bytes (Z.lor flags MSG_NOSIGNAL)) _ _ _ _ _ eq_refl Ha) as Hsame.
  apply (returns_run _ _ _ _ _ _ _ Hrun). destruct (0 <=? r); [by apply returns_ret|].
  change error.try_again with error.would_block. rewrite andb_diag.
  destruct (_ || _) eqn:Hwait; [by apply returns_ret|].
  assert (ec = error.would_block) as Hec.
  { apply orb_false_iff in Hwait as [_ Hec]. by destruct (bool_decide_reflect (ec = error.would_block)). }
  pose proof (socket_ops.again_patience _ _ _ _ _ _ Ha Hec).
  eapply returns_impl; [apply (repeat_round POLLOUT s (fun r => (0, r.2))); [done|]|].
  - intros t2 Hle. apply IH. lia.
  - cbn beta. intros _ t2. by apply same_fds_trans.
Qed.

Lemma sync_recv_same fuel s state capacity flags all_empty t : (patience (kernel_ t) < fuel)%nat ->
  returns (socket_ops.sync_recv fuel s state capacity flags all_empty) t (fun _ t' => same_fds (kernel_ t) (kernel_ t')).
Proof.
  intros Hfuel. unfold socket_ops.sync_recv. destruct (Z.eqb_spec s invalid_socket); [by apply returns_ret|].
  destruct (_ && _); [by apply returns_ret|by apply recv_loop_same].
Qed.

Lemma sync_send_same fuel s state bytes flags all_empty t : (patience (kernel_ t) < fuel)%nat ->
  returns (socket_ops.sync_send fuel s state bytes flags all_empty) t (fun _ t' => same_fds (kernel_ t) (kernel_ t')).
Proof.
  intros Hfuel. unfold socket_ops.sync_send. destruct (Z.eqb_spec s invalid_socket); [by apply returns_ret|].
  destruct (_ && _); [by apply returns_ret|by apply send_loop_same].
Qed.

(** Closing removes the descriptor, and only it. *)
Lemma close_removes s state destruction ec t : s <> invalid_socket ->
  returns (socket_ops.close s state destruction ec) t (fun r t' =>
    opened (kernel_ t') = (opened (kernel_ t) ∖ {[s]}) /\ unblocked (kernel_ t') = (unblocked (kernel_ t) ∖ {[s]})).
Proof.
  intros Hs. unfold socket_ops.close. destruct (Z.eqb_spec s invalid_socket); [done|].
  eapply returns_bind with (Φ := fun _ t' => same_fds (kernel_ t) (kernel_ t')).
  { destruct (_ && _); [|by apply returns_ret]. eapply returns_bind; [apply harmless_setsockopt|].
    intros r t' Hsame. by apply returns_ret. }
  intros state' t1 [Ho Hu]. unfold socket_ops.sys_close.
  destruct (socket_ops.run_wrapped (SysClose s) (fun r => mret (r.1.1, r.2)) t1) as (r & w & ec' & t2 & Hrun & Ha).
  apply (returns_run _ _ _ _ _ _ _ Hrun). cbn [fst snd].
  assert (ec' <> error.would_block /\ opened (kernel_ t2) = (opened (kernel_ t1) ∖ {[s]}) /\
    unblocked (kernel_ t2) = (unblocked (kernel_ t1) ∖ {[s]})) as (Hec & Ho' & Hu').
  { destruct Ha as [(e & k' & Hk & _ & _ & -> & ->)|(k' & Hk & -> & ->)];
      destruct (descriptor_closed _ _ _ _ Hk) as (Hagain & ? & ?); split; try done. by intros [= ->]. }
  change error.try_again with error.would_block. rewrite bool_decide_eq_false_2 by done. rewrite andb_false_r.
  eapply returns_run; [done|]. apply returns_ret. by rewrite Ho', Hu', Ho, Hu.
Qed.

(** *** Modes *)

(** Only the mode of [s] changes. *)
Definition moded (s : Z) k k' : Prop :=
  opened k' = opened k /\ (forall fd, fd <> s -> fd ∈ unblocked k -> fd ∈ unblocked k').

(** The flags do not claim a mode the descriptor is not in. *)
Definition flags_true (s state : Z) k : Prop := has state non_blocking = true -> s ∈ unblocked k.

Lemma has_non_blocking state : has state non_blocking = Z.testbit state 0 || Z.testbit state 1.
Proof.
  unfold has. change non_blocking with (Z.ones 2).
  destruct (Z.eqb_spec (Z.land state (Z.ones 2)) 0) as [Hz|Hz]; cbn [negb]; symmetry.
  - pose proof (f_equal (fun z => Z.testbit z 0) Hz) as H0. pose proof (f_equal (fun z => Z.testbit z 1) Hz) as H1.
    cbn beta in H0, H1. rewrite Z.land_spec in H0, H1. change (Z.testbit (Z.ones 2) 0) with true in H0.
    change (Z.testbit (Z.ones 2) 1) with true in H1. rewrite andb_true_r in H0, H1. by rewrite H0, H1.
  - apply orb_true_iff. destruct (Z.testbit state 0) eqn:H0; [by left|]. destruct (Z.testbit state 1) eqn:H1; [by right|].
    destruct Hz. apply Z.bits_inj'. intros i Hi. rewrite Z.land_spec, Z.bits_0.
    destruct (decide (i = 0)) as [->|]; [by rewrite H0|]. destruct (decide (i = 1)) as [->|]; [by rewrite H1|].
    rewrite (Z.ones_spec_high 2 i) by lia. by rewrite andb_false_r.
Qed.

Lemma non_blocking_lor state x : has (Z.lor state x) non_blocking = has state non_blocking || has x non_blocking.
Proof. rewrite !has_non_blocking, !Z.lor_spec. by destruct (Z.testbit state 0), (Z.testbit state 1), (Z.testbit x 0). Qed.

(** Clearing other flags than the two. *)
Lemma non_blocking_ldiff state x : has x non_blocking = false ->
  has (Z.ldiff state x) non_blocking = has state non_blocking.
Proof.
  rewrite !has_non_blocking, !Z.ldiff_spec. intros [-> ->]%orb_false_elim. by rewrite !andb_true_r.
Qed.

Lemma non_blocking_cleared state : has (Z.ldiff state (Z.lor user_set_non_blocking internal_non_blocking)) non_blocking = false.
Proof. rewrite has_non_blocking, !Z.ldiff_spec. cbn. by rewrite !andb_false_r. Qed.

Definition mode_set (s : Z) (value : bool) (r : Z) k k' : Prop :=
  opened k' = opened k /\
  if 0 <=? r then unblocked k' = (if value then {[s]} ∪ unblocked k else unblocked k ∖ {[s]})
  else unblocked k' = unblocked k.

Lemma mode_set_moded s value r k k' : mode_set s value r k k' -> moded s k k'.
Proof.
  intros [Ho Hu]. split; [done|]. intros fd Hfd Hin. destruct (0 <=? r); [|by rewrite Hu].
  rewrite Hu. destruct value; [by apply elem_of_union_r|]. apply elem_of_difference. split; [done|].
  by rewrite elem_of_singleton.
Qed.

Lemma ioctl_mode s arg t r written ec t' :
  socket_ops.answered (SysIoctl s FIONBIO arg) (kernel_ t) r written ec t' ->
  mode_set s (negb (arg =? 0)) r (kernel_ t) (kernel_ t') /\ (0 <= r -> written = []).
Proof.
  intros [(e & k' & Hk & -> & _ & _ & ->)|(k' & Hk & _ & ->)]; cbn [kernel_]; unfold mode_set;
    destruct (descriptor_mode _ _ _ _ _ Hk) as [Ho [(e' & Ha & Hu)|(r' & Ha & Hr & Hu)]]; try done.
  injection Ha as -> ->. rewrite (proj2 (Z.leb_le 0 r')) by done. split; [|done]. split; [done|].
  rewrite Hu. by destruct (arg =? 0).
Qed.

Lemma set_mode_spec s value t : returns (socket_ops.set_mode s value) t (fun r t' =>
  mode_set s value r.1 (kernel_ t) (kernel_ t')).
Proof.
  unfold socket_ops.set_mode. apply returns_wrapped. intros r written ec t' Ha. apply returns_ret.
  destruct (ioctl_mode _ _ _ _ _ _ _ Ha) as [Hm _]. by destruct value.
Qed.

(** What the functions that change the state of a socket guarantee. *)
Definition keeps_flags (s state : Z) k (state' : Z) k' : Prop :=
  (in_range 8 state -> in_range 8 state') /\ (flags_true s state k -> flags_true s state' k').

Lemma with_user_mode_flags s state value r k k' : mode_set s value r k k' -> 0 <= r ->
  keeps_flags s state k (socket_ops.with_user_mode state value) k'.
Proof.
  intros [Ho Hu] Hr. rewrite (proj2 (Z.leb_le 0 r)) in Hu by done. unfold socket_ops.with_user_mode.
  split; [intros Hstate|intros Hflags].
  - destruct value; [apply in_range_lor; [done|done|by split]|by apply in_range_ldiff].
  - unfold flags_true. destruct value; [|by rewrite non_blocking_cleared].
    intros _. rewrite Hu. by apply elem_of_union_l, elem_of_singleton.
Qed.

Lemma set_user_spec s state value t :
  returns (socket_ops.set_user_non_blocking s state value) t (fun r t' =>
    moded s (kernel_ t) (kernel_ t') /\ keeps_flags s state (kernel_ t) r.1.2 (kernel_ t') /\
    (s = invalid_socket -> r.1.2 = state)).
Proof.
  unfold socket_ops.set_user_non_blocking. destruct (Z.eqb_spec s invalid_socket).
  { apply returns_ret. do 2 (split; [by split|]). done. }
  eapply returns_bind; [apply set_mode_spec|]. intros r t' Hm. pose proof (mode_set_moded _ _ _ _ _ Hm).
  destruct (Z.leb_spec 0 r.1).
  - apply returns_ret. split; [done|]. split; [|done]. by apply (with_user_mode_flags _ _ _ r.1).
  - apply returns_ret. split; [done|]. split; [|done]. split; [done|]. unfold flags_true. destruct Hm as [_ Hu].
    rewrite (proj2 (Z.leb_gt 0 r.1)) in Hu by done. by rewrite Hu.
Qed.

Lemma set_internal_spec s state value t :
  returns (socket_ops.set_internal_non_blocking s state value) t (fun r t' =>
    moded s (kernel_ t) (kernel_ t') /\ keeps_flags s state (kernel_ t) r.1.2 (kernel_ t') /\
    (s = invalid_socket -> r.1.2 = state /\ r.1.1 = false) /\
    (value = true -> r.1.1 = true -> s ∈ unblocked (kernel_ t') /\ has r.1.2 non_blocking = true)).
Proof.
  unfold socket_ops.set_internal_non_blocking. destruct (Z.eqb_spec s invalid_socket).
  { apply returns_ret. do 2 (split; [by split|]). done. }
  destruct (negb value && has state user_set_non_blocking) eqn:Hguard; [apply returns_ret; do 2 (split; [by split|]); done|].
  eapply returns_bind; [apply set_mode_spec|]. intros r t' Hm. pose proof (mode_set_moded _ _ _ _ _ Hm).
  destruct Hm as [Ho Hu]. destruct (Z.leb_spec 0 r.1).
  - apply returns_ret. cbn [fst snd]. split; [done|]. split; [|split; [done|]]; destruct value; try done.
    + split; [intros; apply in_range_lor; [done|done|by split]|]. intros _ _. rewrite Hu. by apply elem_of_union_l, elem_of_singleton.
    + split; [intros; by apply in_range_ldiff|]. intros _ Hhas. exfalso.
      cbn [negb andb] in Hguard. rewrite has_non_blocking, !Z.ldiff_spec in Hhas.
      change (Z.testbit internal_non_blocking 0) with false in Hhas. change (Z.testbit internal_non_blocking 1) with true in Hhas.
      cbn [negb] in Hhas. rewrite andb_false_r, orb_false_r, andb_true_r in Hhas. unfold has in Hguard.
      apply negb_false_iff, Z.eqb_eq in Hguard. apply (f_equal (fun z => Z.testbit z 0)) in Hguard.
      cbn beta in Hguard. rewrite Z.land_spec, Hhas in Hguard. done.
    + intros _ _. split; [rewrite Hu; by apply elem_of_union_l, elem_of_singleton|]. rewrite non_blocking_lor. apply orb_true_r.
  - apply returns_ret. cbn [fst snd]. split; [done|]. split; [|by split]. split; [done|]. unfold flags_true. by rewrite Hu.
Qed.

Lemma same_fds_moded s k k' : same_fds k k' -> moded s k k'.
Proof. intros [Ho Hu]. split; [done|]. intros fd _. by rewrite Hu. Qed.

Lemma keeps_flags_same s state k k' : same_fds k k' -> keeps_flags s state k state k'.
Proof. intros [_ Hu]. split; [done|]. unfold flags_true. by rewrite Hu. Qed.

Lemma ioctl_spec s state cmd arg t :
  returns (socket_ops.ioctl s state cmd arg) t (fun r t' =>
    moded s (kernel_ t) (kernel_ t') /\ keeps_flags s state (kernel_ t) r.1.1.2 (kernel_ t') /\
    (s = invalid_socket -> r.1.1.2 = state)).
Proof.
  unfold socket_ops.ioctl. destruct (Z.eqb_spec s invalid_socket).
  { apply returns_ret. do 2 (split; [by split|]). done. }
  apply returns_wrapped. intros r written ec t' Ha. cbn [fst snd].
  destruct (Z.eqb_spec cmd FIONBIO) as [->|Hcmd].
  - destruct (ioctl_mode _ _ _ _ _ _ _ Ha) as [Hm Hw]. pose proof (mode_set_moded _ _ _ _ _ Hm) as Hmoded.
    destruct (Z.leb_spec 0 r) as [Hr|Hr]; apply returns_ret; (split; [exact Hmoded|]); (split; [|done]); cbn [fst snd].
    + rewrite (Hw Hr). by apply (with_user_mode_flags _ _ _ r).
    + destruct Hm as [Ho Hu]. rewrite (proj2 (Z.leb_gt 0 r)) in Hu by done. by apply keeps_flags_same.
  - assert (same_fds (kernel_ t) (kernel_ t')) as Hsame.
    { apply inert_answered with (2 := Ha). cbn. by destruct (Z.eqb_spec cmd FIONBIO). }
    destruct (0 <=? r); apply returns_ret; cbn [fst snd];
      (split; [by apply same_fds_moded|]; split; [by apply keeps_flags_same|done]).
Qed.

Lemma setsockopt_flags s state level optname optval optlen t :
  returns (socket_ops.setsockopt s state level optname optval optlen) t (fun r t' =>
    same_fds (kernel_ t) (kernel_ t') /\ keeps_flags s state (kernel_ t) r.1.2 (kernel_ t') /\
    (s = invalid_socket -> r.1.2 = state)).
Proof.
  unfold socket_ops.setsockopt. destruct (Z.eqb_spec s invalid_socket).
  { apply returns_ret. do 2 (split; [by split|]). done. }
  destruct (_ && (optname =? always_fail_option)); [apply returns_ret; do 2 (split; [by split|]); done|].
  destruct (_ && (optname =? enable_connection_aborted_option)).
  { destruct (negb (optlen =? 4)); apply returns_ret; [do 2 (split; [by split|]); done|]. cbn [fst snd].
    split; [done|]. split; [|done]. split.
    - intros Hstate. destruct (hd 0 optval =? 0); [by apply in_range_ldiff|by apply in_range_lor].
    - unfold flags_true. destruct (hd 0 optval =? 0); [by rewrite non_blocking_ldiff|].
      rewrite non_blocking_lor. change (has enable_connection_aborted non_blocking) with false. by rewrite orb_false_r. }
  apply returns_wrapped. intros r written ec t' Ha. apply returns_ret. cbn [fst snd].
  assert (same_fds (kernel_ t) (kernel_ t')) as Hsame.
  { by apply inert_answered with (2 := Ha). }
  split; [done|]. split; [|done].
  destruct (_ && (optname =? SO_LINGER)); [|by apply keeps_flags_same]. split.
  - intros Hstate. by apply in_range_lor.
  - unfold flags_true. rewrite non_blocking_lor. change (has user_set_linger non_blocking) with false.
    rewrite orb_false_r. by destruct Hsame as [_ ->].
Qed.

End functions.
