(* ===== verification/AsioReactorFds.v ===== *)
(** * asio: the descriptors of the reactor

    [eventfd_select_interrupter] and the part of [epoll_reactor] that creates, closes
    and recreates the descriptors the reactor owns itself: the interrupter's one or two,
    that of epoll and that of the timer.  The kernel is a parameter that answers each
    call and says which descriptors are open; the calls of [epoll_ctl] stay those of
    AsioReactor.v. *)
From S2P Require Import Prelude AsioScheduler AsioReactor AsioTimerQueue AsioTimerSet AsioSocketOps AsioDescriptors.
Local Open Scope Z_scope.

(** ** The kernel *)

Inductive FdCall :=
| FdEventfd (flags : Z)
| FdPipe
| FdEpollCreate1 (flags : Z)
| FdEpollCreate (size : Z)
| FdTimerfdCreate (flags : Z)
| FdFcntl (fd cmd arg : Z)
| FdClose (fd : Z)
| FdWrite (fd counter : Z).

(** An error number, or the result and the descriptors that [pipe] writes. *)
Inductive FdAnswer := FdFailed (errno : Z) | FdReturned (ret : Z) (fds : list Z).

Class FdKernel (K : Type) := { fd_syscall : FdCall -> K -> FdAnswer * K }.

Definition makes_one (c : FdCall) : bool :=
  match c with FdEventfd _ | FdEpollCreate1 _ | FdEpollCreate _ | FdTimerfdCreate _ => true | _ => false end.

Definition makes_none (c : FdCall) : bool :=
  match c with FdFcntl _ _ _ | FdWrite _ _ => true | _ => false end.

(** New descriptors are not in use and not negative; [close] gives its descriptor
    back whatever it reports. *)
Class FdKernelOk (K : Type) `{FdKernel K} := {
  in_table : K -> gset Z;
  fd_nonneg k fd : fd ∈ in_table k -> 0 <= fd;
  fd_made c k a k' : makes_one c = true -> fd_syscall c k = (a, k') ->
    (exists fd, a = FdReturned fd [] /\ (fd ∉ in_table k) /\ in_table k' = ({[fd]} ∪ in_table k)) \/
    (exists e, a = FdFailed e /\ in_table k' = in_table k);
  fd_piped k a k' : fd_syscall FdPipe k = (a, k') ->
    (exists r w, a = FdReturned 0 [r; w] /\ r <> w /\ (r ∉ in_table k) /\ (w ∉ in_table k) /\
      in_table k' = ({[r; w]} ∪ in_table k)) \/
    (exists e, a = FdFailed e /\ in_table k' = in_table k);
  fd_closed fd k a k' : fd_syscall (FdClose fd) k = (a, k') -> in_table k' = (in_table k ∖ {[fd]});
  fd_kept c k a k' : makes_none c = true -> fd_syscall c k = (a, k') -> in_table k' = in_table k;
}.

(** <sys/eventfd.h>, <sys/epoll.h>, <sys/timerfd.h>, <fcntl.h>, <errno.h> *)
Definition EFD_CLOEXEC : Z := 0x80000.
Definition EFD_NONBLOCK : Z := 0x800.
Definition EPOLL_CLOEXEC : Z := 0x80000.
Definition TFD_CLOEXEC : Z := 0x80000.
Definition F_SETFD : Z := 2.
Definition F_SETFL : Z := 4.
Definition FD_CLOEXEC : Z := 1.
Definition O_NONBLOCK : Z := 0x800.
Definition EINVAL : Z := 22.
Definition ENOSYS : Z := 38.
Definition epoll_size : Z := 20000.

(** ** The state *)

(** The members of the interrupter and of the reactor; -1 stands for no descriptor. *)
Record Fds := mkFds {
  read_descriptor_ : Z;
  write_descriptor_ : Z;
  epoll_fd_ : Z;
  own_timer_fd_ : Z;
}.

Record FdReactor (K Q : Type) := mkFdReactor { kernel_of : K; own_fds : Fds; reactor_of : Reactor Q }.
Arguments mkFdReactor {K Q} _ _ _.
Arguments kernel_of {K Q} _.
Arguments own_fds {K Q} _.
Arguments reactor_of {K Q} _.

Inductive FdEffect := FdSys (c : FdCall) | InReactor (e : ReactorEffect).

Inductive fork_event := fork_prepare | fork_parent | fork_child.

Definition no_fds : Fds := mkFds (-1) (-1) (-1) (-1).

(** Whether the reactor has a timer descriptor is all AsioReactor.v knows of it. *)
Definition set_has_timer_fd {Q} (x : bool) (s : Reactor Q) : Reactor Q :=
  mkReactor (states s) (live_list_ s) (free_list_ s) x (timer_queues_ s) (reactor_shutdown_ s) (op_ec_ s)
    (performs s) (ctls s) (waits s).

(** ** The interrupter *)

Section fds.
Context {K : Type} `{!FdKernel K} {Q : Type} `{!TimerQueueSet Q}.
Context (epoll_ctl : nat -> Z).

Local Abbreviation M := (comp (FdReactor K Q) FdEffect).
Implicit Types (s : FdReactor K Q) (f : Fds).

(** A call with what it returns, what it writes and [errno] if it failed. *)
Definition sys (c : FdCall) : M (Z * list Z * Z) :=
  s ← get_state;
  emit (FdSys c) ;;
  let '(a, k) := fd_syscall c (kernel_of s) in
  modify (fun s => mkFdReactor k (own_fds s) (reactor_of s)) ;;
  (mret match a with FdFailed e => (-1, [], e) | FdReturned r fds => (r, fds, 0) end).

Definition set_own (g : Fds -> Fds) : M unit :=
  modify (fun s => mkFdReactor (kernel_of s) (g (own_fds s)) (reactor_of s)).

Definition on_own_reactor {A} (m : comp (Reactor Q) ReactorEffect A) : M A := fun s =>
  let '(es, r, a) := m (reactor_of s) in (InReactor <$> es, mkFdReactor (kernel_of s) (own_fds s) r, a).

Definition set_interrupter (r w : Z) : M unit := set_own (fun f => mkFds r w (epoll_fd_ f) (own_timer_fd_ f)).

Definition fcntl (fd cmd arg : Z) : M unit := sys (FdFcntl fd cmd arg) ;; (mret tt).

(** The two calls of [fcntl] that follow a creation. *)
Definition make_non_blocking_on_exec (fd : Z) : M unit := fcntl fd F_SETFL O_NONBLOCK ;; (fcntl fd F_SETFD FD_CLOEXEC).

(** [eventfd], or without flags where the kernel does not know them. *)
Definition open_eventfd : M unit :=
  r ← sys (FdEventfd (Z.lor EFD_CLOEXEC EFD_NONBLOCK));
  set_interrupter r.1.1 r.1.1 ;;
  (when ((r.1.1 =? -1) && (r.2 =? EINVAL))
     (r ← sys (FdEventfd 0);
      set_interrupter r.1.1 r.1.1 ;; (when (negb (r.1.1 =? -1)) (make_non_blocking_on_exec r.1.1)))).

Definition open_pipe : M unit :=
  r ← sys FdPipe;
  match r with
  | (0, [fd0; fd1], _) =>
      s ← get_state; set_interrupter fd0 (write_descriptor_ (own_fds s)) ;;
      (make_non_blocking_on_exec fd0 ;;
       (set_interrupter fd0 fd1 ;; (make_non_blocking_on_exec fd1)))
  | _ => fail_with (SystemError "eventfd_select_interrupter")
  end.

Definition open_descriptors : M unit :=
  open_eventfd ;;
  (s ← get_state;
   when (read_descriptor_ (own_fds s) =? -1) open_pipe).

Definition close_fd (fd : Z) : M unit := sys (FdClose fd) ;; (mret tt).

Definition close_descriptors : M unit :=
  s ← get_state;
  let f := own_fds s in
  when (negb (write_descriptor_ f =? -1) && negb (write_descriptor_ f =? read_descriptor_ f))
    (close_fd (write_descriptor_ f)) ;;
  (when (negb (read_descriptor_ f =? -1)) (close_fd (read_descriptor_ f))).

Definition recreate : M unit := close_descriptors ;; (set_interrupter (-1) (-1) ;; open_descriptors).

Definition interrupt_select : M unit :=
  s ← get_state; sys (FdWrite (write_descriptor_ (own_fds s)) 1) ;; (mret tt).

(** ** The reactor *)

Definition do_epoll_create : M Z :=
  r ← sys (FdEpollCreate1 EPOLL_CLOEXEC);
  r ← (if (r.1.1 =? -1) && ((r.2 =? EINVAL) || (r.2 =? ENOSYS))
       then r ← sys (FdEpollCreate epoll_size);
            when (negb (r.1.1 =? -1)) (fcntl r.1.1 F_SETFD FD_CLOEXEC) ;; (mret r)
       else mret r);
  if r.1.1 =? -1 then fail_with (SystemError "epoll") else mret r.1.1.

(** -1 if there is no timer descriptor to be had. *)
Definition do_timerfd_create : M Z :=
  r ← sys (FdTimerfdCreate TFD_CLOEXEC);
  if (r.1.1 =? -1) && (r.2 =? EINVAL)
  then r ← sys (FdTimerfdCreate 0);
       when (negb (r.1.1 =? -1)) (fcntl r.1.1 F_SETFD FD_CLOEXEC) ;; (mret r.1.1)
  else mret r.1.1.

Definition open_epoll : M unit :=
  fd ← do_epoll_create;
  set_own (fun f => mkFds (read_descriptor_ f) (write_descriptor_ f) fd (own_timer_fd_ f)).

Definition open_timer : M unit :=
  fd ← do_timerfd_create;
  set_own (fun f => mkFds (read_descriptor_ f) (write_descriptor_ f) (epoll_fd_ f) fd) ;;
  (modify (fun s => mkFdReactor (kernel_of s) (own_fds s) (set_has_timer_fd (negb (fd =? -1)) (reactor_of s)))).

(** What a member that was constructed does when a later one throws. *)
Definition unwinding (m cleanup : M unit) : M unit := fun s =>
  let '(es, s', r) := m s in
  match r with
  | Ok a => (es, s', Ok a)
  | Err e => let '(es', s'', r') := cleanup s' in (es ++ es', s'', match r' with Ok _ => Err e | Err e' => Err e' end)
  end.

(** [epoll_reactor::epoll_reactor]: the interrupter, the descriptors of epoll and of
    the timer, then the body. *)
Definition construct_epoll_reactor : M unit :=
  set_own (fun _ => no_fds) ;;
  (open_descriptors ;;
   (unwinding open_epoll close_descriptors ;;
    (open_timer ;; (on_own_reactor (construct_reactor epoll_ctl))))).

(** [~epoll_reactor], then that of its interrupter. *)
Definition destroy_epoll_reactor : M unit :=
  s ← get_state;
  let f := own_fds s in
  when (negb (epoll_fd_ f =? -1)) (close_fd (epoll_fd_ f)) ;;
  (when (negb (own_timer_fd_ f =? -1)) (close_fd (own_timer_fd_ f)) ;;
   close_descriptors).

(** The loop of [notify_fork] over the list of descriptor states in use. *)
Definition reregister (d : nat) : comp (Reactor Q) ReactorEffect unit :=
  state ← deref d;
  result ← call_epoll_ctl epoll_ctl EPOLL_CTL_ADD (Socket (descriptor_ state)) (registered_events_ state) (PtrDescriptor d);
  if negb (result =? 0) then fail_with (SystemError "epoll re-registration") else mret tt.

Definition reregister_all : comp (Reactor Q) ReactorEffect unit :=
  s ← get_state; for_each reregister (live_list_ s).

Definition reopen_epoll : M unit :=
  s ← get_state;
  when (negb (epoll_fd_ (own_fds s) =? -1)) (close_fd (epoll_fd_ (own_fds s))) ;;
  (set_own (fun f => mkFds (read_descriptor_ f) (write_descriptor_ f) (-1) (own_timer_fd_ f)) ;; open_epoll).

Definition reopen_timer : M unit :=
  s ← get_state;
  when (negb (own_timer_fd_ (own_fds s) =? -1)) (close_fd (own_timer_fd_ (own_fds s))) ;;
  (set_own (fun f => mkFds (read_descriptor_ f) (write_descriptor_ f) (epoll_fd_ f) (-1)) ;; open_timer).

Definition notify_fork (fork_ev : fork_event) : M unit :=
  match fork_ev with
  | fork_child =>
      reopen_epoll ;;
      (reopen_timer ;;
       (recreate ;;
        (on_own_reactor (construct_reactor epoll_ctl) ;;
         (on_own_reactor (update_timeout epoll_ctl) ;; (on_own_reactor reregister_all)))))
  | _ => mret tt
  end.

(** The owner of the reactor catches what [notify_fork] throws. *)
Definition fork_attempt (fork_ev : fork_event) : M unit := fun s =>
  match notify_fork fork_ev s with
  | (es, s', Err (SystemError _)) => (es, s', Ok tt)
  | outcome => outcome
  end.

End fds.

(** ** What the reactor owns *)

(** The descriptors in [f]; the two of an eventfd are one. *)
Definition one_fd (fd : Z) : list Z := if fd =? -1 then [] else [fd].
Definition interrupter_fds (f : Fds) : list Z :=
  one_fd (read_descriptor_ f) ++ (if write_descriptor_ f =? read_descriptor_ f then [] else one_fd (write_descriptor_ f)).
Definition owned (f : Fds) : list Z := interrupter_fds f ++ one_fd (epoll_fd_ f) ++ one_fd (own_timer_fd_ f).

Section ownership.
Context {K : Type} `{!FdKernel K, !FdKernelOk K} {Q : Type} `{!TimerQueueSet Q, !TimerQueueSetOk Q}.
Context (epoll_ctl : nat -> Z).
Implicit Types (s : FdReactor K Q) (base : gset Z).

Local Abbreviation M := (comp (FdReactor K Q) FdEffect).

(** The descriptors [l] are open besides those of [base], each once. *)
Record holds base (l : list Z) s : Prop := {
  ho_fds : elements (in_table (kernel_of s)) ≡ₚ l ++ elements base;
  ho_reactor : reactor_ok (reactor_of s);
}.

(** Between the calls of the reactor these are the ones in its members. *)
Definition at_rest base s : Prop := holds base (owned (own_fds s)) s.

Lemma holds_perm base l l' s : l ≡ₚ l' -> holds base l s -> holds base l' s.
Proof. intros Hl [Hf Hr]. split; [by rewrite <- Hl|done]. Qed.

Lemma holds_members base l s g : holds base l s -> holds base l (mkFdReactor (kernel_of s) g (reactor_of s)).
Proof. by intros [Hf Hr]. Qed.

(** [m] leaves the members as they are and [l] open. *)
Definition keeping {A} base l s (m : M A) (R : A -> list Z) : Prop :=
  returns m s (fun a s' => holds base (R a ++ l) s' /\ own_fds s' = own_fds s).

Lemma sys_returns c s : returns (sys c) s (fun r s' => exists a k, fd_syscall c (kernel_of s) = (a, k) /\
  s' = mkFdReactor k (own_fds s) (reactor_of s) /\
  r = match a with FdFailed e => (-1, [], e) | FdReturned r fds => (r, fds, 0) end).
Proof.
  unfold sys. apply returns_get. eapply returns_bind; [by apply returns_emit with (Φ := fun _ s' => s' = s)|]. intros _ ? ->.
  destruct (fd_syscall c (kernel_of s)) as [a k].
  eapply returns_bind; [by apply returns_modify with (Φ := fun _ s' => s' = mkFdReactor k (own_fds s) (reactor_of s))|].
  intros _ ? ->. apply returns_ret. eauto.
Qed.

Lemma sys_kept base l c s : makes_none c = true -> holds base l s -> keeping base l s (sys c) (fun _ => []).
Proof.
  intros Hc [Hf Hr]. eapply returns_impl; [apply sys_returns|]. cbn beta. intros r ? (a & k & Hk & -> & _).
  split; [|done]. split; [|done]. cbn [kernel_of]. by rewrite (fd_kept _ _ _ _ Hc Hk).
Qed.

Lemma fcntl_kept base l fd cmd arg s : holds base l s -> keeping base l s (fcntl fd cmd arg) (fun _ => []).
Proof. intros Hs. eapply returns_bind; [by apply (sys_kept base l)|]. intros r s' Hs'. by apply returns_ret. Qed.

Lemma keeping_bind {A B} base l s (m : M A) (f : A -> M B) Φ R : keeping base l s m R ->
  (forall a s', holds base (R a ++ l) s' -> own_fds s' = own_fds s -> returns (f a) s' Φ) -> returns (m ≫= f) s Φ.
Proof. intros Hm Hf. eapply returns_bind; [exact Hm|]. cbn beta. intros a s' [Hh Ho]. by apply Hf. Qed.

Lemma made_one k k' fd : (fd ∉ in_table k) -> in_table k' = ({[fd]} ∪ in_table k) ->
  one_fd fd = [fd] /\ elements (in_table k') ≡ₚ fd :: elements (in_table k).
Proof.
  intros Hnew Ho. pose proof (fd_nonneg k' fd) as Hpos. rewrite Ho in Hpos. unfold one_fd.
  destruct (Z.eqb_spec fd (-1)) as [->|_]; [exfalso; destruct Hpos; [by apply elem_of_union_l, elem_of_singleton|done]|].
  split; [done|]. rewrite Ho. by apply elements_union_singleton.
Qed.

(** A call that makes a descriptor, or returns -1. *)
Lemma sys_made base l c s : makes_one c = true -> holds base l s -> keeping base l s (sys c) (fun r => one_fd r.1.1).
Proof.
  intros Hc [Hf Hr]. eapply returns_impl; [apply sys_returns|]. cbn beta. intros r ? (a & k & Hk & -> & ->).
  split; [|done]. split; [|done]. cbn [kernel_of].
  destruct (fd_made _ _ _ _ Hc Hk) as [(fd & -> & Hnew & Ho)|(e & -> & ->)]; [|done].
  destruct (made_one _ _ _ Hnew Ho) as [H1 H2]. cbn [fst]. rewrite H1, H2, Hf. done.
Qed.

Lemma close_fd_closes base l fd s : holds base (fd :: l) s -> keeping base l s (close_fd fd) (fun _ => []).
Proof.
  intros [Hf Hr]. eapply returns_bind; [apply sys_returns|]. cbn beta. intros r ? (a & k & Hk & -> & _). apply returns_ret.
  split; [|done]. split; [|done]. cbn [kernel_of app] in *. rewrite (fd_closed _ _ _ _ Hk).
  assert (fd ∈ in_table (kernel_of s)) as Hfd by (apply elem_of_elements; rewrite Hf; by left).
  apply (Permutation_cons_inv (a := fd)). rewrite <- Hf.
  rewrite (union_difference_singleton_L fd (in_table (kernel_of s))) at 2 by done.
  rewrite elements_union_singleton; [done|]. rewrite elem_of_difference, elem_of_singleton. tauto.
Qed.

Lemma close_if_open base l fd s : holds base (one_fd fd ++ l) s ->
  keeping base l s (when (negb (fd =? -1)) (close_fd fd)) (fun _ => []).
Proof.
  unfold one_fd. destruct (Z.eqb_spec fd (-1)) as [->|_]; cbn [negb when app]; [intros; by apply returns_ret|].
  apply close_fd_closes.
Qed.

(** A call that changes nothing, and then another. *)
Lemma keeping_then {A B} base l s (m : M A) (f : A -> M B) R : keeping base l s m (fun _ => []) ->
  (forall a s', holds base l s' -> keeping base l s' (f a) R) -> keeping base l s (m ≫= f) R.
Proof.
  intros Hm Hf. eapply returns_bind; [exact Hm|]. cbn beta. intros a s' [Hh Ho].
  eapply returns_impl; [by apply Hf|]. cbn beta. intros b s'' [Hh' Ho']. split; [done|congruence].
Qed.

Lemma keeping_ret {A} base l s (a : A) R : holds base (R a ++ l) s -> keeping base l s (mret a) R.
Proof. intros Hs. by apply returns_ret. Qed.

Lemma keeping_when base l s b (m : M unit) : holds base l s -> keeping base l s m (fun _ => []) ->
  keeping base l s (when b m) (fun _ => []).
Proof. intros Hs Hm. destruct b; [done|by apply keeping_ret]. Qed.

Lemma non_blocking_kept base l fd s : holds base l s -> keeping base l s (make_non_blocking_on_exec fd) (fun _ => []).
Proof. intros Hs. apply keeping_then; [by apply fcntl_kept|]. intros _ s' Hs'. by apply fcntl_kept. Qed.

(** *** The interrupter *)

Definition with_interrupter (r w : Z) (f : Fds) : Fds := mkFds r w (epoll_fd_ f) (own_timer_fd_ f).

(** [m] gives the interrupter the descriptors [r] and [w]. *)
Lemma set_interrupter_run r w s : set_interrupter r w s =
  ([], mkFdReactor (kernel_of s) (with_interrupter r w (own_fds s)) (reactor_of s), Ok tt).
Proof. done. Qed.

Lemma open_eventfd_opens base l s : holds base l s -> returns open_eventfd s (fun _ s' => exists fd,
  own_fds s' = with_interrupter fd fd (own_fds s) /\ holds base (one_fd fd ++ l) s').
Proof.
  intros Hs. unfold open_eventfd. apply (keeping_bind base l s _ _ _ (fun r => one_fd r.1.1)); [by apply sys_made|].
  intros [[fd fds] e] s1 Hs1 Ho1. cbn [fst snd] in *. eapply returns_run; [apply set_interrupter_run|].
  apply (holds_members _ _ _ (with_interrupter fd fd (own_fds s1))) in Hs1. rewrite Ho1 in Hs1 |- *.
  destruct (Z.eqb_spec fd (-1)) as [->|Hfd]; cbn [andb].
  2: { apply returns_ret. by exists fd. }
  destruct (e =? EINVAL); cbn [when]; [|apply returns_ret; by exists (-1)].
  apply (keeping_bind base l _ _ _ _ (fun r => one_fd r.1.1)); [by apply sys_made|].
  intros [[fd fds'] e'] s2 Hs2 Ho2. cbn [fst snd own_fds] in *. eapply returns_run; [apply set_interrupter_run|].
  rewrite Ho2. cbn [with_interrupter epoll_fd_ own_timer_fd_].
  apply (holds_members _ _ _ (with_interrupter fd fd (own_fds s))) in Hs2.
  eapply returns_impl; [apply (keeping_when base); [exact Hs2|by apply non_blocking_kept]|].
  cbn beta. intros _ s3 [Hs3 Ho3]. exists fd. rewrite Ho3. by split.
Qed.

Lemma open_pipe_opens base l s : holds base l s -> ends open_pipe s (fun _ s' => exists r w, r <> w /\
    own_fds s' = with_interrupter r w (own_fds s) /\ holds base (one_fd r ++ one_fd w ++ l) s')
  (fun s' => own_fds s' = own_fds s /\ holds base l s').
Proof.
  intros Hs. unfold open_pipe. eapply ends_bind; [apply ends_returns, sys_returns|]. cbn beta.
  intros r ? (a & k & Hk & -> & ->). destruct Hs as [Hf Hr].
  destruct (fd_piped _ _ _ Hk) as [(fd0 & fd1 & -> & Hne & H0 & H1 & Ho)|(e & -> & Ho)].
  2: { apply ends_throw. split; [done|]. split; [cbn [kernel_of]; by rewrite Ho|done]. }
  apply ends_returns. apply returns_get. eapply returns_run; [apply set_interrupter_run|]. cbn [own_fds kernel_of reactor_of].
  assert (one_fd fd0 = [fd0] /\ one_fd fd1 = [fd1]) as [E0 E1].
  { assert (forall fd, fd ∈ ({[fd0; fd1]} : gset Z) -> one_fd fd = [fd]) as Hone; [|split; apply Hone; [apply elem_of_union_l|apply elem_of_union_r]; by apply elem_of_singleton].
    intros fd Hfd. pose proof (fd_nonneg k fd) as Hpos. rewrite Ho in Hpos. unfold one_fd.
    destruct (Z.eqb_spec fd (-1)) as [->|_]; [|done]. destruct Hpos; [by apply elem_of_union_l|done]. }
  assert (holds base (one_fd fd0 ++ one_fd fd1 ++ l) (mkFdReactor k (own_fds s) (reactor_of s))) as Hs1.
  { split; [|done]. cbn [kernel_of]. rewrite E0, E1, Ho, <- (assoc_L (∪)), !elements_union_singleton; [|done|by rewrite not_elem_of_union, not_elem_of_singleton].
    rewrite Hf. done. }
  set (l' := one_fd fd0 ++ one_fd fd1 ++ l) in *.
  eapply returns_bind; [apply (non_blocking_kept base l'); by apply (holds_members _ _ _ _ Hs1)|]. cbn beta.
  intros _ s2 [Hs2 Ho2]. eapply returns_run; [apply set_interrupter_run|].
  eapply returns_impl; [apply (non_blocking_kept base l'); by apply (holds_members _ _ _ _ Hs2)|]. cbn beta.
  intros _ s3 [Hs3 Ho3]. exists fd0, fd1. split; [done|]. split; [|done]. by rewrite Ho3; cbn [own_fds]; rewrite Ho2.
Qed.

(** The interrupter's descriptors come on top of [l], or it has none. *)
Lemma open_descriptors_opens base l s : holds base l s -> ends open_descriptors s
  (fun _ s' => exists r w, own_fds s' = with_interrupter r w (own_fds s) /\
    holds base (interrupter_fds (own_fds s') ++ l) s')
  (fun s' => own_fds s' = with_interrupter (-1) (-1) (own_fds s) /\ holds base l s').
Proof.
  intros Hs. unfold open_descriptors. eapply ends_bind; [by apply ends_returns, (open_eventfd_opens base l)|].
  cbn beta. intros _ s1 (fd & Ho1 & Hs1).
  apply ends_get. rewrite Ho1. cbn [with_interrupter read_descriptor_]. unfold one_fd in Hs1. destruct (Z.eqb_spec fd (-1)) as [->|Hfd]; cbn [when].
  - eapply ends_impl; [by apply (open_pipe_opens base l)|..]; cbn beta.
    + intros _ s2 (r & w & Hne & Ho2 & Hs2). exists r, w. rewrite Ho2, Ho1. split; [done|].
      unfold interrupter_fds. cbn. destruct (Z.eqb_spec w r); [done|]. by rewrite <- (assoc_L (++)).
    + intros s2 [Ho2 Hs2]. by rewrite Ho2.
  - apply ends_ret. exists fd, fd. split; [done|]. rewrite Ho1. unfold interrupter_fds, one_fd. cbn.
    rewrite Z.eqb_refl. by destruct (Z.eqb_spec fd (-1)).
Qed.

Lemma close_descriptors_closes base l s : holds base (interrupter_fds (own_fds s) ++ l) s ->
  keeping base l s close_descriptors (fun _ => []).
Proof.
  intros Hs. unfold close_descriptors. apply returns_get. cbv zeta. unfold interrupter_fds in Hs.
  set (r := read_descriptor_ (own_fds s)) in *. set (w := write_descriptor_ (own_fds s)) in *.
  destruct (Z.eqb_spec w r) as [Hwr|Hwr]; cbn [negb].
  - rewrite andb_false_r. cbn [when]. eapply returns_run; [reflexivity|]. rewrite app_nil_r in Hs. by apply close_if_open.
  - rewrite andb_true_r. eapply returns_bind.
    + apply (close_if_open base (one_fd r ++ l) w). eapply holds_perm; [|exact Hs]. solve_Permutation.
    + cbn beta. intros _ s1 [Hs1 Ho1]. eapply returns_impl; [by apply close_if_open|]. cbn beta.
      intros _ s2 [Hs2 Ho2]. split; [done|congruence].
Qed.

Lemma recreate_recreates base l s : holds base (interrupter_fds (own_fds s) ++ l) s -> ends recreate s
  (fun _ s' => exists r w, own_fds s' = with_interrupter r w (own_fds s) /\
    holds base (interrupter_fds (own_fds s') ++ l) s')
  (fun s' => own_fds s' = with_interrupter (-1) (-1) (own_fds s) /\ holds base l s').
Proof.
  intros Hs. unfold recreate. eapply ends_bind; [apply ends_returns; by apply (close_descriptors_closes base l)|].
  cbn beta. intros _ s1 [Hs1 Ho1]. eapply ends_run; [apply set_interrupter_run|].
  eapply ends_impl; [apply (open_descriptors_opens base l); by apply (holds_members _ _ _ _ Hs1)|..]; cbn beta;
    cbn [own_fds]; rewrite Ho1; done.
Qed.

(** *** The descriptors of epoll and of the timer *)

Definition with_epoll (fd : Z) (f : Fds) : Fds := mkFds (read_descriptor_ f) (write_descriptor_ f) fd (own_timer_fd_ f).
Definition with_timer (fd : Z) (f : Fds) : Fds := mkFds (read_descriptor_ f) (write_descriptor_ f) (epoll_fd_ f) fd.

(** A second attempt, after which the descriptor is closed on [exec]. *)
Lemma second_attempt base l s c : makes_one c = true -> holds base l s ->
  keeping base l s (r ← sys c; when (negb (r.1.1 =? -1)) (fcntl r.1.1 F_SETFD FD_CLOEXEC) ;; (mret r))
    (fun r => one_fd r.1.1).
Proof.
  intros Hc Hs. eapply returns_bind; [by apply (sys_made base l)|]. cbn beta. intros r s1 [Hs1 Ho1].
  eapply returns_bind; [apply (keeping_when base); [exact Hs1|by apply fcntl_kept]|]. cbn beta. intros _ s2 [Hs2 Ho2].
  apply returns_ret. split; [done|congruence].
Qed.

Lemma epoll_created base l s : holds base l s -> ends do_epoll_create s
  (fun fd s' => own_fds s' = own_fds s /\ holds base (one_fd fd ++ l) s') (fun s' => own_fds s' = own_fds s /\ holds base l s').
Proof.
  intros Hs. unfold do_epoll_create. eapply ends_bind; [apply ends_returns; by apply (sys_made base l)|].
  cbn beta. intros r s1 [Hs1 Ho1].
  apply ends_bind with (Φ := fun r s' => own_fds s' = own_fds s /\ holds base (one_fd r.1.1 ++ l) s').
  - destruct (Z.eqb_spec r.1.1 (-1)) as [Hr|Hr]; cbn [andb]; [|by apply ends_ret]. rewrite Hr in Hs1. cbn in Hs1.
    destruct (_ || _); [|apply ends_ret; by rewrite Hr]. apply ends_returns.
    eapply returns_impl; [by apply (second_attempt base l)|]. cbn beta. intros r' s2 [Hs2 Ho2]. split; [congruence|done].
  - intros r' s2 [Ho2 Hs2]. destruct (Z.eqb_spec r'.1.1 (-1)) as [Hr|Hr]; [|by apply ends_ret].
    apply ends_throw. rewrite Hr in Hs2. done.
Qed.

Lemma timer_created base l s : holds base l s -> keeping base l s do_timerfd_create (fun fd => one_fd fd).
Proof.
  intros Hs. unfold do_timerfd_create. eapply returns_bind; [by apply (sys_made base l)|]. cbn beta. intros r s1 [Hs1 Ho1].
  destruct (Z.eqb_spec r.1.1 (-1)) as [Hr|Hr]; cbn [andb]; [|by apply returns_ret]. rewrite Hr in Hs1. cbn in Hs1.
  destruct (_ =? _); [|apply returns_ret; by rewrite Hr].
  eapply returns_bind; [by apply (sys_made base l)|]. cbn beta. intros r' s2 [Hs2 Ho2].
  eapply returns_bind; [apply (keeping_when base); [exact Hs2|by apply fcntl_kept]|]. cbn beta. intros _ s3 [Hs3 Ho3].
  apply returns_ret. split; [done|congruence].
Qed.

Lemma open_epoll_opens base l s : holds base l s -> ends open_epoll s
  (fun _ s' => exists fd, own_fds s' = with_epoll fd (own_fds s) /\ holds base (one_fd fd ++ l) s')
  (fun s' => own_fds s' = own_fds s /\ holds base l s').
Proof.
  intros Hs. eapply ends_bind; [by apply (epoll_created base l)|]. cbn beta. intros fd s1 [Ho1 Hs1].
  apply ends_returns, returns_modify. exists fd. cbn [own_fds]. rewrite Ho1. split; [done|]. by apply (holds_members _ _ _ _ Hs1).
Qed.

Lemma open_timer_opens base l s : holds base l s -> returns open_timer s (fun _ s' => exists fd,
  own_fds s' = with_timer fd (own_fds s) /\ holds base (one_fd fd ++ l) s').
Proof.
  intros Hs. eapply returns_bind; [by apply (timer_created base l)|]. cbn beta. intros fd s1 [Hs1 Ho1].
  eapply returns_run; [done|]. apply returns_modify. exists fd. cbn [own_fds kernel_of reactor_of]. rewrite Ho1.
  split; [done|]. destruct Hs1 as [Hf Hr]. by split.
Qed.

(** *** The calls of the reactor in between *)

Lemma on_own_reactor_ends {A} base l s (m : comp (Reactor Q) ReactorEffect A) : holds base l s ->
  ends m (reactor_of s) (fun _ r => reactor_ok r) reactor_ok ->
  ends (on_own_reactor m) s (fun _ s' => own_fds s' = own_fds s /\ holds base l s')
    (fun s' => own_fds s' = own_fds s /\ holds base l s').
Proof.
  intros [Hf Hr] (es & r & a & Hrun & Hends). exists (InReactor <$> es), (mkFdReactor (kernel_of s) (own_fds s) r), a.
  unfold on_own_reactor. rewrite Hrun. split; [done|]. destruct a as [a|[]]; try done; by split.
Qed.

Lemma ctl_returns o target events ptr r : reactor_ok r -> returns (call_epoll_ctl epoll_ctl o target events ptr) r
  (fun _ r' => reactor_ok r' /\ live_list_ r' = live_list_ r /\ states r' = states r).
Proof. intros Hr. unfold call_epoll_ctl. eexists _, _, _. split; [reflexivity|done]. Qed.

Lemma construct_reactor_returns r : reactor_ok r -> returns (construct_reactor epoll_ctl) r (fun _ => reactor_ok).
Proof.
  intros Hr. unfold construct_reactor. eapply returns_bind; [by apply ctl_returns|]. cbn beta. intros _ r1 (Hr1 & _ & _).
  eapply returns_run; [done|]. apply returns_get. destruct (timer_fd_ r1); [|by apply returns_ret].
  eapply returns_bind; [by apply ctl_returns|]. cbn beta. intros _ r2 (Hr2 & _ & _). by apply returns_ret.
Qed.

Lemma update_timeout_returns r : reactor_ok r -> returns (update_timeout epoll_ctl) r (fun _ => reactor_ok).
Proof.
  intros Hr. destruct (update_timeout_accounts (fun _ => not_done) epoll_ctl (fun _ => []) r [] Hr) as (es & r' & a & out & Hrun & Hok & _).
  by exists es, r', a.
Qed.

Lemma reregister_ends ds r : reactor_ok r -> Forall (fun d => is_Some (states r !! d)) ds ->
  ends (for_each (reregister epoll_ctl) ds) r (fun _ => reactor_ok) reactor_ok.
Proof.
  revert r. induction ds as [|d ds IH]; intros r Hr Hds; [by apply ends_ret|]. apply Forall_cons in Hds as [[st Hd] Hds].
  cbn [for_each]. apply ends_bind with (Φ := fun _ r' => reactor_ok r' /\ states r' = states r).
  - unfold reregister, deref. eapply ends_run; [rewrite run_get, Hd; reflexivity|].
    eapply ends_bind; [by apply ends_returns, ctl_returns|]. cbn beta. intros result r1 (Hr1 & _ & Hst).
    destruct (negb _); [by apply ends_throw|by apply ends_ret].
  - intros _ r1 [Hr1 Hst]. apply IH; [done|]. by rewrite Hst.
Qed.

(** *** The reactor as a whole *)

Lemma at_rest_members base s l f : own_fds s = f -> owned f ≡ₚ l -> holds base l s -> at_rest base s.
Proof. intros Ho Hl Hs. unfold at_rest. rewrite Ho. by eapply holds_perm; [symmetry; exact Hl|]. Qed.

Lemma own_reactor_at_rest {A} base s (m : comp (Reactor Q) ReactorEffect A) : at_rest base s ->
  (forall r, reactor_ok r -> ends m r (fun _ r => reactor_ok r) reactor_ok) ->
  ends (on_own_reactor m) s (fun _ => at_rest base) (at_rest base).
Proof.
  intros Hs Hm. eapply ends_impl; [apply (on_own_reactor_ends base _ s m Hs), Hm, Hs|..]; cbn beta.
  - intros _ s' [Ho Hs']. unfold at_rest. by rewrite Ho.
  - intros s' [Ho Hs']. unfold at_rest. by rewrite Ho.
Qed.

(** Without descriptors of its own, nothing but [base] is open. *)
Lemma construct_ends base s : holds base [] s ->
  ends (construct_epoll_reactor epoll_ctl) s (fun _ => at_rest base) (holds base []).
Proof.
  intros Hs. unfold construct_epoll_reactor. eapply ends_run; [reflexivity|].
  apply (holds_members _ _ _ no_fds) in Hs. eapply ends_bind with (Φ := fun _ s' => exists r w,
    own_fds s' = with_interrupter r w no_fds /\ holds base (interrupter_fds (own_fds s') ++ []) s').
  { eapply ends_impl; [by apply (open_descriptors_opens base [])|done|by intros s1 [_ H1]]. }
  intros _ s1 (r & w & Ho1 & Hs1). eapply ends_bind with
    (Φ := fun _ s' => exists fd, own_fds s' = with_epoll fd (own_fds s1) /\ holds base (one_fd fd ++ interrupter_fds (own_fds s1)) s').
  - rewrite app_nil_r in Hs1. destruct (open_epoll_opens base _ _ Hs1) as (es & s2 & a & Hrun & Hends).
    unfold ends, unwinding. rewrite Hrun. destruct a as [[]|[]]; try done; [by eexists _, _, (Ok tt)|].
    destruct Hends as [Ho2 Hs2]. destruct (close_descriptors_closes base [] s2) as (es' & s3 & [] & Hclose & Hs3 & _).
    { by rewrite app_nil_r, Ho2. }
    rewrite Hclose. eexists _, _, (Err (SystemError _)). by split.
  - intros _ s2 (fd & Ho2 & Hs2). eapply ends_bind; [apply ends_returns; exact (open_timer_opens base _ s2 Hs2)|].
    cbn beta. intros _ s3 (fd' & Ho3 & Hs3).
    assert (at_rest base s3) as Hrest.
    { eapply (at_rest_members _ _ _ _ Ho3); [|exact Hs3]. rewrite Ho2, Ho1. unfold owned. cbn. solve_Permutation. }
    apply ends_returns. destruct (on_own_reactor_ends base _ s3 (construct_reactor epoll_ctl) Hrest) as (es & s4 & a & Hrun & Hends).
    { apply ends_returns, construct_reactor_returns, Hrest. }
    destruct (construct_reactor_returns (reactor_of s3)) as (es' & r' & [] & Hrun' & _); [apply Hrest|].
    unfold on_own_reactor in Hrun. rewrite Hrun' in Hrun. injection Hrun as <- <- <-.
    eexists _, _, tt. split; [by unfold on_own_reactor; rewrite Hrun'|]. destruct Hends as [_ Hh]. done.
Qed.

Lemma reopen_epoll_ends base s : at_rest base s -> ends reopen_epoll s (fun _ => at_rest base) (at_rest base).
Proof.
  intros Hs. unfold reopen_epoll. destruct (own_fds s) as [r w e t] eqn:Ho.
  set (rest := interrupter_fds (own_fds s) ++ one_fd t). apply ends_get. rewrite Ho. eapply ends_bind.
  { apply ends_returns. apply (close_if_open base rest e s).
    eapply holds_perm; [|exact Hs]. unfold rest, owned. rewrite Ho. cbn. solve_Permutation. }
  cbn beta. intros _ s1 [Hs1 Ho1]. eapply ends_run; [reflexivity|].
  apply (holds_members _ _ _ (with_epoll (-1) (own_fds s1))) in Hs1. cbn [app] in Hs1.
  eapply ends_impl; [by apply (open_epoll_opens base rest)|..]; cbn beta; cbn [own_fds].
  - intros _ s2 (fd & Ho2 & Hs2). eapply (at_rest_members _ _ _ _ Ho2); [|exact Hs2].
    rewrite Ho1. unfold rest, owned. rewrite Ho. cbn. solve_Permutation.
  - intros s2 [Ho2 Hs2]. eapply (at_rest_members _ _ _ _ Ho2); [|exact Hs2].
    rewrite Ho1. unfold rest, owned. rewrite Ho. cbn. solve_Permutation.
Qed.

Lemma reopen_timer_returns base s : at_rest base s -> returns reopen_timer s (fun _ => at_rest base).
Proof.
  intros Hs. unfold reopen_timer. destruct (own_fds s) as [r w e t] eqn:Ho.
  set (rest := interrupter_fds (own_fds s) ++ one_fd e). apply returns_get. rewrite Ho. eapply returns_bind.
  { apply (close_if_open base rest t s).
    eapply holds_perm; [|exact Hs]. unfold rest, owned. rewrite Ho. cbn. solve_Permutation. }
  cbn beta. intros _ s1 [Hs1 Ho1]. eapply returns_run; [reflexivity|].
  apply (holds_members _ _ _ (with_timer (-1) (own_fds s1))) in Hs1. cbn [app] in Hs1.
  eapply returns_impl; [by apply (open_timer_opens base rest)|]. cbn beta; cbn [own_fds].
  intros _ s2 (fd & Ho2 & Hs2). eapply (at_rest_members _ _ _ _ Ho2); [|exact Hs2].
  rewrite Ho1. unfold rest, owned. rewrite Ho. cbn. solve_Permutation.
Qed.

Lemma recreate_ends base s : at_rest base s -> ends recreate s (fun _ => at_rest base) (at_rest base).
Proof.
  intros Hs. eapply ends_impl; [by apply (recreate_recreates base (one_fd (epoll_fd_ (own_fds s)) ++ one_fd (own_timer_fd_ (own_fds s))))|..];
    cbn beta.
  - intros _ s' (r & w & Ho & Hs'). rewrite Ho in Hs'. by eapply (at_rest_members _ _ _ _ Ho).
  - intros s' [Ho Hs']. by eapply (at_rest_members _ _ _ _ Ho).
Qed.

Lemma notify_fork_ends base ev s : at_rest base s ->
  ends (notify_fork epoll_ctl ev) s (fun _ => at_rest base) (at_rest base).
Proof.
  intros Hs. destruct ev; cbn [notify_fork]; [by apply ends_ret..|].
  eapply ends_bind; [by apply reopen_epoll_ends|]. cbn beta. intros _ s1 Hs1.
  eapply ends_bind; [by apply ends_returns, reopen_timer_returns|]. cbn beta. intros _ s2 Hs2.
  eapply ends_bind; [by apply recreate_ends|]. cbn beta. intros _ s3 Hs3.
  eapply ends_bind; [apply (own_reactor_at_rest _ _ _ Hs3); intros; by apply ends_returns, construct_reactor_returns|].
  cbn beta. intros _ s4 Hs4.
  eapply ends_bind; [apply (own_reactor_at_rest _ _ _ Hs4); intros; by apply ends_returns, update_timeout_returns|].
  cbn beta. intros _ s5 Hs5. apply (own_reactor_at_rest _ _ _ Hs5). intros r Hr.
  apply ends_get, reregister_ends; [done|]. destruct Hr as (_ & _ & Hdefined). by apply Forall_app in Hdefined as [? _].
Qed.

Lemma forks_return base evs s : at_rest base s ->
  returns (for_each (fork_attempt epoll_ctl) evs) s (fun _ => at_rest base).
Proof.
  revert s. induction evs as [|ev evs IH]; intros s Hs; [by apply returns_ret|]. cbn [for_each].
  apply returns_bind with (Φ := fun _ => at_rest base); [|intros _ s'; apply IH]. destruct (notify_fork_ends base ev s Hs) as (es & s' & r & Hrun & Hends).
  unfold returns, fork_attempt. rewrite Hrun. exists es, s', tt. by destruct r as [[]|[]].
Qed.

Lemma destroy_returns base s : at_rest base s -> returns destroy_epoll_reactor s (fun _ => holds base []).
Proof.
  intros Hs. unfold destroy_epoll_reactor. apply returns_get. cbv zeta. destruct (own_fds s) as [r w e t] eqn:Ho.
  cbn [epoll_fd_ own_timer_fd_]. eapply returns_bind.
  { apply (close_if_open base (interrupter_fds (own_fds s) ++ one_fd t) e s). eapply holds_perm; [|exact Hs].
    unfold owned. rewrite Ho. cbn. solve_Permutation. }
  cbn beta. intros _ s1 [Hs1 Ho1]. eapply returns_bind.
  { apply (close_if_open base (interrupter_fds (own_fds s)) t s1). eapply holds_perm; [|exact Hs1]. cbn. solve_Permutation. }
  cbn beta. intros _ s2 [Hs2 Ho2]. eapply returns_impl.
  - apply (close_descriptors_closes base []). rewrite Ho2, Ho1, app_nil_r. exact Hs2.
  - cbn beta. by intros _ s3 [Hs3 _].
Qed.

Lemma holds_nothing base s : holds base [] s <-> in_table (kernel_of s) = base /\ reactor_ok (reactor_of s).
Proof.
  split.
  - intros [Hf Hr]. split; [|done]. apply set_eq. intros fd. by rewrite <- !elem_of_elements, Hf.
  - intros [<- Hr]. by split.
Qed.

(** C34. A reactor owns its descriptors.  Its constructor returns, and then what is open
    besides is in its members, each descriptor once; or it throws, and what is open
    was open before.  Every notification of a fork, whatever the kernel refuses, returns
    or throws and keeps it so, and the destructor closes all of them. *)
Theorem reactor_owns_its_descriptors s evs : reactor_ok (reactor_of s) ->
  let base := in_table (kernel_of s) in
  exists es s1 r, construct_epoll_reactor epoll_ctl s = (es, s1, r) /\
  match r with
  | Ok _ => exists es' s2 es'' s3, for_each (fork_attempt epoll_ctl) evs s1 = (es', s2, Ok tt) /\
      elements (in_table (kernel_of s2)) ≡ₚ owned (own_fds s2) ++ elements base /\
      destroy_epoll_reactor s2 = (es'', s3, Ok tt) /\ in_table (kernel_of s3) = base
  | Err (SystemError _) => in_table (kernel_of s1) = base
  | Err _ => False
  end.
Proof.
  intros Hr base. destruct (construct_ends base s) as (es & s1 & r & Hrun & Hends); [by apply holds_nothing|].
  exists es, s1, r. split; [done|]. destruct r as [[]|[]]; try done; [|by apply holds_nothing in Hends as [? _]].
  destruct (forks_return base evs s1 Hends) as (es' & s2 & [] & Hforks & Hs2).
  destruct (destroy_returns base s2 Hs2) as (es'' & s3 & [] & Hdestroy & Hs3).
  exists es', s2, es'', s3. split; [done|]. split; [apply Hs2|]. split; [done|]. by apply holds_nothing in Hs3 as [? _].
Qed.
End ownership.

(** ** An example *)

(** A kernel that has a descriptor for everybody, a number above all in use, and does
    not know the flags of [eventfd]. *)
#[export] Instance small_fd_kernel : FdKernel (gset nat) := {|
  fd_syscall c k :=
    match c with
    | FdEventfd flags => if flags =? 0 then (FdReturned (Z.of_nat (fresh k)) [], {[fresh k]} ∪ k) else (FdFailed EINVAL, k)
    | FdEpollCreate1 _ | FdEpollCreate _ | FdTimerfdCreate _ => (FdReturned (Z.of_nat (fresh k)) [], {[fresh k]} ∪ k)
    | FdPipe =>
        let k' := {[fresh k]} ∪ k in
        (FdReturned 0 [Z.of_nat (fresh k); Z.of_nat (fresh k')], {[fresh k']} ∪ k')
    | FdClose fd => (FdReturned 0 [], if 0 <=? fd then k ∖ {[Z.to_nat fd]} else k)
    | _ => (FdReturned 0 [], k)
    end;
|}.

Definition fd_numbers (k : gset nat) : gset Z := set_map Z.of_nat k.

Lemma fd_numbers_fresh (k : gset nat) : (Z.of_nat (fresh k) ∉ fd_numbers k) /\
  fd_numbers ({[fresh k]} ∪ k) = ({[Z.of_nat (fresh k)]} ∪ fd_numbers k).
Proof.
  unfold fd_numbers. split; [|by rewrite set_map_union_L, set_map_singleton_L].
  intros (n & Hn%(inj Z.of_nat) & Hk)%elem_of_map. subst n. by apply (is_fresh k).
Qed.

#[export] Instance small_fd_kernel_ok : FdKernelOk (gset nat).
Proof.
  refine {| in_table := fd_numbers |}.
  - intros k fd (n & -> & _)%elem_of_map. lia.
  - intros c k a k' Hc Hrun. destruct (fd_numbers_fresh k) as [Hnew Ho].
    destruct c; try done; cbn in Hrun; try (destruct (flags =? 0)); injection Hrun as <- <-;
      first [left; eexists; done | right; eexists; done].
  - intros k a k' [= <- <-]. left. set (k1 := {[fresh k]} ∪ k). destruct (fd_numbers_fresh k) as [Hnew Ho].
    destruct (fd_numbers_fresh k1) as [Hnew' Ho']. fold k1 in Ho. rewrite Ho, not_elem_of_union, not_elem_of_singleton in Hnew'.
    eexists _, _. split; [done|]. split; [by apply not_eq_sym, Hnew'|]. split; [done|]. split; [apply Hnew'|].
    rewrite Ho', Ho, (assoc_L (∪)). f_equal. by rewrite (comm_L (∪)).
  - intros fd k a k' [= <- <-]. apply set_eq. intros x. unfold fd_numbers.
    rewrite elem_of_difference, elem_of_singleton, !elem_of_map. destruct (Z.leb_spec 0 fd).
    + split.
      * intros (n & -> & [Hn Hne]%elem_of_difference). split; [by exists n|]. intros <-. apply Hne, elem_of_singleton. lia.
      * intros [(n & -> & Hn) Hne]. exists n. split; [done|]. apply elem_of_difference. split; [done|].
        rewrite elem_of_singleton. intros ->. apply Hne. lia.
    + split; [|tauto]. intros (n & -> & Hn). split; [by exists n|lia].
  - intros c k a k' Hc Hrun. by destruct c; try done; injection Hrun as <- <-.
Defined.

#[local] Existing Instance no_clock_set.
#[local] Existing Instance no_clock_timers.

Definition no_reactor : FdReactor (gset nat) TimerSet := mkFdReactor {[0%nat; 1%nat; 2%nat]} no_fds (example_reactor [] []).

(** Three descriptors on top of the standard ones, before and after a fork. *)
Lemma reactor_owns_its_descriptors_witness : exists es s1 es' s2 es'' s3,
  construct_epoll_reactor (fun _ => 0) no_reactor = (es, s1, Ok tt) /\ own_fds s1 = mkFds 3 3 4 5 /\
  for_each (fork_attempt (fun _ => 0)) [fork_prepare; fork_child] s1 = (es', s2, Ok tt) /\ own_fds s2 = mkFds 8 8 6 7 /\
  destroy_epoll_reactor s2 = (es'', s3, Ok tt) /\ in_table (kernel_of s3) = {[0; 1; 2]}.
Proof.
  destruct (reactor_owns_its_descriptors (fun _ => 0) no_reactor [fork_prepare; fork_child]) as (es & s1 & r & Hrun & Hr);
    [apply example_reactor_ok|].
  assert (r = Ok tt /\ own_fds s1 = mkFds 3 3 4 5) as [-> Ho1] by (vm_compute in Hrun; by injection Hrun as _ <- <-).
  destruct Hr as (es' & s2 & es'' & s3 & Hforks & _ & Hdestroy & Hbase).
  exists es, s1, es', s2, es'', s3. split; [exact Hrun|]. split; [done|]. split; [exact Hforks|].
  assert (s1 = (construct_epoll_reactor (fun _ => 0) no_reactor).1.2) as -> by by rewrite Hrun.
  split; [vm_compute in Hforks; by injection Hforks as _ <-|]. split; [exact Hdestroy|]. rewrite Hbase. by vm_compute.
Defined.

(** A descriptor that epoll refuses with EPERM, as that of a regular file, is
    registered all the same, and from then on no child process can go on with the
    reactor: [notify_fork] asks for it again and throws. *)
Example regular_file_breaks_fork :
  let ctl k := if (k =? 2)%nat || (k =? 5)%nat then EPERM else 0 in
  let s1 := (construct_epoll_reactor ctl no_reactor).1.2 in
  let '(_, s2, r2) := on_own_reactor (register_descriptor ctl 9) s1 in
  (exists d, r2 = Ok (0, d)) /\ (notify_fork ctl fork_child s2).2 = Err (SystemError "epoll re-registration").
Proof. vm_compute. split; [by eexists|done]. Qed.
