(* ===== verification/AsioSocketService.v ===== *)
(** * asio: socket objects

    [reactive_socket_service_base] joins the calls of the kernel (AsioSocketOps.v)
    to the reactor (AsioReactor.v): a socket object is a descriptor, the flags of
    its state and its data in the reactor.  The theorems about them are in
    AsioSocketObjects.v and AsioSocketSystem.v. *)
From S2P Require Import Prelude AsioScheduler AsioReactor AsioSocketOps AsioSocketStream.
Local Open Scope Z_scope.

(** ** Data *)

(** struct [base_implementation_type]; a new object leaves [reactor_data_]
    uninitialised, which is [None]; [Some None] is a null pointer. *)
Record SocketImpl := mkImpl {
  socket_ : Z;
  state_ : Z;
  reactor_data_ : option (option nat);
}.

Definition impl_is_open (impl : SocketImpl) : bool := negb (socket_ impl =? invalid_socket).

Definition set_state (state : Z) (impl : SocketImpl) : SocketImpl :=
  mkImpl (socket_ impl) state (reactor_data_ impl).

Definition set_data (data : option nat) (impl : SocketImpl) : SocketImpl :=
  mkImpl (socket_ impl) (state_ impl) (Some data).

(** [construct]: the pointer is not written. *)
Definition construct (impl : SocketImpl) : SocketImpl := mkImpl invalid_socket 0 (reactor_data_ impl).

Definition new_impl : SocketImpl := construct (mkImpl invalid_socket 0 None).

Inductive SocketEffect :=
| SysCall (c : Syscall)
| OfReactor (e : ReactorEffect)
| SetOpError (op : nat) (ec : error_code).   (* [op->ec_ = ec] *)

(** [socket_base::wait_type]; [None] is any other value. *)
Inductive wait_type := wait_read | wait_write | wait_error.

(** ** The service *)

Record World (K Q : Type) := mkWorld { thread_ : Thread K; reactor_ : Reactor Q }.
Arguments mkWorld {K Q} _ _.
Arguments thread_ {K Q} _.
Arguments reactor_ {K Q} _.

Section service.
Context {K : Type} `{!Kernel K} {Q : Type} `{!TimerQueueSet Q}.
Context (perform : nat -> Status) (epoll_ctl : nat -> Z).

Local Abbreviation M := (comp (World K Q) SocketEffect).
Implicit Types (impl : SocketImpl) (ec : error_code).

Definition on_kernel {A} (m : comp (Thread K) Syscall A) : M A := fun w =>
  let '(es, t, r) := m (thread_ w) in (SysCall <$> es, mkWorld t (reactor_ w), r).

Definition on_reactor {A} (m : comp (Reactor Q) ReactorEffect A) : M A := fun w =>
  let '(es, s, r) := m (reactor_ w) in (OfReactor <$> es, mkWorld (thread_ w) s, r).

(** The value of the member [reactor_data_]. *)
Definition data_of impl : M (option nat) :=
  match reactor_data_ impl with
  | Some data => mret data
  | None => fail_with (UndefinedBehaviour "indeterminate pointer")
  end.

(** The destructor of [socket_holder]. *)
Definition holder_destroy (s : Z) : M unit :=
  when (negb (s =? invalid_socket)) (on_kernel (socket_ops.close s 0 true no_error) ;; (mret tt)).

(** *** Moving *)

(** The new object and what is left of the other one. *)
Definition base_move_construct (other : SocketImpl) : M (SocketImpl * SocketImpl) :=
  data ← data_of other;
  let '(target, source) := move_descriptor data in
  mret (mkImpl (socket_ other) (state_ other) (Some target), mkImpl invalid_socket 0 (Some source)).

(** *** Closing *)

(** What [destroy] and [close] share: take the descriptor out of the reactor,
    close it and give its data back. *)
Definition dispose impl (destruction : bool) ec : M (SocketImpl * error_code) :=
  data ← data_of impl;
  data ← on_reactor (deregister_descriptor epoll_ctl (socket_ impl) data
                       (Z.land (state_ impl) possible_dup =? 0));
  r ← on_kernel (socket_ops.close (socket_ impl) (state_ impl) destruction ec);
  data ← on_reactor (cleanup_descriptor_data data);
  mret (mkImpl (socket_ impl) r.1.2 (Some data), r.2).

Definition destroy impl : M SocketImpl :=
  if impl_is_open impl then r ← dispose impl true no_error; mret r.1 else mret impl.

Definition base_move_assign impl (other : SocketImpl) : M (SocketImpl * SocketImpl) :=
  destroy impl ;; (base_move_construct other).

Definition close impl ec : M (SocketImpl * error_code) :=
  r ← (if impl_is_open impl then dispose impl false ec else mret (impl, no_error));
  mret (construct r.1, r.2).

(** The descriptor, the object and the error code. *)
Definition release impl : M (Z * SocketImpl * error_code) :=
  if negb (impl_is_open impl) then mret (invalid_socket, impl, error.bad_descriptor)
  else
    data ← data_of impl;
    data ← on_reactor (deregister_descriptor epoll_ctl (socket_ impl) data false);
    data ← on_reactor (cleanup_descriptor_data data);
    mret (socket_ impl, construct (set_data data impl), no_error).

Definition cancel impl : M error_code :=
  if negb (impl_is_open impl) then mret error.bad_descriptor
  else data ← data_of impl; on_reactor (cancel_ops data) ;; (mret no_error).

(** *** Opening *)

Definition type_flags (type : Z) : Z :=
  if type =? SOCK_STREAM then stream_oriented else if type =? SOCK_DGRAM then datagram_oriented else 0.

Definition do_open impl (af type protocol : Z) : M (SocketImpl * error_code) :=
  if impl_is_open impl then mret (impl, error.already_open)
  else
    r ← on_kernel (socket_ops.socket af type protocol);
    if r.1 =? invalid_socket then mret (impl, r.2)
    else
      e ← on_reactor (register_descriptor epoll_ctl r.1);
      if negb (e.1 =? 0) then
        holder_destroy r.1 ;; (mret (set_data (Some e.2) impl, system_code e.1))
      else mret (mkImpl r.1 (type_flags type) (Some (Some e.2)), no_error).

Definition do_assign impl (type native_socket : Z) : M (SocketImpl * error_code) :=
  if impl_is_open impl then mret (impl, error.already_open)
  else
    e ← on_reactor (register_descriptor epoll_ctl native_socket);
    if negb (e.1 =? 0) then mret (set_data (Some e.2) impl, system_code e.1)
    else mret (mkImpl native_socket (Z.lor (type_flags type) possible_dup) (Some (Some e.2)), no_error).

(** *** Starting operations *)

Definition post_completion (op : nat) (is_continuation : bool) : M unit :=
  on_reactor (post_immediate op is_continuation).

(** The condition [start_op] and [start_connect_op] share: the descriptor is made
    non-blocking if the state does not say it is. *)
Definition ensure_non_blocking impl (op : nat) : M (bool * SocketImpl) :=
  if has (state_ impl) non_blocking then mret (true, impl)
  else
    r ← on_kernel (socket_ops.set_internal_non_blocking (socket_ impl) (state_ impl) true);
    emit (SetOpError op r.2) ;; (mret (r.1.1, set_state r.1.2 impl)).

Definition start_reactor_op impl (t : OpType) (op : nat) (is_continuation is_non_blocking : bool) : M unit :=
  data ← data_of impl;
  on_reactor (AsioReactor.start_op perform epoll_ctl t (socket_ impl) data op is_continuation is_non_blocking).

(** [start] runs on a non-blocking descriptor, or [op] completes with the error. *)
Definition when_ready impl (op : nat) (is_continuation : bool) (start : SocketImpl -> M unit) : M SocketImpl :=
  r ← ensure_non_blocking impl op;
  (if r.1 : bool then start r.2 else post_completion op is_continuation) ;; (mret r.2).

Definition start_op impl (t : OpType) (op : nat) (is_continuation is_non_blocking noop : bool) : M SocketImpl :=
  if noop then post_completion op is_continuation ;; (mret impl)
  else when_ready impl op is_continuation (fun impl => start_reactor_op impl t op is_continuation is_non_blocking).

Definition start_accept_op impl (op : nat) (is_continuation peer_is_open : bool) : M SocketImpl :=
  if negb peer_is_open then start_op impl read_op op is_continuation true false
  else emit (SetOpError op error.already_open) ;; (post_completion op is_continuation ;; (mret impl)).

Definition start_connecting impl (op : nat) (is_continuation : bool) (addr : list Z) : M unit :=
  c ← on_kernel (socket_ops.connect (socket_ impl) addr);
  emit (SetOpError op c.2) ;;
  (if negb (c.1 =? 0) && (bool_decide (c.2 = error.in_progress) || bool_decide (c.2 = error.would_block))
   then emit (SetOpError op no_error) ;; (start_reactor_op impl connect_op op is_continuation false)
   else post_completion op is_continuation).

Definition start_connect_op impl (op : nat) (is_continuation : bool) (addr : list Z) : M SocketImpl :=
  when_ready impl op is_continuation (fun impl => start_connecting impl op is_continuation addr).

(** *** The calls of [reactive_socket_service] *)

(** [async_receive] and [async_send] start these; the operations are
    [new_recv_op] and [new_send_op]. *)
Definition message_out_of_band : Z := 1.

Definition async_receive_start impl (op : nat) (is_continuation : bool) (flags : Z) (all_empty : bool) : M SocketImpl :=
  let oob := negb (Z.land flags message_out_of_band =? 0) in
  start_op impl (if oob then except_op else read_op) op is_continuation (negb oob)
    (has (state_ impl) stream_oriented && all_empty).

Definition async_send_start impl (op : nat) (is_continuation : bool) (all_empty : bool) : M SocketImpl :=
  start_op impl write_op op is_continuation true (has (state_ impl) stream_oriented && all_empty).

Definition set_non_blocking impl (mode : bool) : M (SocketImpl * error_code) :=
  r ← on_kernel (socket_ops.set_user_non_blocking (socket_ impl) (state_ impl) mode);
  mret (set_state r.1.2 impl, r.2).

Definition set_native_non_blocking impl (mode : bool) : M (SocketImpl * error_code) :=
  r ← on_kernel (socket_ops.set_internal_non_blocking (socket_ impl) (state_ impl) mode);
  mret (set_state r.1.2 impl, r.2).

Definition io_control impl (cmd arg : Z) : M (SocketImpl * Z * error_code) :=
  r ← on_kernel (socket_ops.ioctl (socket_ impl) (state_ impl) cmd arg);
  mret (set_state r.1.1.2 impl, r.1.2, r.2).

Definition set_option impl (level name : Z) (data : list Z) (size : Z) : M (SocketImpl * error_code) :=
  r ← on_kernel (socket_ops.setsockopt (socket_ impl) (state_ impl) level name data size);
  mret (set_state r.1.2 impl, r.2).

Definition get_option impl (level name value size : Z) : M (Z * Z * error_code) :=
  r ← on_kernel (socket_ops.getsockopt (socket_ impl) (state_ impl) level name value size);
  mret (r.1.1.2, if negb (failed r.2) then r.1.2 else size, r.2).

Definition bind impl (addr : list Z) : M error_code :=
  r ← on_kernel (socket_ops.bind (socket_ impl) addr); mret r.2.

Definition listen impl (backlog : Z) : M error_code :=
  r ← on_kernel (socket_ops.listen (socket_ impl) backlog); mret r.2.

Definition shutdown impl (what : Z) : M error_code :=
  r ← on_kernel (socket_ops.shutdown (socket_ impl) what); mret r.2.

Definition at_mark impl : M (bool * error_code) := on_kernel (socket_ops.sockatmark (socket_ impl)).
Definition available impl : M (Z * error_code) := on_kernel (socket_ops.available (socket_ impl)).

Definition connect impl (addr : list Z) : M error_code := on_kernel (socket_ops.sync_connect (socket_ impl) addr).

Definition receive (fuel : nat) impl (capacity flags : Z) (all_empty : bool) : M (Z * list Z * error_code) :=
  on_kernel (socket_ops.sync_recv fuel (socket_ impl) (state_ impl) capacity flags all_empty).

Definition send (fuel : nat) impl (bytes : list Z) (flags : Z) (all_empty : bool) : M (Z * error_code) :=
  on_kernel (socket_ops.sync_send fuel (socket_ impl) (state_ impl) bytes flags all_empty).

Definition wait impl (w : option wait_type) : M error_code :=
  match w with
  | Some wait_read => r ← on_kernel (socket_ops.poll_read (socket_ impl) (state_ impl) (-1)); mret r.2
  | Some wait_write => r ← on_kernel (socket_ops.poll_write (socket_ impl) (state_ impl) (-1)); mret r.2
  | Some wait_error => r ← on_kernel (socket_ops.poll_error (socket_ impl) (state_ impl) (-1)); mret r.2
  | None => mret error.invalid_argument
  end.

Definition wait_op_type (w : wait_type) : OpType :=
  match w with wait_read => read_op | wait_write => write_op | wait_error => except_op end.

Definition async_wait impl (w : option wait_type) (op : nat) (is_continuation : bool) : M SocketImpl :=
  match w with
  | Some w => start_op impl (wait_op_type w) op is_continuation false false
  | None => emit (SetOpError op error.invalid_argument) ;; (post_completion op is_continuation ;; (mret impl))
  end.

(** [accept]: the new descriptor is closed unless the peer takes it. *)
Definition accept (fuel : nat) impl (type : Z) (peer : SocketImpl) (addrlen : option Z) : M (SocketImpl * error_code) :=
  if impl_is_open peer then mret (peer, error.already_open)
  else
    r ← on_kernel (socket_ops.sync_accept fuel (socket_ impl) (state_ impl) addrlen);
    if r.1.1 =? invalid_socket then mret (peer, r.2)
    else
      a ← do_assign peer type r.1.1;
      when (failed a.2) (holder_destroy r.1.1) ;; (mret a).

(** [reactive_socket_accept_op::do_complete] before the handler: with an owner
    the peer takes the new descriptor; what is left goes with the operation. *)
Definition complete_accept (owner : bool) (o : accept_op) (type : Z) (peer : SocketImpl) : M (SocketImpl * error_code) :=
  if owner && negb (new_socket_ o =? invalid_socket) then
    a ← do_assign peer type (new_socket_ o);
    when (failed a.2) (holder_destroy (new_socket_ o)) ;; (mret a)
  else holder_destroy (new_socket_ o) ;; (mret (peer, accept_ec o)).

End service.
