(* ===== verification/AsioSocketObjects.v ===== *)
(** * asio: ownership of descriptors by one socket object

    What each call of AsioSocketService.v does to what its object owns: the
    descriptor, the truth of the flags about its mode, and the data in use in the
    reactor.  [evolves] says what comes and goes; an object that satisfies
    [impl_in] returns from every call without undefined behaviour. *)
From S2P Require Import Prelude AsioScheduler AsioReactor AsioSocketOps AsioSocketStream AsioDescriptors AsioSocketService.
Local Open Scope Z_scope.

(** ** The reactor's pool *)

Section pool.
Context {Q : Type} `{!TimerQueueSet Q, !TimerQueueSetOk Q}.
Context (perform : nat -> Status) (epoll_ctl : nat -> Z) (epoll_wait : nat -> list (EventPtr * Z)).

(** Whenever [m] returns, [R] relates the states and the result. *)
Definition leaves {A} (m : comp (Reactor Q) ReactorEffect A) (R : Reactor Q -> A -> Reactor Q -> Prop) : Prop :=
  forall s es s' a, m s = (es, s', Ok a) -> R s a s'.

Lemma leaves_bind {A B} (m : comp (Reactor Q) ReactorEffect A) (f : A -> comp (Reactor Q) ReactorEffect B) R1 R2 R :
  leaves m R1 -> (forall a, leaves (f a) (R2 a)) ->
  (forall s a s1 b s2, R1 s a s1 -> R2 a s1 b s2 -> R s b s2) -> leaves (m ≫= f) R.
Proof.
  intros Hm Hf HR s es s' b Hrun. unfold mbind, comp_bind in Hrun.
  destruct (m s) as [[es1 s1] [a|e]] eqn:Hm1; [|done]. destruct (f a s1) as [[es2 s2] r] eqn:Hf2.
  injection Hrun as <- <- ->. eapply HR; [by eapply Hm|by eapply Hf].
Qed.

Definition keeps_live {A} (m : comp (Reactor Q) ReactorEffect A) : Prop :=
  leaves m (fun s _ s' => live_list_ s' = live_list_ s).

Lemma keeps_bind {A B} (m : comp (Reactor Q) ReactorEffect A) (f : A -> comp (Reactor Q) ReactorEffect B) :
  keeps_live m -> (forall a, keeps_live (f a)) -> keeps_live (m ≫= f).
Proof. intros Hm Hf. eapply leaves_bind; [exact Hm|exact Hf|]. cbn. congruence. Qed.

Lemma keeps_ret {A} (a : A) : keeps_live (mret a).
Proof. by intros s es s' b [= _ <- _]. Qed.

Lemma keeps_emit e : keeps_live (emit e).
Proof. by intros s es s' b [= _ <- _]. Qed.

Lemma keeps_fail {A} e : keeps_live (@fail_with _ _ A e).
Proof. by intros s es s' b [=]. Qed.

Lemma keeps_modify g : (forall s, live_list_ (g s) = live_list_ s) -> keeps_live (modify g).
Proof. intros Hg s es s' b [= _ <- _]. apply Hg. Qed.

Lemma keeps_get {A} (f : Reactor Q -> comp (Reactor Q) ReactorEffect A) :
  (forall s, keeps_live (f s)) -> keeps_live (get_state ≫= f).
Proof. intros Hf s es s' b Hrun. rewrite run_get in Hrun. by apply (Hf s _ _ _ _ Hrun). Qed.

Lemma keeps_if {A} (b : bool) (m m' : comp (Reactor Q) ReactorEffect A) :
  keeps_live m -> keeps_live m' -> keeps_live (if b then m else m').
Proof. by destruct b. Qed.

End pool.

Create HintDb live.
#[export] Hint Resolve keeps_ret keeps_emit keeps_fail keeps_if : live.
#[export] Hint Extern 1 (keeps_live (_ ≫= _)) => first [apply keeps_get; intros ? | apply keeps_bind; [|intros ?]] : live.
#[export] Hint Extern 1 (keeps_live (modify _)) => apply keeps_modify; intros ?; reflexivity : live.

Section pool_calls.
Context {Q : Type} `{!TimerQueueSet Q, !TimerQueueSetOk Q}.
Context (perform : nat -> Status) (epoll_ctl : nat -> Z).

Local Abbreviation M := (comp (Reactor Q) ReactorEffect).

Lemma keeps_for_each {A} (f : A -> M unit) l : (forall x, keeps_live (f x)) -> keeps_live (for_each f l).
Proof. intros Hf. induction l; cbn [for_each]; auto with live. Qed.

Lemma keeps_update d f : keeps_live (update_state (Q := Q) d f).
Proof. unfold update_state. auto with live. Qed.

Lemma keeps_deref d : keeps_live (deref (Q := Q) d).
Proof. unfold deref. apply keeps_get. intros s. destruct (states s !! d); auto with live. Qed.

Lemma keeps_epoll_ctl o target events ptr : keeps_live (call_epoll_ctl (Q := Q) epoll_ctl o target events ptr).
Proof. unfold call_epoll_ctl. auto 10 with live. Qed.

Lemma keeps_perform op : keeps_live (do_perform (Q := Q) perform op).
Proof. unfold do_perform. auto 10 with live. Qed.

Lemma keeps_set_error op e : keeps_live (set_error (Q := Q) op e).
Proof. unfold set_error. auto with live. Qed.

Lemma keeps_enqueue d t op : keeps_live (enqueue_operation (Q := Q) d t op).
Proof. unfold enqueue_operation, push_operation. apply keeps_bind; [apply keeps_update|]. auto with live. Qed.

#[local] Hint Resolve keeps_update keeps_deref keeps_epoll_ctl keeps_perform keeps_set_error keeps_for_each keeps_enqueue : live.

Lemma keeps_post_error op e k : keeps_live (post_error (Q := Q) op e k).
Proof. unfold post_error, post_immediate. auto 10 with live. Qed.

Lemma keeps_abort d : keeps_live (abort_queues (Q := Q) d).
Proof. unfold abort_queues, abort_queue. auto 20 with live. Qed.

#[local] Hint Resolve keeps_post_error keeps_abort : live.

Lemma keeps_speculate d t op k : keeps_live (speculate (Q := Q) perform d t op k).
Proof. unfold speculate, post_immediate. apply keeps_bind; [auto with live|]. intros []; auto 10 with live. Qed.

#[local] Hint Resolve keeps_speculate : live.

Lemma keeps_start_op t fd data op k spec : keeps_live (AsioReactor.start_op (Q := Q) perform epoll_ctl t fd data op k spec).
Proof.
  destruct data as [d|]; [|by apply keeps_post_error]. unfold AsioReactor.start_op, await_descriptor,
    renew_registration, post_immediate. cbn zeta. auto 40 with live.
Qed.

Lemma keeps_cancel data : keeps_live (cancel_ops (Q := Q) data).
Proof. destruct data; cbn [cancel_ops]; auto 10 with live. Qed.

Lemma keeps_deregister fd data closing : keeps_live (deregister_descriptor (Q := Q) epoll_ctl fd data closing).
Proof.
  destruct data as [d|]; [|apply keeps_ret]. unfold deregister_descriptor, when. auto 20 with live.
Qed.

(** Every result satisfies [P]. *)
Definition yields {A} (m : M A) (P : A -> Prop) : Prop := leaves m (fun _ a _ => P a).

Lemma yields_bind {A B} (m : M A) (f : A -> M B) P : (forall a, yields (f a) P) -> yields (m ≫= f) P.
Proof.
  intros Hf. apply leaves_bind with (R1 := fun _ _ _ => True) (R2 := fun _ _ b _ => P b); [done|exact Hf|done].
Qed.

Lemma yields_ret {A} (a : A) (P : A -> Prop) : P a -> yields (mret a) P.
Proof. by intros HP s es s' b [= _ _ <-]. Qed.

Lemma deregister_yields fd data closing :
  yields (deregister_descriptor (Q := Q) epoll_ctl fd data closing) (fun a => a = None \/ a = data).
Proof.
  destruct data as [d|]; [|apply yields_ret; by left]. apply yields_bind. intros state.
  destruct (desc_shutdown_ state); [apply yields_ret; by left|].
  apply yields_bind. intros _. apply yields_bind. intros ?. apply yields_bind. intros ?. apply yields_bind. intros ?. apply yields_ret. by right.
Qed.

(** *** From accounting to results *)

Local Abbreviation no_events := (fun _ : nat => @nil (EventPtr * Z)).

Implicit Types (r : Reactor Q).

Lemma accounts_returns {A} r (m : M A) inn Φ (R : A -> Reactor Q -> Prop) :
  accounts r m inn Φ -> (forall es r' a, m r = (es, r', Ok a) -> R a r') ->
  returns m r (fun a r' => reactor_ok r' /\ R a r').
Proof. intros (es & r' & a & out & Hm & Hok & _) HR. exists es, r', a. split; [done|]. split; [done|]. by eapply HR. Qed.

Lemma deregister_pool r fd d closing : reactor_ok r -> d ∈ live_list_ r ->
  returns (deregister_descriptor epoll_ctl fd (Some d) closing) r (fun a r' =>
    reactor_ok r' /\ live_list_ r' = live_list_ r /\ (a = None \/ a = Some d)).
Proof.
  intros Hok Hd. eapply accounts_returns; [apply (deregister_accounts perform epoll_ctl no_events r fd (Some d) closing []); [done|]|].
  - by intros ? [= <-].
  - intros es s' a Hrun. split; [by eapply keeps_deregister|by eapply deregister_yields].
Qed.

Lemma cleanup_pool r data : reactor_ok r -> data_ok r data ->
  returns (cleanup_descriptor_data data) r (fun a r' =>
    reactor_ok r' /\ a = None /\ live_list_ r' ++ option_list data ≡ₚ live_list_ r).
Proof.
  intros Hok Hdata. destruct data as [d|].
  - eapply returns_impl.
    + eapply accounts_returns with (R := fun a r' => a = None /\ live_list_ r' = filter (fun d' => d' <> d) (live_list_ r));
        [by apply (cleanup_accounts perform epoll_ctl no_events r (Some d) [])|]. intros es r' a Hrun. by injection Hrun as _ <- <-.
    + cbn beta. intros a r' (Hok' & -> & ->). split; [done|]. split; [done|]. cbn.
      rewrite Permutation_app_comm. cbn. apply (pool_without perform epoll_ctl no_events); [|exact (Hdata d eq_refl)].
      destruct Hok as (_ & Hnd & _). by apply NoDup_app in Hnd as [? _].
  - apply returns_ret. cbn. by rewrite (right_id_L [] (++)).
Qed.

Lemma alloc_live : leaves (allocate_descriptor_state (Q := Q)) (fun s d s' => live_list_ s' = d :: live_list_ s).
Proof.
  intros s es s' a. unfold allocate_descriptor_state, pool_alloc. rewrite run_get.
  destruct (free_list_ s); by intros [= _ <- <-].
Qed.

Lemma register_pool r fd : reactor_ok r ->
  returns (register_descriptor epoll_ctl fd) r (fun a r' => reactor_ok r' /\ live_list_ r' = a.2 :: live_list_ r).
Proof.
  intros Hok. eapply accounts_returns; [by apply (register_accounts perform epoll_ctl no_events r fd [])|].
  assert (leaves (register_descriptor (Q := Q) epoll_ctl fd) (fun s a s' => live_list_ s' = a.2 :: live_list_ s)) as Hl; [|exact (Hl r)].
  eapply leaves_bind with (R2 := fun d s a s' => live_list_ s' = live_list_ s /\ a.2 = d); [apply alloc_live| |].
  - intros d s es s' a Hrun. match type of Hrun with ?m _ = _ =>
      assert (keeps_live m) as Hk by auto 20 with live; assert (yields m (fun a => a.2 = d)) as Hy end.
    { apply yields_bind. intros _. apply yields_bind. intros _. apply yields_bind. intros e.
      destruct (e =? 0); [by apply yields_ret|]. destruct (e =? EPERM); [|by apply yields_ret].
      apply yields_bind. intros _. by apply yields_ret. }
    split; [exact (Hk _ _ _ _ Hrun)|exact (Hy _ _ _ _ Hrun)].
  - cbn. intros s d s1 [e d'] s2 Hs1 [Hs2 Hd]. cbn in Hd. by rewrite Hs2, Hs1, Hd.
Qed.

Lemma start_op_pool r t fd d op k spec : reactor_ok r -> d ∈ live_list_ r ->
  returns (AsioReactor.start_op perform epoll_ctl t fd (Some d) op k spec) r (fun _ r' =>
    reactor_ok r' /\ live_list_ r' = live_list_ r).
Proof.
  intros Hok Hd. eapply accounts_returns; [apply (start_op_accounts perform epoll_ctl no_events r t fd (Some d) op k spec []); [done|]|].
  - by intros ? [= <-].
  - intros es r' a. apply keeps_start_op.
Qed.

Lemma cancel_pool r d : reactor_ok r -> d ∈ live_list_ r ->
  returns (cancel_ops (Some d)) r (fun _ r' => reactor_ok r' /\ live_list_ r' = live_list_ r).
Proof.
  intros Hok Hd. eapply accounts_returns; [apply (cancel_accounts perform epoll_ctl no_events r (Some d) []); [done|]|].
  - by intros ? [= <-].
  - intros es r' a. apply keeps_cancel.
Qed.

End pool_calls.

(** ** Ownership *)

(** The object a call returns, without the error code. *)
Definition first {A B S E} (m : comp S E (A * B)) : comp S E A := r ← m; mret r.1.

Definition impl_fds (impl : SocketImpl) : list Z := if impl_is_open impl then [socket_ impl] else [].
Definition op_fds (o : accept_op) : list Z := if new_socket_ o =? invalid_socket then [] else [new_socket_ o].
Definition impl_data (impl : SocketImpl) : list nat :=
  if impl_is_open impl then match reactor_data_ impl with Some (Some d) => [d] | _ => [] end else [].

Section invariant.
Context {K : Type} `{!Kernel K, !PatientKernel K, !DescriptorKernel K} {Q : Type} `{!TimerQueueSet Q, !TimerQueueSetOk Q}.
Context (perform : nat -> Status) (epoll_ctl : nat -> Z).
Implicit Types (w : World K Q).

Definition fds w : gset Z := opened (kernel_ (thread_ w)).
Definition modes w : gset Z := unblocked (kernel_ (thread_ w)).
Definition live w : list nat := live_list_ (reactor_ w).

(** [w'] comes about from [w]: the descriptors [G] go or change their mode, the
    [N] are new; and so do the data [GD] and [ND] in the reactor. *)
Record evolves w w' (G N : list Z) (GD ND : list nat) : Prop := {
  ev_fds : elements (fds w') ++ G ≡ₚ elements (fds w) ++ N;
  ev_modes fd : fd ∈ fds w -> fd ∉ G -> fd ∈ modes w -> fd ∈ modes w';
  ev_live : live w' ++ GD ≡ₚ live w ++ ND;
  ev_reactor : reactor_ok (reactor_ w');
}.

Lemma evolves_refl w : reactor_ok (reactor_ w) -> evolves w w [] [] [] [].
Proof. by split. Qed.

Lemma evolves_frame w w' G N GD ND F FD : evolves w w' G N GD ND -> evolves w w' (G ++ F) (N ++ F) (GD ++ FD) (ND ++ FD).
Proof.
  intros [Hf Hm Hl Hr]. split; [by rewrite !(assoc_L (++)), Hf| |by rewrite !(assoc_L (++)), Hl|done].
  intros fd Hfd Hnot. apply Hm; [done|]. intros Hin. apply Hnot, elem_of_app. by left.
Qed.

Lemma evolves_frame_fds w w' G N GD ND F : evolves w w' G N GD ND -> evolves w w' (G ++ F) (N ++ F) GD ND.
Proof. intros Hev. apply (evolves_frame _ _ _ _ _ _ F []) in Hev. by rewrite !app_nil_r in Hev. Qed.

Lemma evolves_frame_data w w' G N GD ND FD : evolves w w' G N GD ND -> evolves w w' G N (GD ++ FD) (ND ++ FD).
Proof. intros Hev. apply (evolves_frame _ _ _ _ _ _ [] FD) in Hev. by rewrite !app_nil_r in Hev. Qed.

(** What stays in a set without duplicates did not come or go. *)
Lemma stays (l l' G N : list Z) x : NoDup l' -> l' ++ G ≡ₚ l ++ N -> x ∈ l -> x ∉ G -> x ∈ l' /\ x ∉ N.
Proof.
  intros Hnd Hp Hx HG. assert (x ∈ l' ++ G) as [Hl'|?]%elem_of_app by (rewrite Hp; apply elem_of_app; by left); [|done].
  split; [done|]. intros HN. apply elem_of_Permutation in Hx as [l1 Hl], HN as [N1 HN], Hl' as [l2 Hl2].
  rewrite Hl2, Hl, HN in Hp. cbn in Hp. apply Permutation.Permutation_cons_inv in Hp.
  rewrite Hl2 in Hnd. apply NoDup_cons in Hnd as [Hnd _].
  assert (x ∈ l2 ++ G) as [?|?]%elem_of_app; [|done..]. rewrite Hp. apply elem_of_app. right. left.
Qed.

Lemma evolves_trans w w1 w2 G X N GD XD ND :
  evolves w w1 G X GD XD -> evolves w1 w2 X N XD ND -> evolves w w2 G N GD ND.
Proof.
  intros [Hf Hm Hl Hr] [Hf' Hm' Hl' Hr']. split.
  - apply (Permutation_app_inv_r X). transitivity ((elements (fds w2) ++ X) ++ G); [solve_Permutation|].
    rewrite Hf'. transitivity ((elements (fds w1) ++ G) ++ N); [solve_Permutation|]. rewrite Hf. solve_Permutation.
  - intros fd Hfd HG Hin. apply elem_of_elements in Hfd.
    destruct (stays (elements (fds w)) _ G X fd (NoDup_elements (fds w1)) Hf Hfd HG) as [Hfd1 HX].
    apply Hm'; [by apply elem_of_elements|done|]. apply Hm; [by apply elem_of_elements|done|done].
  - apply (Permutation_app_inv_r XD). transitivity ((live w2 ++ XD) ++ GD); [solve_Permutation|].
    rewrite Hl'. transitivity ((live w1 ++ GD) ++ ND); [solve_Permutation|]. rewrite Hl. solve_Permutation.
  - done.
Qed.

(** *** Single objects *)

(** An open object has data in the reactor and true flags; one that is not open
    has no flags. *)
Definition impl_ok w (impl : SocketImpl) : Prop :=
  in_range 8 (state_ impl) /\
  if impl_is_open impl
  then (exists d, reactor_data_ impl = Some (Some d)) /\
    flags_true (socket_ impl) (state_ impl) (kernel_ (thread_ w))
  else state_ impl = 0.

Lemma closed_ok w impl : impl_is_open impl = false -> state_ impl = 0 -> impl_ok w impl.
Proof. intros Hopen Hstate. unfold impl_ok. rewrite Hopen, Hstate. by split. Qed.

(** Another object's descriptor is not among those that go. *)
Lemma impl_ok_evolves w w' G N GD ND impl : evolves w w' G N GD ND -> impl_ok w impl ->
  (forall fd, fd ∈ impl_fds impl -> fd ∈ fds w /\ fd ∉ G) -> impl_ok w' impl.
Proof.
  intros Hev [Hrange Hok] Hfds. split; [done|]. unfold impl_fds in Hfds. destruct (impl_is_open impl); [|done].
  destruct Hok as [Hdata Hflags]. split; [done|]. intros Hhas. specialize (Hflags Hhas).
  destruct (Hfds (socket_ impl)) as [Hin Hnot]; [by left|]. by apply (ev_modes _ _ _ _ _ _ Hev).
Qed.

(** *** The calls on one object *)

Lemma returns_kernel {A} (m : comp (Thread K) Syscall A) w Φ : returns m (thread_ w) Φ ->
  returns (on_kernel m) w (fun a w' => Φ a (thread_ w') /\ reactor_ w' = reactor_ w).
Proof.
  intros (es & t & a & Hm & HΦ). unfold on_kernel. eexists _, (mkWorld t (reactor_ w)), a. by rewrite Hm.
Qed.

Lemma returns_reactor {A} (m : comp (Reactor Q) ReactorEffect A) w Φ : returns m (reactor_ w) Φ ->
  returns (on_reactor m) w (fun a w' => Φ a (reactor_ w') /\ thread_ w' = thread_ w).
Proof.
  intros (es & t & a & Hm & HΦ). unfold on_reactor. eexists _, (mkWorld (thread_ w) t), a. by rewrite Hm.
Qed.

(** The kernel opens or closes nothing, and only the mode of [s] may change. *)
Lemma evolves_moded w w' s : reactor_ok (reactor_ w) -> reactor_ w' = reactor_ w ->
  moded s (kernel_ (thread_ w)) (kernel_ (thread_ w')) -> evolves w w' [s] [s] [] [].
Proof.
  intros Hok Hr [Ho Hu]. split; unfold fds, modes, live.
  - by rewrite Ho.
  - intros fd _ Hfd. apply Hu. intros ->. apply Hfd. by left.
  - by rewrite Hr.
  - by rewrite Hr.
Qed.

Lemma evolves_same w w' : reactor_ok (reactor_ w) -> reactor_ w' = reactor_ w ->
  same_fds (kernel_ (thread_ w)) (kernel_ (thread_ w')) -> evolves w w' [] [] [] [].
Proof. intros Hok Hr [Ho Hu]. split; unfold fds, modes, live; by rewrite ?Ho, ?Hu, ?Hr. Qed.

Lemma evolves_reactor w w' GD ND : reactor_ok (reactor_ w') -> thread_ w' = thread_ w ->
  live w' ++ GD ≡ₚ live w ++ ND -> evolves w w' [] [] GD ND.
Proof. intros Hok Ht Hl. split; unfold fds, modes; by rewrite ?Ht. Qed.

Lemma evolves_closed w w' s : s ∈ fds w -> reactor_ok (reactor_ w) -> reactor_ w' = reactor_ w ->
  fds w' = (fds w ∖ {[s]}) -> modes w' = (modes w ∖ {[s]}) -> evolves w w' [s] [] [] [].
Proof.
  intros Hs Hok Hr Ho Hu. split; unfold live; rewrite ?Hr; try done.
  - rewrite Ho, app_nil_r. rewrite (union_difference_singleton_L s (fds w)) at 2 by done.
    rewrite elements_union_singleton by (rewrite elem_of_difference, elem_of_singleton; tauto). by rewrite Permutation_app_comm.
  - intros fd _ Hfd Hin. rewrite Hu. apply elem_of_difference. split; [done|].
    rewrite elem_of_singleton. intros ->. apply Hfd. by left.
Qed.

Lemma evolves_created w w' s : reactor_ok (reactor_ w) -> reactor_ w' = reactor_ w ->
  created (kernel_ (thread_ w)) s (kernel_ (thread_ w')) ->
  evolves w w' [] (if s =? invalid_socket then [] else [s]) [] [] /\ (s <> invalid_socket -> s ∈ fds w').
Proof.
  intros Hok Hr Hc. unfold created in Hc. destruct (Z.eqb_spec s invalid_socket) as [->|Hs].
  { split; [by apply evolves_same|done]. }
  destruct Hc as (Hnew & Ho & Hu). split; [|intros _; unfold fds; rewrite Ho; by apply elem_of_union_l, elem_of_singleton].
  split; unfold fds, modes, live; rewrite ?Hr; try done.
  - rewrite Ho, app_nil_r, elements_union_singleton by done. by rewrite Permutation_app_comm.
  - intros fd Hfd _ Hin. rewrite Hu. apply elem_of_difference. split; [done|].
    rewrite elem_of_singleton. by intros ->.
Qed.

(** The object belongs to a program in the state [w]. *)
Record impl_in w (impl : SocketImpl) : Prop := {
  ii_ok : impl_ok w impl;
  ii_reactor : reactor_ok (reactor_ w);
  ii_fds fd : fd ∈ impl_fds impl -> fd ∈ fds w;
  ii_data d : d ∈ impl_data impl -> d ∈ live w;
}.

(** What an open object is made of. *)
Lemma open_impl w impl : impl_in w impl -> impl_is_open impl = true ->
  socket_ impl <> invalid_socket /\ socket_ impl ∈ fds w /\ impl_fds impl = [socket_ impl] /\
  exists d, reactor_data_ impl = Some (Some d) /\ impl_data impl = [d] /\ d ∈ live w.
Proof.
  intros [[_ Hok] _ Hfds Hdata] Hopen. unfold impl_fds, impl_data in *. rewrite Hopen in *.
  destruct Hok as [[d Hd] _]. rewrite Hd in *. split; [|split; [apply Hfds; by left|split; [done|]]].
  - unfold impl_is_open in Hopen. by destruct (Z.eqb_spec (socket_ impl) invalid_socket).
  - exists d. split; [done|]. split; [done|]. apply Hdata. by left.
Qed.

Lemma closed_impl w impl : impl_in w impl -> impl_is_open impl = false ->
  socket_ impl = invalid_socket /\ impl_fds impl = [] /\ impl_data impl = [] /\ state_ impl = 0.
Proof.
  intros [[_ Hok] _ _ _] Hopen. unfold impl_fds, impl_data. rewrite Hopen in *. split; [|done].
  unfold impl_is_open in Hopen. by destruct (Z.eqb_spec (socket_ impl) invalid_socket).
Qed.

Lemma evolves_idle w impl : impl_in w impl -> evolves w w (impl_fds impl) (impl_fds impl) (impl_data impl) (impl_data impl).
Proof. intros [_ Hr _ _]. apply (evolves_frame w w [] [] [] []). by apply evolves_refl. Qed.

(** *** Modes and options *)

Lemma impl_moded w w' impl : impl_in w impl -> reactor_ w' = reactor_ w ->
  moded (socket_ impl) (kernel_ (thread_ w)) (kernel_ (thread_ w')) ->
  evolves w w' (impl_fds impl) (impl_fds impl) (impl_data impl) (impl_data impl).
Proof.
  intros Hin Hr Hm. destruct (impl_is_open impl) eqn:Hopen.
  - destruct (open_impl _ _ Hin Hopen) as (_ & _ & -> & _).
    apply (evolves_frame w w' [socket_ impl] [socket_ impl] [] [] [] (impl_data impl)).
    apply evolves_moded; [apply (ii_reactor _ _ Hin)|done|done].
  - destruct (closed_impl _ _ Hin Hopen) as (Hs & -> & -> & _). destruct Hm as [Ho Hu].
    split; unfold fds, modes, live; rewrite ?Hr, ?Ho; try done; [|apply (ii_reactor _ _ Hin)].
    intros fd Hfd _ Hmode. apply Hu; [|done]. intros ->. rewrite Hs in Hfd.
    by destruct (descriptor_nonneg _ _ Hfd).
Qed.

Lemma flags_spec {A} w impl (m : comp (Thread K) Syscall A) (st : A -> Z) (P : A -> Thread K -> Prop) :
  impl_in w impl ->
  returns m (thread_ w) (fun a t => moded (socket_ impl) (kernel_ (thread_ w)) (kernel_ t) /\
    keeps_flags (socket_ impl) (state_ impl) (kernel_ (thread_ w)) (st a) (kernel_ t) /\
    (socket_ impl = invalid_socket -> st a = state_ impl) /\ P a t) ->
  returns (on_kernel m) w (fun a w' =>
    evolves w w' (impl_fds impl) (impl_fds impl) (impl_data impl) (impl_data impl) /\
    impl_ok w' (set_state (st a) impl) /\ reactor_ w' = reactor_ w /\ P a (thread_ w')).
Proof.
  intros Hin Hm. eapply returns_impl; [apply returns_kernel, Hm|]. cbn beta.
  intros a w' [(Hmoded & [Hrange Hflags] & Hclosed & HP) Hr]. split; [by apply impl_moded|]. split; [|done].
  destruct (ii_ok _ _ Hin) as [Hrange0 Hok]. split; [by apply Hrange|]. cbn [impl_is_open set_state socket_ reactor_data_].
  change (impl_is_open (set_state (st a) impl)) with (impl_is_open impl). destruct (impl_is_open impl) eqn:Hopen.
  - destruct Hok as [Hdata Hflags0]. split; [done|]. by apply Hflags.
  - destruct (closed_impl _ _ Hin Hopen) as (Hs & _ & _ & Hst). cbn [state_ set_state]. by rewrite Hclosed.
Qed.

(** What a call guarantees that returns the new object. *)
Definition object_spec w impl (m : comp (World K Q) SocketEffect SocketImpl) : Prop :=
  returns m w (fun impl' w' => (exists leak,
    evolves w w' (impl_fds impl) (impl_fds impl') (impl_data impl) (impl_data impl' ++ leak)) /\ impl_ok w' impl').

Lemma set_state_spec {A B} w impl (m : comp (Thread K) Syscall A) (st : A -> Z) (f : A -> B) (g : B -> SocketImpl) :
  impl_in w impl -> (forall a, g (f a) = set_state (st a) impl) ->
  returns m (thread_ w) (fun a t => moded (socket_ impl) (kernel_ (thread_ w)) (kernel_ t) /\
    keeps_flags (socket_ impl) (state_ impl) (kernel_ (thread_ w)) (st a) (kernel_ t) /\
    (socket_ impl = invalid_socket -> st a = state_ impl)) ->
  object_spec w impl (r ← (a ← on_kernel m; mret (f a)); mret (g r)).
Proof.
  intros Hin Hg Hm. eapply returns_bind.
  - eapply returns_bind.
    + apply (flags_spec w impl m st (fun _ _ => True)); [done|]. eapply returns_impl; [exact Hm|]. by intros ? ? (? & ? & ?).
    + intros a w' (Hev & Hok & _). apply returns_ret with (Φ := fun r w' =>
        evolves w w' (impl_fds impl) (impl_fds (g r)) (impl_data impl) (impl_data (g r) ++ []) /\ impl_ok w' (g r)).
      rewrite Hg. split; [|done]. by rewrite (right_id_L [] (++)).
  - intros r w' [Hev Hok]. apply returns_ret. split; [by exists []|done].
Qed.

Lemma set_non_blocking_ok w impl mode : impl_in w impl -> object_spec w impl (first (set_non_blocking impl mode)).
Proof. intros Hin. eapply (set_state_spec w impl _ (fun r => r.1.2)); [done|done|]. apply set_user_spec. Qed.

Lemma set_native_non_blocking_ok w impl mode : impl_in w impl -> object_spec w impl (first (set_native_non_blocking impl mode)).
Proof.
  intros Hin. eapply (set_state_spec w impl _ (fun r => r.1.2)); [done|done|].
  eapply returns_impl; [apply set_internal_spec|]. cbn beta. intros r t (? & ? & Hs & _). split; [done|]. split; [done|].
  intros Hi. by apply Hs.
Qed.

Lemma set_option_ok w impl level name data size : impl_in w impl ->
  object_spec w impl (first (set_option impl level name data size)).
Proof.
  intros Hin. eapply (set_state_spec w impl _ (fun r => r.1.2)); [done|done|].
  eapply returns_impl; [apply setsockopt_flags|]. cbn beta. intros r t (? & ? & ?). split; [by apply same_fds_moded|done].
Qed.

Lemma io_control_ok w impl cmd arg : impl_in w impl ->
  object_spec w impl (r ← io_control impl cmd arg; mret r.1.1).
Proof.
  intros Hin. eapply (set_state_spec w impl _ (fun r => r.1.1.2) (fun r => (set_state r.1.1.2 impl, r.1.2, r.2)));
    [done|done|]. apply ioctl_spec.
Qed.

(** *** Closing *)

Lemma dispose_spec w impl destruction ec : impl_in w impl -> impl_is_open impl = true ->
  returns (dispose epoll_ctl impl destruction ec) w (fun _ w' => exists leak,
    evolves w w' (impl_fds impl) [] (impl_data impl) leak).
Proof.
  intros Hin Hopen. destruct (open_impl _ _ Hin Hopen) as (Hs & Hfd & -> & d & Hd & -> & Hlive).
  unfold dispose, data_of. rewrite Hd. eapply returns_bind; [by apply returns_ret with (Φ := fun a w' => a = Some d /\ w' = w)|].
  intros ? ? [-> ->]. eapply returns_bind.
  { apply returns_reactor, (deregister_pool (fun _ => not_done)); [apply (ii_reactor _ _ Hin)|done]. }
  cbn beta. intros a w1 [(Hok1 & Hl1 & Ha) Ht1]. eapply returns_bind.
  { apply returns_kernel. by apply close_removes. }
  cbn beta. intros r w2 [[Ho Hu] Hr2]. eapply returns_bind.
  { apply returns_reactor, (cleanup_pool (fun _ => not_done) epoll_ctl); rewrite Hr2; [done|].
    intros d' ->. rewrite Hl1. by destruct Ha as [?|[= ->]]. }
  cbn beta. intros b w3 [(Hok3 & -> & Hl3) Ht3]. apply returns_ret. rewrite Ht1 in Ho, Hu. rewrite Hr2, Hl1 in Hl3.
  exists (match a with Some _ => [] | None => [d] end).
  apply (evolves_trans w w2 w3 [socket_ impl] [] [] [d] [d]).
  - apply (evolves_frame w w2 [socket_ impl] [] [] [] [] [d]).
    apply (evolves_trans w w1 w2 [socket_ impl] [socket_ impl] [] [] []).
    + apply (evolves_frame w w1 [] [] [] [] [socket_ impl] []). apply evolves_reactor; [done|done|].
      unfold live. by rewrite Hl1.
    + apply evolves_closed; [unfold fds; by rewrite Ht1|done|done|..]; unfold fds, modes; by rewrite ?Ho, ?Hu, Ht1.
  - apply evolves_reactor; [done|done|]. unfold live. rewrite Hr2, Hl1.
    destruct Ha as [-> | ->]; cbn in *; [by rewrite (right_id_L [] (++)) in Hl3; rewrite Hl3|].
    by rewrite (right_id_L [] (++)).
Qed.

(** A closed object, whatever became of its pointer. *)
Lemma constructed w impl : impl_fds (construct impl) = [] /\ impl_data (construct impl) = [] /\ impl_ok w (construct impl).
Proof. split; [done|]. split; [done|]. by apply closed_ok. Qed.

Lemma destroy_ok w impl : impl_in w impl -> returns (destroy epoll_ctl impl) w (fun _ w' => exists leak,
  evolves w w' (impl_fds impl) [] (impl_data impl) leak).
Proof.
  intros Hin. unfold destroy. destruct (impl_is_open impl) eqn:Hopen.
  - eapply returns_bind; [by apply dispose_spec|]. intros r w' Hev. by apply returns_ret.
  - apply returns_ret. destruct (closed_impl _ _ Hin Hopen) as (_ & -> & -> & _). exists []. apply evolves_refl, Hin.
Qed.

Lemma close_ok w impl : impl_in w impl -> object_spec w impl (first (close epoll_ctl impl no_error)).
Proof.
  intros Hin. unfold first, close. eapply returns_bind.
  - eapply returns_bind with (Φ := fun _ w' => exists leak, evolves w w' (impl_fds impl) [] (impl_data impl) leak).
    + destruct (impl_is_open impl) eqn:Hopen; [by apply dispose_spec|]. apply returns_ret.
      destruct (closed_impl _ _ Hin Hopen) as (_ & -> & -> & _). exists []. apply evolves_refl, Hin.
    + intros r w' Hev. apply returns_ret with (Φ := fun r w' => (exists leak, evolves w w' (impl_fds impl) [] (impl_data impl) leak) /\
        exists impl', r.1 = construct impl'). by eauto.
  - intros r w' [[leak Hev] [impl' ->]]. apply returns_ret. destruct (constructed w' impl') as (-> & -> & Hok).
    split; [by exists leak|done].
Qed.

Lemma release_ok w impl : impl_in w impl -> returns (release epoll_ctl impl) w (fun r w' =>
  (exists leak, evolves w w' (impl_fds impl) (impl_fds r.1.2 ++ if failed r.2 then [] else [r.1.1])
    (impl_data impl) (impl_data r.1.2 ++ leak)) /\ impl_ok w' r.1.2 /\
  (if failed r.2 then impl_fds impl = [] /\ impl_fds r.1.2 = [] else impl_fds impl = [r.1.1] /\ impl_fds r.1.2 = [])).
Proof.
  intros Hin. unfold release. destruct (impl_is_open impl) eqn:Hopen; cbn [negb].
  2: { apply returns_ret. cbn [fst snd]. change (failed error.bad_descriptor) with true. cbn match.
    destruct (closed_impl _ _ Hin Hopen) as (_ & -> & -> & _). split; [exists []; apply evolves_refl, Hin|].
    split; [apply Hin|done]. }
  destruct (open_impl _ _ Hin Hopen) as (Hs & Hfd & -> & d & Hd & -> & Hlive).
  unfold data_of. rewrite Hd. eapply returns_bind; [by apply returns_ret with (Φ := fun a w' => a = Some d /\ w' = w)|].
  intros ? ? [-> ->]. eapply returns_bind.
  { apply returns_reactor, (deregister_pool (fun _ => not_done)); [apply (ii_reactor _ _ Hin)|done]. }
  cbn beta. intros a w1 [(Hok1 & Hl1 & Ha) Ht1]. eapply returns_bind.
  { apply returns_reactor, (cleanup_pool (fun _ => not_done) epoll_ctl); [done|].
    intros d' ->. rewrite Hl1. by destruct Ha as [?|[= ->]]. }
  cbn beta. intros b w2 [(Hok2 & -> & Hl2) Ht2]. apply returns_ret. cbn [fst snd].
  change (failed no_error) with false. cbn match. destruct (constructed w2 (set_data None impl)) as (-> & -> & Hok).
  split; [|done]. exists (match a with Some _ => [] | None => [d] end).
  apply (evolves_frame_fds w w2 [] [] [d] _ [socket_ impl]). apply evolves_reactor; [done|congruence|].
  unfold live. rewrite Hl1 in Hl2.
  destruct Ha as [-> | ->]; cbn in *; [by rewrite (right_id_L [] (++)) in Hl2; rewrite Hl2|].
  by rewrite (right_id_L [] (++)).
Qed.

Lemma cancel_object_ok w impl : impl_in w impl -> returns (cancel impl) w (fun _ w' =>
  evolves w w' (impl_fds impl) (impl_fds impl) (impl_data impl) (impl_data impl) /\ thread_ w' = thread_ w).
Proof.
  intros Hin. unfold cancel. destruct (impl_is_open impl) eqn:Hopen; cbn [negb].
  2: { apply returns_ret. split; [by apply evolves_idle|done]. }
  destruct (open_impl _ _ Hin Hopen) as (Hs & Hfd & -> & d & Hd & -> & Hlive).
  unfold data_of. rewrite Hd. eapply returns_bind; [by apply returns_ret with (Φ := fun a w' => a = Some d /\ w' = w)|].
  intros ? ? [-> ->]. eapply returns_bind.
  { apply returns_reactor, (cancel_pool (fun _ => not_done) (fun _ => 0)); [apply (ii_reactor _ _ Hin)|done]. }
  cbn beta. intros a w1 [(Hok1 & Hl1) Ht1]. apply returns_ret. split; [|done].
  apply (evolves_frame w w1 [] [] [] [] [socket_ impl] [d]). apply evolves_reactor; [done|done|].
  unfold live. by rewrite Hl1.
Qed.

(** *** Opening *)

Lemma type_flags_ok type : in_range 8 (type_flags type) /\ has (type_flags type) non_blocking = false.
Proof. unfold type_flags. destruct (type =? SOCK_STREAM), (type =? SOCK_DGRAM); by repeat split. Qed.

Lemma opened_ok w s state d : s <> invalid_socket -> in_range 8 state -> has state non_blocking = false ->
  let impl := mkImpl s state (Some (Some d)) in
  impl_fds impl = [s] /\ impl_data impl = [d] /\ impl_ok w impl.
Proof.
  intros Hs Hrange Hhas impl. assert (impl_is_open impl = true) as Hopen.
  { unfold impl_is_open. cbn [impl socket_]. by destruct (Z.eqb_spec s invalid_socket). }
  unfold impl_fds, impl_data, impl_ok. rewrite Hopen. cbn [impl socket_ state_ reactor_data_].
  split; [done|]. split; [done|]. split; [done|]. split; [by exists d|]. unfold flags_true. by rewrite Hhas.
Qed.

(** The data of an object that could not be registered is lost. *)
Lemma unregistered_ok w impl d : impl_in w impl -> impl_is_open impl = false ->
  impl_fds (set_data (Some d) impl) = [] /\ impl_data (set_data (Some d) impl) = [] /\
  forall w', impl_ok w' (set_data (Some d) impl).
Proof.
  intros Hin Hopen. destruct (closed_impl _ _ Hin Hopen) as (_ & _ & _ & Hst).
  unfold impl_fds, impl_data, impl_ok. change (impl_is_open (set_data (Some d) impl)) with (impl_is_open impl).
  rewrite Hopen. cbn [set_data state_]. rewrite Hst. by repeat split.
Qed.

Lemma registered w fd : reactor_ok (reactor_ w) -> returns (on_reactor (register_descriptor epoll_ctl fd)) w (fun a w' =>
  evolves w w' [] [] [] [a.2] /\ thread_ w' = thread_ w).
Proof.
  intros Hok. eapply returns_impl; [apply returns_reactor, (register_pool (fun _ => not_done)); done|]. cbn beta.
  intros a w' [[Hok' Hl] Ht]. split; [|done]. apply evolves_reactor; [done|done|]. unfold live. rewrite Hl.
  rewrite (right_id_L [] (++)). apply Permutation_cons_append.
Qed.

Lemma holder_destroyed w s : s ∈ fds w -> reactor_ok (reactor_ w) ->
  returns (holder_destroy s) w (fun _ w' => evolves w w' [s] [] [] []).
Proof.
  intros Hs Hok. pose proof (descriptor_nonneg _ _ Hs) as Hpos. unfold holder_destroy.
  destruct (Z.eqb_spec s invalid_socket) as [->|Hne]; [by destruct Hpos|]. cbn [negb when].
  eapply returns_bind; [by apply returns_kernel, close_removes|]. cbn beta. intros r w' [[Ho Hu] Hr]. apply returns_ret.
  by apply evolves_closed.
Qed.

Lemma assign_ok w impl type native : impl_in w impl -> native <> invalid_socket ->
  returns (do_assign epoll_ctl impl type native) w (fun r w' =>
    (exists leak, evolves w w' [] [] (impl_data impl) (impl_data r.1 ++ leak)) /\ thread_ w' = thread_ w /\ impl_ok w' r.1 /\
    (if failed r.2 then impl_fds r.1 = impl_fds impl else impl_fds impl = [] /\ impl_fds r.1 = [native])).
Proof.
  intros Hin Hnative. unfold do_assign. destruct (impl_is_open impl) eqn:Hopen.
  { apply returns_ret. cbn [fst snd]. change (failed error.already_open) with true. cbn match.
    split; [|split; [done|]; split; [apply Hin|done]]. exists []. rewrite app_nil_r.
    apply (evolves_frame_data w w [] [] [] [] (impl_data impl)), evolves_refl, Hin. }
  destruct (closed_impl _ _ Hin Hopen) as (_ & Hfds & Hdata & Hst). rewrite Hdata, Hfds.
  eapply returns_bind; [apply registered, Hin|]. cbn beta. intros [e d] w' [Hev Ht]. cbn [fst snd] in *.
  destruct (Z.eqb_spec e 0) as [->|He]; cbn [negb]; apply returns_ret; cbn [fst snd].
  - change (failed no_error) with false. cbn match. destruct (type_flags_ok type) as [Hrange Hhas].
    destruct (opened_ok w' native (Z.lor (type_flags type) possible_dup) d Hnative) as (-> & -> & Hok).
    + apply in_range_lor; [done|done|by split].
    + rewrite non_blocking_lor, Hhas. done.
    + split; [by exists []|]. done.
  - assert (failed (system_code e) = true) as -> by (unfold failed; cbn; by destruct (Z.eqb_spec e 0)).
    destruct (unregistered_ok w impl d Hin Hopen) as (-> & -> & Hok). split; [by exists [d]|].
    by split.
Qed.

Lemma object_first {A} w impl (m : comp (World K Q) SocketEffect (SocketImpl * A)) :
  returns m w (fun r w' => (exists leak,
    evolves w w' (impl_fds impl) (impl_fds r.1) (impl_data impl) (impl_data r.1 ++ leak)) /\ impl_ok w' r.1) ->
  object_spec w impl (first m).
Proof. intros Hm. eapply returns_bind; [exact Hm|]. cbn beta. intros r w' Hr. by apply returns_ret. Qed.

Lemma open_ok w impl af type protocol : impl_in w impl ->
  object_spec w impl (first (do_open epoll_ctl impl af type protocol)).
Proof.
  intros Hin. apply object_first. unfold do_open. destruct (impl_is_open impl) eqn:Hopen.
  { apply returns_ret. cbn [fst]. split; [|apply Hin]. exists []. rewrite (right_id_L [] (++)). by apply evolves_idle. }
  destruct (closed_impl _ _ Hin Hopen) as (_ & Hfds & Hdata & Hst). rewrite Hdata, Hfds.
  eapply returns_bind; [apply returns_kernel, socket_creates|]. cbn beta. intros [fd ec] w1 [Hc Hr1]. cbn [fst snd] in *.
  destruct (evolves_created w w1 fd) as [Hev1 Hfd]; [apply Hin|done|done|].
  destruct (Z.eqb_spec fd invalid_socket) as [->|Hne].
  { apply returns_ret. cbn [fst]. rewrite Hdata, Hfds. split; [by exists []|by apply closed_ok]. }
  assert (reactor_ok (reactor_ w1)) as Hok1 by apply Hev1.
  eapply returns_bind; [by apply registered|]. cbn beta. intros [e d] w2 [Hev2 Ht2]. cbn [fst snd] in *.
  assert (evolves w w2 [] [fd] [] [d]) as Hev.
  { apply (evolves_trans w w1 w2 [] [fd] [fd] [] [] [d]); [done|]. by apply (evolves_frame w1 w2 [] [] [] [d] [fd] []). }
  destruct (Z.eqb_spec e 0) as [->|He]; cbn [negb].
  - apply returns_ret. cbn [fst]. destruct (type_flags_ok type) as [Hrange Hhas].
    destruct (opened_ok w2 fd (type_flags type) d Hne Hrange Hhas) as (-> & -> & Hok). split; [by exists []|done].
  - eapply returns_bind.
    { apply holder_destroyed; [unfold fds; rewrite Ht2; by apply Hfd|apply Hev2]. }
    cbn beta. intros _ w3 Hev3. apply returns_ret. cbn [fst].
    destruct (unregistered_ok w impl d Hin Hopen) as (-> & -> & Hok). split; [|done]. exists [d].
    apply (evolves_trans w w2 w3 [] [fd] [] [] [d] [d]); [done|]. by apply (evolves_frame_data w2 w3 [fd] [] [] [] [d]).
Qed.

(** *** Starting operations *)

Lemma posted w op k : reactor_ok (reactor_ w) ->
  returns (post_completion op k) w (fun _ w' => evolves w w' [] [] [] [] /\ thread_ w' = thread_ w).
Proof.
  intros Hok. unfold post_completion. eapply returns_impl.
  - apply returns_reactor with (Φ := fun _ r => r = reactor_ w). unfold post_immediate. by apply returns_emit.
  - cbn beta. intros _ w' [Hr Ht]. split; [|done]. apply evolves_same; [done|done|by rewrite Ht].
Qed.

(** Whether the object was left as it was but for its flags. *)
Definition same_object (impl impl' : SocketImpl) : Prop :=
  socket_ impl' = socket_ impl /\ reactor_data_ impl' = reactor_data_ impl.

Lemma same_object_fds impl impl' : same_object impl impl' ->
  impl_fds impl' = impl_fds impl /\ impl_data impl' = impl_data impl /\ impl_is_open impl' = impl_is_open impl.
Proof. unfold impl_fds, impl_data, impl_is_open. by intros [-> ->]. Qed.

Lemma evolved_in w w' impl impl' : impl_in w impl -> same_object impl impl' ->
  evolves w w' (impl_fds impl) (impl_fds impl) (impl_data impl) (impl_data impl) -> impl_ok w' impl' -> impl_in w' impl'.
Proof.
  intros Hin Hsame Hev Hok. destruct (same_object_fds _ _ Hsame) as (Hf & Hd & _). split; [done|apply Hev|..].
  - intros fd. rewrite Hf. intros Hfd. pose proof (ev_fds _ _ _ _ _ _ Hev) as Hp.
    apply Permutation_app_inv_r in Hp. apply elem_of_elements. rewrite Hp. by apply elem_of_elements, (ii_fds _ _ Hin).
  - intros d. rewrite Hd. intros Hin'. pose proof (ev_live _ _ _ _ _ _ Hev) as Hp.
    apply Permutation_app_inv_r in Hp. rewrite Hp. by apply (ii_data _ _ Hin).
Qed.

Lemma ensure_ok w impl op : impl_in w impl -> returns (ensure_non_blocking impl op) w (fun r w' =>
  evolves w w' (impl_fds impl) (impl_fds impl) (impl_data impl) (impl_data impl) /\ impl_ok w' r.2 /\
  same_object impl r.2 /\ (r.1 = true -> impl_is_open impl = true /\ socket_ impl ∈ modes w')).
Proof.
  intros Hin. unfold ensure_non_blocking. destruct (has (state_ impl) non_blocking) eqn:Hhas.
  { apply returns_ret. split; [by apply evolves_idle|]. split; [apply Hin|]. split; [done|]. intros _.
    destruct (ii_ok _ _ Hin) as [_ Hok]. destruct (impl_is_open impl); [split; [done|by apply Hok]|].
    by rewrite Hok in Hhas. }
  eapply returns_bind.
  { apply (flags_spec w impl _ (fun r => r.1.2) (fun r t => (socket_ impl = invalid_socket -> r.1.1 = false) /\
      (r.1.1 = true -> socket_ impl ∈ unblocked (kernel_ t))) Hin).
    eapply returns_impl; [apply set_internal_spec|]. cbn beta. intros r t (Hm & Hk & Hs & Hnb).
    split; [done|]. split; [done|]. split; [intros Hi; by apply Hs|]. split; [intros Hi; by apply Hs|].
    intros Hr. by apply Hnb. }
  cbn beta. intros r w' (Hev & Hok & Hr & Hs & Hnb). eapply returns_bind; [by apply returns_emit with (Φ := fun _ w'' => w'' = w')|].
  intros _ ? ->. apply returns_ret. cbn [fst snd]. split; [done|]. split; [done|]. split; [done|]. intros Htrue.
  split; [|by apply Hnb]. unfold impl_is_open. destruct (Z.eqb_spec (socket_ impl) invalid_socket) as [Hi|]; [|done].
  by rewrite (Hs Hi) in Htrue.
Qed.

Lemma started_ok w impl t op k nb : impl_in w impl -> impl_is_open impl = true ->
  returns (start_reactor_op perform epoll_ctl impl t op k nb) w (fun _ w' => evolves w w' [] [] [] [] /\ thread_ w' = thread_ w).
Proof.
  intros Hin Hopen. destruct (open_impl _ _ Hin Hopen) as (_ & _ & _ & d & Hd & _ & Hlive).
  unfold start_reactor_op, data_of. rewrite Hd. eapply returns_bind; [by apply returns_ret with (Φ := fun a w' => a = Some d /\ w' = w)|].
  intros ? ? [-> ->]. eapply returns_impl; [apply returns_reactor, start_op_pool; [apply Hin|done]|].
  cbn beta. intros _ w' [[Hok Hl] Ht]. split; [|done]. apply evolves_reactor; [done|done|]. unfold live. by rewrite Hl.
Qed.

(** A call that changes at most the flags. *)
Lemma object_kept w w' impl impl' : same_object impl impl' ->
  evolves w w' (impl_fds impl) (impl_fds impl) (impl_data impl) (impl_data impl) -> impl_ok w' impl' ->
  (exists leak, evolves w w' (impl_fds impl) (impl_fds impl') (impl_data impl) (impl_data impl' ++ leak)) /\ impl_ok w' impl'.
Proof.
  intros Hsame Hev Hok. destruct (same_object_fds _ _ Hsame) as (-> & -> & _). split; [|done]. exists [].
  by rewrite (right_id_L [] (++)).
Qed.

Lemma evolves_then w w1 w2 G N GD ND : evolves w w1 G N GD ND -> evolves w1 w2 [] [] [] [] -> evolves w w2 G N GD ND.
Proof. intros Hev Hev'. apply (evolves_trans w w1 w2 G N N GD ND ND); [done|]. by apply (evolves_frame w1 w2 [] [] [] [] N ND). Qed.

Lemma impl_ok_thread w w' impl : thread_ w' = thread_ w -> impl_ok w impl -> impl_ok w' impl.
Proof. unfold impl_ok. by intros ->. Qed.

Lemma impl_ok_same w w' impl : same_fds (kernel_ (thread_ w)) (kernel_ (thread_ w')) -> impl_ok w impl -> impl_ok w' impl.
Proof. unfold impl_ok, flags_true. by intros [_ ->]. Qed.

(** What may run on a non-blocking descriptor: it changes no descriptor. *)
Definition starter w (m : comp (World K Q) SocketEffect unit) : Prop :=
  returns m w (fun _ w' => evolves w w' [] [] [] [] /\ same_fds (kernel_ (thread_ w)) (kernel_ (thread_ w'))).

Lemma starter_reactor w impl t op k nb : impl_in w impl -> impl_is_open impl = true ->
  starter w (start_reactor_op perform epoll_ctl impl t op k nb).
Proof.
  intros Hin Hopen. eapply returns_impl; [by apply started_ok|]. cbn beta. intros _ w' [Hev Ht]. split; [done|].
  by rewrite Ht.
Qed.

Lemma starter_posted w op k : reactor_ok (reactor_ w) -> starter w (post_completion op k).
Proof.
  intros Hok. eapply returns_impl; [by apply posted|]. cbn beta. intros _ w' [Hev Ht]. split; [done|]. by rewrite Ht.
Qed.

Lemma starter_connecting w impl op k addr : impl_in w impl -> impl_is_open impl = true ->
  starter w (start_connecting perform epoll_ctl impl op k addr).
Proof.
  intros Hin Hopen. eapply returns_bind; [apply returns_kernel, harmless_connect|]. cbn beta. intros c w1 [Hsame Hr].
  assert (evolves w w1 [] [] [] []) as Hev by (apply evolves_same; [apply Hin|done|done]).
  assert (impl_in w1 impl) as Hin1.
  { apply (evolved_in w w1 impl impl Hin); [done| |by apply (impl_ok_same w), Hin].
    by apply (evolves_then w w); [apply evolves_idle|]. }
  eapply returns_bind; [by apply returns_emit with (Φ := fun _ w' => w' = w1)|]. intros _ ? ->.
  eapply returns_impl with (Φ := fun _ w' => evolves w1 w' [] [] [] [] /\ same_fds (kernel_ (thread_ w1)) (kernel_ (thread_ w'))).
  - destruct (_ && _); [|apply starter_posted, Hin1].
    eapply returns_bind; [by apply returns_emit with (Φ := fun _ w' => w' = w1)|]. intros _ ? ->. by apply starter_reactor.
  - cbn beta. intros _ w' [Hev' Hsame']. split; [by apply (evolves_then w w1)|]. destruct Hsame, Hsame'. split; by etrans.
Qed.

Lemma when_ready_ok w impl op k start : impl_in w impl ->
  (forall w1 impl1, impl_in w1 impl1 -> impl_is_open impl1 = true -> starter w1 (start impl1)) ->
  returns (when_ready impl op k start) w (fun impl' w' =>
    same_object impl impl' /\ impl_ok w' impl' /\
    evolves w w' (impl_fds impl) (impl_fds impl) (impl_data impl) (impl_data impl)).
Proof.
  intros Hin Hstart. eapply returns_bind; [by apply ensure_ok|]. cbn beta.
  intros [b impl'] w1 (Hev & Hok & Hsame & Hopen). cbn [fst snd] in *.
  pose proof (evolved_in _ _ _ _ Hin Hsame Hev Hok) as Hin'. destruct (same_object_fds _ _ Hsame) as (_ & _ & Hopen').
  eapply returns_bind with (Φ := fun _ w' => evolves w1 w' [] [] [] [] /\ same_fds (kernel_ (thread_ w1)) (kernel_ (thread_ w'))).
  { destruct b; [apply Hstart; [done|]; rewrite Hopen'; by apply Hopen|apply starter_posted, Hin']. }
  intros _ w2 [Hev2 Hsame2]. apply returns_ret. split; [done|]. split; [by apply (impl_ok_same w1)|by apply (evolves_then w w1)].
Qed.

Lemma object_of_kept w impl m : returns m w (fun impl' w' => same_object impl impl' /\ impl_ok w' impl' /\
    evolves w w' (impl_fds impl) (impl_fds impl) (impl_data impl) (impl_data impl)) -> object_spec w impl m.
Proof. intros Hm. eapply returns_impl; [exact Hm|]. cbn beta. intros impl' w' (? & ? & ?). by apply object_kept. Qed.

Lemma posted_ok w impl op k : impl_in w impl -> object_spec w impl (post_completion op k ;; (mret impl)).
Proof.
  intros Hin. eapply returns_bind; [apply posted, Hin|]. cbn beta. intros _ w' [Hev Ht]. apply returns_ret.
  apply object_kept; [done|by apply (evolves_then w w); [apply evolves_idle|]|]. by apply (impl_ok_thread w), Hin.
Qed.

Lemma start_op_ok w impl t op k nb noop : impl_in w impl ->
  object_spec w impl (start_op perform epoll_ctl impl t op k nb noop).
Proof.
  intros Hin. unfold start_op. destruct noop; [by apply posted_ok|].
  apply object_of_kept, when_ready_ok; [done|]. intros. by apply starter_reactor.
Qed.

Lemma posted_error_ok w impl op k ec : impl_in w impl ->
  object_spec w impl (emit (SetOpError op ec) ;; (post_completion op k ;; (mret impl))).
Proof.
  intros Hin. eapply returns_bind; [by apply returns_emit with (Φ := fun _ w' => w' = w)|]. intros _ ? ->. by apply posted_ok.
Qed.

Lemma async_wait_ok w impl wt op k : impl_in w impl -> object_spec w impl (async_wait perform epoll_ctl impl wt op k).
Proof. intros Hin. destruct wt; [by apply start_op_ok|by apply posted_error_ok]. Qed.

Lemma start_accept_ok w impl op k peer_is_open : impl_in w impl ->
  object_spec w impl (start_accept_op perform epoll_ctl impl op k peer_is_open).
Proof.
  intros Hin. unfold start_accept_op. destruct peer_is_open; cbn [negb]; [by apply posted_error_ok|by apply start_op_ok].
Qed.

Lemma start_connect_ok w impl op k addr : impl_in w impl ->
  object_spec w impl (start_connect_op perform epoll_ctl impl op k addr).
Proof. intros Hin. apply object_of_kept, when_ready_ok; [done|]. intros. by apply starter_connecting. Qed.

(** *** Accepting *)

Lemma accept_ok fuel w impl type peer addrlen : impl_in w peer -> (patience (kernel_ (thread_ w)) < fuel)%nat ->
  returns (accept epoll_ctl fuel impl type peer addrlen) w (fun r w' => (exists leak,
    evolves w w' (impl_fds peer) (impl_fds r.1) (impl_data peer) (impl_data r.1 ++ leak)) /\ impl_ok w' r.1).
Proof.
  intros Hin Hfuel. unfold accept. destruct (impl_is_open peer) eqn:Hopen.
  { apply returns_ret. apply object_kept; [done|by apply evolves_idle|apply Hin]. }
  destruct (closed_impl _ _ Hin Hopen) as (Hs & Hfds & Hdata & Hst).
  eapply returns_bind; [by apply returns_kernel, sync_accept_creates|]. cbn beta. intros r w1 [Hc Hr1].
  destruct (evolves_created w w1 r.1.1) as [Hev1 Hfd]; [apply Hin|done|done|].
  destruct (Z.eqb_spec r.1.1 invalid_socket) as [Hr|Hne].
  { apply returns_ret. cbn [fst]. rewrite Hfds, Hdata. split; [by exists []|by apply closed_ok]. }
  assert (impl_in w1 peer) as Hin1.
  { split; [by apply closed_ok|apply Hev1|by rewrite Hfds; intros ? ?%not_elem_of_nil|by rewrite Hdata; intros ? ?%not_elem_of_nil]. }
  eapply returns_bind; [by apply assign_ok|]. cbn beta. intros a w2 ([leak Hev2] & Ht2 & Hok2 & Hfds2).
  rewrite Hdata in *. destruct (failed a.2) eqn:Hfailed; cbn [when].
  - eapply returns_bind; [apply holder_destroyed; [unfold fds; rewrite Ht2; by apply Hfd|apply Hev2]|].
    cbn beta. intros _ w3 Hev3. apply returns_ret. rewrite Hfds2, Hfds. split.
    + exists leak. apply (evolves_trans w w2 w3 [] [r.1.1] [] [] (impl_data a.1 ++ leak)).
      * apply (evolves_trans w w1 w2 [] [r.1.1] [r.1.1] [] []); [done|]. by apply (evolves_frame_fds w1 w2 [] [] [] _ [r.1.1]).
      * by apply (evolves_frame_data w2 w3 [r.1.1] [] [] [] (impl_data a.1 ++ leak)).
    + apply (impl_ok_evolves w2 w3 _ _ _ _ _ Hev3 Hok2). rewrite Hfds2, Hfds. by intros ? ?%not_elem_of_nil.
  - destruct Hfds2 as [_ Hfds2]. eapply returns_run; [reflexivity|]. apply returns_ret. rewrite Hfds2, Hfds. split; [|done].
    exists leak. apply (evolves_trans w w1 w2 [] [r.1.1] [r.1.1] [] []); [done|].
    by apply (evolves_frame_fds w1 w2 [] [] [] _ [r.1.1]).
Qed.

(** What is left of the operation's descriptor is closed with it. *)
Lemma holder_ok w o : (forall fd, fd ∈ op_fds o -> fd ∈ fds w) -> reactor_ok (reactor_ w) ->
  returns (holder_destroy (new_socket_ o)) w (fun _ w' => evolves w w' (op_fds o) [] [] []).
Proof.
  unfold op_fds. intros Hfds Hok. destruct (Z.eqb_spec (new_socket_ o) invalid_socket) as [Hs|Hs].
  - unfold holder_destroy. rewrite Hs. apply returns_ret. by apply evolves_refl.
  - apply holder_destroyed; [apply Hfds; by left|done].
Qed.

Lemma complete_accept_ok w owner o type peer : impl_in w peer -> (forall fd, fd ∈ op_fds o -> fd ∈ fds w) ->
  (forall fd, fd ∈ op_fds o -> fd ∉ impl_fds peer) ->
  returns (complete_accept epoll_ctl owner o type peer) w (fun r w' => (exists leak,
    evolves w w' (op_fds o ++ impl_fds peer) (impl_fds r.1) (impl_data peer) (impl_data r.1 ++ leak)) /\ impl_ok w' r.1).
Proof.
  intros Hin Hfds Hdisj. unfold complete_accept. destruct (owner && negb (new_socket_ o =? invalid_socket)) eqn:Howner.
  - apply andb_true_iff in Howner as [_ Hs]. assert (op_fds o = [new_socket_ o]) as Ho.
    { unfold op_fds. by destruct (new_socket_ o =? invalid_socket). }
    eapply returns_bind; [apply assign_ok; [done|]|].
    { intros He. by rewrite He in Hs. }
    cbn beta. intros a w1 ([leak Hev] & Ht & Hok & Hafds). destruct (failed a.2); cbn [when].
    + eapply returns_bind; [apply holder_ok; [|apply Hev]|].
      { intros fd Hfd. unfold fds. rewrite Ht. by apply Hfds. }
      cbn beta. intros _ w2 Hev2. apply returns_ret. rewrite Hafds. split.
      * exists leak. apply (evolves_trans w w1 w2 _ (op_fds o ++ impl_fds peer) _ _ (impl_data a.1 ++ leak)).
        -- by apply (evolves_frame_fds w w1 [] [] _ _ (op_fds o ++ impl_fds peer)).
        -- apply (evolves_frame w1 w2 (op_fds o) [] [] [] (impl_fds peer) (impl_data a.1 ++ leak)). done.
      * apply (impl_ok_evolves w1 w2 _ _ _ _ _ Hev2 Hok). intros fd. rewrite Hafds. intros Hfd.
        split; [unfold fds; rewrite Ht; by apply (ii_fds _ _ Hin)|]. intros Hop. by apply (Hdisj fd).
    + destruct Hafds as [-> Hafds]. eapply returns_run; [reflexivity|]. apply returns_ret. rewrite Hafds, Ho. split; [|done].
      exists leak. by apply (evolves_frame_fds w w1 [] [] _ _ [new_socket_ o]).
  - eapply returns_bind; [apply holder_ok; [done|apply Hin]|]. cbn beta. intros _ w' Hev. apply returns_ret. cbn [fst]. split.
    + exists []. apply (evolves_frame w w' (op_fds o) [] [] [] (impl_fds peer) (impl_data peer ++ [])) in Hev.
      by rewrite !app_nil_r in Hev |- *.
    + apply (impl_ok_evolves w w' _ _ _ _ _ Hev (ii_ok _ _ Hin)). intros fd Hfd.
      split; [by apply (ii_fds _ _ Hin)|]. intros Hop. by apply (Hdisj fd).
Qed.

Lemma perform_accept_ok fuel w o : (patience (kernel_ (thread_ w)) < fuel)%nat -> reactor_ok (reactor_ w) ->
  (forall fd, fd ∈ op_fds o -> fd ∈ fds w) ->
  returns (on_kernel (accept_perform fuel o)) w (fun r w' => evolves w w' (op_fds o) (op_fds r.2) [] []).
Proof.
  intros Hfuel Hok Hfds. eapply returns_impl; [apply returns_kernel
    with (Φ := fun r t => evolves w (mkWorld t (reactor_ w)) (op_fds o) (op_fds r.2) [] [])|].
  2: { intros r [t s] [Hev Hr]. cbn in Hr. by rewrite Hr. }
  unfold accept_perform. eapply returns_bind; [by apply non_blocking_accept_creates|].
  cbn beta. intros [[[complete fd] addrlen] ec] t1 Hc. cbn [fst snd] in Hc.
  set (w1 := mkWorld t1 (reactor_ w)). destruct (evolves_created w w1 fd) as [Hev _]; [done|done|exact Hc|].
  eapply returns_bind with (Φ := fun held t => held = fd /\ evolves w1 (mkWorld t (reactor_ w)) (op_fds o) [] [] []).
  - unfold holder_reset, op_fds in *. destruct (Z.eqb_spec (new_socket_ o) invalid_socket) as [Hs|Hs]; cbn [negb when].
    { eapply returns_run; [reflexivity|]. apply returns_ret. split; [done|]. by apply evolves_refl. }
    eapply returns_bind with (Φ := fun _ t => evolves w1 (mkWorld t (reactor_ w)) [new_socket_ o] [] [] []);
      [|intros _ t Ht; apply returns_ret; by split].
    eapply returns_bind; [by apply close_removes|]. cbn beta. intros r t [Ho Hu]. apply returns_ret.
    apply evolves_closed; [|done..]. pose proof (ev_fds _ _ _ _ _ _ Hev) as Hp. rewrite app_nil_r in Hp.
    apply elem_of_elements. rewrite Hp. apply elem_of_app. left. apply elem_of_elements, Hfds. by left.
  - intros held t [-> Hev2]. apply returns_ret. unfold op_fds at 2. cbn [snd new_socket_].
    apply (evolves_trans w w1 _ (op_fds o) (op_fds o ++ (if fd =? invalid_socket then [] else [fd])) _ [] []).
    + pose proof (evolves_frame_fds _ _ _ _ _ _ (op_fds o) Hev) as Hev'. cbn [app] in Hev'.
      destruct Hev' as [Hf Hm Hl Hr]. split; [|done..]. rewrite Hf. solve_Permutation.
    + by apply (evolves_frame_fds w1 _ (op_fds o) [] [] []).
Qed.

(** *** What starting an operation does before its descriptor is non-blocking *)

(** Trying to switch the descriptor, and completing the operation with an error. *)
Definition preparing (op : nat) (is_continuation : bool) (e : SocketEffect) : Prop :=
  match e with
  | SysCall (SysIoctl _ cmd arg) => cmd = FIONBIO /\ arg = 1
  | SetOpError op' _ => op' = op
  | OfReactor (ToScheduler (PostImmediateCompletion op' k)) => op' = op /\ k = is_continuation
  | _ => False
  end.

(** Every effect of [m] satisfies [P]. *)
Definition only {A} (m : comp (World K Q) SocketEffect A) (P : SocketEffect -> Prop) : Prop :=
  forall w es w' a, m w = (es, w', Ok a) -> Forall P es.

Lemma run_bind_inv {A B S E} (m : comp S E A) (f : A -> comp S E B) s es s' b : (m ≫= f) s = (es, s', Ok b) ->
  exists es1 s1 a es2, m s = (es1, s1, Ok a) /\ f a s1 = (es2, s', Ok b) /\ es = es1 ++ es2.
Proof.
  unfold mbind, comp_bind. destruct (m s) as [[es1 s1] [a|]]; [|done]. destruct (f a s1) as [[es2 s2] r] eqn:Hf.
  intros [= <- <- ->]. by exists es1, s1, a, es2.
Qed.

Lemma only_ret {A} (a : A) P : only (mret a) P.
Proof. by intros w es w' b [= <- _ _]. Qed.

Lemma only_emit e (P : SocketEffect -> Prop) : P e -> only (emit e) P.
Proof. intros HP w es w' b [= <- _]. by constructor. Qed.

Lemma only_bind {A B} (m : comp (World K Q) SocketEffect A) (f : A -> comp (World K Q) SocketEffect B) P :
  only m P -> (forall a, only (f a) P) -> only (m ≫= f) P.
Proof.
  intros Hm Hf w es w' b (es1 & w1 & a & es2 & H1 & H2 & ->)%run_bind_inv.
  apply Forall_app. split; [by apply (Hm _ _ _ _ H1)|by apply (Hf _ _ _ _ _ H2)].
Qed.

Lemma only_run {A B} (m : comp (World K Q) SocketEffect A) (f : A -> comp (World K Q) SocketEffect B) P w es w' b :
  (m ≫= f) w = (es, w', Ok b) -> only m P -> (forall a, only (f a) P) -> Forall P es.
Proof. intros Hrun Hm Hf. by apply (only_bind m f P Hm Hf w es w' b). Qed.

Lemma only_posted op k : only (post_completion op k) (preparing op k).
Proof. intros w es w' a [= <- _ _]. by repeat constructor. Qed.

Lemma only_ensure impl op k : only (ensure_non_blocking impl op) (preparing op k).
Proof.
  unfold ensure_non_blocking. destruct (has _ _); [apply only_ret|]. apply only_bind.
  2: { intros r. apply only_bind; [by apply only_emit|intros _; apply only_ret]. }
  intros w es w' a Hrun. unfold on_kernel, socket_ops.set_internal_non_blocking in Hrun.
  destruct (_ =? _); [by injection Hrun as <- _ _|]. cbn [negb andb] in Hrun.
  match type of Hrun with (let '(_, _) := ?x in _) = _ => destruct x as [[es' t'] r'] eqn:Hm end. injection Hrun as <- _ ->.
  apply run_bind_inv in Hm as (es1 & t1 & r & es2 & Hset & Hret & ->).
  assert (es2 = []) as -> by (destruct (0 <=? r.1); by injection Hret as <- _ _). rewrite app_nil_r.
  unfold socket_ops.set_mode, socket_ops.clear_last_error, socket_ops.error_wrapper, socket_ops.call in Hset.
  autorewrite with comp in Hset. cbn [kernel_] in Hset.
  destruct (syscall (SysIoctl (socket_ impl) FIONBIO 1) (kernel_ (thread_ w))) as [[e|ret wr] k'];
    autorewrite with comp in Hset; injection Hset as <- _ _; by repeat constructor.
Qed.

(** Either the operation's descriptor is in non-blocking mode, or no call but for
    the preparations was made. *)
Definition guarded w' impl (op : nat) (k : bool) (es : list SocketEffect) : Prop :=
  (impl_is_open impl = true /\ socket_ impl ∈ modes w') \/ Forall (preparing op k) es.

Lemma returns_is {A S E} (m : comp S E A) s Φ es s' a : returns m s Φ -> m s = (es, s', Ok a) -> Φ a s'.
Proof. intros (es' & s1 & b & Hm & HΦ) Hrun. rewrite Hm in Hrun. by injection Hrun as _ <- <-. Qed.

Lemma when_ready_guarded w impl op k start es w' impl' : impl_in w impl ->
  (forall w1 impl1, impl_in w1 impl1 -> impl_is_open impl1 = true -> starter w1 (start impl1)) ->
  when_ready impl op k start w = (es, w', Ok impl') -> guarded w' impl op k es.
Proof.
  intros Hin Hstart Hrun. apply run_bind_inv in Hrun as (es1 & w1 & [b impl1] & es2 & Hensure & Hrun & ->).
  destruct (returns_is _ _ _ _ _ _ (ensure_ok w impl op Hin) Hensure) as (Hev & Hok & Hsame & Hopen). cbn [fst snd] in *.
  pose proof (evolved_in _ _ _ _ Hin Hsame Hev Hok) as Hin1. destruct (same_object_fds _ _ Hsame) as (_ & _ & Hopen1).
  destruct b.
  - left. destruct (Hopen eq_refl) as [Ho Hmode]. split; [done|].
    apply run_bind_inv in Hrun as (es3 & w3 & [] & es4 & Hrun & Hret & _). injection Hret as _ <- _.
    rewrite Ho in Hopen1. destruct (returns_is _ _ _ _ _ _ (Hstart w1 impl1 Hin1 Hopen1) Hrun) as [_ [_ Hu]].
    unfold modes. by rewrite Hu.
  - right. apply Forall_app. split; [by apply (only_ensure _ _ _ _ _ _ _ Hensure)|].
    apply (only_run _ _ _ _ _ _ _ Hrun); [apply only_posted|]. intros _. apply only_ret.
Qed.

Lemma posted_guarded w w' w1 impl op k es impl' :
  (post_completion op k ;; (mret impl)) w = (es, w1, Ok impl') -> guarded w' impl op k es.
Proof.
  intros Hrun. right. apply (only_run _ _ _ _ _ _ _ Hrun); [apply only_posted|]. intros _. apply only_ret.
Qed.

Lemma start_op_guarded w impl t op k nb noop es w' impl' : impl_in w impl ->
  start_op perform epoll_ctl impl t op k nb noop w = (es, w', Ok impl') -> guarded w' impl op k es.
Proof.
  intros Hin. unfold start_op. destruct noop; [apply posted_guarded|].
  apply when_ready_guarded; [done|]. intros. by apply starter_reactor.
Qed.

Lemma posted_error_guarded w w' w1 impl op k ec es impl' :
  (emit (SetOpError op ec) ;; (post_completion op k ;; (mret impl))) w = (es, w1, Ok impl') -> guarded w' impl op k es.
Proof.
  intros Hrun. right. apply (only_run _ _ _ _ _ _ _ Hrun); [by apply only_emit|]. intros _.
  apply only_bind; [apply only_posted|]. intros _. apply only_ret.
Qed.

Lemma start_accept_guarded w impl op k peer_is_open es w' impl' : impl_in w impl ->
  start_accept_op perform epoll_ctl impl op k peer_is_open w = (es, w', Ok impl') -> guarded w' impl op k es.
Proof.
  intros Hin. unfold start_accept_op. destruct peer_is_open; cbn [negb]; [apply posted_error_guarded|by apply start_op_guarded].
Qed.

Lemma async_wait_guarded w impl wt op k es w' impl' : impl_in w impl ->
  async_wait perform epoll_ctl impl wt op k w = (es, w', Ok impl') -> guarded w' impl op k es.
Proof. intros Hin. destruct wt; [by apply start_op_guarded|apply posted_error_guarded]. Qed.

Lemma start_connect_guarded w impl op k addr es w' impl' : impl_in w impl ->
  start_connect_op perform epoll_ctl impl op k addr w = (es, w', Ok impl') -> guarded w' impl op k es.
Proof. intros Hin. apply when_ready_guarded; [done|]. intros. by apply starter_connecting. Qed.

End invariant.
