(* ===== verification/AsioSocketSystem.v ===== *)
(** * asio: programs with sockets

    A program with any number of socket objects and pending accepts, and every
    sequence of calls on them.  [sockets_ok] is the invariant of such programs:
    who owns which descriptor, what the flags say of its mode, and which data in
    the reactor belongs to it. *)
From S2P Require Import Prelude AsioScheduler AsioReactor AsioTimerQueue AsioTimerSet AsioSocketOps AsioSocketStream.
From S2P Require Import AsioDescriptors AsioSocketService AsioSocketObjects.
Local Open Scope Z_scope.

(** ** Programs *)

(** The socket objects and the pending accepts; [foreign] are the descriptors that
    the rest of the program owns. *)
Record Sockets (K Q : Type) := mkSockets {
  world : World K Q;
  objects : gmap nat SocketImpl;
  accepts : gmap nat accept_op;
  foreign : gset Z;
}.
Arguments mkSockets {K Q} _ _ _ _.
Arguments world {K Q} _.
Arguments objects {K Q} _.
Arguments accepts {K Q} _.
Arguments foreign {K Q} _.

(** The calls that change neither an object nor the descriptors. *)
Inductive PlainCall :=
| PlainBind (addr : list Z)
| PlainListen (backlog : Z)
| PlainShutdown (what : Z)
| PlainAtMark
| PlainAvailable
| PlainGetOption (level name value size : Z)
| PlainWait (w : option wait_type)
| PlainConnect (addr : list Z)
| PlainReceive (capacity flags : Z) (all_empty : bool)
| PlainSend (bytes : list Z) (flags : Z) (all_empty : bool).

Inductive SocketCall :=
| CallCreate (i : nat)
| CallMoveConstruct (i source : nat)
| CallMoveAssign (i source : nat)
| CallDestroy (i : nat)
| CallOpen (i : nat) (af type protocol : Z)
| CallAssign (i : nat) (type native_socket : Z)
| CallClose (i : nat)
| CallRelease (i : nat)
| CallCancel (i : nat)
| CallNonBlocking (i : nat) (mode : bool)
| CallNativeNonBlocking (i : nat) (mode : bool)
| CallIoControl (i : nat) (cmd arg : Z)
| CallSetOption (i : nat) (level name : Z) (data : list Z) (size : Z)
| CallStartOp (i : nat) (t : OpType) (op : nat) (is_continuation is_non_blocking noop : bool)
| CallConnect (i op : nat) (is_continuation : bool) (addr : list Z)
| CallPlain (i : nat) (c : PlainCall)
| CallAsyncWait (i : nat) (w : option wait_type) (op : nat) (is_continuation : bool)
| CallAccept (i : nat) (type : Z) (peer : nat)
| CallAsyncAccept (i op : nat) (is_continuation : bool) (peer : nat)
| PerformAccept (op : nat)
| CompleteAccept (owner : bool) (op : nat) (type : Z) (peer : nat).

Section programs.
Context {K : Type} `{!Kernel K, !PatientKernel K} {Q : Type} `{!TimerQueueSet Q}.
Context (perform : nat -> Status) (epoll_ctl : nat -> Z).

Local Abbreviation M := (comp (Sockets K Q) SocketEffect).
Implicit Types (y : Sockets K Q) (w : World K Q).

Definition on_world {A} (m : comp (World K Q) SocketEffect A) : M A := fun y =>
  let '(es, w, r) := m (world y) in (es, mkSockets w (objects y) (accepts y) (foreign y), r).

Definition object (i : nat) : M SocketImpl :=
  y ← get_state;
  match objects y !! i with
  | Some impl => mret impl
  | None => fail_with (UndefinedBehaviour "no object")
  end.

Definition put_object (i : nat) (impl : SocketImpl) : M unit :=
  modify (fun y => mkSockets (world y) (<[i := impl]> (objects y)) (accepts y) (foreign y)).

Definition accept_op_at (op : nat) : M accept_op :=
  y ← get_state;
  match accepts y !! op with
  | Some o => mret o
  | None => fail_with (UndefinedBehaviour "no operation")
  end.

Definition put_accept (op : nat) (o : accept_op) : M unit :=
  modify (fun y => mkSockets (world y) (objects y) (<[op := o]> (accepts y)) (foreign y)).

Definition set_foreign (f : gset Z -> gset Z) : M unit :=
  modify (fun y => mkSockets (world y) (objects y) (accepts y) (f (foreign y))).

(** The loops end before the patience of the kernel does. *)
Definition enough_fuel : M nat := y ← get_state; mret (S (patience (kernel_ (thread_ (world y))))).

(** A call on one object that returns the new object. *)
Definition update_object (i : nat) (m : SocketImpl -> comp (World K Q) SocketEffect SocketImpl) : M unit :=
  impl ← object i; impl ← on_world (m impl); put_object i impl.

(** What the call returns is for the caller only. *)
Definition ignore {A S E} (m : comp S E A) : comp S E unit := m ;; (mret tt).

Definition plain_call (fuel : nat) (impl : SocketImpl) (c : PlainCall) : comp (World K Q) SocketEffect unit :=
  match c with
  | PlainBind addr => ignore (bind impl addr)
  | PlainListen backlog => ignore (listen impl backlog)
  | PlainShutdown what => ignore (shutdown impl what)
  | PlainAtMark => ignore (at_mark impl)
  | PlainAvailable => ignore (available impl)
  | PlainGetOption level name value size => ignore (get_option impl level name value size)
  | PlainWait w => ignore (wait impl w)
  | PlainConnect addr => ignore (connect impl addr)
  | PlainReceive capacity flags all_empty => ignore (receive fuel impl capacity flags all_empty)
  | PlainSend bytes flags all_empty => ignore (send fuel impl bytes flags all_empty)
  end.

Definition socket_call (c : SocketCall) : M unit :=
  match c with
  | CallCreate i => put_object i new_impl
  | CallMoveConstruct i source =>
      other ← object source;
      r ← on_world (base_move_construct other);
      put_object i r.1 ;; (put_object source r.2)
  | CallMoveAssign i source =>
      impl ← object i;
      other ← object source;
      r ← on_world (base_move_assign epoll_ctl impl other);
      put_object i r.1 ;; (put_object source r.2)
  | CallDestroy i =>
      impl ← object i;
      on_world (destroy epoll_ctl impl) ;;
      (modify (fun y => mkSockets (world y) (delete i (objects y)) (accepts y) (foreign y)))
  | CallOpen i af type protocol => update_object i (fun impl => first (do_open epoll_ctl impl af type protocol))
  | CallAssign i type fd =>
      impl ← object i;
      r ← on_world (do_assign epoll_ctl impl type fd);
      put_object i r.1 ;; (when (negb (failed r.2)) (set_foreign (fun fds => fds ∖ {[fd]})))
  | CallClose i => update_object i (fun impl => first (close epoll_ctl impl no_error))
  | CallRelease i =>
      impl ← object i;
      r ← on_world (release epoll_ctl impl);
      put_object i r.1.2 ;; (when (negb (failed r.2)) (set_foreign (fun fds => {[r.1.1]} ∪ fds)))
  | CallCancel i => impl ← object i; on_world (cancel impl) ;; (mret tt)
  | CallNonBlocking i mode => update_object i (fun impl => first (set_non_blocking impl mode))
  | CallNativeNonBlocking i mode => update_object i (fun impl => first (set_native_non_blocking impl mode))
  | CallIoControl i cmd arg => update_object i (fun impl => r ← io_control impl cmd arg; mret r.1.1)
  | CallSetOption i level name data size =>
      update_object i (fun impl => first (set_option impl level name data size))
  | CallStartOp i t op k nb noop => update_object i (fun impl => start_op perform epoll_ctl impl t op k nb noop)
  | CallConnect i op k addr => update_object i (fun impl => start_connect_op perform epoll_ctl impl op k addr)
  | CallPlain i c => impl ← object i; fuel ← enough_fuel; on_world (plain_call fuel impl c)
  | CallAsyncWait i w op k => update_object i (fun impl => async_wait perform epoll_ctl impl w op k)
  | CallAccept i type peer =>
      impl ← object i;
      target ← object peer;
      fuel ← enough_fuel;
      r ← on_world (accept epoll_ctl fuel impl type target None);
      put_object peer r.1
  | CallAsyncAccept i op k peer =>
      target ← object peer;
      impl ← object i;
      put_accept op (new_accept_op (socket_ impl) (state_ impl) None) ;;
      (update_object i (fun impl => start_accept_op perform epoll_ctl impl op k (impl_is_open target)))
  | PerformAccept op =>
      o ← accept_op_at op;
      fuel ← enough_fuel;
      r ← on_world (on_kernel (accept_perform fuel o));
      put_accept op r.2
  | CompleteAccept owner op type peer =>
      o ← accept_op_at op;
      target ← object peer;
      r ← on_world (complete_accept epoll_ctl owner o type target);
      put_object peer r.1 ;;
      (modify (fun y => mkSockets (world y) (objects y) (delete op (accepts y)) (foreign y)))
  end.

(** What the caller has to see to. *)
Definition allowed y (c : SocketCall) : Prop :=
  match c with
  | CallCreate i => objects y !! i = None
  | CallMoveConstruct i source =>
      objects y !! i = None /\ exists other, objects y !! source = Some other /\ reactor_data_ other <> None
  | CallMoveAssign i source =>
      i <> source /\ is_Some (objects y !! i) /\
      exists other, objects y !! source = Some other /\ reactor_data_ other <> None
  | CallDestroy i | CallOpen i _ _ _ | CallClose i | CallRelease i | CallCancel i
  | CallNonBlocking i _ | CallNativeNonBlocking i _ | CallIoControl i _ _ | CallSetOption i _ _ _ _
  | CallStartOp i _ _ _ _ _ | CallConnect i _ _ _ | CallPlain i _ | CallAsyncWait i _ _ _ => is_Some (objects y !! i)
  | CallAssign i _ fd => is_Some (objects y !! i) /\ fd ∈ foreign y
  | CallAccept i _ peer => is_Some (objects y !! i) /\ is_Some (objects y !! peer)
  | CallAsyncAccept i op _ peer => is_Some (objects y !! i) /\ is_Some (objects y !! peer) /\ accepts y !! op = None
  | PerformAccept op => is_Some (accepts y !! op)
  | CompleteAccept _ op _ peer => is_Some (accepts y !! op) /\ is_Some (objects y !! peer)
  end.

(** The states a program can reach. *)
Inductive reachable (start : Sockets K Q) : Sockets K Q -> Prop :=
| reachable_start : reachable start start
| reachable_call y c es y' : reachable start y -> allowed y c -> socket_call c y = (es, y', Ok tt) ->
    reachable start y'.

End programs.

(** ** The invariant *)

Section system.
Context {K : Type} `{!Kernel K, !PatientKernel K, !DescriptorKernel K} {Q : Type} `{!TimerQueueSet Q, !TimerQueueSetOk Q}.
Context (perform : nat -> Status) (epoll_ctl : nat -> Z).
Implicit Types (y : Sockets K Q) (w : World K Q).
(** *** Programs *)

Definition owners y : list Z := gather impl_fds (objects y) ++ gather op_fds (accepts y) ++ elements (foreign y).
Definition datas y : list nat := gather impl_data (objects y).

Record sockets_ok y : Prop := {
  so_owned : owners y ≡ₚ elements (fds (world y));
  so_data : exists leaked, datas y ++ leaked ≡ₚ live (world y);
  so_impls i impl : objects y !! i = Some impl -> impl_ok (world y) impl;
  so_reactor : reactor_ok (reactor_ (world y));
}.

Lemma sockets_evolve y y' G N GD ND leak R RD :
  sockets_ok y -> evolves (world y) (world y') G N GD (ND ++ leak) ->
  owners y ≡ₚ G ++ R -> owners y' ≡ₚ N ++ R -> datas y ≡ₚ GD ++ RD -> datas y' ≡ₚ ND ++ RD ->
  (forall i impl, objects y' !! i = Some impl -> impl_ok (world y') impl \/
    exists j, objects y !! j = Some impl /\ forall fd, fd ∈ impl_fds impl -> fd ∈ R) ->
  sockets_ok y'.
Proof.
  intros [Howned [leaked Hdata] Himpls Hr] Hev HG HN HGD HND Hchanged. destruct Hev as [Hf Hm Hl Hr'] eqn:Heq.
  assert (NoDup (G ++ R)) as Hnd by (rewrite <- HG, Howned; apply NoDup_elements).
  split.
  - rewrite HN. apply (Permutation_app_inv_r G). rewrite Hf, <- Howned, HG. solve_Permutation.
  - exists (leaked ++ leak). apply (Permutation_app_inv_r GD). rewrite Hl, <- Hdata, HGD, HND. solve_Permutation.
  - intros i impl Hi. destruct (Hchanged i impl Hi) as [?|(j & Hj & HR)]; [done|].
    apply (impl_ok_evolves _ _ _ _ _ _ _ Hev); [by eapply Himpls|]. intros fd Hfd. specialize (HR fd Hfd).
    apply NoDup_app in Hnd as (_ & Hdisj & _). split; [|intros HinG; by apply (Hdisj fd)].
    apply elem_of_elements. rewrite <- Howned, HG. apply elem_of_app. by right.
  - done.
Qed.

(** *** The program as a whole *)

Definition with_world w y : Sockets K Q := mkSockets w (objects y) (accepts y) (foreign y).

Lemma returns_world {A} (m : comp (World K Q) SocketEffect A) y Φ : returns m (world y) Φ ->
  returns (on_world m) y (fun a y' => exists w', y' = with_world w' y /\ Φ a w').
Proof.
  intros (es & w & a & Hm & HΦ). unfold on_world. eexists _, (with_world w y), a. rewrite Hm. eauto.
Qed.

Lemma returns_object {A} i impl (f : SocketImpl -> comp (Sockets K Q) SocketEffect A) y Φ :
  objects y !! i = Some impl -> returns (f impl) y Φ -> returns (object i ≫= f) y Φ.
Proof. intros Hi. apply returns_run with (es := []). unfold object. by rewrite run_get, Hi. Qed.

Lemma returns_accept_op {A} op o (f : accept_op -> comp (Sockets K Q) SocketEffect A) y Φ :
  accepts y !! op = Some o -> returns (f o) y Φ -> returns (accept_op_at op ≫= f) y Φ.
Proof. intros Hi. apply returns_run with (es := []). unfold accept_op_at. by rewrite run_get, Hi. Qed.

Lemma object_in y i impl : sockets_ok y -> objects y !! i = Some impl -> impl_in (world y) impl.
Proof.
  intros [Howned [leaked Hdata] Himpls Hr] Hi. split; [by eapply Himpls|done|..].
  - intros fd Hfd. apply elem_of_elements. rewrite <- Howned. apply elem_of_app. left. by eapply gather_elem.
  - intros d Hd. rewrite <- Hdata. apply elem_of_app. left. by eapply gather_elem.
Qed.

Lemma accept_fds y op o fd : sockets_ok y -> accepts y !! op = Some o -> fd ∈ op_fds o -> fd ∈ fds (world y).
Proof.
  intros Hok Ho Hfd. apply elem_of_elements. rewrite <- (so_owned _ Hok). apply elem_of_app. right.
  apply elem_of_app. left. by eapply gather_elem.
Qed.

(** An object that is not the changed one. *)
Lemma other_object (m : gmap nat SocketImpl) i j impl (R : list Z) : m !! j = Some impl -> j <> i ->
  (forall fd, fd ∈ gather impl_fds (delete i m) -> fd ∈ R) -> forall fd, fd ∈ impl_fds impl -> fd ∈ R.
Proof. intros Hj Hne HR fd Hfd. apply HR. eapply gather_elem; [by rewrite lookup_delete_ne|done]. Qed.

(** One object and the other owners change. *)
Lemma change_object y i impl w' impl' (accepts' : gmap nat accept_op) foreign' G N RA leak :
  sockets_ok y -> objects y !! i = Some impl ->
  evolves (world y) w' (G ++ impl_fds impl) (N ++ impl_fds impl') (impl_data impl) (impl_data impl' ++ leak) ->
  impl_ok w' impl' ->
  gather op_fds (accepts y) ++ elements (foreign y) ≡ₚ G ++ RA ->
  gather op_fds accepts' ++ elements foreign' ≡ₚ N ++ RA ->
  sockets_ok (mkSockets w' (<[i := impl']> (objects y)) accepts' foreign').
Proof.
  intros Hok Hi Hev Himpl HG HN.
  apply (sockets_evolve y (mkSockets w' (<[i := impl']> (objects y)) accepts' foreign') (G ++ impl_fds impl) (N ++ impl_fds impl') (impl_data impl) (impl_data impl') leak
    (gather impl_fds (delete i (objects y)) ++ RA) (gather impl_data (delete i (objects y))) Hok Hev);
    unfold owners, datas; cbn [objects accepts foreign world].
  - rewrite (gather_lookup _ _ _ _ Hi), HG. solve_Permutation.
  - rewrite gather_set, HN. solve_Permutation.
  - apply (gather_lookup _ _ _ _ Hi).
  - apply gather_set.
  - intros j implj Hj. destruct (decide (j = i)) as [->|Hne].
    + rewrite lookup_insert_eq in Hj. injection Hj as <-. by left.
    + rewrite lookup_insert_ne in Hj by done. right. exists j. split; [done|].
      apply (other_object _ i j _ _ Hj Hne). intros fd Hfd. apply elem_of_app. by left.
Qed.

Lemma put_object_ok y i impl w' impl' : sockets_ok y -> objects y !! i = Some impl ->
  (exists leak, evolves (world y) w' (impl_fds impl) (impl_fds impl') (impl_data impl) (impl_data impl' ++ leak)) /\ impl_ok w' impl' ->
  sockets_ok (mkSockets w' (<[i := impl']> (objects y)) (accepts y) (foreign y)).
Proof. intros Hok Hi [[leak Hev] Himpl]. by apply (change_object y i impl w' impl' (accepts y) (foreign y) [] []
  (gather op_fds (accepts y) ++ elements (foreign y)) leak Hok Hi Hev). Qed.

Lemma update_object_ok y i impl m : sockets_ok y -> objects y !! i = Some impl -> object_spec (world y) impl (m impl) ->
  returns (update_object i m) y (fun _ y' => sockets_ok y').
Proof.
  intros Hok Hi Hm. apply (returns_object _ _ _ _ _ Hi). eapply returns_bind; [apply returns_world, Hm|].
  cbn beta. intros impl' ? (w' & -> & Hspec). apply returns_modify. by apply (put_object_ok y i impl).
Qed.

(** *** Each call *)

Lemma gather_moved {A B} (f : A -> list B) (m : gmap nat A) i source other left_over :
  i <> source -> m !! source = Some other ->
  gather f (<[source := left_over]> (<[i := other]> m)) ≡ₚ f left_over ++ f other ++ gather f (delete i (delete source m)) /\
  gather f m ≡ₚ from_option f [] (m !! i) ++ f other ++ gather f (delete i (delete source m)).
Proof.
  intros Hne Hsource. split.
  - rewrite gather_set, delete_insert_ne by done. by rewrite gather_set.
  - rewrite (gather_lookup f m source other Hsource). destruct (m !! i) as [impl|] eqn:Hi; cbn [from_option].
    + rewrite (gather_lookup f (delete source m) i impl) by by rewrite lookup_delete_ne. solve_Permutation.
    + by rewrite (delete_id (delete source m) i) by by rewrite lookup_delete_ne.
Qed.

(** [source] gives what it holds to [i], whose own descriptor is gone. *)
Lemma move_object_ok y i source other w' leak data : sockets_ok y -> i <> source -> objects y !! source = Some other ->
  evolves (world y) w' (from_option impl_fds [] (objects y !! i)) [] (from_option impl_data [] (objects y !! i)) leak ->
  sockets_ok (mkSockets w' (<[source := mkImpl invalid_socket 0 data]> (<[i := other]> (objects y))) (accepts y) (foreign y)).
Proof.
  intros Hok Hne Hs Hev. set (empty := mkImpl invalid_socket 0 data).
  destruct (gather_moved impl_fds (objects y) i source other empty Hne Hs) as [Hf' Hf].
  destruct (gather_moved impl_data (objects y) i source other empty Hne Hs) as [Hd' Hd].
  apply (sockets_evolve y (mkSockets w' (<[source := empty]> (<[i := other]> (objects y))) (accepts y) (foreign y))
    _ [] _ [] leak
    (impl_fds other ++ gather impl_fds (delete i (delete source (objects y))) ++ gather op_fds (accepts y) ++ elements (foreign y))
    (impl_data other ++ gather impl_data (delete i (delete source (objects y)))) Hok Hev);
    unfold owners, datas; cbn [objects accepts foreign world].
  - rewrite Hf. solve_Permutation.
  - rewrite Hf'. solve_Permutation.
  - exact Hd.
  - exact Hd'.
  - intros j implj. destruct (decide (j = source)) as [->|Hjs].
    { rewrite lookup_insert_eq. intros [= <-]. left. by apply closed_ok. }
    rewrite lookup_insert_ne by done. intros Hj. right. destruct (decide (j = i)) as [->|Hji].
    + rewrite lookup_insert_eq in Hj. injection Hj as <-. exists source. split; [done|].
      intros fd Hfd. apply elem_of_app. by left.
    + rewrite lookup_insert_ne in Hj by done. exists j. split; [done|]. intros fd Hfd.
      apply elem_of_app. right. apply elem_of_app. left. eapply gather_elem; [|done]. by rewrite !lookup_delete_ne.
Qed.

Lemma moved_spec other w Φ : reactor_data_ other <> None ->
  Φ (other, mkImpl invalid_socket 0 (Some None)) w -> returns (base_move_construct other) w Φ.
Proof.
  intros Hdata HΦ. unfold base_move_construct, data_of. destruct other as [s0 st [data|]]; [|done].
  eapply returns_run; [reflexivity|]. destruct data; by apply returns_ret.
Qed.

Local Abbreviation run_call c y := (returns (socket_call perform epoll_ctl c) y (fun _ y' => sockets_ok y')).

Lemma create_call_ok y i : sockets_ok y -> objects y !! i = None -> run_call (CallCreate i) y.
Proof.
  intros Hok Hi. apply returns_modify.
  apply (sockets_evolve y (mkSockets (world y) (<[i := new_impl]> (objects y)) (accepts y) (foreign y))
    [] [] [] [] [] (owners y) (datas y)); try done; unfold owners, datas; cbn [objects accepts foreign world].
  - apply evolves_refl, Hok.
  - by rewrite (gather_fresh _ _ _ _ Hi).
  - by rewrite (gather_fresh _ _ _ _ Hi).
  - intros j impl. destruct (decide (j = i)) as [->|Hne].
    + rewrite lookup_insert_eq. intros [= <-]. left. by apply closed_ok.
    + rewrite lookup_insert_ne by done. intros Hj. right. exists j. split; [done|]. intros fd Hfd.
      apply elem_of_app. left. by eapply gather_elem.
Qed.

Lemma returns_put {A} i impl (m : comp (Sockets K Q) SocketEffect A) y Φ :
  returns m (mkSockets (world y) (<[i := impl]> (objects y)) (accepts y) (foreign y)) Φ ->
  returns (put_object i impl ;; m) y Φ.
Proof. intros Hm. by eapply returns_run. Qed.

Lemma move_construct_call_ok y i source : sockets_ok y -> allowed y (CallMoveConstruct i source) ->
  run_call (CallMoveConstruct i source) y.
Proof.
  intros Hok (Hi & other & Hs & Hdata). apply (returns_object _ _ _ _ _ Hs).
  eapply returns_bind; [apply returns_world, moved_spec with (Φ := fun r w' => r.1 = other /\
    r.2 = mkImpl invalid_socket 0 (Some None) /\ w' = world y); done|].
  intros [? ?] ? (w' & -> & -> & -> & ->). apply returns_put, returns_modify. cbn [fst snd].
  apply (move_object_ok y i source other (world y) [] (Some None) Hok); [congruence|done|]. rewrite Hi. apply evolves_refl, Hok.
Qed.

Lemma move_assign_call_ok y i source : sockets_ok y -> allowed y (CallMoveAssign i source) ->
  run_call (CallMoveAssign i source) y.
Proof.
  intros Hok (Hne & [impl Hi] & other & Hs & Hdata). apply (returns_object _ _ _ _ _ Hi), (returns_object _ _ _ _ _ Hs).
  eapply returns_bind; [apply returns_world|].
  - unfold base_move_assign. eapply returns_bind; [apply destroy_ok, (object_in _ _ _ Hok Hi)|]. cbn beta.
    intros _ w' Hev. apply moved_spec with (Φ := fun r w' => r.1 = other /\ r.2 = mkImpl invalid_socket 0 (Some None) /\
      exists leak, evolves (world y) w' (impl_fds impl) [] (impl_data impl) leak); done.
  - intros [? ?] ? (w' & -> & -> & -> & leak & Hev). apply returns_put, returns_modify. cbn [fst snd].
    apply (move_object_ok y i source other w' leak (Some None) Hok Hne Hs). by rewrite Hi.
Qed.

Lemma destroy_call_ok y i : sockets_ok y -> is_Some (objects y !! i) -> run_call (CallDestroy i) y.
Proof.
  intros Hok [impl Hi]. apply (returns_object _ _ _ _ _ Hi).
  eapply returns_bind; [apply returns_world, destroy_ok, (object_in _ _ _ Hok Hi)|]. cbn beta.
  intros _ ? (w' & -> & leak & Hev). apply returns_modify.
  apply (sockets_evolve y (mkSockets w' (delete i (objects y)) (accepts y) (foreign y)) (impl_fds impl) [] (impl_data impl) []
    leak (gather impl_fds (delete i (objects y)) ++ gather op_fds (accepts y) ++ elements (foreign y))
    (gather impl_data (delete i (objects y))) Hok Hev); unfold owners, datas; cbn [objects accepts foreign world].
  - rewrite (gather_lookup _ _ _ _ Hi). solve_Permutation.
  - reflexivity.
  - apply (gather_lookup _ _ _ _ Hi).
  - reflexivity.
  - intros j implj [Hne Hj]%lookup_delete_Some. right. exists j. split; [done|]. apply (other_object _ i j _ _ Hj); [done|].
    intros fd Hfd. apply elem_of_app. by left.
Qed.

(** A change of what the rest of the program owns. *)
Lemma foreign_gives (X : gset Z) fd : fd ∈ X -> elements X ≡ₚ fd :: elements (X ∖ {[fd]}).
Proof.
  intros Hfd. rewrite (union_difference_singleton_L fd X Hfd) at 1. apply elements_union_singleton.
  rewrite elem_of_difference, elem_of_singleton. tauto.
Qed.

Lemma foreign_opened y fd : sockets_ok y -> fd ∈ foreign y -> fd ∈ fds (world y).
Proof.
  intros Hok Hfd. apply elem_of_elements. rewrite <- (so_owned _ Hok). apply elem_of_app. right.
  apply elem_of_app. right. by apply elem_of_elements.
Qed.

Lemma opened_valid w fd : fd ∈ fds w -> fd <> invalid_socket.
Proof. intros Hfd ->. pose proof (descriptor_nonneg _ _ Hfd). by unfold invalid_socket in *. Qed.

Lemma assign_call_ok y i type fd : sockets_ok y -> allowed y (CallAssign i type fd) -> run_call (CallAssign i type fd) y.
Proof.
  intros Hok ([impl Hi] & Hfd). apply (returns_object _ _ _ _ _ Hi). eapply returns_bind.
  { apply returns_world, assign_ok; [apply (object_in _ _ _ Hok Hi)|by apply (opened_valid (world y)), foreign_opened]. }
  cbn beta. intros r ? (w' & -> & [leak Hev] & Ht & Himpl & Hfds). apply returns_put. destruct (failed r.2).
  - apply returns_ret. apply (put_object_ok y i impl w' r.1 Hok Hi). split; [exists leak|done].
    rewrite Hfds. by apply (evolves_frame_fds _ _ [] [] _ _ (impl_fds impl)).
  - destruct Hfds as [Hfds Hfds']. apply returns_modify.
    apply (change_object y i impl w' r.1 (accepts y) _ [fd] []
      (gather op_fds (accepts y) ++ elements (foreign y ∖ {[fd]})) leak Hok Hi); [|done| |done].
    + rewrite Hfds, Hfds'. by apply (evolves_frame_fds _ _ [] [] _ _ [fd]).
    + rewrite (foreign_gives _ _ Hfd). solve_Permutation.
Qed.

Lemma owners_distinct y : sockets_ok y -> NoDup (owners y).
Proof. intros Hok. rewrite (so_owned _ Hok). apply NoDup_elements. Qed.

Lemma release_call_ok y i : sockets_ok y -> is_Some (objects y !! i) -> run_call (CallRelease i) y.
Proof.
  intros Hok [impl Hi]. apply (returns_object _ _ _ _ _ Hi).
  eapply returns_bind; [apply returns_world, release_ok, (object_in _ _ _ Hok Hi)|]. cbn beta.
  intros r ? (w' & -> & [leak Hev] & Himpl & Hfds). apply returns_put. destruct (failed r.2).
  - apply returns_ret. apply (put_object_ok y i impl w' r.1.2 Hok Hi). split; [exists leak|done].
    by rewrite app_nil_r in Hev.
  - destruct Hfds as [Hfds Hfds']. apply returns_modify.
    apply (change_object y i impl w' r.1.2 (accepts y) _ [] [r.1.1] (gather op_fds (accepts y) ++ elements (foreign y)) leak
      Hok Hi); [|done|done|].
    + by rewrite Hfds' in Hev |- *.
    + cbn [foreign with_world]. rewrite elements_union_singleton; [solve_Permutation|]. intros Hin.
      pose proof (owners_distinct _ Hok) as Hnd. unfold owners in Hnd. apply NoDup_app in Hnd as (_ & Hdisj & _).
      apply (Hdisj r.1.1); [apply (gather_elem _ _ _ _ _ Hi); rewrite Hfds; by left|].
      apply elem_of_app. right. by apply elem_of_elements.
Qed.

(** A call that changes neither the object nor the descriptors. *)
Lemma with_world_ok y i impl w' : sockets_ok y -> objects y !! i = Some impl ->
  evolves (world y) w' (impl_fds impl) (impl_fds impl) (impl_data impl) (impl_data impl) -> impl_ok w' impl ->
  sockets_ok (with_world w' y).
Proof.
  intros Hok Hi Hev Himpl. unfold with_world. rewrite <- (insert_id (objects y) i impl Hi).
  apply (put_object_ok y i impl w' impl Hok Hi). split; [|done]. exists []. by rewrite (right_id_L [] (++)).
Qed.

Lemma cancel_call_ok y i : sockets_ok y -> is_Some (objects y !! i) -> run_call (CallCancel i) y.
Proof.
  intros Hok [impl Hi]. apply (returns_object _ _ _ _ _ Hi).
  eapply returns_bind; [apply returns_world, cancel_object_ok, (object_in _ _ _ Hok Hi)|]. cbn beta.
  intros _ ? (w' & -> & Hev & Ht). apply returns_ret. apply (with_world_ok y i impl); [done|done|done|].
  apply (impl_ok_thread (world y)); [done|]. by apply (so_impls _ Hok i).
Qed.

Lemma returns_fuel {A} (f : nat -> comp (Sockets K Q) SocketEffect A) y Φ :
  returns (f (S (patience (kernel_ (thread_ (world y)))))) y Φ -> returns (enough_fuel ≫= f) y Φ.
Proof. apply returns_run with (es := []). reflexivity. Qed.

Lemma ignore_plain {A} w (m : comp (World K Q) SocketEffect A) :
  returns m w (fun _ w' => same_fds (kernel_ (thread_ w)) (kernel_ (thread_ w')) /\ reactor_ w' = reactor_ w) ->
  returns (ignore m) w (fun _ w' => same_fds (kernel_ (thread_ w)) (kernel_ (thread_ w')) /\ reactor_ w' = reactor_ w).
Proof. intros Hm. eapply returns_bind; [exact Hm|]. cbn beta. intros _ w' Hw. by apply returns_ret. Qed.

Lemma plain_kernel {A} w (m : comp (Thread K) Syscall A) :
  returns m (thread_ w) (fun _ t => same_fds (kernel_ (thread_ w)) (kernel_ t)) ->
  returns (on_kernel m) w (fun _ w' =>
    same_fds (kernel_ (thread_ w)) (kernel_ (thread_ w')) /\ reactor_ w' = reactor_ w).
Proof. intros Hm. eapply returns_impl; [apply returns_kernel, Hm|]. done. Qed.

Lemma plain_then {A B} w (m : comp (Thread K) Syscall A) (f : A -> B) : harmless m ->
  returns (r ← on_kernel m; mret (f r)) w (fun _ w' =>
    same_fds (kernel_ (thread_ w)) (kernel_ (thread_ w')) /\ reactor_ w' = reactor_ w).
Proof. intros Hm. eapply returns_bind; [apply plain_kernel, Hm|]. cbn beta. intros r w' Hw. by apply returns_ret. Qed.

Lemma plain_call_same fuel w impl c : (patience (kernel_ (thread_ w)) < fuel)%nat ->
  returns (plain_call fuel impl c) w (fun _ w' =>
    same_fds (kernel_ (thread_ w)) (kernel_ (thread_ w')) /\ reactor_ w' = reactor_ w).
Proof.
  intros Hfuel. destruct c as [| | | | | |[[]|]| | |]; apply ignore_plain.
  1-3: by apply plain_then, harmless_simple.
  - apply plain_kernel, harmless_sockatmark.
  - apply plain_kernel, harmless_available.
  - apply plain_then, harmless_getsockopt.
  - apply plain_then, harmless_poll_for.
  - apply plain_then, harmless_poll_for.
  - apply plain_then, harmless_poll_for.
  - by apply returns_ret.
  - apply plain_kernel, harmless_sync_connect.
  - by apply plain_kernel, sync_recv_same.
  - by apply plain_kernel, sync_send_same.
Qed.

Lemma plain_call_ok y i c : sockets_ok y -> is_Some (objects y !! i) -> run_call (CallPlain i c) y.
Proof.
  intros Hok [impl Hi]. apply (returns_object _ _ _ _ _ Hi), returns_fuel.
  eapply returns_impl; [apply returns_world, plain_call_same; lia|]. cbn beta. intros _ ? (w' & -> & Hsame & Hr).
  pose proof (object_in _ _ _ Hok Hi) as Hin. apply (with_world_ok y i impl); [done|done| |].
  - apply (evolves_then (world y) (world y)); [by apply evolves_idle|]. apply evolves_same; [apply Hin|done|done].
  - by apply (impl_ok_same (world y)), Hin.
Qed.

Lemma accept_call_ok y i type peer : sockets_ok y -> allowed y (CallAccept i type peer) -> run_call (CallAccept i type peer) y.
Proof.
  intros Hok ([impl Hi] & [target Hpeer]). apply (returns_object _ _ _ _ _ Hi), (returns_object _ _ _ _ _ Hpeer), returns_fuel.
  eapply returns_bind; [apply returns_world, accept_ok; [apply (object_in _ _ _ Hok Hpeer)|lia]|]. cbn beta.
  intros r ? (w' & -> & Hspec). apply returns_modify. by apply (put_object_ok y peer target w' r.1 Hok Hpeer).
Qed.

(** An operation's descriptor comes or goes. *)
Lemma put_accept_ok y w' accepts' o o' : sockets_ok y -> evolves (world y) w' (op_fds o) (op_fds o') [] [] ->
  (exists rest, gather op_fds (accepts y) ≡ₚ op_fds o ++ rest /\ gather op_fds accepts' ≡ₚ op_fds o' ++ rest) ->
  sockets_ok (mkSockets w' (objects y) accepts' (foreign y)).
Proof.
  intros Hok Hev (rest & Ho & Ho').
  apply (sockets_evolve y (mkSockets w' (objects y) accepts' (foreign y)) (op_fds o) (op_fds o') [] [] []
    (gather impl_fds (objects y) ++ rest ++ elements (foreign y)) (datas y) Hok Hev);
    unfold owners, datas; cbn [objects accepts foreign world]; try done.
  - rewrite Ho. solve_Permutation.
  - rewrite Ho'. solve_Permutation.
  - intros j impl Hj. right. exists j. split; [done|]. intros fd Hfd. apply elem_of_app. left. by eapply gather_elem.
Qed.

Lemma async_accept_call_ok y i op k peer : sockets_ok y -> allowed y (CallAsyncAccept i op k peer) ->
  run_call (CallAsyncAccept i op k peer) y.
Proof.
  intros Hok ([impl Hi] & [target Hpeer] & Hop).
  apply (returns_object _ _ _ _ _ Hpeer), (returns_object _ _ _ _ _ Hi).
  set (o := new_accept_op (socket_ impl) (state_ impl) None).
  set (y1 := mkSockets (world y) (objects y) (<[op := o]> (accepts y)) (foreign y)).
  assert (sockets_ok y1) as Hok1.
  { apply (put_accept_ok y (world y) _ o o Hok); [apply evolves_refl, Hok|]. exists (gather op_fds (accepts y)).
    split; [done|]. by rewrite (gather_fresh _ _ _ _ Hop). }
  apply (returns_run _ _ _ [] y1 tt); [done|].
  apply (update_object_ok y1 i impl); [done|done|]. apply start_accept_ok, (object_in y1 i impl Hok1 Hi).
Qed.

Lemma perform_accept_call_ok y op : sockets_ok y -> is_Some (accepts y !! op) -> run_call (PerformAccept op) y.
Proof.
  intros Hok [o Ho]. apply (returns_accept_op _ _ _ _ _ Ho), returns_fuel. eapply returns_bind.
  { apply returns_world, perform_accept_ok; [lia|apply Hok|]. intros fd. by apply accept_fds with (op := op). }
  cbn beta. intros r ? (w' & -> & Hev). apply returns_modify. apply (put_accept_ok y w' _ o r.2 Hok Hev).
  exists (gather op_fds (delete op (accepts y))). split; [by apply gather_lookup|apply gather_set].
Qed.

Lemma complete_accept_call_ok y owner op type peer : sockets_ok y -> allowed y (CompleteAccept owner op type peer) ->
  run_call (CompleteAccept owner op type peer) y.
Proof.
  intros Hok ([o Ho] & [target Hpeer]). apply (returns_accept_op _ _ _ _ _ Ho), (returns_object _ _ _ _ _ Hpeer).
  eapply returns_bind.
  { apply returns_world, complete_accept_ok; [by apply (object_in _ _ _ Hok Hpeer)|..].
    - intros fd. by apply accept_fds with (op := op).
    - intros fd Hop Hfd. pose proof (owners_distinct _ Hok) as Hnd. unfold owners in Hnd.
      apply NoDup_app in Hnd as (_ & Hdisj & _). apply (Hdisj fd); [by apply (gather_elem _ _ _ _ _ Hpeer)|].
      apply elem_of_app. left. by apply (gather_elem _ _ _ _ _ Ho). }
  cbn beta. intros r ? (w' & -> & [leak Hev] & Himpl). apply returns_put, returns_modify.
  apply (change_object y peer target w' r.1 (delete op (accepts y)) (foreign y) (op_fds o) []
    (gather op_fds (delete op (accepts y)) ++ elements (foreign y)) leak Hok Hpeer); [done|done| |done].
  rewrite (gather_lookup _ _ _ _ Ho). solve_Permutation.
Qed.

Lemma update_call_ok y i m : sockets_ok y -> is_Some (objects y !! i) ->
  (forall impl, impl_in (world y) impl -> object_spec (world y) impl (m impl)) ->
  returns (update_object i m) y (fun _ y' => sockets_ok y').
Proof. intros Hok [impl Hi] Hm. apply (update_object_ok y i impl m Hok Hi), Hm, (object_in _ _ _ Hok Hi). Qed.

Hint Resolve create_call_ok move_construct_call_ok move_assign_call_ok destroy_call_ok assign_call_ok release_call_ok
  cancel_call_ok accept_call_ok async_accept_call_ok perform_accept_call_ok complete_accept_call_ok plain_call_ok : core.
Hint Resolve open_ok close_ok set_non_blocking_ok set_native_non_blocking_ok io_control_ok set_option_ok start_op_ok
  start_connect_ok async_wait_ok : core.

Lemma socket_call_ok y c : sockets_ok y -> allowed y c -> run_call c y.
Proof. intros Hok Hc. destruct c; auto; apply update_call_ok; auto. Qed.

Lemma reachable_ok start y : sockets_ok start -> reachable perform epoll_ctl start y -> sockets_ok y.
Proof.
  intros Hstart Hr. induction Hr as [|y c es y' _ Hok Hc Hrun]; [done|].
  destruct (socket_call_ok y c Hok Hc) as (es' & y1 & a & Hrun' & Hok'). rewrite Hrun in Hrun'. by injection Hrun' as _ <- _.
Qed.

(** A program that has no socket object yet. *)
Lemma no_sockets_ok w : reactor_ok (reactor_ w) -> sockets_ok (mkSockets w ∅ ∅ (fds w)).
Proof.
  intros Hr. split; unfold owners, datas, gather; cbn [objects accepts foreign world]; rewrite ?map_to_list_empty.
  - done.
  - by exists (live w).
  - intros i impl Hi. by rewrite lookup_empty in Hi.
  - done.
Qed.

(** *** What holds of programs *)

(** C30. Programs own their descriptors: whatever calls a program made, every
    descriptor that is open belongs to one socket object, one pending accept or the
    rest of the program, and to nobody else; an open object has data in use in the
    reactor that is its own, and if its flags say its descriptor is in non-blocking
    mode, it is; a closed object has no flags; and every permitted call returns, with
    an error code or without, and never touches a pointer it must not. *)
Theorem sockets_own_their_descriptors w y : reactor_ok (reactor_ w) ->
  reachable perform epoll_ctl (mkSockets w ∅ ∅ (fds w)) y ->
  NoDup (owners y) /\ owners y ≡ₚ elements (fds (world y)) /\
  NoDup (datas y) /\ (forall d, d ∈ datas y -> d ∈ live (world y)) /\
  (forall i impl, objects y !! i = Some impl ->
    if impl_is_open impl
    then (exists d, reactor_data_ impl = Some (Some d)) /\
      (has (state_ impl) non_blocking = true -> socket_ impl ∈ modes (world y))
    else state_ impl = 0) /\
  forall c, allowed y c -> exists es y', socket_call perform epoll_ctl c y = (es, y', Ok tt).
Proof.
  intros Hw Hr. pose proof (reachable_ok _ _ (no_sockets_ok w Hw) Hr) as Hok.
  destruct (so_data _ Hok) as [leaked Hdata]. split; [by apply owners_distinct|]. split; [apply Hok|].
  split; [|split; [|split]].
  - destruct (so_reactor _ Hok) as (_ & [Hnd _]%NoDup_app & _). unfold live in Hdata. rewrite <- Hdata in Hnd.
    by apply NoDup_app in Hnd as [? _].
  - intros d Hd. rewrite <- Hdata. apply elem_of_app. by left.
  - intros i impl Hi. by destruct (so_impls _ Hok i impl Hi) as [_ H].
  - intros c Hc. destruct (socket_call_ok y c Hok Hc) as (es & y' & [] & Hrun & _). eauto.
Qed.

(** The object, the operation and the hint of the calls that start one. *)
Definition starts (c : SocketCall) : option (nat * nat * bool) :=
  match c with
  | CallStartOp i _ op k _ _ | CallConnect i op k _ | CallAsyncWait i _ op k | CallAsyncAccept i op k _ => Some (i, op, k)
  | _ => None
  end.

Lemma update_run y i m es y' : update_object i m y = (es, y', Ok tt) -> exists impl impl' w',
  objects y !! i = Some impl /\ m impl (world y) = (es, w', Ok impl') /\
  y' = mkSockets w' (<[i := impl']> (objects y)) (accepts y) (foreign y).
Proof.
  unfold update_object, object. rewrite !run_bind_bind, run_get. destruct (objects y !! i) as [impl|] eqn:Hi; [|done].
  rewrite run_ret. intros (es1 & y1 & impl' & es2 & Hm & Hput & ->)%run_bind_inv. injection Hput as <- <-.
  unfold on_world in Hm. destruct (m impl (world y)) as [[es' w'] r] eqn:Hrun. injection Hm as <- <- ->.
  exists impl, impl', w'. by rewrite app_nil_r.
Qed.

(** C31. No operation blocks the thread that runs the reactor: a program's operations
    reach the reactor and the kernel only once the descriptor of their object is in
    non-blocking mode; as long as it is not, the call tries to switch it, notes the
    error and completes the operation, and does nothing else. *)
Theorem operations_on_non_blocking_descriptors w y c i op k es y' : reactor_ok (reactor_ w) ->
  reachable perform epoll_ctl (mkSockets w ∅ ∅ (fds w)) y -> allowed y c -> starts c = Some (i, op, k) ->
  socket_call perform epoll_ctl c y = (es, y', Ok tt) ->
  (exists impl, objects y !! i = Some impl /\ impl_is_open impl = true /\ socket_ impl ∈ modes (world y')) \/
  Forall (preparing op k) es.
Proof.
  intros Hw Hr Hc Hs Hrun. pose proof (reachable_ok _ _ (no_sockets_ok w Hw) Hr) as Hok.
  assert (forall y1 (m : SocketImpl -> comp (World K Q) SocketEffect SocketImpl) es1,
    world y1 = world y -> objects y1 = objects y -> update_object i m y1 = (es1, y', Ok tt) ->
    (forall impl w' impl', impl_in (world y) impl -> m impl (world y) = (es1, w', Ok impl') -> guarded w' impl op k es1) ->
    (exists impl, objects y !! i = Some impl /\ impl_is_open impl = true /\ socket_ impl ∈ modes (world y')) \/
    Forall (preparing op k) es1) as Hupdate.
  { intros y1 m es1 Hy1 Hobj (impl & impl' & w' & Hi & Hm & ->)%update_run Hg. rewrite Hobj in Hi. rewrite Hy1 in Hm.
    destruct (Hg _ _ _ (object_in _ _ _ Hok Hi) Hm) as [[Ho Hmode]|?]; [left|by right]. by exists impl. }
  destruct c; try done; injection Hs as -> -> ->; cbn [socket_call] in Hrun.
  - apply (Hupdate y _ _ eq_refl eq_refl Hrun). intros. by eapply start_op_guarded.
  - apply (Hupdate y _ _ eq_refl eq_refl Hrun). intros. by eapply start_connect_guarded.
  - apply (Hupdate y _ _ eq_refl eq_refl Hrun). intros. by eapply async_wait_guarded.
  - destruct Hc as ([impl Hi] & [target Hpeer] & Hop). unfold object, put_accept in Hrun.
    rewrite run_bind_bind, run_get, Hpeer, run_ret, run_bind_bind, run_get, Hi, run_ret, run_modify in Hrun.
    eapply Hupdate; [| |exact Hrun|]; [done..|]. intros impl0 w' impl' Hin Hm. apply (start_accept_guarded perform epoll_ctl (world y) impl0 op k _ es w' impl' Hin Hm).
Qed.

End system.

(** ** A table of descriptors *)

(** A kernel with room for four descriptors, 3 to 6; the lowest free one is the next. *)
Record Table := mkTable { in_use : gset Z; switched : gset Z }.

Definition free_fd (k : Table) : option Z := head (filter (fun fd => fd ∉ in_use k) [3; 4; 5; 6]).

#[export] Instance table_kernel : Kernel Table := {|
  syscall c k :=
    match c with
    | SysSocket _ _ _ | SysAccept _ _ =>
        match free_fd k with
        | Some fd => (Returned fd [], mkTable ({[fd]} ∪ in_use k) (switched k ∖ {[fd]}))
        | None => (Failed ENOBUFS, k)
        end
    | SysClose s => (Returned 0 [], mkTable (in_use k ∖ {[s]}) (switched k ∖ {[s]}))
    | SysIoctl s cmd arg =>
        (Returned 0 [], if cmd =? FIONBIO
                        then mkTable (in_use k) (if arg =? 0 then switched k ∖ {[s]} else {[s]} ∪ switched k)
                        else k)
    | SysConnect _ _ => (Failed EINPROGRESS, k)
    | _ => (Returned 1 [], k)
    end;
|}.

#[export] Instance table_patient : PatientKernel Table.
Proof.
  refine {| patience := fun _ => 0%nat |}.
  - intros c k e k' Hc He. exfalso. assert (e = ENOBUFS \/ e = EINPROGRESS) as [-> | ->].
    { destruct c; cbn in Hc; try done; [destruct (free_fd k); [done|]..|]; injection Hc as <- _; tauto. }
    all: by repeat destruct He as [He|He].
  - done.
  - done.
Defined.

Lemma free_fd_spec k fd : free_fd k = Some fd -> 0 <= fd /\ fd ∉ in_use k.
Proof.
  intros Hf. assert (fd ∈ filter (fun fd => fd ∉ in_use k) [3; 4; 5; 6]) as [Hnew Hfd]%list_elem_of_filter.
  { unfold free_fd in Hf. destruct (filter _ _); simplify_eq/=. by left. }
  split; [|done]. rewrite !elem_of_cons in Hfd. destruct Hfd as [-> | [-> | [-> | [-> | Hfd]]]]; [lia..|].
  by apply not_elem_of_nil in Hfd.
Qed.

Lemma free_fd_created k fd : free_fd k = Some fd -> exists fd' w, Returned fd [] = Returned fd' w /\
  (fd' ∉ filter (fun fd => 0 <= fd) (in_use k)) /\
  filter (fun fd => 0 <= fd) ({[fd]} ∪ in_use k) = ({[fd']} ∪ filter (fun fd => 0 <= fd) (in_use k)) /\
  (switched k ∖ {[fd]}) = (switched k ∖ {[fd']}).
Proof.
  intros [Hpos Hnew]%free_fd_spec. exists fd, []. split; [done|]. split; [by intros [_ ?]%elem_of_filter|]. split; [|done].
  apply set_eq. intros x. rewrite elem_of_filter, !elem_of_union, elem_of_filter, elem_of_singleton.
  split; [tauto|intros [-> | ?]; tauto].
Qed.

#[export] Instance table_descriptors : DescriptorKernel Table.
Proof.
  refine {| opened k := filter (fun fd => 0 <= fd) (in_use k); unblocked := switched |}.
  - by intros k fd [? _]%elem_of_filter.
  - intros c k a k' Hc Hrun. destruct c; try done; cbn in Hrun;
      destruct (free_fd k) as [fd|] eqn:Hf; injection Hrun as <- <-;
      [left; by apply free_fd_created|right; by eexists|left; by apply free_fd_created|right; by eexists].
  - intros s k a k' [= <- <-]. split; [done|]. split; [|done]. cbn [in_use].
    apply set_eq. intros x. rewrite elem_of_filter, !elem_of_difference, elem_of_filter. tauto.
  - intros s arg k a k' [= <- <-]. split; [done|]. right. by exists 0.
  - intros c k a k' Hc. destruct c; cbn in *; try done; intros [= <- <-]; try done. by destruct (cmd =? FIONBIO).
Defined.

(** A server that listens on one socket and accepts a connection into another. *)
#[local] Existing Instance no_clock_set.
#[local] Existing Instance no_clock_timers.

Definition nothing_open : World Table TimerSet :=
  mkWorld (mkThread 0 (mkTable ∅ ∅)) (example_reactor [1; 2] [3])%nat.

Definition server_calls : list SocketCall := [
  CallCreate 0; CallOpen 0 2 SOCK_STREAM 6; CallCreate 1; CallAsyncAccept 0 7 false 1;
  PerformAccept 7; CompleteAccept true 7 SOCK_STREAM 1; CallNonBlocking 1 true].

Definition run_calls (cs : list SocketCall) (y : Sockets Table TimerSet) : Sockets Table TimerSet :=
  foldl (fun y c => (socket_call example_perform (fun _ => 0) c y).1.2) y cs.

Definition server : Sockets Table TimerSet := run_calls server_calls (mkSockets nothing_open ∅ ∅ (fds nothing_open)).

Fixpoint all_allowed (cs : list SocketCall) (y : Sockets Table TimerSet) : Prop :=
  match cs with
  | [] => True
  | c :: cs =>
      allowed y c /\ (socket_call example_perform (fun _ => 0) c y).2 = Ok tt /\
      all_allowed cs (socket_call example_perform (fun _ => 0) c y).1.2
  end.

Lemma run_calls_reachable start cs y : reachable example_perform (fun _ => 0) start y -> all_allowed cs y ->
  reachable example_perform (fun _ => 0) start (run_calls cs y).
Proof.
  revert y. induction cs as [|c cs IH]; intros y Hr Hcs; [done|]. destruct Hcs as (Hc & Hok & Hcs). cbn [run_calls foldl].
  apply IH; [|done]. destruct (socket_call _ _ c y) as [[es y'] r] eqn:Hrun. cbn in Hok |- *. subst r.
  by apply (reachable_call _ _ _ y c es).
Qed.

Lemma server_reachable : reachable example_perform (fun _ => 0) (mkSockets nothing_open ∅ ∅ (fds nothing_open)) server.
Proof. apply run_calls_reachable; [apply reachable_start|]. vm_compute. repeat split; eauto. Qed.

(** The two descriptors of the server have an owner each, and the next call returns. *)
Lemma sockets_own_their_descriptors_witness :
  owners server ≡ₚ [3; 4] /\ exists es y', socket_call example_perform (fun _ => 0) (CallRelease 1) server = (es, y', Ok tt).
Proof.
  destruct (sockets_own_their_descriptors example_perform (fun _ => 0) nothing_open server
    (example_reactor_ok [1; 2]%nat [3]%nat) server_reachable) as (_ & Howned & _ & _ & _ & Hcall).
  split; [rewrite Howned; by vm_compute|]. apply Hcall. vm_compute. eauto.
Defined.

(** A connection: the descriptor is switched before the kernel is asked. *)
Definition client : Sockets Table TimerSet :=
  run_calls [CallCreate 0; CallOpen 0 2 SOCK_STREAM 6] (mkSockets nothing_open ∅ ∅ (fds nothing_open)).

Lemma operations_on_non_blocking_descriptors_witness : exists es y',
  socket_call example_perform (fun _ => 0) (CallConnect 0 9 false [127; 0; 0; 1]) client = (es, y', Ok tt) /\
  SysCall (SysConnect 3 [127; 0; 0; 1]) ∈ es /\
  ((exists impl, objects client !! 0%nat = Some impl /\ impl_is_open impl = true /\ socket_ impl ∈ modes (world y')) \/
   Forall (preparing 9 false) es).
Proof.
  assert (reachable example_perform (fun _ => 0) (mkSockets nothing_open ∅ ∅ (fds nothing_open)) client) as Hr.
  { apply run_calls_reachable; [apply reachable_start|]. vm_compute. repeat split; eauto. }
  destruct (socket_call example_perform (fun _ => 0) (CallConnect 0 9 false [127; 0; 0; 1]) client)
    as [[es y'] r] eqn:Hrun. exists es, y'.
  assert (r = Ok tt /\ SysCall (SysConnect 3 [127; 0; 0; 1]) ∈ es) as [-> Hin].
  { vm_compute in Hrun. injection Hrun as <- _ <-. split; [done|]. repeat constructor. }
  split; [done|]. split; [done|].
  apply (operations_on_non_blocking_descriptors example_perform (fun _ => 0) nothing_open client
    (CallConnect 0 9 false [127; 0; 0; 1]) 0 9 false es y' (example_reactor_ok [1; 2]%nat [3]%nat) Hr); [|done|done].
  vm_compute. eauto.
Defined.

(** Where the kernel refuses the registration (ENOSPC), the object stays closed, and
    the data allocated for it outlives it. *)
Lemma failed_registration_leaks_data :
  let y := foldl (fun y c => (socket_call example_perform (fun _ => 28) c y).1.2)
    (mkSockets nothing_open ∅ ∅ (fds nothing_open)) [CallCreate 0; CallOpen 0 2 SOCK_STREAM 6; CallDestroy 0] in
  objects y = ∅ /\ fds (world y) = ∅ /\ live nothing_open = [0%nat] /\ live (world y) = [1; 0]%nat.
Proof. by vm_compute. Qed.
