(* ===== verification/AsioBasicSocket.v ===== *)
(** * asio: the socket and acceptor classes

    [basic_socket], [basic_stream_socket] and [basic_socket_acceptor] hold an object
    of the service of AsioSocketService.v and call it.  Each method comes twice: one
    returns an error code, the other throws it.  A constructor that throws destroys
    the object it has begun, which is what the theorems are about: no call, whether it
    returns or throws, loses a descriptor, and a constructor that throws leaves none. *)
From S2P Require Import Prelude NetworkUtil AsioScheduler AsioReactor AsioAddress AsioTimerQueue AsioTimerSet.
From S2P Require Import AsioSocketOps AsioSocketStream AsioDescriptors AsioSocketService AsioSocketObjects AsioSocketSystem.
Local Open Scope Z_scope.

(** ** Objects *)

(** class [basic_io_object]: the object of the service; the service is its world. *)
Record Basic (K Q : Type) := mkBasic { obj_world : World K Q; implementation_ : SocketImpl }.
Arguments mkBasic {K Q} _ _.
Arguments obj_world {K Q} _.
Arguments implementation_ {K Q} _.

Definition SO_REUSEADDR : Z := 2.
Definition SOMAXCONN : Z := 128.

Section classes.
Context {K : Type} `{!Kernel K, !PatientKernel K} {Q : Type} `{!TimerQueueSet Q}.
Context (plat : Platform) (perform : nat -> Status) (epoll_ctl : nat -> Z).

Local Abbreviation W := (comp (World K Q) SocketEffect).
Local Abbreviation M := (comp (Basic K Q) SocketEffect).
Implicit Types (b : Basic K Q) (e : endpoint.t) (ec : error_code).

(** A call of the service that leaves the object as it is. *)
Definition on_service {A} (f : SocketImpl -> W A) : M A := fun b =>
  let '(es, w, r) := f (implementation_ b) (obj_world b) in (es, mkBasic w (implementation_ b), r).

(** A call of the service with the object as a reference. *)
Definition update_service {A} (f : SocketImpl -> W (SocketImpl * A)) : M A := fun b =>
  let '(es, w, r) := f (implementation_ b) (obj_world b) in
  match r with
  | Ok (impl, a) => (es, mkBasic w impl, Ok a)
  | Err err => (es, mkBasic w (implementation_ b), Err err)
  end.

Definition throw_error ec (location : string) : M unit :=
  if failed ec then fail_with (SystemError location) else mret tt.

(** The methods that throw. *)
Definition throwing (m : M error_code) (location : string) : M unit := ec ← m; throw_error ec location.
Definition throwing_value {A} (m : M (A * error_code)) (location : string) : M A :=
  r ← m; throw_error r.2 location ;; (mret r.1).

(** *** Construction and destruction *)

(** The destructor of an object runs if what follows its construction throws. *)
Definition guard_object {A} (impl : SocketImpl) (body : M A) : W (SocketImpl * A) := fun w =>
  let '(es, b, r) := body (mkBasic w impl) in
  match r with
  | Ok a => (es, obj_world b, Ok (implementation_ b, a))
  | Err f =>
      let '(es', w', r') := destroy epoll_ctl (implementation_ b) (obj_world b) in
      (es ++ es', w', match r' with Ok _ => Err f | Err f' => Err f' end)
  end.

(** [basic_io_object::basic_io_object], before the rest of the constructor. *)
Definition construct_object (body : M unit) : W SocketImpl := r ← guard_object new_impl body; mret r.1.

Definition destroy_object (impl : SocketImpl) : W unit := destroy epoll_ctl impl ;; (mret tt).

(** The loops of the service end before the patience of the kernel does. *)
Definition patient_fuel {A} (f : nat -> M A) : M A :=
  b ← get_state; f (S (patience (kernel_ (thread_ (obj_world b))))).

(** *** End points of a socket *)

(** [reactive_socket_service::local_endpoint] and [remote_endpoint] differ in the
    call; [resize] throws. *)
Definition name_endpoint (f : Z -> list Z -> comp (Thread K) Syscall (Z * list Z * Z * error_code))
    (impl : SocketImpl) : W (endpoint.t * error_code) :=
  r ← on_kernel (f (socket_ impl) (endpoint.default plat));
  let '(result, addr, addr_len, ec) := r in
  if negb (result =? 0) then mret (endpoint.default plat, ec)
  else if endpoint.resize addr_len then mret (addr, ec)
  else fail_with (SystemError "Invalid argument").

Definition service_local_endpoint := name_endpoint socket_ops.getsockname.
Definition service_remote_endpoint := name_endpoint socket_ops.getpeername.

(** The address of an end point as the system calls get it. *)
Definition sockaddr e : list Z := take (endpoint.size plat e) e.

End classes.

Module basic_socket.
Section basic_socket.
Context {K : Type} `{!Kernel K, !PatientKernel K} {Q : Type} `{!TimerQueueSet Q}.
Context (plat : Platform) (perform : nat -> Status) (epoll_ctl : nat -> Z).

Local Abbreviation M := (comp (Basic K Q) SocketEffect).

Definition is_open : M bool := on_service (fun impl => mret (impl_is_open impl)).
Definition native_handle : M Z := on_service (fun impl => mret (socket_ impl)).

Definition open_ec (protocol : tcp) : M error_code :=
  update_service (fun impl => do_open epoll_ctl impl (tcp_family protocol) SOCK_STREAM IPPROTO_TCP).
Definition open (protocol : tcp) : M unit := throwing (open_ec protocol) "open".

Definition assign_ec (native_socket : Z) : M error_code :=
  update_service (fun impl => do_assign epoll_ctl impl SOCK_STREAM native_socket).
Definition assign (native_socket : Z) : M unit := throwing (assign_ec native_socket) "assign".

Definition close_ec : M error_code := update_service (fun impl => close epoll_ctl impl no_error).
Definition close : M unit := throwing close_ec "close".

Definition release_ec : M (Z * error_code) :=
  update_service (fun impl => r ← release epoll_ctl impl; mret (r.1.2, (r.1.1, r.2))).
Definition release : M Z := throwing_value release_ec "release".

Definition cancel_ec : M error_code := on_service cancel.
Definition cancel : M unit := throwing cancel_ec "cancel".

Definition at_mark_ec : M (bool * error_code) := on_service at_mark.
Definition at_mark : M bool := throwing_value at_mark_ec "at_mark".
Definition available_ec : M (Z * error_code) := on_service available.
Definition available : M Z := throwing_value available_ec "available".

Definition bind_ec (e : endpoint.t) : M error_code := on_service (fun impl => bind impl (sockaddr plat e)).
Definition bind (e : endpoint.t) : M unit := throwing (bind_ec e) "bind".

(** A socket that is closed is opened first, and stays open if it cannot be
    connected. *)
Definition connect_ec (peer_endpoint : endpoint.t) : M error_code :=
  opened ← is_open;
  ec ← (if negb opened then open_ec (protocol_of plat peer_endpoint) else mret no_error);
  if failed ec then mret ec else on_service (fun impl => connect impl (sockaddr plat peer_endpoint)).

Definition connect (peer_endpoint : endpoint.t) : M unit :=
  opened ← is_open;
  (if negb opened then throwing (open_ec (protocol_of plat peer_endpoint)) "connect" else mret tt) ;;
  throwing (on_service (fun impl => connect impl (sockaddr plat peer_endpoint))) "connect".

(** An error of [open] is posted to the handler. *)
Definition async_connect (op : nat) (is_continuation : bool) (peer_endpoint : endpoint.t) : M unit :=
  opened ← is_open;
  ec ← (if negb opened then open_ec (protocol_of plat peer_endpoint) else mret no_error);
  if failed ec then emit (SetOpError op ec) ;; (on_service (fun _ => post_completion op is_continuation))
  else update_service (fun impl =>
    impl ← start_connect_op perform epoll_ctl impl op is_continuation (sockaddr plat peer_endpoint); mret (impl, tt)).

Definition set_option_ec (level name : Z) (data : list Z) (size : Z) : M error_code :=
  update_service (fun impl => set_option impl level name data size).
Definition set_option (level name : Z) (data : list Z) (size : Z) : M unit :=
  throwing (set_option_ec level name data size) "set_option".

Definition get_option_ec (level name value size : Z) : M (Z * Z * error_code) :=
  on_service (fun impl => get_option impl level name value size).
Definition get_option (level name value size : Z) : M (Z * Z) := throwing_value (get_option_ec level name value size) "get_option".

Definition io_control_ec (cmd arg : Z) : M (Z * error_code) :=
  update_service (fun impl => r ← io_control impl cmd arg; mret (r.1.1, (r.1.2, r.2))).
Definition io_control (cmd arg : Z) : M Z := throwing_value (io_control_ec cmd arg) "io_control".

Definition non_blocking : M bool := on_service (fun impl => mret (has (state_ impl) user_set_non_blocking)).
Definition set_non_blocking_ec (mode : bool) : M error_code := update_service (fun impl => set_non_blocking impl mode).
Definition set_non_blocking (mode : bool) : M unit := throwing (set_non_blocking_ec mode) "non_blocking".

Definition native_non_blocking : M bool := on_service (fun impl => mret (has (state_ impl) internal_non_blocking)).
Definition set_native_non_blocking_ec (mode : bool) : M error_code :=
  update_service (fun impl => set_native_non_blocking impl mode).
Definition set_native_non_blocking (mode : bool) : M unit := throwing (set_native_non_blocking_ec mode) "native_non_blocking".

Definition local_endpoint_ec : M (endpoint.t * error_code) := on_service (service_local_endpoint plat).
Definition local_endpoint : M endpoint.t := throwing_value local_endpoint_ec "local_endpoint".
Definition remote_endpoint_ec : M (endpoint.t * error_code) := on_service (service_remote_endpoint plat).
Definition remote_endpoint : M endpoint.t := throwing_value remote_endpoint_ec "remote_endpoint".

Definition shutdown_ec (what : Z) : M error_code := on_service (fun impl => shutdown impl what).
Definition shutdown (what : Z) : M unit := throwing (shutdown_ec what) "shutdown".

Definition wait_ec (w : option wait_type) : M error_code := on_service (fun impl => wait impl w).
Definition wait (w : option wait_type) : M unit := throwing (wait_ec w) "wait".
Definition async_wait (w : option wait_type) (op : nat) (is_continuation : bool) : M unit :=
  update_service (fun impl => impl ← async_wait perform epoll_ctl impl w op is_continuation; mret (impl, tt)).

(** The constructors: closed, open, bound, and around a descriptor. *)
Definition construct : comp (World K Q) SocketEffect SocketImpl := construct_object epoll_ctl (mret tt).
Definition construct_open (protocol : tcp) := construct_object epoll_ctl (open protocol).
Definition construct_bound (e : endpoint.t) := construct_object epoll_ctl (open (protocol_of plat e) ;; (bind e)).
Definition construct_assigned (native_socket : Z) := construct_object epoll_ctl (assign native_socket).

End basic_socket.
End basic_socket.

Module basic_stream_socket.
Section basic_stream_socket.
Context {K : Type} `{!Kernel K, !PatientKernel K} {Q : Type} `{!TimerQueueSet Q}.
Context (perform : nat -> Status) (epoll_ctl : nat -> Z).

Local Abbreviation M := (comp (Basic K Q) SocketEffect).

Definition send_ec (bytes : list Z) (flags : Z) (all_empty : bool) : M (Z * error_code) :=
  patient_fuel (fun fuel => on_service (fun impl => send fuel impl bytes flags all_empty)).
Definition send (bytes : list Z) (flags : Z) (all_empty : bool) : M Z := throwing_value (send_ec bytes flags all_empty) "send".
Definition send_default (bytes : list Z) (all_empty : bool) : M Z := throwing_value (send_ec bytes 0 all_empty) "send".

Definition receive_ec (capacity flags : Z) (all_empty : bool) : M (Z * list Z * error_code) :=
  patient_fuel (fun fuel => on_service (fun impl => receive fuel impl capacity flags all_empty)).
Definition receive (capacity flags : Z) (all_empty : bool) : M (Z * list Z) :=
  throwing_value (receive_ec capacity flags all_empty) "receive".
Definition receive_default (capacity : Z) (all_empty : bool) : M (Z * list Z) :=
  throwing_value (receive_ec capacity 0 all_empty) "receive".

Definition write_some_ec (bytes : list Z) (all_empty : bool) : M (Z * error_code) := send_ec bytes 0 all_empty.
Definition write_some (bytes : list Z) (all_empty : bool) : M Z := throwing_value (write_some_ec bytes all_empty) "write_some".
Definition read_some_ec (capacity : Z) (all_empty : bool) : M (Z * list Z * error_code) := receive_ec capacity 0 all_empty.
Definition read_some (capacity : Z) (all_empty : bool) : M (Z * list Z) :=
  throwing_value (read_some_ec capacity all_empty) "read_some".

Definition async_send (op : nat) (is_continuation : bool) (all_empty : bool) : M unit :=
  update_service (fun impl => impl ← async_send_start perform epoll_ctl impl op is_continuation all_empty; mret (impl, tt)).
Definition async_receive (op : nat) (is_continuation : bool) (flags : Z) (all_empty : bool) : M unit :=
  update_service (fun impl => impl ← async_receive_start perform epoll_ctl impl op is_continuation flags all_empty; mret (impl, tt)).
Definition async_write_some (op : nat) (is_continuation : bool) (all_empty : bool) : M unit := async_send op is_continuation all_empty.
Definition async_read_some (op : nat) (is_continuation : bool) (all_empty : bool) : M unit := async_receive op is_continuation 0 all_empty.

End basic_stream_socket.
End basic_stream_socket.

Module basic_socket_acceptor.
Section basic_socket_acceptor.
Context {K : Type} `{!Kernel K, !PatientKernel K} {Q : Type} `{!TimerQueueSet Q}.
Context (plat : Platform) (perform : nat -> Status) (epoll_ctl : nat -> Z).

Local Abbreviation M := (comp (Basic K Q) SocketEffect).
Local Abbreviation W := (comp (World K Q) SocketEffect).

Definition open (protocol : tcp) : M unit := throwing (basic_socket.open_ec epoll_ctl protocol) "open".
Definition assign (native_acceptor : Z) : M unit := throwing (basic_socket.assign_ec epoll_ctl native_acceptor) "assign".
Definition bind (e : endpoint.t) : M unit := throwing (basic_socket.bind_ec plat e) "bind".
Definition listen_ec (backlog : Z) : M error_code := on_service (fun impl => listen impl backlog).
Definition listen (backlog : Z) : M unit := throwing (listen_ec backlog) "listen".
Definition close : M unit := throwing (basic_socket.close_ec epoll_ctl) "close".
Definition release : M Z := throwing_value (basic_socket.release_ec epoll_ctl) "release".
Definition cancel : M unit := throwing basic_socket.cancel_ec "cancel".
Definition set_option (level name : Z) (data : list Z) (size : Z) : M unit :=
  throwing (basic_socket.set_option_ec level name data size) "set_option".
Definition local_endpoint : M endpoint.t := throwing_value (basic_socket.local_endpoint_ec plat) "local_endpoint".
Definition wait (w : option wait_type) : M unit := throwing (basic_socket.wait_ec w) "wait".

(** [accept] into an object of the caller, without the address of the peer. *)
Definition accept_ec (peer : SocketImpl) : M (SocketImpl * error_code) :=
  patient_fuel (fun fuel => on_service (fun impl => accept epoll_ctl fuel impl SOCK_STREAM peer None)).
Definition accept_into (peer : SocketImpl) : M SocketImpl := throwing_value (accept_ec peer) "accept".

(** [accept] that returns a new socket, which is destroyed if the call throws. *)
Definition accept : M SocketImpl :=
  r ← accept_ec new_impl;
  if failed r.2 then on_service (fun _ => destroy epoll_ctl r.1) ;; (fail_with (SystemError "accept")) else mret r.1.

(** [async_accept] without a peer: the operation holds the new socket. *)
Definition async_accept (op : nat) (is_continuation : bool) : M accept_op :=
  o ← on_service (fun impl => mret (new_accept_op (socket_ impl) (state_ impl) None));
  update_service (fun impl => impl ← start_accept_op perform epoll_ctl impl op is_continuation false; mret (impl, tt)) ;;
  (mret o).

Definition construct : W SocketImpl := construct_object epoll_ctl (mret tt).
Definition construct_open (protocol : tcp) : W SocketImpl := construct_object epoll_ctl (open protocol).

Definition start_listening (e : endpoint.t) (reuse_addr : bool) : M unit :=
  open (protocol_of plat e) ;;
  ((if reuse_addr then set_option SOL_SOCKET SO_REUSEADDR [1] 4 else mret tt) ;;
   (bind e ;; (listen SOMAXCONN))).

Definition construct_listening (e : endpoint.t) (reuse_addr : bool) : W SocketImpl :=
  construct_object epoll_ctl (start_listening e reuse_addr).

Definition construct_assigned (native_acceptor : Z) : W SocketImpl := construct_object epoll_ctl (assign native_acceptor).

End basic_socket_acceptor.
End basic_socket_acceptor.

(** ** Programs that use one object *)

(** A method of a socket or an acceptor, with its arguments. *)
Inductive SocketMethod :=
| MOpen (protocol : tcp)
| MClose
| MCancel
| MAtMark
| MAvailable
| MBind (e : endpoint.t)
| MListen (backlog : Z)
| MConnect (e : endpoint.t)
| MAsyncConnect (op : nat) (is_continuation : bool) (e : endpoint.t)
| MSetOption (level name : Z) (data : list Z) (size : Z)
| MGetOption (level name value size : Z)
| MIoControl (cmd arg : Z)
| MNonBlocking (mode : bool)
| MNativeNonBlocking (mode : bool)
| MLocalEndpoint
| MRemoteEndpoint
| MShutdown (what : Z)
| MWait (w : option wait_type)
| MAsyncWait (w : option wait_type) (op : nat) (is_continuation : bool)
| MSend (bytes : list Z) (flags : Z) (all_empty : bool)
| MReceive (capacity flags : Z) (all_empty : bool)
| MAsyncSend (op : nat) (is_continuation all_empty : bool)
| MAsyncReceive (op : nat) (is_continuation : bool) (flags : Z) (all_empty : bool)
| MAsyncAccept (op : nat) (is_continuation : bool).

Section programs.
Context {K : Type} `{!Kernel K, !PatientKernel K} {Q : Type} `{!TimerQueueSet Q}.
Context (plat : Platform) (perform : nat -> Status) (epoll_ctl : nat -> Z).

Local Abbreviation M := (comp (Basic K Q) SocketEffect).

Definition call_method (c : SocketMethod) : M unit :=
  match c with
  | MOpen protocol => basic_socket.open epoll_ctl protocol
  | MClose => basic_socket.close epoll_ctl
  | MCancel => basic_socket.cancel
  | MAtMark => ignore basic_socket.at_mark
  | MAvailable => ignore basic_socket.available
  | MBind e => basic_socket.bind plat e
  | MListen backlog => basic_socket_acceptor.listen backlog
  | MConnect e => basic_socket.connect plat epoll_ctl e
  | MAsyncConnect op k e => basic_socket.async_connect plat perform epoll_ctl op k e
  | MSetOption level name data size => basic_socket.set_option level name data size
  | MGetOption level name value size => ignore (basic_socket.get_option level name value size)
  | MIoControl cmd arg => ignore (basic_socket.io_control cmd arg)
  | MNonBlocking mode => basic_socket.set_non_blocking mode
  | MNativeNonBlocking mode => basic_socket.set_native_non_blocking mode
  | MLocalEndpoint => ignore (basic_socket.local_endpoint plat)
  | MRemoteEndpoint => ignore (basic_socket.remote_endpoint plat)
  | MShutdown what => basic_socket.shutdown what
  | MWait w => basic_socket.wait w
  | MAsyncWait w op k => basic_socket.async_wait perform epoll_ctl w op k
  | MSend bytes flags all_empty => ignore (basic_stream_socket.send bytes flags all_empty)
  | MReceive capacity flags all_empty => ignore (basic_stream_socket.receive capacity flags all_empty)
  | MAsyncSend op k all_empty => basic_stream_socket.async_send perform epoll_ctl op k all_empty
  | MAsyncReceive op k flags all_empty => basic_stream_socket.async_receive perform epoll_ctl op k flags all_empty
  | MAsyncAccept op k => ignore (basic_socket_acceptor.async_accept perform epoll_ctl op k)
  end.

(** The caller catches [std::system_error] and goes on. *)
Definition attempt (m : M unit) : M unit := fun b =>
  match m b with
  | (es, b', Err (SystemError _)) => (es, b', Ok tt)
  | outcome => outcome
  end.

Definition use_object (cs : list SocketMethod) : M unit := for_each (fun c => attempt (call_method c)) cs.

End programs.

(** ** What a method does to its object *)

Section tracking.
Context {K : Type} `{!Kernel K, !PatientKernel K, !DescriptorKernel K} {Q : Type} `{!TimerQueueSet Q, !TimerQueueSetOk Q}.
Implicit Types (w : World K Q) (b : Basic K Q) (impl : SocketImpl).

Local Abbreviation W := (comp (World K Q) SocketEffect).
Local Abbreviation M := (comp (Basic K Q) SocketEffect).

(** [b] came about from [w0] with an object of its own: what is open now was open
    then or belongs to the object, and the same of the data in the reactor, some of
    which nobody knows any more. *)
Definition tracked w0 b : Prop :=
  impl_ok (obj_world b) (implementation_ b) /\
  exists leak, evolves w0 (obj_world b) [] (impl_fds (implementation_ b)) [] (impl_data (implementation_ b) ++ leak).

Lemma tracked_in w0 b : tracked w0 b -> impl_in (obj_world b) (implementation_ b).
Proof.
  intros [Hok [leak [Hf _ Hl Hr]]]. rewrite app_nil_r in Hf, Hl. split; [done|done|..].
  - intros fd Hfd. apply elem_of_elements. rewrite Hf. apply elem_of_app. by right.
  - intros d Hd. rewrite Hl, !elem_of_app. tauto.
Qed.

Lemma tracked_start w : reactor_ok (reactor_ w) -> tracked w (mkBasic w new_impl).
Proof. intros Hr. split; [by apply closed_ok|]. exists []. by apply evolves_refl. Qed.

(** A change of the object that its service accounts for. *)
Lemma tracked_step w0 b w' impl' leak : tracked w0 b -> impl_ok w' impl' ->
  evolves (obj_world b) w' (impl_fds (implementation_ b)) (impl_fds impl')
    (impl_data (implementation_ b)) (impl_data impl' ++ leak) ->
  tracked w0 (mkBasic w' impl').
Proof.
  intros [_ [leak0 Hev]] Hok Hev'. split; [done|]. exists (leak ++ leak0). rewrite (assoc_L (++)).
  eapply evolves_trans; [exact Hev|]. by apply evolves_frame_data.
Qed.

(** The method returns or throws, and the object is still tracked. *)
Definition keeps {A} (m : M A) : Prop :=
  forall w0 b, tracked w0 b -> ends m b (fun _ => tracked w0) (tracked w0).

Lemma keeps_bind_object {A B} (m : M A) (f : A -> M B) : keeps m -> (forall a, keeps (f a)) -> keeps (m ≫= f).
Proof. intros Hm Hf w0 b Hb. eapply ends_bind; [by apply Hm|]. intros a b'. apply Hf. Qed.

Lemma keeps_ret_object {A} (a : A) : keeps (mret a).
Proof. intros w0 b Hb. by apply ends_ret. Qed.

Lemma keeps_throw {A} what : keeps (@fail_with _ _ A (SystemError what)).
Proof. intros w0 b Hb. by apply ends_throw. Qed.

Lemma keeps_emit_object e : keeps (emit e).
Proof. intros w0 b Hb. by apply ends_returns, returns_emit. Qed.

Lemma keeps_if_object {A} (c : bool) (m m' : M A) : keeps m -> keeps m' -> keeps (if c then m else m').
Proof. by destruct c. Qed.

Lemma keeps_state {A} (f : Basic K Q -> M A) : (forall b w0, tracked w0 b -> ends (f b) b (fun _ => tracked w0) (tracked w0)) ->
  keeps (get_state ≫= f).
Proof.
  intros Hf w0 b Hb. by apply ends_get, Hf.
Qed.

(** What a service call that leaves the object alone must guarantee. *)
Definition same_impl w impl w' : Prop := impl_ok w' impl /\
  evolves w w' (impl_fds impl) (impl_fds impl) (impl_data impl) (impl_data impl).

Lemma keeps_on_service_in {A} (f : SocketImpl -> W A) w0 b : tracked w0 b ->
  ends (f (implementation_ b)) (obj_world b) (fun _ => same_impl (obj_world b) (implementation_ b))
    (same_impl (obj_world b) (implementation_ b)) ->
  ends (on_service f) b (fun _ => tracked w0) (tracked w0).
Proof.
  intros Hb (es & w' & r & Hm & Hr). exists es, (mkBasic w' (implementation_ b)), r. unfold on_service. rewrite Hm.
  split; [done|]. assert (same_impl (obj_world b) (implementation_ b) w' -> tracked w0 (mkBasic w' (implementation_ b))) as Ht.
  { intros [Hok Hev]. apply (tracked_step w0 b w' _ []); [done|done|]. by rewrite (right_id_L [] (++)). }
  destruct r as [a|[]]; auto.
Qed.

Lemma keeps_on_service {A} (f : SocketImpl -> W A) :
  (forall w impl, impl_in w impl -> ends (f impl) w (fun _ => same_impl w impl) (same_impl w impl)) -> keeps (on_service f).
Proof. intros Hf w0 b Hb. apply keeps_on_service_in; [done|]. by apply Hf, (tracked_in w0). Qed.

Lemma same_impl_quiet w impl w' : impl_in w impl -> same_fds (kernel_ (thread_ w)) (kernel_ (thread_ w')) ->
  reactor_ w' = reactor_ w -> same_impl w impl w'.
Proof.
  intros Hin Hsame Hr. split; [by apply (impl_ok_same w), Hin|].
  apply (evolves_then w w); [by apply evolves_idle|]. apply evolves_same; [apply Hin|done|done].
Qed.

(** The calls of the kernel that open, close and switch nothing. *)
Lemma keeps_kernel {A B} (m : SocketImpl -> comp (Thread K) Syscall A) (g : A -> B) :
  (forall impl, harmless (m impl)) -> keeps (on_service (fun impl => r ← on_kernel (m impl); mret (g r))).
Proof.
  intros Hm. apply keeps_on_service. intros w impl Hin. apply ends_returns.
  eapply returns_impl; [apply plain_then, Hm|]. cbn beta. intros _ w' [Hsame Hr]. by apply same_impl_quiet.
Qed.

Lemma keeps_kernel_plain {A} (m : SocketImpl -> comp (Thread K) Syscall A) :
  (forall impl, harmless (m impl)) -> keeps (on_service (fun impl => on_kernel (m impl))).
Proof.
  intros Hm. apply keeps_on_service. intros w impl Hin. apply ends_returns.
  eapply returns_impl; [apply plain_kernel, Hm|]. cbn beta. intros _ w' [Hsame Hr]. by apply same_impl_quiet.
Qed.

(** With a loop that ends before the patience of the kernel. *)
Lemma keeps_patient {A} (m : nat -> SocketImpl -> comp (Thread K) Syscall A) :
  (forall fuel impl t, (patience (kernel_ t) < fuel)%nat ->
    returns (m fuel impl) t (fun _ t' => same_fds (kernel_ t) (kernel_ t'))) ->
  keeps (patient_fuel (fun fuel => on_service (fun impl => on_kernel (m fuel impl)))).
Proof.
  intros Hm. apply keeps_state. intros b w0 Hb. apply keeps_on_service_in; [done|]. apply ends_returns.
  eapply returns_impl; [apply plain_kernel, Hm; lia|]. cbn beta. intros _ w' [Hsame Hr].
  apply same_impl_quiet; [by apply (tracked_in w0)|done|done].
Qed.

Lemma keeps_update_object {A} (f : SocketImpl -> W (SocketImpl * A)) :
  (forall w impl, impl_in w impl -> object_spec w impl (first (f impl))) -> keeps (update_service f).
Proof.
  intros Hf w0 b Hb. pose proof (Hf _ _ (tracked_in w0 b Hb)) as Hspec.
  apply returns_mapped in Hspec as (es & w' & [impl' a] & Hm & [leak Hev] & Hok).
  exists es, (mkBasic w' impl'), (Ok a). unfold update_service. rewrite Hm. split; [done|].
  by apply (tracked_step w0 b w' impl' leak).
Qed.

(** Calls of the service that return the object only. *)
Lemma keeps_update_only (f : SocketImpl -> W SocketImpl) :
  (forall w impl, impl_in w impl -> object_spec w impl (f impl)) ->
  keeps (update_service (fun impl => impl ← f impl; mret (impl, tt))).
Proof.
  intros Hf. apply keeps_update_object. intros w impl Hin. by apply returns_mapped, returns_mapped, Hf.
Qed.

End tracking.

Create HintDb object.
#[export] Hint Resolve keeps_ret_object keeps_throw keeps_emit_object keeps_if_object : object.
#[export] Hint Extern 1 (keeps (_ ≫= _)) => apply keeps_bind_object; [|intros ?] : object.
#[export] Hint Extern 1 (keeps (ignore _)) => apply keeps_bind_object; [|intros ?] : object.

Section methods.
#[local] Hint Unfold basic_socket.is_open basic_socket.open basic_socket.close basic_socket.cancel basic_socket.at_mark basic_socket.available
  basic_socket.bind basic_socket_acceptor.listen basic_socket.connect basic_socket.async_connect basic_socket.set_option
  basic_socket.get_option basic_socket.io_control basic_socket.set_non_blocking basic_socket.set_native_non_blocking
  basic_socket.local_endpoint basic_socket.remote_endpoint basic_socket.shutdown basic_socket.wait basic_socket.async_wait
  basic_stream_socket.send basic_stream_socket.receive basic_stream_socket.async_send basic_stream_socket.async_receive
  basic_socket_acceptor.async_accept throwing throwing_value throw_error : object.
Context {K : Type} `{!Kernel K, !PatientKernel K, !DescriptorKernel K} {Q : Type} `{!TimerQueueSet Q, !TimerQueueSetOk Q}.
Context (plat : Platform) (perform : nat -> Status) (epoll_ctl : nat -> Z).
Implicit Types (w : World K Q) (b : Basic K Q) (impl : SocketImpl).

Lemma keeps_open_ec protocol : keeps (basic_socket.open_ec (K := K) (Q := Q) epoll_ctl protocol).
Proof. apply keeps_update_object. intros. by apply open_ok. Qed.

Lemma keeps_close_ec : keeps (basic_socket.close_ec (K := K) (Q := Q) epoll_ctl).
Proof. apply keeps_update_object. intros. by apply close_ok. Qed.

Lemma keeps_cancel_ec : keeps (basic_socket.cancel_ec (K := K) (Q := Q)).
Proof.
  apply keeps_on_service. intros w impl Hin. apply ends_returns. eapply returns_impl; [by apply cancel_object_ok|].
  cbn beta. intros _ w' [Hev Ht]. split; [by apply (impl_ok_thread w), Hin|done].
Qed.

Lemma keeps_set_option_ec level name data size :
  keeps (basic_socket.set_option_ec (K := K) (Q := Q) level name data size).
Proof. apply keeps_update_object. intros. by apply set_option_ok. Qed.

Lemma keeps_non_blocking_ec mode : keeps (basic_socket.set_non_blocking_ec (K := K) (Q := Q) mode).
Proof. apply keeps_update_object. intros. by apply set_non_blocking_ok. Qed.

Lemma keeps_native_non_blocking_ec mode : keeps (basic_socket.set_native_non_blocking_ec (K := K) (Q := Q) mode).
Proof. apply keeps_update_object. intros. by apply set_native_non_blocking_ok. Qed.

Lemma keeps_io_control_ec cmd arg : keeps (basic_socket.io_control_ec (K := K) (Q := Q) cmd arg).
Proof.
  apply keeps_update_object. intros w impl Hin. apply returns_mapped, returns_mapped.
  exact (proj1 (returns_mapped _ (fun r => r.1.1) _ _) (io_control_ok w impl cmd arg Hin)).
Qed.

Lemma keeps_at_mark_ec : keeps (basic_socket.at_mark_ec (K := K) (Q := Q)).
Proof. apply (keeps_kernel_plain (fun impl => socket_ops.sockatmark (socket_ impl))). intros. apply harmless_sockatmark. Qed.

Lemma keeps_available_ec : keeps (basic_socket.available_ec (K := K) (Q := Q)).
Proof. apply (keeps_kernel_plain (fun impl => socket_ops.available (socket_ impl))). intros. apply harmless_available. Qed.

Lemma keeps_bind_ec e : keeps (basic_socket.bind_ec (K := K) (Q := Q) plat e).
Proof. apply (keeps_kernel (fun impl => socket_ops.bind (socket_ impl) _) snd). intros. by apply harmless_simple. Qed.

Lemma keeps_listen_ec backlog : keeps (basic_socket_acceptor.listen_ec (K := K) (Q := Q) backlog).
Proof. apply (keeps_kernel (fun impl => socket_ops.listen (socket_ impl) _) snd). intros. by apply harmless_simple. Qed.

Lemma keeps_shutdown_ec what : keeps (basic_socket.shutdown_ec (K := K) (Q := Q) what).
Proof. apply (keeps_kernel (fun impl => socket_ops.shutdown (socket_ impl) _) snd). intros. by apply harmless_simple. Qed.

Lemma keeps_get_option_ec level name value size : keeps (basic_socket.get_option_ec (K := K) (Q := Q) level name value size).
Proof.
  apply (keeps_kernel (fun impl => socket_ops.getsockopt (socket_ impl) (state_ impl) level name value size)
    (fun r => (r.1.1.2, if negb (failed r.2) then r.1.2 else size, r.2))). intros. by apply harmless_getsockopt.
Qed.

Lemma keeps_connected addr : keeps (on_service (fun impl => connect impl addr) : comp (Basic K Q) SocketEffect error_code).
Proof. apply (keeps_kernel_plain (fun impl => socket_ops.sync_connect (socket_ impl) addr)). intros. apply harmless_sync_connect. Qed.

Lemma keeps_wait_ec wt : keeps (basic_socket.wait_ec (K := K) (Q := Q) wt).
Proof.
  destruct wt as [[]|].
  1-3: apply (keeps_kernel (fun impl => socket_ops.poll_for _ (socket_ impl) (state_ impl) (-1)) snd); intros; apply harmless_poll_for.
  apply keeps_on_service. intros w impl Hin. apply ends_ret. split; [apply Hin|by apply evolves_idle].
Qed.

Lemma keeps_send_ec bytes flags all_empty : keeps (basic_stream_socket.send_ec (K := K) (Q := Q) bytes flags all_empty).
Proof. apply keeps_patient. intros. by apply sync_send_same. Qed.

Lemma keeps_receive_ec capacity flags all_empty :
  keeps (basic_stream_socket.receive_ec (K := K) (Q := Q) capacity flags all_empty).
Proof. apply keeps_patient. intros. by apply sync_recv_same. Qed.

Lemma harmless_name_call s c addr : inert c = true -> harmless (K := K) (socket_ops.name_call s c addr).
Proof. intros Hc. unfold socket_ops.name_call. cbn zeta. auto 20 with harmless. Qed.

Lemma name_endpoint_quiet f w impl : (forall s addr, harmless (K := K) (f s addr)) ->
  let quiet w' := same_fds (kernel_ (thread_ w)) (kernel_ (thread_ w')) /\ reactor_ w' = reactor_ w in
  ends (name_endpoint plat f impl) w (fun _ => quiet) quiet.
Proof.
  intros Hf quiet. unfold name_endpoint. apply ends_bind with (Φ := fun _ => quiet).
  { apply ends_returns, plain_kernel, Hf. }
  intros [[[result addr] addr_len] ec] w' Hw'. destruct (negb _); [by apply ends_ret|].
  destruct (endpoint.resize addr_len); [by apply ends_ret|by apply ends_throw].
Qed.

Lemma keeps_name_endpoint f : (forall s addr, harmless (K := K) (f s addr)) ->
  keeps (Q := Q) (on_service (name_endpoint plat f)).
Proof.
  intros Hf. apply keeps_on_service. intros w impl Hin. eapply ends_impl; [by apply name_endpoint_quiet|..]; cbn beta.
  - intros _ w' [Hsame Hr]. by apply same_impl_quiet.
  - intros w' [Hsame Hr]. by apply same_impl_quiet.
Qed.

Lemma keeps_local_endpoint_ec : keeps (basic_socket.local_endpoint_ec (K := K) (Q := Q) plat).
Proof. apply keeps_name_endpoint. intros. by apply harmless_name_call. Qed.

Lemma keeps_remote_endpoint_ec : keeps (basic_socket.remote_endpoint_ec (K := K) (Q := Q) plat).
Proof. apply keeps_name_endpoint. intros. by apply harmless_name_call. Qed.

Lemma keeps_read {A} (f : SocketImpl -> A) : keeps (on_service (fun impl => mret (f impl)) : comp (Basic K Q) SocketEffect A).
Proof. apply keeps_on_service. intros w impl Hin. apply ends_ret. split; [apply Hin|by apply evolves_idle]. Qed.

Lemma keeps_post op k : keeps (on_service (fun _ => post_completion op k) : comp (Basic K Q) SocketEffect unit).
Proof.
  apply keeps_on_service. intros w impl Hin. apply ends_returns. eapply returns_impl; [apply posted, Hin|]. cbn beta.
  intros _ w' [Hev Ht]. split; [by apply (impl_ok_thread w), Hin|]. apply (evolves_then w w); [by apply evolves_idle|done].
Qed.

#[local] Hint Resolve keeps_open_ec keeps_close_ec keeps_cancel_ec keeps_set_option_ec keeps_non_blocking_ec
  keeps_native_non_blocking_ec keeps_io_control_ec keeps_at_mark_ec keeps_available_ec keeps_bind_ec keeps_listen_ec
  keeps_shutdown_ec keeps_get_option_ec keeps_connected keeps_wait_ec keeps_send_ec keeps_receive_ec
  keeps_local_endpoint_ec keeps_remote_endpoint_ec keeps_read keeps_post : object.

#[local] Hint Resolve async_wait_ok start_op_ok start_accept_ok start_connect_ok : object.
#[local] Hint Extern 1 (keeps (update_service _)) => apply keeps_update_only; intros ? ? ? : object.
#[local] Hint Unfold async_receive_start async_send_start : object.

(** Every method keeps its object's descriptor, whether it returns or throws. *)
Lemma call_method_keeps c : keeps (call_method (K := K) (Q := Q) plat perform epoll_ctl c).
Proof.
  destruct c; cbn [call_method]; autounfold with object; auto 20 with object.
Qed.

(** *** Constructors, destructors and programs *)

Lemma destroyed w0 b : tracked w0 b -> returns (destroy epoll_ctl (implementation_ b)) (obj_world b)
  (fun _ w' => exists leak, evolves w0 w' [] [] [] leak).
Proof.
  intros Hb. pose proof (tracked_in _ _ Hb) as Hin. destruct Hb as [_ [leak0 Hev]].
  eapply returns_impl; [by apply destroy_ok|]. cbn beta. intros _ w' [leak Hev']. exists (leak ++ leak0).
  eapply evolves_trans; [exact Hev|]. by apply evolves_frame_data.
Qed.

Lemma destroyed_object w0 b : tracked w0 b -> returns (destroy_object epoll_ctl (implementation_ b)) (obj_world b)
  (fun _ w' => exists leak, evolves w0 w' [] [] [] leak).
Proof. intros Hb. eapply returns_bind; [by apply (destroyed w0)|]. cbn beta. intros _ w' Hw'. by apply returns_ret. Qed.

(** A constructor that throws leaves no descriptor behind. *)
Lemma constructed_object (body : comp (Basic K Q) SocketEffect unit) w : keeps body -> reactor_ok (reactor_ w) ->
  ends (construct_object epoll_ctl body) w (fun impl w' => tracked w (mkBasic w' impl))
    (fun w' => exists leak, evolves w w' [] [] [] leak).
Proof.
  intros Hbody Hr. apply ends_bind with (Φ := fun r w' => tracked w (mkBasic w' r.1)); [|intros r w' Hw'; by apply ends_ret].
  destruct (Hbody w _ (tracked_start w Hr)) as (es & b & r & Hrun & Hends).
  unfold ends, guard_object. rewrite Hrun. destruct r as [[]|f].
  { exists es, (obj_world b), (Ok (implementation_ b, tt)). split; [done|]. by destruct b. }
  destruct f; try done. destruct (destroyed w b Hends) as (es' & w' & impl & Hd & Hev). rewrite Hd.
  by eexists _, _, _.
Qed.

Lemma attempt_keeps m w0 b : keeps m -> tracked w0 b -> returns (attempt m) b (fun _ => tracked w0).
Proof.
  intros Hm Hb. destruct (Hm w0 b Hb) as (es & b' & r & Hrun & Hends). unfold attempt, returns.
  exists es, b', tt. rewrite Hrun. by destruct r as [[]|[]].
Qed.

Lemma use_object_keeps cs w0 b : tracked w0 b ->
  returns (use_object plat perform epoll_ctl cs) b (fun _ => tracked w0).
Proof.
  revert b. unfold use_object. induction cs as [|c cs IH]; intros b Hb; [by apply returns_ret|]. cbn [for_each].
  eapply returns_bind; [apply attempt_keeps; [apply call_method_keeps|done]|]. intros [] b'. apply IH.
Qed.

Lemma listening_keeps e reuse_addr : 
  keeps (K := K) (Q := Q) (basic_socket_acceptor.start_listening plat epoll_ctl e reuse_addr).
Proof.
  unfold basic_socket_acceptor.start_listening, basic_socket_acceptor.open, basic_socket_acceptor.set_option, basic_socket_acceptor.bind.
  autounfold with object. auto 20 with object.
Qed.

(** *** The system calls of a call that returns *)

Definition syscalls (es : list SocketEffect) : list Syscall :=
  omap (fun e => match e with SysCall c => Some c | _ => None end) es.

Lemma syscalls_app es es' : syscalls (es ++ es') = syscalls es ++ syscalls es'.
Proof. apply omap_app. Qed.

Lemma syscalls_kernel (cs : list Syscall) : syscalls (SysCall <$> cs) = cs.
Proof. induction cs as [|c cs IH]; [done|]. cbn. by f_equal. Qed.

Lemma syscalls_reactor (es : list ReactorEffect) : syscalls (OfReactor <$> es) = [].
Proof. by induction es. Qed.

(** If [m] returns from [b], its system calls are [cs] and the socket is [s]. *)
Definition traced {A} (m : comp (Basic K Q) SocketEffect A) b (cs : list Syscall) (s : Z) : Prop :=
  forall es b' a, m b = (es, b', Ok a) -> syscalls es = cs /\ socket_ (implementation_ b') = s.

Lemma traced_bind {A B} (m : comp (Basic K Q) SocketEffect A) (f : A -> comp (Basic K Q) SocketEffect B) b cs cs' s s' :
  traced m b cs s -> (forall b' a, socket_ (implementation_ b') = s -> traced (f a) b' cs' s') ->
  traced (m ≫= f) b (cs ++ cs') s'.
Proof.
  intros Hm Hf es b' c (es1 & b1 & a & es2 & H1 & H2 & ->)%run_bind_inv. destruct (Hm _ _ _ H1) as [H1' Hs].
  destruct (Hf b1 a Hs _ _ _ H2) as [H2' Hs']. by rewrite syscalls_app, H1', H2'.
Qed.

Lemma traced_throwing m what b cs s : traced m b cs s -> traced (throwing m what) b cs s.
Proof.
  intros Hm. rewrite <- (app_nil_r cs). eapply traced_bind; [exact Hm|]. intros b' ec Hs es b1 [] Hrun.
  unfold throw_error in Hrun. destruct (failed ec); [done|]. by injection Hrun as <- <-.
Qed.

Lemma traced_kernel (m : SocketImpl -> comp (Thread K) Syscall (Z * error_code)) b c :
  (forall t, exists t' r, m (implementation_ b) t = ([c], t', Ok r)) ->
  traced (on_service (fun impl => r ← on_kernel (m impl); mret r.2)) b [c] (socket_ (implementation_ b)).
Proof.
  intros Hm es b' a Hrun. destruct (Hm (thread_ (obj_world b))) as (t' & r & Hrun').
  unfold on_service, on_kernel, mbind, comp_bind in Hrun. rewrite Hrun' in Hrun. by injection Hrun as <- <- _.
Qed.

Lemma simple_calls s c (t : Thread K) : s <> invalid_socket -> exists t' r, socket_ops.simple_call s c t = ([c], t', Ok r).
Proof.
  intros Hs. unfold socket_ops.simple_call. destruct (Z.eqb_spec s invalid_socket); [done|].
  destruct (socket_ops.run_wrapped c (fun r => mret (r.1.1, socket_ops.clear_if (r.1.1 =? 0) r.2)) t) as (r & written & ec & t' & -> & _).
  by eexists _, _.
Qed.

(** A call that fails sets a number for the reason: it does not set it to zero. *)
Definition errors_told : Prop := forall c (k : K) e k', syscall c k = (Failed e, k') -> e <> 0.

Lemma socket_calls af type protocol (t : Thread K) : errors_told -> exists t' r ec,
  socket_ops.socket af type protocol t = ([SysSocket af type protocol], t', Ok (r, ec)) /\
  (r = invalid_socket -> failed ec = true).
Proof.
  intros Herr. unfold socket_ops.socket.
  destruct (socket_ops.run_wrapped (SysSocket af type protocol)
    (fun r => mret (r.1.1, socket_ops.clear_if (0 <=? r.1.1) r.2)) t) as (r & written & ec & t' & -> & Ha).
  eexists _, _, _. split; [done|]. cbn [fst snd]. intros ->.
  destruct Ha as [(e & k' & Hk & _ & _ & -> & _)|(k' & Hk & _)].
  - apply Herr in Hk. change (negb (e =? 0) = true). by destruct (Z.eqb_spec e 0).
  - exfalso. destruct (descriptor_created (SysSocket af type protocol) _ _ _ eq_refl Hk) as [(fd & wr & Hret & _ & Ho & _)|(e & He & _)]; [|done].
    injection Hret as <- _. pose proof (descriptor_nonneg k' invalid_socket) as Hneg. rewrite Ho in Hneg.
    destruct Hneg; [by apply elem_of_union_l, elem_of_singleton|done].
Qed.

Lemma open_calls impl af type protocol w es w' impl' ec : errors_told -> impl_is_open impl = false ->
  do_open epoll_ctl impl af type protocol w = (es, w', Ok (impl', ec)) -> failed ec = false ->
  syscalls es = [SysSocket af type protocol] /\ impl_is_open impl' = true.
Proof.
  intros Herr Hclosed Hrun Hok. unfold do_open in Hrun. rewrite Hclosed in Hrun.
  apply run_bind_inv in Hrun as (es1 & w1 & [fd ec1] & es2 & Hsocket & Hrun & ->).
  destruct (socket_calls af type protocol (thread_ w) Herr) as (t' & fd' & ec' & Hcall & Hfailed).
  unfold on_kernel in Hsocket. rewrite Hcall in Hsocket. injection Hsocket as <- <- -> ->. cbn [fst snd] in Hrun.
  destruct (Z.eqb_spec fd invalid_socket) as [->|Hfd].
  { injection Hrun as _ _ _ <-. by rewrite Hfailed in Hok. }
  apply run_bind_inv in Hrun as (es3 & w3 & [e d] & es4 & Hreg & Hrun & ->). cbn [fst snd] in Hrun.
  unfold on_reactor in Hreg. destruct (register_descriptor epoll_ctl fd _) as [[es5 s5] r5]. injection Hreg as <- _ _.
  destruct (Z.eqb_spec e 0) as [->|He]; cbn [negb] in Hrun.
  - injection Hrun as <- _ <- _. rewrite !syscalls_app, syscalls_reactor. split; [done|].
    unfold impl_is_open. cbn [socket_]. by destruct (Z.eqb_spec fd invalid_socket).
  - apply run_bind_inv in Hrun as (es6 & w6 & [] & es7 & _ & Hret & _). injection Hret as _ _ _ <-.
    change (negb (e =? 0) = false) in Hok. by destruct (Z.eqb_spec e 0).
Qed.

Lemma open_traced protocol b es b' : errors_told -> impl_is_open (implementation_ b) = false ->
  basic_socket.open epoll_ctl protocol b = (es, b', Ok tt) ->
  syscalls es = [SysSocket (tcp_family protocol) SOCK_STREAM IPPROTO_TCP] /\ impl_is_open (implementation_ b') = true.
Proof.
  intros Herr Hclosed (es1 & b1 & ec & es2 & Hopen & Hthrow & ->)%run_bind_inv.
  unfold throw_error in Hthrow. destruct (failed ec) eqn:Hec; [done|]. injection Hthrow as <- <-. rewrite app_nil_r.
  unfold basic_socket.open_ec, update_service in Hopen.
  destruct (do_open epoll_ctl (implementation_ b) _ _ _ _) as [[es3 w3] [[impl' ec']|f]] eqn:Hrun; [|done].
  injection Hopen as <- <- ->. by apply (open_calls _ _ _ _ _ _ _ _ _ Herr Hclosed Hrun Hec).
Qed.

Lemma set_option_traced level name data size b : socket_ (implementation_ b) <> invalid_socket ->
  level <> custom_socket_option_level ->
  traced (basic_socket.set_option level name data size) b
    [SysSetsockopt (socket_ (implementation_ b)) level name data size] (socket_ (implementation_ b)).
Proof.
  intros Hs Hlevel. apply traced_throwing. intros es b' ec Hrun.
  unfold basic_socket.set_option_ec, update_service, set_option, on_kernel, socket_ops.setsockopt in Hrun.
  destruct (Z.eqb_spec (socket_ (implementation_ b)) invalid_socket); [done|].
  destruct (Z.eqb_spec level custom_socket_option_level); [done|]. cbn [andb] in Hrun.
  cbv zeta in Hrun. unfold mbind at 1, comp_bind at 1 in Hrun.
  destruct (socket_ops.run_wrapped (SysSetsockopt (socket_ (implementation_ b)) level name data size)
    (fun r => mret (r.1.1, if (level =? SOL_SOCKET) && (name =? SO_LINGER) then Z.lor (state_ (implementation_ b)) user_set_linger
                          else state_ (implementation_ b), socket_ops.clear_if (r.1.1 =? 0) r.2)) (thread_ (obj_world b)))
    as (r & written & ec0 & t' & Hw & _).
  rewrite Hw in Hrun. by injection Hrun as <- <- _.
Qed.

Lemma listening_traced e reuse_addr b es b' : errors_told -> impl_is_open (implementation_ b) = false ->
  basic_socket_acceptor.start_listening plat epoll_ctl e reuse_addr b = (es, b', Ok tt) ->
  let s := socket_ (implementation_ b') in
  s <> invalid_socket /\
  syscalls es = [SysSocket (tcp_family (protocol_of plat e)) SOCK_STREAM IPPROTO_TCP] ++
    (if reuse_addr then [SysSetsockopt s SOL_SOCKET SO_REUSEADDR [1] 4] else []) ++
    [SysBind s (sockaddr plat e); SysListen s SOMAXCONN].
Proof.
  intros Herr Hclosed (es1 & b1 & [] & es2 & Hopen & Hrest & ->)%run_bind_inv.
  destruct (open_traced _ _ _ _ Herr Hclosed Hopen) as [H1 Hopened].
  assert (socket_ (implementation_ b1) <> invalid_socket) as Hs.
  { unfold impl_is_open in Hopened. by destruct (Z.eqb_spec (socket_ (implementation_ b1)) invalid_socket). }
  set (s := socket_ (implementation_ b1)) in *.
  assert (forall b2, socket_ (implementation_ b2) = s -> forall c what, traced (throwing (on_service (fun impl =>
    r ← on_kernel (socket_ops.simple_call (socket_ impl) (c (socket_ impl))); mret r.2)) what) b2 [c s] s) as Hsimple.
  { intros b2 Hb2 c what. apply traced_throwing. rewrite <- Hb2.
    apply (traced_kernel (fun impl => socket_ops.simple_call (socket_ impl) (c (socket_ impl)))).
    intros t. apply simple_calls. by rewrite Hb2. }
  assert (traced ((if reuse_addr then basic_socket_acceptor.set_option SOL_SOCKET SO_REUSEADDR [1] 4 else mret tt) ;;
    (basic_socket_acceptor.bind plat e ;; (basic_socket_acceptor.listen SOMAXCONN))) b1
    ((if reuse_addr then [SysSetsockopt s SOL_SOCKET SO_REUSEADDR [1] 4] else []) ++
     [SysBind s (sockaddr plat e)] ++ [SysListen s SOMAXCONN]) s) as Htraced.
  { eapply traced_bind.
    - destruct reuse_addr; [by apply set_option_traced|]. intros es3 b3 a Hrun. by injection Hrun as <- <-.
    - intros b2 _ Hb2. eapply traced_bind.
      + apply (Hsimple b2 Hb2 (fun s => SysBind s (sockaddr plat e))).
      + intros b3 _ Hb3. apply (Hsimple b3 Hb3 (fun s => SysListen s SOMAXCONN)). }
  destruct (Htraced _ _ _ Hrest) as [H2 ->]. cbn zeta. by rewrite syscalls_app, H1, H2.
Qed.
End methods.

(** ** Theorems *)

Section theorems.
Context {K : Type} `{!Kernel K, !PatientKernel K, !DescriptorKernel K} {Q : Type} `{!TimerQueueSet Q, !TimerQueueSetOk Q}.
Context (plat : Platform) (perform : nat -> Status) (epoll_ctl : nat -> Z).
Implicit Types (w : World K Q).

Lemma evolves_opened w w' N ND : evolves w w' [] N [] ND ->
  (forall fd, fd ∈ N -> fd ∉ fds w) /\ fds w' = (list_to_set N ∪ fds w).
Proof.
  intros [Hf _ _ _]. rewrite app_nil_r in Hf. split.
  - pose proof (NoDup_elements (fds w')) as Hnd. rewrite Hf in Hnd. apply NoDup_app in Hnd as (_ & Hdisj & _).
    intros fd HN Hfd. by apply (Hdisj fd); [apply elem_of_elements|].
  - apply set_eq. intros fd. rewrite <- elem_of_elements, Hf, elem_of_app, elem_of_elements, elem_of_union, elem_of_list_to_set.
    tauto.
Qed.

Lemma evolves_nothing_opened w w' ND : evolves w w' [] [] [] ND ->
  fds w' = fds w /\ forall fd, fd ∈ fds w -> fd ∈ modes w -> fd ∈ modes w'.
Proof.
  intros Hev. destruct (evolves_opened _ _ _ _ Hev) as [_ ->]. split; [apply union_empty_l_L|].
  intros fd Hfd. apply (ev_modes _ _ _ _ _ _ Hev); [done|]. apply not_elem_of_nil.
Qed.

(** C32. An acceptor listens when its constructor returns: it then owns one new
    descriptor, for which the kernel was asked, in this order, for a socket of the
    end point's protocol, for the reuse of the address if that was wanted, to bind it
    to the end point and to listen; or the constructor throws [std::system_error], and
    every descriptor that is open was open before. *)
Theorem acceptor_opens_or_leaves_nothing w e reuse_addr : reactor_ok (reactor_ w) -> errors_told (K := K) ->
  exists es w' r, basic_socket_acceptor.construct_listening plat epoll_ctl e reuse_addr w = (es, w', r) /\
  match r with
  | Ok impl =>
      impl_is_open impl = true /\ (socket_ impl ∉ fds w) /\ fds w' = ({[socket_ impl]} ∪ fds w) /\
      syscalls es = [SysSocket (tcp_family (protocol_of plat e)) SOCK_STREAM IPPROTO_TCP] ++
        (if reuse_addr then [SysSetsockopt (socket_ impl) SOL_SOCKET SO_REUSEADDR [1] 4] else []) ++
        [SysBind (socket_ impl) (sockaddr plat e); SysListen (socket_ impl) SOMAXCONN]
  | Err (SystemError _) => fds w' = fds w
  | Err _ => False
  end.
Proof.
  intros Hr Herr. destruct (constructed_object epoll_ctl _ w (listening_keeps plat epoll_ctl e reuse_addr) Hr)
    as (es & w' & r & Hrun & Hends).
  exists es, w', r. split; [exact Hrun|]. destruct r as [impl|[]]; try done.
  2: { destruct Hends as [leak Hev]. apply (evolves_nothing_opened _ _ _ Hev). }
  apply run_bind_inv in Hrun as (es1 & w1 & [impl1 []] & es2 & Hrun & Hret & ->). injection Hret as <- <- <-. rewrite app_nil_r.
  unfold guard_object in Hrun.
  destruct (basic_socket_acceptor.start_listening plat epoll_ctl e reuse_addr (mkBasic w new_impl))
    as [[es3 b1] [[]|f]] eqn:Hlisten; [|by destruct (destroy epoll_ctl _ _) as [[? ?] []]].
  injection Hrun as -> <- <-. destruct (listening_traced plat epoll_ctl e reuse_addr (mkBasic w new_impl) _ _ Herr eq_refl Hlisten) as [Hs Hcalls].
  assert (impl_is_open (implementation_ b1) = true) as Hopen.
  { unfold impl_is_open. by destruct (Z.eqb_spec (socket_ (implementation_ b1)) invalid_socket). }
  destruct Hends as [_ [leak Hev]]. cbn [obj_world implementation_] in Hev. unfold impl_fds in Hev. rewrite Hopen in Hev.
  destruct (evolves_opened _ _ _ _ Hev) as [Hnew ->]. split; [done|]. split; [apply Hnew; by left|]. split; [|done].
  cbn [list_to_set]. by rewrite union_empty_r_L.
Qed.

(** A program may call the methods of a socket or an acceptor in any order and on
    any arguments, open or closed, and catch what they throw: they throw nothing but
    [std::system_error], the object's descriptor is the only one that is new, and
    once the object is destroyed the open descriptors are those of the start, none of
    which left its non-blocking mode. *)
Theorem methods_keep_descriptors cs w : reactor_ok (reactor_ w) ->
  exists es b es' w', use_object plat perform epoll_ctl cs (mkBasic w new_impl) = (es, b, Ok tt) /\
  fds (obj_world b) = (list_to_set (impl_fds (implementation_ b)) ∪ fds w) /\
  (forall fd, fd ∈ impl_fds (implementation_ b) -> fd ∉ fds w) /\
  destroy_object epoll_ctl (implementation_ b) (obj_world b) = (es', w', Ok tt) /\
  fds w' = fds w /\ forall fd, fd ∈ fds w -> fd ∈ modes w -> fd ∈ modes w'.
Proof.
  intros Hr. destruct (use_object_keeps plat perform epoll_ctl cs w _ (tracked_start w Hr)) as (es & b & [] & Hrun & Hb).
  destruct (destroyed_object epoll_ctl w b Hb) as (es' & w' & [] & Hdestroy & leak & Hev).
  destruct Hb as [_ [leak0 Hev0]]. destruct (evolves_opened _ _ _ _ Hev0) as [Hnew Hfds].
  exists es, b, es', w'. split; [done|]. split; [done|]. split; [done|]. split; [done|].
  by apply (evolves_nothing_opened _ _ leak).
Qed.

(** The synchronous [accept] gives its caller a socket of a new descriptor, or
    throws and closes what it got. *)
Theorem accept_gives_or_closes b : reactor_ok (reactor_ (obj_world b)) ->
  ends (basic_socket_acceptor.accept epoll_ctl) b
    (fun peer b' => implementation_ b' = implementation_ b /\ impl_ok (obj_world b') peer /\
      fds (obj_world b') = (list_to_set (impl_fds peer) ∪ fds (obj_world b)) /\
      forall fd, fd ∈ impl_fds peer -> fd ∉ fds (obj_world b))
    (fun b' => implementation_ b' = implementation_ b /\ fds (obj_world b') = fds (obj_world b)).
Proof.
  intros Hr. set (w := obj_world b). set (impl := implementation_ b).
  assert (impl_in w new_impl) as Hin by apply (tracked_in w (mkBasic w new_impl)), tracked_start, Hr.
  destruct (accept_ok epoll_ctl (S (patience (kernel_ (thread_ w)))) w impl SOCK_STREAM new_impl None Hin (Nat.lt_succ_diag_r _))
    as (es & w1 & [peer ec] & Hrun & [leak Hev] & Hok). cbn [fst snd] in *.
  assert (tracked w (mkBasic w1 peer)) as Hpeer by (split; [done|by exists leak]).
  apply ends_bind with (Φ := fun r b' => r = (peer, ec) /\ b' = mkBasic w1 impl).
  { exists es, (mkBasic w1 impl), (Ok (peer, ec)). split; [|done].
    unfold basic_socket_acceptor.accept_ec, patient_fuel. rewrite run_get. unfold on_service. fold w impl. by rewrite Hrun. }
  intros ? ? [-> ->]. cbn [fst snd]. destruct (failed ec).
  - destruct (destroyed epoll_ctl w _ Hpeer) as (es1 & w2 & impl2 & Hd & leak' & Hev').
    cbn [obj_world implementation_] in Hd.
    apply ends_bind with (Φ := fun _ b' => b' = mkBasic w2 impl).
    { exists es1, (mkBasic w2 impl), (Ok impl2). split; [|done]. unfold on_service. cbn [obj_world implementation_]. by rewrite Hd. }
    intros _ ? ->. apply ends_throw. split; [done|]. apply (evolves_nothing_opened _ _ _ Hev').
  - apply ends_ret. destruct (evolves_opened _ _ _ _ Hev) as [Hnew Hfds]. done.
Qed.
End theorems.

(** ** Examples *)

#[local] Existing Instance no_clock_set.
#[local] Existing Instance no_clock_timers.

Lemma table_errors_told : errors_told (K := Table).
Proof.
  intros c k e k' Hrun. destruct c; cbn in Hrun; try done;
    try (destruct (free_fd k); [done|]); injection Hrun as <- _; done.
Qed.

(** The server of the examples, on port 9990 of this machine. *)
Definition loopback_9990 : endpoint.t := endpoint.from_address x86_64 localhost 9990.

Lemma acceptor_opens_or_leaves_nothing_witness : exists es w' impl,
  basic_socket_acceptor.construct_listening x86_64 (fun _ => 0) loopback_9990 true nothing_open = (es, w', Ok impl) /\
  fds w' = {[3]} /\
  syscalls es = [SysSocket 2 SOCK_STREAM 6; SysSetsockopt 3 SOL_SOCKET SO_REUSEADDR [1] 4;
    SysBind 3 [2; 0; 39; 6; 127; 0; 0; 1; 0; 0; 0; 0; 0; 0; 0; 0]; SysListen 3 128].
Proof.
  destruct (acceptor_opens_or_leaves_nothing x86_64 (fun _ => 0) nothing_open loopback_9990 true
    (example_reactor_ok [1; 2]%nat [3]%nat) table_errors_told) as (es & w' & r & Hrun & Hr).
  assert (exists impl, r = Ok impl /\ socket_ impl = 3) as (impl & -> & Hs).
  { vm_compute in Hrun. injection Hrun as _ _ <-. by eexists. }
  exists es, w', impl. split; [exact Hrun|]. destruct Hr as (_ & _ & -> & ->). rewrite Hs. by vm_compute.
Defined.

(** Binding a closed socket throws, and so does opening one twice; the descriptor is
    closed all the same. *)
Lemma methods_keep_descriptors_witness : exists es b es' w',
  use_object x86_64 example_perform (fun _ => 0) [MBind loopback_9990; MOpen tcp_v4; MOpen tcp_v4; MNonBlocking true]
    (mkBasic nothing_open new_impl) = (es, b, Ok tt) /\ fds (obj_world b) = {[3]} /\
  destroy_object (fun _ => 0) (implementation_ b) (obj_world b) = (es', w', Ok tt) /\ fds w' = ∅.
Proof.
  destruct (methods_keep_descriptors x86_64 example_perform (fun _ => 0)
    [MBind loopback_9990; MOpen tcp_v4; MOpen tcp_v4; MNonBlocking true] nothing_open
    (example_reactor_ok [1; 2]%nat [3]%nat)) as (es & b & es' & w' & Hrun & Hfds & _ & Hd & Hw' & _).
  exists es, b, es', w'. split; [done|]. split; [|split; [done|by rewrite Hw'; vm_compute]].
  rewrite Hfds. vm_compute in Hrun. injection Hrun as _ <-. by vm_compute.
Defined.
