(* ===== verification/ServerSockets.v ===== *)
(** * The server and its sockets

    The handler of [Server::accept] (Node.v) together with the socket classes it runs
    on (AsioBasicSocket.v): the descriptor of an accepted connection travels from the
    operation through the sockets that are passed by value into the
    [ServerConnection].  [handle_accept] is the completion of one accept as the library
    and asio run it; the theorem says where the descriptor is afterwards, and that the
    handler does one of the three things of [Node.on_accept]. *)
From S2P Require Import Prelude NetworkUtil NodeCommon Node AsioScheduler AsioReactor AsioAddress AsioTimerQueue AsioTimerSet.
From S2P Require Import AsioSocketOps AsioSocketStream AsioDescriptors AsioSocketService AsioSocketObjects AsioSocketSystem AsioBasicSocket.
Local Open Scope Z_scope.

(** ** The handler *)

Section handler.
Context {K : Type} `{!Kernel K, !PatientKernel K} {Q : Type} `{!TimerQueueSet Q}.
Context (plat : Platform) (epoll_ctl : nat -> Z) (address_to_string : address -> string).

Local Abbreviation W := (comp (World K Q) SocketEffect).

(** A socket that is passed by value is moved; what is left of it is destroyed. *)
Definition pass_on (soc : SocketImpl) : W SocketImpl :=
  r ← base_move_construct soc; destroy_object epoll_ctl r.2 ;; (mret r.1).

(** [ServerConnection::ServerConnection]: the member is destroyed if
    [remote_endpoint] throws. *)
Definition construct_connection (soc : SocketImpl) : W (SocketImpl * EndPoint) :=
  socket ← pass_on soc;
  guard_object epoll_ctl socket
    (ep ← basic_socket.remote_endpoint plat;
     mret (mkEndPoint (address_to_string (endpoint.get_address plat ep)) (endpoint.port ep))).

(** The completion of an accept: the socket of the operation moves into the bound
    handler, into the handler's parameter and into the parameter of the constructor;
    without a new connection, and with it the handler's socket goes. *)
Definition handle_accept (o : accept_op) : W (option (SocketImpl * EndPoint)) :=
  r ← complete_accept epoll_ctl true o SOCK_STREAM new_impl;
  soc ← pass_on r.1;
  soc ← pass_on soc;
  if failed r.2 then destroy_object epoll_ctl soc ;; (mret None)
  else soc ← pass_on soc; c ← construct_connection soc; mret (Some c).

(** What the server sees of it. *)
Definition accept_outcome (r : result (option (SocketImpl * EndPoint))) : option AcceptOutcome :=
  match r with
  | Ok None => Some NotAccepted
  | Ok (Some c) => Some (Accepted (Ok c.2))
  | Err (SystemError what) => Some (Accepted (Err (SystemError what)))
  | Err _ => None
  end.

(** A server, the world it runs in and the sockets of its connections. *)
Record Serving := mkServing { net_ : World K Q; server_ : Server; sockets_ : list SocketImpl }.

Definition serve_accept (o : accept_op) : comp Serving (SocketEffect + ServerRequest) unit := fun v =>
  let '(es, w, r) := handle_accept o (net_ v) in
  match accept_outcome r with
  | Some a =>
      let '(rs, s, r') := in_loop (on_accept a) (server_ v) in
      ((inl <$> es) ++ (inr <$> rs),
       mkServing w s (sockets_ v ++ match r with Ok (Some c) => [c.1] | _ => [] end), r')
  | None => (inl <$> es, mkServing w (server_ v) (sockets_ v), match r with Ok _ => Ok tt | Err f => Err f end)
  end.

End handler.
Arguments mkServing {K Q} _ _ _.
Arguments net_ {K Q} _.
Arguments server_ {K Q} _.
Arguments sockets_ {K Q} _.

(** ** Where the descriptor goes *)

Section facts.
Context {K : Type} `{!Kernel K, !PatientKernel K, !DescriptorKernel K} {Q : Type} `{!TimerQueueSet Q, !TimerQueueSetOk Q}.
Context (plat : Platform) (epoll_ctl : nat -> Z) (address_to_string : address -> string).
Implicit Types (w : World K Q) (soc : SocketImpl).

(** Passing a socket on changes nothing but its place. *)
Lemma pass_on_run soc w : reactor_data_ soc <> None -> pass_on epoll_ctl soc w = ([], w, Ok soc).
Proof. intros Hdata. destruct soc as [s st [d|]]; [|done]. reflexivity. Qed.

(** A socket has taken the descriptor [fd], and may be moved; it takes nothing of
    what was in the reactor. *)
Definition took w (fd : Z) soc w' : Prop :=
  impl_ok w' soc /\ reactor_data_ soc <> None /\ impl_fds soc = [fd] /\
  exists leak, evolves w w' [fd] [fd] [] (impl_data soc ++ leak).

(** The descriptor [fd] is closed. *)
Definition lost w (fd : Z) w' : Prop := exists leak, evolves w w' [fd] [] [] leak.

Lemma took_in w fd soc w' : fd ∈ fds w -> took w fd soc w' -> impl_in w' soc.
Proof.
  intros Hfd (Hok & _ & Hfds & leak & Hev). split; [done|apply Hev|..].
  - rewrite Hfds. intros x Hx%list_elem_of_singleton. subst x. apply elem_of_elements.
    pose proof (ev_fds _ _ _ _ _ _ Hev) as Hp. apply Permutation_app_inv_r in Hp. rewrite Hp.
    by apply elem_of_elements.
  - intros d Hd. pose proof (ev_live _ _ _ _ _ _ Hev) as Hp. rewrite app_nil_r in Hp. rewrite Hp, !elem_of_app. tauto.
Qed.

Lemma took_quiet w fd soc w1 w2 : took w fd soc w1 -> same_fds (kernel_ (thread_ w1)) (kernel_ (thread_ w2)) ->
  reactor_ w2 = reactor_ w1 -> took w fd soc w2.
Proof.
  intros (Hok & Hdata & Hfds & leak & Hev) Hsame Hr. split; [by apply (impl_ok_same w1)|]. split; [done|]. split; [done|].
  exists leak. apply (evolves_then w w1 w2); [done|]. apply evolves_same; [apply Hev|done|done].
Qed.

Lemma took_destroyed w fd soc w1 : fd ∈ fds w -> took w fd soc w1 ->
  returns (destroy epoll_ctl soc) w1 (fun _ w' => lost w fd w').
Proof.
  intros Hfd Ht. pose proof (took_in _ _ _ _ Hfd Ht) as Hin. destruct Ht as (_ & _ & Hfds & leak & Hev).
  eapply returns_impl; [by apply destroy_ok|]. cbn beta. intros _ w' [leak' Hev']. rewrite Hfds in Hev'.
  exists (leak' ++ leak). eapply evolves_trans; [exact Hev|]. by apply (evolves_frame_data w1 w' [fd] []).
Qed.

(** The constructor asks for the address of the peer. *)
Definition ask_peer : comp (Basic K Q) SocketEffect EndPoint :=
  ep ← basic_socket.remote_endpoint plat;
  mret (mkEndPoint (address_to_string (endpoint.get_address plat ep)) (endpoint.port ep)).

Lemma peer_asked w fd soc w1 : took w fd soc w1 ->
  ends ask_peer (mkBasic w1 soc) (fun _ b' => implementation_ b' = soc /\ took w fd soc (obj_world b'))
    (fun b' => implementation_ b' = soc /\ took w fd soc (obj_world b')).
Proof.
  intros Ht. apply ends_bind with (Φ := fun _ b' => implementation_ b' = soc /\ took w fd soc (obj_world b'));
    [|intros ep b' Hb'; by apply ends_ret].
  apply ends_bind with (Φ := fun _ b' => implementation_ b' = soc /\ took w fd soc (obj_world b')).
  - destruct (name_endpoint_quiet plat socket_ops.getpeername w1 soc) as (es & w' & r & Hrun & Hq);
      [intros; by apply harmless_name_call|].
    exists es, (mkBasic w' soc), r. split.
    + unfold basic_socket.remote_endpoint_ec, on_service, service_remote_endpoint. cbn [implementation_ obj_world]. by rewrite Hrun.
    + destruct r as [a|[]]; try done; destruct Hq as [Hsame Hr]; (split; [done|]); by apply (took_quiet w fd soc w1).
  - intros [ep ec] b' Hb'. cbn [fst snd]. apply ends_bind with (Φ := fun _ => eq b').
    + unfold throw_error. destruct (failed ec); [by apply ends_throw|by apply ends_ret].
    + intros _ ? <-. by apply ends_ret.
Qed.

(** The constructor of the connection keeps the descriptor, or closes it. *)
Lemma connection_constructed w fd soc w1 : fd ∈ fds w -> took w fd soc w1 ->
  ends (construct_connection plat epoll_ctl address_to_string soc) w1
    (fun c w' => c.1 = soc /\ took w fd soc w') (lost w fd).
Proof.
  intros Hfd Ht. unfold construct_connection. apply ends_bind with (Φ := fun socket w' => socket = soc /\ w' = w1).
  { apply ends_returns. eexists _, _, _. split; [apply pass_on_run, Ht|done]. }
  intros ? ? [-> ->]. fold ask_peer. destruct (peer_asked _ _ _ _ Ht) as (es & b & r & Hrun & Hends).
  unfold ends, guard_object. rewrite Hrun. destruct r as [ep|[]]; try done.
  - destruct Hends as [Himpl Hb]. eexists _, _, _. split; [done|]. by split.
  - destruct Hends as [Himpl Hb]. rewrite Himpl. destruct (took_destroyed _ _ _ _ Hfd Hb) as (es' & w' & impl & Hd & Hl).
    rewrite Hd. by eexists _, _, _.
Qed.

(** *** What is thrown *)

(** [m] throws the errors of [Ts] only. *)
Definition throws_in {St E A} (m : comp St E A) (s : St) (Ts : string -> Prop) : Prop :=
  forall es s' what, m s = (es, s', Err (SystemError what)) -> Ts what.

Lemma throws_in_bind {St E A B} (m : comp St E A) (f : A -> comp St E B) s Ts :
  throws_in m s Ts -> (forall a s', throws_in (f a) s' Ts) -> throws_in (m ≫= f) s Ts.
Proof.
  intros Hm Hf es s' what. unfold mbind, comp_bind. destruct (m s) as [[es1 s1] [a|f1]] eqn:Hrun.
  - destruct (f a s1) as [[es2 s2] r] eqn:Hrun'. intros [= _ _ ->]. by eapply Hf.
  - intros [= <- <- ->]. by eapply Hm.
Qed.

Lemma throws_in_run {St E A B} (m : comp St E A) (f : A -> comp St E B) s es s' a Ts :
  m s = (es, s', Ok a) -> throws_in (f a) s' Ts -> throws_in (m ≫= f) s Ts.
Proof.
  intros Hm Hf es1 s1 what. rewrite (run_bind_ok _ _ _ _ _ _ Hm).
  destruct (f a s') as [[es2 s2] r] eqn:Hrun. intros [= _ _ ->]. by eapply Hf.
Qed.

Lemma throws_in_returns {St E A} (m : comp St E A) s Φ Ts : returns m s Φ -> throws_in m s Ts.
Proof. intros (es & s' & a & Hm & _) es1 s1 what. by rewrite Hm. Qed.

(** The call fails, or gives an address that is too long for an end point. *)
Definition peer_errors : list string := ["remote_endpoint"; "Invalid argument"]%string.

Lemma ask_peer_throws b : throws_in ask_peer b (.∈ peer_errors).
Proof.
  apply throws_in_bind; [apply throws_in_bind|by intros ep b' ?].
  - intros es b' what. unfold basic_socket.remote_endpoint_ec, on_service, service_remote_endpoint, name_endpoint.
    destruct (plain_kernel (obj_world b) (socket_ops.getpeername (socket_ (implementation_ b)) (endpoint.default plat)))
      as (es1 & w1 & [[[result addr] addr_len] ec] & Hrun & _); [by apply harmless_name_call|].
    rewrite (run_bind_ok _ _ _ _ _ _ Hrun). destruct (negb _); [done|]. destruct (endpoint.resize addr_len); [done|].
    cbn. intros [= _ _ <-]. right. left.
  - intros [ep ec] b'. apply throws_in_bind; [|done]. unfold throw_error. destruct (failed _); [|done].
    intros es b1 what [= _ _ <-]. left.
Qed.

Lemma connection_throws w fd soc w1 : fd ∈ fds w -> took w fd soc w1 ->
  throws_in (construct_connection plat epoll_ctl address_to_string soc) w1 (.∈ peer_errors).
Proof.
  intros Hfd Ht. eapply throws_in_run; [apply pass_on_run, Ht|]. fold ask_peer. intros es w' what. unfold guard_object.
  pose proof (ask_peer_throws (mkBasic w1 soc)) as Hthrows.
  destruct (peer_asked _ _ _ _ Ht) as (es1 & b & r & Hrun & Hends). rewrite Hrun. destruct r as [ep|f]; [done|].
  destruct f; try done. destruct Hends as [Himpl Hb]. rewrite Himpl.
  destruct (took_destroyed _ _ _ _ Hfd Hb) as (es2 & w2 & impl & Hd & _). rewrite Hd. intros [= _ _ <-]. by eapply Hthrows.
Qed.

(** *** The completion *)

Lemma closed_data impl : impl_fds impl = [] -> impl_data impl = [].
Proof. unfold impl_fds, impl_data. by destruct (impl_is_open impl). Qed.

Lemma assign_sets_data impl type native w es w' r : impl_is_open impl = false ->
  do_assign epoll_ctl impl type native w = (es, w', Ok r) -> reactor_data_ r.1 <> None.
Proof.
  intros Hclosed Hrun. unfold do_assign in Hrun. rewrite Hclosed in Hrun.
  apply run_bind_inv in Hrun as (es1 & w1 & [e d] & es2 & _ & Hrun & _). cbn [fst snd] in Hrun.
  by destruct (negb (e =? 0)); injection Hrun as _ _ <-.
Qed.

Lemma returns_also {S E A} (m : comp S E A) s (Φ Ψ : A -> S -> Prop) :
  returns m s Φ -> (forall es s' a, m s = (es, s', Ok a) -> Ψ a s') -> returns m s (fun a s' => Φ a s' /\ Ψ a s').
Proof. intros (es & s' & a & Hm & HΦ) HΨ. exists es, s', a. eauto. Qed.

(** The socket of the operation takes the new descriptor, or it is closed. *)
Lemma accept_completed w o fd : reactor_ok (reactor_ w) -> op_fds o = [fd] -> fd ∈ fds w ->
  returns (complete_accept epoll_ctl true o SOCK_STREAM new_impl) w (fun r w' => reactor_data_ r.1 <> None /\
    if failed r.2 then impl_in w' r.1 /\ impl_fds r.1 = [] /\ lost w fd w' else took w fd r.1 w').
Proof.
  intros Hr Ho Hfd. assert (new_socket_ o = fd /\ fd <> invalid_socket) as [Hs Hne].
  { unfold op_fds in Ho. destruct (Z.eqb_spec (new_socket_ o) invalid_socket); [done|]. by injection Ho as <-. }
  pose proof (tracked_in w _ (tracked_start w Hr)) as Hin. cbn [obj_world implementation_] in Hin.
  unfold complete_accept. rewrite Hs. destruct (Z.eqb_spec fd invalid_socket); [done|]. cbn [andb negb].
  eapply returns_bind; [apply returns_also; [apply (assign_ok epoll_ctl w new_impl SOCK_STREAM fd Hin Hne)|]|].
  { intros es w' r Hrun. exact (assign_sets_data new_impl SOCK_STREAM fd w es w' r eq_refl Hrun). }
  cbn beta. intros a w1 [([leak Hev] & Ht & Hok & Hfds) Hdata]. destruct (failed a.2) eqn:Hfailed; cbn [when].
  - cbn in Hfds. eapply returns_bind; [apply (holder_destroyed w1 fd); [unfold fds; by rewrite Ht|apply Hev]|].
    cbn beta. intros _ w2 Hev2. apply returns_ret. rewrite Hfailed. split; [done|].
    rewrite (closed_data a.1 Hfds) in Hev. assert (lost w fd w2) as Hlost.
    { exists leak. apply (evolves_trans w w1 w2 [fd] [fd] [] [] leak leak).
      - by apply (evolves_frame_fds w w1 [] [] [] leak [fd]).
      - by apply (evolves_frame_data w1 w2 [fd] [] [] [] leak). }
    split; [|done]. destruct Hlost as [leak' Hlost]. split.
    + destruct Hok as [Hrange Hok]. split; [done|]. unfold impl_fds in Hfds. by destruct (impl_is_open a.1).
    + apply Hlost.
    + rewrite Hfds. by intros ? ?%not_elem_of_nil.
    + rewrite (closed_data a.1 Hfds). by intros ? ?%not_elem_of_nil.
  - destruct Hfds as [_ Hfds]. eapply returns_run; [reflexivity|]. apply returns_ret. rewrite Hfailed.
    split; [done|]. split; [done|]. split; [done|]. split; [done|]. exists leak.
    by apply (evolves_frame_fds w w1 [] [] [] _ [fd]).
Qed.

(** The handler: a connection owns the descriptor, or it is closed. *)
Lemma accept_handled w o fd : reactor_ok (reactor_ w) -> op_fds o = [fd] -> fd ∈ fds w ->
  ends (handle_accept plat epoll_ctl address_to_string o) w
    (fun r w' => match r with Some c => took w fd c.1 w' | None => lost w fd w' end) (lost w fd).
Proof.
  intros Hr Ho Hfd. unfold handle_accept. eapply ends_bind; [apply ends_returns; by apply (accept_completed w o fd)|].
  cbn beta. intros [soc ec] w1 [Hdata Hec]. cbn [fst snd] in *.
  do 2 (eapply ends_run; [by apply pass_on_run|]). destruct (failed ec).
  - destruct Hec as (Hin & Hfds & leak & Hlost). apply ends_returns. eapply returns_bind.
    { unfold destroy_object. eapply returns_bind; [by apply destroy_ok|]. intros impl w' Hw'.
      apply returns_ret with (Φ := fun _ w' => exists leak, evolves w1 w' (impl_fds soc) [] (impl_data soc) leak). exact Hw'. }
    cbn beta. intros _ w' [leak' Hev]. apply returns_ret. rewrite Hfds, (closed_data _ Hfds) in Hev. exists (leak' ++ leak).
    eapply evolves_trans; [exact Hlost|]. by apply (evolves_frame_data w1 w' [] [] [] leak' leak).
  - eapply ends_run; [by apply pass_on_run|]. eapply ends_bind; [by apply connection_constructed|]. intros c w' [Hc Ht]. apply ends_ret. by rewrite Hc.
Qed.

Lemma accept_throws w o fd : reactor_ok (reactor_ w) -> op_fds o = [fd] -> fd ∈ fds w ->
  throws_in (handle_accept plat epoll_ctl address_to_string o) w (.∈ peer_errors).
Proof.
  intros Hr Ho Hfd. destruct (accept_completed w o fd Hr Ho Hfd) as (es1 & w1 & [soc ec] & Hrun & Hdata & Hec).
  unfold handle_accept. eapply throws_in_run; [exact Hrun|]. cbn [fst snd] in *.
  do 2 (eapply throws_in_run; [by apply pass_on_run|]). destruct (failed ec).
  - destruct Hec as (Hin & _). apply throws_in_bind; [|done].
    apply throws_in_bind; [|done]. by eapply throws_in_returns, destroy_ok.
  - eapply throws_in_run; [by apply pass_on_run|]. apply throws_in_bind; [|done].
    by apply (connection_throws w fd).
Qed.

(** *** The connections of a server *)

Lemma took_fds w fd soc w' : took w fd soc w' -> fds w' = fds w.
Proof.
  intros (_ & _ & _ & leak & [Hf _ _ _]). apply Permutation_app_inv_r in Hf. apply set_eq. intros x.
  by rewrite <- !elem_of_elements, Hf.
Qed.

Lemma lost_fds w fd w' : lost w fd w' -> fds w' = (fds w ∖ {[fd]}).
Proof.
  intros [leak [Hf _ _ _]]. rewrite app_nil_r in Hf. pose proof (NoDup_elements (fds w)) as Hnd.
  rewrite <- Hf in Hnd. apply NoDup_app in Hnd as (_ & Hdisj & _). apply set_eq. intros x.
  rewrite elem_of_difference, elem_of_singleton, <- !(elem_of_elements (fds _)), <- Hf, elem_of_app, list_elem_of_singleton.
  split; [|tauto]. intros Hx. split; [by left|]. intros ->. apply (Hdisj fd Hx). by left.
Qed.

(** Every connection has an open socket of its own. *)
Record serving_ok (v : Serving (K := K) (Q := Q)) : Prop := {
  sv_reactor : reactor_ok (reactor_ (net_ v));
  sv_connections : length (accepted (server_ v)) = length (sockets_ v);
  sv_sockets : Forall (impl_in (net_ v)) (sockets_ v);
  sv_owned : NoDup (mjoin (impl_fds <$> sockets_ v));
}.

Lemma other_socket w w' fd N ND soc : evolves w w' [fd] N [] ND -> impl_in w soc -> fd ∉ impl_fds soc -> impl_in w' soc.
Proof.
  intros Hev Hin Hne. assert (forall x, x ∈ impl_fds soc -> x ∈ fds w /\ x ∉ [fd]) as Hfds.
  { intros x Hx. split; [by apply (ii_fds _ _ Hin)|]. intros Hxfd%list_elem_of_singleton. by subst x. }
  split; [by apply (impl_ok_evolves w w' _ _ _ _ _ Hev), Hfds; apply Hin|apply Hev|..].
  - intros x Hx. destruct (Hfds x Hx) as [Hxw Hxfd]. apply elem_of_elements.
    apply elem_of_elements in Hxw.
    by apply (stays (elements (fds w)) _ [fd] N x (NoDup_elements _) (ev_fds _ _ _ _ _ _ Hev) Hxw Hxfd).
  - intros d Hd. pose proof (ev_live _ _ _ _ _ _ Hev) as Hl. rewrite app_nil_r in Hl. rewrite Hl.
    apply elem_of_app. left. by apply (ii_data _ _ Hin).
Qed.

Lemma other_sockets w w' fd N ND l : evolves w w' [fd] N [] ND -> Forall (impl_in w) l ->
  (fd ∉ mjoin (impl_fds <$> l)) -> Forall (impl_in w') l.
Proof.
  intros Hev Hl Hfd. apply Forall_forall. intros soc Hsoc. rewrite Forall_forall in Hl.
  apply (other_socket w w' fd N ND soc Hev (Hl soc Hsoc)). intros Hin. apply Hfd.
  apply list_elem_of_join. exists (impl_fds soc). split; [done|]. by apply list_elem_of_fmap_2.
Qed.

(** C33. A descriptor that was accepted has one owner.  When an accept of the server
    completes with a new descriptor, the handler does one of three things: it adds a
    connection, whose socket owns the descriptor, and awaits the next one; it closes the
    descriptor, as the reactor did not take it, and awaits the next one; or it closes
    the descriptor and throws, as the address of the peer could not be had, which ends
    the event loop: nothing awaits a connection any more.  In every case each
    connection of the server keeps an open socket of its own. *)
Theorem accepted_descriptor_has_one_owner v o fd : serving_ok v -> op_fds o = [fd] -> fd ∈ fds (net_ v) ->
  (fd ∉ mjoin (impl_fds <$> sockets_ v)) ->
  exists es v' r, serve_accept plat epoll_ctl address_to_string o v = (es, v', r) /\ serving_ok v' /\
  ((exists soc, sockets_ v' = sockets_ v ++ [soc] /\ impl_fds soc = [fd] /\ fds (net_ v') = fds (net_ v) /\
      r = Ok tt /\ inr AsyncAccept ∈ es) \/
   (sockets_ v' = sockets_ v /\ fds (net_ v') = (fds (net_ v) ∖ {[fd]}) /\
      ((r = Ok tt /\ inr AsyncAccept ∈ es) \/
       (exists what, what ∈ peer_errors /\ r = Err (SystemError what) /\ start_flag_ (server_ v') = false /\
        inr AsyncAccept ∉ es)))).
Proof.
  intros [Hr Hlen Hsockets Hnd] Ho Hfd Hnew.
  destruct (accept_handled (net_ v) o fd Hr Ho Hfd) as (es & w & r & Hrun & Hends).
  pose proof (accept_throws (net_ v) o fd Hr Ho Hfd) as Hthrows.
  unfold serve_accept. rewrite Hrun. destruct r as [[[soc ep]|]|f]; cbn [accept_outcome fst snd].
  - rewrite accept_made. pose proof (took_fds _ _ _ _ Hends) as Hfds. pose proof (took_in _ _ _ _ Hfd Hends) as Hin.
    destruct Hends as (_ & _ & Hsoc & leak & Hev). cbn [fst] in *.
    eexists _, _, _. split; [done|]. cbn [net_ server_ sockets_ accepted]. split.
    + split; cbn [net_ server_ sockets_ accepted]; [apply Hev|by rewrite !length_app, Hlen|..].
      * apply Forall_app. split; [by apply (other_sockets _ _ _ _ _ _ Hev)|by constructor].
      * rewrite fmap_app, join_app. cbn. rewrite Hsoc. apply NoDup_app. split; [done|].
        split; [|cbn; apply NoDup_singleton]. intros x Hx Hx'%list_elem_of_singleton. by subst x.
    + left. exists soc. split; [done|]. split; [done|]. split; [done|]. split; [done|].
      apply elem_of_app. right. apply list_elem_of_fmap_2. by left.
  - rewrite accept_refused. eexists _, _, _. split; [done|]. cbn [net_ server_ sockets_ accepted]. rewrite app_nil_r. split.
    + destruct Hends as [leak Hev]. split; cbn [net_ server_ sockets_]; [apply Hev|done|by apply (other_sockets _ _ _ _ _ _ Hev)|done].
    + right. split; [done|]. split; [by apply lost_fds|]. left. split; [done|]. apply elem_of_app. right. by left.
  - destruct f as [| | | |what|]; try done. rewrite accept_thrown. eexists _, _, _. split; [done|]. cbn [net_ server_ sockets_ accepted]. rewrite app_nil_r. split.
    + destruct Hends as [leak Hev]. split; cbn [net_ server_ sockets_]; [apply Hev|done|by apply (other_sockets _ _ _ _ _ _ Hev)|done].
    + right. split; [done|]. split; [by apply lost_fds|]. right. exists what. split_and!; [by eapply Hthrows|done|done|].
      rewrite app_nil_r. by intros (x & ? & _)%list_elem_of_fmap.
Qed.

(** An accept that failed hands a socket on that was never opened: the move copies a
    pointer that nobody has written. *)
Theorem failed_accept_copies_indeterminate_pointer w o : op_fds o = [] ->
  handle_accept plat epoll_ctl address_to_string o w = ([], w, Err (UndefinedBehaviour "indeterminate pointer")).
Proof.
  unfold op_fds, handle_accept, complete_accept, holder_destroy.
  destruct (Z.eqb_spec (new_socket_ o) invalid_socket) as [->|]; [|done]. by destruct w.
Qed.
End facts.

(** ** Example *)

#[local] Existing Instance no_clock_set.
#[local] Existing Instance no_clock_timers.

(** A server that listens on descriptor 3 and has just been given descriptor 4. *)
Definition two_open : World Table TimerSet :=
  mkWorld (mkThread 0 (mkTable {[3; 4]} {[3]})) (example_reactor [1; 2] [3])%nat.

Definition idle_server : Serving (K := Table) (Q := TimerSet) :=
  mkServing two_open (mkServer small_buffer true false []) [].

Definition accepted_four : accept_op := mkAcceptOp 3 0 None 4 no_error.

Lemma idle_server_ok : serving_ok idle_server.
Proof. split; [apply example_reactor_ok|done|by constructor|by constructor]. Qed.

(** The connection takes the descriptor, the next accept is awaited. *)
Lemma accepted_descriptor_has_one_owner_witness : exists es v' soc,
  serve_accept x86_64 (fun _ => 0) (fun _ => "0.0.0.0"%string) accepted_four idle_server = (es, v', Ok tt) /\
  sockets_ v' = [soc] /\ impl_fds soc = [4] /\ length (accepted (server_ v')) = 1%nat.
Proof.
  destruct (accepted_descriptor_has_one_owner x86_64 (fun _ => 0) (fun _ => "0.0.0.0"%string) idle_server accepted_four 4
    idle_server_ok) as (es & v' & r & Hrun & Hok & Hcase); [done|by vm_compute|by apply not_elem_of_nil|].
  assert (r = Ok tt /\ length (sockets_ v') = 1%nat) as [-> Hlen] by (vm_compute in Hrun; by injection Hrun as _ <- <-).
  destruct Hcase as [(soc & Hsoc & Hfds & _)|[Hsoc _]]; [|by rewrite Hsoc in Hlen].
  exists es, v', soc. rewrite (sv_connections _ Hok). done.
Defined.

(** With a reactor that refuses the descriptor, it is closed. *)
Example refused_descriptor_is_closed :
  let '(es, v', r) := serve_accept x86_64 (fun _ => 28) (fun _ => "0.0.0.0"%string) accepted_four idle_server in
  r = Ok tt /\ sockets_ v' = [] /\ fds (net_ v') = {[3]}.
Proof. by vm_compute. Qed.
