(* ===== verification/Concurrent.v ===== *)
(** * concurrent.hpp: the blocking queue and the latch

    Both are monitors.  A thread is at one of a few program points; a step of a
    thread is what it does between two points at which other threads can
    interfere.  [std::condition_variable::wait] with a predicate is a loop: check
    the predicate with the mutex held, release it and sleep, wake up, acquire it
    again.  [notify_one] wakes a sleeping thread of the caller's choice, and a
    sleeping thread may also wake up spuriously, as the standard allows. *)
From S2P Require Import Prelude.

(** ** class BlockingQueue *)

Module BlockingQueue.

(** Where a thread is in [put], [get] or [clear].  A change of the queue reads its
    representation in one step and writes it in another, so that it is the mutex
    that keeps two changes apart. *)
Inductive Pc (A : Type) :=
| PutEntry (t : A)
| PutHolding (t : A)
| PutWriting (t : A) (l : list A)   (* has read [l], about to write it with [t] *)
| PutPushed                         (* about to notify and to release the mutex *)
| GetEntry
| GetHolding          (* holds the mutex, about to test the predicate *)
| GetChecked          (* holds the mutex, the predicate was false *)
| GetWaiting          (* asleep *)
| GetWoken            (* about to acquire the mutex again *)
| GetReady            (* holds the mutex, the predicate was true *)
| GetTaking (t : A) (rest : list A) (* has read the front, about to write the rest *)
| ClearEntry
| ClearNotify         (* [quit] is stored, about to notify *)
| Returned (t : option A)
| Broken.             (* has read the front of an empty queue *)
Arguments PutEntry {A} _.
Arguments PutHolding {A} _.
Arguments PutWriting {A} _ _.
Arguments PutPushed {A}.
Arguments GetEntry {A}.
Arguments GetHolding {A}.
Arguments GetChecked {A}.
Arguments GetWaiting {A}.
Arguments GetWoken {A}.
Arguments GetReady {A}.
Arguments GetTaking {A} _ _.
Arguments ClearEntry {A}.
Arguments ClearNotify {A}.
Arguments Returned {A} _.
Arguments Broken {A}.

Record Queue (A : Type) := mkQueue {
  mtx : option nat;
  q : list A;
  quit : bool;
  threads : gmap nat (Pc A);
}.
Arguments mkQueue {A} _ _ _ _.
Arguments mtx {A} _.
Arguments q {A} _.
Arguments quit {A} _.
Arguments threads {A} _.

(** An item is pushed, or popped, when the queue is written. *)
Inductive Event (A : Type) := Pushed (t : A) | Popped (t : A).
Arguments Pushed {A} _.
Arguments Popped {A} _.

Section queue.
Context {A : Type}.
Implicit Types (s : Queue A) (i : nat).

Definition new_queue (threads : gmap nat (Pc A)) : Queue A := mkQueue None [] false threads.

Definition goto i (pc : Pc A) s : Queue A := mkQueue (mtx s) (q s) (quit s) (<[i := pc]> (threads s)).
Definition set_mtx m s : Queue A := mkQueue m (q s) (quit s) (threads s).
Definition set_q l s : Queue A := mkQueue (mtx s) l (quit s) (threads s).
Definition set_quit s : Queue A := mkQueue (mtx s) (q s) true (threads s).

Definition is_waiting (pc : Pc A) : bool := match pc with GetWaiting => true | _ => false end.

Definition wake (pc : Pc A) : Pc A := match pc with GetWaiting => GetWoken | _ => pc end.

(** [notify_one]: [chosen] is a sleeping thread, if there is one. *)
Definition notify_one (chosen : option nat) s : option (Queue A) :=
  match chosen with
  | Some j =>
      pc ← threads s !! j;
      if is_waiting pc then Some (goto j GetWoken s) else None
  | None =>
      if bool_decide (map_Forall (fun _ pc => is_waiting pc = false) (threads s)) then Some s else None
  end.

(** [notify_all] *)
Definition notify_all s : Queue A := mkQueue (mtx s) (q s) (quit s) (wake <$> threads s).

(** [return quit.load() || !q.empty();] *)
Definition predicate s : bool := quit s || negb (bool_decide (q s = [])).

(** Thread [i] acquires the mutex, if it is free, and goes to [pc]. *)
Definition acquire i (pc : Pc A) s : option (Queue A) :=
  match mtx s with
  | Some _ => None
  | None => Some (set_mtx (Some i) (goto i pc s))
  end.

(** One step of thread [i]; [None] when it is blocked or has returned. *)
Definition step i (chosen : option nat) s : option (list (Event A) * Queue A) :=
  pc ← threads s !! i;
  match pc with
  | PutEntry t => s' ← acquire i (PutHolding t) s; Some ([], s')
  | PutHolding t => Some ([], goto i (PutWriting t (q s)) s)
  | PutWriting t l => Some ([Pushed t], set_q (l ++ [t]) (goto i PutPushed s))
  | PutPushed => s' ← notify_one chosen (set_mtx None (goto i (Returned None) s)); Some ([], s')
  | GetEntry | GetWoken => s' ← acquire i GetHolding s; Some ([], s')
  | GetHolding => Some ([], goto i (if predicate s then GetReady else GetChecked) s)
  | GetChecked => Some ([], set_mtx None (goto i GetWaiting s))
  | GetWaiting => Some ([], goto i GetWoken s)   (* spurious *)
  | GetReady =>
      if quit s then Some ([], set_mtx None (goto i (Returned None) s))
      else
        match q s with
        | t :: rest => Some ([], goto i (GetTaking t rest) s)
        | [] => Some ([], goto i Broken s)
        end
  | GetTaking t rest => Some ([Popped t], set_q rest (set_mtx None (goto i (Returned (Some t)) s)))
  | ClearEntry => Some ([], set_quit (goto i ClearNotify s))
  | ClearNotify => Some ([], notify_all (goto i (Returned None) s))
  | Returned _ | Broken => None
  end.

Fixpoint steps (schedule : list (nat * option nat)) s : option (list (Event A) * Queue A) :=
  match schedule with
  | [] => Some ([], s)
  | (i, chosen) :: schedule =>
      '(es, s) ← step i chosen s;
      '(es', s) ← steps schedule s;
      Some (es ++ es', s)
  end.

Definition pushed (es : list (Event A)) : list A :=
  omap (fun e => match e with Pushed t => Some t | _ => None end) es.
Definition popped (es : list (Event A)) : list A :=
  omap (fun e => match e with Popped t => Some t | _ => None end) es.

(** ** The mutex *)

Definition holds (pc : Pc A) : bool :=
  match pc with
  | PutHolding _ | PutWriting _ _ | PutPushed | GetHolding | GetChecked | GetReady | GetTaking _ _ => true
  | _ => false
  end.

(** What a thread has read of the queue [l] and of [quit] still holds. *)
Definition read_ok (l : list A) (b : bool) (pc : Pc A) : Prop :=
  match pc with
  | PutWriting _ l' => l' = l
  | GetTaking t rest => l = t :: rest
  | GetReady => b = true \/ l <> []
  | Broken => False
  | _ => True
  end.

Record locked s : Prop := {
  lk_holds i pc : threads s !! i = Some pc -> holds pc = true -> mtx s = Some i;
  lk_read i pc : threads s !! i = Some pc -> read_ok (q s) (quit s) pc;
}.

Lemma read_ok_unlocked l l' b b' pc : holds pc = false -> read_ok l b pc -> read_ok l' b' pc.
Proof. by destruct pc. Qed.

(** Thread [i] moves; it has the mutex, or takes it, or changes neither the mutex nor
    the queue. *)
Lemma locked_move s i pc m l b :
  locked s -> (holds pc = true -> m = Some i) ->
  (mtx s = Some i \/ mtx s = None \/ m = mtx s /\ l = q s) ->
  read_ok l b pc -> (quit s = true -> b = true) ->
  locked (mkQueue m l b (<[i := pc]> (threads s))).
Proof.
  intros [Hh Hr] Hm Hown Hpc Hb.
  assert (forall j x, j <> i -> threads s !! j = Some x -> holds x = true -> m = mtx s /\ l = q s) as Hother.
  { intros j x Hne Hj Hx. pose proof (Hh j x Hj Hx). destruct Hown as [?|[?|?]]; [congruence|congruence|done]. }
  split; cbn; intros j x [[<- <-]|[Hne Hj]]%lookup_insert_Some; [by apply Hm| |done|].
  - intros Hx. destruct (Hother j x (not_eq_sym Hne) Hj Hx) as [-> _]. by eapply Hh.
  - destruct (holds x) eqn:Hx.
    + destruct (Hother j x (not_eq_sym Hne) Hj Hx) as [_ ->]. specialize (Hr j x Hj).
      destruct x; try done. destruct Hr as [Hq|]; [left; by apply Hb|by right].
    + eapply read_ok_unlocked; [done|by eapply Hr].
Qed.

Lemma notify_one_cases chosen s s' :
  notify_one chosen s = Some s' ->
  (exists j, threads s !! j = Some GetWaiting /\ s' = goto j GetWoken s) \/
  (s' = s /\ map_Forall (fun _ pc => is_waiting pc = false) (threads s)).
Proof.
  unfold notify_one. destruct chosen as [j|].
  - destruct (threads s !! j) as [[]|] eqn:Hj; try done. simpl. intros [= <-]. left. by exists j.
  - case_bool_decide; [|done]. intros [= <-]. by right.
Qed.

(** Somebody can be chosen. *)
Lemma notify_one_total s : exists chosen, is_Some (notify_one chosen s).
Proof.
  destruct (decide (map_Forall (fun _ pc => is_waiting pc = false) (threads s))) as [Hall|Hsome].
  - exists None. unfold notify_one. by rewrite bool_decide_eq_true_2.
  - apply map_not_Forall in Hsome as (j & pc & Hj & Hpc); [|apply _].
    exists (Some j). unfold notify_one. rewrite Hj. cbn. by destruct (is_waiting pc).
Qed.

Lemma acquire_cases i pc s s' : acquire i pc s = Some s' ->
  mtx s = None /\ s' = mkQueue (Some i) (q s) (quit s) (<[i := pc]> (threads s)).
Proof. unfold acquire. destruct (mtx s); [done|]. by intros [= <-]. Qed.

Lemma locked_notify chosen s s' : locked s -> notify_one chosen s = Some s' -> locked s'.
Proof.
  intros Hs [(j & Hj & ->)|[-> _]]%notify_one_cases; [|done]. unfold goto.
  apply locked_move; [done|done|by right; right|done|done].
Qed.

Lemma locked_notify_all s : locked s -> locked (notify_all s).
Proof.
  intros [Hh Hr]. split; cbn; intros j x; rewrite lookup_fmap; intros (y & Hj & ->)%fmap_Some.
  - intros Hx. apply (Hh j y Hj). by destruct y.
  - specialize (Hr j y Hj). by destruct y.
Qed.

Lemma step_locked i chosen s es s' : locked s -> step i chosen s = Some (es, s') -> locked s'.
Proof.
  intros Hs. unfold step. destruct (threads s !! i) as [pc|] eqn:Hi; [|done]. cbn [mbind option_bind].
  assert (holds pc = true -> mtx s = Some i) as Hmine by by apply (lk_holds s Hs).
  pose proof (lk_read s Hs i pc Hi) as Hread.
  destruct pc; cbn [holds read_ok] in *; try done.
  1,5,9: destruct (acquire _ _ s) as [s1|] eqn:Ha; [|done]; apply acquire_cases in Ha as [Hm ->];
    intros [= _ <-]; (apply locked_move; [done|done|by right; left|done|done]).
  all: try (specialize (Hmine eq_refl)).
  - intros [= _ <-]. by apply locked_move; [|by intros _|left|..].
  - intros [= _ <-]. by apply locked_move; [|by intros _|left|..].
  - destruct (notify_one _ _) as [s1|] eqn:Hn; [|done]. intros [= _ <-]. eapply locked_notify; [|done].
    by apply locked_move; [|done|left|..].
  - intros [= _ <-]. unfold predicate. destruct (quit s) eqn:Hq; cbn [orb].
    { by apply locked_move; [|by intros _|left|cbn; left|]. }
    case_bool_decide; by apply locked_move; [|by intros _|left|cbn; try right|].
  - intros [= _ <-]. by apply locked_move; [|done|left|..].
  - intros [= _ <-]. by apply locked_move; [|done|right; right|..].
  - destruct (quit s) eqn:Hq.
    { intros [= _ <-]. by apply locked_move; [|done|left|..]. }
    destruct (q s) as [|t rest] eqn:Hl; [by destruct Hread|]. intros [= _ <-].
    by apply locked_move; [|by intros _|left|..].
  - intros [= _ <-]. by apply locked_move; [|done|left|..].
  - intros [= _ <-]. by apply locked_move; [|done|right; right|..].
  - intros [= _ <-]. apply locked_notify_all. by apply locked_move; [|done|right; right|..].
Qed.

(** ** Order *)

Lemma step_order i chosen s es s' :
  locked s -> step i chosen s = Some (es, s') -> q s ++ pushed es = popped es ++ q s'.
Proof.
  intros Hs. unfold step. destruct (threads s !! i) as [pc|] eqn:Hi; [|done]. cbn [mbind option_bind].
  pose proof (lk_read s Hs i pc Hi) as Hread.
  destruct pc as [t|t|t l| | | | | | | |t rest| | | |]; cbn [read_ok] in Hread; try done.
  1,5,9: destruct (acquire _ _ s) as [s1|] eqn:Ha; [|done]; apply acquire_cases in Ha as [_ ->];
    intros [= <- <-]; apply app_nil_r.
  - intros [= <- <-]. apply app_nil_r.
  - intros [= <- <-]. cbn. by rewrite Hread.
  - destruct (notify_one _ _) as [s1|] eqn:Hn; [|done]. intros [= <- <-].
    rewrite app_nil_r. by destruct (notify_one_cases _ _ _ Hn) as [(j & _ & ->)|[-> _]].
  - intros [= <- <-]. apply app_nil_r.
  - intros [= <- <-]. apply app_nil_r.
  - intros [= <- <-]. apply app_nil_r.
  - destruct (quit s); [|destruct (q s) eqn:Hl]; intros [= <- <-]; cbn; by rewrite ?app_nil_r, ?Hl.
  - intros [= <- <-]. cbn. by rewrite app_nil_r.
  - intros [= <- <-]. apply app_nil_r.
  - intros [= <- <-]. apply app_nil_r.
Qed.

Lemma steps_order schedule s es s' :
  locked s -> steps schedule s = Some (es, s') -> q s ++ pushed es = popped es ++ q s' /\ locked s'.
Proof.
  revert s es. induction schedule as [|[i chosen] schedule IH]; intros s es Hs.
  - intros [= <- <-]. split; [apply app_nil_r|done].
  - simpl. destruct (step i chosen s) as [[es1 s1]|] eqn:H1; [|done]. simpl.
    destruct (steps schedule s1) as [[es2 s2]|] eqn:H2; [|done]. simpl. intros [= <- <-].
    apply IH in H2 as [H2 Hs2]; [|by eapply step_locked]. split; [|done].
    apply step_order in H1; [|done]. unfold pushed, popped in *.
    rewrite !omap_app, (assoc_L (++)), H1, <- !(assoc_L (++)). by f_equal.
Qed.

(** ** Wake-ups *)

(** A thread that will take an item, test the predicate or notify without another
    notification. *)
Definition alert (pc : Pc A) : bool :=
  match pc with GetHolding | GetWoken | GetReady | GetTaking _ _ | PutPushed => true | _ => false end.

Definition clears (pc : Pc A) : bool := match pc with ClearEntry | ClearNotify => true | _ => false end.

(** Before [clear] is called. *)
Record queue_ok s : Prop := {
  qo_locked : locked s;
  qo_quit : quit s = false;
  qo_clear i pc : threads s !! i = Some pc -> clears pc = false;
  qo_mtx i : mtx s = Some i -> exists pc, threads s !! i = Some pc /\ holds pc = true;
  qo_checked i : threads s !! i = Some GetChecked -> q s = [];
  qo_waiting i : threads s !! i = Some GetWaiting -> length (q s) <= count_if alert (threads s);
}.

(** Thread [i] moves from [pc] to [pc'], leaving the mutex [m] and the queue [l]. *)
Record move_ok s i (pc pc' : Pc A) (m : option nat) (l : list A) : Prop := {
  mo_clear : clears pc' = false;
  mo_mtx : if holds pc' then m = Some i else if holds pc then m = None else m = mtx s;
  mo_own : mtx s = Some i \/ mtx s = None \/ m = mtx s /\ l = q s;
  mo_read : read_ok l false pc';
  mo_checked : pc' = GetChecked \/ pc' = GetWaiting -> l = [];
  mo_alert j : j <> i -> threads s !! j = Some GetWaiting ->
    length l <= count_if alert (<[i := pc']> (threads s));
}.

Lemma queue_move s i pc pc' m l :
  queue_ok s -> threads s !! i = Some pc -> move_ok s i pc pc' m l ->
  queue_ok (mkQueue m l false (<[i := pc']> (threads s))).
Proof.
  intros [Hs Hq Hc Hm Hk Hw] Hi [Mc Mm Mo Mr Mk Ma].
  split; simpl; [|done| | | |].
  - apply locked_move; [done| |done|done|by rewrite Hq]. intros Hp'. by rewrite Hp' in Mm.
  - intros j x [[<- <-]|[? Hj]]%lookup_insert_Some; [done|by eapply Hc].
  - intros j Hj. destruct (holds pc') eqn:Hp'.
    + subst m. injection Hj as <-. exists pc'. by rewrite lookup_insert_eq.
    + destruct (holds pc) eqn:Hp; [congruence|]. subst m.
      destruct (Hm j Hj) as (x & Hx & Hhx). exists x.
      rewrite lookup_insert_ne; [done|]. intros <-. congruence.
  - intros j [[<- ->]|[Hne Hj]]%lookup_insert_Some; [apply Mk; by left|].
    pose proof (lk_holds s Hs j _ Hj eq_refl) as Hmj.
    destruct Mo as [?|[?|[_ ->]]]; [congruence..|by eapply Hk].
  - intros j [[<- ->]|[Hne Hj]]%lookup_insert_Some; [rewrite Mk by (by right); simpl; lia|by apply (Ma j)].
Qed.

Lemma alert_count s i pc pc' j :
  queue_ok s -> threads s !! i = Some pc -> threads s !! j = Some GetWaiting ->
  length (q s) + Nat.b2n (alert pc')
  <= count_if alert (<[i := pc']> (threads s)) + Nat.b2n (alert pc).
Proof.
  intros Hok Hi Hj. pose proof (qo_waiting s Hok j Hj).
  rewrite (count_if_insert alert (threads s) i pc pc' Hi). lia.
Qed.

(** The end of [put]: whoever slept and is woken takes its place. *)
Lemma notify_ok i chosen s s' :
  queue_ok s -> threads s !! i = Some PutPushed ->
  notify_one chosen (set_mtx None (goto i (Returned None) s)) = Some s' -> queue_ok s'.
Proof.
  intros Hok Hi Hn. pose proof (lk_holds s (qo_locked s Hok) i _ Hi eq_refl) as Hm.
  destruct (notify_one_cases _ _ _ Hn) as [(j & Hj & ->)|[-> Hnone]].
  - simpl in Hj. apply lookup_insert_Some in Hj as [[_ ?]|[Hne Hj]]; [done|].
    assert (queue_ok (mkQueue (mtx s) (q s) false (<[j := GetWoken]> (threads s)))) as Hok1.
    { apply (queue_move s j GetWaiting); [done..|].
      split; simpl; try done; [by right; right|by intros [|]|].
      intros k Hk Hkw. pose proof (alert_count s j GetWaiting GetWoken k Hok Hj Hkw). simpl in *. lia. }
    unfold goto, set_mtx. simpl. rewrite (qo_quit s Hok), insert_insert_ne by done.
    apply (queue_move _ i PutPushed (Returned None) None (q s) Hok1).
    + simpl. by rewrite lookup_insert_ne.
    + split; simpl; try done; [by left|by intros [|]|]. intros k Hk Hkw.
      pose proof (qo_waiting s Hok j Hj).
      pose proof (count_if_insert alert (threads s) j GetWaiting GetWoken Hj).
      pose proof (count_if_insert alert (<[j := GetWoken]> (threads s)) i PutPushed (Returned None)) as Hc.
      rewrite lookup_insert_ne in Hc by done. specialize (Hc Hi). simpl in *. lia.
  - unfold goto, set_mtx. simpl. rewrite (qo_quit s Hok).
    apply (queue_move s i PutPushed); [done..|]. split; simpl; try done; [by left|by intros [|]|].
    intros k Hk Hkw. simpl in Hnone. exfalso.
    assert (<[i := Returned None]> (threads s) !! k = Some GetWaiting) as Hkw'
      by by rewrite lookup_insert_ne.
    by specialize (Hnone k _ Hkw').
Qed.

Lemma step_ok i chosen s es s' :
  queue_ok s -> step i chosen s = Some (es, s') -> queue_ok s'.
Proof.
  intros Hok. pose proof (qo_quit s Hok) as Hquit. pose proof (qo_locked s Hok) as Hs. unfold step.
  destruct (threads s !! i) as [pc|] eqn:Hi; [|done]. cbn [mbind option_bind].
  assert (forall pc' j, threads s !! j = Some GetWaiting ->
    length (q s) + Nat.b2n (alert pc') <= count_if alert (<[i := pc']> (threads s)) + Nat.b2n (alert pc))
    as Halert by (intros pc' j Hj; by apply alert_count with (j := j)).
  assert (holds pc = true -> mtx s = Some i) as Hmine by by apply (lk_holds s Hs).
  pose proof (lk_read s Hs i pc Hi) as Hread.
  pose proof (qo_clear s Hok i pc Hi) as Hclear.
  assert (forall pc' m l, move_ok s i pc pc' m l -> queue_ok (mkQueue m l (quit s) (<[i := pc']> (threads s)))) as Hmove.
  { intros pc' m l Hmo. rewrite Hquit. by apply (queue_move s i pc). }
  destruct pc as [t|t|t l| | | | | | | |t rest| | | |]; cbn [read_ok holds] in *; try done.
  1,5,9: destruct (acquire _ _ s) as [s1|] eqn:Ha; [|done]; apply acquire_cases in Ha as [Hm ->];
    intros [= _ <-]; apply Hmove; split; cbn; try done; [by right; left|by intros [|]|];
    intros j _ Hj; match goal with |- context [count_if _ (<[_ := ?p]> _)] => specialize (Halert p j Hj) end; simpl in *; lia.
  all: try specialize (Hmine eq_refl).
  - intros [= _ <-]. apply Hmove. split; cbn; try done; [by left|by intros [|]|].
    intros j _ Hj. specialize (Halert (PutWriting t (q s)) j Hj). simpl in *. lia.
  - intros [= _ <-]. apply Hmove. split; cbn; try done; [by left|by intros [|]|].
    intros j _ Hj. specialize (Halert PutPushed j Hj). rewrite length_app, Hread. simpl in *. lia.
  - destruct (notify_one _ _) as [s1|] eqn:Hn; [|done]. intros [= _ <-]. by eapply notify_ok.
  - intros [= _ <-]. apply Hmove. unfold predicate. rewrite Hquit. cbn [orb].
    case_bool_decide as Hq; (split; cbn; try done; [by left|try by right|..]); try by intros [|].
    + intros j _ Hj. rewrite Hq. simpl. lia.
    + intros j _ Hj. specialize (Halert GetReady j Hj). simpl in *. lia.
  - intros [= _ <-]. pose proof (qo_checked s Hok i Hi) as Hq. apply Hmove.
    split; cbn; try done; [by left|]. intros j _ Hj. rewrite Hq. simpl. lia.
  - intros [= _ <-]. apply Hmove. split; cbn; try done; [by right; right|by intros [|]|].
    intros j _ Hj. specialize (Halert GetWoken j Hj). simpl in *. lia.
  - rewrite Hquit. destruct (q s) as [|t rest] eqn:Hl; [by destruct Hread; congruence|]. intros [= _ <-]. unfold goto. rewrite Hl.
    apply Hmove. split; cbn; try done; [by left|by intros [|]|].
    intros j _ Hj. specialize (Halert (GetTaking t rest) j Hj). simpl in *. lia.
  - intros [= _ <-]. apply Hmove. split; cbn; try done; [by left|by intros [|]|].
    intros j _ Hj. specialize (Halert (Returned (Some t)) j Hj). rewrite Hread in Halert. simpl in *. lia.
Qed.

Lemma steps_ok schedule s es s' : queue_ok s -> steps schedule s = Some (es, s') -> queue_ok s'.
Proof.
  revert s es. induction schedule as [|[i chosen] schedule IH]; intros s es Hok.
  - by intros [= _ <-].
  - simpl. destruct (step i chosen s) as [[es1 s1]|] eqn:H1; [|done]. simpl.
    destruct (steps schedule s1) as [[es2 s2]|] eqn:H2; [|done]. simpl. intros [= _ <-].
    eapply IH; [|done]. by eapply step_ok.
Qed.

(** Whoever has the mutex can go on. *)
Lemma holder_steps s i pc : threads s !! i = Some pc -> holds pc = true ->
  exists chosen, is_Some (step i chosen s).
Proof.
  intros Hi Hpc. unfold step. rewrite Hi. cbn [mbind option_bind].
  destruct pc; try done; try (exists None; by eexists).
  - destruct (notify_one_total (set_mtx None (goto i (Returned None) s))) as (chosen & s' & Hn).
    exists chosen. rewrite Hn. by eexists.
  - exists None. destruct (quit s); [by eexists|]. destruct (q s); by eexists.
Qed.

(** Threads about to call [put], [get] or [clear]. *)
Definition calling (threads : gmap nat (Pc A)) : Prop :=
  forall i pc, threads !! i = Some pc -> pc = GetEntry \/ pc = ClearEntry \/ exists t, pc = PutEntry t.

(** Threads about to call [put] or [get]. *)
Definition entering (threads : gmap nat (Pc A)) : Prop :=
  forall i pc, threads !! i = Some pc -> pc = GetEntry \/ exists t, pc = PutEntry t.

Lemma new_queue_locked threads : calling threads -> locked (new_queue threads).
Proof. intros Hent. split; intros i pc Hi; by destruct (Hent i pc Hi) as [->|[->|[t ->]]]. Qed.

Lemma new_queue_ok threads : entering threads -> queue_ok (new_queue threads).
Proof.
  intros Hent. split; try done.
  - apply new_queue_locked. intros i pc Hi. destruct (Hent i pc Hi); [by left|by right; right].
  - intros i pc Hi. by destruct (Hent i pc Hi) as [->|[t ->]].
  - intros i Hi. simpl. lia.
Qed.

End queue.

(** ** Properties *)

(** C37. The queue is first in, first out: in every interleaving of any number of
    threads that call [put], [get] and [clear], with spurious wake-ups, the items
    pushed are the items popped followed by those still in the queue, and no thread
    takes the front of an empty queue.  The mutex makes it so: between the read and
    the write of a change nobody else changes the queue. *)
Theorem queue_is_fifo {A} schedule (threads0 : gmap nat (Pc A)) es s :
  calling threads0 -> steps schedule (new_queue threads0) = Some (es, s) ->
  pushed es = popped es ++ q s /\ forall i, threads s !! i <> Some Broken.
Proof.
  intros Hent Hrun. destruct (steps_order _ _ _ _ (new_queue_locked _ Hent) Hrun) as [Horder Hs].
  split; [done|]. intros i Hi. by pose proof (lk_read s Hs i _ Hi).
Qed.

(** [put] loses no wake-up: while nobody calls [clear], whenever a getter sleeps and
    the queue is not empty, some other thread will take an item, test the predicate or
    notify without waiting for a notification: it has the mutex or was woken; and
    whoever has the mutex can go on. *)
Theorem put_wakes_getters {A} schedule (threads0 : gmap nat (Pc A)) es s i :
  entering threads0 -> steps schedule (new_queue threads0) = Some (es, s) ->
  threads s !! i = Some GetWaiting -> q s <> [] ->
  (exists j pc, threads s !! j = Some pc /\ alert pc = true /\ (mtx s = Some j \/ pc = GetWoken)) /\
  (forall k, mtx s = Some k -> exists chosen, is_Some (step k chosen s)).
Proof.
  intros Hent Hrun Hi Hq. assert (queue_ok s) as Hok
    by by apply (steps_ok schedule _ es s (new_queue_ok _ Hent)).
  split.
  - pose proof (qo_waiting s Hok i Hi) as Hlen.
    destruct (count_if_pos alert (threads s)) as (j & pc & Hj & Hpc).
    { destruct (q s); [done|]. simpl in Hlen. lia. }
    exists j, pc. split; [done|]. split; [done|]. pose proof (lk_holds s (qo_locked s Hok) j pc Hj) as Hh.
    destruct pc; try done; first [by right|left; by apply Hh].
  - intros k Hk. destruct (qo_mtx s Hok k Hk) as (pc & Hpc & Hh). by apply (holder_steps s k pc).
Qed.

(** [clear] can lose its wake-up, and with it the destructor: it neither
    holds the mutex when it sets [quit] nor when it notifies, so that a getter
    that has just found the queue empty sleeps after the notification.  Then
    every other thread has returned and the getter sleeps on, with [quit] set. *)
Theorem clear_can_lose_wakeup :
  exists schedule s,
    steps schedule (new_queue (<[1 := GetEntry]> (<[2 := ClearEntry]> ∅) : gmap nat (Pc nat)))
      = Some ([], s) /\
    threads s !! 1 = Some GetWaiting /\ threads s !! 2 = Some (Returned None) /\ quit s = true.
Proof.
  exists [(1, None); (1, None); (2, None); (2, None); (1, None)].
  eexists. split; [vm_compute; reflexivity|]. done.
Qed.

Definition one_each : gmap nat (Pc nat) := <[1 := GetEntry]> (<[2 := PutEntry 7]> (<[3 := GetEntry]> ∅)).

Lemma one_each_entering : entering one_each.
Proof.
  intros i pc Hi. unfold one_each in Hi.
  apply lookup_insert_Some in Hi as [[_ <-]|[_ Hi]]; [by left|].
  apply lookup_insert_Some in Hi as [[_ <-]|[_ Hi]]; [by right; exists 7|].
  apply lookup_insert_Some in Hi as [[_ <-]|[_ Hi]]; [by left|done].
Qed.

(** Two putters, one of them between its read and its write when the other comes. *)
Definition two_putters : gmap nat (Pc nat) := <[1 := PutEntry 7]> (<[2 := PutEntry 8]> (<[3 := GetEntry]> ∅)).

Lemma queue_is_fifo_witness : exists s, steps
    [(1, None); (1, None); (1, None); (1, None); (2, None); (2, None); (2, None); (2, None); (3, None); (3, None); (3, None); (3, None)]
    (new_queue two_putters) = Some ([Pushed 7; Pushed 8; Popped 7], s) /\ [7; 8] = [7] ++ q s.
Proof.
  eexists. split; [vm_compute; reflexivity|].
  refine (proj1 (queue_is_fifo
    [(1, None); (1, None); (1, None); (1, None); (2, None); (2, None); (2, None); (2, None); (3, None); (3, None); (3, None); (3, None)]
    two_putters [Pushed 7; Pushed 8; Popped 7] _ _ _)); [|vm_compute; reflexivity].
  intros i pc Hi. unfold two_putters in Hi.
  apply lookup_insert_Some in Hi as [[_ <-]|[_ Hi]]; [by right; right; exists 7|].
  apply lookup_insert_Some in Hi as [[_ <-]|[_ Hi]]; [by right; right; exists 8|].
  apply lookup_insert_Some in Hi as [[_ <-]|[_ Hi]]; [by left|done].
Defined.

(** Two getters fall asleep, then an item arrives. *)
Definition asleep : list (nat * option nat) :=
  [(1, None); (1, None); (1, None); (3, None); (3, None); (3, None); (2, None); (2, None); (2, None); (2, Some 3)].

Definition asleep_state : Queue nat :=
  mkQueue None [7] false (<[1 := GetWaiting]> (<[2 := Returned None]> (<[3 := GetWoken]> ∅))).

Lemma put_wakes_getters_witness :
  exists j pc, threads asleep_state !! j = Some pc /\ alert pc = true /\ (mtx asleep_state = Some j \/ pc = GetWoken).
Proof.
  apply (put_wakes_getters asleep one_each [Pushed 7] asleep_state 1).
  - exact one_each_entering.
  - vm_compute. reflexivity.
  - reflexivity.
  - discriminate.
Defined.

End BlockingQueue.

(** ** class CountDownLatch *)

Module CountDownLatch.

Inductive Pc :=
| CountEntry          (* in [count_down] *)
| AwaitEntry
| AwaitHolding
| AwaitWaiting
| AwaitWoken
| Returned.

Record Latch := mkLatch {
  count : Z;
  latch_mutex : option nat;
  latch_threads : gmap nat Pc;
}.

Definition new_latch (count : Z) (threads : gmap nat Pc) : Latch := mkLatch count None threads.

Definition latch_wake (pc : Pc) : Pc := match pc with AwaitWaiting => AwaitWoken | _ => pc end.

(** One step of thread [i]. *)
Definition latch_step (i : nat) (s : Latch) : option Latch :=
  pc ← latch_threads s !! i;
  match pc with
  | CountEntry =>
      match latch_mutex s with
      | Some _ => None
      | None =>
          let threads := <[i := Returned]> (latch_threads s) in
          if (0 <? count s)%Z then
            Some (mkLatch (count s - 1) None (latch_wake <$> threads))
          else Some (mkLatch (count s) None threads)
      end
  | AwaitEntry | AwaitWoken =>
      match latch_mutex s with
      | Some _ => None
      | None => Some (mkLatch (count s) (Some i) (<[i := AwaitHolding]> (latch_threads s)))
      end
  | AwaitHolding =>
      Some (mkLatch (count s) None
        (<[i := if (count s <=? 0)%Z then Returned else AwaitWaiting]> (latch_threads s)))
  | AwaitWaiting => Some (mkLatch (count s) (latch_mutex s) (<[i := AwaitWoken]> (latch_threads s)))
  | Returned => None
  end.

Definition latch_steps (schedule : list nat) (s : Latch) : option Latch :=
  foldl (fun s i => s ← s; latch_step i s) (Some s) schedule.

(** ** The latch *)

Definition counting (pc : Pc) : bool := match pc with CountEntry => true | _ => false end.

(** Of the calls of [count_down] in [threads0], those that have returned. *)
Definition counted (threads0 : gmap nat Pc) (s : Latch) : Z :=
  (Z.of_nat (count_if counting threads0) - Z.of_nat (count_if counting (latch_threads s)))%Z.

Record latch_ok (c : Z) (threads0 : gmap nat Pc) (s : Latch) : Prop := {
  lo_count : (count s = Z.max 0 (c - counted threads0 s))%Z;
  lo_counted : (0 <= counted threads0 s)%Z;
  lo_waiting i : latch_threads s !! i = Some AwaitWaiting -> (0 < count s)%Z;
  lo_await i pc : threads0 !! i = Some AwaitEntry -> latch_threads s !! i = Some pc ->
    pc <> CountEntry /\ (pc = Returned -> (count s <= 0)%Z);
}.

(** Thread [i] moves without counting. *)
Lemma latch_move c threads0 s i pc pc' m :
  latch_ok c threads0 s -> latch_threads s !! i = Some pc ->
  counting pc = false -> counting pc' = false -> (pc' = AwaitWaiting -> (0 < count s)%Z) ->
  (pc' = Returned -> (count s <= 0)%Z) ->
  latch_ok c threads0 (mkLatch (count s) m (<[i := pc']> (latch_threads s))).
Proof.
  intros [Hc Hd Hw Ha] Hi Hpc Hpc' Hwait Hret.
  assert (counted threads0 (mkLatch (count s) m (<[i := pc']> (latch_threads s))) = counted threads0 s)
    as Hcount.
  { unfold counted. simpl. pose proof (count_if_insert counting (latch_threads s) i pc pc' Hi) as Heq.
    rewrite Hpc, Hpc' in Heq. simpl in Heq. lia. }
  split; rewrite ?Hcount; simpl; [done|done| |].
  - intros j [[<- ->]|[_ Hj]]%lookup_insert_Some; [by apply Hwait|by eapply Hw].
  - intros j x Hj [[<- <-]|[_ Hx]]%lookup_insert_Some; [|by eapply Ha].
    split; [by intros ->|done].
Qed.

Lemma latch_step_ok c threads0 s i s' :
  latch_ok c threads0 s -> latch_step i s = Some s' -> latch_ok c threads0 s'.
Proof.
  intros Hok. unfold latch_step. destruct (latch_threads s !! i) as [pc|] eqn:Hi; [|done].
  simpl. destruct pc.
  - destruct (latch_mutex s); [done|]. destruct Hok as [Hc Hd Hw Ha].
    pose proof (count_if_insert counting (latch_threads s) i CountEntry Returned Hi) as Heq.
    simpl in Heq.
    assert (threads0 !! i <> Some AwaitEntry) as Hnot.
    { intros Hai. by destruct (Ha i CountEntry Hai Hi) as [? _]. }
    destruct (Z.ltb_spec 0 (count s)); intros [= <-]; split; unfold counted in *; simpl in *.
    + rewrite count_if_fmap by by intros []. lia.
    + rewrite count_if_fmap by by intros []. lia.
    + intros j. rewrite lookup_fmap. by destruct (_ !! j) as [[]|].
    + intros j x Hj. rewrite lookup_fmap, lookup_insert_ne by by intros ->.
      intros (y & Hy & ->)%fmap_Some. destruct (Ha j y Hj Hy) as [Hne Hr].
      split; [by destruct y|]. destruct y; try done. intros _. specialize (Hr eq_refl). lia.
    + lia.
    + lia.
    + intros j [[_ ?]|[_ Hj]]%lookup_insert_Some; [done|by eapply Hw].
    + intros j x Hj [[<- _]|[_ Hx]]%lookup_insert_Some; [done|]. by eapply Ha.
  - destruct (latch_mutex s); [done|]. intros [= <-]. by eapply latch_move.
  - intros [= <-]. destruct (Z.leb_spec (count s) 0); by eapply latch_move.
  - intros [= <-]. by eapply latch_move.
  - destruct (latch_mutex s); [done|]. intros [= <-]. by eapply latch_move.
  - done.
Qed.

(** The latch opens exactly when [count] calls of [count_down] have returned,
    in every interleaving with spurious wake-ups: the counter is the number of
    calls still to come and never negative, no [await] returns before it is 0,
    and no thread sleeps once it is 0. *)
Theorem latch_opens_at_zero c (threads0 : gmap nat Pc) schedule s :
  (0 <= c)%Z -> (forall i pc, threads0 !! i = Some pc -> pc = CountEntry \/ pc = AwaitEntry) ->
  latch_steps schedule (new_latch c threads0) = Some s ->
  count s = Z.max 0 (c - counted threads0 s) /\
  (forall i, threads0 !! i = Some AwaitEntry -> latch_threads s !! i = Some Returned ->
     (c <= counted threads0 s)%Z) /\
  (forall i, latch_threads s !! i = Some AwaitWaiting -> (counted threads0 s < c)%Z).
Proof.
  intros Hc Hent Hrun. assert (latch_ok c threads0 s) as [Hcount Hd Hw Ha].
  { assert (latch_ok c threads0 (new_latch c threads0)) as Hnew.
    { split; unfold counted; simpl; [lia|lia| |].
      - intros i Hi. by destruct (Hent i _ Hi).
      - intros i pc Hi Hpc. rewrite Hi in Hpc. by injection Hpc as <-. }
    unfold latch_steps in Hrun. revert Hnew Hrun. generalize (new_latch c threads0) as s0.
    induction schedule as [|i schedule IH]; intros s0 Hok; simpl.
    - by intros [= <-].
    - destruct (latch_step i s0) as [s1|] eqn:H1.
      + apply IH. by eapply latch_step_ok.
      + intros Hnone. exfalso. clear -Hnone. by induction schedule. }
  split_and!; [done| |].
  - intros i Hi Hr. destruct (Ha i _ Hi Hr) as [_ Hle]. specialize (Hle eq_refl). lia.
  - intros i Hi. specialize (Hw i Hi). lia.
Qed.

Definition latch_example : gmap nat Pc := <[1 := AwaitEntry]> (<[2 := CountEntry]> ∅).

Lemma latch_opens_at_zero_witness :
  exists s, latch_steps [1; 1; 2; 1; 1] (new_latch 1 latch_example) = Some s /\
    latch_threads s !! 1 = Some Returned /\ (1 <= counted latch_example s)%Z.
Proof.
  eexists. split; [vm_compute; reflexivity|]. split; [reflexivity|].
  apply (latch_opens_at_zero 1 latch_example [1; 1; 2; 1; 1]) with (i := 1); [lia| | |done|done].
  - intros i pc Hi. unfold latch_example in Hi.
    apply lookup_insert_Some in Hi as [[_ <-]|[_ Hi]]; [by right|].
    apply lookup_insert_Some in Hi as [[_ <-]|[_ Hi]]; [by left|done].
  - vm_compute. reflexivity.
Defined.

End CountDownLatch.
