(* ===== verification/Timers.v ===== *)
(** * The environment of the program and the timer interface

    [Env] is what the program reads from its surroundings.  [TimerService] is
    the contract between the scheduler and the state machine: a timer service
    behaves as a finite map from task objects to their callable and flags.
    The state machine is verified against it and Scheduler.v implements it. *)
From S2P Require Import Prelude.
Local Open Scope Z_scope.

(** The readings of the surroundings: the [k]-th reading of the system clock in
    milliseconds, the [k]-th result of [rand ()], and the orders the standard
    library leaves open: which of two tasks due at the same time a heap returns
    first, and the iteration order of an [unordered_map]. *)
Class Env := {
  clock : nat -> Z;
  rand : nat -> Z;
  heap_order : list nat -> list nat;
  hash_order : list Z -> list Z;
}.

(** What the C and C++ standards promise of them. *)
Class EnvOk `(Env) := {
  rand_range k : 0 <= rand k < 2 ^ 31;
  heap_order_perm l : heap_order l ≡ₚ l;
  hash_order_perm l : hash_order l ≡ₚ l;
}.

(** [Task::IntervalSupplier]: a function without arguments that may call
    [rand ()]; the argument is the number of [rand] results used so far. *)
Definition IntervalSupplier := nat -> result (Z * nat).

(** The supplier returns a value, whatever [rand] returns. *)
Definition supplier_ok (f : IntervalSupplier) : Prop :=
  forall r, exists v r', f r = Ok (v, r').

(** The flags of a task and the function it calls. *)
Record TimerView (C : Type) := mkTimerView {
  tv_callable : C;
  tv_cancelled : bool;
  tv_paused : bool;
}.
Arguments mkTimerView {C} _ _ _.
Arguments tv_callable {C} _.
Arguments tv_cancelled {C} _.
Arguments tv_paused {C} _.

Definition view_cancel {C} (v : TimerView C) := mkTimerView (tv_callable v) true (tv_paused v).
Definition view_pause {C} (v : TimerView C) := mkTimerView (tv_callable v) (tv_cancelled v) true.
Definition view_resume {C} (v : TimerView C) := mkTimerView (tv_callable v) (tv_cancelled v) false.

(** A timer is active when its callable runs at the next expiry. *)
Definition view_active {C} (v : TimerView C) : bool := negb (tv_cancelled v) && negb (tv_paused v).

(** The operations of [Scheduler] and [ScheduledTask] used by the state
    machine: [T] is the scheduler with its environment, [H] a [ScheduledTask]. *)
Class TimerOps (T H C : Type) := {
  ts_schedule : IntervalSupplier -> C -> Z -> T -> result (H * T);
  ts_cancel : H -> T -> T;
  ts_pause : H -> T -> T;
  ts_resume : H -> T -> T;
  ts_reset : H -> T -> result (H * T);
}.

(** The abstraction: a timer service is a map of named timers. *)
Class TimerService (T H C : Type) `{TimerOps T H C} := {
  ts_key : H -> nat;
  ts_view : T -> gmap nat (TimerView C);
  ts_wf : T -> Prop;

  ts_schedule_spec interval callable max_calls t :
    ts_wf t -> supplier_ok interval ->
    exists h t', ts_schedule interval callable max_calls t = Ok (h, t') /\ ts_wf t' /\
      ts_view t !! ts_key h = None /\
      ts_view t' = <[ts_key h := mkTimerView callable false false]> (ts_view t);
  ts_cancel_spec h t :
    ts_wf t -> ts_wf (ts_cancel h t) /\
    ts_view (ts_cancel h t) = alter view_cancel (ts_key h) (ts_view t);
  ts_pause_spec h t :
    ts_wf t -> ts_wf (ts_pause h t) /\
    ts_view (ts_pause h t) = alter view_pause (ts_key h) (ts_view t);
  ts_resume_spec h t :
    ts_wf t -> ts_wf (ts_resume h t) /\
    ts_view (ts_resume h t) = alter view_resume (ts_key h) (ts_view t);
  ts_reset_spec h t v :
    ts_wf t -> ts_view t !! ts_key h = Some v ->
    exists h' t', ts_reset h t = Ok (h', t') /\ ts_wf t' /\
      ts_view t !! ts_key h' = None /\
      ts_view t' = <[ts_key h' := v]> (alter view_cancel (ts_key h) (ts_view t));
}.

(** A concrete environment for examples: a clock that advances by a
    millisecond at each of its first thousand readings, a constant [rand] and
    the orders as they come. *)
Definition example_env : Env := {|
  clock k := 1000 + Z.of_nat (k `min` 1000);
  rand k := 7;
  heap_order l := l;
  hash_order l := l;
|}.

Lemma example_env_ok : EnvOk example_env.
Proof. split; simpl; (done || lia). Qed.
