(* ===== verification/Scheduler.v ===== *)
(** * scheduler.hpp: tasks, scheduled tasks and the executor

    A [Scheduler] keeps the [Task] objects it has created, the priority queue
    of tasks waiting for their due time, and how much of the environment it has
    read.  [Task.call], [ScheduledTask.reset], [execute_due_tasks] and one
    iteration of the executor thread follow the code; a callable runs on the
    state [S] of the whole program, of which the scheduler is a part. *)
From S2P Require Import Prelude Timers.
Local Open Scope Z_scope.

Record Task (C : Type) := mkTask {
  max_calls_ : Z;
  interval_ : IntervalSupplier;
  callable_ : C;
  due_time_ : Z;
  cancelled_ : bool;
  paused_ : bool;
}.
Arguments mkTask {C} _ _ _ _ _ _.
Arguments max_calls_ {C} _.
Arguments interval_ {C} _.
Arguments callable_ {C} _.
Arguments due_time_ {C} _.
Arguments cancelled_ {C} _.
Arguments paused_ {C} _.

Record Scheduler (C : Type) := mkScheduler {
  tasks : gmap nat (Task C);   (* the Task objects created so far, by identity *)
  task_queue : list nat;       (* the tasks in the priority queue *)
  running : bool;
  next_task : nat;             (* identity of the next Task object *)
  ticks : nat;                 (* clock readings made *)
  rands : nat;                 (* [rand ()] results used *)
}.
Arguments mkScheduler {C} _ _ _ _ _ _.
Arguments tasks {C} _.
Arguments task_queue {C} _.
Arguments running {C} _.
Arguments next_task {C} _.
Arguments ticks {C} _.
Arguments rands {C} _.

Record ScheduledTask := mkScheduledTask { task_ : nat }.

#[global] Instance ScheduledTask_eq_dec : EqDecision ScheduledTask.
Proof. solve_decision. Defined.

Section updates.
Context {C : Type}.
Implicit Types (s : Scheduler C) (t : Task C).

Definition set_tasks f s : Scheduler C :=
  mkScheduler (f (tasks s)) (task_queue s) (running s) (next_task s) (ticks s) (rands s).
Definition set_task_queue f s : Scheduler C :=
  mkScheduler (tasks s) (f (task_queue s)) (running s) (next_task s) (ticks s) (rands s).
Definition set_running b s : Scheduler C :=
  mkScheduler (tasks s) (task_queue s) b (next_task s) (ticks s) (rands s).
Definition set_next_task f s : Scheduler C :=
  mkScheduler (tasks s) (task_queue s) (running s) (f (next_task s)) (ticks s) (rands s).
Definition set_env_reads k r s : Scheduler C :=
  mkScheduler (tasks s) (task_queue s) (running s) (next_task s) k r.

Definition set_cancelled t : Task C :=
  mkTask (max_calls_ t) (interval_ t) (callable_ t) (due_time_ t) true (paused_ t).
Definition set_paused b t : Task C :=
  mkTask (max_calls_ t) (interval_ t) (callable_ t) (due_time_ t) (cancelled_ t) b.
Definition set_due_time d t : Task C :=
  mkTask (max_calls_ t) (interval_ t) (callable_ t) d (cancelled_ t) (paused_ t).
Definition set_max_calls m t : Task C :=
  mkTask m (interval_ t) (callable_ t) (due_time_ t) (cancelled_ t) (paused_ t).
End updates.

(** The state in which the scheduler thread is created. *)
Definition new_scheduler {C} : Scheduler C := mkScheduler ∅ [] true 0 0 0.

Section scheduler.
Context {C : Type} `{Env}.
Implicit Types (s : Scheduler C).

(** [TimeUtils::now_ms]: the count of milliseconds, as a [uint64_t]. *)
Definition now_ms s : Z * Scheduler C :=
  (u64 (clock (ticks s)), set_env_reads (S (ticks s)) (rands s) s).

Definition call_interval (f : IntervalSupplier) s : result (Z * Scheduler C) :=
  '(v, r) ← f (rands s); Ok (v, set_env_reads (ticks s) r s).

(** [now_ms () + interval ()] *)
Definition due_time_from_now (f : IntervalSupplier) s : result (Z * Scheduler C) :=
  let '(now, s) := now_ms s in
  '(v, s) ← call_interval f s; Ok (u64 (now + v), s).

(** [run_after]: the [Task] constructor, then [task_queue.push]. *)
Definition run_after (interval : IntervalSupplier) (callable : C) (max_calls : Z) s
    : result (nat * Scheduler C) :=
  '(due, s) ← due_time_from_now interval s;
  let id := next_task s in
  let s := set_tasks <[id := mkTask max_calls interval callable due false false]> s in
  let s := set_next_task S s in
  Ok (id, set_task_queue (cons id) s).

Definition schedule (interval : IntervalSupplier) (callable : C) (max_calls : Z) s
    : result (ScheduledTask * Scheduler C) :=
  '(task, s) ← run_after interval callable max_calls s; Ok (mkScheduledTask task, s).

(** The atomic flags of a [Task]. *)
Definition Task_cancel (id : nat) s : Scheduler C := set_tasks (alter set_cancelled id) s.
Definition Task_pause (id : nat) s : Scheduler C := set_tasks (alter (set_paused true) id) s.
Definition Task_resume (id : nat) s : Scheduler C := set_tasks (alter (set_paused false) id) s.

Definition task_of (id : nat) s : result (Task C) :=
  match tasks s !! id with
  | Some t => Ok t
  | None => Err (UndefinedBehaviour "dangling task")
  end.

(** [ScheduledTask::cancel], [pause] and [resume] *)
Definition cancel (h : ScheduledTask) s : Scheduler C := Task_cancel (task_ h) s.
Definition pause (h : ScheduledTask) s : Scheduler C := Task_pause (task_ h) s.
Definition resume (h : ScheduledTask) s : Scheduler C := Task_resume (task_ h) s.

(** [ScheduledTask::reset], with the [task_replacer_] that [schedule] installs. *)
Definition reset (h : ScheduledTask) s : result (ScheduledTask * Scheduler C) :=
  t ← task_of (task_ h) s;
  let cancelled := cancelled_ t in
  let paused := paused_ t in
  let s := Task_cancel (task_ h) s in
  '(task, s) ← run_after (interval_ t) (callable_ t) (max_calls_ t) s;
  let s := if cancelled : bool then Task_cancel task s else s in
  let s := if paused : bool then Task_pause task s else s in
  Ok (mkScheduledTask task, s).

(** [ScheduledTask::ttl]: an unsigned difference. *)
Definition ttl (h : ScheduledTask) s : result (Z * Scheduler C) :=
  t ← task_of (task_ h) s;
  let '(now, s) := now_ms s in
  Ok (u64 (due_time_ t - now), s).

Definition due_time s (id : nat) : Z := from_option due_time_ 0 (tasks s !! id).

(** [task_queue.top ()]: a task with the lowest due time; which one among
    several is up to the heap. *)
Definition earlier s (a b : nat) : nat := if due_time s b <? due_time s a then b else a.

Definition top s : option nat :=
  match heap_order (task_queue s) with
  | [] => None
  | id :: ids => Some (foldl (earlier s) id ids)
  end.

(** [task_queue.pop ()] removes the top element. *)
Fixpoint remove_first (id : nat) (l : list nat) : list nat :=
  match l with
  | [] => []
  | x :: l => if decide (x = id) then l else x :: remove_first id l
  end.

Definition pop (id : nat) s : Scheduler C := set_task_queue (remove_first id) s.

(** [Task::renew] *)
Definition renew (id : nat) s : result (Scheduler C) :=
  t ← task_of id s;
  '(due, s) ← due_time_from_now (interval_ t) s;
  Ok (set_tasks (alter (set_due_time due) id) s).

(** [max_calls_--] and the cancellation it may lead to, at the end of
    [Task::call]. *)
Definition count_call (id : nat) (t : Task C) s : Scheduler C :=
  if 0 <? max_calls_ t then
    let s := set_tasks (alter (set_max_calls (max_calls_ t - 1)) id) s in
    if max_calls_ t - 1 =? 0 then Task_cancel id s else s
  else s.

End scheduler.

(** ** The executor thread *)

(** A program state that contains a scheduler. *)
Class HasScheduler (S C : Type) := {
  sched : S -> Scheduler C;
  with_sched : Scheduler C -> S -> S;
  sched_with_sched c s : sched (with_sched c s) = c;
}.

#[global] Instance scheduler_itself C : HasScheduler (Scheduler C) C := {|
  sched s := s; with_sched c _ := c; sched_with_sched _ _ := eq_refl |}.

Section executor.
Context {S C E : Type} `{Env} `{!HasScheduler S C}.
(** What a callable does when it is called. *)
Context (exec : C -> comp S E unit).

Definition on_sched (f : Scheduler C -> Scheduler C) : comp S E unit :=
  modify (fun s => with_sched (f (sched s)) s).

Definition on_sched_result {A} (f : Scheduler C -> result (A * Scheduler C)) : comp S E A :=
  s ← get_state;
  '(a, c) ← lift (f (sched s));
  modify (with_sched c) ;; mret a.

Lemma run_on_sched {A} f (k : unit -> comp S E A) s :
  (on_sched f ≫= k) s = k tt (with_sched (f (sched s)) s).
Proof. unfold on_sched. by rewrite run_modify. Qed.

Lemma run_on_sched_result {A B} f (k : A -> comp S E B) a c s :
  f (sched s) = Ok (a, c) -> (on_sched_result f ≫= k) s = k a (with_sched c s).
Proof. intros Hf. unfold on_sched_result. run. rewrite Hf. by run. Qed.

(** [Task::call] *)
Definition call (id : nat) : comp S E unit :=
  s ← get_state;
  t ← lift (task_of id (sched s));
  when (negb (cancelled_ t) && negb (paused_ t))
    (exec (callable_ t) ;; on_sched (count_call id t)).

(** The loop of [execute_due_tasks] for the time [now]. *)
Fixpoint execute_loop (fuel : nat) (now : Z) : comp S E unit :=
  match fuel with
  | O => fail_with OutOfFuel
  | Datatypes.S fuel =>
      s ← get_state;
      match top (sched s) with
      | Some next_expired =>
          if due_time (sched s) next_expired <=? now then
            on_sched (pop next_expired) ;;
            (t ← lift (task_of next_expired (sched s));
             when (negb (cancelled_ t))
               (call next_expired ;;
                (on_sched_result (fun c => c ← renew next_expired c; Ok (tt, c)) ;;
                 on_sched (set_task_queue (cons next_expired))))) ;;
            (execute_loop fuel now)
          else mret tt
      | None => mret tt
      end
  end.

Definition execute_due_tasks (fuel : nat) : comp S E unit :=
  s ← get_state;
  if running (sched s) then
    now ← on_sched_result (fun c => Ok (now_ms c));
    execute_loop fuel now
  else mret tt.

(** The predicate the executor waits for: [wait_for] returns as soon as it
    holds, and otherwise when the time is over. *)
Definition wait_predicate (c : Scheduler C) : bool :=
  negb (bool_decide (task_queue c = [])) || negb (running c).

(** The body of the executor's loop after [wait_for] has returned: [None]
    leaves the loop, [Some w] goes on with [wait_time = w]. *)
Definition executor_body (fuel : nat) (wait_time : Z) : comp S E (option Z) :=
  s ← get_state;
  if running (sched s) then
    now ← on_sched_result (fun c => Ok (now_ms c));
    s ← get_state;
    match top (sched s) with
    | None => fail_with (UndefinedBehaviour "top of an empty queue")
    | Some id =>
        if now <? due_time (sched s) id
        then mret (Some (u64 (due_time (sched s) id - now)))
        else execute_due_tasks fuel ;; mret (Some wait_time)
    end
  else mret None.

End executor.

(** [~Scheduler]: the executor leaves its loop and is joined. *)
Definition shutdown {C} (s : Scheduler C) : Scheduler C := set_running false s.

(** ** The scheduler is a timer service *)

Definition view_of {C} (t : Task C) : TimerView C :=
  mkTimerView (callable_ t) (cancelled_ t) (paused_ t).

Definition sched_view {C} (s : Scheduler C) : gmap nat (TimerView C) := view_of <$> tasks s.

(** Every task has a total interval supplier and an identity handed out before;
    the queue holds existing tasks, each at most once. *)
Record sched_wf {C} (s : Scheduler C) : Prop := {
  wf_tasks id t : tasks s !! id = Some t -> supplier_ok (interval_ t) /\ (id < next_task s)%nat;
  wf_queue id : id ∈ task_queue s -> is_Some (tasks s !! id);
  wf_nodup : NoDup (task_queue s);
}.

Section service.
Context {C : Type} `{Env}.
Implicit Types (s : Scheduler C).

Lemma due_time_from_now_ok f s :
  supplier_ok f ->
  exists v r, f (rands s) = Ok (v, r) /\
    due_time_from_now f s
    = Ok (u64 (u64 (clock (ticks s)) + v), set_env_reads (S (ticks s)) r s).
Proof.
  intros Hf. destruct (Hf (rands s)) as (v & r & Hv). exists v, r.
  split; [done|]. unfold due_time_from_now, now_ms, call_interval. cbn. by rewrite Hv.
Qed.

Lemma run_after_ok interval callable max_calls s :
  supplier_ok interval ->
  exists v r, interval (rands s) = Ok (v, r) /\
    run_after interval callable max_calls s
    = Ok (next_task s,
          mkScheduler
            (<[next_task s := mkTask max_calls interval callable
                 (u64 (u64 (clock (ticks s)) + v)) false false]> (tasks s))
            (next_task s :: task_queue s) (running s) (S (next_task s)) (S (ticks s)) r).
Proof.
  intros Hf. destruct (due_time_from_now_ok interval s Hf) as (v & r & Hv & Hd).
  exists v, r. split; [done|]. unfold run_after. by rewrite Hd.
Qed.

Lemma wf_fresh s : sched_wf s -> tasks s !! next_task s = None.
Proof.
  intros Hwf. destruct (tasks s !! next_task s) eqn:Ht; [|done].
  apply (wf_tasks s Hwf) in Ht. lia.
Qed.

(** Changing a flag, or nothing, of a task keeps the scheduler well formed. *)
Lemma wf_alter f id s :
  (forall t, interval_ (f t) = interval_ t) ->
  sched_wf s -> sched_wf (set_tasks (alter f id) s).
Proof.
  intros Hf Hwf. split; simpl.
  - intros id' t Ht. rewrite lookup_alter in Ht. case_decide as Heq; simplify_eq.
    + apply fmap_Some in Ht as (t0 & Ht0 & ->). rewrite Hf. by apply (wf_tasks s Hwf).
    + by apply (wf_tasks s Hwf).
  - intros id' Hin. rewrite lookup_alter. apply (wf_queue s Hwf) in Hin.
    case_decide; simplify_eq; [by apply fmap_is_Some|done].
  - apply (wf_nodup s Hwf).
Qed.

Lemma wf_run_after s t reads r :
  sched_wf s -> supplier_ok (interval_ t) ->
  sched_wf (mkScheduler (<[next_task s := t]> (tasks s)) (next_task s :: task_queue s)
              (running s) (S (next_task s)) reads r).
Proof.
  intros Hwf Ht. split; simpl.
  - intros id t' Hid. destruct (decide (id = next_task s)) as [->|].
    + rewrite lookup_insert_eq in Hid. simplify_eq. split; [done|lia].
    + rewrite lookup_insert_ne in Hid by done. apply (wf_tasks s Hwf) in Hid as [? ?].
      split; [done|lia].
  - intros id [-> | Hin]%elem_of_cons.
    + rewrite lookup_insert_eq. eauto.
    + apply lookup_insert_is_Some'. right. by apply (wf_queue s Hwf).
  - constructor; [|apply (wf_nodup s Hwf)]. intros Hin%(wf_queue s Hwf).
    rewrite wf_fresh in Hin by done. by destruct Hin.
Qed.

Lemma view_alter (f : Task C -> Task C) g id s :
  (forall t, view_of (f t) = g (view_of t)) ->
  sched_view (set_tasks (alter f id) s) = alter g id (sched_view s).
Proof.
  intros Hfg. apply map_eq. intros i. unfold sched_view. simpl.
  rewrite lookup_fmap, !lookup_alter, !lookup_fmap.
  case_decide; [|done]. destruct (tasks s !! id); simpl; [|done]. by rewrite Hfg.
Qed.

Lemma wf_new : sched_wf (new_scheduler : Scheduler C).
Proof. split; simpl; [done|by intros ? []%not_elem_of_nil|constructor]. Qed.

#[export] Instance scheduler_timer_ops : TimerOps (Scheduler C) ScheduledTask C := {|
  ts_schedule := schedule;
  ts_cancel := cancel;
  ts_pause := pause;
  ts_resume := resume;
  ts_reset := reset;
|}.

(** [reset] on a task of the scheduler. *)
Lemma reset_ok h s t :
  sched_wf s -> tasks s !! task_ h = Some t ->
  exists v r due, interval_ t (rands s) = Ok (v, r) /\
    due = u64 (u64 (clock (ticks s)) + v) /\
    reset h s
    = Ok (mkScheduledTask (next_task s),
          mkScheduler
            (<[next_task s := mkTask (max_calls_ t) (interval_ t) (callable_ t) due
                                (cancelled_ t) (paused_ t)]>
               (alter set_cancelled (task_ h) (tasks s)))
            (next_task s :: task_queue s) (running s) (S (next_task s)) (S (ticks s)) r).
Proof.
  intros Hwf Ht. destruct (wf_tasks s Hwf _ _ Ht) as [Hf Hid].
  unfold reset, task_of. rewrite Ht. cbn [mbind result_bind].
  destruct (run_after_ok (interval_ t) (callable_ t) (max_calls_ t)
              (Task_cancel (task_ h) s) Hf) as (v & r & Hv & Hrun).
  exists v, r, (u64 (u64 (clock (ticks s)) + v)). split; [done|]. split; [done|].
  rewrite Hrun. cbn [mbind result_bind]. do 2 f_equal.
  unfold Task_cancel, Task_pause, set_tasks.
  destruct (cancelled_ t), (paused_ t); simpl; f_equal; by rewrite ?alter_insert_eq.
Qed.

#[export] Program Instance scheduler_timer_service :
    TimerService (Scheduler C) ScheduledTask C := {|
  ts_key := task_;
  ts_view := sched_view;
  ts_wf := sched_wf;
|}.
Next Obligation.
  intros interval callable max_calls s Hwf Hf.
  destruct (run_after_ok interval callable max_calls s Hf) as (v & r & Hv & Hrun).
  eexists (mkScheduledTask (next_task s)), _. split_and!.
  - simpl. unfold schedule. rewrite Hrun. done.
  - by apply wf_run_after.
  - simpl. unfold sched_view. by rewrite lookup_fmap, wf_fresh.
  - unfold sched_view. simpl. by rewrite fmap_insert.
Qed.
Next Obligation.
  intros h s Hwf. split; [by apply wf_alter|by apply view_alter].
Qed.
Next Obligation.
  intros h s Hwf. split; [by apply wf_alter|by apply view_alter].
Qed.
Next Obligation.
  intros h s Hwf. split; [by apply wf_alter|by apply view_alter].
Qed.
Next Obligation.
  intros h s v Hwf Hv. unfold sched_view in Hv.
  apply lookup_fmap_Some in Hv as (t & <- & Ht).
  destruct (reset_ok h s t Hwf Ht) as (w & r & due & Hw & -> & Hreset).
  eexists (mkScheduledTask (next_task s)), _. split_and!; [exact Hreset| | |].
  - destruct (wf_tasks s Hwf _ _ Ht).
    refine (wf_run_after (set_tasks (alter set_cancelled (task_ h)) s)
              (mkTask _ _ _ _ _ _) _ _ (wf_alter _ _ _ _ Hwf) _); done.
  - simpl. unfold sched_view. by rewrite lookup_fmap, wf_fresh.
  - pose proof (view_alter set_cancelled view_cancel (task_ h) s ltac:(done)) as Hva.
    unfold sched_view in *. simpl in *. rewrite fmap_insert. by f_equal.
Qed.
End service.

(** ** The priority queue *)

Section queue.
Context {C : Type} `{HE : Env, !EnvOk HE}.
Implicit Types (s : Scheduler C).

Lemma earlier_fold s id ids :
  foldl (earlier s) id ids ∈ id :: ids /\
  forall j, j ∈ id :: ids -> due_time s (foldl (earlier s) id ids) <= due_time s j.
Proof.
  revert id. induction ids as [|x ids IH]; intros id; simpl.
  { split; [by left|]. intros j ->%list_elem_of_singleton. done. }
  destruct (IH (earlier s id x)) as [Hin Hmin]. split.
  - apply elem_of_cons in Hin as [Heq|Hin]; [|by do 2 right].
    rewrite Heq. unfold earlier. case_match; [right; left|left].
  - assert (due_time s (earlier s id x) <= due_time s id /\
            due_time s (earlier s id x) <= due_time s x) as [H1 H2]
      by (unfold earlier; case_match; lia).
    specialize (Hmin (earlier s id x) ltac:(left)) as Hle.
    intros j [-> | [-> | Hj]%elem_of_cons]%elem_of_cons; [lia|lia|].
    apply Hmin. by right.
Qed.

Lemma top_spec s :
  match top s with
  | Some id => id ∈ task_queue s /\
      forall j, j ∈ task_queue s -> due_time s id <= due_time s j
  | None => task_queue s = []
  end.
Proof.
  unfold top. pose proof (heap_order_perm (task_queue s)) as Hperm.
  destruct (heap_order (task_queue s)) as [|id ids].
  - by apply Permutation_nil_l in Hperm.
  - destruct (earlier_fold s id ids) as [Hin Hmin]. split; [by rewrite <- Hperm|].
    intros j Hj. apply Hmin. by rewrite Hperm.
Qed.

Lemma remove_first_perm id l : id ∈ l -> l ≡ₚ id :: remove_first id l.
Proof.
  induction l as [|x l IH]; simpl; [by intros []%not_elem_of_nil|].
  intros Hin. case_decide as Heq; [by subst|].
  apply elem_of_cons in Hin as [|Hin]; [congruence|]. rewrite IH at 1 by done. constructor.
Qed.
End queue.

(** ** One round of the executor

    The callables of this section only leave a trace of their call. *)

Section round.
Context {C : Type} `{HE : Env, !EnvOk HE}.
Implicit Types (s : Scheduler C) (t : Task C).

Definition log_call : C -> comp (Scheduler C) C unit := emit.

Definition active t : bool := negb (cancelled_ t) && negb (paused_ t).

(** The effect of one call and renewal of the task [id] on the scheduler. *)
Definition called (id : nat) t s : Scheduler C :=
  if active t then count_call id t s else s.

Lemma call_log id t s :
  tasks s !! id = Some t ->
  call log_call id s = (if active t then [callable_ t] else [], called id t s, Ok tt).
Proof.
  intros Ht. unfold call, called, active. run. unfold task_of. cbn [sched scheduler_itself].
  rewrite Ht. run. by destruct (negb (cancelled_ t) && negb (paused_ t)).
Qed.

Lemma called_other id j t s :
  j <> id -> tasks (called id t s) !! j = tasks s !! j.
Proof.
  intros Hne. unfold called, count_call. repeat case_match; cbn; rewrite ?lookup_alter_ne; done.
Qed.

Lemma called_same id t s :
  tasks s !! id = Some t ->
  exists t', tasks (called id t s) !! id = Some t' /\ interval_ t' = interval_ t /\
    due_time_ t' = due_time_ t /\ callable_ t' = callable_ t.
Proof.
  intros Ht. unfold called, count_call.
  repeat case_match; cbn; repeat rewrite lookup_alter_eq; rewrite Ht; cbn; eauto.
Qed.

Lemma called_frame id t s :
  task_queue (called id t s) = task_queue s /\ running (called id t s) = running s /\
  next_task (called id t s) = next_task s /\ ticks (called id t s) = ticks s /\
  rands (called id t s) = rands s.
Proof. unfold called, count_call. by repeat case_match. Qed.

Lemma called_wf id t s : sched_wf s -> sched_wf (called id t s).
Proof.
  intros Hwf. unfold called, count_call. repeat case_match; try done; unfold Task_cancel;
    repeat apply wf_alter; done.
Qed.

(** A renewal from now on yields a due time after [now]. *)
Definition renews_after (now : Z) s : Prop :=
  forall k id t r v r', (ticks s <= k)%nat -> tasks s !! id = Some t ->
    interval_ t r = Ok (v, r') -> now < u64 (u64 (clock k) + v).

(** What one iteration of the loop leaves behind. *)
Definition iterated (now : Z) (id : nat) t s s1 : Prop :=
  sched_wf s1 /\ renews_after now s1 /\
  task_queue s1 = (if cancelled_ t then [] else [id]) ++ remove_first id (task_queue s) /\
  (forall j, j <> id -> tasks s1 !! j = tasks s !! j) /\
  (cancelled_ t = false -> now < due_time s1 id).

Lemma wf_pop id s : sched_wf s -> id ∈ task_queue s -> sched_wf (pop id s).
Proof.
  intros Hwf Hin. pose proof (remove_first_perm id _ Hin) as Hperm.
  pose proof (wf_nodup s Hwf) as Hnd. rewrite Hperm in Hnd. apply NoDup_cons in Hnd as [_ Hnd].
  split; simpl; [apply (wf_tasks s Hwf)| |done].
  intros j Hj. apply (wf_queue s Hwf). rewrite Hperm. by right.
Qed.

Lemma renews_after_mono now s s' :
  renews_after now s -> (ticks s <= ticks s')%nat ->
  (forall id t', tasks s' !! id = Some t' ->
     exists t, tasks s !! id = Some t /\ interval_ t' = interval_ t) ->
  renews_after now s'.
Proof.
  intros Hr Hticks Ht k id t' r v r' Hk Hid Hv. destruct (Ht _ _ Hid) as (t & Htid & Heq).
  rewrite Heq in Hv. apply (Hr k id t r v r'); (done || lia).
Qed.

(** Renewing an existing task and putting it back. *)
Lemma renew_push_ok now id t s :
  sched_wf s -> renews_after now s -> tasks s !! id = Some t -> id ∉ task_queue s ->
  exists s1, (c ← renew id s; Ok (tt, c)) = Ok (tt, s1) /\
    let s2 := set_task_queue (cons id) s1 in
    sched_wf s2 /\ renews_after now s2 /\ task_queue s2 = id :: task_queue s /\
    (forall j, j <> id -> tasks s2 !! j = tasks s !! j) /\ now < due_time s2 id.
Proof.
  intros Hwf Hnow Ht Hnin. destruct (wf_tasks s Hwf _ _ Ht) as [Hf Hlt].
  destruct (due_time_from_now_ok (interval_ t) s Hf) as (v & r & Hv & Hd).
  unfold renew, task_of. rewrite Ht. cbn [mbind result_bind]. rewrite Hd. cbn [mbind result_bind].
  eexists. split; [done|]. cbn zeta.
  set (s1 := set_tasks _ _).
  assert (sched_wf s1) as Hwf1.
  { apply wf_alter; [done|]. destruct Hwf. by split. }
  split_and!.
  - split; simpl; [apply (wf_tasks s1 Hwf1)| |].
    + intros j [-> | Hj]%elem_of_cons; [rewrite lookup_alter_eq, Ht; eauto|].
      by apply (wf_queue s1 Hwf1).
    + constructor; [done|apply (wf_nodup s Hwf)].
  - apply (renews_after_mono now s); [done|simpl; lia|]. simpl. intros j t'.
    rewrite lookup_alter. case_decide; [|eauto]. subst. rewrite Ht. intros [= <-]. eauto.
  - done.
  - intros j Hj. simpl. by rewrite lookup_alter_ne.
  - unfold due_time. simpl. rewrite lookup_alter_eq, Ht. simpl.
    apply (Hnow (ticks s) id t (rands s) v r); done.
Qed.

Lemma loop_iteration fuel now s id t :
  sched_wf s -> renews_after now s ->
  top s = Some id -> tasks s !! id = Some t -> due_time_ t <= now ->
  exists s1, iterated now id t s s1 /\
    execute_loop log_call (S fuel) now s
    = after (if active t then [callable_ t] else []) (execute_loop log_call fuel now s1).
Proof.
  intros Hwf Hnow Htop Ht Hdue.
  pose proof (top_spec s) as Htop'. rewrite Htop in Htop'. destruct Htop' as [Hin _].
  cbn [execute_loop]. run. cbn [sched scheduler_itself]. rewrite Htop.
  unfold due_time at 1. rewrite Ht. cbn [from_option].
  rewrite (proj2 (Z.leb_le _ _)) by done.
  rewrite run_on_sched. cbn [sched scheduler_itself with_sched].
  unfold task_of at 1. rewrite Ht. run.
  assert (sched_wf (pop id s)) as Hwf1 by by apply wf_pop.
  assert (id ∉ remove_first id (task_queue s)) as Hnin.
  { pose proof (wf_nodup s Hwf) as Hnd. rewrite (remove_first_perm id) in Hnd by done.
    by apply NoDup_cons in Hnd as [? _]. }
  destruct (cancelled_ t) eqn:Hc.
  { assert (active t = false) as -> by (unfold active; by rewrite Hc).
    exists (pop id s). split; [|by run].
    unfold iterated. rewrite Hc. split_and!; [done|exact Hnow|done..]. }
  cbn [negb when]. run.
  erewrite run_bind_ok by (apply call_log; simpl; done).
  destruct (called_same id t (pop id s) Ht) as (t1 & Ht1 & Hint & _ & _).
  destruct (called_frame id t (pop id s)) as (Hq & _ & _ & Hticks & _).
  destruct (renew_push_ok now id t1 (called id t (pop id s))) as (s1 & Hrenew & Hs1).
  - by apply called_wf.
  - apply (renews_after_mono now s); [done|by rewrite Hticks|]. intros j t' Hj.
    destruct (decide (j = id)) as [->|Hne]; [exists t; split; [done|congruence]|].
    rewrite called_other in Hj by done. eauto.
  - done.
  - by rewrite Hq.
  - cbn zeta in Hs1. destruct Hs1 as (Hwf2 & Hnow2 & Hq2 & Hother & Hdue2).
    eexists (set_task_queue (cons id) s1). split.
    { split_and!; [done..| | |done].
      - by rewrite Hq2, Hq, Hc.
      - intros j Hj. by rewrite Hother, called_other by done. }
    f_equal. run. erewrite run_on_sched_result by (exact Hrenew).
    by rewrite run_on_sched.
Qed.

(** The queued tasks that are due at [now], and those of them to be called. *)
Definition due_now (now : Z) s : list nat :=
  filter (fun id => due_time s id <= now) (task_queue s).

Definition is_active s (id : nat) : Prop := active <$> tasks s !! id = Some true.

#[global] Instance is_active_dec s id : Decision (is_active s id).
Proof. unfold is_active. apply _. Defined.

Definition callable_of s (id : nat) : option C := callable_ <$> tasks s !! id.

Lemma due_now_top now s id :
  sched_wf s -> id ∈ task_queue s -> due_time s id <= now ->
  due_now now s ≡ₚ id :: filter (fun j => due_time s j <= now) (remove_first id (task_queue s)).
Proof.
  intros Hwf Hin Hdue. unfold due_now. rewrite (remove_first_perm id (task_queue s)) at 1 by done.
  by rewrite filter_cons_True.
Qed.

Lemma due_now_iterated now id t s s1 :
  iterated now id t s s1 -> id ∉ remove_first id (task_queue s) ->
  due_now now s1 = filter (fun j => due_time s j <= now) (remove_first id (task_queue s)).
Proof.
  intros (_ & _ & Hq & Hother & Hdue) Hnin. unfold due_now. rewrite Hq.
  transitivity (filter (fun j => due_time s1 j <= now) (remove_first id (task_queue s))).
  { destruct (cancelled_ t); [done|]. simpl. rewrite filter_cons_False; [done|].
    specialize (Hdue eq_refl). lia. }
  apply list_filter_iff_in. intros j Hj. unfold due_time. rewrite Hother; [done|]. congruence.
Qed.

Lemma execute_loop_idle fuel now s :
  due_now now s = [] -> execute_loop log_call (S fuel) now s = ([], s, Ok tt).
Proof.
  intros Hidle. cbn [execute_loop]. run. cbn [sched scheduler_itself].
  pose proof (top_spec s) as Htop. destruct (top s) as [id|]; [|done].
  destruct Htop as [Hin _]. rewrite (proj2 (Z.leb_gt _ _)); [done|].
  apply Z.nle_gt. intros Hdue.
  assert (id ∈ due_now now s) as Hid by by apply list_elem_of_filter.
  rewrite Hidle in Hid. by apply not_elem_of_nil in Hid.
Qed.

(** The due tasks other than the one just handled are as they were. *)
Lemma iterated_others now id t s s1 j :
  iterated now id t s s1 -> id ∉ remove_first id (task_queue s) -> j ∈ due_now now s1 ->
  j <> id /\ j ∈ remove_first id (task_queue s) /\ due_time s1 j = due_time s j /\
  callable_of s1 j = callable_of s j /\ (is_active s1 j <-> is_active s j).
Proof.
  intros Hit Hnin Hj. rewrite (due_now_iterated _ _ _ _ _ Hit Hnin) in Hj.
  apply list_elem_of_filter in Hj as [_ Hj]. assert (j <> id) as Hne by congruence.
  destruct Hit as (_ & _ & _ & Hother & _).
  unfold due_time, callable_of, is_active. by rewrite !(Hother j Hne).
Qed.

(** The loop calls the active due tasks, each once, by due time, and leaves no
    task that is due. *)
Lemma execute_loop_spec fuel now s :
  sched_wf s -> renews_after now s -> (length (due_now now s) < fuel)%nat ->
  exists ids s', execute_loop log_call fuel now s = (omap (callable_of s) ids, s', Ok tt) /\
    ids ≡ₚ filter (is_active s) (due_now now s) /\
    StronglySorted (fun i j => due_time s i <= due_time s j) ids /\
    due_now now s' = [] /\ sched_wf s'.
Proof.
  revert s. induction fuel as [|fuel IH]; intros s Hwf Hnow Hfuel; [lia|].
  destruct (decide (due_now now s = [])) as [Hidle|Hbusy].
  { exists [], s. rewrite execute_loop_idle, Hidle by done.
    split_and!; first [done | apply SSorted_nil]. }
  pose proof (top_spec s) as Htop. destruct (top s) as [id|] eqn:Htop'.
  2: { unfold due_now in Hbusy. by rewrite Htop in Hbusy. }
  destruct Htop as [Hin Hmin]. destruct (wf_queue s Hwf id Hin) as [t Ht].
  assert (due_time s id <= now) as Hdue.
  { apply list_choose in Hbusy as [j [Hle Hj]%list_elem_of_filter].
    specialize (Hmin j Hj). lia. }
  pose proof (due_now_top now s id Hwf Hin Hdue) as Hperm.
  assert (id ∉ remove_first id (task_queue s)) as Hnin.
  { pose proof (wf_nodup s Hwf) as Hnd. rewrite (remove_first_perm id) in Hnd by done.
    by apply NoDup_cons in Hnd as [? _]. }
  destruct (loop_iteration fuel now s id t) as (s1 & Hit & Hrun); try done.
  { unfold due_time in Hdue. by rewrite Ht in Hdue. }
  pose proof (due_now_iterated _ _ _ _ _ Hit Hnin) as Hd1.
  pose proof (fun j => iterated_others _ _ _ _ _ j Hit Hnin) as Hothers.
  destruct (IH s1) as (ids & s' & Hloop & Hids & Hsorted & Hd' & Hwf'); [apply Hit..| |].
  { rewrite Hd1. apply Permutation_length in Hperm. simpl in Hperm. lia. }
  assert (forall j, j ∈ ids -> j ∈ due_now now s1) as Hsub.
  { intros j Hj. rewrite Hids in Hj. by apply list_elem_of_filter in Hj as [_ Hj]. }
  rewrite Hrun, Hloop, (omap_ext_in _ (callable_of s)) by (intros j Hj%Hsub; by apply Hothers).
  rewrite (list_filter_iff_in _ (is_active s)), Hd1 in Hids by (intros j Hj; by apply Hothers).
  apply StronglySorted_impl with (R' := fun i j => due_time s i <= due_time s j) in Hsorted.
  2: { intros x y (_ & _ & Hx & _)%Hsub%Hothers (_ & _ & Hy & _)%Hsub%Hothers. by rewrite Hx, Hy. }
  exists (if active t then id :: ids else ids), s'.
  destruct (active t) eqn:Hact; (split_and!; [| | |done..]).
  - cbn. unfold callable_of at 2. by rewrite Ht.
  - rewrite Hperm, filter_cons_True by (unfold is_active; by rewrite Ht, <- Hact). by rewrite Hids.
  - constructor; [done|]. apply Forall_forall. intros j (_ & Hj & _)%Hsub%Hothers. apply Hmin.
    rewrite (remove_first_perm id) by done. by right.
  - done.
  - by rewrite Hperm, filter_cons_False by (unfold is_active; rewrite Ht; simpl; congruence).
  - done.
Qed.
End round.

(** ** Repeated calls of one task *)

Section calls.
Context {C : Type} `{HE : Env, !EnvOk HE}.
Implicit Types (s : Scheduler C) (t : Task C).

(** The executor calls the task [id] [k] times in a row. *)
Fixpoint calls (k : nat) (id : nat) : comp (Scheduler C) C unit :=
  match k with
  | O => mret tt
  | S k => call log_call id ;; calls k id
  end.

(** How many of [k] calls run the callable. *)
Definition effective_calls (k : nat) (t : Task C) : nat :=
  if active t then if 0 <? max_calls_ t then k `min` Z.to_nat (max_calls_ t) else k else 0%nat.

Lemma called_task id t s :
  tasks s !! id = Some t ->
  exists t', tasks (called id t s) !! id = Some t' /\ callable_ t' = callable_ t /\
    forall k, effective_calls (S k) t = ((if active t then 1 else 0) + effective_calls k t')%nat.
Proof.
  intros Ht. unfold called, effective_calls, count_call.
  destruct (active t) eqn:Hact; [|by exists t; rewrite Hact].
  destruct (Z.ltb_spec 0 (max_calls_ t)) as [Hpos|Hneg].
  2: { exists t. rewrite Hact, (proj2 (Z.ltb_ge _ _)) by done. done. }
  destruct (Z.eqb_spec (max_calls_ t - 1) 0) as [Hone|Hmore]; simpl;
    repeat rewrite lookup_alter_eq; rewrite Ht; simpl; eexists; (split; [done|]); (split; [done|]).
  - intros k. replace (max_calls_ t) with 1 by lia. change (Z.to_nat 1) with 1%nat.
    cbn. lia.
  - intros k. assert (active (set_max_calls (max_calls_ t - 1) t) = active t) as -> by done.
    rewrite Hact. change (max_calls_ (set_max_calls ?x t)) with x.
    rewrite (proj2 (Z.ltb_lt 0 (max_calls_ t - 1))) by lia. cbn iota.
    by replace (Z.to_nat (max_calls_ t)) with (S (Z.to_nat (max_calls_ t - 1))) by lia.
Qed.

Lemma calls_effective k id s t :
  tasks s !! id = Some t ->
  exists s', calls k id s = (replicate (effective_calls k t) (callable_ t), s', Ok tt).
Proof.
  revert s t. induction k as [|k IH]; intros s t Ht; cbn [calls].
  { exists s. unfold effective_calls. by repeat case_match. }
  erewrite run_bind_ok by by apply call_log.
  destruct (called_task id t s Ht) as (t' & Ht' & Hc & Hk).
  destruct (IH _ _ Ht') as [s' ->]. rewrite Hk, Hc.
  exists s'. by destruct (active t).
Qed.

End calls.

(** ** Properties *)

Section properties.
Context {C : Type} `{HE : Env, !EnvOk HE}.
Implicit Types (s : Scheduler C) (t : Task C).

(** The clock does not go back from here on and nothing overflows. *)
Definition clock_sane s : Prop :=
  forall k, (ticks s <= k)%nat -> 0 <= clock (ticks s) <= clock k /\ clock k < 2 ^ 63.

(** Every interval a task may ask for is positive. *)
Definition intervals_positive s : Prop :=
  forall id t r v r', tasks s !! id = Some t -> interval_ t r = Ok (v, r') -> 1 <= v < 2 ^ 63.

Lemma sane_renews s :
  clock_sane s -> intervals_positive s ->
  renews_after (u64 (clock (ticks s))) (set_env_reads (S (ticks s)) (rands s) s).
Proof.
  intros Hclock Hint k id t r v r' Hk Ht Hv. simpl in *.
  destruct (Hclock k ltac:(lia)) as [Hle Hlt]. destruct (Hclock (ticks s) ltac:(lia)).
  specialize (Hint _ _ _ _ _ Ht Hv).
  assert (u64 (clock k) = clock k) as -> by (apply wrap_small; unfold in_range; lia).
  assert (u64 (clock (ticks s)) = clock (ticks s)) as ->
    by (apply wrap_small; unfold in_range; lia).
  rewrite wrap_small by (unfold in_range; lia). lia.
Qed.

(** C22. A round of the executor terminates; it calls exactly the queued tasks
    that are due and neither cancelled nor paused, each once, in the order of
    their due times, and leaves no task in the queue that was due.  The clock
    must not go back and the intervals must be positive. *)
Theorem execute_due_tasks_calls s :
  sched_wf s -> running s = true -> clock_sane s -> intervals_positive s ->
  let now := u64 (clock (ticks s)) in
  exists ids s', execute_due_tasks log_call (S (length (task_queue s))) s
      = (omap (callable_of s) ids, s', Ok tt) /\
    ids ≡ₚ filter (is_active s) (due_now now s) /\
    StronglySorted (fun i j => due_time s i <= due_time s j) ids /\
    due_now now s' = [] /\ sched_wf s'.
Proof.
  intros Hwf Hrun Hclock Hint now. unfold execute_due_tasks. run.
  cbn [sched scheduler_itself]. rewrite Hrun.
  erewrite run_on_sched_result by reflexivity. cbn [with_sched scheduler_itself].
  apply (execute_loop_spec _ now (set_env_reads (S (ticks s)) (rands s) s)).
  - destruct Hwf. by split.
  - by apply sane_renews.
  - apply Nat.lt_succ_r, length_filter.
Qed.

(** [ScheduledTask::reset] cancels the task it refers to and replaces it by
    a new one in the queue, with the same callable, interval, remaining calls
    and cancelled and paused flags, due a fresh interval from now; every other
    task is as before. *)
Theorem reset_replaces h s t :
  sched_wf s -> tasks s !! task_ h = Some t ->
  exists h' s' v r, reset h s = Ok (h', s') /\ interval_ t (rands s) = Ok (v, r) /\
    tasks s !! task_ h' = None /\
    tasks s' !! task_ h' = Some (mkTask (max_calls_ t) (interval_ t) (callable_ t)
        (u64 (u64 (clock (ticks s)) + v)) (cancelled_ t) (paused_ t)) /\
    tasks s' !! task_ h = Some (set_cancelled t) /\
    task_queue s' = task_ h' :: task_queue s /\
    (forall j, j <> task_ h -> j <> task_ h' -> tasks s' !! j = tasks s !! j).
Proof.
  intros Hwf Ht. destruct (reset_ok h s t Hwf Ht) as (v & r & due & Hv & -> & Hreset).
  assert (task_ h <> next_task s) as Hne.
  { intros Heq. rewrite Heq, wf_fresh in Ht by done. done. }
  eexists _, _, v, r. split_and!; [exact Hreset|done|by apply wf_fresh| | |done|].
  - simpl. by rewrite lookup_insert_eq.
  - simpl. by rewrite lookup_insert_ne, lookup_alter_eq, Ht by done.
  - simpl. intros j Hj Hj'. by rewrite lookup_insert_ne, lookup_alter_ne by congruence.
Qed.

(** A task scheduled with a positive [max_calls] runs its callable that many
    times and no more, however often the executor calls it; with the default
    of -1, or with 0, there is no limit; a cancelled or paused task never runs. *)
Theorem max_calls_limits k id s t :
  tasks s !! id = Some t ->
  exists s', calls k id s
    = (replicate (if active t
                  then if 0 <? max_calls_ t then k `min` Z.to_nat (max_calls_ t) else k
                  else 0%nat) (callable_ t), s', Ok tt).
Proof. apply calls_effective. Qed.

(** A scheduler without tasks makes its executor read the top of an empty
    queue: the predicate of [wait_for] stays false, so [wait_for] returns when
    its time (a minute at first) is over, and nothing tests the queue again. *)
Theorem idle_executor_undefined fuel wait_time s :
  running s = true -> task_queue s = [] ->
  wait_predicate s = false /\
  snd (executor_body log_call fuel wait_time s)
  = Err (UndefinedBehaviour "top of an empty queue").
Proof.
  intros Hrun Hq. unfold wait_predicate. rewrite Hrun, bool_decide_eq_true_2 by done.
  split; [done|]. unfold executor_body. run. cbn [sched scheduler_itself]. rewrite Hrun.
  erewrite run_on_sched_result by reflexivity. cbn [with_sched scheduler_itself]. run.
  cbn [sched scheduler_itself]. pose proof (top_spec (set_env_reads (S (ticks s)) (rands s) s)) as Htop.
  destruct (top _); [|done]. simpl in Htop. rewrite Hq in Htop.
  by destruct Htop as [[]%not_elem_of_nil _].
Qed.

(** With a task in the queue the executor never waits: the predicate of
    [wait_for] is true whatever [wait_time] is, so while no task is due the
    loop spins, each turn only reading the clock. *)
Theorem waiting_executor_spins fuel wait_time s :
  running s = true -> task_queue s <> [] ->
  (forall id, id ∈ task_queue s -> u64 (clock (ticks s)) < due_time s id) ->
  wait_predicate s = true /\
  exists w, executor_body log_call fuel wait_time s
    = ([], set_env_reads (S (ticks s)) (rands s) s, Ok (Some w)).
Proof.
  intros Hrun Hq Hdue. unfold wait_predicate. rewrite bool_decide_eq_false_2 by done.
  split; [done|]. unfold executor_body. run. cbn [sched scheduler_itself]. rewrite Hrun.
  erewrite run_on_sched_result by reflexivity. cbn [with_sched scheduler_itself]. run.
  cbn [sched scheduler_itself]. set (s1 := set_env_reads _ _ s).
  pose proof (top_spec s1) as Htop. destruct (top s1) as [id|]; [|done].
  destruct Htop as [Hin _]. rewrite (proj2 (Z.ltb_lt _ _)) by by apply (Hdue id).
  eexists. done.
Qed.

(** [ScheduledTask::ttl] is the time left only before the task is due: for
    an overdue task the unsigned difference wraps around to at least [2 ^ 63]. *)
Theorem ttl_wraps_when_overdue h s t :
  tasks s !! task_ h = Some t -> 0 <= clock (ticks s) < 2 ^ 63 -> 0 <= due_time_ t < 2 ^ 63 ->
  exists v s', ttl h s = Ok (v, s') /\
    (clock (ticks s) <= due_time_ t -> v = due_time_ t - clock (ticks s)) /\
    (due_time_ t < clock (ticks s) ->
       v = 2 ^ 64 - (clock (ticks s) - due_time_ t) /\ 2 ^ 63 <= v).
Proof.
  intros Ht Hclock Hdue. eexists _, _. unfold ttl, task_of, now_ms. rewrite Ht.
  cbn [mbind result_bind]. split; [done|].
  rewrite (wrap_small 64 (clock _)) by (unfold in_range; lia). unfold wrap. split; intros.
  - rewrite Z.mod_small by lia. done.
  - rewrite <- (Z.mod_unique_pos (due_time_ t - clock (ticks s)) (2 ^ 64) (-1)
      (2 ^ 64 - (clock (ticks s) - due_time_ t))) by lia. lia.
Qed.

End properties.

(** ** Examples *)

Section examples.
#[local] Existing Instance example_env.
#[local] Existing Instance example_env_ok.

Definition every (v : Z) : IntervalSupplier := fun r => Ok (v, r).

(** A scheduler with a due task, a paused due task and one due later. *)
Definition sample : Scheduler nat :=
  mkScheduler
    (<[0%nat := mkTask 2 (every 10) 7%nat 1010 false false]>
     (<[1%nat := mkTask (-1) (every 20) 8%nat 1005 false true]>
      (<[2%nat := mkTask (-1) (every 20) 9%nat 5000 false false]> ∅)))
    [0; 1; 2]%nat true 3 50 0.

Lemma sample_tasks id t :
  tasks sample !! id = Some t ->
  (id < 3)%nat /\ exists v, interval_ t = every v /\ 1 <= v < 2 ^ 63.
Proof.
  unfold sample. simpl. rewrite !lookup_insert_Some, lookup_empty.
  intros [[<- <-]|[_ [[<- <-]|[_ [[<- <-]|[_ [=]]]]]]];
    (split; [lia|]); eexists; (split; [done|lia]).
Qed.

Lemma sample_wf : sched_wf sample.
Proof.
  split.
  - intros id t (Hid & v & -> & _)%sample_tasks. split; [|done]. intros r. by exists v, r.
  - intros id Hid. unfold sample in Hid. simpl in Hid.
    rewrite !elem_of_cons, elem_of_nil in Hid. destruct Hid as [-> | [-> | [-> | []]]];
      vm_compute; eauto.
  - by apply (bool_decide_unpack _), I.
Qed.

Lemma execute_due_tasks_calls_witness :
  exists ids s', execute_due_tasks log_call 4 sample = (omap (callable_of sample) ids, s', Ok tt) /\
    ids ≡ₚ [0%nat] /\
    StronglySorted (fun i j => due_time sample i <= due_time sample j) ids /\
    due_now 1050 s' = [] /\ sched_wf s'.
Proof.
  assert (filter (is_active sample) (due_now 1050 sample) = [0%nat]) as Hdue
    by (vm_compute; reflexivity).
  assert (u64 (clock (ticks sample)) = 1050) as Hnow by (vm_compute; reflexivity).
  destruct (execute_due_tasks_calls sample) as (ids & s' & Hrun & Hids & Hrest).
  - exact sample_wf.
  - reflexivity.
  - intros k Hk. cbn in *. lia.
  - intros id t r v r' (_ & w & Hw & Hpos)%sample_tasks. rewrite Hw. intros [= -> _]. done.
  - exists ids, s'. rewrite Hnow in Hids, Hrest. rewrite Hdue in Hids.
    exact (conj Hrun (conj Hids Hrest)).
Defined.

Lemma reset_replaces_witness :
  exists h' s', reset (mkScheduledTask 1) sample = Ok (h', s') /\
    paused_ <$> tasks s' !! task_ h' = Some true /\
    task_queue s' = task_ h' :: [0; 1; 2]%nat.
Proof.
  destruct (reset_replaces (mkScheduledTask 1) sample
              (mkTask (-1) (every 20) 8%nat 1005 false true))
    as (h' & s' & v & r & Hreset & _ & _ & Hnew & _ & Hq & _); [exact sample_wf|reflexivity|].
  exists h', s'. split; [exact Hreset|]. split; [|exact Hq]. rewrite Hnew. reflexivity.
Defined.

Lemma max_calls_limits_witness :
  exists s', calls 5 0 sample = (replicate 2 7%nat, s', Ok tt).
Proof.
  apply (max_calls_limits 5 0 sample (mkTask 2 (every 10) 7%nat 1010 false false)). reflexivity.
Defined.

Lemma idle_executor_undefined_witness :
  wait_predicate (new_scheduler : Scheduler nat) = false /\
  snd (executor_body log_call 9 60000 (new_scheduler : Scheduler nat))
  = Err (UndefinedBehaviour "top of an empty queue").
Proof. apply (idle_executor_undefined 9 60000 (new_scheduler : Scheduler nat)); reflexivity. Defined.

(** The same scheduler with only the late task. *)
Definition late : Scheduler nat := mkScheduler (tasks sample) [2%nat] true 3 50 0.

Lemma waiting_executor_spins_witness :
  wait_predicate late = true /\
  exists w, executor_body log_call 9 60000 late = ([], set_env_reads 51 0 late, Ok (Some w)).
Proof.
  apply (waiting_executor_spins 9 60000 late); [reflexivity|discriminate|].
  intros id ->%list_elem_of_singleton. vm_compute. reflexivity.
Defined.

Lemma ttl_wraps_when_overdue_witness :
  exists v s', ttl (mkScheduledTask 0) sample = Ok (v, s') /\ 2 ^ 63 <= v.
Proof.
  destruct (ttl_wraps_when_overdue (mkScheduledTask 0) sample
              (mkTask 2 (every 10) 7%nat 1010 false false)) as (v & s' & Hv & _ & Hlate);
    [reflexivity|cbn; lia|cbn; lia|].
  exists v, s'. split; [exact Hv|]. apply Hlate. cbn. lia.
Defined.
End examples.
