(* ===== verification/RaftActor.v ===== *)
(** * raft_actor.hpp: peers, quorums and the remote actor

    The peer map is a finite map from server ids to addresses; its iteration
    order is the [hash_order] of the environment.  [RemoteRaftActor] receives
    messages through [on_message] and sends them through a client. *)
From S2P Require Import Prelude Timers NetworkUtil Protocol NodeCommon.
Local Open Scope Z_scope.

(** class RaftActorOptions *)
Record RaftActorOptions (Addr : Type) := mkRaftActorOptions {
  peers : gmap Z Addr;
  server_id : Z;
}.
Arguments mkRaftActorOptions {Addr} _ _.
Arguments peers {Addr} _.
Arguments server_id {Addr} _.

Section actor.
Context {Addr : Type} `{Env}.
Implicit Types (op : RaftActorOptions Addr).

(** [get_peer]: the peer's address, or nullptr. *)
Definition get_peer op (id : Z) : option Addr := peers op !! id.

Definition self op : Z := server_id op.

(** [get_peers]: the addresses of all peers but this server, in the iteration
    order of the map. *)
Definition get_peers op : list Addr :=
  omap (fun id => if id =? self op then None else peers op !! id)
    (hash_order (fst <$> map_to_list (peers op))).

Definition self_address op : option Addr := get_peer op (self op).

Definition majority op : nat := (size (peers op) / 2 + 1)%nat.

(** [*ptr] for a pointer that may be null. *)
Definition deref {A} (p : option A) : result A :=
  match p with
  | Some a => Ok a
  | None => Err (UndefinedBehaviour "null pointer dereference")
  end.

End actor.

(** ** The remote actor *)

(** class RemoteRaftActorAddress *)
Record RemoteRaftActorAddress := mkRemoteAddress { endpoint_ : EndPoint }.

(** class RemoteRaftActorOptions: [max_msg_size] defaults to 1024. *)
Record RemoteRaftActorOptions := mkRemoteOptions {
  base_options : RaftActorOptions RemoteRaftActorAddress;
  max_msg_size : nat;
}.

Definition RemoteRaftActorOptions_of (peers : gmap Z RemoteRaftActorAddress) (server_id : Z)
    : RemoteRaftActorOptions :=
  mkRemoteOptions (mkRaftActorOptions peers server_id) 1024.

(** What the actor asks of the network layer. *)
Inductive NetRequest :=
| ServerStart (op : ServerOptions)   (* [server_->start ()], on a new server *)
| ServerRestart                      (* [server_->start ()] again *)
| ServerStop
| ClientSend (to : EndPoint) (m : Message).

(** class RemoteRaftActor: [server_] and [client_] are created together. *)
Record RemoteRaftActor := mkRemoteActor {
  op_ : RemoteRaftActorOptions;
  server_ : option ServerOptions;
  client_ : bool;
}.

Definition new_RemoteRaftActor (op : RemoteRaftActorOptions) : RemoteRaftActor :=
  mkRemoteActor op None false.

Definition get_options (a : RemoteRaftActor) : RaftActorOptions RemoteRaftActorAddress :=
  base_options (op_ a).

Definition get_port (a : RemoteRaftActor) : result Z :=
  addr ← deref (self_address (get_options a)); Ok (port (endpoint_ addr)).

(** The callback [on_message]: [invalid_argument] is caught and logged. *)
Definition on_message (plat : Platform) (message : Message) : result (option RaftEvent) :=
  match RaftEventFactory.decode plat (data message) with
  | Ok event => Ok (Some event)
  | Err (InvalidArgument _) => Ok None
  | Err f => Err f
  end.

(** [start]: the first call creates the server and the client.  [opens]: the
    acceptor of the server can be opened; otherwise its constructor throws and the
    once-flag stays unset. *)
Definition RemoteRaftActor_start (opens : bool) : comp RemoteRaftActor NetRequest unit :=
  a ← get_state;
  match server_ a with
  | Some _ => emit ServerRestart
  | None =>
      port ← lift (get_port a);
      let server_op := mkServerOptions port (max_msg_size (op_ a)) in
      if opens then
        modify (fun a => mkRemoteActor (op_ a) (Some server_op) true) ;;
        (emit (ServerStart server_op))
      else fail_with (SystemError "acceptor")
  end.

(** [stop]: [server_] is null before the first start. *)
Definition RemoteRaftActor_stop : comp RemoteRaftActor NetRequest unit :=
  a ← get_state;
  _ ← lift (deref (server_ a));
  emit ServerStop.

(** [send]: without a client the code reports the error and goes on. *)
Definition RemoteRaftActor_send (plat : Platform) (event : RaftEvent)
    (address : RemoteRaftActorAddress) : comp RemoteRaftActor NetRequest unit :=
  a ← get_state;
  bytes ← lift (encode plat event);
  let message := mkMessage bytes in
  let endpoint := endpoint_ address in
  if client_ a then emit (ClientSend endpoint message)
  else fail_with (UndefinedBehaviour "call through a null client_").

(** ** Peers and quorums *)

Section lemmas.
Context {Addr : Type} `{HE : Env, !EnvOk HE}.
Implicit Types (op : RaftActorOptions Addr).

Lemma elem_of_get_peers op a :
  a ∈ get_peers op <-> exists id, id <> self op /\ peers op !! id = Some a.
Proof.
  unfold get_peers. rewrite list_elem_of_omap. setoid_rewrite hash_order_perm. split.
  - intros (id & _ & Hid). exists id. destruct (Z.eqb_spec id (self op)); [done|]. done.
  - intros (id & Hne & Hid). exists id. rewrite (proj2 (Z.eqb_neq _ _)) by done.
    split; [|done]. apply list_elem_of_fmap. exists (id, a). split; [done|].
    by apply elem_of_map_to_list.
Qed.

Lemma omap_lookup_entries (m : gmap Z Addr) (me : Z) (l : list (Z * Addr)) :
  (forall i x, (i, x) ∈ l -> i <> me /\ m !! i = Some x) ->
  omap (fun id => if id =? me then None else m !! id) l.*1 = l.*2.
Proof.
  induction l as [|[i x] l IH]; intros Hl; [done|]. cbn.
  destruct (Hl i x) as [Hne Hi]; [left|]. rewrite (proj2 (Z.eqb_neq _ _)), Hi by done.
  f_equal. apply IH. intros j y Hj. apply Hl. by right.
Qed.

Lemma get_peers_perm op : get_peers op ≡ₚ (map_to_list (delete (self op) (peers op))).*2.
Proof.
  unfold get_peers. rewrite hash_order_perm.
  set (m := peers op). set (me := self op).
  rewrite <- (omap_lookup_entries m me).
  2: { intros i x Hi%elem_of_map_to_list. by apply lookup_delete_Some in Hi as [? ?]. }
  destruct (m !! me) as [a|] eqn:Hme.
  - rewrite <- (map_to_list_delete m me a) by done. cbn. by rewrite Z.eqb_refl.
  - by rewrite delete_id.
Qed.

(** Two majorities of the same group share a member. *)
Lemma majorities_meet op (P Q : gset Z) :
  P ⊆ dom (peers op) -> Q ⊆ dom (peers op) ->
  (majority op <= size P)%nat -> (majority op <= size Q)%nat -> exists p, p ∈ P /\ p ∈ Q.
Proof.
  intros HP HQ Hp Hq. apply (quorum_meet (dom (peers op))); [done..|].
  rewrite size_dom. unfold majority in *.
  pose proof (Nat.div_mod_eq (size (peers op)) 2).
  pose proof (Nat.mod_upper_bound (size (peers op)) 2). lia.
Qed.

(** ** Properties *)

(** [get_peers] lists the other servers: in some order, the addresses of the
    entries of the peer map other than this server's own. *)
Theorem get_peers_others op :
  get_peers op ≡ₚ (map_to_list (delete (self op) (peers op))).*2.
Proof. apply get_peers_perm. Qed.

(** Two sets of servers that each reach [majority] have a common member:
    [size / 2 + 1] is a quorum for every number of servers. *)
Theorem majority_is_quorum op (P Q : gset Z) :
  P ⊆ dom (peers op) -> Q ⊆ dom (peers op) ->
  (majority op <= size P)%nat -> (majority op <= size Q)%nat -> P ∩ Q <> ∅.
Proof.
  intros HP HQ Hp Hq. destruct (majorities_meet op P Q) as (p & Hp' & Hq'); [done..|].
  set_solver.
Qed.

End lemmas.

(** Handling of a received message never raises [invalid_argument]: a
    message of unknown type is dropped, and one with a type and a body of the
    right length reaches the event handler; a truncated body is undefined
    behaviour, so a peer can crash this server with a message of two bytes. *)
Theorem on_message_outcomes plat m :
  (2 <= length (data m))%nat ->
  let type := type_of plat (data m) in
  (~ known_type type -> on_message plat m = Ok None) /\
  (known_type type -> body_length_ok type (length (data m) - 2) ->
     exists e, on_message plat m = Ok (Some e) /\ get_type e = type) /\
  (known_type type -> ~ body_length_ok type (length (data m) - 2) ->
     exists what, on_message plat m = Err (UndefinedBehaviour what)).
Proof.
  intros Hlen type. unfold on_message. split; [|split].
  - intros Hknown. by rewrite decode_unknown.
  - intros Hknown Hbody. destruct (decode_known plat (data m) Hlen Hknown)
      as [(_ & e & -> & He)|[Hno _]]; [eauto|done].
  - intros Hknown Hbody. destruct (decode_known plat (data m) Hlen Hknown)
      as [[Hok _]|(_ & what & ->)]; [done|eauto].
Qed.

(** The life of a remote actor: before [start] every [send] and [stop]
    dereferences a null pointer, [start] needs this server's own address and
    listens on its port with the configured buffer size, and after it [send]
    hands the encoded event to the client.  A start that fails because the port is
    taken changes nothing and can be repeated. *)
Theorem remote_actor_lifecycle plat op address event :
  let a := new_RemoteRaftActor op in
  (exists what, snd (RemoteRaftActor_send plat event address a) = Err (UndefinedBehaviour what)) /\
  (exists what, snd (RemoteRaftActor_stop a) = Err (UndefinedBehaviour what)) /\
  match self_address (base_options op) with
  | None => forall opens, exists what, snd (RemoteRaftActor_start opens a) = Err (UndefinedBehaviour what)
  | Some me =>
      RemoteRaftActor_start false a = ([], a, Err (SystemError "acceptor")) /\
      exists a', RemoteRaftActor_start true a
        = ([ServerStart (mkServerOptions (port (endpoint_ me)) (max_msg_size op))], a', Ok tt) /\
      (forall opens, RemoteRaftActor_start opens a' = ([ServerRestart], a', Ok tt)) /\
      RemoteRaftActor_stop a' = ([ServerStop], a', Ok tt) /\
      RemoteRaftActor_send plat event address a'
      = ([ClientSend (endpoint_ address) (mkMessage (wire plat event))], a', Ok tt)
  end.
Proof.
  intros a. split; [|split].
  - unfold RemoteRaftActor_send. run. rewrite encode_wire. run. simpl. eauto.
  - unfold RemoteRaftActor_stop. run. simpl. eauto.
  - destruct (self_address (base_options op)) as [me|] eqn:Hme.
    + split; [unfold RemoteRaftActor_start; run; simpl; unfold get_port, get_options; simpl; rewrite Hme; by run|].
      eexists. split_and!.
      * unfold RemoteRaftActor_start. run. simpl. unfold get_port, get_options. simpl.
        rewrite Hme. by run.
      * done.
      * done.
      * unfold RemoteRaftActor_send. run. rewrite encode_wire. by run.
    + intros opens. unfold RemoteRaftActor_start. run. simpl. unfold get_port, get_options. simpl.
      rewrite Hme. simpl. eauto.
Qed.

(** ** Examples *)

Section examples.
#[local] Existing Instance example_env.
#[local] Existing Instance example_env_ok.

(** Five local servers, seen from server 1. *)
Definition five_peers : gmap Z RemoteRaftActorAddress :=
  list_to_map ((fun i => (i, mkRemoteAddress (mkEndPoint "localhost" (9989 + i)))) <$> [1; 2; 3; 4; 5]).

Definition five_options : RaftActorOptions RemoteRaftActorAddress :=
  mkRaftActorOptions five_peers 1.

Lemma get_peers_others_witness :
  get_peers five_options ≡ₚ (map_to_list (delete 1 five_peers)).*2.
Proof. exact (get_peers_others five_options). Defined.

Lemma majority_is_quorum_witness :
  ({[1; 2; 3]} : gset Z) ∩ {[3; 4; 5]} <> ∅.
Proof.
  apply (majority_is_quorum five_options).
  1,2: apply (bool_decide_unpack _); vm_compute; exact I.
  all: vm_compute; lia.
Defined.

Lemma on_message_outcomes_witness :
  exists what, on_message x86_64 (mkMessage [1; 0]) = Err (UndefinedBehaviour what).
Proof.
  destruct (on_message_outcomes x86_64 (mkMessage [1; 0])) as (_ & _ & Hshort); [vm_compute; lia|].
  apply Hshort.
  - vm_compute. left.
  - intros [[_ Hn]|[_ Hn]]; vm_compute in Hn; [discriminate|lia].
Defined.
End examples.
