(* ===== verification/Fsm.v ===== *)
(** * fsm.hpp: the state machine of one server

    [RaftFSM] holds the members of the class that change; [actor_] and
    [options_] are the parameters [actor] and [options].  Every method is a
    computation that emits the calls it makes to the actor and to the user's
    callbacks; the timers go through the interface of Timers.v.  [handler_mtx_]
    makes [handle] atomic here; the public methods and the heartbeat do not take
    it.  Cluster.v says which of their parts it interleaves with other threads,
    and Overlap.v what happens between the others. *)
From S2P Require Import Prelude Timers NetworkUtil Protocol RaftActor.
Local Open Scope Z_scope.

(** ** Data *)

Inductive RaftRole := follower | candidate | leader.

#[global] Instance RaftRole_eq_dec : EqDecision RaftRole.
Proof. solve_decision. Defined.

(** class Voter *)
Record Voter := mkVoter { last_voted : Z; last_voted_term : Z }.

#[global] Instance Voter_eq_dec : EqDecision Voter.
Proof. solve_decision. Defined.

Definition new_Voter : Voter := mkVoter 0 0.

Definition vote_for_leader (event : RaftEvent) (v : Voter) : bool * Voter :=
  if get_term event <? last_voted_term v then (false, v)
  else if get_term event =? last_voted_term v then
    if get_server_id event =? last_voted v then (true, v) else (false, v)
  else (true, mkVoter (get_server_id event) (get_term event)).

(** What the public getters show, and the public methods a callback may call. *)
Record Observation := mkObservation {
  get_role : RaftRole;
  fsm_get_term : Z;
  get_leader : Z;
  get_votes : gset Z;
}.

Inductive ApiCall := CallStayFollower | CallBlock | CallUnblock | CallStop.

(** [RaftFSMCallback]: the calls a callback makes, chosen from what it sees. *)
Definition RaftFSMCallback := Observation -> list ApiCall.

(** struct RaftFSMOptions; an empty [std::function] is [None]. *)
Record RaftFSMOptions := mkFSMOptions {
  opt_election_timeout : Z * Z;
  heart_beat_rate : Z;
  on_become_leader : option RaftFSMCallback;
  on_sign_off_leader : option RaftFSMCallback;
}.

Definition default_FSMOptions : RaftFSMOptions := mkFSMOptions (150, 300) 50 None None.

(** The two callables the state machine schedules. *)
Inductive FsmCallable := FireElectionTimeout | SendHeartbeats.

Inductive CallbackName := OnBecomeLeader | OnSignOffLeader.

Inductive FsmEffect (Addr : Type) :=
| Send (to : Addr) (event : RaftEvent)   (* [get_actor ()->send (event, *to)] *)
| StartActor
| StopActor
| Invoke (callback : CallbackName).
Arguments Send {Addr} _ _.
Arguments StartActor {Addr}.
Arguments StopActor {Addr}.
Arguments Invoke {Addr} _.

Record RaftFSM (T H : Type) := mkFSM {
  scheduler_ : T;
  blocked_ : bool;
  role_ : RaftRole;
  term_ : Z;
  leader_ : Z;
  voter_ : Voter;
  election_timeout_task_ : option H;
  voted_peers_ : gset Z;
  heartbeat_task_ : option H;
}.
Arguments mkFSM {T H} _ _ _ _ _ _ _ _ _.
Arguments scheduler_ {T H} _.
Arguments blocked_ {T H} _.
Arguments role_ {T H} _.
Arguments term_ {T H} _.
Arguments leader_ {T H} _.
Arguments voter_ {T H} _.
Arguments election_timeout_task_ {T H} _.
Arguments voted_peers_ {T H} _.
Arguments heartbeat_task_ {T H} _.

Section updates.
Context {T H : Type}.
Implicit Types s : RaftFSM T H.

Definition set_scheduler x s : RaftFSM T H := mkFSM x (blocked_ s) (role_ s) (term_ s) (leader_ s)
  (voter_ s) (election_timeout_task_ s) (voted_peers_ s) (heartbeat_task_ s).
Definition set_blocked x s : RaftFSM T H := mkFSM (scheduler_ s) x (role_ s) (term_ s) (leader_ s)
  (voter_ s) (election_timeout_task_ s) (voted_peers_ s) (heartbeat_task_ s).
Definition set_role x s : RaftFSM T H := mkFSM (scheduler_ s) (blocked_ s) x (term_ s) (leader_ s)
  (voter_ s) (election_timeout_task_ s) (voted_peers_ s) (heartbeat_task_ s).
Definition set_term x s : RaftFSM T H := mkFSM (scheduler_ s) (blocked_ s) (role_ s) x (leader_ s)
  (voter_ s) (election_timeout_task_ s) (voted_peers_ s) (heartbeat_task_ s).
Definition set_voter x s : RaftFSM T H := mkFSM (scheduler_ s) (blocked_ s) (role_ s) (term_ s)
  (leader_ s) x (election_timeout_task_ s) (voted_peers_ s) (heartbeat_task_ s).
Definition set_election_task x s : RaftFSM T H := mkFSM (scheduler_ s) (blocked_ s) (role_ s)
  (term_ s) (leader_ s) (voter_ s) x (voted_peers_ s) (heartbeat_task_ s).
Definition set_voted_peers x s : RaftFSM T H := mkFSM (scheduler_ s) (blocked_ s) (role_ s)
  (term_ s) (leader_ s) (voter_ s) (election_timeout_task_ s) x (heartbeat_task_ s).
Definition set_heartbeat_task x s : RaftFSM T H := mkFSM (scheduler_ s) (blocked_ s) (role_ s)
  (term_ s) (leader_ s) (voter_ s) (election_timeout_task_ s) (voted_peers_ s) x.
End updates.

(** The interval suppliers of the two tasks.  [rand () % gap + min] is [int]
    arithmetic, converted to [uint64_t] on return. *)
Definition election_interval `{Env} (options : RaftFSMOptions) : IntervalSupplier := fun r =>
  let '(min, second) := opt_election_timeout options in
  gap ← int_arith (second - min);
  _ ← defined_when (negb (gap =? 0)) "remainder by zero";
  v ← int_arith (Z.rem (rand r) gap + min);
  Ok (u64 v, S r).

Definition heartbeat_interval (options : RaftFSMOptions) : IntervalSupplier := fun r =>
  Ok (u64 (heart_beat_rate options), r).

(** ** The methods *)

Section fsm.
Context {T H Addr : Type} `{Env} `{!TimerOps T H FsmCallable}.
Context (actor : RaftActorOptions Addr) (options : RaftFSMOptions).

Local Abbreviation fsm := (RaftFSM T H).
Local Abbreviation M := (comp fsm (FsmEffect Addr)).

(** The constructor: [leader_ (-1)] is a conversion to [uint64_t]. *)
Definition new_RaftFSM (scheduler : T) : fsm :=
  mkFSM scheduler false follower 0 (u64 (-1)) new_Voter None ∅ None.

Definition is_leader (s : fsm) : bool := bool_decide (role_ s = leader).

Definition observe (s : fsm) : Observation :=
  mkObservation (role_ s) (term_ s) (leader_ s) (voted_peers_ s).

Definition is_stale (event : RaftEvent) (s : fsm) : bool := get_term event <? term_ s.

(** [*peer_address (event)], as every caller uses it *)
Definition peer_address (event : RaftEvent) : M Addr :=
  lift (deref (get_peer actor (get_server_id event))).

Definition send (event : RaftEvent) (to : Addr) : M unit := emit (Send to event).

Definition inc_term : M unit := modify (fun s => set_term (u64 (term_ s + 1)) s).

(** [if (task) task->f ()] *)
Definition if_task (task : fsm -> option H) (f : H -> T -> T) : M unit :=
  s ← get_state;
  match task s with
  | Some h => modify (set_scheduler (f h (scheduler_ s)))
  | None => mret tt
  end.

Definition cancel_scheduled_tasks : M unit :=
  if_task election_timeout_task_ ts_cancel ;;
  (if_task heartbeat_task_ ts_cancel).

Definition pause_scheduled_tasks : M unit :=
  if_task election_timeout_task_ ts_pause ;;
  (if_task heartbeat_task_ ts_pause).

Definition start_heartbeat : M unit :=
  s ← get_state;
  match heartbeat_task_ s with
  | None =>
      '(h, t) ← lift (ts_schedule (heartbeat_interval options) SendHeartbeats (-1) (scheduler_ s));
      modify (fun s => set_heartbeat_task (Some h) (set_scheduler t s))
  | Some h => modify (set_scheduler (ts_resume h (scheduler_ s)))
  end.

Definition stop_heartbeat : M unit := if_task heartbeat_task_ ts_pause.

Definition start_election_timeout : M unit :=
  s ← get_state;
  match election_timeout_task_ s with
  | None =>
      '(h, t) ← lift (ts_schedule (election_interval options) FireElectionTimeout (-1) (scheduler_ s));
      modify (fun s => set_election_task (Some h) (set_scheduler t s))
  | Some h => modify (set_scheduler (ts_resume h (scheduler_ s)))
  end.

Definition stop_election_timeout : M unit := if_task election_timeout_task_ ts_pause.

(** [election_timeout_task_->reset ()], which has no null check *)
Definition reset_election_timeout : M unit :=
  s ← get_state;
  h ← lift (deref (election_timeout_task_ s));
  '(h', t) ← lift (ts_reset h (scheduler_ s));
  modify (fun s => set_election_task (Some h') (set_scheduler t s)).

Definition init_follower_state : M unit := start_election_timeout.

Definition clear_follower_state : M unit := mret tt.

Definition vote_self : M bool :=
  s ← get_state;
  let '(voted, v) := vote_for_leader (RequestVoteReq (self actor) (term_ s)) (voter_ s) in
  modify (set_voter v) ;;
  (when voted (modify (fun s => set_voted_peers ({[self actor]} ∪ voted_peers_ s) s)) ;;
   mret voted).

Definition request_vote_for_self : M unit :=
  for_each (fun peer =>
      s ← get_state; send (RequestVoteReq (self actor) (term_ s)) peer)
    (get_peers actor).

Definition init_candidate_state : M unit :=
  start_election_timeout ;; (vote_self ;; request_vote_for_self).

Definition clear_candidate_state : M unit :=
  stop_election_timeout ;; (modify (set_voted_peers ∅)).

Definition init_leader_state : M unit := start_heartbeat.

Definition clear_leader_state : M unit := stop_heartbeat.

Definition clear_prev_state : M unit :=
  s ← get_state;
  match role_ s with
  | follower => clear_follower_state
  | candidate => clear_candidate_state
  | leader => clear_leader_state
  end.

Definition start_new_election : M unit :=
  s ← get_state;
  when (bool_decide (role_ s = candidate))
    (inc_term ;; (clear_candidate_state ;; init_candidate_state)).

(** Call a callback; [run] executes the methods it calls. *)
Definition invoke (run : list ApiCall -> M unit) (name : CallbackName)
    (callback : option RaftFSMCallback) : M unit :=
  match callback with
  | None => mret tt
  | Some fn =>
      emit (Invoke name) ;;
      (s ← get_state; run (fn (observe s)))
  end.

Definition convert_to_follower_with (run : list ApiCall -> M unit) : M unit :=
  s ← get_state;
  let was_leader := is_leader s in
  when (negb (bool_decide (role_ s = follower)))
    (clear_prev_state ;;
     (modify (set_role follower) ;;
      (init_follower_state ;;
       (when was_leader (invoke run OnSignOffLeader (on_sign_off_leader options)))))).

Definition stay_follower_with (run : list ApiCall -> M unit) : M unit :=
  convert_to_follower_with run ;; pause_scheduled_tasks.

Definition block_with (run : list ApiCall -> M unit) : M unit :=
  stay_follower_with run ;; (modify (set_blocked true)).

Definition unblock : M unit := modify (set_blocked false).

Definition stop : M unit := emit StopActor.

Definition api_call_with (run : list ApiCall -> M unit) (c : ApiCall) : M unit :=
  match c with
  | CallStayFollower => stay_follower_with run
  | CallBlock => block_with run
  | CallUnblock => unblock
  | CallStop => stop
  end.

(** The calls a callback makes may lead to further callbacks: [depth] bounds
    the nesting. *)
Fixpoint run_calls (depth : nat) (calls : list ApiCall) : M unit :=
  match depth with
  | O => match calls with [] => mret tt | _ => fail_with OutOfFuel end
  | Datatypes.S depth => for_each (api_call_with (run_calls depth)) calls
  end.

(** The nesting that occurs: [on_become_leader] may sign off the leadership. *)
Definition callback_depth : nat := 2.

Definition convert_to_follower : M unit := convert_to_follower_with (run_calls callback_depth).
Definition stay_follower : M unit := stay_follower_with (run_calls callback_depth).
Definition block : M unit := block_with (run_calls callback_depth).

Definition convert_to_candidate : M unit :=
  s ← get_state;
  let was_leader := is_leader s in
  clear_prev_state ;;
  (inc_term ;;
   (modify (set_role candidate) ;;
    (init_candidate_state ;;
     (when was_leader
        (invoke (run_calls callback_depth) OnSignOffLeader (on_sign_off_leader options)))))).

Definition convert_to_leader : M unit :=
  clear_prev_state ;;
  (inc_term ;;
   (modify (set_role leader) ;;
    (init_leader_state ;;
     (invoke (run_calls callback_depth) OnBecomeLeader (on_become_leader options))))).

Definition handle_request_vote (event : RaftEvent) : M unit :=
  s ← get_state;
  if is_stale event s then
    to ← peer_address event;
    send (RequestVoteRes (self actor) (term_ s) false) to
  else
    when (bool_decide (role_ s = follower)) reset_election_timeout ;;
    (s ← get_state;
     let '(granted, v) := vote_for_leader event (voter_ s) in
     modify (set_voter v) ;;
     (to ← peer_address event;
      send (RequestVoteRes (self actor) (term_ s) granted) to)).

Definition handle_request_vote_response (event : RaftEvent) (vote_granted : bool) : M unit :=
  s ← get_state;
  when (negb (is_stale event s) && bool_decide (role_ s = candidate) && vote_granted)
    (modify (fun s => set_voted_peers ({[get_server_id event]} ∪ voted_peers_ s) s) ;;
     (s ← get_state;
      when (bool_decide (majority actor <= size (voted_peers_ s))%nat) convert_to_leader)).

Definition handle_append_entries (event : RaftEvent) : M unit :=
  if is_heartbeat event then
    s ← get_state;
    when (negb (is_stale event s))
      (when (bool_decide (role_ s = candidate \/ role_ s = follower)) reset_election_timeout ;;
       (when (bool_decide (role_ s = candidate)) convert_to_follower)) ;;
    (s ← get_state;
     to ← peer_address event;
     send (AppendEntriesRes (self actor) (term_ s)) to)
  else fail_with (InvalidArgument "unsupported event type for leader election").

Definition handle_append_entries_response (event : RaftEvent) : M unit := mret tt.

Definition handle_election_timeout : M unit :=
  s ← get_state;
  match role_ s with
  | follower => convert_to_candidate
  | candidate => start_new_election
  | leader => mret tt
  end.

(** The body of [handle] once the mutex is held. *)
Definition handle_locked (event : RaftEvent) : M unit :=
  s ← get_state;
  when (term_ s <? get_term event)
    (modify (set_term (get_term event)) ;; convert_to_follower) ;;
  match event with
  | RequestVoteReq _ _ => handle_request_vote event
  | RequestVoteRes _ _ vote_granted => handle_request_vote_response event vote_granted
  | AppendEntriesReq _ _ => handle_append_entries event
  | AppendEntriesRes _ _ => handle_append_entries_response event
  | ElectionTimeoutEvent => handle_election_timeout
  end.

Definition handle (event : RaftEvent) : M unit :=
  s ← get_state;
  if blocked_ s then mret tt else handle_locked event.

Definition start : M unit := init_follower_state ;; (emit StartActor).

(** The callables of the two tasks, as the executor thread calls them.  The
    loop of the heartbeat holds no mutex and reads [term_] anew for every peer:
    [send_heartbeats] is the loop without interruption; Cluster.v runs its turns
    as steps of their own. *)
Definition send_heartbeat (peer : Addr) : M unit :=
  s ← get_state; send (AppendEntriesReq (self actor) (term_ s)) peer.

Definition send_heartbeats : M unit := for_each send_heartbeat (get_peers actor).

Definition run_callable (c : FsmCallable) : M unit :=
  match c with
  | FireElectionTimeout => handle ElectionTimeoutEvent
  | SendHeartbeats => send_heartbeats
  end.

(** [~RaftFSM] *)
Definition destroy : M unit := cancel_scheduled_tasks ;; stop.

End fsm.
