(* ===== verification/ElectionSpec.v ===== *)
(** * The election rules of a server, as pure functions

    An abstract specification of fsm.hpp without the scheduler: a [Node] is the
    role, term, vote and votes of a server, whether it is blocked, and for each
    of its two timers whether it is absent, running or suspended.  Each rule
    maps a node to the effects it emits and the next node.  FsmRefinement.v
    proves that the methods of Fsm.v implement them. *)
From S2P Require Import Prelude Timers NetworkUtil Protocol RaftActor Fsm.
Local Open Scope Z_scope.

Inductive TimerStatus := Absent | Running | Suspended.

#[global] Instance TimerStatus_eq_dec : EqDecision TimerStatus.
Proof. solve_decision. Defined.

Record Node := mkNode {
  n_blocked : bool;
  n_role : RaftRole;
  n_term : Z;
  n_voter : Voter;
  n_votes : gset Z;
  n_election : TimerStatus;
  n_heartbeat : TimerStatus;
}.

Definition new_Node : Node := mkNode false follower 0 new_Voter ∅ Absent Absent.

Definition suspend (t : TimerStatus) : TimerStatus :=
  match t with Absent => Absent | _ => Suspended end.

Section spec.
Context {Addr : Type} `{Env}.
Context (actor : RaftActorOptions Addr) (options : RaftFSMOptions).
Implicit Types (n : Node).

Local Abbreviation out := (list (FsmEffect Addr) * Node)%type.

(** One rule after another. *)
Definition then_ (o : out) (f : Node -> out) : out :=
  let '(es, n) := o in let '(es', n') := f n in (es ++ es', n').

Fixpoint each {A} (f : A -> Node -> out) (l : list A) (n : Node) : out :=
  match l with
  | [] => ([], n)
  | x :: l => then_ (f x n) (each f l)
  end.

Definition broadcast (event : RaftEvent) : list (FsmEffect Addr) :=
  (fun peer => Send peer event) <$> get_peers actor.

Definition reply (event answer : RaftEvent) : list (FsmEffect Addr) :=
  match get_peer actor (get_server_id event) with
  | Some to => [Send to answer]
  | None => []
  end.

Definition observe_node (n : Node) : Observation :=
  mkObservation (n_role n) (n_term n) uint64_max (n_votes n).

Definition node_pause (n : Node) : Node :=
  mkNode (n_blocked n) (n_role n) (n_term n) (n_voter n) (n_votes n)
    (suspend (n_election n)) (suspend (n_heartbeat n)).

Definition node_block (b : bool) (n : Node) : Node :=
  mkNode b (n_role n) (n_term n) (n_voter n) (n_votes n) (n_election n) (n_heartbeat n).

Definition node_term (t : Z) (n : Node) : Node :=
  mkNode (n_blocked n) (n_role n) t (n_voter n) (n_votes n) (n_election n) (n_heartbeat n).

Definition node_voter (v : Voter) (n : Node) : Node :=
  mkNode (n_blocked n) (n_role n) (n_term n) v (n_votes n) (n_election n) (n_heartbeat n).

Definition node_votes (p : gset Z) (n : Node) : Node :=
  mkNode (n_blocked n) (n_role n) (n_term n) (n_voter n) p (n_election n) (n_heartbeat n).

(** A call made by a callback of a server that is a follower. *)
Definition quiet_call (c : ApiCall) (n : Node) : out :=
  match c with
  | CallStayFollower => ([], node_pause n)
  | CallBlock => ([], node_block true (node_pause n))
  | CallUnblock => ([], node_block false n)
  | CallStop => ([StopActor], n)
  end.

Definition signed_off (n : Node) : out :=
  match on_sign_off_leader options with
  | None => ([], n)
  | Some fn => then_ ([Invoke OnSignOffLeader], n) (each quiet_call (fn (observe_node n)))
  end.

(** The node as a follower that waits for its election timeout. *)
Definition as_follower (n : Node) : Node :=
  match n_role n with
  | follower => n
  | candidate =>
      mkNode (n_blocked n) follower (n_term n) (n_voter n) ∅ Running (n_heartbeat n)
  | leader =>
      mkNode (n_blocked n) follower (n_term n) (n_voter n) (n_votes n) Running
        (suspend (n_heartbeat n))
  end.

Definition step_down (n : Node) : out :=
  match n_role n with
  | leader => signed_off (as_follower n)
  | _ => ([], as_follower n)
  end.

Definition stay_follower_rule (n : Node) : out :=
  then_ (step_down n) (fun n => ([], node_pause n)).

Definition full_call (c : ApiCall) (n : Node) : out :=
  match c with
  | CallStayFollower => stay_follower_rule n
  | CallBlock => then_ (stay_follower_rule n) (fun n => ([], node_block true n))
  | CallUnblock => ([], node_block false n)
  | CallStop => ([StopActor], n)
  end.

(** A candidate of the next term: it votes for itself and asks the others. *)
Definition candidacy (n : Node) : out :=
  let term := u64 (n_term n + 1) in
  let request := RequestVoteReq (self actor) term in
  let '(voted, v) := vote_for_leader request (n_voter n) in
  let votes := if n_role n is candidate then ∅ else n_votes n in
  (broadcast request,
   mkNode (n_blocked n) candidate term v (if voted then {[self actor]} ∪ votes else votes)
     Running (n_heartbeat n)).

Definition become_leader (n : Node) : out :=
  let n := mkNode (n_blocked n) leader (u64 (n_term n + 1)) (n_voter n) ∅
             (suspend (n_election n)) Running in
  match on_become_leader options with
  | None => ([], n)
  | Some fn => then_ ([Invoke OnBecomeLeader], n) (each full_call (fn (observe_node n)))
  end.

Definition stale (event : RaftEvent) (n : Node) : bool := get_term event <? n_term n.

Definition on_request_vote (event : RaftEvent) (n : Node) : out :=
  if stale event n then (reply event (RequestVoteRes (self actor) (n_term n) false), n)
  else
    let '(granted, v) := vote_for_leader event (n_voter n) in
    (reply event (RequestVoteRes (self actor) (n_term n) granted), node_voter v n).

Definition on_vote_response (event : RaftEvent) (granted : bool) (n : Node) : out :=
  if negb (stale event n) && bool_decide (n_role n = candidate) && granted then
    let n := node_votes ({[get_server_id event]} ∪ n_votes n) n in
    if bool_decide (majority actor <= size (n_votes n))%nat then become_leader n else ([], n)
  else ([], n).

Definition on_append_entries (event : RaftEvent) (n : Node) : out :=
  let n :=
    if negb (stale event n) && bool_decide (n_role n = candidate) then as_follower n else n in
  (reply event (AppendEntriesRes (self actor) (n_term n)), n).

Definition on_election_timeout (n : Node) : out :=
  match n_role n with
  | leader => ([], n)
  | _ => candidacy n
  end.

(** A higher term makes the server a follower of that term. *)
Definition catch_up (event : RaftEvent) (n : Node) : out :=
  if n_term n <? get_term event then step_down (node_term (get_term event) n) else ([], n).

Definition on_event (event : RaftEvent) : Node -> out :=
  match event with
  | RequestVoteReq _ _ => on_request_vote event
  | RequestVoteRes _ _ granted => on_vote_response event granted
  | AppendEntriesReq _ _ => on_append_entries event
  | AppendEntriesRes _ _ => fun n => ([], n)
  | ElectionTimeoutEvent => on_election_timeout
  end.

Definition handle_rule (event : RaftEvent) (n : Node) : out :=
  if n_blocked n then ([], n) else then_ (catch_up event n) (on_event event).

Definition block_rule (n : Node) : out :=
  then_ (stay_follower_rule n) (fun n => ([], node_block true n)).

(** The election timer runs from [start] on. *)
Definition start_rule (n : Node) : out :=
  ([StartActor],
   mkNode (n_blocked n) (n_role n) (n_term n) (n_voter n) (n_votes n) Running (n_heartbeat n)).

(** Its two halves are steps of their own for other threads. *)
Definition arm_rule (n : Node) : out :=
  ([], mkNode (n_blocked n) (n_role n) (n_term n) (n_voter n) (n_votes n) Running (n_heartbeat n)).

Definition open_rule (n : Node) : out := ([StartActor], n).

(** One turn of the heartbeat loop, and the loop. *)
Definition beat_rule (peer : Addr) (n : Node) : out :=
  ([Send peer (AppendEntriesReq (self actor) (n_term n))], n).

Definition heartbeat_rule (n : Node) : out :=
  (broadcast (AppendEntriesReq (self actor) (n_term n)), n).

(** ** Invariants of the rules *)

Lemma then_fst o f : (then_ o f).1 = o.1 ++ (f o.2).1.
Proof. destruct o as [es n]. simpl. by destruct (f n). Qed.

Lemma then_snd o f : (then_ o f).2 = (f o.2).2.
Proof. destruct o as [es n]. simpl. by destruct (f n). Qed.

Lemma then_nil n (f : Node -> out) : then_ ([], n) f = f n.
Proof. simpl. by destruct (f n). Qed.

Lemma then_assoc (o : out) f g : then_ (then_ o f) g = then_ o (fun n => then_ (f n) g).
Proof.
  destruct o as [es n]. simpl. destruct (f n) as [es1 n1]. simpl.
  destruct (g n1) as [es2 n2]. by rewrite (assoc_L (++)).
Qed.

(** What every call preserves, a sequence of calls preserves. *)
Lemma each_invariant {A} (P : Node -> Prop) (f : A -> Node -> out) l n :
  (forall x n, P n -> P (f x n).2) -> P n -> P (each f l n).2.
Proof.
  intros Hf. revert n. induction l as [|x l IH]; intros n Hn; [done|].
  cbn [each]. rewrite then_snd. by apply IH, Hf.
Qed.

(** A property of nodes that pausing the timers of a follower, blocking and the
    change to a follower keep. *)
Class Quiet (P : Node -> Prop) := {
  quiet_pause n : n_role n = follower -> P n -> P (node_pause n);
  quiet_block b n : P n -> P (node_block b n);
  quiet_follower n : P n -> P (as_follower n);
}.

Section quiet.
Context (P : Node -> Prop) `{!Quiet P}.

Lemma quiet_call_role c n : n_role (quiet_call c n).2 = n_role n.
Proof. by destruct c. Qed.

Lemma quiet_call_invariant c n : n_role n = follower -> P n -> P (quiet_call c n).2.
Proof.
  intros Hr Hn. destruct c; simpl; [by apply quiet_pause| |by apply quiet_block|done].
  by apply quiet_block, quiet_pause.
Qed.

Lemma as_follower_role n : n_role (as_follower n) = follower.
Proof. unfold as_follower. by destruct (n_role n) eqn:?. Qed.

Lemma signed_off_invariant n : n_role n = follower -> P n ->
  n_role (signed_off n).2 = follower /\ P (signed_off n).2.
Proof.
  intros Hr Hn. unfold signed_off. destruct (on_sign_off_leader options) as [fn|]; [|done].
  rewrite then_snd. apply (each_invariant (fun n => n_role n = follower /\ P n)); [|done].
  intros c m [Hm HPm]. rewrite quiet_call_role. split; [done|by apply quiet_call_invariant].
Qed.

Lemma step_down_invariant n : P n -> P (step_down n).2.
Proof.
  intros Hn%quiet_follower. unfold step_down.
  destruct (n_role n) eqn:Hr; [done..|]. apply signed_off_invariant; [|done].
  apply as_follower_role.
Qed.

Lemma step_down_role n : n_role (step_down n).2 = follower.
Proof.
  unfold step_down, signed_off.
  assert (n_role (as_follower n) = follower) as Hr by apply as_follower_role.
  destruct (n_role n); [done..|]. destruct (on_sign_off_leader options); [|done].
  rewrite then_snd. apply (each_invariant (fun n => n_role n = follower)); [|done].
  intros c m Hm. by rewrite quiet_call_role.
Qed.

Lemma stay_follower_invariant n : P n -> P (stay_follower_rule n).2.
Proof.
  intros Hn. unfold stay_follower_rule. rewrite then_snd.
  apply quiet_pause; [apply step_down_role|by apply step_down_invariant].
Qed.

Lemma block_invariant n : P n -> P (block_rule n).2.
Proof.
  intros Hn. unfold block_rule. rewrite then_snd. by apply quiet_block, stay_follower_invariant.
Qed.

Lemma full_call_invariant c n : P n -> P (full_call c n).2.
Proof.
  intros Hn. destruct c; simpl.
  - by apply stay_follower_invariant.
  - by apply block_invariant.
  - by apply quiet_block.
  - done.
Qed.

End quiet.

(** The election timer exists: the server was started. *)
Definition started (n : Node) : Prop := n_election n <> Absent.

#[export] Instance started_quiet : Quiet started.
Proof.
  split; unfold started.
  - intros n ?. simpl. by destruct (n_election n).
  - done.
  - intros n ?. unfold as_follower. by destruct (n_role n).
Qed.

(** Facts about what never changes without a message. *)
#[local] Instance term_quiet t : Quiet (fun n => n_term n = t).
Proof. split; intros n *; try done. unfold as_follower. by destruct (n_role n). Qed.

#[local] Instance voter_quiet v : Quiet (fun n => n_voter n = v).
Proof. split; intros n *; try done. unfold as_follower. by destruct (n_role n). Qed.

Lemma catch_up_invariant P `{!Quiet P} event n :
  (forall n, P n -> P (node_term (get_term event) n)) -> P n -> P (catch_up event n).2.
Proof.
  intros Hterm Hn. unfold catch_up. destruct (_ <? _); [|done].
  apply step_down_invariant; [done|]. by apply Hterm.
Qed.

Lemma catch_up_started event n : started n -> started (catch_up event n).2.
Proof. apply (catch_up_invariant started); done. Qed.

Lemma catch_up_term event n :
  n_term (catch_up event n).2 = Z.max (n_term n) (get_term event).
Proof.
  unfold catch_up. destruct (Z.ltb_spec (n_term n) (get_term event)).
  - rewrite (step_down_invariant (fun n => n_term n = get_term event)); [lia|done].
  - simpl. lia.
Qed.

Lemma catch_up_voter event n : n_voter (catch_up event n).2 = n_voter n.
Proof. by apply (catch_up_invariant (fun m => n_voter m = n_voter n)). Qed.

Lemma become_leader_started n : started n -> started (become_leader n).2.
Proof.
  intros Hn. unfold become_leader. set (n' := mkNode _ _ _ _ _ _ _).
  assert (started n') by (unfold started, n' in *; simpl; by destruct (n_election n)).
  destruct (on_become_leader options); [|done]. rewrite then_snd.
  apply each_invariant; [|done]. intros c m. apply (full_call_invariant started).
Qed.

Lemma handle_rule_started event n : started n -> started (handle_rule event n).2.
Proof.
  intros Hn. unfold handle_rule. destruct (n_blocked n); [done|]. rewrite then_snd.
  pose proof (catch_up_started event n Hn) as Hm. set (m := (catch_up event n).2) in *.
  destruct event; simpl.
  - unfold on_request_vote. destruct (stale _ _); [done|]. by destruct (vote_for_leader _ _).
  - unfold on_vote_response. destruct (_ && _ && _); [|done].
    destruct (bool_decide _); [by apply become_leader_started|done].
  - unfold on_append_entries. destruct (_ && _); [|done].
    exact (quiet_follower (P := started) m Hm).
  - done.
  - unfold on_election_timeout, candidacy. destruct (n_role m); [..|done].
    all: by destruct (vote_for_leader _ _).
Qed.

(** ** Roles and timers *)

(** A leader sends heartbeats and does not wait for an election timeout; other
    servers send no heartbeats, and a candidate waits for its timeout. *)
Definition timers_ok (n : Node) : Prop :=
  match n_role n with
  | follower => n_heartbeat n <> Running
  | candidate => n_heartbeat n <> Running /\ n_election n = Running
  | leader => n_heartbeat n = Running /\ n_election n <> Running
  end.

#[local] Instance timers_quiet : Quiet timers_ok.
Proof.
  split; unfold timers_ok; intros n *; simpl; [|done|].
  - intros ->. by destruct (n_heartbeat n).
  - unfold as_follower. destruct (n_role n) eqn:Hr; simpl.
    + by rewrite Hr.
    + by intros [??].
    + intros [-> ?]. done.
Qed.

Lemma become_leader_timers n : timers_ok (become_leader n).2.
Proof.
  unfold become_leader. set (n' := mkNode _ _ _ _ _ _ _).
  assert (timers_ok n') by (split; [done|]; unfold n'; simpl; by destruct (n_election n)).
  destruct (on_become_leader options); [|done]. rewrite then_snd.
  apply each_invariant; [|done]. intros c m. apply (full_call_invariant timers_ok).
Qed.

Lemma handle_rule_timers event n : timers_ok n -> timers_ok (handle_rule event n).2.
Proof.
  intros Hn. unfold handle_rule. destruct (n_blocked n); [done|]. rewrite then_snd.
  assert (timers_ok (catch_up event n).2) as Hm by by apply (catch_up_invariant timers_ok).
  set (m := (catch_up event n).2) in *.
  destruct event; simpl.
  - unfold on_request_vote. destruct (stale _ _); [done|]. by destruct (vote_for_leader _ _).
  - unfold on_vote_response. destruct (_ && _ && _); [|done].
    destruct (bool_decide _); [by apply become_leader_timers|done].
  - unfold on_append_entries. destruct (_ && _); [|done].
    exact (quiet_follower (P := timers_ok) m Hm).
  - done.
  - unfold on_election_timeout, candidacy, timers_ok in *. destruct (n_role m) eqn:Hr.
    + destruct (vote_for_leader _ _). simpl. done.
    + destruct (vote_for_leader _ _). simpl. by destruct Hm.
    + simpl. by rewrite Hr.
Qed.

(** Heartbeats are sent by leaders only; this holds even of a leader that calls
    [start] again. *)
Definition heartbeat_ok (n : Node) : Prop := n_heartbeat n = Running -> n_role n = leader.

#[local] Instance heartbeat_quiet : Quiet heartbeat_ok.
Proof.
  split; unfold heartbeat_ok; intros n *; simpl; [by destruct (n_heartbeat n)|done|].
  unfold as_follower. destruct (n_role n) eqn:Hr; simpl; [by rewrite Hr|..].
  - by intros Hn Hh%Hn.
  - by destruct (n_heartbeat n).
Qed.

Lemma handle_rule_heartbeat event n : heartbeat_ok n -> heartbeat_ok (handle_rule event n).2.
Proof.
  intros Hn. unfold handle_rule. destruct (n_blocked n); [done|]. rewrite then_snd.
  assert (heartbeat_ok (catch_up event n).2) as Hm by by apply (catch_up_invariant heartbeat_ok).
  set (m := (catch_up event n).2) in *.
  destruct event; simpl.
  - unfold on_request_vote. destruct (stale _ _); [done|]. by destruct (vote_for_leader _ _).
  - unfold on_vote_response. destruct (_ && _ && _); [|done].
    destruct (bool_decide _); [|done]. unfold become_leader. set (n' := mkNode _ _ _ _ _ _ _).
    destruct (on_become_leader options); [|done]. rewrite then_snd.
    apply each_invariant; [|done]. intros c m'. apply (full_call_invariant heartbeat_ok).
  - unfold on_append_entries. destruct (_ && _); [|done].
    exact (quiet_follower (P := heartbeat_ok) m Hm).
  - done.
  - unfold on_election_timeout, candidacy, heartbeat_ok in *. destruct (n_role m) eqn:Hr.
    3: by simpl; rewrite Hr.
    all: destruct (vote_for_leader _ _); simpl; by intros Hh%Hm.
Qed.

(** ** A server that was told to stay follower *)

Definition retired (n : Node) : Prop :=
  n_role n = follower /\ n_election n <> Running /\ n_heartbeat n <> Running.

Lemma stay_follower_retires n : retired (stay_follower_rule n).2.
Proof.
  unfold stay_follower_rule. rewrite then_snd. unfold retired. simpl. split_and!.
  - apply step_down_role.
  - by destruct (n_election _).
  - by destruct (n_heartbeat _).
Qed.

(** It stays one whatever messages arrive. *)
Lemma handle_rule_retired event n :
  event <> ElectionTimeoutEvent -> retired n ->
  retired (handle_rule event n).2 /\ n_blocked (handle_rule event n).2 = n_blocked n.
Proof.
  intros Hev (Hr & He & Hh). unfold handle_rule. destruct (n_blocked n) eqn:Hb; [done|].
  rewrite then_snd. unfold retired.
  assert (exists t, (catch_up event n).2 = node_term t n) as [t ->].
  { unfold catch_up. destruct (_ <? _); [|by exists (n_term n); destruct n].
    unfold step_down, as_follower. simpl. rewrite Hr. by eexists. }
  destruct event; simpl; [| | |done|done].
  - unfold on_request_vote. destruct (stale _ _); [done|]. by destruct (vote_for_leader _ _).
  - unfold on_vote_response. simpl.
    by rewrite Hr, bool_decide_eq_false_2, andb_false_r by done.
  - unfold on_append_entries, as_follower. simpl. rewrite Hr. by destruct (_ && _).
Qed.

End spec.

#[export] Existing Instances started_quiet timers_quiet heartbeat_quiet term_quiet voter_quiet.
