(* ===== verification/ElectionFacts.v ===== *)
(** * What one rule does to a server

    [evolution] lists the facts about one step of a server that the protocol
    argument of Cluster.v rests on: votes and terms only grow, a candidate
    counts votes of its own term, a leader comes from a majority, and a granted
    vote is the one the server remembers. *)
From S2P Require Import Prelude Timers NetworkUtil Protocol RaftActor Fsm ElectionSpec.
Local Open Scope Z_scope.

(** ** Votes *)

(** A server's vote changes only for a higher term. *)
Definition voter_le (v v' : Voter) : Prop := last_voted_term v < last_voted_term v' \/ v = v'.

#[global] Instance voter_le_preorder : PreOrder voter_le.
Proof.
  split; [by right|]. intros v1 v2 v3 [?|<-] [?|<-]; [left; lia|by left|by left|by right].
Qed.

Lemma voter_le_functional v v' : voter_le v v' -> last_voted_term v = last_voted_term v' -> v = v'.
Proof. intros [?|?] ?; [lia|done]. Qed.

Lemma vote_for_leader_le event v : voter_le v (vote_for_leader event v).2.
Proof.
  unfold vote_for_leader. destruct (Z.ltb_spec (get_term event) (last_voted_term v)); [by right|].
  destruct (Z.eqb_spec (get_term event) (last_voted_term v)).
  - destruct (_ =? _); by right.
  - left. simpl. lia.
Qed.

Lemma vote_for_leader_granted event v :
  (vote_for_leader event v).1 = true ->
  (vote_for_leader event v).2 = mkVoter (get_server_id event) (get_term event).
Proof.
  unfold vote_for_leader. destruct v as [who when]. simpl.
  destruct (_ <? when); [done|]. destruct (Z.eqb_spec (get_term event) when) as [<-|]; [|done].
  by destruct (Z.eqb_spec (get_server_id event) who) as [<-|].
Qed.

Lemma vote_for_leader_bound event v t :
  get_term event <= t -> last_voted_term v <= t ->
  last_voted_term (vote_for_leader event v).2 <= t.
Proof. intros ??. unfold vote_for_leader. repeat case_match; simpl in *; lia. Qed.

(** A vote is granted exactly when it is not older than the last one and, in
    the same term, goes to the same server. *)
Lemma vote_for_leader_iff event v :
  (vote_for_leader event v).1 = true <->
  voter_le v (mkVoter (get_server_id event) (get_term event)).
Proof.
  unfold vote_for_leader, voter_le. destruct v as [who when]. simpl.
  destruct (Z.ltb_spec (get_term event) when); simpl.
  { split; [done|]. intros [?|[= _ ?]]; lia. }
  destruct (Z.eqb_spec (get_term event) when) as [<-|]; simpl; [|intuition lia].
  destruct (Z.eqb_spec (get_server_id event) who) as [<-|Hne]; simpl; [by split; [right|]|].
  split; [done|]. intros [?|[= ?]]; [lia|done].
Qed.

(** ** One step of a server *)

Section facts.
Context {Addr : Type} `{Env}.
Context (actor : RaftActorOptions Addr) (options : RaftFSMOptions).
Implicit Types (n : Node) (event : RaftEvent).

Local Abbreviation out := (list (FsmEffect Addr) * Node)%type.

(** Only a candidate has votes, the term is a 64-bit number, and the server has
    not voted in a term it has not reached. *)
Record node_ok (n : Node) : Prop := {
  ok_votes : n_role n <> candidate -> n_votes n = ∅;
  ok_term : in_range 64 (n_term n);
  ok_voter : last_voted_term (n_voter n) <= n_term n;
}.

(** A message the server may send in the term [t], answering [trigger]; it names
    that term. *)
Record message_ok (trigger : option RaftEvent) (v : Voter) (t : Z) (to : Addr) (e : RaftEvent) :
    Prop := {
  msg_from : get_server_id e = self actor;
  msg_term : get_term e = t;
  msg_nonneg : 0 <= get_term e;
  msg_granted who when : e = RequestVoteRes who when true ->
    exists c, trigger = Some (RequestVoteReq c when) /\ get_peer actor c = Some to /\
      v = mkVoter c when;
  msg_heartbeat who when : e = AppendEntriesReq who when -> trigger = None;
  msg_network : e <> ElectionTimeoutEvent;
}.

Record evolution (trigger : option RaftEvent) (n : Node) (o : out) : Prop := {
  evo_ok : node_ok o.2;
  evo_voter : voter_le (n_voter n) (n_voter o.2);
  evo_term : n_term n <= n_term o.2 <= 1 + Z.max (n_term n) (from_option get_term 0 trigger);
  evo_candidate v : n_role o.2 = candidate -> v ∈ n_votes o.2 ->
    n_role n = candidate /\ n_term o.2 = n_term n /\ v ∈ n_votes n \/
    v = self actor /\ n_voter o.2 = mkVoter v (n_term o.2) \/
    trigger = Some (RequestVoteRes v (n_term o.2) true);
  evo_leader : n_role o.2 = leader ->
    n_role n = leader /\ n_term o.2 = n_term n \/
    exists v, n_role n = candidate /\ n_term o.2 = n_term n + 1 /\
      trigger = Some (RequestVoteRes v (n_term n) true) /\
      (majority actor <= size ({[v]} ∪ n_votes n))%nat;
  evo_sends to e : Send to e ∈ o.1 ->
    message_ok trigger (n_voter o.2) (n_term o.2) to e;
}.

(** ** What callbacks leave alone *)

Definition silent (es : list (FsmEffect Addr)) : Prop := forall to e, Send to e ∉ es.

Lemma silent_app es es' : silent es -> silent es' -> silent (es ++ es').
Proof. intros H1 H2 to e [?|?]%elem_of_app; [by eapply H1|by eapply H2]. Qed.

Lemma silent_nil : silent [].
Proof. intros to e. by intros ?%elem_of_nil. Qed.

Lemma silent_one eff : (forall to e, eff <> Send to e) -> silent [eff].
Proof. intros Hne to e ?%list_elem_of_singleton. by eapply Hne. Qed.

Lemma then_silent (o : out) f : silent o.1 -> silent (f o.2).1 -> silent (then_ o f).1.
Proof. rewrite then_fst. apply silent_app. Qed.

Lemma each_silent {A} (f : A -> Node -> out) l n :
  (forall x n, silent (f x n).1) -> silent (each f l n).1.
Proof.
  intros Hf. revert n. induction l as [|x l IH]; intros n; [apply silent_nil|].
  cbn [each]. by apply then_silent.
Qed.

#[local] Hint Resolve silent_nil silent_app then_silent each_silent : raft.

Lemma quiet_call_silent c n : silent (quiet_call (Addr := Addr) c n).1.
Proof. destruct c; try apply silent_nil. by apply silent_one. Qed.

Lemma step_down_silent n : silent (step_down (Addr := Addr) options n).1.
Proof.
  unfold step_down, signed_off. destruct (n_role n); try apply silent_nil.
  destruct (on_sign_off_leader options); [|apply silent_nil].
  apply then_silent; [by apply silent_one|]. apply each_silent, quiet_call_silent.
Qed.

Lemma stay_follower_silent n : silent (stay_follower_rule (Addr := Addr) options n).1.
Proof. apply then_silent; [apply step_down_silent|apply silent_nil]. Qed.

Lemma full_call_silent c n : silent (full_call (Addr := Addr) options c n).1.
Proof.
  destruct c; simpl; [|apply then_silent| |by apply silent_one].
  all: try apply stay_follower_silent; apply silent_nil.
Qed.

(** Only [start] starts the actor. *)
Lemma step_down_no_start n : StartActor ∉ (step_down (Addr := Addr) options n).1.
Proof.
  assert (forall calls m, StartActor ∉ (each (quiet_call (Addr := Addr)) calls m).1) as Heach.
  { induction calls as [|c calls IH]; intros m; [by intros ?%elem_of_nil|]. cbn [each]. rewrite then_fst.
    intros [Hin|Hin]%elem_of_app; [|by apply IH in Hin].
    destruct c; cbn in Hin; try by apply elem_of_nil in Hin. by apply list_elem_of_singleton in Hin. }
  unfold step_down, signed_off. destruct (n_role n); try by intros ?%elem_of_nil.
  destruct (on_sign_off_leader options) as [fn|]; [|by intros ?%elem_of_nil].
  rewrite then_fst. intros [Hin%list_elem_of_singleton|Hin%Heach]%elem_of_app; done.
Qed.

Lemma full_call_no_start c n : StartActor ∉ (full_call (Addr := Addr) options c n).1.
Proof.
  assert (StartActor ∉ (stay_follower_rule (Addr := Addr) options n).1) as Hstay.
  { unfold stay_follower_rule. rewrite then_fst, app_nil_r. apply step_down_no_start. }
  destruct c; cbn [full_call]; [done| |by intros ?%elem_of_nil|by intros ?%list_elem_of_singleton].
  by rewrite then_fst, app_nil_r.
Qed.

(** A server that does not lead has no callback to call: it stops the actor only
    when it is told to. *)
Lemma follower_call_stop c n :
  n_role n <> leader -> StopActor ∈ (full_call (Addr := Addr) options c n).1 -> c = CallStop.
Proof.
  intros Hr. destruct c; cbn [full_call]; unfold stay_follower_rule, step_down.
  all: destruct (n_role n); cbn; first [done|by intros ?%elem_of_nil].
Qed.

Lemma become_leader_silent n : silent (become_leader (Addr := Addr) options n).1.
Proof.
  unfold become_leader. destruct (on_become_leader options); [|apply silent_nil].
  apply then_silent; [by apply silent_one|]. apply each_silent, full_call_silent.
Qed.

(** [m] is [n] after a callback: it may have become a follower. *)
Record settled (n m : Node) : Prop := {
  settled_term : n_term m = n_term n;
  settled_voter : n_voter m = n_voter n;
  settled_role : n_role m = n_role n /\ n_votes m = n_votes n \/
    n_role m = follower /\ n_votes m = ∅;
}.

Lemma settled_quiet n : node_ok n -> Quiet (settled n).
Proof.
  intros Hok. split; [intros m ? []; by split|intros b m []; by split|].
  intros m [Ht Hv Hr]. unfold as_follower. destruct (n_role m) eqn:Hm; [split; by rewrite ?Hm| |].
  - split; [done..|]. by right.
  - split; [done..|]. right. simpl. split; [done|]. destruct Hr as [[Hr ->]|[? _]]; [|done].
    apply Hok. by rewrite <- Hr.
Qed.

Lemma settled_refl n : settled n n.
Proof. split; [done..|by left]. Qed.

Lemma settled_ok n m : node_ok n -> settled n m -> node_ok m.
Proof.
  intros [Hv Ht Hb] [Hterm Hvoter Hr]. split; [|by rewrite Hterm|by rewrite Hterm, Hvoter].
  intros Hc. destruct Hr as [[Hr ->]|[_ ->]]; [|done]. apply Hv. by rewrite <- Hr.
Qed.

(** A step that sends nothing and keeps term and vote. *)
Lemma settled_evolution trigger n o :
  node_ok n -> settled n o.2 -> silent o.1 -> evolution trigger n o.
Proof.
  intros Hok Hs Hsil. pose proof (settled_ok _ _ Hok Hs). destruct Hs as [Ht Hv Hr].
  split; [done|by rewrite Hv|lia| | |].
  - intros v Hc Hin. left. destruct Hr as [[Hr Hvotes]|[? _]]; [|congruence].
    rewrite <- Hvotes. split_and!; congruence.
  - intros Hl. left. destruct Hr as [[Hr _]|[? _]]; [|congruence]. split; congruence.
  - intros to e Hin. by destruct (Hsil to e).
Qed.

(** Catching up with a term changes nothing or makes a fresh follower. *)
Lemma catch_up_cases event n :
  node_ok n ->
  get_term event <= n_term n /\ catch_up (Addr := Addr) options event n = ([], n) \/
  n_term n < get_term event /\
  let o := catch_up options event n in
  silent o.1 /\ n_role o.2 = follower /\ n_votes o.2 = ∅ /\ n_term o.2 = get_term event /\
  n_voter o.2 = n_voter n.
Proof.
  intros [Hvotes _ _]. pose proof (catch_up_term (Addr := Addr) options event n) as Hterm.
  pose proof (catch_up_voter (Addr := Addr) options event n) as Hvoter.
  unfold catch_up in *. destruct (Z.ltb_spec (n_term n) (get_term event)); [right|by left].
  split; [done|]. cbv zeta. split_and!; [apply step_down_silent|apply step_down_role| |lia|done].
  assert (Quiet (fun m => n_votes m = ∅)).
  { split; try done. intros m ?. unfold as_follower. by destruct (n_role m). }
  unfold step_down, as_follower. simpl. destruct (n_role n) eqn:Hr; [by apply Hvotes|done|].
  apply (signed_off_invariant options (fun m => n_votes m = ∅)); [done|by apply Hvotes].
Qed.

(** ** Messages *)

(** The event is a message of a 64-bit term that left room for one more. *)
Definition event_ok (event : RaftEvent) : Prop := 0 <= get_term event < uint64_max.

Lemma reply_evolution event answer v' n :
  node_ok n -> voter_le (n_voter n) v' -> last_voted_term v' <= n_term n ->
  get_server_id answer = self actor -> get_term answer = n_term n ->
  answer <> ElectionTimeoutEvent -> (forall who when, answer <> AppendEntriesReq who when) ->
  (forall who when, answer = RequestVoteRes who when true ->
     event = RequestVoteReq (get_server_id event) when /\
     v' = mkVoter (get_server_id event) when) ->
  evolution (Some event) n (reply actor event answer, node_voter v' n).
Proof.
  intros Hok Hle Hb Hme Hterm Hnet Hno Hgrant. pose proof (ok_term n Hok) as [Hpos _]. split; simpl.
  - destruct Hok. by split.
  - done.
  - lia.
  - intros v ??. by left.
  - by left.
  - intros to e. unfold reply. destruct (get_peer _ _) as [a|] eqn:Ha.
    2: by intros ?%elem_of_nil.
    intros [= -> ->]%list_elem_of_singleton. split; simpl; [done|lia|lia| | |done].
    + intros who when Heq. destruct (Hgrant who when Heq) as [Hev ->].
      exists (get_server_id event). by rewrite <- Hev.
    + intros who when Heq. by destruct (Hno who when).
Qed.

Lemma request_vote_evolution id t n :
  let event := RequestVoteReq id t in
  node_ok n -> t <= n_term n -> evolution (Some event) n (on_request_vote actor event n).
Proof.
  intros event Hok Hle. pose proof (ok_term n Hok) as [??].
  unfold on_request_vote, stale. simpl. destruct (Z.ltb_spec t (n_term n)).
  - replace n with (node_voter (n_voter n) n) at 3 by by destruct n.
    by apply reply_evolution; simpl; [..|apply Hok| |lia| | |].
  - pose proof (vote_for_leader_bound event (n_voter n) (n_term n) Hle (ok_voter n Hok)) as Hb.
    pose proof (vote_for_leader_le event (n_voter n)) as Hv.
    pose proof (vote_for_leader_granted event (n_voter n)) as Hg.
    destruct (vote_for_leader _ _) as [granted v]. apply reply_evolution; simpl; [done..|lia|done|done|].
    intros who when [= <- <- ->]. replace (n_term n) with t by lia. split; [done|by apply Hg].
Qed.

Lemma append_entries_evolution id t n :
  let event := AppendEntriesReq id t in
  node_ok n -> evolution (Some event) n (on_append_entries actor event n).
Proof.
  intros event Hok. pose proof (ok_term n Hok) as [??]. unfold on_append_entries.
  set (m := if _ : bool then _ else n).
  assert (settled n m) as Hs.
  { unfold m. destruct (_ && _); [|apply settled_refl].
    by apply (settled_quiet n), settled_refl. }
  destruct (settled_evolution (Some event) n ([], m) Hok Hs silent_nil).
  split; simpl; [done..|]. intros to e.
  assert (n_term m = n_term n) as -> by apply Hs.
  unfold reply. destruct (get_peer _ _); [|by intros ?%elem_of_nil].
  intros [= -> ->]%list_elem_of_singleton. by split; simpl; [|lia|lia|..].
Qed.

Lemma candidacy_evolution trigger n :
  node_ok n -> n_term n < uint64_max -> n_role n <> leader ->
  evolution trigger n (candidacy actor n).
Proof.
  intros Hok Hlt Hr. pose proof (ok_term n Hok) as [? _].
  unfold candidacy. rewrite u64_succ by lia.
  set (request := RequestVoteReq _ _).
  pose proof (vote_for_leader_le request (n_voter n)) as Hv.
  pose proof (vote_for_leader_granted request (n_voter n)) as Hg.
  assert (last_voted_term (vote_for_leader request (n_voter n)).2 <= n_term n + 1) as Hb.
  { apply vote_for_leader_bound; simpl; [lia|]. pose proof (ok_voter n Hok). lia. }
  destruct (vote_for_leader _ _) as [voted v]. simpl in Hv, Hg, Hb.
  assert ((if n_role n is candidate then ∅ else n_votes n) = ∅) as ->.
  { destruct (n_role n) eqn:Hn; [|done|done]. apply Hok. by rewrite Hn. }
  split; simpl.
  - split; [done| |done]. unfold in_range. simpl. lia.
  - done.
  - lia.
  - intros x _ Hx. right. left. destruct voted; [|by apply elem_of_empty in Hx].
    rewrite union_empty_r_L in Hx. apply elem_of_singleton in Hx as ->. split; [done|by apply Hg].
  - done.
  - intros to e. unfold broadcast. intros (a & [= -> ->] & _)%list_elem_of_fmap.
    by split; simpl; [|lia|lia|..].
Qed.

Lemma become_leader_settled n :
  n_term n < uint64_max -> 0 <= n_term n ->
  let m := (become_leader (Addr := Addr) options n).2 in
  n_term m = n_term n + 1 /\ n_voter m = n_voter n /\ n_votes m = ∅ /\ n_role m <> candidate.
Proof.
  intros ??. unfold become_leader. rewrite u64_succ by lia. set (n' := mkNode _ _ _ _ _ _ _).
  destruct (on_become_leader options) as [fn|]; [|done]. cbv zeta. rewrite then_snd.
  set (P := fun m => n_term m = n_term n + 1 /\ n_voter m = n_voter n /\ n_votes m = ∅ /\
    n_role m <> candidate).
  assert (Quiet P).
  { split; try done. intros m (?&?&?&?). unfold as_follower, P. destruct (n_role m) eqn:Hm; by rewrite ?Hm. }
  change (P (each (full_call (Addr := Addr) options) (fn (observe_node n')) n').2).
  apply each_invariant; [|done]. intros c m. by apply full_call_invariant.
Qed.

Lemma vote_response_evolution id t granted n :
  let event := RequestVoteRes id t granted in
  node_ok n -> t <= n_term n -> n_term n < uint64_max ->
  evolution (Some event) n (on_vote_response actor options event granted n).
Proof.
  intros event Hok Hle Hlt. pose proof (ok_term n Hok) as [? _].
  unfold on_vote_response, stale. simpl.
  destruct (Z.ltb_spec t (n_term n)) as [|Hge]; simpl.
  { by apply settled_evolution; [|apply settled_refl|apply silent_nil]. }
  destruct (bool_decide_reflect (n_role n = candidate)) as [Hr|Hr]; simpl.
  2: by apply settled_evolution; [|apply settled_refl|apply silent_nil].
  destruct granted; simpl.
  2: by apply settled_evolution; [|apply settled_refl|apply silent_nil].
  destruct (bool_decide_reflect (majority actor <= size ({[id]} ∪ n_votes n))%nat) as [Hmaj|_].
  - set (n' := node_votes _ _).
    destruct (become_leader_settled n') as (Ht & Hv & Hs & Hc); [done..|].
    pose proof (become_leader_silent n') as Hsil. unfold n' in *. simpl in *. split.
    + pose proof (ok_voter n Hok). split; [done| |rewrite Hv, Ht; simpl; lia].
      rewrite Ht. unfold in_range. simpl. lia.
    + by rewrite Hv.
    + simpl. lia.
    + by intros v ?.
    + intros _. right. exists id. replace t with (n_term n) in event by lia.
      unfold event. by replace t with (n_term n) by lia.
    + intros to e Hin. by destruct (Hsil to e).
  - split; simpl; [|done|lia| |congruence|by intros to e ?%elem_of_nil].
    + split; [done|by destruct Hok..].
    + intros v _ [->%elem_of_singleton|Hin]%elem_of_union; [|by left].
      right. right. unfold event. by replace t with (n_term n) by lia.
Qed.

Lemma on_event_evolution event n :
  node_ok n -> n_term n < uint64_max -> get_term event <= n_term n ->
  evolution (Some event) n (on_event actor options event n).
Proof.
  intros Hok Hlt Hle. destruct event; simpl in Hle |- *.
  - by apply request_vote_evolution.
  - by apply vote_response_evolution.
  - by apply append_entries_evolution.
  - by apply settled_evolution; [|apply settled_refl|apply silent_nil].
  - unfold on_election_timeout. destruct (n_role n) eqn:Hr.
    3: by apply settled_evolution; [|apply settled_refl|apply silent_nil].
    all: apply candidacy_evolution; [done|done|by rewrite Hr].
Qed.

(** Every event a server handles is one evolution. *)
Lemma handle_evolution event n :
  node_ok n -> n_term n < uint64_max -> event_ok event ->
  evolution (Some event) n (handle_rule actor options event n).
Proof.
  intros Hok Hlt Hev. unfold handle_rule. destruct (n_blocked n).
  { by apply settled_evolution; [|apply settled_refl|apply silent_nil]. }
  destruct (catch_up_cases event n Hok) as [[Hle ->]|(Hgt & Hsil & Hr & Hvs & Ht & Hv)].
  { rewrite then_nil. by apply on_event_evolution. }
  set (o := catch_up options event n) in *. destruct o as [es m]. simpl in *.
  destruct (on_event_evolution event m) as [Eok Ev Et Ec El Es].
  { pose proof (ok_voter n Hok). split; [done| |rewrite Hv, Ht; lia].
    rewrite Ht. unfold in_range. unfold event_ok in Hev. lia. }
  { unfold event_ok in Hev. lia. }
  { lia. }
  destruct (on_event actor options event m) as [es' m']. simpl in *. split; simpl.
  - done.
  - by rewrite <- Hv.
  - lia.
  - intros v Hc Hin. destruct (Ec v Hc Hin) as [[? _]|?]; [congruence|by right].
  - intros Hl. destruct (El Hl) as [[? _]|(v & ? & _)]; congruence.
  - intros to e [?|?]%elem_of_app; [by destruct (Hsil to e)|by apply Es].
Qed.

(** So are the calls of the public interface and every heartbeat. *)
Lemma stay_follower_evolution n :
  node_ok n -> evolution None n (stay_follower_rule options n).
Proof.
  intros Hok. pose proof (settled_quiet n Hok).
  apply settled_evolution; [done| |apply stay_follower_silent].
  apply stay_follower_invariant; [done|apply settled_refl].
Qed.

Lemma block_evolution n : node_ok n -> evolution None n (block_rule options n).
Proof.
  intros Hok. pose proof (settled_quiet n Hok).
  apply settled_evolution; [done| |].
  - apply block_invariant; [done|apply settled_refl].
  - apply then_silent; [apply stay_follower_silent|apply silent_nil].
Qed.

Lemma beat_evolution peer n : node_ok n -> evolution None n (beat_rule actor peer n).
Proof.
  intros Hok. pose proof (ok_term n Hok) as [? _].
  destruct (settled_evolution None n ([], n) Hok (settled_refl n) silent_nil).
  split; [done..|]. simpl. intros to e [= -> ->]%list_elem_of_singleton.
  by split; simpl; [|lia|lia|..].
Qed.

End facts.

(** ** Properties *)

(** A sequence of vote requests to one voter: the answers and the voter left. *)
Fixpoint vote_all (events : list RaftEvent) (v : Voter) : list bool * Voter :=
  match events with
  | [] => ([], v)
  | event :: events =>
      let '(granted, v) := vote_for_leader event v in
      let '(answers, v) := vote_all events v in (granted :: answers, v)
  end.

Lemma vote_all_later events v j e :
  events !! j = Some e -> (vote_all events v).1 !! j = Some true ->
  voter_le v (mkVoter (get_server_id e) (get_term e)).
Proof.
  revert v j. induction events as [|e0 events IH]; intros v j He; [done|]. simpl.
  destruct (vote_for_leader e0 v) as [granted v1] eqn:Hv1.
  destruct (vote_all events v1) as [answers v2] eqn:Hv2. simpl.
  destruct j as [|j]; simpl in He |- *.
  - injection He as ->. intros [= ->]. apply vote_for_leader_iff. by rewrite Hv1.
  - intros Ha. transitivity v1.
    + pose proof (vote_for_leader_le e0 v) as Hle. by rewrite Hv1 in Hle.
    + apply (IH v1 j He). by rewrite Hv2.
Qed.

(** A voter grants its vote of a term to one server only, however the
    requests are ordered, repeated or mixed with those of other terms. *)
Theorem vote_once_per_term events v i j e e' :
  events !! i = Some e -> events !! j = Some e' ->
  (vote_all events v).1 !! i = Some true -> (vote_all events v).1 !! j = Some true ->
  get_term e = get_term e' -> get_server_id e = get_server_id e'.
Proof.
  revert v i j. induction events as [|e0 events IH]; intros v i j He He'; [done|]. simpl.
  destruct (vote_for_leader e0 v) as [granted v1] eqn:Hv1.
  destruct (vote_all events v1) as [answers v2] eqn:Hv2. simpl.
  assert (granted = true -> v1 = mkVoter (get_server_id e0) (get_term e0)) as Hg.
  { pose proof (vote_for_leader_granted e0 v) as Hgr. by rewrite Hv1 in Hgr. }
  assert (forall k e1, events !! k = Some e1 -> answers !! k = Some true ->
    voter_le v1 (mkVoter (get_server_id e1) (get_term e1))) as Hlater.
  { intros k e1 Hk Ha. apply (vote_all_later events v1 k e1 Hk). by rewrite Hv2. }
  destruct i as [|i], j as [|j]; simpl in He, He' |- *.
  - congruence.
  - injection He as ->. intros [= ->] Ha Ht. specialize (Hlater j e' He' Ha).
    rewrite Hg in Hlater by done. destruct Hlater as [Hlt|[= -> _]]; [simpl in Hlt; lia|done].
  - injection He' as ->. intros Ha [= ->] Ht. specialize (Hlater i e He Ha).
    rewrite Hg in Hlater by done. destruct Hlater as [Hlt|[= -> _]]; [simpl in Hlt; lia|done].
  - intros Ha Ha'. apply (IH v1 i j); by rewrite ?Hv2.
Qed.

Lemma vote_once_per_term_witness :
  get_server_id (RequestVoteReq 4 7) = get_server_id (RequestVoteReq 4 7).
Proof.
  apply (vote_once_per_term
    [RequestVoteReq 4 7; RequestVoteReq 5 7; RequestVoteReq 5 3; RequestVoteReq 4 7] new_Voter 0 3);
    by vm_compute.
Defined.
