(* ===== verification/FsmRefinement.v ===== *)
(** * The state machine implements the election rules

    [view] forgets the scheduler of a [RaftFSM] and keeps the status of its two
    tasks; [wf] says that the tasks it refers to exist.  Every method of Fsm.v,
    run in a well-formed state, ends in a well-formed state, emits what the
    rule of ElectionSpec.v emits and reaches the node the rule yields. *)
From S2P Require Import Prelude Timers NetworkUtil Protocol Scheduler RaftActor Fsm ElectionSpec.
Local Open Scope Z_scope.

Section refinement.
Context {T H Addr : Type} `{HE : Env, !EnvOk HE} `{HS : !TimerOps T H FsmCallable}.
Context `{!TimerService T H FsmCallable}.
Context (actor : RaftActorOptions Addr) (options : RaftFSMOptions).

Local Abbreviation fsm := (RaftFSM T H).
Local Abbreviation M := (comp fsm (FsmEffect Addr)).
Local Abbreviation out := (list (FsmEffect Addr) * Node)%type.
Implicit Types (s : fsm) (t : T) (h : H).

(** The status of a task in a timer service. *)
Definition status_of t (task : option H) : TimerStatus :=
  match task with
  | None => Absent
  | Some h =>
      match ts_view t !! ts_key h with
      | Some v => if tv_paused v then Suspended else Running
      | None => Absent
      end
  end.

Definition view s : Node :=
  mkNode (blocked_ s) (role_ s) (term_ s) (voter_ s) (voted_peers_ s)
    (status_of (scheduler_ s) (election_timeout_task_ s))
    (status_of (scheduler_ s) (heartbeat_task_ s)).

(** The task, if any, calls [c] and has not been cancelled. *)
Definition task_ok t (task : option H) (c : FsmCallable) : Prop :=
  forall h, task = Some h -> exists p, ts_view t !! ts_key h = Some (mkTimerView c false p).

Record wf s : Prop := {
  wf_service : ts_wf (scheduler_ s);
  wf_leader : leader_ s = uint64_max;
  wf_election : task_ok (scheduler_ s) (election_timeout_task_ s) FireElectionTimeout;
  wf_heartbeat : task_ok (scheduler_ s) (heartbeat_task_ s) SendHeartbeats;
}.

(** The options under which the election interval is defined. *)
Definition options_ok : Prop :=
  let '(min, second) := opt_election_timeout options in 0 <= min < second /\ second < 2 ^ 31.

(** Running [m] in [s] has the outcome [o]. *)
Definition runs_to (m : M unit) s (o : out) : Prop :=
  exists s', m s = (o.1, s', Ok tt) /\ view s' = o.2 /\ wf s'.

(** ** Sequencing *)

Lemma runs_bind (m m' : M unit) s o f :
  runs_to m s o -> (forall s', wf s' -> view s' = o.2 -> runs_to m' s' (f o.2)) ->
  runs_to (m ;; m') s (then_ o f).
Proof.
  intros (s1 & Hm & Hv & Hwf) Hm'. destruct (Hm' s1 Hwf Hv) as (s2 & Hrun & Hv2 & Hwf2).
  exists s2. destruct o as [es n]. simpl in *. destruct (f n) as [es' n']. simpl in *.
  split; [|done]. erewrite run_bind_ok by exact Hm. by rewrite Hrun.
Qed.

(** The same, when the first computation emits nothing. *)
Lemma runs_seq (m m' : M unit) s n o :
  runs_to m s ([], n) -> (forall s', wf s' -> view s' = n -> runs_to m' s' o) ->
  runs_to (m ;; m') s o.
Proof.
  intros Hm Hm'. rewrite <- (then_nil n (fun _ => o)). by apply runs_bind.
Qed.

Lemma runs_get (f : fsm -> M unit) s o : runs_to (f s) s o -> runs_to (get_state ≫= f) s o.
Proof. unfold runs_to. by rewrite run_get. Qed.

Lemma runs_lift {A} (a : A) (f : A -> M unit) s o :
  runs_to (f a) s o -> runs_to (lift (Ok a) ≫= f) s o.
Proof. unfold runs_to. by rewrite run_lift. Qed.

Lemma runs_ret s : wf s -> runs_to (mret tt) s ([], view s).
Proof. intros Hwf. by exists s. Qed.

Lemma runs_modify g s : wf (g s) -> runs_to (modify g) s ([], view (g s)).
Proof. intros Hwf. by exists (g s). Qed.

Lemma runs_emit e s : wf s -> runs_to (emit e) s ([e], view s).
Proof. intros Hwf. by exists s. Qed.

Lemma runs_eq (m : M unit) s o o' : runs_to m s o -> o = o' -> runs_to m s o'.
Proof. by intros ? <-. Qed.

Lemma runs_send_all (event : fsm -> RaftEvent) (l : list Addr) s :
  wf s ->
  runs_to (for_each (fun peer => s ← get_state; send (event s) peer) l) s
    ((fun peer => Send peer (event s)) <$> l, view s).
Proof.
  intros Hwf. exists s. split; [|done]. simpl. induction l as [|a l IH]; [done|].
  cbn [for_each]. erewrite run_bind_ok by (unfold send; by run). by rewrite IH.
Qed.

(** ** Timers *)

(** A change of the flags of one task. *)
Lemma wf_change_task g h s t' :
  wf s -> ts_wf t' -> ts_view t' = alter g (ts_key h) (ts_view (scheduler_ s)) ->
  (forall c p, exists p', g (mkTimerView c false p) = mkTimerView c false p') ->
  wf (set_scheduler t' s).
Proof.
  intros [? ? He Hh] Ht' Hv Hg. split; simpl; [done|done| |].
  all: intros h' Heq; first [apply He in Heq|apply Hh in Heq]; destruct Heq as [p Hp];
    rewrite Hv, lookup_alter; case_decide as Hk; [|by eauto]; rewrite <- Hk in Hp;
    rewrite Hk, Hp || rewrite Hp; simpl; destruct (Hg FireElectionTimeout p), (Hg SendHeartbeats p);
    eexists; by f_equal.
Qed.

Lemma status_lookup t t' task :
  (forall h, task = Some h -> ts_view t' !! ts_key h = ts_view t !! ts_key h) ->
  status_of t' task = status_of t task.
Proof. intros Heq. destruct task as [h|]; simpl; [|done]. by rewrite Heq. Qed.

Lemma keys_differ s he hh :
  wf s -> election_timeout_task_ s = Some he -> heartbeat_task_ s = Some hh ->
  ts_key he <> ts_key hh.
Proof.
  intros Hwf He Hh Heq. destruct (wf_election s Hwf he He) as [p Hp].
  destruct (wf_heartbeat s Hwf hh Hh) as [p' Hp']. rewrite Heq, Hp' in Hp. done.
Qed.

(** The node with other timer statuses. *)
Definition node_timers (e h : TimerStatus) (n : Node) : Node :=
  mkNode (n_blocked n) (n_role n) (n_term n) (n_voter n) (n_votes n) e h.

Definition flagged (g : TimerView FsmCallable -> TimerView FsmCallable) (p : bool) : Prop :=
  forall c q, g (mkTimerView c false q) = mkTimerView c false p.

Definition status_flag (p : bool) (t : TimerStatus) : TimerStatus :=
  match t with Absent => Absent | _ => if p then Suspended else Running end.

Lemma flag_election g p h s t' :
  wf s -> election_timeout_task_ s = Some h -> flagged g p ->
  ts_wf t' -> ts_view t' = alter g (ts_key h) (ts_view (scheduler_ s)) ->
  wf (set_scheduler t' s) /\
  view (set_scheduler t' s)
  = node_timers (status_flag p (n_election (view s))) (n_heartbeat (view s)) (view s).
Proof.
  intros Hwf Hh Hg Ht' Hv. split.
  { eapply wf_change_task; [done..|]. intros c q. exists p. apply Hg. }
  destruct (wf_election s Hwf h Hh) as [q Hq].
  unfold view, node_timers. simpl. rewrite Hh. simpl.
  rewrite Hv, lookup_alter_eq, Hq. simpl. rewrite Hg. f_equal; [by destruct p, q|].
  apply status_lookup. intros h' Hh'. rewrite Hv, lookup_alter_ne; [done|].
  by apply (keys_differ s).
Qed.

Lemma flag_heartbeat g p h s t' :
  wf s -> heartbeat_task_ s = Some h -> flagged g p ->
  ts_wf t' -> ts_view t' = alter g (ts_key h) (ts_view (scheduler_ s)) ->
  wf (set_scheduler t' s) /\
  view (set_scheduler t' s)
  = node_timers (n_election (view s)) (status_flag p (n_heartbeat (view s))) (view s).
Proof.
  intros Hwf Hh Hg Ht' Hv. split.
  { eapply wf_change_task; [done..|]. intros c q. exists p. apply Hg. }
  destruct (wf_heartbeat s Hwf h Hh) as [q Hq].
  unfold view, node_timers. simpl. rewrite Hh. simpl.
  rewrite Hv, lookup_alter_eq, Hq. simpl. rewrite Hg. f_equal; [|by destruct p, q].
  apply status_lookup. intros h' Hh'. rewrite Hv, lookup_alter_ne; [done|].
  apply not_eq_sym. by apply (keys_differ s).
Qed.

Lemma flagged_pause : flagged view_pause true.
Proof. done. Qed.
Lemma flagged_resume : flagged view_resume false.
Proof. done. Qed.

Lemma stop_election_runs s :
  wf s -> runs_to stop_election_timeout s
    ([], node_timers (suspend (n_election (view s))) (n_heartbeat (view s)) (view s)).
Proof.
  intros Hwf. apply runs_get. destruct (election_timeout_task_ s) as [h|] eqn:Hh.
  - destruct (ts_pause_spec h (scheduler_ s)) as [Ht' Hv]; [apply Hwf|].
    destruct (flag_election _ _ h s _ Hwf Hh flagged_pause Ht' Hv) as [Hwf' Hview].
    eexists; split; [done|]. split; [|done]. rewrite Hview. by destruct (n_election (view s)).
  - eapply runs_eq; [by apply runs_ret|]. unfold view, node_timers. by rewrite Hh.
Qed.

Lemma stop_heartbeat_runs s :
  wf s -> runs_to stop_heartbeat s
    ([], node_timers (n_election (view s)) (suspend (n_heartbeat (view s))) (view s)).
Proof.
  intros Hwf. apply runs_get. destruct (heartbeat_task_ s) as [h|] eqn:Hh.
  - destruct (ts_pause_spec h (scheduler_ s)) as [Ht' Hv]; [apply Hwf|].
    destruct (flag_heartbeat _ _ h s _ Hwf Hh flagged_pause Ht' Hv) as [Hwf' Hview].
    eexists; split; [done|]. split; [|done]. rewrite Hview. by destruct (n_heartbeat (view s)).
  - eapply runs_eq; [by apply runs_ret|]. unfold view, node_timers. by rewrite Hh.
Qed.

Lemma pause_tasks_runs s : wf s -> runs_to pause_scheduled_tasks s ([], node_pause (view s)).
Proof.
  intros Hwf. eapply runs_seq; [by apply stop_election_runs|]. intros s' Hwf' Hv'.
  eapply runs_eq; [by apply stop_heartbeat_runs|]. by rewrite Hv'.
Qed.

Lemma options_supplier : options_ok -> supplier_ok (election_interval options).
Proof.
  unfold options_ok, supplier_ok, election_interval.
  destruct (opt_election_timeout options) as [lo hi]. intros [Hlt Hhi] r.
  unfold int_arith. rewrite bool_decide_eq_true_2 by lia. simpl.
  rewrite (proj2 (Z.eqb_neq _ _)) by lia. simpl.
  pose proof (rand_range r) as Hr. pose proof (Z.rem_bound_pos (rand r) (hi - lo)).
  rewrite bool_decide_eq_true_2 by lia. simpl. eauto.
Qed.

(** Scheduling a task under a fresh key. *)
Lemma start_election_runs s :
  options_ok -> wf s -> runs_to (start_election_timeout options) s
    ([], node_timers Running (n_heartbeat (view s)) (view s)).
Proof.
  intros Hopt Hwf. apply runs_get. destruct (election_timeout_task_ s) as [h|] eqn:Hh.
  - destruct (ts_resume_spec h (scheduler_ s)) as [Ht' Hv]; [apply Hwf|].
    destruct (flag_election _ _ h s _ Hwf Hh flagged_resume Ht' Hv) as [Hwf' Hview].
    eexists; split; [done|]. split; [|done]. rewrite Hview. simpl.
    destruct (wf_election s Hwf h Hh) as [q Hq]. rewrite Hh. simpl. rewrite Hq. by destruct q.
  - destruct (ts_schedule_spec (election_interval options) FireElectionTimeout (-1) (scheduler_ s))
      as (h & t & Hs & Ht & Hfresh & Hv); [apply Hwf|by apply options_supplier|].
    rewrite Hs. apply runs_lift.
    assert (forall h', heartbeat_task_ s = Some h' -> ts_key h <> ts_key h') as Hne.
    { intros h' Hh' Heq. destruct (wf_heartbeat s Hwf h' Hh') as [p Hp]. congruence. }
    eexists; split; [done|]. split; [unfold view, node_timers; simpl; f_equal|].
    + by rewrite Hv, lookup_insert_eq.
    + apply status_lookup. intros h' Hh'. by rewrite Hv, lookup_insert_ne by by apply Hne.
    + split; simpl; [done|apply Hwf| |].
      * intros h' [= <-]. rewrite Hv, lookup_insert_eq. eauto.
      * intros h' Hh'. rewrite Hv, lookup_insert_ne by by apply Hne.
        by apply (wf_heartbeat s Hwf).
Qed.

Lemma start_heartbeat_runs s :
  wf s -> runs_to (start_heartbeat options) s
    ([], node_timers (n_election (view s)) Running (view s)).
Proof.
  intros Hwf. apply runs_get. destruct (heartbeat_task_ s) as [h|] eqn:Hh.
  - destruct (ts_resume_spec h (scheduler_ s)) as [Ht' Hv]; [apply Hwf|].
    destruct (flag_heartbeat _ _ h s _ Hwf Hh flagged_resume Ht' Hv) as [Hwf' Hview].
    eexists; split; [done|]. split; [|done]. rewrite Hview. simpl.
    destruct (wf_heartbeat s Hwf h Hh) as [q Hq]. rewrite Hh. simpl. rewrite Hq. by destruct q.
  - destruct (ts_schedule_spec (heartbeat_interval options) SendHeartbeats (-1) (scheduler_ s))
      as (h & t & Hs & Ht & Hfresh & Hv); [apply Hwf|intros r; by eexists _, _|].
    rewrite Hs. apply runs_lift.
    assert (forall h', election_timeout_task_ s = Some h' -> ts_key h <> ts_key h') as Hne.
    { intros h' Hh' Heq. destruct (wf_election s Hwf h' Hh') as [p Hp]. congruence. }
    eexists; split; [done|]. split; [unfold view, node_timers; simpl; f_equal|].
    + apply status_lookup. intros h' Hh'. by rewrite Hv, lookup_insert_ne by by apply Hne.
    + by rewrite Hv, lookup_insert_eq.
    + split; simpl; [done|apply Hwf| |].
      * intros h' Hh'. rewrite Hv, lookup_insert_ne by by apply Hne.
        by apply (wf_election s Hwf).
      * intros h' [= <-]. rewrite Hv, lookup_insert_eq. eauto.
Qed.

Lemma reset_election_runs s :
  wf s -> n_election (view s) <> Absent -> runs_to reset_election_timeout s ([], view s).
Proof.
  intros Hwf Hstarted. apply runs_get. destruct (election_timeout_task_ s) as [h|] eqn:Hh.
  2: { simpl in Hstarted. by rewrite Hh in Hstarted. }
  apply runs_lift. destruct (wf_election s Hwf h Hh) as [p Hp].
  destruct (ts_reset_spec h (scheduler_ s) _ (wf_service s Hwf) Hp)
    as (h' & t & Hr & Ht & Hfresh & Hv).
  rewrite Hr. apply runs_lift.
  assert (ts_view t !! ts_key h' = Some (mkTimerView FireElectionTimeout false p)) as Hnew
    by by rewrite Hv, lookup_insert_eq.
  assert (forall h0, heartbeat_task_ s = Some h0 ->
    ts_view t !! ts_key h0 = ts_view (scheduler_ s) !! ts_key h0) as Hother.
  { intros h0 Hh0. destruct (wf_heartbeat s Hwf h0 Hh0) as [p0 Hp0].
    rewrite Hv, lookup_insert_ne, lookup_alter_ne; [done|by apply (keys_differ s)|congruence]. }
  eexists; split; [done|]. split; [unfold view; simpl; f_equal|].
  - by rewrite Hnew, Hh; simpl; rewrite Hp.
  - by apply status_lookup.
  - split; simpl; [done|apply Hwf| |].
    + intros h0 [= <-]. eauto.
    + intros h0 Hh0. rewrite Hother by done. by apply (wf_heartbeat s Hwf).
Qed.

(** ** Roles and callbacks *)

Context (Hopt : options_ok).

Lemma runs_each {A} (P : Node -> Prop) (f : A -> M unit) (g : A -> Node -> out) l s :
  (forall x s, wf s -> P (view s) ->
     runs_to (f x) s (g x (view s)) /\ P (g x (view s)).2) ->
  wf s -> P (view s) -> runs_to (for_each f l) s (each g l (view s)).
Proof.
  intros Hfg. revert s. induction l as [|x l IH]; intros s Hwf HP; [by apply runs_ret|].
  cbn [for_each each]. destruct (Hfg x s Hwf HP) as [Hx HPx].
  apply runs_bind; [done|]. intros s' Hwf' Hv'. rewrite <- Hv'. apply IH; [done|]. by rewrite Hv'.
Qed.

(** [run] executes the calls of a callback of a follower. *)
Definition quiet_run (run : list ApiCall -> M unit) : Prop :=
  forall calls s, wf s -> role_ s = follower -> runs_to (run calls) s (each quiet_call calls (view s)).

Lemma observe_view s : wf s -> observe s = observe_node (view s).
Proof. intros Hwf. unfold observe, observe_node. simpl. by rewrite (wf_leader s Hwf). Qed.

Lemma invoke_runs (run : list ApiCall -> M unit) (g : ApiCall -> Node -> out) name fn s :
  (forall calls, runs_to (run calls) s (each g calls (view s))) -> wf s ->
  runs_to (invoke run name (Some fn)) s
    (then_ ([Invoke name], view s) (each g (fn (observe_node (view s))))).
Proof.
  intros Hrun Hwf. unfold invoke.
  destruct (Hrun (fn (observe_node (view s)))) as (s' & Hr & Hv & Hwf').
  exists s'. rewrite run_emit, run_get, observe_view, Hr by done. simpl.
  destruct (each g (fn (observe_node (view s))) (view s)) as [es n]. done.
Qed.

Lemma clear_prev_runs s :
  wf s -> runs_to clear_prev_state s
    ([], match role_ s with
         | follower => view s
         | candidate => node_votes ∅
             (node_timers (suspend (n_election (view s))) (n_heartbeat (view s)) (view s))
         | leader =>
             node_timers (n_election (view s)) (suspend (n_heartbeat (view s))) (view s)
         end).
Proof.
  intros Hwf. apply runs_get. destruct (role_ s) eqn:Hr.
  - by apply runs_ret.
  - eapply runs_seq; [by apply stop_election_runs|]. intros s' Hwf' Hv'.
    eapply runs_eq; [by apply runs_modify; destruct Hwf'; split|].
    unfold view in *. simpl in *. by injection Hv' as -> -> -> -> _ -> ->.
  - by apply stop_heartbeat_runs.
Qed.

Lemma set_role_runs r s :
  wf s -> runs_to (modify (set_role r)) s
    ([], mkNode (n_blocked (view s)) r (n_term (view s)) (n_voter (view s)) (n_votes (view s))
           (n_election (view s)) (n_heartbeat (view s))).
Proof. intros Hwf. apply runs_modify. by destruct Hwf; split. Qed.

Lemma convert_to_follower_runs run s :
  quiet_run run -> wf s ->
  runs_to (convert_to_follower_with options run) s (step_down options (view s)).
Proof.
  intros Hrun Hwf. apply runs_get. unfold step_down.
  destruct (decide (role_ s = follower)) as [Hr|Hr].
  { rewrite bool_decide_eq_true_2 by done. unfold as_follower. simpl. rewrite Hr.
    by apply runs_ret. }
  rewrite bool_decide_eq_false_2 by done. cbn [negb when].
  eapply runs_seq; [by apply clear_prev_runs|]. intros s1 Hwf1 Hv1.
  eapply runs_seq; [by apply set_role_runs|]. intros s2 Hwf2 Hv2.
  eapply runs_seq; [by apply start_election_runs|]. intros s3 Hwf3 Hv3.
  rewrite Hv2, Hv1 in Hv3.
  assert (view s3 = as_follower (view s)) as Hv.
  { rewrite Hv3. unfold as_follower. simpl. by destruct (role_ s). }
  unfold is_leader. simpl. destruct (role_ s) eqn:Hr'; [done| |]; cbn.
  - rewrite <- Hv. by apply runs_ret.
  - unfold signed_off. destruct (on_sign_off_leader options) as [fn|].
    + rewrite <- Hv. apply invoke_runs; [|done]. intros calls. apply Hrun; [done|].
      change (role_ s3) with (n_role (view s3)). rewrite Hv. unfold as_follower. simpl. by rewrite Hr'.
    + rewrite <- Hv. by apply runs_ret.
Qed.

Lemma stay_follower_runs run s :
  quiet_run run -> wf s ->
  runs_to (stay_follower_with options run) s (stay_follower_rule options (view s)).
Proof.
  intros Hrun Hwf. apply runs_bind; [by apply convert_to_follower_runs|].
  intros s' Hwf' <-. by apply pause_tasks_runs.
Qed.

Lemma set_blocked_runs b s : wf s -> runs_to (modify (set_blocked b)) s ([], node_block b (view s)).
Proof. intros Hwf. apply runs_modify. by destruct Hwf; split. Qed.

Lemma block_runs run s :
  quiet_run run -> wf s -> runs_to (block_with options run) s (block_rule options (view s)).
Proof.
  intros Hrun Hwf. apply runs_bind; [by apply stay_follower_runs|].
  intros s' Hwf' <-. by apply set_blocked_runs.
Qed.

Lemma api_call_runs run c s :
  quiet_run run -> wf s -> runs_to (api_call_with options run c) s (full_call options c (view s)).
Proof.
  intros Hrun Hwf. destruct c; simpl.
  - by apply stay_follower_runs.
  - by apply block_runs.
  - by apply set_blocked_runs.
  - by apply runs_emit.
Qed.

(** Followers have nothing to step down from: no nested callback. *)
Lemma api_call_quiet run c s :
  wf s -> role_ s = follower ->
  runs_to (api_call_with options run c) s (quiet_call c (view s)).
Proof.
  intros Hwf Hr.
  assert (runs_to (stay_follower_with options run) s ([], node_pause (view s))) as Hstay.
  { apply (runs_seq _ _ _ (view s)).
    - apply runs_get. rewrite bool_decide_eq_true_2 by done. by apply runs_ret.
    - intros s' Hwf' <-. by apply pause_tasks_runs. }
  destruct c; simpl.
  - done.
  - eapply runs_seq; [exact Hstay|]. intros s' Hwf' Hv'. rewrite <- Hv'.
    by apply set_blocked_runs.
  - by apply set_blocked_runs.
  - by apply runs_emit.
Qed.

Lemma run_calls_quiet d : quiet_run (run_calls options (S d)).
Proof.
  intros calls s Hwf Hr. cbn [run_calls].
  apply (runs_each (fun n => n_role n = follower)); [|done..].
  intros c s' Hwf' Hr'. split; [by apply api_call_quiet|]. by rewrite quiet_call_role.
Qed.

Lemma run_calls_full d calls s :
  wf s -> runs_to (run_calls options (S (S d)) calls) s (each (full_call options) calls (view s)).
Proof.
  intros Hwf. cbn [run_calls]. apply (runs_each (fun _ => True)); [|done..].
  intros c s' Hwf' _. split; [|done]. apply api_call_runs; [apply run_calls_quiet|done].
Qed.

(** ** Elections *)

Lemma inc_term_runs s :
  wf s -> runs_to inc_term s ([], node_term (u64 (n_term (view s) + 1)) (view s)).
Proof. intros Hwf. apply runs_modify. by destruct Hwf; split. Qed.

Lemma set_voter_runs v s : wf s -> runs_to (modify (set_voter v)) s ([], node_voter v (view s)).
Proof. intros Hwf. apply runs_modify. by destruct Hwf; split. Qed.

Lemma set_term_runs term s :
  wf s -> runs_to (modify (set_term term)) s ([], node_term term (view s)).
Proof. intros Hwf. apply runs_modify. by destruct Hwf; split. Qed.

Lemma add_vote_runs id s :
  wf s ->
  runs_to (modify (fun s => set_voted_peers ({[id]} ∪ voted_peers_ s) s)) s
    ([], node_votes ({[id]} ∪ n_votes (view s)) (view s)).
Proof. intros Hwf. eexists. split; [done|]. split; [done|]. by destruct Hwf; split. Qed.

(** [vote_self] and the requests to the peers. *)
Definition campaign (n : Node) : out :=
  let request := RequestVoteReq (self actor) (n_term n) in
  let '(voted, v) := vote_for_leader request (n_voter n) in
  (broadcast actor request,
   mkNode (n_blocked n) (n_role n) (n_term n) v
     (if voted then {[self actor]} ∪ n_votes n else n_votes n) Running (n_heartbeat n)).

Lemma request_vote_runs s :
  wf s -> runs_to (request_vote_for_self actor) s
    (broadcast actor (RequestVoteReq (self actor) (n_term (view s))), view s).
Proof.
  intros Hwf. by apply (runs_send_all (fun s => RequestVoteReq (self actor) (term_ s))).
Qed.

Lemma init_candidate_runs s :
  wf s -> runs_to (init_candidate_state actor options) s (campaign (view s)).
Proof.
  intros Hwf. eapply runs_seq; [by apply start_election_runs|]. intros s1 Hwf1 Hv1.
  unfold vote_self. unfold runs_to. rewrite run_bind_bind, run_get.
  assert (campaign (view s) = campaign (view s1)) as -> by (rewrite Hv1; done).
  unfold campaign. cbn [n_term n_voter view].
  destruct (vote_for_leader (RequestVoteReq (self actor) (term_ s1)) (voter_ s1))
    as [voted v] eqn:Hvote.
  rewrite run_bind_bind, run_modify, run_bind_bind.
  assert (wf (set_voter v s1)) as Hwf2 by by destruct Hwf1; split.
  destruct (request_vote_runs (set_voter v s1) Hwf2) as (s3 & Hrun3 & Hv3 & Hwf3).
  destruct voted; cbn [when]; run.
  - set (s2 := set_voted_peers _ _).
    assert (wf s2) as Hwf2' by by destruct Hwf1; split.
    destruct (request_vote_runs s2 Hwf2') as (s4 & Hrun4 & Hv4 & Hwf4).
    exists s4. split; [exact Hrun4|]. split; [|done]. rewrite Hv4.
    unfold view, s2. simpl. f_equal. apply (f_equal n_election) in Hv1. exact Hv1.
  - exists s3. split; [exact Hrun3|]. split; [|done]. rewrite Hv3.
    unfold view. simpl. f_equal. apply (f_equal n_election) in Hv1. exact Hv1.
Qed.

Lemma convert_to_candidate_runs s :
  wf s -> role_ s = follower ->
  runs_to (convert_to_candidate actor options) s (candidacy actor (view s)).
Proof.
  intros Hwf Hr. apply runs_get. unfold is_leader. rewrite Hr, bool_decide_eq_false_2 by done.
  cbn [when].
  eapply runs_seq; [by apply clear_prev_runs|]. rewrite Hr. intros s1 Hwf1 Hv1.
  eapply runs_seq; [by apply inc_term_runs|]. intros s2 Hwf2 Hv2.
  eapply runs_seq; [by apply set_role_runs|]. intros s3 Hwf3 Hv3.
  rewrite Hv2, Hv1 in Hv3.
  rewrite (surjective_pairing (candidacy actor (view s))).
  replace (candidacy actor (view s)) with (campaign (view s3)).
  { destruct (init_candidate_runs s3 Hwf3) as (s4 & Hrun & Hv4 & Hwf4).
    exists s4. split; [|done]. erewrite run_bind_ok by exact Hrun. simpl. by rewrite app_nil_r. }
  rewrite Hv3. unfold campaign, candidacy. simpl. rewrite Hr.
  by destruct (vote_for_leader _ _).
Qed.

Lemma start_new_election_runs s :
  wf s -> role_ s = candidate ->
  runs_to (start_new_election actor options) s (candidacy actor (view s)).
Proof.
  intros Hwf Hr. apply runs_get. rewrite bool_decide_eq_true_2 by done. cbn [when].
  eapply runs_seq; [by apply inc_term_runs|]. intros s1 Hwf1 Hv1.
  apply (runs_seq _ _ _ (node_votes ∅
    (node_timers (suspend (n_election (view s1))) (n_heartbeat (view s1)) (view s1)))).
  { eapply runs_seq; [by apply stop_election_runs|]. intros s' Hwf' Hv'.
    rewrite <- Hv'. apply runs_modify. by destruct Hwf'; split. }
  intros s2 Hwf2 Hv2. rewrite Hv1 in Hv2.
  replace (candidacy actor (view s)) with (campaign (view s2)); [by apply init_candidate_runs|].
  rewrite Hv2. unfold campaign, candidacy. simpl. rewrite Hr.
  by destruct (vote_for_leader _ _).
Qed.

Lemma convert_to_leader_runs s :
  wf s -> role_ s = candidate -> runs_to (convert_to_leader options) s (become_leader options (view s)).
Proof.
  intros Hwf Hr.
  eapply runs_seq; [by apply clear_prev_runs|]. rewrite Hr. intros s1 Hwf1 Hv1.
  eapply runs_seq; [by apply inc_term_runs|]. intros s2 Hwf2 Hv2.
  eapply runs_seq; [by apply set_role_runs|]. intros s3 Hwf3 Hv3.
  eapply runs_seq; [by apply start_heartbeat_runs|]. intros s4 Hwf4 Hv4.
  rewrite Hv3, Hv2, Hv1 in Hv4. unfold become_leader.
  unfold node_timers, node_votes, node_term in Hv4. simpl in Hv4 |- *.
  rewrite <- Hv4. destruct (on_become_leader options) as [fn|].
  - apply invoke_runs; [|done]. intros calls. exact (run_calls_full 0 calls s4 Hwf4).
  - by apply runs_ret.
Qed.

Lemma election_timeout_runs s :
  wf s -> runs_to (handle_election_timeout actor options) s (on_election_timeout actor (view s)).
Proof.
  intros Hwf. apply runs_get. unfold on_election_timeout. simpl. destruct (role_ s) eqn:Hr.
  - by apply convert_to_candidate_runs.
  - by apply start_new_election_runs.
  - by apply runs_ret.
Qed.

(** ** Messages *)

(** The event comes from a configured server, if the handler answers it. *)
Definition answerable (event : RaftEvent) : Prop :=
  match event with
  | RequestVoteReq _ _ | AppendEntriesReq _ _ => is_Some (get_peer actor (get_server_id event))
  | _ => True
  end.

Lemma reply_runs event answer s :
  wf s -> is_Some (get_peer actor (get_server_id event)) ->
  runs_to (to ← peer_address actor event; send answer to) s (reply actor event answer, view s).
Proof.
  intros Hwf [to Hto]. unfold peer_address, reply. rewrite Hto. apply runs_lift.
  by apply runs_emit.
Qed.

Lemma request_vote_handled event s :
  wf s -> started (view s) -> is_Some (get_peer actor (get_server_id event)) ->
  runs_to (handle_request_vote actor event) s (on_request_vote actor event (view s)).
Proof.
  intros Hwf Hst Hpeer. apply runs_get. unfold on_request_vote, is_stale, stale. cbn [n_term view].
  destruct (get_term event <? term_ s); [by apply reply_runs|].
  apply (runs_seq _ _ _ (view s)).
  { destruct (bool_decide _); [by apply reset_election_runs|by apply runs_ret]. }
  intros s1 Hwf1 Hv1. apply runs_get.
  change (term_ s) with (n_term (view s)). rewrite <- Hv1. cbn [n_voter n_term view].
  destruct (vote_for_leader event (voter_ s1)) as [granted v].
  eapply runs_seq; [by apply set_voter_runs|]. intros s2 Hwf2 <-.
  by apply (reply_runs event).
Qed.

Lemma vote_response_handled event granted s :
  wf s ->
  runs_to (handle_request_vote_response actor options event granted) s
    (on_vote_response actor options event granted (view s)).
Proof.
  intros Hwf. apply runs_get. unfold on_vote_response, is_stale, stale. cbn [n_term n_role view].
  destruct (negb _ && _ && granted) eqn:Hb; [|by apply runs_ret].
  rewrite !andb_true_iff, bool_decide_eq_true in Hb. destruct Hb as [[_ Hr] _].
  cbn [when]. eapply runs_seq; [by apply add_vote_runs|]. intros s1 Hwf1 Hv1.
  apply runs_get. rewrite <- Hv1. cbn [n_votes view].
  destruct (bool_decide _); [|by apply runs_ret].
  apply convert_to_leader_runs; [done|]. apply (f_equal n_role) in Hv1. by rewrite <- Hr.
Qed.

(** The part of [handle_append_entries] before its reply. *)
Lemma append_entries_state_runs event s :
  wf s -> started (view s) ->
  runs_to (when (negb (is_stale event s))
      (when (bool_decide (role_ s = candidate \/ role_ s = follower)) reset_election_timeout ;;
       (when (bool_decide (role_ s = candidate)) (convert_to_follower options)))) s
    ([], if negb (stale event (view s)) && bool_decide (n_role (view s) = candidate)
         then as_follower (view s) else view s).
Proof.
  intros Hwf Hst. unfold is_stale, stale. cbn [n_term n_role view].
  destruct (get_term event <? term_ s); [by apply runs_ret|]. cbn [negb andb when].
  apply (runs_seq _ _ _ (view s)).
  { destruct (bool_decide (_ \/ _)); [by apply reset_election_runs|by apply runs_ret]. }
  intros s1 Hwf1 Hv1. destruct (bool_decide_reflect (role_ s = candidate)) as [Hr|Hr].
  2: { rewrite <- Hv1. by apply runs_ret. }
  eapply runs_eq; [apply convert_to_follower_runs; [apply run_calls_quiet|done]|].
  unfold step_down. rewrite Hv1. simpl. by rewrite Hr.
Qed.

Lemma append_entries_handled event s :
  wf s -> started (view s) -> is_Some (get_peer actor (get_server_id event)) ->
  runs_to (handle_append_entries actor options event) s
    (on_append_entries actor event (view s)).
Proof.
  intros Hwf Hst Hpeer. unfold handle_append_entries. cbn [is_heartbeat]. apply runs_get.
  eapply runs_seq; [by apply append_entries_state_runs|].
  intros s1 Hwf1 Hv1. unfold on_append_entries. rewrite <- Hv1.
  apply runs_get. by apply (reply_runs event).
Qed.

Lemma catch_up_runs event s :
  wf s ->
  runs_to (when (term_ s <? get_term event)
             (modify (set_term (get_term event)) ;; convert_to_follower options)) s
    (catch_up options event (view s)).
Proof.
  intros Hwf. unfold catch_up. cbn [n_term view].
  destruct (_ <? _); [|by apply runs_ret]. cbn [when].
  eapply runs_seq; [by apply set_term_runs|]. intros s1 Hwf1 <-.
  apply convert_to_follower_runs; [apply run_calls_quiet|done].
Qed.

Lemma handled event s :
  wf s -> started (view s) -> answerable event ->
  runs_to (handle actor options event) s (handle_rule actor options event (view s)).
Proof.
  intros Hwf Hst Hans. apply runs_get. unfold handle_rule. cbn [n_blocked view].
  destruct (blocked_ s); [by apply runs_ret|]. apply runs_get.
  apply runs_bind; [by apply catch_up_runs|]. intros s1 Hwf1 Hv1.
  assert (started (view s1)) as Hst1 by (rewrite Hv1; by apply catch_up_started).
  rewrite <- Hv1. destruct event; simpl in Hans |- *.
  - by apply request_vote_handled.
  - by apply vote_response_handled.
  - by apply append_entries_handled.
  - by apply runs_ret.
  - by apply election_timeout_runs.
Qed.

(** ** The public interface *)

Lemma new_fsm_view t : ts_wf t -> wf (new_RaftFSM t) /\ view (new_RaftFSM t) = new_Node.
Proof. by intros Ht. Qed.

Lemma start_runs s :
  wf s -> runs_to (start options) s (start_rule (view s)).
Proof.
  intros Hwf. eapply runs_seq; [by apply start_election_runs|]. intros s1 Hwf1 Hv1.
  eapply runs_eq; [by apply runs_emit|]. by rewrite Hv1.
Qed.

Lemma init_follower_runs s : wf s -> runs_to (init_follower_state options) s (arm_rule (view s)).
Proof. intros Hwf. by apply start_election_runs. Qed.

Lemma send_heartbeat_runs peer s :
  wf s -> runs_to (send_heartbeat actor peer) s (beat_rule actor peer (view s)).
Proof. intros Hwf. apply runs_get. by apply runs_emit. Qed.

Lemma send_heartbeats_runs s :
  wf s -> runs_to (send_heartbeats actor) s (heartbeat_rule actor (view s)).
Proof.
  intros Hwf. by apply (runs_send_all (fun s => AppendEntriesReq (self actor) (term_ s))).
Qed.

(** Handling a list of events in order. *)
Lemma handle_events_runs events s (P : Node -> Prop) :
  wf s -> started (view s) -> Forall answerable events ->
  (forall e n, e ∈ events -> P n -> P (handle_rule actor options e n).2) -> P (view s) ->
  exists es s', for_each (handle actor options) events s = (es, s', Ok tt) /\ wf s' /\ P (view s').
Proof.
  intros Hwf Hst Hans HP. revert s Hwf Hst Hans.
  induction events as [|e events IH]; intros s Hwf Hst Hans Hs; [by eexists _, _|].
  apply Forall_cons in Hans as [He Hans].
  destruct (handled e s Hwf Hst He) as (s1 & Hrun & Hv & Hwf1).
  destruct (IH) with (s := s1) as (es & s2 & Hrun2 & Hwf2 & HP2).
  - intros e' n Hin. apply HP. by right.
  - done.
  - rewrite Hv. by apply handle_rule_started.
  - done.
  - rewrite Hv. apply HP; [left|done].
  - eexists _, s2. split; [|done]. cbn [for_each].
    erewrite run_bind_ok by exact Hrun. by rewrite Hrun2.
Qed.

(** ** Properties *)

(** C3. [handle] implements the election rules.  In a started server, for a
    message of a configured server or a timeout, [handle] returns normally: it
    never dereferences a null pointer, no timer operation fails and the
    callbacks end; it emits exactly the messages and callbacks of the rule and
    leaves the role, term, vote, collected votes and timers the rule yields. *)
Theorem handle_implements_rule event s :
  wf s -> started (view s) -> answerable event ->
  exists s', handle actor options event s
    = ((handle_rule actor options event (view s)).1, s', Ok tt) /\
    view s' = (handle_rule actor options event (view s)).2 /\ wf s' /\ started (view s').
Proof.
  intros Hwf Hst Hans. destruct (handled event s Hwf Hst Hans) as (s' & Hrun & Hv & Hwf').
  exists s'. split_and!; [done..|]. rewrite Hv. by apply handle_rule_started.
Qed.

(** The public methods and the heartbeat implement their rules, from the
    constructed object on: [start] leaves a started server, [stay_follower] and
    [block] pause both timers after the callbacks, and [send_heartbeats] sends
    one message of the current term to every other server. *)
Theorem interface_implements_rules t s :
  ts_wf t -> wf s ->
  wf (new_RaftFSM t) /\ view (new_RaftFSM t) = new_Node /\
  runs_to (start options) s (start_rule (view s)) /\
  runs_to (stay_follower options) s (stay_follower_rule options (view s)) /\
  runs_to (block options) s (block_rule options (view s)) /\
  runs_to unblock s ([], node_block false (view s)) /\
  runs_to (send_heartbeats actor) s (heartbeat_rule actor (view s)).
Proof.
  intros Ht Hwf. destruct (new_fsm_view t Ht). split_and!; [done..|by apply start_runs| | | |].
  - apply stay_follower_runs; [apply run_calls_quiet|done].
  - apply block_runs; [apply run_calls_quiet|done].
  - by apply set_blocked_runs.
  - by apply send_heartbeats_runs.
Qed.

(** C35. Callbacks terminate: a callback may call the public methods, these may
    sign off the leadership and so call the other callback, and there it ends.
    With any nesting bound of two or more the calls run to completion. *)
Theorem callbacks_terminate depth calls s :
  (callback_depth <= depth)%nat -> wf s ->
  runs_to (run_calls options depth calls) s (each (full_call options) calls (view s)).
Proof.
  intros Hd Hwf. destruct depth as [|[|d]]; [unfold callback_depth in Hd; lia..|].
  by apply run_calls_full.
Qed.

(** A request from a server that is not among the peers dereferences the
    null pointer [peer_address] returns, whatever the state of the server. *)
Theorem unknown_sender_undefined event s :
  wf s -> started (view s) -> blocked_ s = false ->
  match event with RequestVoteReq _ _ | AppendEntriesReq _ _ => True | _ => False end ->
  get_peer actor (get_server_id event) = None ->
  exists es s' what, handle actor options event s = (es, s', Err (UndefinedBehaviour what)).
Proof.
  intros Hwf Hst Hb Hev Hpeer. unfold handle. rewrite run_get, Hb. unfold handle_locked.
  rewrite run_get.
  destruct (catch_up_runs event s Hwf) as (s1 & Hrun & Hv1 & Hwf1).
  assert (started (view s1)) as Hst1 by (rewrite Hv1; by apply catch_up_started).
  erewrite run_bind_ok by exact Hrun.
  assert (exists what, forall s2,
    peer_address actor event s2 = ([], s2, Err (UndefinedBehaviour what))) as [what Hpa].
  { eexists. intros s2. unfold peer_address. by rewrite Hpeer. }
  destruct (reset_election_runs s1 Hwf1 Hst1) as (s2 & Hreset & _).
  destruct event; try done.
  - unfold handle_request_vote. rewrite run_get. destruct (is_stale _ s1).
    { erewrite run_bind_err by apply Hpa. by eexists _, _, _. }
    destruct (bool_decide _); cbn [when]; [erewrite run_bind_ok by exact Hreset|rewrite run_ret].
    all: rewrite run_get; destruct (vote_for_leader _ _) as [granted v]; rewrite run_modify;
      erewrite run_bind_err by apply Hpa; by eexists _, _, _.
  - unfold handle_append_entries. cbn [is_heartbeat]. rewrite run_get.
    destruct (append_entries_state_runs (AppendEntriesReq server_id term) s1) as (s3 & Hs3 & _);
      [done..|].
    erewrite run_bind_ok by exact Hs3. rewrite run_get.
    erewrite run_bind_err by apply Hpa. by eexists _, _, _.
Qed.

(** C26. A leader sends heartbeats and awaits no election timeout, and no other
    server sends heartbeats: every event keeps the timers in step with the
    role, through the callbacks it runs. *)
Theorem timers_follow_role event s :
  wf s -> started (view s) -> answerable event -> timers_ok (view s) ->
  exists es s', handle actor options event s = (es, s', Ok tt) /\ timers_ok (view s').
Proof.
  intros Hwf Hst Hans Ht. destruct (handled event s Hwf Hst Hans) as (s' & Hrun & Hv & _).
  eexists _, s'. split; [done|]. rewrite Hv. by apply handle_rule_timers.
Qed.

(** [block] and then [unblock] do not make the server rejoin the elections:
    whatever messages it handles afterwards, it stays a follower and neither of
    its timers runs. *)
Theorem unblock_does_not_rejoin events s :
  wf s -> started (view s) -> Forall answerable events -> ElectionTimeoutEvent ∉ events ->
  exists es s', (block options ;; (unblock ;; (for_each (handle actor options) events))) s
    = (es, s', Ok tt) /\ blocked_ s' = false /\ retired (view s').
Proof.
  intros Hwf Hst Hans Hev.
  destruct (block_runs (run_calls options callback_depth) s) as (s1 & Hrun1 & Hv1 & Hwf1);
    [apply run_calls_quiet|done|].
  destruct (set_blocked_runs false s1 Hwf1) as (s2 & Hrun2 & Hv2 & Hwf2).
  simpl in Hv2.
  assert (retired (view s2) /\ started (view s2)) as [Hret Hst2].
  { rewrite Hv2, Hv1. split.
    - unfold block_rule. rewrite then_snd. apply stay_follower_retires.
    - by apply (block_invariant options started). }
  destruct (handle_events_runs events s2
    (fun n => retired n /\ n_blocked n = false)) as (es & s3 & Hrun3 & Hwf3 & Hret3 & Hb3);
    [done..| | |].
  - intros e n He [Hn Hb]. rewrite <- Hb. apply handle_rule_retired; [by intros ->|done].
  - split; [done|]. by rewrite Hv2.
  - eexists _, s3. split; [|done]. unfold block at 1.
    erewrite run_bind_ok by exact Hrun1. unfold unblock.
    erewrite run_bind_ok by exact Hrun2. by rewrite Hrun3.
Qed.

(** The destructor cancels the tasks of both timers, so that no later round
    of the executor calls back into the destroyed object, and stops the actor. *)
Theorem destroy_cancels s :
  wf s ->
  exists s', destroy s = ([StopActor (Addr := Addr)], s', Ok tt) /\
    forall h, election_timeout_task_ s' = Some h \/ heartbeat_task_ s' = Some h ->
    exists v, ts_view (scheduler_ s') !! ts_key h = Some v /\ view_active v = false.
Proof.
  intros Hwf. pose proof (wf_service s Hwf) as Ht.
  assert (forall (h : H) t, ts_wf t -> ts_wf (ts_cancel h t) /\
    ts_view (ts_cancel h t) = alter view_cancel (ts_key h) (ts_view t)) as Hc by apply ts_cancel_spec.
  pose proof (wf_election s Hwf) as He. pose proof (wf_heartbeat s Hwf) as Hh.
  pose proof (keys_differ s) as Hne. unfold destroy, cancel_scheduled_tasks, if_task.
  destruct s as [t b r term l v [he|] p [hh|]]; simpl in *.
  - destruct (Hc he t Ht) as [Ht1 Hv1]. destruct (Hc hh _ Ht1) as [Ht2 Hv2].
    destruct (He he eq_refl) as [pe Hpe]. destruct (Hh hh eq_refl) as [ph Hph].
    specialize (Hne he hh Hwf eq_refl eq_refl).
    eexists. split; [by run|]. simpl. intros h [[= <-]|[= <-]]; rewrite Hv2, ?Hv1.
    + rewrite lookup_alter_ne, lookup_alter_eq, Hpe by done. by eexists.
    + rewrite lookup_alter_eq, lookup_alter_ne, Hph by done. by eexists.
  - destruct (Hc he t Ht) as [Ht1 Hv1]. destruct (He he eq_refl) as [pe Hpe].
    eexists. split; [by run|]. simpl. intros h [[= <-]|?]; [|done].
    rewrite Hv1, lookup_alter_eq, Hpe. by eexists.
  - destruct (Hc hh t Ht) as [Ht1 Hv1]. destruct (Hh hh eq_refl) as [ph Hph].
    eexists. split; [by run|]. simpl. intros h [?|[= <-]]; [done|].
    rewrite Hv1, lookup_alter_eq, Hph. by eexists.
  - eexists. split; [by run|]. simpl. by intros h [?|?].
Qed.

End refinement.

(** ** Examples *)

Section examples.
#[local] Existing Instance example_env.
#[local] Existing Instance example_env_ok.

(** Server 1 of five, started; its leadership ends in the callback. *)
Definition sample_options : RaftFSMOptions :=
  mkFSMOptions (150, 300) 50 (Some (fun _ => [CallStayFollower])) (Some (fun _ => [])).

Lemma sample_options_ok : options_ok sample_options.
Proof. unfold options_ok. simpl. lia. Qed.

Definition sample_fsm : RaftFSM (Scheduler FsmCallable) ScheduledTask :=
  (start (Addr := RemoteRaftActorAddress) sample_options (new_RaftFSM new_scheduler)).1.2.

Lemma sample_fsm_ok : wf sample_fsm /\ view sample_fsm = (start_rule (Addr := Z) new_Node).2.
Proof.
  destruct (start_runs (Addr := RemoteRaftActorAddress) sample_options sample_options_ok (new_RaftFSM new_scheduler))
    as (s' & Hrun & Hv & Hwf).
  - apply new_fsm_view, wf_new.
  - unfold sample_fsm. rewrite Hrun. by split.
Qed.

Lemma sample_fsm_wf : wf sample_fsm.
Proof. apply sample_fsm_ok. Qed.

Lemma sample_started : started (view sample_fsm).
Proof. by rewrite (proj2 sample_fsm_ok). Qed.

Lemma sample_answerable : answerable five_options (RequestVoteReq 2 7).
Proof. vm_compute. by eexists. Qed.

Lemma handle_implements_rule_witness :
  exists s', handle five_options sample_options (RequestVoteReq 2 7) sample_fsm
    = ((handle_rule five_options sample_options (RequestVoteReq 2 7) (view sample_fsm)).1, s', Ok tt) /\
    view s' = (handle_rule five_options sample_options (RequestVoteReq 2 7) (view sample_fsm)).2 /\
    wf s' /\ started (view s').
Proof.
  apply (handle_implements_rule five_options sample_options sample_options_ok).
  - exact sample_fsm_wf.
  - exact sample_started.
  - exact sample_answerable.
Defined.

Lemma interface_implements_rules_witness :
  runs_to (stay_follower sample_options) sample_fsm
    (stay_follower_rule (Addr := RemoteRaftActorAddress) sample_options (view sample_fsm)).
Proof.
  destruct (interface_implements_rules five_options sample_options sample_options_ok
    new_scheduler sample_fsm) as (_ & _ & _ & Hstay & _); [exact wf_new|exact sample_fsm_wf|exact Hstay].
Defined.

Lemma callbacks_terminate_witness :
  runs_to (run_calls sample_options 5 [CallBlock; CallUnblock]) sample_fsm
    (each (full_call (Addr := RemoteRaftActorAddress) sample_options) [CallBlock; CallUnblock] (view sample_fsm)).
Proof.
  apply (callbacks_terminate sample_options sample_options_ok);
    [vm_compute; lia|exact sample_fsm_wf].
Defined.

Lemma unknown_sender_undefined_witness :
  exists es s' what, handle five_options sample_options (AppendEntriesReq 9 0) sample_fsm
    = (es, s', Err (UndefinedBehaviour what)).
Proof.
  apply (unknown_sender_undefined five_options sample_options sample_options_ok);
    [exact sample_fsm_wf|exact sample_started|done|done|by vm_compute].
Defined.

Lemma timers_follow_role_witness :
  exists es s', handle five_options sample_options ElectionTimeoutEvent sample_fsm = (es, s', Ok tt) /\
    timers_ok (view s').
Proof.
  apply (timers_follow_role five_options sample_options sample_options_ok);
    [exact sample_fsm_wf|exact sample_started|done|].
  by rewrite (proj2 sample_fsm_ok).
Defined.

Lemma unblock_does_not_rejoin_witness :
  exists es s', (block sample_options ;; (unblock ;;
      (for_each (handle five_options sample_options) [RequestVoteReq 2 7; AppendEntriesReq 2 7])))
      sample_fsm = (es, s', Ok tt) /\ blocked_ s' = false /\ retired (view s').
Proof.
  apply (unblock_does_not_rejoin five_options sample_options sample_options_ok);
    [exact sample_fsm_wf|exact sample_started| |].
  - apply Forall_cons. split; [exact sample_answerable|].
    apply Forall_cons. split; [vm_compute; by eexists|by apply Forall_nil].
  - apply (bool_decide_unpack _). by vm_compute.
Defined.

Lemma destroy_cancels_witness :
  exists s', destroy sample_fsm = ([StopActor (Addr := RemoteRaftActorAddress)], s', Ok tt) /\
    forall h, election_timeout_task_ s' = Some h \/ heartbeat_task_ s' = Some h ->
    exists v, ts_view (C := FsmCallable) (scheduler_ s')
      !! ts_key (T := Scheduler FsmCallable) (C := FsmCallable) h = Some v /\ view_active v = false.
Proof. apply destroy_cancels. exact sample_fsm_wf. Defined.
End examples.
