(* ===== verification/Cluster.v ===== *)
(** * A group of servers: interleavings, the network and election safety

    A [Cluster] is the state of every server, where its threads are, and the
    messages sent so far.  The actions are the pieces of code that other threads
    can come between: a handler under [handler_mtx_]; the executor thread taking a
    due callable, and after that either the timeout it handles or, without any
    mutex, one turn of the heartbeat loop at a time; the first half of [start],
    which arms the timer, and the second, which starts the actor; and a public
    call.  A public call is one action: the group is that of a program whose calls
    of [stay_follower], [block], [unblock] and [stop] do not overlap a handler or
    each other, which the code leaves to its user (Overlap.v shows what happens
    otherwise).  Any message ever sent to a server may reach it, at any time and
    any number of times, so that loss, delay, reordering and repetition of
    messages are all covered.  A [Restart] replaces a server by a new object: the
    library keeps nothing on disk. *)
From S2P Require Import Prelude Timers NetworkUtil Protocol Scheduler RaftActor Fsm.
From S2P Require Import ElectionSpec ElectionFacts FsmRefinement.
Local Open Scope Z_scope.

(** [Fire] begins a callable, [Expire] is the timeout that one of them handles and
    [Beat] a turn of the loop of the other; [CallStart] and [OpenActor] are the
    halves of [start]. *)
Inductive Action :=
| Deliver (event : RaftEvent)
| Fire (callable : FsmCallable)
| Expire
| Beat
| Call (call : ApiCall)
| CallStart
| OpenActor
| Restart.

#[global] Instance FsmCallable_eq_dec : EqDecision FsmCallable.
Proof. solve_decision. Defined.
#[global] Instance ApiCall_eq_dec : EqDecision ApiCall.
Proof. solve_decision. Defined.
#[global] Instance Action_eq_dec : EqDecision Action.
Proof. solve_decision. Defined.

(** Where the executor thread of a server is: between two callables, about to
    handle a timeout, or in the heartbeat loop with the peers that are left. *)
Inductive ExecutorState (Addr : Type) :=
| Idle
| Expired
| Beating (rest : list Addr).
Arguments Idle {Addr}.
Arguments Expired {Addr}.
Arguments Beating {Addr} _.

(** The threads of a server: its executor, and how many are between the two
    halves of [start]. *)
Record Threads (Addr : Type) := mkThreads {
  executor : ExecutorState Addr;
  starting : nat;
}.
Arguments mkThreads {Addr} _ _.
Arguments executor {Addr} _.
Arguments starting {Addr} _.

Definition no_threads {Addr} : Threads Addr := mkThreads Idle 0.

Record Cluster (T H Addr : Type) := mkCluster {
  servers : gmap Z (RaftFSM T H);
  threads : gmap Z (Threads Addr);
  sent : list (Addr * RaftEvent);
}.
Arguments mkCluster {T H Addr} _ _ _.
Arguments servers {T H Addr} _.
Arguments threads {T H Addr} _.
Arguments sent {T H Addr} _.

Section cluster.
Context {T H Addr : Type} `{!EqDecision Addr} `{HE : Env} `{HS : !TimerOps T H FsmCallable}.
Context `{!TimerService T H FsmCallable}.
Context (peers : gmap Z Addr) (options : Z -> RaftFSMOptions) (fresh : T).

Local Abbreviation fsm := (RaftFSM T H).
Local Abbreviation M := (comp fsm (FsmEffect Addr)).
Local Abbreviation cluster := (Cluster T H Addr).
Implicit Types (c : cluster) (i : Z) (a : Action).

(** Every server has the same peer map. *)
Definition actor_of i : RaftActorOptions Addr := mkRaftActorOptions peers i.

Definition threads_of c i : Threads Addr := default no_threads (threads c !! i).

Definition initial : cluster := mkCluster ((fun _ => new_RaftFSM fresh) <$> peers) ∅ [].

(** What thread and method an action stands for. *)
Definition perform i (th : Threads Addr) a : M unit :=
  match a with
  | Deliver event => handle (actor_of i) (options i) event
  | Fire _ => mret tt
  | Expire => run_callable (actor_of i) (options i) FireElectionTimeout
  | Beat =>
      match executor th with
      | Beating (peer :: _) => send_heartbeat (actor_of i) peer
      | _ => mret tt
      end
  | Call call => api_call_with (options i) (run_calls (options i) callback_depth) call
  | CallStart => init_follower_state (options i)
  | OpenActor => emit StartActor
  | Restart => modify (fun _ => new_RaftFSM fresh)
  end.

(** The heartbeat loop is over when no peer is left. *)
Definition beating (rest : list Addr) : ExecutorState Addr :=
  match rest with [] => Idle | _ => Beating rest end.

(** Where the threads are after the action. *)
Definition advance i a (th : Threads Addr) : Threads Addr :=
  match a with
  | Fire FireElectionTimeout => mkThreads Expired (starting th)
  | Fire SendHeartbeats => mkThreads (beating (get_peers (actor_of i))) (starting th)
  | Expire => mkThreads Idle (starting th)
  | Beat =>
      match executor th with
      | Beating (_ :: rest) => mkThreads (beating rest) (starting th)
      | _ => th
      end
  | CallStart => mkThreads (executor th) (S (starting th))
  | OpenActor => mkThreads (executor th) (pred (starting th))
  | Restart => no_threads
  | Deliver _ | Call _ => th
  end.

Definition timer_of (s : fsm) (callable : FsmCallable) : TimerStatus :=
  match callable with
  | FireElectionTimeout => n_election (view s)
  | SendHeartbeats => n_heartbeat (view s)
  end.

(** What the threads of a server can do by themselves: the executor takes active
    tasks only, one after the other. *)
Definition thread_enabled a (s : fsm) (th : Threads Addr) : bool :=
  match a with
  | Fire callable =>
      match executor th with Idle => bool_decide (timer_of s callable = Running) | _ => false end
  | Expire => match executor th with Expired => true | _ => false end
  | Beat => match executor th with Beating (_ :: _) => true | _ => false end
  | Call _ | CallStart => true
  | OpenActor => bool_decide (0 < starting th)%nat
  | Deliver _ | Restart => false
  end.

(** [start] creates the timer before it opens the server's socket. *)
Definition enabled i a (s : fsm) c : bool :=
  match a with
  | Deliver event =>
      bool_decide (n_election (view s) <> Absent) &&
      match peers !! i with
      | Some to => bool_decide ((to, event) ∈ sent c)
      | None => false
      end
  | Restart => true
  | _ => thread_enabled a s (threads_of c i)
  end.

Definition sends (es : list (FsmEffect Addr)) : list (Addr * RaftEvent) :=
  omap (fun e => match e with Send to event => Some (to, event) | _ => None end) es.

(** The group after the action [a] of server [i] left [s] and emitted [es]. *)
Definition group_after i a s (es : list (FsmEffect Addr)) c : cluster :=
  mkCluster (<[i := s]> (servers c)) (<[i := advance i a (threads_of c i)]> (threads c))
    (sends es ++ sent c).

(** The action [a] of server [i]; nothing when it is not possible. *)
Definition act i a c : option (result cluster) :=
  s ← servers c !! i;
  if enabled i a s c then
    let '(es, s', r) := perform i (threads_of c i) a s in
    Some (_ ← r; Ok (group_after i a s' es c))
  else None.

Fixpoint act_all (actions : list (Z * Action)) c : option (result cluster) :=
  match actions with
  | [] => Some (Ok c)
  | (i, a) :: actions =>
      r ← act i a c;
      match r with
      | Ok c => act_all actions c
      | Err e => Some (Err e)
      end
  end.

(** An execution without restarts: the earlier states, the latest first, and
    the present one. *)
Inductive execution : list cluster -> cluster -> Prop :=
| execution_start : execution [] initial
| execution_step earlier c i a c' :
    execution earlier c -> a <> Restart -> act i a c = Some (Ok c') ->
    execution (c :: earlier) c'.

Definition leads c i (t : Z) : Prop :=
  exists s, servers c !! i = Some s /\ role_ s = leader /\ term_ s = t.

(** ** Votes over an execution *)

(** Server [i] has held the vote [v]. *)
Definition cast (states : list cluster) i (v : Voter) : Prop :=
  exists c s, c ∈ states /\ servers c !! i = Some s /\ voter_ s = v.

(** The majority that made [i] leader of the term [t]: it voted in the term
    before, since a candidate that wins moves on to the next term. *)
Definition elected (states : list cluster) i (t : Z) : Prop :=
  exists Q : gset Z, (majority (actor_of i) <= size Q)%nat /\
    forall v, v ∈ Q -> cast states v (mkVoter i (t - 1)).

Lemma cast_more c states i v : cast states i v -> cast (c :: states) i v.
Proof. intros (c0 & s & ? & ?). exists c0, s. split; [by right|done]. Qed.

Lemma elected_more c states i t : elected states i t -> elected (c :: states) i t.
Proof. intros (Q & HQ & Hv). exists Q. split; [done|]. intros. by apply cast_more, Hv. Qed.

(** ** The invariant *)

Record server_ok (bound : Z) (s : fsm) : Prop := {
  so_wf : wf s;
  so_node : node_ok (view s);
  so_term : term_ s <= bound;
  so_heartbeat : heartbeat_ok (view s);
}.

Record sent_ok (states : list cluster) (bound : Z) (to : Addr) (e : RaftEvent) : Prop := {
  sent_from : is_Some (peers !! get_server_id e);
  sent_term : 0 <= get_term e <= bound;
  sent_reached : exists c s, c ∈ states /\ servers c !! get_server_id e = Some s /\ term_ s = get_term e;
  sent_vote who when : e = RequestVoteRes who when true ->
    exists i, peers !! i = Some to /\ cast states who (mkVoter i when);
  sent_network : e <> ElectionTimeoutEvent;
}.

(** Only a started server has a timeout to handle or a [start] half done. *)
Definition threads_ok (n : Node) (th : Threads Addr) : Prop :=
  executor th = Expired \/ (0 < starting th)%nat -> started n.

(** The heartbeat loop that runs began while the server led some term [t0]. *)
Definition round_ok (earlier : list cluster) i (s : fsm) (th : Threads Addr) : Prop :=
  forall rest, executor th = Beating rest -> rest <> [] /\ rest ⊆ get_peers (actor_of i) /\
    exists c0 t0, c0 ∈ earlier /\ leads c0 i t0 /\ t0 <= term_ s.

Record inv (earlier : list cluster) c : Prop := {
  inv_dom states : states ∈ c :: earlier -> dom (servers states) = dom peers;
  inv_server i s : servers c !! i = Some s -> server_ok (Z.of_nat (length earlier)) s;
  inv_voter i s v : servers c !! i = Some s -> cast (c :: earlier) i v -> voter_le v (voter_ s);
  inv_once i v v' : cast (c :: earlier) i v -> cast (c :: earlier) i v' ->
    last_voted_term v = last_voted_term v' -> v = v';
  inv_sent to e : (to, e) ∈ sent c -> sent_ok (c :: earlier) (Z.of_nat (length earlier)) to e;
  inv_candidate i s v : servers c !! i = Some s -> role_ s = candidate -> v ∈ voted_peers_ s ->
    cast (c :: earlier) v (mkVoter i (term_ s));
  inv_leader c0 i t : c0 ∈ c :: earlier -> leads c0 i t -> elected (c :: earlier) i t;
  inv_threads i s : servers c !! i = Some s -> threads_ok (view s) (threads_of c i);
  inv_round i s : servers c !! i = Some s -> round_ok earlier i s (threads_of c i);
}.

(** ** One action *)

Context `{!EnvOk HE}.
Context (Hopt : forall i, options_ok (options i)) (Hfresh : ts_wf fresh).
Context (Hinj : forall i j to, peers !! i = Some to -> peers !! j = Some to -> i = j).

Definition trigger_of a : option RaftEvent :=
  match a with
  | Deliver event => Some event
  | Expire => Some ElectionTimeoutEvent
  | _ => None
  end.

Definition trigger_ok (bound : Z) (trigger : option RaftEvent) : Prop :=
  match trigger with
  | Some e => 0 <= get_term e <= bound /\ is_Some (peers !! get_server_id e) \/
      e = ElectionTimeoutEvent
  | None => True
  end.

(** The outcome [o] of the action [a] of server [i] in the state [s]. *)
Record performed i a (s : fsm) (th : Threads Addr) (o : list (FsmEffect Addr) * Node) : Prop := {
  pf_runs : runs_to (perform i th a) s o;
  pf_evolution : evolution (actor_of i) (trigger_of a) (view s) o;
  pf_heartbeat : heartbeat_ok o.2;
  pf_silent : trigger_of a = None -> a <> Beat -> silent o.1;
  pf_beat : a = Beat -> exists peer rest, executor th = Beating (peer :: rest) /\
    o = beat_rule (actor_of i) peer (view s);
  pf_started : started (view s) \/ StartActor ∈ o.1 -> started o.2;
  pf_threads : threads_ok o.2 (advance i a th);
}.

(** An action that emits nothing a server has to be started for. *)
Lemma performed_quiet i a s th o :
  node_ok (view s) -> runs_to (perform i th a) s o -> trigger_of a = None -> a <> Beat ->
  settled (view s) o.2 -> silent o.1 -> heartbeat_ok o.2 ->
  (started (view s) \/ StartActor ∈ o.1 -> started o.2) -> threads_ok o.2 (advance i a th) ->
  performed i a s th o.
Proof.
  intros Hok Hrun Htr Hbeat Hset Hsil Hhb Hst Hth. split; try done.
  by apply settled_evolution.
Qed.

Lemma handled_performed bound i a event s th :
  server_ok bound s -> bound < uint64_max -> trigger_of a = Some event -> a <> Beat ->
  perform i th a = handle (actor_of i) (options i) event -> started (view s) ->
  trigger_ok bound (Some event) ->
  performed i a s th (handle_rule (actor_of i) (options i) event (view s)).
Proof.
  intros [Hwf Hok Hterm Hhb] Hb Htr Hbeat Hperf Hst Hev.
  assert (n_term (view s) < uint64_max) as Hlt by (simpl; lia).
  pose proof (handle_rule_started (actor_of i) (options i) event (view s) Hst) as Hst'.
  split; [rewrite Hperf|..].
  - apply handled; [done..|]. destruct Hev as [[_ Hp]| ->]; [by destruct event|done].
  - rewrite Htr. apply handle_evolution; [done..|]. unfold event_ok. destruct Hev as [| ->]; simpl; lia.
  - by apply handle_rule_heartbeat.
  - by rewrite Htr.
  - done.
  - by intros _.
  - by intros _.
Qed.

(** Every action but a restart runs to completion and is an evolution. *)
Lemma perform_evolution bound i a s c :
  server_ok bound s -> threads_ok (view s) (threads_of c i) -> bound < uint64_max -> a <> Restart ->
  enabled i a s c = true -> trigger_ok bound (trigger_of a) ->
  exists o, performed i a s (threads_of c i) o.
Proof.
  intros Hserver Hth Hb Ha Hen Htr. pose proof Hserver as [Hwf Hok Hterm Hhb].
  pose proof (settled_quiet (view s) Hok) as Hquiet. set (th := threads_of c i) in *.
  destruct a as [event|callable| | |call| | |]; cbn [enabled thread_enabled] in Hen; fold th in Hen; [..|done].
  - apply andb_true_iff in Hen as [Hst%bool_decide_eq_true _]. eexists. by eapply handled_performed.
  - destruct (executor th) eqn:He; [|done..]. apply bool_decide_eq_true in Hen.
    eexists. apply performed_quiet; [done|by apply runs_ret|done|done|apply settled_refl|apply silent_nil|done|..].
    + by intros [Hst|?%elem_of_nil].
    + intros [Hexp|Hst]; [|apply Hth; right; by destruct callable].
      destruct callable; cbn in Hen, Hexp; [|by destruct (get_peers _)].
      unfold started. cbn. by rewrite Hen.
  - destruct (executor th) eqn:He; [done| |done]. eexists. eapply handled_performed; try done.
    apply Hth. by left.
  - destruct (executor th) as [| |[|peer rest]] eqn:He; [done..|].
    exists (beat_rule (actor_of i) peer (view s)). split.
    + cbn [perform]. rewrite He. by apply send_heartbeat_runs.
    + by apply beat_evolution.
    + exact Hhb.
    + by intros _ [].
    + intros _. by exists peer, rest.
    + by intros [Hst|?%list_elem_of_singleton].
    + cbn [advance]. rewrite He. intros [Hexp|Hst]; [by destruct rest|by apply Hth; right].
  - assert (started (view s) -> started (full_call (Addr := Addr) (options i) call (view s)).2) as Hst
      by (intros Hst; by apply full_call_invariant; [apply started_quiet|]).
    eexists. apply performed_quiet; [done|apply api_call_runs; [done|apply run_calls_quiet; done|done]|done|done|..].
    + apply full_call_invariant; [done|apply settled_refl].
    + apply full_call_silent.
    + by apply full_call_invariant; [apply heartbeat_quiet|].
    + intros [?|Hin]; [by apply Hst|by apply full_call_no_start in Hin].
    + intros Hbusy. by apply Hst, Hth.
  - eexists. apply performed_quiet; [done|by apply init_follower_runs|done|done|by split; [..|left]|apply silent_nil|done|..].
    all: by intros _.
  - apply bool_decide_eq_true in Hen. assert (started (view s)) as Hst by (apply Hth; by right).
    eexists. apply performed_quiet; [done|by apply runs_emit|done|done|apply settled_refl|by apply silent_one|done|..].
    all: by intros _.
Qed.

(** A server whose actor was never started does not lead: no answer has reached
    it.  As long as its timeout is not handled, it sends nothing. *)
Definition unopened (n : Node) (th : Threads Addr) : Prop :=
  n_role n <> leader /\ forall rest, executor th <> Beating rest.

Lemma perform_unopened bound i a s c o :
  server_ok bound s -> unopened (view s) (threads_of c i) -> enabled i a s c = true ->
  (forall event, a <> Deliver event) -> a <> Restart -> performed i a s (threads_of c i) o ->
  unopened o.2 (advance i a (threads_of c i)) /\
  (a <> Expire -> silent o.1 /\ (StopActor ∈ o.1 -> a = Call CallStop)).
Proof.
  intros Hserver [Hrole Hidle] Hen Hev Ha Hpf. pose proof Hserver as [Hwf Hok Hterm Hhb].
  set (th := threads_of c i) in *. split; [split|].
  - intros [[Hr _]|(v & Hr & _ & Htr & _)]%(evo_leader _ _ _ _ (pf_evolution _ _ _ _ _ Hpf)); [done|].
    destruct a as [event|[]| | |call| | |]; cbn in Htr; try done. by destruct (Hev event).
  - intros rest. destruct a as [event|[]| | |call| | |]; cbn [advance executor]; try done.
    + cbn [enabled thread_enabled] in Hen. fold th in Hen. destruct (executor th); [|done..].
      apply bool_decide_eq_true in Hen. by apply Hhb in Hen.
    + destruct (executor th) as [| |[|peer l]] eqn:He; [by rewrite He|by rewrite He|by destruct (Hidle [])|by destruct (Hidle (peer :: l))].
  - intros Hexp. assert (a <> Beat) as Hbeat.
    { intros ->. cbn [enabled thread_enabled] in Hen. fold th in Hen.
      destruct (executor th) as [| |[|peer l]] eqn:He; [done..|by destruct (Hidle (peer :: l))]. }
    assert (trigger_of a = None) as Htr by (destruct a as [event|[]| | |call| | |]; try done; by destruct (Hev event)).
    split; [by apply (pf_silent _ _ _ _ _ Hpf)|].
    destruct (pf_runs _ _ _ _ _ Hpf) as (s' & Hrun & Hv & _).
    assert (forall o', runs_to (perform i th a) s o' -> o = o') as Hsame.
    { intros o' (s1 & Hrun1 & Hv1 & _). rewrite Hrun in Hrun1. injection Hrun1 as Ho <-.
      destruct o, o'. cbn in *. congruence. }
    destruct a as [event|callable| | |call| | |]; try done.
    + by rewrite (Hsame ([], view s)) by (by apply runs_ret); intros ?%elem_of_nil.
    + rewrite (Hsame (full_call (options i) call (view s))) by (apply api_call_runs; [done|by apply run_calls_quiet|done]).
      by intros ->%follower_call_stop.
    + by rewrite (Hsame (arm_rule (view s))) by (by apply init_follower_runs); intros ?%elem_of_nil.
    + by rewrite (Hsame ([StartActor], view s)) by (by apply runs_emit); intros ?%list_elem_of_singleton.
Qed.

Lemma elem_of_sends to e es : (to, e) ∈ sends es -> Send to e ∈ es.
Proof.
  unfold sends. intros (x & Hx & Heq)%list_elem_of_omap. destruct x; try done.
  by injection Heq as -> <-.
Qed.

(** ** The invariant holds *)

Lemma act_ok i a c c' :
  act i a c = Some (Ok c') ->
  exists s es s', servers c !! i = Some s /\ enabled i a s c = true /\
    perform i (threads_of c i) a s = (es, s', Ok tt) /\ c' = group_after i a s' es c.
Proof.
  unfold act. destruct (servers c !! i) as [s|]; [|done]. simpl.
  destruct (enabled i a s c) eqn:Hen; [|done].
  destruct (perform i _ a s) as [[es s'] [[]|]] eqn:Hp; [|done]. intros [= <-].
  by exists s, es, s'.
Qed.

Lemma inv_trigger earlier c i a s :
  inv earlier c -> enabled i a s c = true -> trigger_ok (Z.of_nat (length earlier)) (trigger_of a).
Proof.
  intros Hinv Hen. destruct a as [event|[]| | | | | |]; simpl in *; try done; [|by right].
  apply andb_true_iff in Hen as [_ Hen]. destruct (peers !! i) as [to|]; [|done].
  apply bool_decide_eq_true in Hen. left.
  by destruct (inv_sent _ _ Hinv to event Hen) as [? ? _ _].
Qed.

(** A step of the server [i] from [s] to [s'], with the invariant before it. *)
Record stepped (earlier : list cluster) c i a s (o : list (FsmEffect Addr) * Node) s' c' : Prop := {
  st_inv : inv earlier c;
  st_server : servers c !! i = Some s;
  st_peer : is_Some (peers !! i);
  st_enabled : enabled i a s c = true;
  st_trigger : trigger_ok (Z.of_nat (length earlier)) (trigger_of a);
  st_view : view s' = o.2;
  st_wf : wf s';
  st_performed : performed i a s (threads_of c i) o;
  st_next : c' = group_after i a s' o.1 c;
}.

Lemma st_evolution earlier c i a s o s' c' :
  stepped earlier c i a s o s' c' -> evolution (actor_of i) (trigger_of a) (view s) o.
Proof. intros Hst. apply (pf_evolution _ _ _ _ _ (st_performed _ _ _ _ _ _ _ _ Hst)). Qed.

Lemma act_stepped earlier c i a c' :
  inv earlier c -> Z.of_nat (length earlier) < uint64_max -> a <> Restart ->
  act i a c = Some (Ok c') -> exists s o s', stepped earlier c i a s o s' c'.
Proof.
  intros Hinv Hb Ha Hact. destruct (act_ok i a c c' Hact) as (s & es & s' & Hs & Hen & Hp & ->).
  pose proof (inv_trigger _ _ _ _ _ Hinv Hen) as Htr.
  destruct (perform_evolution _ i a s c (inv_server _ _ Hinv i s Hs) (inv_threads _ _ Hinv i s Hs) Hb Ha Hen Htr)
    as (o & Hpf). pose proof (pf_runs _ _ _ _ _ Hpf) as (s1 & Hrun & Hv & Hwf).
  rewrite Hp in Hrun. injection Hrun as -> <-. exists s, o, s'. split; try done.
  apply elem_of_dom. rewrite <- (inv_dom _ _ Hinv c) by left. by apply elem_of_dom_2 in Hs.
Qed.

Section preservation.
Context (earlier : list cluster) c i a (s : fsm) (o : list (FsmEffect Addr) * Node)
  (s' : fsm) c'.
Context (Hst : stepped earlier c i a s o s' c').

Local Abbreviation states := (c :: earlier).
Local Abbreviation states' := (c' :: c :: earlier).

Lemma servers_after j :
  servers c' !! j = if decide (j = i) then Some s' else servers c !! j.
Proof.
  rewrite (st_next _ _ _ _ _ _ _ _ Hst). simpl.
  destruct (decide (j = i)) as [->|Hne]; [by rewrite lookup_insert_eq|].
  by rewrite lookup_insert_ne.
Qed.

Lemma voter_grows : voter_le (voter_ s) (voter_ s').
Proof.
  change (voter_ s') with (n_voter (view s')). rewrite (st_view _ _ _ _ _ _ _ _ Hst).
  apply (evo_voter _ _ _ _ (st_evolution _ _ _ _ _ _ _ _ Hst)).
Qed.

Lemma threads_after j :
  threads_of c' j = if decide (j = i) then advance i a (threads_of c i) else threads_of c j.
Proof.
  rewrite (st_next _ _ _ _ _ _ _ _ Hst). unfold threads_of at 1. simpl.
  destruct (decide (j = i)) as [->|Hne]; [by rewrite lookup_insert_eq|].
  by rewrite lookup_insert_ne.
Qed.

Lemma cast_cases j v :
  cast states' j v -> cast states j v \/ exists sj, servers c' !! j = Some sj /\ v = voter_ sj.
Proof.
  intros (c0 & s0 & [->|Hin]%elem_of_cons & Hs0 & <-); [right; eauto|left]. by exists c0, s0.
Qed.

Lemma cast_now j sj : servers c' !! j = Some sj -> cast states' j (voter_ sj).
Proof. intros Hs. exists c', sj. split; [left|done]. Qed.

Lemma cast_self : cast states' i (voter_ s').
Proof. apply cast_now. by rewrite servers_after, decide_True by done. Qed.

Lemma step_voter j sj v : servers c' !! j = Some sj -> cast states' j v -> voter_le v (voter_ sj).
Proof.
  intros Hsj [Hold|(sj' & Hsj' & ->)]%cast_cases.
  2: { rewrite Hsj in Hsj'. by injection Hsj' as <-. }
  rewrite servers_after in Hsj. destruct Hst as [Hinv Hs]. case_decide as Hj.
  - injection Hsj as <-. subst j. transitivity (voter_ s); [|apply voter_grows].
    by apply (inv_voter _ _ Hinv i).
  - by apply (inv_voter _ _ Hinv j).
Qed.

Lemma step_once j v v' :
  cast states' j v -> cast states' j v' -> last_voted_term v = last_voted_term v' -> v = v'.
Proof.
  intros Hv Hv' Ht. destruct (cast_cases j v Hv) as [Hold|(sj & Hsj & ->)].
  - destruct (cast_cases j v' Hv') as [Hold'|(sj & Hsj & ->)].
    + by apply (inv_once _ _ (st_inv _ _ _ _ _ _ _ _ Hst) j).
    + apply voter_le_functional; [by apply (step_voter j)|done].
  - symmetry. apply voter_le_functional; [by apply (step_voter j)|done].
Qed.

(** A granted vote that reached the server was cast for it. *)
Lemma response_cast v t :
  trigger_of a = Some (RequestVoteRes v t true) -> cast states v (mkVoter i t).
Proof.
  destruct Hst as [Hinv _ _ Hen _ _ _ _]. clear Hst.
  destruct a as [event|[]| | | | | |]; simpl in *; try done.
  intros [= ->]. apply andb_true_iff in Hen as [_ Hen].
  destruct (peers !! i) as [to|] eqn:Hto; [|done]. apply bool_decide_eq_true in Hen.
  destruct (sent_vote _ _ _ _ (inv_sent _ _ Hinv _ _ Hen) v t eq_refl) as (j & Hj & Hcast).
  by rewrite (Hinj i j to).
Qed.

Lemma step_server j sj :
  servers c' !! j = Some sj -> server_ok (Z.of_nat (length states)) sj.
Proof.
  pose proof (st_evolution _ _ _ _ _ _ _ _ Hst) as He.
  rewrite servers_after. destruct Hst as [Hinv Hs _ _ Htr Hv Hwf [_ _ Hhb _ _ _ _] _]. case_decide.
  - intros [= <-]. destruct (inv_server _ _ Hinv i s Hs) as [_ _ Hle _].
    split; [done|rewrite Hv; apply He| |by rewrite Hv].
    destruct (evo_term _ _ _ _ He) as [_ Hmax]. change (term_ s') with (n_term (view s')).
    rewrite Hv. change (n_term (view s)) with (term_ s) in Hmax. cbn [length].
    destruct (trigger_of a) as [e|]; simpl in Htr, Hmax; [|lia].
    destruct Htr as [[? _]| ->]; simpl in *; lia.
  - intros Hsj. destruct (inv_server _ _ Hinv j sj Hsj). split; [done|done| |done].
    simpl length. lia.
Qed.

Lemma step_sent to e :
  (to, e) ∈ sent c' -> sent_ok states' (Z.of_nat (length states)) to e.
Proof.
  pose proof (f_equal sent (st_next _ _ _ _ _ _ _ _ Hst)) as ->. simpl sent.
  intros [Hnew%elem_of_sends|Hold]%elem_of_app.
  - pose proof cast_self as Hself. pose proof (step_server i s') as Hok.
    pose proof (servers_after i) as Hat. rewrite decide_True in Hat by done.
    destruct (Hok Hat) as [_ _ Hle _]. cbn [length] in *.
    destruct (evo_sends _ _ _ _ (st_evolution _ _ _ _ _ _ _ _ Hst) to e Hnew) as [Hfrom Ht Hpos Hg _ Hnet].
    destruct Hst as [Hinv _ Hp _ _ Hv _ _ _].
    rewrite <- Hv in Ht, Hg. simpl in Hfrom, Ht, Hg. split; [by rewrite Hfrom|lia| | |done].
    + exists c', s'. rewrite Hfrom. split; [left|done].
    + intros who when Heq. destruct (Hg who when Heq) as (k & _ & Hk & Hvote).
      exists k. split; [done|]. rewrite Heq in Hfrom. simpl in Hfrom. subst who.
      by rewrite <- Hvote.
  - destruct (inv_sent _ _ (st_inv _ _ _ _ _ _ _ _ Hst) to e Hold) as [? ? (c0 & s0 & ? & ?) Hvote ?].
    split; [done|simpl length; lia| | |done].
    + exists c0, s0. split; [by right|done].
    + intros who when Heq. destruct (Hvote who when Heq) as (k & ? & ?).
      exists k. split; [done|by apply cast_more].
Qed.

Lemma step_candidate j sj v :
  servers c' !! j = Some sj -> role_ sj = candidate -> v ∈ voted_peers_ sj ->
  cast states' v (mkVoter j (term_ sj)).
Proof.
  pose proof cast_self as Hself. pose proof response_cast as Hres.
  pose proof (st_evolution _ _ _ _ _ _ _ _ Hst) as He.
  rewrite servers_after. destruct Hst as [Hinv Hs _ _ _ Hv _ _ _]. case_decide as Hj.
  - intros [= <-] Hr Hin. subst j.
    change (role_ s') with (n_role (view s')) in Hr.
    change (voted_peers_ s') with (n_votes (view s')) in Hin.
    change (voter_ s') with (n_voter (view s')) in Hself.
    change (term_ s') with (n_term (view s')). rewrite Hv in *.
    destruct (evo_candidate _ _ _ _ He v Hr Hin) as [(Hr0 & -> & Hin0)|[[-> Hvote]|Htr]].
    + by apply cast_more, (inv_candidate _ _ Hinv i s).
    + simpl in Hvote |- *. by rewrite <- Hvote.
    + by apply cast_more, Hres.
  - intros. apply cast_more. by apply (inv_candidate _ _ Hinv j sj).
Qed.

Lemma step_leader c0 j t : c0 ∈ states' -> leads c0 j t -> elected states' j t.
Proof.
  pose proof response_cast as Hres. pose proof (st_evolution _ _ _ _ _ _ _ _ Hst) as He.
  intros [->|Hin]%elem_of_cons Hl.
  2: { apply elected_more. by apply (inv_leader _ _ (st_inv _ _ _ _ _ _ _ _ Hst) c0). }
  apply elected_more. destruct Hl as (sj & Hsj & Hr & Ht). rewrite servers_after in Hsj.
  destruct Hst as [Hinv Hs _ _ _ Hv _ _ _]. case_decide as Hj.
  2: { apply (inv_leader _ _ Hinv c); [left|]. by exists sj. }
  injection Hsj as <-. subst j t.
  change (role_ s') with (n_role (view s')) in Hr. change (term_ s') with (n_term (view s')).
  rewrite Hv in *. destruct (evo_leader _ _ _ _ He Hr) as [[Hr0 ->]|(v & Hr0 & -> & Htr & Hmaj)].
  - apply (inv_leader _ _ Hinv c); [left|]. by exists s.
  - exists ({[v]} ∪ voted_peers_ s). split; [done|].
    replace (n_term (view s) + 1 - 1) with (term_ s) by (simpl; lia).
    intros x [->%elem_of_singleton|Hx]%elem_of_union; [by apply Hres|].
    by apply (inv_candidate _ _ Hinv i s).
Qed.

Lemma step_threads j sj : servers c' !! j = Some sj -> threads_ok (view sj) (threads_of c' j).
Proof.
  rewrite servers_after, threads_after. case_decide as Hj.
  - intros [= <-]. rewrite (st_view _ _ _ _ _ _ _ _ Hst).
    apply (pf_threads _ _ _ _ _ (st_performed _ _ _ _ _ _ _ _ Hst)).
  - apply (inv_threads _ _ (st_inv _ _ _ _ _ _ _ _ Hst)).
Qed.

(** Where the loop that runs after the action was before it. *)
Lemma round_before rest :
  executor (threads_of c' i) = Beating rest ->
  rest <> [] /\ a = Fire SendHeartbeats /\ leads c i (term_ s) /\ rest = get_peers (actor_of i) \/
  exists l, executor (threads_of c i) = Beating l /\ rest ⊆ l /\ (l <> [] -> rest <> []).
Proof.
  rewrite threads_after, decide_True by done. pose proof (st_enabled _ _ _ _ _ _ _ _ Hst) as Hen.
  destruct a as [event|[]| | | | | |]; cbn [advance executor enabled thread_enabled] in *; try done.
  all: try (intros ->; right; by eexists).
  - destruct (executor (threads_of c i)); [|done..]. apply bool_decide_eq_true in Hen.
    intros Hrest. left. assert (rest <> [] /\ rest = get_peers (actor_of i)) as [? ?].
    { destruct (get_peers (actor_of i)); [done|]. by injection Hrest as <-. }
    split_and!; [done|done| |done]. exists s. destruct (st_server _ _ _ _ _ _ _ _ Hst). split; [done|]. split; [|done].
      apply (so_heartbeat _ _ (inv_server _ _ (st_inv _ _ _ _ _ _ _ _ Hst) i s (st_server _ _ _ _ _ _ _ _ Hst)) Hen).
  - destruct (executor (threads_of c i)) as [| |[|peer l]]; [done..|]. intros Hrest. right.
    eexists. split; [done|]. destruct l; [done|]. injection Hrest as <-. split; [intros x Hx; by right|done].
Qed.

Lemma step_round j sj : servers c' !! j = Some sj -> round_ok states j sj (threads_of c' j).
Proof.
  intros Hsj. pose proof (st_inv _ _ _ _ _ _ _ _ Hst) as Hinv. rewrite servers_after in Hsj. case_decide as Hj.
  - injection Hsj as <-. subst j. intros rest Hrest.
    assert (term_ s <= term_ s') as Hle.
    { change (term_ s') with (n_term (view s')). rewrite (st_view _ _ _ _ _ _ _ _ Hst).
      apply (evo_term _ _ _ _ (st_evolution _ _ _ _ _ _ _ _ Hst)). }
    destruct (round_before rest Hrest) as [(? & _ & Hl & ->)|(l & Hl & Hsub & Hne)].
    + split; [done|]. split; [done|]. exists c, (term_ s). split; [left|done].
    + destruct (inv_round _ _ Hinv i s (st_server _ _ _ _ _ _ _ _ Hst) l Hl) as (Hl0 & Hall & c0 & t0 & ? & ? & ?).
      split; [by apply Hne|]. split; [by etransitivity|]. exists c0, t0. split; [by right|]. split; [done|lia].
  - rewrite threads_after, decide_False by done. intros rest Hrest.
    destruct (inv_round _ _ Hinv j sj Hsj rest Hrest) as (Hne & Hall & c0 & t0 & ? & ?).
    split; [done|]. split; [done|]. exists c0, t0. split; [by right|done].
Qed.

Lemma step_inv : inv states c'.
Proof.
  split.
  - intros c0 [->|Hin]%elem_of_cons; [|by apply (inv_dom _ _ (st_inv _ _ _ _ _ _ _ _ Hst))].
    rewrite (st_next _ _ _ _ _ _ _ _ Hst). simpl. rewrite dom_insert_lookup_L.
    + apply (inv_dom _ _ (st_inv _ _ _ _ _ _ _ _ Hst)). left.
    + by rewrite (st_server _ _ _ _ _ _ _ _ Hst).
  - exact step_server.
  - exact step_voter.
  - exact step_once.
  - exact step_sent.
  - exact step_candidate.
  - exact step_leader.
  - exact step_threads.
  - exact step_round.
Qed.
End preservation.

Lemma initial_server i s : servers initial !! i = Some s -> s = new_RaftFSM fresh.
Proof. simpl. rewrite lookup_fmap. by intros (to & _ & ->)%fmap_Some. Qed.

Lemma initial_cast i v : cast [initial] i v -> v = new_Voter.
Proof.
  intros (c & s & ->%list_elem_of_singleton & Hs & <-). by rewrite (initial_server i s Hs).
Qed.

Lemma initial_inv : inv [] initial.
Proof.
  split.
  - intros c ->%list_elem_of_singleton. unfold initial. cbn [servers]. by rewrite dom_fmap_L.
  - intros i s ->%initial_server. destruct (new_fsm_view fresh Hfresh) as [Hwf Hv].
    split; [done| |done|by rewrite Hv]. rewrite Hv. split; [done| |done]. unfold in_range. simpl. lia.
  - intros i s v ->%initial_server ->%initial_cast. by right.
  - by intros i v v' ->%initial_cast ->%initial_cast.
  - by intros to e ?%elem_of_nil.
  - by intros i s v ->%initial_server.
  - intros c i t ->%list_elem_of_singleton (s & ->%initial_server & ? & _). done.
  - intros i s _. unfold threads_of. cbn. rewrite lookup_empty. intros [Hexp|Hpos]; cbn in *; [done|lia].
  - intros i s _ rest. unfold threads_of. cbn. by rewrite lookup_empty.
Qed.

Lemma execution_inv earlier c :
  execution earlier c -> Z.of_nat (length earlier) <= uint64_max -> inv earlier c.
Proof.
  induction 1 as [|earlier c i a c' Hex IH Ha Hact]; intros Hb; [apply initial_inv|].
  cbn [length] in Hb. assert (inv earlier c) as Hinv by (apply IH; lia).
  destruct (act_stepped earlier c i a c' Hinv) as (s & o & s' & Hst); [lia|done..|].
  by apply (step_inv earlier c i a s o s').
Qed.

(** Two majorities share a voter, who voted once in the term. *)
Lemma leaders_agree earlier c c1 c2 i j t :
  execution earlier c -> Z.of_nat (length earlier) < uint64_max ->
  c1 ∈ c :: earlier -> c2 ∈ c :: earlier -> leads c1 i t -> leads c2 j t -> i = j.
Proof.
  intros Hex Hb H1 H2 Hi Hj.
  assert (inv earlier c) as Hinv by (apply execution_inv; [done|lia]).
  destruct (inv_leader _ _ Hinv c1 i t H1 Hi) as (P & HP & Hcast).
  destruct (inv_leader _ _ Hinv c2 j t H2 Hj) as (Q & HQ & Hcast').
  assert (forall X : gset Z, (forall v, v ∈ X -> exists w, cast (c :: earlier) v w) ->
    X ⊆ dom peers) as Hdom.
  { intros X HX v Hv. destruct (HX v Hv) as (w & c0 & s & Hin & Hs & _).
    rewrite <- (inv_dom _ _ Hinv c0 Hin). by apply elem_of_dom_2 in Hs. }
  destruct (majorities_meet (actor_of i) P Q) as (v & HvP & HvQ).
  - apply Hdom. eauto.
  - apply Hdom. eauto.
  - done.
  - exact HQ.
  - by injection (inv_once _ _ Hinv v _ _ (Hcast v HvP) (Hcast' v HvQ) eq_refl).
Qed.

(** ** Properties *)

(** C1. Election safety.  In every execution of a group whose servers have
    distinct addresses, for all interleavings of handlers, timers, turns of the
    heartbeat loops and halves of [start], for public calls that do not overlap a
    handler, and for all loss, delay, reordering and repetition of messages: two
    servers that lead the same term, be it at different times, are the same
    server. *)
Theorem election_safety earlier c c1 c2 i j t :
  execution earlier c -> Z.of_nat (length earlier) < uint64_max ->
  c1 ∈ c :: earlier -> c2 ∈ c :: earlier -> leads c1 i t -> leads c2 j t -> i = j.
Proof. apply leaders_agree. Qed.

(** C6. A leader of the term [t] was voted for by a majority in the term
    [t - 1]: every member of it held that vote at some point. *)
Theorem leader_has_majority earlier c i t :
  execution earlier c -> Z.of_nat (length earlier) < uint64_max -> leads c i t ->
  exists Q : gset Z, Q ⊆ dom peers /\ (size peers / 2 + 1 <= size Q)%nat /\
    forall v, v ∈ Q -> exists c0 s, c0 ∈ c :: earlier /\ servers c0 !! v = Some s /\
      voter_ s = mkVoter i (t - 1).
Proof.
  intros Hex Hb Hl. assert (inv earlier c) as Hinv by (apply execution_inv; [done|lia]).
  destruct (inv_leader _ _ Hinv c i t) as (Q & HQ & Hcast); [left|done|].
  exists Q. split_and!; [|exact HQ|exact Hcast].
  intros v Hv. destruct (Hcast v Hv) as (c0 & s & Hin & Hs & _).
  rewrite <- (inv_dom _ _ Hinv c0 Hin). by apply elem_of_dom_2 in Hs.
Qed.

(** C7. No server fails: in a reachable state every action of every server that
    is possible runs to completion.  Messages only come from configured servers,
    so that no handler dereferences the null address; no timer operation fails,
    and no callback recurses without end.  The actions are taken undivided: data races
    inside them and deadlocks on the mutexes are not faults in this sense. *)
Theorem no_action_faults earlier c i a r :
  execution earlier c -> Z.of_nat (length earlier) < uint64_max -> a <> Restart ->
  act i a c = Some r -> exists c', r = Ok c'.
Proof.
  intros Hex Hb Ha. assert (inv earlier c) as Hinv by (apply execution_inv; [done|lia]).
  unfold act. destruct (servers c !! i) as [s|] eqn:Hs; [|done]. simpl.
  destruct (enabled i a s c) eqn:Hen; [|done].
  destruct (perform_evolution _ i a s c (inv_server _ _ Hinv i s Hs) (inv_threads _ _ Hinv i s Hs) Hb Ha Hen)
    as (o & Hpf); [by apply (inv_trigger _ c i a s)|].
  destruct (pf_runs _ _ _ _ _ Hpf) as (s' & -> & _).
  intros [= <-]. by eexists.
Qed.

(** C27. Terms and votes only grow along an execution, a vote changes only for a
    higher term, and a term is at most the number of steps taken, so that the
    64-bit counter does not wrap. *)
Theorem terms_and_votes_grow earlier c c0 i s0 s :
  execution earlier c -> Z.of_nat (length earlier) < uint64_max ->
  c0 ∈ c :: earlier -> servers c0 !! i = Some s0 -> servers c !! i = Some s ->
  term_ s0 <= term_ s <= Z.of_nat (length earlier) /\ voter_le (voter_ s0) (voter_ s).
Proof.
  intros Hex Hb Hin Hs0 Hs.
  assert (inv earlier c) as Hinv by (apply execution_inv; [done|lia]).
  split; [split; [|apply (inv_server _ _ Hinv i s Hs)]|].
  2: { apply (inv_voter _ _ Hinv i); [done|]. by exists c0, s0. }
  clear Hinv. revert s Hs. induction Hex as [|earlier c k a c' Hex IH Ha Hact]; intros s Hs.
  - apply list_elem_of_singleton in Hin as ->. rewrite Hs0 in Hs. by injection Hs as ->.
  - cbn [length] in Hb. apply elem_of_cons in Hin as [->|Hin].
    { rewrite Hs0 in Hs. by injection Hs as ->. }
    assert (inv earlier c) as Hinv by (apply execution_inv; [done|lia]).
    destruct (act_stepped earlier c k a c' Hinv) as (sk & o & sk' & Hst); [lia|done..|].
    rewrite (servers_after _ _ _ _ _ _ _ _ Hst) in Hs. case_decide as Hk.
    + injection Hs as <-. subst k. transitivity (term_ sk).
      { apply IH; [lia|done|by apply (st_server _ _ _ _ _ _ _ _ Hst)]. }
      change (term_ sk') with (n_term (view sk')). rewrite (st_view _ _ _ _ _ _ _ _ Hst).
      apply (evo_term _ _ _ _ (st_evolution _ _ _ _ _ _ _ _ Hst)).
    + apply IH; [lia|done..].
Qed.

(** The moment at which a heartbeat was sent. *)
Lemma heartbeat_sent earlier c to who t :
  execution earlier c -> Z.of_nat (length earlier) < uint64_max ->
  (to, AppendEntriesReq who t) ∈ sent c ->
  exists later now before s rest, c :: earlier = later ++ now :: before /\ inv before now /\
    servers now !! who = Some s /\ term_ s = t /\ executor (threads_of now who) = Beating (to :: rest).
Proof.
  induction 1 as [|earlier c i a c' Hex IH Ha Hact]; intros Hb; [by intros ?%elem_of_nil|].
  cbn [length] in Hb. assert (inv earlier c) as Hinv by (apply execution_inv; [done|lia]).
  destruct (act_stepped earlier c i a c' Hinv) as (s & o & s' & Hst); [lia|done..|].
  pose proof (f_equal sent (st_next _ _ _ _ _ _ _ _ Hst)) as ->. simpl sent.
  intros [Hnew%elem_of_sends|Hold]%elem_of_app.
  2: { destruct (IH ltac:(lia) Hold) as (later & now & before & s0 & rest & Heq & Hrest).
       exists (c' :: later), now, before, s0, rest. by rewrite Heq. }
  destruct (evo_sends _ _ _ _ (st_evolution _ _ _ _ _ _ _ _ Hst) _ _ Hnew) as [_ _ _ _ Hnone _].
  specialize (Hnone who t eq_refl). pose proof (st_performed _ _ _ _ _ _ _ _ Hst) as Hpf.
  destruct (decide (a = Beat)) as [Hbeat|Hbeat].
  2: by destruct (pf_silent _ _ _ _ _ Hpf Hnone Hbeat to (AppendEntriesReq who t)).
  destruct (pf_beat _ _ _ _ _ Hpf Hbeat) as (peer & rest & Hexec & Ho).
  rewrite Ho in Hnew. apply list_elem_of_singleton in Hnew as [= -> -> ->].
  exists [c'], c, earlier, s, rest. split_and!; [done|done| |done|done].
  apply (st_server _ _ _ _ _ _ _ _ Hst).
Qed.

(** C13. Where heartbeats come from.  A heartbeat of the term [t] was sent to one of
    the other servers by a server that had reached [t], in a turn of a loop that
    began while it led some term [t0], at most [t]; and if another server leads [t]
    at any time, then [t0] is older: the loop went on after its server had been
    deposed. *)
Theorem heartbeats_come_from_leaders earlier c to who t :
  execution earlier c -> Z.of_nat (length earlier) < uint64_max ->
  (to, AppendEntriesReq who t) ∈ sent c ->
  exists later now before round s t0,
    c :: earlier = later ++ now :: before /\ servers now !! who = Some s /\ term_ s = t /\
    to ∈ get_peers (actor_of who) /\ round ∈ before /\ leads round who t0 /\ t0 <= t /\
    forall c1 j, c1 ∈ c :: earlier -> leads c1 j t -> j = who \/ t0 < t.
Proof.
  intros Hex Hb Hsent.
  destruct (heartbeat_sent earlier c to who t Hex Hb Hsent) as (later & now & before & s & rest & Heq & Hinv & Hs & Ht & Hrest).
  destruct (inv_round _ _ Hinv who s Hs _ Hrest) as (_ & Hsub & round & t0 & Hround & Hl & Hle).
  exists later, now, before, round, s, t0. split_and!; [done..|by apply Hsub; left|done|done|lia|].
  intros c1 j Hc1 Hj. destruct (decide (t0 = t)) as [->|]; [left|right; lia].
  apply (leaders_agree earlier c c1 round j who t); [done..| |done|done].
  rewrite Heq. apply elem_of_app. right. by right.
Qed.

(** Running a list of actions is an execution. *)
Lemma act_all_execution actions earlier c c' :
  execution earlier c -> Forall (fun ia => ia.2 <> Restart) actions ->
  act_all actions c = Some (Ok c') ->
  exists earlier', execution earlier' c' /\ length earlier' = (length earlier + length actions)%nat.
Proof.
  revert earlier c. induction actions as [|[i a] actions IH]; intros earlier c Hex Hall.
  { intros [= <-]. exists earlier. split; [done|simpl; lia]. }
  apply Forall_cons in Hall as [Ha Hall]. simpl.
  destruct (act i a c) as [[c1|]|] eqn:Hact; [|done..]. intros Hrest.
  destruct (IH (c :: earlier) c1) as (earlier' & Hex' & Hlen); [|done..|].
  - by eapply execution_step.
  - exists earlier'. split; [done|]. cbn [length] in Hlen. lia.
Qed.

End cluster.

(** ** Examples *)

Section examples.
#[local] Existing Instance example_env.
#[local] Existing Instance example_env_ok.

Local Abbreviation concrete := (Cluster (Scheduler FsmCallable) ScheduledTask Z).

Definition group (ids : list Z) : gmap Z Z := list_to_map ((fun i => (i, i)) <$> ids).
Definition defaults (i : Z) : RaftFSMOptions := default_FSMOptions.

Definition run_group (ids : list Z) (actions : list (Z * Action)) : option (result concrete) :=
  act_all (group ids) defaults new_scheduler actions (initial (group ids) new_scheduler).

(** The leaders of a cluster with their terms. *)
Definition leaders (c : concrete) : list (Z * Z) :=
  omap (fun '(i, s) => if is_leader s then Some (i, term_ s) else None) (map_to_list (servers c)).

Lemma leaders_spec c i t : (i, t) ∈ leaders c -> leads c i t.
Proof.
  unfold leaders. intros ([j s] & Hin & Heq)%list_elem_of_omap.
  destruct (is_leader s) eqn:Hl; [|done]. injection Heq as -> <-.
  apply elem_of_map_to_list in Hin. exists s. split_and!; [done| |done].
  by apply bool_decide_eq_true in Hl.
Qed.

(** The [voters] get the request of server [i] for the term [t], and it their
    answers. *)
Definition poll (i t : Z) (voters : list Z) : list (Z * Action) :=
  ((fun v => (v, Deliver (RequestVoteReq i t))) <$> voters)
  ++ ((fun v => (i, Deliver (RequestVoteRes v t true))) <$> voters).

(** Server [i] times out in the term [t - 1] and the [voters] vote for it. *)
Definition campaign_of (i t : Z) (voters : list Z) : list (Z * Action) :=
  [(i, Fire FireElectionTimeout); (i, Expire)] ++ poll i t voters.

(** Both halves of [start]. *)
Definition start_all (ids : list Z) : list (Z * Action) :=
  ids ≫= (fun i => [(i, CallStart); (i, OpenActor)]).

(** A round of heartbeats to [n] peers. *)
Definition beats (i : Z) (n : nat) : list (Z * Action) :=
  (i, Fire SendHeartbeats) :: replicate n (i, Beat).

Example three_servers_elect :
  exists c, run_group [1; 2; 3] (start_all [1; 2; 3] ++ campaign_of 1 1 [2]) = Some (Ok c) /\
    leaders c = [(1, 2)].
Proof. eexists. split; vm_compute; reflexivity. Qed.

(** Three of five servers can lead at the same time, in different terms: an
    old leader only steps down when a message of a higher term reaches it. *)
Theorem three_simultaneous_leaders :
  exists c, run_group [1; 2; 3; 4; 5]
      (start_all [1; 2; 3; 4; 5] ++ campaign_of 1 1 [2; 3] ++ campaign_of 2 2 [3; 4] ++
       campaign_of 3 3 [4; 5]) = Some (Ok c) /\
    leads c 1 2 /\ leads c 2 3 /\ leads c 3 4.
Proof.
  eexists. split; [vm_compute; reflexivity|].
  split_and!; apply leaders_spec, (bool_decide_unpack _); vm_compute; exact I.
Qed.

(** C28. Without a restart a term has one leader; with one it can have two.  Votes
    and terms are kept in memory only, so that a server that voted and restarts
    votes again in the same term. *)
Theorem restart_breaks_election_safety :
  exists c, run_group [1; 2; 3]
      (start_all [1; 2; 3] ++ campaign_of 1 1 [2] ++ (2, Restart) :: start_all [2] ++
       campaign_of 3 1 [2]) = Some (Ok c) /\
    leads c 1 2 /\ leads c 3 2.
Proof.
  eexists. split; [vm_compute; reflexivity|].
  split_and!; apply leaders_spec, (bool_decide_unpack _); vm_compute; exact I.
Qed.

(** The execution in which server 1 of three is elected. *)
Definition election : list (Z * Action) := start_all [1; 2; 3] ++ campaign_of 1 1 [2].

Lemma group_inj ids i j to : group ids !! i = Some to -> group ids !! j = Some to -> i = j.
Proof.
  assert (forall k x, group ids !! k = Some x -> k = x) as Hid.
  { intros k x Hk%elem_of_list_to_map_2%list_elem_of_fmap. by destruct Hk as (y & [= -> ->] & _). }
  by intros ->%Hid ->%Hid.
Qed.

Lemma defaults_ok i : options_ok (defaults i).
Proof. unfold options_ok. simpl. lia. Qed.

Lemma fresh_ok : ts_wf (C := FsmCallable) (new_scheduler : Scheduler FsmCallable).
Proof. exact wf_new. Qed.

Lemma election_execution :
  exists earlier c, execution (group [1; 2; 3]) defaults new_scheduler earlier c /\
    length earlier = 10%nat /\ leads c 1 2 /\ (1, AppendEntriesReq 1 2) ∉ sent c.
Proof.
  assert (exists c : concrete, run_group [1; 2; 3] election = Some (Ok c) /\ leads c 1 2 /\
    (1, AppendEntriesReq 1 2) ∉ sent c) as (c & Hrun & Hl & Hs).
  { eexists. split; [vm_compute; reflexivity|].
    split; [apply leaders_spec|]; apply (bool_decide_unpack _); vm_compute; exact I. }
  destruct (act_all_execution (group [1; 2; 3]) defaults new_scheduler election [] _ c
    (execution_start _ _ _)) as (earlier & Hex & Hlen).
  - apply (bool_decide_unpack _). vm_compute. exact I.
  - exact Hrun.
  - exists earlier, c. split_and!; [exact Hex|exact Hlen|exact Hl|exact Hs].
Qed.

Lemma election_safety_witness :
  exists c : concrete, leads c 1 2 /\ forall j, leads c j 2 -> 1 = j.
Proof.
  destruct election_execution as (earlier & c & Hex & Hlen & Hl & _). exists c. split; [exact Hl|].
  intros j Hj. apply (election_safety (group [1; 2; 3]) defaults new_scheduler defaults_ok fresh_ok
    (group_inj _) earlier c c c 1 j 2 Hex); [rewrite Hlen; lia|left|left|exact Hl|exact Hj].
Defined.

Lemma leader_has_majority_witness :
  exists Q : gset Z, (2 <= size Q)%nat.
Proof.
  destruct election_execution as (earlier & c & Hex & Hlen & Hl & _).
  destruct (leader_has_majority (group [1; 2; 3]) defaults new_scheduler defaults_ok fresh_ok
    (group_inj _) earlier c 1 2 Hex) as (Q & _ & HQ & _); [rewrite Hlen; lia|exact Hl|].
  exists Q. exact HQ.
Defined.

Lemma no_action_faults_witness :
  exists (c : concrete) r, act (group [1; 2; 3]) defaults new_scheduler 1 (Call CallBlock) c = Some r /\
    exists c', r = Ok c'.
Proof.
  destruct election_execution as (earlier & c & Hex & Hlen & Hl & _).
  assert (exists r, act (group [1; 2; 3]) defaults new_scheduler 1 (Call CallBlock) c = Some r)
    as [r Hr].
  { unfold act. destruct Hl as (s & -> & _). cbn [mbind option_bind enabled].
    destruct (perform _ _ _ _ _ _ s) as [[es s'] r]. by eexists. }
  exists c, r. split; [exact Hr|].
  apply (no_action_faults (group [1; 2; 3]) defaults new_scheduler defaults_ok fresh_ok
    (group_inj _) earlier c 1 (Call CallBlock) r Hex); [rewrite Hlen; lia|discriminate|exact Hr].
Defined.

Lemma terms_and_votes_grow_witness :
  exists (c : concrete) s, servers c !! 1 = Some s /\ term_ s <= term_ s <= 10.
Proof.
  destruct election_execution as (earlier & c & Hex & Hlen & (s & Hs & _) & _).
  destruct (terms_and_votes_grow (group [1; 2; 3]) defaults new_scheduler defaults_ok fresh_ok
    (group_inj _) earlier c c 1 s s Hex) as [Ht _]; [rewrite Hlen; lia|left|exact Hs|exact Hs|].
  exists c, s. rewrite Hlen in Ht. split; [exact Hs|exact Ht].
Defined.

(** Server 1 leads the term 2 and begins a round.  It sends its first heartbeat, to
    server 3, and server 2 is elected for the term 3 and beats.  Server 3, which has
    heard of server 2, answers the old heartbeat with its own term; server 1 gets that
    answer and goes on with its round, now with the term 3.  None of the handlers
    needs the mutex of the scheduler, which the executor holds during its round. *)
Definition late_beat : list (Z * Action) :=
  start_all [1; 2; 3] ++ campaign_of 1 1 [3] ++ [(1, Fire SendHeartbeats); (1, Beat); (2, Deliver (RequestVoteReq 1 1))] ++
  campaign_of 2 2 [3] ++ beats 2 2 ++
  [(3, Deliver (AppendEntriesReq 2 3)); (3, Deliver (AppendEntriesReq 1 2)); (1, Deliver (AppendEntriesRes 3 3)); (1, Beat)].

Lemma late_beat_execution :
  exists earlier (c : concrete), execution (group [1; 2; 3]) defaults new_scheduler earlier c /\
    length earlier = length late_beat /\ leads c 2 3 /\ role_ <$> servers c !! 1 = Some follower /\
    (1, AppendEntriesReq 2 3) ∈ sent c /\ exists to, (to, AppendEntriesReq 1 3) ∈ sent c.
Proof.
  assert (exists c : concrete, run_group [1; 2; 3] late_beat = Some (Ok c) /\ (2, 3) ∈ leaders c /\
    role_ <$> servers c !! 1 = Some follower /\
    (1, AppendEntriesReq 2 3) ∈ sent c /\ Exists (fun m => m.2 = AppendEntriesReq 1 3) (sent c))
    as (c & Hrun & Hl & Hr & Hs & ([to e] & Hs' & He)%Exists_exists).
  { eexists. split; [vm_compute; reflexivity|].
    split; [apply (bool_decide_unpack _); vm_compute; exact I|].
    split; [vm_compute; reflexivity|]. split; apply (bool_decide_unpack _); vm_compute; exact I. }
  destruct (act_all_execution (group [1; 2; 3]) defaults new_scheduler late_beat [] _ c
    (execution_start _ _ _)) as (earlier & Hex & Hlen).
  { apply (bool_decide_unpack _). vm_compute. exact I. }
  { exact Hrun. }
  exists earlier, c. split_and!; [exact Hex|exact Hlen|by apply leaders_spec|exact Hr|exact Hs|].
  exists to. cbn in He. by rewrite <- He.
Qed.

(** A heartbeat does not show who leads its term: the loop reads the term anew
    for every peer and without the mutex of the handlers, so that in an execution of
    three servers without restarts a deposed leader sends a heartbeat of the term of
    its successor, which sends heartbeats of that term too. *)
Theorem deposed_leader_sends_heartbeat :
  exists earlier (c : concrete), execution (group [1; 2; 3]) defaults new_scheduler earlier c /\
    leads c 2 3 /\ role_ <$> servers c !! 1 = Some follower /\
    exists to to', (to, AppendEntriesReq 2 3) ∈ sent c /\ (to', AppendEntriesReq 1 3) ∈ sent c.
Proof.
  destruct late_beat_execution as (earlier & c & Hex & _ & Hl & Hr & Hs & to & Hs').
  exists earlier, c. split_and!; [exact Hex|exact Hl|exact Hr|]. by exists 1, to.
Qed.

Lemma heartbeats_come_from_leaders_witness :
  exists (c c0 : concrete) to t0, (to, AppendEntriesReq 1 3) ∈ sent c /\ leads c0 1 t0 /\ t0 < 3.
Proof.
  destruct late_beat_execution as (earlier & c & Hex & Hlen & Hl & _ & _ & to & Hs).
  destruct (heartbeats_come_from_leaders (group [1; 2; 3]) defaults new_scheduler defaults_ok fresh_ok
    (group_inj _) earlier c to 1 3 Hex) as (later & now & before & round & s & t0 & _ & _ & _ & _ & _ & Hr & _ & Hother);
    [rewrite Hlen; vm_compute; reflexivity|exact Hs|].
  exists c, round, to, t0. split; [exact Hs|]. split; [exact Hr|].
  destruct (Hother c 2) as [Heq|Hlt]; [left|exact Hl|discriminate Heq|exact Hlt].
Defined.

End examples.
