(* ===== verification/Overlap.v ===== *)
(** * Public calls that overlap a handler

    [RaftFSM::block] and [RaftFSM::stay_follower] take no mutex, so that a thread of
    the user can come between two statements of a handler.  Cluster.v takes a public
    call as one action, for users who see to it that calls do not overlap handlers.
    Here the handlers and the two calls are programs that can be interrupted: a
    [Prog] reads the members and does pieces of Fsm.v, and a [System] is a group with
    the programs that its threads have begun.  Run without interruption a program is
    the method of Fsm.v ([programs_run_methods]); interrupted, the calls break what
    Cluster.v proves ([overlapping_calls_break_election_safety]). *)
From S2P Require Import Prelude Timers NetworkUtil Protocol Scheduler RaftActor Fsm.
From S2P Require Import ElectionSpec ElectionFacts FsmRefinement Cluster.
Local Open Scope Z_scope.

(** ** Programs *)

Section programs.
Context {T H Addr : Type} `{Env} `{!TimerOps T H FsmCallable}.

Local Abbreviation fsm := (RaftFSM T H).
Local Abbreviation M := (comp fsm (FsmEffect Addr)).

(** What a thread still has to do: other threads can come before every [Read] and
    every [Do]. *)
Inductive Prog :=
| Done
| Read (k : fsm -> Prog)
| Do (m : M unit) (k : Prog).

(** Without interruption. *)
Fixpoint run (p : Prog) : M unit :=
  match p with
  | Done => mret tt
  | Read k => s ← get_state; run (k s)
  | Do m k => m ;; run k
  end.

Context (actor : RaftActorOptions Addr) (options : RaftFSMOptions).
Implicit Types (event : RaftEvent).

(** [if (b) m;] and what comes after it. *)
Definition DoWhen (b : bool) (m : M unit) (k : Prog) : Prog := if b then Do m k else k.

(** The vote is counted in two steps, after the role was looked at. *)
Definition vote_response_prog event (vote_granted : bool) : Prog :=
  Read (fun s =>
    if negb (is_stale event s) && bool_decide (role_ s = candidate) && vote_granted then
      Do (modify (fun s => set_voted_peers ({[get_server_id event]} ∪ voted_peers_ s) s))
        (Read (fun s =>
          DoWhen (bool_decide (majority actor <= size (voted_peers_ s))%nat) (convert_to_leader options) Done))
    else Done).

Definition event_prog event : Prog :=
  match event with
  | RequestVoteReq _ _ => Do (handle_request_vote actor event) Done
  | RequestVoteRes _ _ vote_granted => vote_response_prog event vote_granted
  | AppendEntriesReq _ _ => Do (handle_append_entries actor options event) Done
  | AppendEntriesRes _ _ => Do (handle_append_entries_response event) Done
  | ElectionTimeoutEvent => Do (handle_election_timeout actor options) Done
  end.

(** [handle]: the flag is looked at before the mutex is taken. *)
Definition handle_prog event : Prog :=
  Read (fun s =>
    if blocked_ s then Done
    else Read (fun s =>
      if term_ s <? get_term event then
        Do (modify (set_term (get_term event))) (Do (convert_to_follower options) (event_prog event))
      else event_prog event)).

Definition stay_follower_prog : Prog := Do (convert_to_follower options) (Do pause_scheduled_tasks Done).

Definition block_prog : Prog :=
  Do (convert_to_follower options) (Do pause_scheduled_tasks (Do (modify (set_blocked true)) Done)).

(** *** A program that nobody interrupts *)

(** Two computations that run alike. *)
Definition alike (m m' : M unit) : Prop := forall s, m s = m' s.

#[local] Instance alike_equiv : Equivalence alike.
Proof. split; [by intros m s|by intros m m' Hm s|intros m1 m2 m3 H1 H2 s; by rewrite H1]. Qed.

Lemma alike_get (f g : fsm -> M unit) : (forall s, alike (f s) (g s)) -> alike (get_state ≫= f) (get_state ≫= g).
Proof. intros Hfg s. rewrite !run_get. apply Hfg. Qed.

Lemma alike_seq (m : M unit) (f g : M unit) : alike f g -> alike (m ;; f) (m ;; g).
Proof.
  intros Hfg s. unfold mbind, comp_bind. destruct (m s) as [[es s'] [u|e]]; [|done]. by rewrite Hfg.
Qed.

Lemma alike_ret (m : M unit) : alike (m ;; mret tt) m.
Proof.
  intros s. unfold mbind, comp_bind. destruct (m s) as [[es s'] [[]|e]]; [|done]. cbn. by rewrite app_nil_r.
Qed.

Lemma alike_assoc (m1 m2 m3 : M unit) : alike ((m1 ;; m2) ;; m3) (m1 ;; (m2 ;; m3)).
Proof. intros s. apply run_bind_bind. Qed.

Lemma run_DoWhen b m : alike (run (DoWhen b m Done)) (when b m).
Proof. destruct b; cbn; [apply alike_ret|done]. Qed.

Lemma run_event event : alike (run (event_prog event))
  match event with
  | RequestVoteReq _ _ => handle_request_vote actor event
  | RequestVoteRes _ _ vote_granted => handle_request_vote_response actor options event vote_granted
  | AppendEntriesReq _ _ => handle_append_entries actor options event
  | AppendEntriesRes _ _ => handle_append_entries_response event
  | ElectionTimeoutEvent => handle_election_timeout actor options
  end.
Proof.
  destruct event; cbn [event_prog run]; try apply alike_ret.
  unfold vote_response_prog, handle_request_vote_response. cbn [run]. apply alike_get. intros s.
  destruct (_ && _ && _); [|done]. cbn [when run]. apply alike_seq, alike_get. intros s1. apply run_DoWhen.
Qed.

(** The programs are the methods of Fsm.v: whoever runs one of them without
    interruption runs the method, in every state and with every outcome. *)
Theorem programs_run_methods :
  (forall event, alike (run (handle_prog event)) (handle actor options event)) /\
  alike (run stay_follower_prog) (stay_follower options) /\ alike (run block_prog) (block options).
Proof.
  split; [|split].
  - intros event. unfold handle_prog, handle. cbn [run]. apply alike_get. intros s.
    destruct (blocked_ s); [done|]. unfold handle_locked. cbn [run]. apply alike_get. intros s1.
    destruct (_ <? _); cbn [run when].
    + etransitivity; [|symmetry; apply alike_assoc]. apply alike_seq, alike_seq, run_event.
    + intros s2. rewrite run_ret. apply run_event.
  - unfold stay_follower_prog. cbn [run]. apply alike_seq, alike_ret.
  - unfold block_prog. cbn [run]. unfold block, block_with, stay_follower_with.
    etransitivity; [|symmetry; apply alike_assoc]. apply alike_seq, alike_seq, alike_ret.
Qed.

End programs.
Arguments Prog T H Addr : clear implicits.

(** ** Groups of interrupted programs *)

Section system.
Context {T H Addr : Type} `{!EqDecision Addr} `{HE : Env} `{HS : !TimerOps T H FsmCallable}.
Context `{!TimerService T H FsmCallable}.
Context (peers : gmap Z Addr) (options : Z -> RaftFSMOptions) (fresh : T).

Local Abbreviation cluster := (Cluster T H Addr).
Local Abbreviation Prog := (Prog T H Addr).

(** A thread in a method of server [at_]; [locks]: it holds [handler_mtx_]. *)
Record Running := mkRunning { at_ : Z; locks : bool; rest_ : Prog }.

Record System := mkSystem { group_ : cluster; running : gmap nat Running }.

(** [Alone]: an action of Cluster.v that nobody interrupts.  [HandleBegins] and
    [CallBegins]: a new thread [n] is about to run a method.  [Continue]: thread [n]
    takes its next step. *)
Inductive Move :=
| Alone (i : Z) (a : Action)
| HandleBegins (n : nat) (i : Z) (event : RaftEvent)
| CallBegins (n : nat) (i : Z) (call : ApiCall)
| Continue (n : nat).

(** Whether [handler_mtx_] of server [i] is free. *)
Definition mutex_free i (x : System) : bool :=
  forallb (fun r => negb (locks r.2 && (at_ r.2 =? i))) (map_to_list (running x)).

Definition takes_mutex (a : Action) : bool := match a with Deliver _ | Expire => true | _ => false end.

Definition call_prog i (call : ApiCall) : option Prog :=
  match call with
  | CallStayFollower => Some (stay_follower_prog (options i))
  | CallBlock => Some (block_prog (options i))
  | CallUnblock | CallStop => None
  end.

Definition begin n (r : Running) (x : System) : option System :=
  match running x !! n with
  | Some _ => None
  | None => Some (mkSystem (group_ x) (<[n := r]> (running x)))
  end.

(** The thread goes on with [k], or has returned. *)
Definition goes_on n (r : Running) (k : Prog) (c : cluster) (x : System) : System :=
  mkSystem c (match k with Done => delete n (running x) | _ => <[n := mkRunning (at_ r) (locks r) k]> (running x) end).

Definition move (m : Move) (x : System) : option System :=
  match m with
  | Alone i a =>
      if implb (takes_mutex a) (mutex_free i x) then
        r ← act peers options fresh i a (group_ x);
        match r with Ok c => Some (mkSystem c (running x)) | Err _ => None end
      else None
  | HandleBegins n i event =>
      s ← servers (group_ x) !! i;
      if enabled peers i (Deliver event) s (group_ x) && mutex_free i x
      then begin n (mkRunning i true (handle_prog (actor_of peers i) (options i) event)) x else None
  | CallBegins n i call => p ← call_prog i call; begin n (mkRunning i false p) x
  | Continue n =>
      r ← running x !! n; s ← servers (group_ x) !! at_ r;
      match rest_ r with
      | Done => None
      | Read k => Some (goes_on n r (k s) (group_ x) x)
      | Do m k =>
          let '(es, s', res) := m s in
          match res with
          | Ok _ =>
              let c := group_ x in
              Some (goes_on n r k (mkCluster (<[at_ r := s']> (servers c)) (threads c) (sends es ++ sent c)) x)
          | Err _ => None
          end
      end
  end.

Fixpoint move_all (ms : list Move) (x : System) : option System :=
  match ms with
  | [] => Some x
  | m :: ms => x ← move m x; move_all ms x
  end.

Definition begun : System := mkSystem (initial peers fresh) ∅.

End system.
Arguments System T H Addr : clear implicits.
Arguments mkSystem {T H Addr} _ _.
Arguments group_ {T H Addr} _.

(** ** A call in the middle of a handler *)

Section examples.
#[local] Existing Instance example_env.
#[local] Existing Instance example_env_ok.

Definition alone (actions : list (Z * Action)) : list Move := (fun ia => Alone ia.1 ia.2) <$> actions.

(** Server 1 of five asks for votes and server 2 grants its own.  The handler of the
    answer has seen a candidate when a thread of the user runs [stay_follower] from
    beginning to end, which clears the votes; then the handler adds the vote. *)
Definition stale_vote : list Move :=
  alone (start_all [1; 2; 3; 4; 5] ++ [(1, Fire FireElectionTimeout); (1, Expire); (2, Deliver (RequestVoteReq 1 1))]) ++
  [HandleBegins 0 1 (RequestVoteRes 2 1 true); Continue 0; Continue 0; Continue 0;
   CallBegins 1 1 CallStayFollower; Continue 1; Continue 1; Continue 0; Continue 0].

(** The user starts the server again, which stands for election with that vote, wins
    with two of five votes of the term, and another server wins with three. *)
Definition two_quorums : list Move :=
  stale_vote ++ alone ([(1, CallStart)] ++ campaign_of 1 2 [3] ++
    [(4, Fire FireElectionTimeout); (4, Expire)] ++ campaign_of 4 2 [5; 2]).

Definition run_system (ids : list Z) (ms : list Move) : option (System (Scheduler FsmCallable) ScheduledTask Z) :=
  move_all (group ids) defaults new_scheduler ms (begun (group ids) new_scheduler).

Example stale_vote_is_kept :
  (fun x => (fun s => (role_ s, elements (voted_peers_ s))) <$> servers (group_ x) !! 1) <$>
    run_system [1; 2; 3; 4; 5] stale_vote = Some (Some (follower, [2])).
Proof. by vm_compute. Qed.

(** C29. Public calls that overlap a handler break election safety.  In a run of five
    servers with the default options, without restarts and with all messages
    delivered at most once, a call of [stay_follower] comes between the test of the
    role and the insertion of the vote in the handler of an answer: the vote outlives
    its election, and after the next [start] two servers lead the same term. *)
Theorem overlapping_calls_break_election_safety : exists x,
  run_system [1; 2; 3; 4; 5] two_quorums = Some x /\ leads (group_ x) 1 3 /\ leads (group_ x) 4 3.
Proof.
  eexists. split; [vm_compute; reflexivity|].
  split; apply leaders_spec, (bool_decide_unpack _); vm_compute; exact I.
Qed.

End examples.
