(* ===== verification/Liveness.v ===== *)
(** * Elections can succeed

    Safety alone is satisfied by a group that never elects anybody.  Here the
    converse: from every reachable state in which a server that can stand for
    election reaches enough others, a schedule of its timeout, the vote requests
    and the answers makes it leader. *)
From S2P Require Import Prelude Timers NetworkUtil Protocol Scheduler RaftActor Fsm.
From S2P Require Import ElectionSpec ElectionFacts FsmRefinement Cluster.
Local Open Scope Z_scope.

(** ** The rules of a campaign *)

Section rules.
Context {Addr : Type} `{HE : Env, !EnvOk HE}.
Context (actor : RaftActorOptions Addr) (options : RaftFSMOptions).
Implicit Types (n : Node).

(** A server that is behind the candidate votes for it. *)
Lemma behind_grants i t n to :
  node_ok n -> n_blocked n = false -> n_term n < t -> get_peer actor i = Some to ->
  Send to (RequestVoteRes (self actor) t true)
    ∈ (handle_rule actor options (RequestVoteReq i t) n).1.
Proof.
  intros Hok Hb Hlt Hto. unfold handle_rule. rewrite Hb, then_fst. apply elem_of_app. right.
  destruct (catch_up_cases (Addr := Addr) options (RequestVoteReq i t) n Hok)
    as [[Hle _]|(_ & _ & _ & _ & Ht & Hv)]; [simpl in Hle; lia|].
  set (m := (catch_up options (RequestVoteReq i t) n).2) in *. cbn [on_event get_term] in *.
  unfold on_request_vote, stale. cbn [get_term]. rewrite Ht, Z.ltb_irrefl.
  assert ((vote_for_leader (RequestVoteReq i t) (n_voter m)).1 = true) as Hg.
  { apply vote_for_leader_iff. left. rewrite Hv. pose proof (ok_voter n Hok). simpl. lia. }
  destruct (vote_for_leader _ _) as [granted v]. simpl in Hg. subst granted.
  unfold reply. cbn [get_server_id]. rewrite Hto. left.
Qed.

Lemma catch_up_same event n :
  get_term event <= n_term n -> catch_up (Addr := Addr) options event n = ([], n).
Proof. intros Hle. unfold catch_up. by rewrite (proj2 (Z.ltb_ge _ _)) by done. Qed.

(** The candidate of the term [t] that has asked for votes. *)
Record standing (t : Z) n : Prop := {
  standing_started : started n;
  standing_open : n_blocked n = false;
  standing_role : n_role n = candidate;
  standing_term : n_term n = t;
}.

(** The timeout of a server that does not lead starts the campaign. *)
Lemma timeout_stands n :
  node_ok n -> n_blocked n = false -> n_role n <> leader -> n_term n < uint64_max ->
  let o := handle_rule actor options ElectionTimeoutEvent n in
  standing (n_term n + 1) o.2 /\ self actor ∈ n_votes o.2 /\
  forall id to, id <> self actor -> get_peer actor id = Some to ->
    Send to (RequestVoteReq (self actor) (n_term n + 1)) ∈ o.1.
Proof.
  intros Hok Hb Hr Hlt. pose proof (ok_term n Hok) as [Hpos _].
  unfold handle_rule. rewrite Hb, catch_up_same by done. rewrite then_nil. cbn [on_event].
  assert (on_election_timeout actor n = candidacy actor n) as ->.
  { unfold on_election_timeout. by destruct (n_role n). }
  unfold candidacy. rewrite u64_succ by lia.
  assert ((vote_for_leader (RequestVoteReq (self actor) (n_term n + 1)) (n_voter n)).1 = true) as Hg.
  { apply vote_for_leader_iff. left. pose proof (ok_voter n Hok). simpl. lia. }
  destruct (vote_for_leader _ _) as [voted v]. simpl in Hg. subst voted. cbv zeta. cbn [fst snd n_votes].
  split; [by split|]. split; [set_solver|].
  intros id to Hne Hto. unfold broadcast. apply list_elem_of_fmap. exists to. split; [done|].
  apply elem_of_get_peers. by exists id.
Qed.

(** A callback that does not give the leadership up at once. *)
Definition keeps_leading : Prop :=
  forall fn seen, on_become_leader options = Some fn -> (CallStayFollower ∉ fn seen) /\ (CallBlock ∉ fn seen).

Lemma calls_keep_leading calls n :
  CallStayFollower ∉ calls -> CallBlock ∉ calls -> n_blocked n = false ->
  let m := (each (full_call (Addr := Addr) options) calls n).2 in
  n_role m = n_role n /\ n_term m = n_term n /\ n_blocked m = false.
Proof.
  revert n. induction calls as [|call calls IH]; intros n Hstay Hblock Hb; [done|].
  apply not_elem_of_cons in Hstay as [Hs Hstay]. apply not_elem_of_cons in Hblock as [Hk Hblock].
  cbn [each]. cbv zeta. rewrite then_snd. destruct call; [done|done|by apply (IH (node_block false n))|by apply (IH n)].
Qed.

Lemma become_leader_leads n :
  keeps_leading -> n_blocked n = false ->
  let m := (become_leader (Addr := Addr) options n).2 in
  n_role m = leader /\ n_term m = u64 (n_term n + 1) /\ n_blocked m = false.
Proof.
  intros Hkeep Hb. unfold become_leader. set (n' := mkNode _ _ _ _ _ _ _).
  destruct (on_become_leader options) as [fn|] eqn:Hfn; [|done]. cbv zeta. rewrite then_snd.
  destruct (Hkeep fn (observe_node n') Hfn). by apply (calls_keep_leading _ n').
Qed.

(** A granted vote is counted, and the last one that is needed makes the leader. *)
Lemma vote_counts v t n :
  standing t n -> 0 <= t < uint64_max -> keeps_leading ->
  let o := handle_rule actor options (RequestVoteRes v t true) n in
  started o.2 /\ n_blocked o.2 = false /\
  (n_role o.2 = leader /\ n_term o.2 = t + 1 \/
   standing t o.2 /\ n_votes o.2 = {[v]} ∪ n_votes n /\ (size (n_votes o.2) < majority actor)%nat).
Proof.
  intros [Hst Hb Hr Ht] Hrange Hkeep.
  pose proof (handle_rule_started actor options (RequestVoteRes v t true) n Hst) as Hst'.
  unfold handle_rule in *. rewrite Hb in *. rewrite catch_up_same in * by (simpl; lia).
  rewrite then_nil in *. cbn [on_event] in *. unfold on_vote_response, stale in *. cbn [get_term get_server_id] in *.
  rewrite Ht, Z.ltb_irrefl, bool_decide_eq_true_2 in * by done. cbn [negb andb] in *.
  destruct (bool_decide_reflect (majority actor <= size (n_votes (node_votes ({[v]} ∪ n_votes n) n)))%nat)
    as [Hmaj|Hmaj].
  - destruct (become_leader_leads (node_votes ({[v]} ∪ n_votes n) n) Hkeep Hb) as (Hl & Hterm & Hopen).
    cbv zeta. split_and!; [done..|left]. split; [done|]. rewrite Hterm. cbn. by rewrite Ht, u64_succ by lia.
  - cbv zeta. cbn [snd] in *. split_and!; [done..|right]. split_and!; [by split|done|lia].
Qed.

(** A leader is not disturbed by the answers that come late. *)
Lemma late_vote_ignored v t n :
  n_blocked n = false -> t < n_term n ->
  handle_rule actor options (RequestVoteRes v t true) n = ([], n).
Proof.
  intros Hb Hlt. unfold handle_rule. rewrite Hb, catch_up_same by (simpl; lia).
  rewrite then_nil. cbn [on_event]. unfold on_vote_response, stale. cbn [get_term].
  by rewrite (proj2 (Z.ltb_lt _ _)) by done.
Qed.

End rules.

(** ** The campaign in a group *)

Section group.
Context {T H Addr : Type} `{!EqDecision Addr} `{HE : Env} `{HS : !TimerOps T H FsmCallable}.
Context `{!TimerService T H FsmCallable}.
Context (peers : gmap Z Addr) (options : Z -> RaftFSMOptions) (fresh : T).
Context `{!EnvOk HE}.
Context (Hopt : forall i, options_ok (options i)) (Hfresh : ts_wf fresh).
Context (Hinj : forall i j to, peers !! i = Some to -> peers !! j = Some to -> i = j).

Local Abbreviation fsm := (RaftFSM T H).
Local Abbreviation cluster := (Cluster T H Addr).
Local Abbreviation inv := (inv peers).
Local Abbreviation act := (act peers options fresh).
Local Abbreviation act_all := (act_all peers options fresh).
Implicit Types (c : cluster) (i : Z) (s : fsm).

Lemma server_peer earlier c i s : inv earlier c -> servers c !! i = Some s -> is_Some (peers !! i).
Proof.
  intros Hinv Hs. apply elem_of_dom. rewrite <- (inv_dom _ _ _ Hinv c) by left.
  by apply elem_of_dom_2 in Hs.
Qed.

(** The state after an action that handles an event by its rule. *)
Lemma act_handles earlier c i s a event :
  inv earlier c -> Z.of_nat (length earlier) < uint64_max ->
  servers c !! i = Some s -> enabled peers i a s c = true -> a <> Restart ->
  trigger_of a = Some event -> started (view s) ->
  perform peers options fresh i (threads_of c i) a = handle (actor_of peers i) (options i) event ->
  exists s', let o := handle_rule (actor_of peers i) (options i) event (view s) in
    act i a c = Some (Ok (group_after peers i a s' o.1 c)) /\ view s' = o.2 /\
    inv (c :: earlier) (group_after peers i a s' o.1 c).
Proof.
  intros Hinv Hb Hs Hen Ha Htr Hst Hperf.
  pose proof (inv_trigger _ _ _ _ _ _ Hinv Hen) as Hok. rewrite Htr in Hok. simpl in Hok.
  assert (answerable (actor_of peers i) event) as Hans.
  { destruct Hok as [[_ Hp]| ->]; [|done]. by destruct event. }
  destruct (handled (actor_of peers i) (options i) (Hopt i) event s) as (s' & Hrun & Hv & _);
    [apply (inv_server _ _ _ Hinv i s Hs)|done|done|].
  exists s'. cbv zeta.
  assert (act i a c = Some (Ok (group_after peers i a s'
    (handle_rule (actor_of peers i) (options i) event (view s)).1 c))) as Hact.
  { unfold Cluster.act. rewrite Hs. cbn [mbind option_bind]. rewrite Hen, Hperf, Hrun. done. }
  split_and!; [done|done|].
  destruct (act_stepped peers options fresh Hopt earlier c i a _ Hinv Hb Ha Hact) as (s1 & o & s1' & Hstep).
  by apply (step_inv peers options fresh Hinj earlier c i a s1 o s1').
Qed.

Lemma deliver_handles earlier c i s to event :
  inv earlier c -> Z.of_nat (length earlier) < uint64_max ->
  servers c !! i = Some s -> peers !! i = Some to -> (to, event) ∈ sent c -> started (view s) ->
  exists s', let o := handle_rule (actor_of peers i) (options i) event (view s) in
    act i (Deliver event) c = Some (Ok (group_after peers i (Deliver event) s' o.1 c)) /\ view s' = o.2 /\
    inv (c :: earlier) (group_after peers i (Deliver event) s' o.1 c).
Proof.
  intros Hinv Hb Hs Hto Hin Hst. apply act_handles; [done..| |done|done|done|done].
  simpl. by rewrite Hto, !bool_decide_eq_true_2.
Qed.

Lemma act_all_app actions actions' c c1 :
  act_all actions c = Some (Ok c1) -> act_all (actions ++ actions') c = act_all actions' c1.
Proof.
  revert c. induction actions as [|[i a] actions IH]; intros c; [by intros [= ->]|].
  simpl. destruct (act i a c) as [[c2|]|]; [apply IH|done..].
Qed.

(** A step of the executor that leaves the state machine as it is. *)
Lemma idle_step earlier c i s a es :
  inv earlier c -> Z.of_nat (length earlier) < uint64_max -> servers c !! i = Some s ->
  enabled peers i a s c = true -> a <> Restart ->
  perform peers options fresh i (threads_of c i) a s = (es, s, Ok tt) ->
  exists c', act i a c = Some (Ok c') /\ inv (c :: earlier) c' /\ servers c' = servers c /\
    threads_of c' i = advance peers i a (threads_of c i).
Proof.
  intros Hinv Hb Hs Hen Ha Hperf. exists (group_after peers i a s es c).
  assert (act i a c = Some (Ok (group_after peers i a s es c))) as Hact.
  { unfold Cluster.act. rewrite Hs. cbn [mbind option_bind]. rewrite Hen, Hperf. done. }
  split_and!; [done| |by apply insert_id|by unfold threads_of at 1; cbn; rewrite lookup_insert_eq].
  destruct (act_stepped peers options fresh Hopt earlier c i a _ Hinv Hb Ha Hact) as (s1 & o & s1' & Hstep).
  by apply (step_inv peers options fresh Hinj earlier c i a s1 o s1').
Qed.

(** What the executor does before it is about to handle a timeout: the loop that
    runs goes on to its end. *)
Definition timing_out i (th : Threads Addr) : list (Z * Action) :=
  match executor th with
  | Idle => [(i, Fire FireElectionTimeout)]
  | Expired => []
  | Beating rest => replicate (length rest) (i, Beat) ++ [(i, Fire FireElectionTimeout)]
  end.

Lemma loop_ends earlier c i s rest :
  inv earlier c -> Z.of_nat (length earlier + length rest) < uint64_max -> servers c !! i = Some s ->
  executor (threads_of c i) = beating rest ->
  exists earlier' c', act_all (replicate (length rest) (i, Beat)) c = Some (Ok c') /\ inv earlier' c' /\
    length earlier' = (length earlier + length rest)%nat /\
    servers c' = servers c /\ executor (threads_of c' i) = Idle.
Proof.
  revert earlier c. induction rest as [|peer rest IH]; intros earlier c Hinv Hb Hs He.
  { exists earlier, c. split_and!; [done|done|simpl; lia|done|done]. }
  cbn [length] in Hb. cbn [beating] in He.
  destruct (idle_step earlier c i s Beat [Send peer (AppendEntriesReq (self (actor_of peers i)) (term_ s))])
    as (c1 & Hact & Hinv1 & Hs1 & Hth1); [done|lia|done|by cbn; rewrite He|done|by cbn; rewrite He|].
  destruct (IH (c :: earlier) c1) as (earlier' & c' & Hall & Hinv' & Hlen & Hs' & He');
    [done|cbn [length]; lia|by rewrite Hs1|by rewrite Hth1; cbn [advance]; rewrite He|].
  exists earlier', c'. cbn [length replicate Cluster.act_all]. rewrite Hact. cbn [mbind option_bind].
  split_and!; [done|done|cbn [length] in Hlen; lia|congruence|done].
Qed.

Lemma fire_expires earlier c i s :
  inv earlier c -> Z.of_nat (length earlier) < uint64_max -> servers c !! i = Some s ->
  timer_of s FireElectionTimeout = Running -> executor (threads_of c i) = Idle ->
  exists c', act i (Fire FireElectionTimeout) c = Some (Ok c') /\ inv (c :: earlier) c' /\
    servers c' = servers c /\ executor (threads_of c' i) = Expired.
Proof.
  intros Hinv Hb Hs Htimer He.
  destruct (idle_step earlier c i s (Fire FireElectionTimeout) []) as (c' & ? & ? & ? & Hth);
    [done|done|done|by cbn; rewrite He; apply bool_decide_eq_true_2|done|done|].
  exists c'. by rewrite Hth.
Qed.

Lemma timing_out_expires earlier c i s :
  inv earlier c -> Z.of_nat (length earlier + length (timing_out i (threads_of c i))) < uint64_max ->
  servers c !! i = Some s -> timer_of s FireElectionTimeout = Running ->
  exists earlier' c', act_all (timing_out i (threads_of c i)) c = Some (Ok c') /\ inv earlier' c' /\
    length earlier' = (length earlier + length (timing_out i (threads_of c i)))%nat /\
    servers c' = servers c /\ executor (threads_of c' i) = Expired.
Proof.
  intros Hinv Hb Hs Htimer. unfold timing_out in *.
  destruct (executor (threads_of c i)) as [| |rest] eqn:He.
  - destruct (fire_expires earlier c i s) as (c' & Hact & Hrest); [done|cbn in Hb; lia|done..|].
    exists (c :: earlier), c'. cbn [Cluster.act_all]. rewrite Hact. split; [done|].
    destruct Hrest as (? & ? & ?). split_and!; [done|simpl; lia|done|done].
  - exists earlier, c. split_and!; [done|done|simpl; lia|done|done].
  - rewrite length_app, length_replicate in *. cbn [length] in *.
    assert (rest <> []) as Hne by apply (inv_round _ _ _ Hinv i s Hs rest He).
    destruct (loop_ends earlier c i s rest) as (e1 & c1 & Hall & Hinv1 & Hlen & Hs1 & He1);
      [done|lia|done|by rewrite He; destruct rest|].
    destruct (fire_expires e1 c1 i s) as (c' & Hact & Hinv' & Hs' & He'); [done|lia|by rewrite Hs1|done|done|].
    exists (c1 :: e1), c'. rewrite (act_all_app _ _ _ _ Hall). cbn [Cluster.act_all]. rewrite Hact.
    split_and!; [done|done|cbn [length]; lia|congruence|done].
Qed.

Lemma elem_of_sends_2 to e (es : list (FsmEffect Addr)) : Send to e ∈ es -> (to, e) ∈ sends es.
Proof. intros He. apply list_elem_of_omap. by exists (Send to e). Qed.

(** A server that can be won: it runs and is behind the term [t]. *)
Definition behind (t : Z) c (v : Z) : Prop :=
  exists s, servers c !! v = Some s /\ started (view s) /\ blocked_ s = false /\ term_ s < t.

Lemma voters_answer i t to l earlier c :
  inv earlier c -> Z.of_nat (length earlier + length l) < uint64_max ->
  peers !! i = Some to -> NoDup l -> i ∉ l -> Forall (behind t c) l ->
  (forall v tv, v ∈ l -> peers !! v = Some tv -> (tv, RequestVoteReq i t) ∈ sent c) ->
  exists earlier' c',
    act_all ((fun v => (v, Deliver (RequestVoteReq i t))) <$> l) c = Some (Ok c') /\
    inv earlier' c' /\ length earlier' = (length earlier + length l)%nat /\
    servers c' !! i = servers c !! i /\ sent c ⊆ sent c' /\
    forall v, v ∈ l -> (to, RequestVoteRes v t true) ∈ sent c'.
Proof.
  intros Hinv Hb Hto. revert earlier c Hinv Hb.
  induction l as [|v l IH]; intros earlier c Hinv Hb Hnd Hi Hbehind Hreq.
  { exists earlier, c. split_and!; [done|done|simpl; lia|done|done|by intros v ?%elem_of_nil]. }
  cbn [length] in Hb. apply NoDup_cons in Hnd as [Hv Hnd]. apply not_elem_of_cons in Hi as [Hne Hi].
  apply Forall_cons in Hbehind as [(s & Hs & Hst & Hopen & Hlt) Hbehind].
  destruct (server_peer _ _ _ _ Hinv Hs) as [tv Htv].
  destruct (deliver_handles earlier c v s tv (RequestVoteReq i t)) as (s' & Hact & _ & Hinv');
    [done|lia|done|done|apply (Hreq v tv); [left|done]|done|].
  pose proof (behind_grants (actor_of peers v) (options v) i t (view s) to
    (so_node _ _ (inv_server _ _ _ Hinv v s Hs)) Hopen Hlt Hto) as Hgrant.
  set (o := handle_rule _ _ _ _) in *. set (c1 := group_after _ _ _ _ _ _) in *.
  destruct (IH (c :: earlier) c1) as (earlier' & c' & Hall & Hinv2 & Hlen & Hsame & Hsub & Hres);
    [done|cbn [length]; lia|done|done| | |].
  - apply Forall_forall. intros w Hw. rewrite Forall_forall in Hbehind.
    destruct (Hbehind w Hw) as (sw & Hsw & ?). exists sw. split; [|done]. cbn [c1 group_after servers].
    rewrite lookup_insert_ne; [done|]. by intros ->.
  - intros w tw Hw Htw. cbn [c1 group_after sent]. apply elem_of_app. right. apply (Hreq w tw); [by right|done].
  - exists earlier', c'. cbn [fmap list_fmap Cluster.act_all]. rewrite Hact. cbn [mbind option_bind].
    assert (sent c ⊆ sent c1) as Hsub1 by (intros x Hx; apply elem_of_app; by right).
    split_and!; [done|done|cbn [length] in *; lia| |by etransitivity|].
    + rewrite Hsame. cbn [c1 group_after servers]. by rewrite lookup_insert_ne.
    + intros w [->|Hw]%elem_of_cons; [|by apply Hres].
      apply Hsub. cbn [c1 group_after sent]. apply elem_of_app. left. by apply elem_of_sends_2.
Qed.

(** The server leads the term after [t], or still counts the votes [D]. *)
Definition counting i (t : Z) (D : gset Z) s : Prop :=
  started (view s) /\ blocked_ s = false /\
  (role_ s = leader /\ term_ s = t + 1 \/ standing t (view s) /\ D ⊆ voted_peers_ s).

Lemma vote_counted i t v D earlier c s to :
  inv earlier c -> Z.of_nat (length earlier) < uint64_max -> 0 <= t < uint64_max ->
  keeps_leading (options i) -> peers !! i = Some to ->
  (to, RequestVoteRes v t true) ∈ sent c -> servers c !! i = Some s -> counting i t D s ->
  exists s' c', act i (Deliver (RequestVoteRes v t true)) c = Some (Ok c') /\
    inv (c :: earlier) c' /\ servers c' !! i = Some s' /\ sent c ⊆ sent c' /\
    counting i t ({[v]} ∪ D) s' /\
    (role_ s' = leader \/ (size (voted_peers_ s') < majority (actor_of peers i))%nat).
Proof.
  intros Hinv Hb Ht Hkeep Hto Hin Hs (Hst & Hopen & Hcase).
  destruct (deliver_handles earlier c i s to (RequestVoteRes v t true)) as (s' & Hact & Hv & Hinv');
    [done..|].
  exists s'. eexists. split; [exact Hact|]. split; [exact Hinv'|]. cbn [group_after servers sent].
  split; [by rewrite lookup_insert_eq|]. split; [intros x Hx; apply elem_of_app; by right|].
  unfold counting. change (blocked_ s') with (n_blocked (view s')).
  change (role_ s') with (n_role (view s')). change (term_ s') with (n_term (view s')).
  change (voted_peers_ s') with (n_votes (view s')). rewrite Hv. clear Hact Hv Hinv'.
  destruct Hcase as [[Hl Hterm]|[Hstand HD]].
  - rewrite late_vote_ignored by (simpl; first [done|lia]). cbn [snd].
    split; [split_and!; [done..|by left]|by left].
  - destruct (vote_counts (actor_of peers i) (options i) v t (view s) Hstand Ht Hkeep)
      as (Hst' & Hopen' & [[Hl Ht']|(Hstand' & Hvotes & Hsmall)]).
    + split; [split_and!; [done..|by left]|by left].
    + split; [split_and!; [done..|]|by right]. right. split; [done|]. rewrite Hvotes.
      by apply union_mono_l.
Qed.

Lemma votes_counted i t to l D earlier c s :
  inv earlier c -> Z.of_nat (length earlier + length l) < uint64_max -> 0 <= t < uint64_max ->
  keeps_leading (options i) -> peers !! i = Some to -> l <> [] ->
  (forall v, v ∈ l -> (to, RequestVoteRes v t true) ∈ sent c) ->
  servers c !! i = Some s -> counting i t D s ->
  exists s' c', act_all ((fun v => (i, Deliver (RequestVoteRes v t true))) <$> l) c = Some (Ok c') /\
    servers c' !! i = Some s' /\ counting i t (list_to_set l ∪ D) s' /\
    (role_ s' = leader \/ (size (voted_peers_ s') < majority (actor_of peers i))%nat).
Proof.
  intros Hinv Hb Ht Hkeep Hto. revert D earlier c s Hinv Hb.
  induction l as [|v l IH]; intros D earlier c s Hinv Hb Hl Hin Hs Hc; [done|].
  cbn [length] in Hb.
  destruct (vote_counted i t v D earlier c s to) as (s1 & c1 & Hact & Hinv1 & Hs1 & Hsub & Hc1 & Hsmall);
    [done|lia|done|done|done|apply Hin; left|done|done|].
  cbn [fmap list_fmap Cluster.act_all]. rewrite Hact. cbn [mbind option_bind].
  destruct (decide (l = [])) as [->|Hne].
  - exists s1, c1. split_and!; [done|done| |done].
    replace (list_to_set [v] ∪ D) with ({[v]} ∪ D) by (rewrite list_to_set_cons, list_to_set_nil, union_empty_r_L; done). done.
  - destruct (IH ({[v]} ∪ D) (c :: earlier) c1 s1) as (s' & c' & ? & ? & Hc' & ?);
      [done|cbn [length]; lia|done| |done|done|].
    { intros w Hw. apply Hsub, Hin. by right. }
    exists s', c'. split_and!; [done|done| |done].
    by rewrite list_to_set_cons, (comm_L (∪) {[v]}), <- (assoc_L (∪)).
Qed.

(** ** A server without peers *)

Lemma lone_peers j : size peers = 1%nat -> is_Some (peers !! j) -> get_peers (actor_of peers j) = [].
Proof.
  intros Hone Hj. apply Permutation_nil_r. rewrite get_peers_perm.
  change (RaftActor.peers (actor_of peers j)) with peers. change (self (actor_of peers j)) with j.
  assert (delete j peers = ∅) as ->; [|by rewrite map_to_list_empty].
  apply map_size_empty_inv. rewrite map_size_delete_Some by done. by rewrite Hone.
Qed.

Lemma lone_timeout_silent (actor : RaftActorOptions Addr) opt n :
  get_peers actor = [] -> 0 <= n_term n -> (handle_rule actor opt ElectionTimeoutEvent n).1 = [].
Proof.
  intros Hkeep Hpos. unfold handle_rule. destruct (n_blocked n); [done|].
  rewrite catch_up_same, then_nil by done. cbn [on_event]. unfold on_election_timeout.
  assert ((candidacy actor n).1 = []) as Hc.
  { unfold candidacy, broadcast. rewrite Hkeep. by destruct (vote_for_leader _ _). }
  by destruct (n_role n).
Qed.

Lemma silent_sends (es : list (FsmEffect Addr)) : silent es -> sends es = [].
Proof.
  intros Hs. destruct (sends es) as [|[to e] l] eqn:He; [done|]. exfalso.
  apply (Hs to e), elem_of_sends. rewrite He. left.
Qed.

Lemma lone_step_silent earlier c j a c' :
  inv earlier c -> Z.of_nat (length earlier) < uint64_max -> size peers = 1%nat -> a <> Restart ->
  sent c = [] -> (forall event, a <> Deliver event) -> act j a c = Some (Ok c') -> sent c' = [].
Proof.
  intros Hinv Hb Hone Ha Hsent Hquiet Hact.
  destruct (act_stepped peers options fresh Hopt earlier c j a c' Hinv Hb Ha Hact) as (s & o & s' & Hst).
  pose proof (lone_peers j Hone (st_peer _ _ _ _ _ _ _ _ _ _ _ Hst)) as Hpeers.
  pose proof (st_server _ _ _ _ _ _ _ _ _ _ _ Hst) as Hs.
  pose proof (st_performed _ _ _ _ _ _ _ _ _ _ _ Hst) as Hpf.
  pose proof (st_enabled _ _ _ _ _ _ _ _ _ _ _ Hst) as Hen.
  destruct (decide (a = Expire)) as [->|Hnt].
  - cbn in Hen. destruct (executor (threads_of c j)) eqn:He; [done| |done].
    destruct (act_handles earlier c j s Expire ElectionTimeoutEvent)
      as (s1 & Hact1 & _ & _); [done..|by cbn; rewrite He|done|done| |done|].
    { apply (inv_threads _ _ _ Hinv j s Hs). by left. }
    rewrite Hact in Hact1. injection Hact1 as ->. cbn [group_after sent]. rewrite lone_timeout_silent, Hsent; [done..|].
    apply (ok_term _ (so_node _ _ (inv_server _ _ _ Hinv j s Hs))).
  - rewrite (st_next _ _ _ _ _ _ _ _ _ _ _ Hst). cbn [group_after sent]. rewrite Hsent, (right_id_L [] (++)).
    apply silent_sends. destruct (decide (a = Beat)) as [->|Hnh].
    + destruct (pf_beat _ _ _ _ _ _ _ _ Hpf eq_refl) as (peer & rest & He & _).
      destruct (inv_round _ _ _ Hinv j s Hs _ He) as (_ & Hsub & _). rewrite Hpeers in Hsub.
      assert (peer ∈ ([] : list Addr)) as []%elem_of_nil by (apply Hsub; left).
    + apply (pf_silent _ _ _ _ _ _ _ _ Hpf); [|done].
      destruct a as [event|[]| | | | | |]; [by destruct (Hquiet event)|done..].
Qed.

(** ** Properties *)

(** C9. Elections can succeed.  In a reachable state, a server that is not blocked,
    does not lead, has its election timer running and whose callback
    [on_become_leader], if it has one, does not give the leadership up by calling
    [stay_follower] or [block], becomes leader of the term after next once its
    executor has ended the callable it may be in and handles a timeout, the requests
    reach servers that are not ahead of it and make a majority together with it, and
    their answers reach it. *)
Theorem election_can_succeed earlier c i s voters :
  execution peers options fresh earlier c ->
  Z.of_nat (length earlier + length (timing_out i (threads_of c i)) + 1 + 2 * length voters) < uint64_max ->
  servers c !! i = Some s -> blocked_ s = false -> role_ s <> leader ->
  timer_of s FireElectionTimeout = Running -> keeps_leading (options i) ->
  NoDup voters -> i ∉ voters -> voters <> [] -> Forall (behind (term_ s + 1) c) voters ->
  (size peers / 2 <= length voters)%nat ->
  exists c', act_all (timing_out i (threads_of c i) ++ (i, Expire) :: poll i (term_ s + 1) voters) c = Some (Ok c') /\
    leads c' i (term_ s + 2).
Proof.
  intros Hex Hb Hs Hopen Hrole Htimer Hkeep Hnd Hi Hnil Hbehind Hmaj.
  assert (inv earlier c) as Hinv by (eapply execution_inv; [done..|lia]).
  destruct (server_peer _ _ _ _ Hinv Hs) as [to Hto].
  destruct (inv_server _ _ _ Hinv i s Hs) as [Hwf Hok Hbound _]. pose proof (ok_term _ Hok) as [Hpos _].
  simpl in Hpos. assert (started (view s)) as Hst by (unfold started; simpl in *; by rewrite Htimer).
  destruct (timing_out_expires earlier c i s) as (e0 & c0 & Hall0 & Hinv0 & Hlen0 & Hs0 & He0); [done|lia|done..|].
  destruct (timeout_stands (actor_of peers i) (options i) (view s)) as (Hstand & Hself & Hasks);
    [done|done|done|simpl; lia|].
  destruct (act_handles e0 c0 i s Expire ElectionTimeoutEvent)
    as (s1 & Hact & Hv & Hinv1); [done|lia|by rewrite Hs0|by cbn; rewrite He0|done|done|done|done|].
  set (o := handle_rule _ _ _ _) in *. set (c1 := group_after _ _ _ _ _ _) in *. cbn [n_term view] in *.
  destruct (voters_answer i (term_ s + 1) to voters (c0 :: e0) c1)
    as (e2 & c2 & Hall2 & Hinv2 & Hlen & Hsame & _ & Hanswers); [done|cbn [length]; lia|done|done|done| | |].
  { apply Forall_forall. intros v Hin. rewrite Forall_forall in Hbehind.
    destruct (Hbehind v Hin) as (sv & Hsv & Hrest). exists sv. split; [|done].
    cbn [c1 group_after servers]. rewrite lookup_insert_ne; [by rewrite Hs0|]. by intros ->. }
  { intros v tv Hin Htv. cbn [c1 group_after sent]. apply elem_of_app. left. apply elem_of_sends_2.
    apply (Hasks v tv); [|done]. by intros ->. }
  destruct (votes_counted i (term_ s + 1) to voters {[i]} e2 c2 s1)
    as (s' & c' & Hall3 & Hs' & (_ & _ & Hcase) & Hsmall); [done|cbn [length] in *; lia|lia|done|done|done|done| | |].
  { rewrite Hsame. cbn [c1 group_after servers]. by rewrite lookup_insert_eq. }
  { rewrite <- Hv in Hstand, Hself. destruct Hstand as [? ? ? ?]. split_and!; [done|done|right].
    split; [done|]. intros x ->%elem_of_singleton. exact Hself. }
  exists c'. split.
  - rewrite (act_all_app _ _ _ _ Hall0). cbn [Cluster.act_all]. rewrite Hact. cbn [mbind option_bind].
    unfold poll. by rewrite (act_all_app _ _ _ _ Hall2).
  - exists s'. split; [done|]. destruct Hcase as [[Hl Ht]|[[_ _ Hr _] HD]]; [split; [done|lia]|].
    exfalso. destruct Hsmall as [Hl|Hsmall]; [simpl in Hr; congruence|].
    apply subseteq_size in HD. rewrite size_union in HD by set_solver.
    rewrite size_singleton, size_list_to_set in HD by done. unfold majority in Hsmall.
    cbn [RaftActor.peers actor_of] in Hsmall. lia.
Qed.

(** A group of one server never has a leader: the votes are counted when an
    answer arrives, and nobody is there to answer. *)
Theorem lone_server_never_leads earlier c i t :
  execution peers options fresh earlier c -> Z.of_nat (length earlier) < uint64_max ->
  size peers = 1%nat -> ~ leads c i t.
Proof.
  intros Hex Hb Hone.
  enough (sent c = [] /\ forall s, servers c !! i = Some s -> role_ s <> leader) as [_ Hno].
  { intros (s & Hs & Hr & _). by apply (Hno s). }
  induction Hex as [|earlier c j a c' Hex IH Ha Hact].
  { split; [done|]. intros s Hs. by rewrite (initial_server _ _ _ _ Hs). }
  cbn [length] in Hb. destruct IH as [Hsent Hno]; [lia|].
  assert (inv earlier c) as Hinv by (eapply execution_inv; [done..|lia]).
  destruct (act_stepped peers options fresh Hopt earlier c j a c' Hinv) as (s & o & s' & Hst); [lia|done..|].
  assert (forall event, a <> Deliver event) as Hquiet.
  { intros event ->. pose proof (st_enabled _ _ _ _ _ _ _ _ _ _ _ Hst) as Hen. simpl in Hen.
    rewrite Hsent in Hen. apply andb_true_iff in Hen as [_ Hen]. destruct (peers !! j); [|done].
    by apply bool_decide_eq_true, elem_of_nil in Hen. }
  split.
  - apply (lone_step_silent earlier c j a c'); [done|lia|done..].
  - intros s0. rewrite (servers_after _ _ _ _ _ _ _ _ _ _ _ Hst). case_decide as Hj; [|apply Hno].
    intros [= <-]. subst j. change (role_ s') with (n_role (view s')).
    rewrite (st_view _ _ _ _ _ _ _ _ _ _ _ Hst). intros Hl.
    destruct (evo_leader _ _ _ _ (st_evolution _ _ _ _ _ _ _ _ _ _ _ Hst) Hl)
      as [[Hr _]|(v & _ & _ & Htr & _)].
    + by apply (Hno s); [apply (st_server _ _ _ _ _ _ _ _ _ _ _ Hst)|].
    + destruct a as [event|[]| | | | | |]; simpl in Htr; [by destruct (Hquiet event)|done..].
Qed.

End group.

(** ** Examples *)

Section examples.
#[local] Existing Instance example_env.
#[local] Existing Instance example_env_ok.

Lemma election_can_succeed_witness :
  exists c c' : Cluster (Scheduler FsmCallable) ScheduledTask Z,
    run_group [1; 2; 3] (start_all [1; 2; 3]) = Some (Ok c) /\
    act_all (group [1; 2; 3]) defaults new_scheduler (campaign_of 2 1 [3]) c = Some (Ok c') /\
    leads c' 2 2.
Proof.
  assert (exists (c : Cluster (Scheduler FsmCallable) ScheduledTask Z) s s3,
    run_group [1; 2; 3] (start_all [1; 2; 3]) = Some (Ok c) /\
    servers c !! 2 = Some s /\ servers c !! 3 = Some s3 /\ term_ s = 0 /\ blocked_ s = false /\
    role_ s = follower /\ timer_of s FireElectionTimeout = Running /\
    timer_of s3 FireElectionTimeout = Running /\ blocked_ s3 = false /\ term_ s3 = 0 /\
    threads_of c 2 = mkThreads Idle 0)
    as (c & s & s3 & Hrun & Hs & Hs3 & Ht & Hb & Hr & He & He3 & Hb3 & Ht3 & Hth).
  { do 3 eexists. split_and!; vm_compute; reflexivity. }
  destruct (act_all_execution (group [1; 2; 3]) defaults new_scheduler (start_all [1; 2; 3]) [] _ c
    (execution_start _ _ _)) as (earlier & Hex & Hlen).
  { apply (bool_decide_unpack _). vm_compute. exact I. }
  { exact Hrun. }
  destruct (election_can_succeed (group [1; 2; 3]) defaults new_scheduler defaults_ok fresh_ok
    (group_inj _) earlier c 2 s [3]) as (c' & Hc' & Hl).
  - exact Hex.
  - rewrite Hlen, Hth. simpl. lia.
  - exact Hs.
  - exact Hb.
  - rewrite Hr. discriminate.
  - exact He.
  - intros fn seen Hfn. discriminate Hfn.
  - apply (bool_decide_unpack _). vm_compute. exact I.
  - apply (bool_decide_unpack _). vm_compute. exact I.
  - discriminate.
  - apply Forall_cons. split; [|apply Forall_nil; exact I]. exists s3. split; [exact Hs3|].
    split; [|split; [exact Hb3|rewrite Ht, Ht3; lia]].
    unfold started. simpl in He3 |- *. rewrite He3. discriminate.
  - vm_compute. lia.
  - rewrite Hth, Ht in Hc'. rewrite Ht in Hl. exists c, c'. split; [exact Hrun|]. split; [exact Hc'|exact Hl].
Defined.

Lemma lone_server_never_leads_witness :
  exists c : Cluster (Scheduler FsmCallable) ScheduledTask Z,
    run_group [7] (start_all [7] ++ [(7, Fire FireElectionTimeout); (7, Expire)]) = Some (Ok c) /\
    forall t, ~ leads c 7 t.
Proof.
  assert (exists c, run_group [7] (start_all [7] ++ [(7, Fire FireElectionTimeout); (7, Expire)]) = Some (Ok c))
    as [c Hrun] by (eexists; vm_compute; reflexivity).
  destruct (act_all_execution (group [7]) defaults new_scheduler
    (start_all [7] ++ [(7, Fire FireElectionTimeout); (7, Expire)]) [] _ c (execution_start _ _ _)) as (earlier & Hex & Hlen).
  { apply (bool_decide_unpack _). vm_compute. exact I. }
  { exact Hrun. }
  exists c. split; [exact Hrun|]. intros t.
  apply (lone_server_never_leads (group [7]) defaults new_scheduler defaults_ok fresh_ok
    (group_inj _) earlier c 7 t Hex); [rewrite Hlen; simpl; lia|reflexivity].
Defined.

End examples.
