(* ===== verification/Stability.v ===== *)
(** * A leader stays leader

    Liveness.v shows that elections can succeed.  Here what comes after one: as long
    as nobody is ahead of the leader, no election timeout expires elsewhere, and the
    leader itself is not told to step down, no message, however late, and no
    callback disturbs it, and its heartbeats make followers of the others.
    Timing.v says when no election timeout expires: while heartbeats come in
    time. *)
From S2P Require Import Prelude Timers NetworkUtil Protocol Scheduler RaftActor Fsm.
From S2P Require Import ElectionSpec ElectionFacts FsmRefinement Cluster.
Local Open Scope Z_scope.

(** ** Rules *)

(** The server is not ahead of a leader of the term [t] and cannot get ahead of it
    by winning an election: a candidate that wins moves on to the next term. *)
Definition behind (t : Z) (n : Node) : Prop := n_term n <= t /\ (n_role n = candidate -> n_term n < t).

#[export] Instance behind_dec t n : Decision (behind t n).
Proof. unfold behind. apply _. Defined.

Section rules.
Context {Addr : Type} `{HE : Env, !EnvOk HE}.
Context (actor : RaftActorOptions Addr) (options : RaftFSMOptions).
Implicit Types (n : Node).

Lemma settled_behind t n m : settled n m -> behind t n -> behind t m.
Proof. intros [Ht _ Hr] [Hle Hc]. split; [lia|]. destruct Hr as [[-> _]|[-> _]]; [rewrite Ht; done|done]. Qed.

Lemma full_call_behind call t n : node_ok n -> behind t n -> behind t (full_call (Addr := Addr) options call n).2.
Proof.
  intros Hok Hb. apply (settled_behind t n); [|done]. pose proof (settled_quiet n Hok).
  apply full_call_invariant; [done|apply settled_refl].
Qed.

Lemma handle_behind event t n : node_ok n -> behind t n -> 0 <= t < uint64_max -> get_term event <= t ->
  event <> ElectionTimeoutEvent -> behind t (handle_rule actor options event n).2.
Proof.
  intros Hok Hb Ht Hle Hev. unfold handle_rule. destruct (n_blocked n); [done|]. rewrite then_snd.
  assert (behind t (catch_up (Addr := Addr) options event n).2 /\ 0 <= n_term (catch_up (Addr := Addr) options event n).2) as [Hm Hpos].
  { pose proof (ok_term n Hok) as [Hpos _]. destruct (catch_up_cases (Addr := Addr) options event n Hok) as [[_ ->]|(Hlt & _ & Hr & _ & Hm & _)]; [done|].
    split; [split; [by rewrite Hm|congruence]|rewrite Hm; lia]. }
  set (m := (catch_up options event n).2) in *. destruct event; cbn [on_event]; try done.
  - unfold on_request_vote. destruct (stale _ m); [done|]. by destruct (vote_for_leader _ _).
  - unfold on_vote_response. destruct (_ && _ && _) eqn:Hcond; [|done].
    rewrite !andb_true_iff, bool_decide_eq_true in Hcond. destruct Hcond as [[_ Hc] _].
    destruct Hm as [Hmt Hmc]. specialize (Hmc Hc). destruct (bool_decide _); [|done].
    destruct (become_leader_settled (Addr := Addr) options (node_votes ({[get_server_id (RequestVoteRes server_id term vote_granted)]} ∪ n_votes m) m))
      as (Htl & _ & _ & Hrl); [cbn; lia|done|].
    split; [rewrite Htl; cbn; lia|done].
  - unfold on_append_entries. destruct (_ && _); [|done]. unfold as_follower. destruct Hm as [Hmt Hmc]. cbn.
    destruct (n_role m) eqn:Hr; split; cbn; try done; by rewrite ?Hr.
Qed.

(** A leader of the term [t] is not moved by events of terms up to [t]. *)
Lemma leader_unmoved event n : n_role n = leader -> get_term event <= n_term n -> 0 <= n_term n ->
  n_role (handle_rule actor options event n).2 = leader /\ n_term (handle_rule actor options event n).2 = n_term n.
Proof.
  intros Hr Hle Hpos. unfold handle_rule. destruct (n_blocked n); [done|].
  unfold catch_up. rewrite (proj2 (Z.ltb_ge _ _)) by done. rewrite then_nil. destruct event; cbn [on_event]; try done.
  - unfold on_request_vote. destruct (stale _ n); [done|]. by destruct (vote_for_leader _ _).
  - unfold on_vote_response. rewrite Hr, (bool_decide_eq_false_2 (leader = candidate)), andb_false_r by done. done.
  - unfold on_append_entries. rewrite Hr, (bool_decide_eq_false_2 (leader = candidate)), andb_false_r by done. done.
  - unfold on_election_timeout. by rewrite Hr.
Qed.

(** A heartbeat of the term makes a follower of every server that is behind and
    does not itself lead the term. *)
Lemma heartbeat_follows i t n : node_ok n -> behind t n -> n_blocked n = false -> ~ (n_role n = leader /\ n_term n = t) ->
  let m := (handle_rule actor options (AppendEntriesReq i t) n).2 in n_role m = follower /\ n_term m = t.
Proof.
  intros Hok [Hle Hc] Hb Hnot. unfold handle_rule. rewrite Hb. cbv zeta. rewrite then_snd. cbn [on_event].
  destruct (catch_up_cases (Addr := Addr) options (AppendEntriesReq i t) n Hok) as [[Hge ->]|(Hlt & _ & Hr & _ & Ht & _)].
  - cbn [get_term] in Hge. assert (n_term n = t) as Ht by lia. assert (n_role n = follower) as Hr.
    { destruct (n_role n) eqn:Hr; [done| |]; [specialize (Hc eq_refl); lia|by destruct Hnot]. }
    unfold on_append_entries. cbn [snd]. by rewrite Hr, (bool_decide_eq_false_2 (follower = candidate)), andb_false_r by done.
  - set (m := (catch_up options (AppendEntriesReq i t) n).2) in *. unfold on_append_entries.
    by rewrite Hr, (bool_decide_eq_false_2 (follower = candidate)), andb_false_r by done.
Qed.
End rules.

(** ** The group *)

Section stability.
Context {T H Addr : Type} `{!EqDecision Addr} `{HE : Env} `{HS : !TimerOps T H FsmCallable}.
Context `{!TimerService T H FsmCallable}.
Context (peers : gmap Z Addr) (options : Z -> RaftFSMOptions) (fresh : T).
Context `{!EnvOk HE}.
Context (Hopt : forall i, options_ok (options i)) (Hfresh : ts_wf fresh).
Context (Hinj : forall i j to, peers !! i = Some to -> peers !! j = Some to -> i = j).

Local Abbreviation fsm := (RaftFSM T H).
Local Abbreviation cluster := (Cluster T H Addr).
Local Abbreviation inv := (inv peers).
Local Abbreviation act := (act peers options fresh).
Local Abbreviation act_all := (act_all peers options fresh).
Implicit Types (c : cluster) (i j : Z) (s : fsm) (a : Action).

(** No server and no message is ahead of a leader of the term [t]. *)
Definition undisturbed (t : Z) c : Prop :=
  map_Forall (fun _ s => behind t (view s)) (servers c) /\ Forall (fun m => get_term m.2 <= t) (sent c).

(** No timeout is handled at the others, no restart, and nobody tells server [i] to
    step down; all else may happen: messages of any age, heartbeats, and calls. *)
Definition peaceful i (ja : Z * Action) : bool :=
  match ja.2 with
  | Restart => false
  | Expire => ja.1 =? i
  | Call CallStayFollower | Call CallBlock => negb (ja.1 =? i)
  | _ => true
  end.

(** The rule of an action that runs. *)
Definition rule_of j (th : Threads Addr) a : Node -> list (FsmEffect Addr) * Node :=
  match a with
  | Deliver event => handle_rule (actor_of peers j) (options j) event
  | Expire => handle_rule (actor_of peers j) (options j) ElectionTimeoutEvent
  | Beat =>
      match executor th with
      | Beating (peer :: _) => beat_rule (actor_of peers j) peer
      | _ => fun n => ([], n)
      end
  | Call call => full_call (options j) call
  | CallStart => arm_rule
  | OpenActor => open_rule
  | Fire _ | Restart => fun n => ([], n)
  end.

Lemma act_rule earlier c j a c' : inv earlier c -> a <> Restart -> act j a c = Some (Ok c') ->
  exists s s', servers c !! j = Some s /\ enabled peers j a s c = true /\ view s' = (rule_of j (threads_of c j) a (view s)).2 /\
    servers c' = <[j := s']> (servers c).
Proof.
  intros Hinv Ha Hact. destruct (act_ok peers options fresh j a c c' Hact) as (s & es & s' & Hs & Hen & Hp & ->).
  exists s, s'. split; [done|]. split; [done|]. split; [|done].
  pose proof (inv_trigger peers earlier c j a s Hinv Hen) as Htr. pose proof (inv_server _ _ _ Hinv j s Hs) as [Hwf _ _ _].
  assert (runs_to (perform peers options fresh j (threads_of c j) a) s (rule_of j (threads_of c j) a (view s))) as (s1 & Hrun & Hv & _).
  { destruct a as [event|callable| | |call| | |]; cbn [perform enabled thread_enabled rule_of trigger_of trigger_ok] in *; [..|done].
    - apply andb_prop in Hen as [Hst%bool_decide_eq_true _]. apply handled; [done..|].
      destruct Htr as [[_ Hp']| ->]; [by destruct event|done].
    - by apply runs_ret.
    - apply handled; [done..| |done]. apply (inv_threads _ _ _ Hinv j s Hs). left. by destruct (executor _).
    - destruct (executor _) as [| |[|peer rest]]; [by apply runs_ret..|by apply send_heartbeat_runs].
    - apply api_call_runs; [done|by apply run_calls_quiet|done].
    - by apply init_follower_runs.
    - by apply runs_emit. }
  rewrite Hp in Hrun. by injection Hrun as _ <-.
Qed.

(** The node of server [j] before and after a peaceful action. *)
Lemma peaceful_rule i j th a t (n : Node) : peaceful i (j, a) = true -> node_ok n -> behind t n -> 0 <= t < uint64_max ->
  (forall e, trigger_of a = Some e -> get_term e <= t) -> a <> Deliver ElectionTimeoutEvent ->
  (j = i -> n_role n = leader /\ n_term n = t) ->
  behind t (rule_of j th a n).2 /\ (j = i -> n_role (rule_of j th a n).2 = leader /\ n_term (rule_of j th a n).2 = t).
Proof.
  intros Hpeace Hok Hb Ht Hev Hnet Hl.
  destruct a as [event|callable| | |call| | |]; cbn [rule_of peaceful fst snd trigger_of] in *; [..|done].
  - assert (get_term event <= t) as Hle by by apply Hev. split.
    + apply handle_behind; [done..|]. congruence.
    + intros [Hr <-]%Hl. apply leader_unmoved; [done..|lia].
  - by split.
  - apply Z.eqb_eq in Hpeace. destruct (Hl Hpeace) as [Hr Hterm].
    destruct (leader_unmoved (actor_of peers j) (options j) ElectionTimeoutEvent n Hr) as [Hr' Ht']; [rewrite Hterm; cbn; lia|rewrite Hterm; lia|].
    split; [|intros _; split; [done|congruence]]. split; [lia|congruence].
  - destruct (executor th) as [| |[|peer rest]]; by split.
  - split; [by apply full_call_behind|]. intros Hji. destruct (Hl Hji). destruct call; cbn in *; try done.
    all: by rewrite Hji, Z.eqb_refl in Hpeace.
  - by split.
  - by split.
Qed.

Lemma stays_leader earlier c i t j a c' : execution peers options fresh earlier c -> Z.of_nat (length earlier) < uint64_max ->
  leads c i t -> undisturbed t c -> peaceful i (j, a) = true -> act j a c = Some (Ok c') -> leads c' i t /\ undisturbed t c'.
Proof.
  intros Hex Hb (si & Hsi & Hri & Hti) [Hservers Hsent] Hpeace Hact.
  assert (inv earlier c) as Hinv by (eapply execution_inv; [done..|lia]).
  assert (a <> Restart) as Ha by by intros ->.
  destruct (act_rule earlier c j a c' Hinv Ha Hact) as (s & s' & Hs & Hen & Hv & Hnext).
  destruct (act_stepped peers options fresh Hopt earlier c j a c' Hinv Hb Ha Hact) as (s1 & o & s1' & Hst).
  destruct (inv_server _ _ _ Hinv i si Hsi) as [_ [_ [Hpos _] _] Hbound _]. cbn in Hpos. rewrite Hti in Hpos, Hbound.
  assert (forall e, a = Deliver e -> exists to, (to, e) ∈ sent c) as Hdeliver.
  { intros e ->. cbn in Hen. apply andb_prop in Hen as [_ Hen]. destruct (peers !! j) as [to|]; [|done].
    exists to. by apply bool_decide_eq_true in Hen. }
  destruct (peaceful_rule i j (threads_of c j) a t (view s)) as [Hbehind Hlead]; [done|apply (so_node _ _ (inv_server _ _ _ Hinv j s Hs))| |lia|..].
  { by apply (map_Forall_lookup_1 _ _ _ _ Hservers Hs). }
  { intros e He. destruct a as [event|callable| | |call| | |]; cbn in He; try done; injection He as <-; [|done].
    destruct (Hdeliver event eq_refl) as [to Hin]. by apply (proj1 (Forall_forall _ _) Hsent (to, event)). }
  { intros ->. destruct (Hdeliver _ eq_refl) as [to Hin]. by destruct (inv_sent _ _ _ Hinv _ _ Hin). }
  { intros ->. rewrite Hsi in Hs. by injection Hs as <-. }
  rewrite <- Hv in Hbehind, Hlead. split.
  - destruct (decide (j = i)) as [->|Hne].
    + exists s'. rewrite Hnext, lookup_insert_eq. split; [done|by apply Hlead].
    + exists si. by rewrite Hnext, lookup_insert_ne.
  - split; [rewrite Hnext; by apply map_Forall_insert_2|].
    pose proof (f_equal sent (st_next _ _ _ _ _ _ _ _ _ _ _ Hst)) as ->. cbn [sent]. apply Forall_app. split; [|done].
    apply Forall_forall. intros [to e] Hin%elem_of_sends. cbn.
    pose proof (msg_term _ _ _ _ _ _ (evo_sends _ _ _ _ (st_evolution _ _ _ _ _ _ _ _ _ _ _ Hst) to e Hin)) as Hle.
    rewrite <- (st_view _ _ _ _ _ _ _ _ _ _ _ Hst) in Hle.
    assert (s1' = s') as ->; [|destruct Hbehind; lia].
    pose proof (f_equal servers (st_next _ _ _ _ _ _ _ _ _ _ _ Hst)) as Heq. cbn in Heq. rewrite Hnext in Heq.
    apply (f_equal (lookup j)) in Heq. rewrite !lookup_insert_eq in Heq. by injection Heq.
Qed.

(** C10. A leader is stable.  If no server and no message is ahead of the leader of
    the term [t], then after any actions in which no other server handles an election
    timeout and no call tells it to step down, it still leads [t] and nobody is
    ahead of it, whatever messages were delivered, late or twice; and a heartbeat
    of it that reaches another server then makes that a follower of [t]. *)
Theorem leader_is_stable earlier c i t actions c' : execution peers options fresh earlier c ->
  Z.of_nat (length earlier + length actions) < uint64_max -> leads c i t -> undisturbed t c ->
  forallb (peaceful i) actions = true -> act_all actions c = Some (Ok c') ->
  leads c' i t /\ undisturbed t c' /\
  forall j s c'', j <> i -> servers c' !! j = Some s -> blocked_ s = false ->
    act j (Deliver (AppendEntriesReq i t)) c' = Some (Ok c'') ->
    exists s', servers c'' !! j = Some s' /\ role_ s' = follower /\ term_ s' = t.
Proof.
  revert earlier c. induction actions as [|[j a] actions IH]; intros earlier c Hex Hb Hl Hu Hpeace Hall.
  - injection Hall as <-. cbn in Hb. split; [done|]. split; [done|]. intros j s c'' Hne Hs Hblk Hact.
    assert (inv earlier c) as Hinv by (eapply execution_inv; [done..|lia]).
    destruct (act_rule earlier c j (Deliver (AppendEntriesReq i t)) c'' Hinv ltac:(done) Hact) as (s0 & s' & Hs0 & _ & Hv & Hnext).
    assert (s0 = s) as -> by congruence. exists s'. rewrite Hnext, lookup_insert_eq. split; [done|].
    change (role_ s') with (n_role (view s')). change (term_ s') with (n_term (view s')). rewrite Hv.
    apply heartbeat_follows; [apply (so_node _ _ (inv_server _ _ _ Hinv j s Hs))| |done|].
    + destruct Hu as [Hu _]. by apply (map_Forall_lookup_1 _ _ _ _ Hu Hs).
    + intros [Hr Ht]. apply Hne. apply (leaders_agree peers options fresh Hopt Hfresh Hinj earlier c c c j i t); [done|lia|by left|by left| |done].
      by exists s.
  - cbn [forallb] in Hpeace. apply andb_prop in Hpeace as [Hp Hpeace]. cbn [length] in Hb.
    cbn [Cluster.act_all mbind option_bind] in Hall. destruct (act j a c) as [[c1|f]|] eqn:Hact; [|done..]. cbn [mbind option_bind] in Hall.
    destruct (stays_leader earlier c i t j a c1 Hex ltac:(lia) Hl Hu Hp Hact) as [Hl1 Hu1].
    apply (IH (c :: earlier) c1); [|cbn [length]; lia|done..].
    eapply execution_step; [done| |done]. by intros ->.
Qed.
End stability.

(** ** Examples *)

Section examples.
#[local] Existing Instance example_env.
#[local] Existing Instance example_env_ok.

(** The leader that server 1 has become beats, and the others hear it; server 3
    gets the old request for its vote as well. *)
Definition reign : list (Z * Action) :=
  beats 1 2 ++ [(3, Deliver (RequestVoteReq 1 1)); (2, Deliver (AppendEntriesReq 1 2)); (1, Call CallUnblock)].

Lemma leader_is_stable_witness :
  exists c : Cluster (Scheduler FsmCallable) ScheduledTask Z, run_group [1; 2; 3] (election ++ reign) = Some (Ok c) /\
    leads c 1 2 /\ undisturbed 2 c.
Proof.
  assert (exists c c' : Cluster (Scheduler FsmCallable) ScheduledTask Z, run_group [1; 2; 3] election = Some (Ok c) /\
    (1, 2) ∈ leaders c /\ undisturbed 2 c /\ act_all (group [1; 2; 3]) defaults new_scheduler reign c = Some (Ok c') /\
    run_group [1; 2; 3] (election ++ reign) = Some (Ok c')) as (c & c' & Hrun & Hl & Hu & Hreign & Hall).
  { eexists _, _. split; [vm_compute; reflexivity|]. split; [apply (bool_decide_unpack _); vm_compute; exact I|].
    split; [apply (bool_decide_unpack _); vm_compute; exact I|]. split; vm_compute; reflexivity. }
  destruct (act_all_execution (group [1; 2; 3]) defaults new_scheduler election [] _ c (execution_start _ _ _)) as (earlier & Hex & Hlen).
  { apply (bool_decide_unpack _). vm_compute. exact I. }
  { exact Hrun. }
  exists c'. split; [exact Hall|].
  destruct (leader_is_stable (group [1; 2; 3]) defaults new_scheduler defaults_ok fresh_ok (group_inj _) earlier c 1 2 reign c' Hex)
    as (Hl' & Hu' & _); [rewrite Hlen; vm_compute; reflexivity|by apply leaders_spec|exact Hu|reflexivity|exact Hreign|].
  split; [exact Hl'|exact Hu'].
Defined.
End examples.
