(* ===== verification/Wire.v ===== *)
(** * From one server's state machine to another's

    The path of an event: [encode], the frame of the connection, the server
    connection of the receiver, [decode] and [handle].  Where every number of
    an event survives the wire the path is the identity; where it does not,
    the number grows on the way, and a term that grows cannot be won. *)
From S2P Require Import Prelude Timers NetworkUtil Protocol NodeCommon Node Scheduler RaftActor Fsm.
From S2P Require Import ElectionSpec ElectionFacts FsmRefinement.
Local Open Scope Z_scope.

(** ** Numbers on the wire *)

(** A number as the receiver reads it. *)
Definition read_back (plat : Platform) (T : WireType) (h : Z) : Z := atoh plat T (htoa plat T h).

(** A number whose bits another one has is not larger. *)
Lemma bits_le a b :
  0 <= b -> (forall k, 0 <= k -> Z.testbit a k = true -> Z.testbit b k = true) -> a <= b.
Proof.
  intros Hb Hbits.
  assert (a + Z.ldiff b a = b) as Hsum.
  { rewrite Z.add_nocarry_lor.
    - apply Z.bits_inj'. intros k Hk. rewrite Z.lor_spec, Z.ldiff_spec. specialize (Hbits k Hk).
      destruct (Z.testbit a k), (Z.testbit b k); try done. discriminate (Hbits eq_refl).
    - apply Z.bits_inj'. intros k Hk. rewrite Z.land_spec, Z.ldiff_spec, Z.testbit_0_l.
      by destruct (Z.testbit a k), (Z.testbit b k). }
  assert (0 <= Z.ldiff b a) by (apply Z.ldiff_nonneg; by left). lia.
Qed.

Lemma testbit_byte h k :
  0 <= k -> Z.testbit h k = Z.testbit (byte_of h (k / 8)) (k mod 8).
Proof.
  intros Hk. pose proof (Z.mod_pos_bound k 8 ltac:(lia)). assert (0 <= k / 8) by by apply Z.div_pos.
  rewrite byte_of_testbit, (proj2 (Z.ltb_lt (k mod 8) 8)), andb_true_r by lia.
  f_equal. pose proof (Z.div_mod k 8 ltac:(lia)). lia.
Qed.

(** Reading back only sets bits. *)
Lemma read_back_ge plat h : in_range 64 h -> h <= read_back plat U64 h.
Proof.
  intros Hh. apply bits_le; [apply atoh_in_range|]. intros k Hk Hbit.
  destruct (decide (k < 64)) as [Hk64|Hk64].
  2: by rewrite (testbit_above 64) in Hbit by (done || lia).
  rewrite testbit_byte in Hbit |- * by done. unfold read_back.
  assert (0 <= k / 8 < Z.of_nat (sizeof U64)).
  { split; [by apply Z.div_pos|]. apply Z.div_lt_upper_bound; simpl; lia. }
  rewrite atoh_htoa_byte by done. destruct (smeared _ _ _ _); [|done].
  pose proof (Z.mod_pos_bound k 8 ltac:(lia)). change 255 with (Z.ones 8).
  by apply Z.ones_spec_low.
Qed.

Lemma read_back_gt plat h :
  in_range 64 h -> wire_safe plat U64 h = false -> h < read_back plat U64 h.
Proof.
  intros Hh Hs. pose proof (read_back_ge plat h Hh).
  assert (read_back plat U64 h <> h); [|lia]. intros Heq.
  apply (atoh_htoa_iff plat U64 h Hh) in Heq. congruence.
Qed.

(** ** Events through a connection *)

Section path.
Context (plat : Platform).
Context {St : Type} `{!AsyncRead St, !AsyncReadOk St}.

(** The message [RemoteRaftActor::send] hands to the client. *)
Definition message_of (e : RaftEvent) : Message := mkMessage (wire plat e).

Lemma message_of_length e : (length (data (message_of e)) <= 19)%nat.
Proof. simpl. rewrite wire_length. destruct e; lia. Qed.

Lemma message_of_acceptable op e : (19 <= in_buf_size op)%nat -> acceptable plat op (message_of e).
Proof.
  intros Hbuf. pose proof (message_of_length e) as Hlen.
  assert (in_range 32 (Z.of_nat (length (data (message_of e))))) as Hr
    by (unfold in_range; simpl; simpl in Hlen; lia).
  split_and!; [lia|done|]. apply wire_safe_small; [|done].
  destruct (plat_big_endian plat); simpl in *; lia.
Qed.

Lemma on_message_event e : event_safe plat e -> on_message plat (message_of e) = Ok (Some e).
Proof. intros He. unfold on_message. simpl. by rewrite decode_wire_safe. Qed.

(** From send to handler.  When the members of the events survive the wire
    and the receiver's buffer holds the 19 bytes of the longest event, the
    server connection that receives the frames of the events delivers them all,
    in order, and its callback passes exactly these events to [handle]. *)
Theorem events_cross_the_wire op sender es st fuel :
  Forall (event_safe plat) es -> (19 <= in_buf_size op)%nat ->
  incoming st = es ≫= (fun e => frame plat (message_of e)) -> (2 * length es + 3 <= fuel)%nat ->
  exists c', connection plat fuel st (new_ServerConnection sender op)
    = (((fun e => Node.Deliver (message_of e) sender) <$> es) ++ [CloseSocket], c', Ok tt) /\
    (forall e, e ∈ es -> on_message plat (message_of e) = Ok (Some e)).
Proof.
  intros Hes Hbuf Hin Hfuel. unfold connection, start_connection, read_header. rewrite run_modify.
  destruct (serve_messages plat fuel op sender (message_of <$> es) (mkMessage []) 0
    (set_pending (Some ReadHeader) (new_ServerConnection sender op)) st) as (c' & Hrun & _); [apply waiting_new|..].
  - apply Forall_app. split; [|apply Forall_singleton; split_and!; simpl; [lia|by vm_compute|]].
    + apply Forall_fmap, Forall_forall. intros e _. by apply message_of_acceptable.
    + apply wire_safe_small; [by destruct (plat_big_endian plat)|by vm_compute].
  - unfold frame. rewrite length_app, length_htoa. simpl. lia.
  - rewrite Hin, take_0, app_nil_r, list_fmap_bind. done.
  - by rewrite length_fmap.
  - exists c'. split; [by rewrite Hrun, <- list_fmap_compose|].
    intros e He. apply on_message_event. rewrite Forall_forall in Hes. by apply Hes.
Qed.

End path.

(** ** Terms that cannot be won *)

Section unsafe.
Context {T H Addr : Type} `{HE : Env, !EnvOk HE} `{HS : !TimerOps T H FsmCallable}.
Context `{!TimerService T H FsmCallable}.
Context (plat : Platform).
Implicit Types (s : RaftFSM T H).

(** The answer to a vote request carries the voter's term, which has caught up
    with the request. *)
Lemma vote_answer_term actor options (id t : Z) (n : Node) to (e : RaftEvent) :
  n_blocked n = false ->
  Send (Addr := Addr) to e ∈ (handle_rule actor options (RequestVoteReq id t) n).1 ->
  exists granted, e = RequestVoteRes (self actor) (Z.max (n_term n) t) granted.
Proof.
  intros Hb. unfold handle_rule. rewrite Hb, then_fst, elem_of_app.
  pose proof (catch_up_term (Addr := Addr) options (RequestVoteReq id t) n) as Hterm.
  assert (silent (catch_up (Addr := Addr) options (RequestVoteReq id t) n).1) as Hsil.
  { unfold catch_up. destruct (_ <? _); [apply step_down_silent|apply silent_nil]. }
  set (o := catch_up options (RequestVoteReq id t) n) in *. simpl in Hterm.
  intros [Hin|Hin]; [by destruct (Hsil to e)|].
  assert (exists granted, e = RequestVoteRes (self actor) (n_term o.2) granted) as [granted ->].
  { cbn [on_event] in Hin. unfold on_request_vote, reply in Hin.
    destruct (stale _ _); [|destruct (vote_for_leader _ _) as [granted v]];
      cbn [fst] in Hin; destruct (get_peer _ _); try (by apply elem_of_nil in Hin);
      apply list_elem_of_singleton in Hin as [= _ ->]; eauto. }
  exists granted. by rewrite Hterm.
Qed.

(** A response of a higher term ends a candidacy. *)
Lemma higher_response_deposes actor options (id t : Z) granted (n : Node) :
  n_blocked n = false -> n_term n < t ->
  n_role (handle_rule (Addr := Addr) actor options (RequestVoteRes id t granted) n).2 = follower.
Proof.
  intros Hb Ht. unfold handle_rule. rewrite Hb, then_snd. unfold catch_up. simpl.
  rewrite (proj2 (Z.ltb_lt _ _)) by done.
  pose proof (step_down_role (Addr := Addr) options (node_term t n)) as Hr.
  set (m := (step_down options (node_term t n)).2) in *.
  unfold on_vote_response. rewrite Hr, bool_decide_eq_false_2, andb_false_r by done. done.
Qed.

(** C16. A candidate whose term does not survive the wire cannot be elected: every
    server reads its vote request with a higher term, so that every answer,
    granted or not, carries a higher term and makes the candidate a follower
    again.  Where [char] is signed this holds, for instance, of every term from
    2^15 to 2^16 - 1 whose low byte is not 255. *)
Theorem unsafe_term_cannot_be_won actor_c actor_v options_c options_v sc sv :
  options_ok options_c -> options_ok options_v ->
  wf sc -> started (view sc) -> blocked_ sc = false ->
  in_range 64 (term_ sc) -> wire_safe plat U64 (term_ sc) = false ->
  wf sv -> started (view sv) -> blocked_ sv = false -> in_range 64 (term_ sv) ->
  let request := received plat (RequestVoteReq (self actor_c) (term_ sc)) in
  is_Some (get_peer (Addr := Addr) actor_v (get_server_id request)) ->
  exists es sv', handle actor_v options_v request sv = (es, sv', Ok tt) /\
    forall to e, Send to e ∈ es ->
    exists es' sc', handle (Addr := Addr) actor_c options_c (received plat e) sc = (es', sc', Ok tt) /\
      role_ sc' = follower.
Proof.
  intros Hoc Hov Hwc Hsc Hbc Hrc Hunsafe Hwv Hsv Hbv Hrv request Hpeer.
  destruct (handled actor_v options_v Hov request sv Hwv Hsv Hpeer) as (sv' & Hrun & _ & _).
  eexists _, sv'. split; [exact Hrun|]. intros to e Hin.
  destruct (vote_answer_term actor_v options_v _ _ (view sv) to e Hbv Hin) as [granted ->].
  set (t := Z.max _ _).
  assert (term_ sc < t) as Hlt.
  { pose proof (read_back_gt plat (term_ sc) Hrc Hunsafe) as Hgt. unfold t, read_back in *. lia. }
  assert (in_range 64 t) as Hrt.
  { pose proof (atoh_in_range plat (htoa plat U64 (term_ sc))) as Hr. unfold t, in_range in *.
    simpl in *. lia. }
  pose proof (read_back_ge plat t Hrt) as Hge. unfold read_back in Hge.
  destruct (handled actor_c options_c Hoc
    (received plat (RequestVoteRes (self actor_v) t granted)) sc Hwc Hsc I) as (sc' & Hrun' & Hv & _).
  eexists _, sc'. split; [exact Hrun'|].
  change (role_ sc') with (n_role (view sc')). rewrite Hv.
  apply higher_response_deposes; [done|]. simpl. lia.
Qed.
End unsafe.

(** ** Examples *)

Section examples.
#[local] Existing Instance example_env.
#[local] Existing Instance example_env_ok.

Lemma events_cross_the_wire_witness :
  exists c', connection x86_64 7
      ([RequestVoteReq 2 7; RequestVoteRes 3 7 true] ≫= (fun e => frame x86_64 (message_of x86_64 e)))
      (new_ServerConnection peer (mkServerOptions 9990 1024))
    = ([Node.Deliver (message_of x86_64 (RequestVoteReq 2 7)) peer;
        Node.Deliver (message_of x86_64 (RequestVoteRes 3 7 true)) peer; CloseSocket], c', Ok tt) /\
    (forall e, e ∈ [RequestVoteReq 2 7; RequestVoteRes 3 7 true] ->
       on_message x86_64 (message_of x86_64 e) = Ok (Some e)).
Proof.
  apply (events_cross_the_wire x86_64 (mkServerOptions 9990 1024) peer
    [RequestVoteReq 2 7; RequestVoteRes 3 7 true]); [|simpl; lia|reflexivity|simpl; lia].
  repeat (apply Forall_cons; split; [split_and!; vm_compute; intuition congruence|]).
  by apply Forall_nil.
Defined.

(** A candidate of the term 2^15, the first that is misread. *)
Definition late_candidate : RaftFSM (Scheduler FsmCallable) ScheduledTask :=
  set_role candidate (set_term 32768 sample_fsm).

Lemma late_candidate_wf : wf late_candidate.
Proof. by destruct sample_fsm_wf; split. Qed.

Definition other_options : RaftActorOptions RemoteRaftActorAddress :=
  mkRaftActorOptions five_peers 2.

Lemma unsafe_term_cannot_be_won_witness :
  exists es sv', handle other_options sample_options (RequestVoteReq 1 33023) sample_fsm
    = (es, sv', Ok tt) /\
    forall to e, Send to e ∈ es ->
    exists es' sc', handle five_options sample_options (received x86_64 e) late_candidate
      = (es', sc', Ok tt) /\ role_ sc' = follower.
Proof.
  apply (unsafe_term_cannot_be_won x86_64 five_options other_options sample_options sample_options
    late_candidate sample_fsm sample_options_ok sample_options_ok late_candidate_wf
    sample_started); [done| |by vm_compute|exact sample_fsm_wf|exact sample_started|done| |].
  - vm_compute. intuition congruence.
  - vm_compute. intuition congruence.
  - vm_compute. by eexists.
Defined.
End examples.
