(* ===== verification/EndToEnd.v ===== *)
(** * From the actor of one server to the handler of another

    The parts between two servers put together: [RemoteRaftActor::send] encodes an
    event and calls the client, the connection pool of the client frames it and
    writes it to a connection, the network delivers the bytes of the connection or
    a first part of them, the kernel of the receiver hands them out in pieces,
    [async_read] collects them for the server connection, and its callback decodes
    the message and calls [handle]. *)
From S2P Require Import Prelude Utils NetworkUtil Protocol NodeCommon Node ConnectionPool RaftActor Wire.
From S2P Require Import AsioRead AsioScheduler AsioReactor AsioSocketOps AsioSocketStream.
Local Open Scope Z_scope.

(** ** Definitions *)

Definition Sends : Type := list (RemoteRaftActorAddress * RaftEvent).

(** The calls of [client_->send (...)] among the requests of the actor. *)
Definition client_sends (requests : list NetRequest) : list (EndPoint * Message) :=
  omap (fun r => match r with ClientSend endpoint m => Some (endpoint, m) | _ => None end) requests.

(** The events the callback of a server connection passes to [handle]. *)
Definition handled (plat : Platform) (effects : list ConnectionEffect) : list RaftEvent :=
  omap (fun x =>
    match x with
    | Node.Deliver m _ => match on_message plat m with Ok (Some e) => Some e | _ => None end
    | CloseSocket => None
    end) effects.

Definition events_to (endpoint : EndPoint) (sends : Sends) : list RaftEvent :=
  omap (fun s => if bool_decide (endpoint_ s.1 = endpoint) then Some s.2 else None) sends.

(** The events that are made for the network; a timer makes the other one. *)
Definition for_network (e : RaftEvent) : Prop := e <> ElectionTimeoutEvent.

Section path.
Context (plat : Platform).

(** ** The sender *)

Definition send_request (s : RemoteRaftActorAddress * RaftEvent) : NetRequest :=
  ClientSend (endpoint_ s.1) (message_of plat s.2).

Lemma actor_sends (a : RemoteRaftActor) (sends : Sends) : client_ a = true ->
  for_each (fun s => RemoteRaftActor_send plat s.2 s.1) sends a = (send_request <$> sends, a, Ok tt).
Proof.
  intros Ha. induction sends as [|[addr e] sends IH]; [done|]. cbn [for_each fst snd].
  assert (RemoteRaftActor_send plat e addr a = ([send_request (addr, e)], a, Ok tt)) as Hsend.
  { unfold RemoteRaftActor_send. rewrite run_get, encode_wire. run. by rewrite Ha. }
  erewrite run_bind_ok by exact Hsend. by rewrite IH.
Qed.

Lemma client_sends_requests (sends : Sends) :
  client_sends (send_request <$> sends) = (fun s => (endpoint_ s.1, message_of plat s.2)) <$> sends.
Proof. unfold client_sends. induction sends as [|s sends IH]; [done|]. cbn. by rewrite IH. Qed.

Lemma messages_to_events ep (sends : Sends) :
  messages_to ep (client_sends (send_request <$> sends)) = message_of plat <$> events_to ep sends.
Proof.
  rewrite client_sends_requests. unfold messages_to, events_to. induction sends as [|s sends IH]; [done|]. cbn.
  case_bool_decide; [|done]. cbn. by rewrite IH.
Qed.

(** ** The bytes on the way *)

Lemma sublist_of_fmap {A B} (f : A -> B) (l : list A) (ys : list B) :
  ys `sublist_of` (f <$> l) -> exists l', ys = f <$> l' /\ l' `sublist_of` l.
Proof.
  revert ys. induction l as [|x l IH]; intros ys Hys; cbn in Hys.
  - apply sublist_nil_r in Hys as ->. by exists [].
  - apply sublist_cons_r in Hys as [Hys|(ys' & -> & Hys)].
    + destruct (IH _ Hys) as (l' & -> & Hl). exists l'. split; [done|]. by apply sublist_cons.
    + destruct (IH _ Hys) as (l' & -> & Hl). exists (x :: l'). split; [done|]. by apply sublist_skip.
Qed.

Lemma prefix_is_take {A} (l k : list A) : l `prefix_of` k -> l = take (length l) k.
Proof. intros [l' ->]. by rewrite take_app_length. Qed.

(** A first part of the bytes of some frames is again whole frames and a part of
    one more. *)
Lemma frames_prefix ms last k pre : (k < length (frame plat last))%nat ->
  pre `prefix_of` (ms ≫= frame plat) ++ take k (frame plat last) ->
  exists ms' last' k', pre = (ms' ≫= frame plat) ++ take k' (frame plat last') /\ (k' < length (frame plat last'))%nat /\
    ms' `prefix_of` ms /\ (k' = 0%nat \/ last' ∈ ms \/ (last' = last /\ k <> 0%nat)).
Proof.
  intros Hk. revert pre. induction ms as [|m ms IH]; intros pre Hpre.
  - cbn in Hpre. pose proof (prefix_length _ _ Hpre) as Hlen. rewrite length_take in Hlen.
    apply prefix_is_take in Hpre. rewrite take_take in Hpre.
    exists [], last, (length pre). split; [cbn; rewrite Hpre at 1; f_equal; lia|]. split; [lia|]. split; [done|].
    destruct (decide (length pre = 0%nat)); [by left|]. right. right. split; [done|lia].
  - cbn [mbind list_bind] in Hpre. rewrite <- (assoc_L (++)) in Hpre.
    destruct (decide (length pre < length (frame plat m))%nat) as [Hlt|Hge].
    + exists [], m, (length pre). split; [|split; [done|split; [apply prefix_nil|right; left; left]]]. cbn.
      rewrite (prefix_is_take _ _ Hpre) at 1. by rewrite take_app_le by lia.
    + assert (frame plat m `prefix_of` pre) as [pre' ->].
      { destruct (prefix_weak_total pre (frame plat m) _ Hpre (prefix_app_r _ _ _ (reflexivity _))) as [Hp|Hp]; [|done].
        apply prefix_length_eq in Hp; [by rewrite Hp|lia]. }
      apply prefix_app_inv in Hpre. destruct (IH _ Hpre) as (ms' & last' & k' & -> & Hk' & Hms & Hlast).
      exists (m :: ms'), last', k'. split; [cbn; by rewrite (assoc_L (++))|]. split; [done|]. split; [by apply prefix_cons|].
      destruct Hlast as [?|[?|?]]; [by left|right; left; by right|by right; right].
Qed.

(** ** The receiver *)

Lemma on_message_received e : for_network e -> on_message plat (message_of plat e) = Ok (Some (received plat e)).
Proof. intros He. unfold on_message. cbn [data message_of]. by rewrite decode_wire. Qed.

Lemma handled_messages evs sender : Forall for_network evs ->
  handled plat (((fun m => Node.Deliver m sender) <$> (message_of plat <$> evs)) ++ [CloseSocket]) = received plat <$> evs.
Proof.
  intros Hevs. unfold handled. rewrite omap_app. cbn. rewrite app_nil_r.
  induction Hevs as [|e evs He _ IH]; [done|]. cbn [fmap list_fmap omap list_omap]. rewrite (on_message_received e He). by rewrite IH.
Qed.

Lemma empty_acceptable op : acceptable plat op (mkMessage []).
Proof. split_and!; [simpl; lia|by vm_compute|]. apply wire_safe_small; [by destruct (plat_big_endian plat)|by vm_compute]. Qed.

Lemma frame_pos m : (0 < length (frame plat m))%nat.
Proof. rewrite length_frame. unfold header_length. lia. Qed.

Lemma delivers_events {St} `{!AsyncRead St, !AsyncReadOk St} op sender evs last k fuel (st : St) :
  Forall for_network evs -> acceptable plat op last -> (19 <= in_buf_size op)%nat -> (k < length (frame plat last))%nat ->
  incoming st = ((message_of plat <$> evs) ≫= frame plat) ++ take k (frame plat last) -> (2 * length evs + 3 <= fuel)%nat ->
  exists effects c', connection plat fuel st (new_ServerConnection sender op) = (effects, c', Ok tt) /\
    pending c' = None /\ handled plat effects = received plat <$> evs.
Proof.
  intros Hevs Hlast Hbuf Hk Hin Hfuel. unfold connection, start_connection, read_header. rewrite run_modify.
  destruct (serve_messages plat fuel op sender (message_of plat <$> evs) last k
    (set_pending (Some ReadHeader) (new_ServerConnection sender op)) st) as (c' & Hrun & Hp).
  - apply waiting_new.
  - apply Forall_app. split; [|by apply Forall_singleton]. apply Forall_fmap, Forall_forall. intros e _.
    by apply message_of_acceptable.
  - done.
  - done.
  - by rewrite length_fmap.
  - eexists _, c'. split; [exact Hrun|]. split; [done|]. by apply handled_messages.
Qed.

Lemma events_to_safe ep (sends : Sends) evs : Forall (fun s => for_network s.2) sends -> evs `sublist_of` events_to ep sends ->
  Forall for_network evs.
Proof.
  intros Hsafe Hevs. apply Forall_forall. intros e He. pose proof (elem_of_sublist _ _ _ He Hevs) as Hin.
  clear Hevs He. revert e Hin. apply Forall_forall. unfold events_to.
  induction Hsafe as [|s sends Hs _ IH]; [constructor|]. cbn. case_bool_decide; [by constructor|done].
Qed.

Lemma events_to_length ep (sends : Sends) : (length (events_to ep sends) <= length sends)%nat.
Proof. unfold events_to. induction sends as [|s sends IH]; [done|]. cbn. case_bool_decide; cbn; lia. Qed.

(** What a server connection makes of a first part of what a connection of the
    client has written. *)
Lemma connection_handles {St} `{!AsyncRead St, !AsyncReadOk St} op sender (sends : Sends) c ms last k fuel (st : St) :
  conn_ok plat (client_sends (send_request <$> sends)) c ms last k ->
  Forall (fun s => for_network s.2) sends -> (19 <= in_buf_size op)%nat ->
  incoming st `prefix_of` written c -> (2 * length sends + 3 <= fuel)%nat ->
  exists effects c', connection plat fuel st (new_ServerConnection sender op) = (effects, c', Ok tt) /\
    pending c' = None /\ handled plat effects `sublist_of` received plat <$> events_to (remote c) sends.
Proof.
  intros [Hw Hk _ Hsent Hlast] Hsafe Hbuf Hpre Hfuel. rewrite Hw in Hpre.
  destruct (frames_prefix ms last k _ Hk Hpre) as (ms' & last' & k' & Hin & Hk' & Hms' & Hcase).
  rewrite messages_to_events in Hsent, Hlast.
  assert (forall m, m ∈ message_of plat <$> events_to (remote c) sends -> acceptable plat op m) as Hacc.
  { intros m (e & -> & _)%list_elem_of_fmap. by apply message_of_acceptable. }
  assert (ms' `sublist_of` message_of plat <$> events_to (remote c) sends) as Hms''
    by (destruct Hms' as [l ->]; etrans; [apply sublist_inserts_r|exact Hsent]; done).
  destruct (sublist_of_fmap _ _ ms' Hms'') as (evs & -> & Hevs).
  pose proof (events_to_safe (remote c) sends evs Hsafe Hevs) as Hsafe'.
  pose proof (sublist_length _ _ Hevs) as Hlen. pose proof (events_to_length (remote c) sends) as Hlen'.
  assert (exists last'' k'', acceptable plat op last'' /\ (k'' < length (frame plat last''))%nat /\
    take k'' (frame plat last'') = take k' (frame plat last')) as (last'' & k'' & Hacc'' & Hk'' & Htake).
  { destruct Hcase as [->|Hcase].
    - exists (mkMessage []), 0%nat. split; [apply empty_acceptable|]. split; [apply frame_pos|by rewrite !take_0].
    - exists last', k'. split; [|by split]. apply Hacc. destruct Hcase as [Hin'|[-> Hne]].
      + apply (elem_of_sublist ms); [done|exact Hsent].
      + apply (elem_of_sublist (ms ++ [last])); [apply elem_of_app; right; by left|by apply Hlast]. }
  rewrite <- Htake in Hin.
  destruct (delivers_events op sender evs last'' k'' fuel st) as (effects & c' & Hrun & Hp & Hh); [done..|lia|].
  exists effects, c'. split; [exact Hrun|]. split; [done|]. rewrite Hh. by apply fmap_sublist.
Qed.

End path.

(** ** Properties *)

Section properties.
Context {K : Type} `{!Kernel K, !PatientKernel K} (sock : Z) `{!StreamKernel K sock} (state : Z).
Context (Hstream : has state stream_oriented = true).
Context `{!NetworkOk net} (plat : Platform).

(** A server connection that reads a connected socket. *)
Definition socket_connection (fuel : nat) (t : Thread K) : comp ServerConnection ConnectionEffect unit :=
  @connection plat (Thread K) (@asio_stream (Thread K) _ (async_read_stream_ok sock state Hstream)) fuel t.

(** C14. From server to server.  An actor sends events, whatever its network does to
    the dials and the writes; of the bytes on one of its connections the network
    delivers all or a first part to a socket of another server, in any pieces.
    The server connection on that socket comes to an end, and the events it passes
    to [handle] are among those that were sent to its end point, in the order in
    which they were sent and none of them twice, with their numbers as the receiver
    reads them ([received_safe]: unchanged where they survive the wire). *)
Theorem handled_events_were_sent (a a' : RemoteRaftActor) (sends : Sends) requests r es p r' id c op sender fuel t :
  client_ a = true -> Forall (fun s => for_network s.2) sends -> (19 <= in_buf_size op)%nat ->
  for_each (fun s => RemoteRaftActor_send plat s.2 s.1) sends a = (requests, a', r) ->
  for_each (fun s => Client_send plat s.1 s.2) (client_sends requests) new_ConnectionPool = (es, p, r') ->
  store p !! id = Some c -> unreceived sock t `prefix_of` written c -> (2 * length sends + 3 <= fuel)%nat ->
  exists effects conn, socket_connection fuel t (new_ServerConnection sender op) = (effects, conn, Ok tt) /\
    pending conn = None /\ handled plat effects `sublist_of` received plat <$> events_to (remote c) sends.
Proof.
  intros Ha Hsafe Hbuf Hsend Hrun Hc Hpre Hfuel. rewrite (actor_sends plat a sends Ha) in Hsend. injection Hsend as <- <- <-.
  destruct (po_conn _ _ _ (sends_ok plat _ es p r' Hrun) id c Hc) as (ms & last & k & Hconn).
  destruct (@connection_handles plat (Thread K) _ (@asio_stream_ok (Thread K) _ (async_read_stream_ok sock state Hstream))
    op sender sends c ms last k fuel t) as (effects & conn & Hres); [done..|].
  by exists effects, conn.
Qed.

(** C15. When the network lets every dial and every write succeed, an actor needs one
    connection per end point, and when a server has received the bytes of that
    connection, it has handled all events that were sent to it, in order, with
    their numbers as it reads them. *)
Theorem healthy_network_delivers_all (a : RemoteRaftActor) (sends : Sends) ep op sender fuel :
  healthy -> client_ a = true -> Forall (fun s => for_network s.2) sends -> (19 <= in_buf_size op)%nat ->
  events_to ep sends <> [] -> (2 * length sends + 3 <= fuel)%nat ->
  exists requests es p id c,
    for_each (fun s => RemoteRaftActor_send plat s.2 s.1) sends a = (requests, a, Ok tt) /\
    for_each (fun s => Client_send plat s.1 s.2) (client_sends requests) new_ConnectionPool = (es, p, Ok tt) /\
    conns_ p !! ep = Some id /\ store p !! id = Some c /\
    forall t, unreceived sock t = written c -> exists effects conn,
      socket_connection fuel t (new_ServerConnection sender op) = (effects, conn, Ok tt) /\
      pending conn = None /\ handled plat effects = received plat <$> events_to ep sends.
Proof.
  intros Hhealthy Ha Hsafe Hbuf Hne Hfuel.
  destruct (healthy_sends plat (client_sends (send_request plat <$> sends)) Hhealthy) as (es & p & Hrun & Hall).
  pose proof (Hall ep) as Hep. rewrite messages_to_events in Hep.
  destruct (conns_ p !! ep) as [id|] eqn:Hid; [|by destruct (events_to ep sends)].
  eexists _, es, p, id, _. split; [by apply actor_sends|]. split; [exact Hrun|]. split; [done|]. split; [exact Hep|].
  intros t Ht. cbn in Ht. pose proof (events_to_length ep sends).
  apply (@delivers_events plat (Thread K) _ (@asio_stream_ok (Thread K) _ (async_read_stream_ok sock state Hstream))
    op sender (events_to ep sends) (mkMessage []) 0 fuel t).
  - by apply (events_to_safe ep sends).
  - apply empty_acceptable.
  - done.
  - apply frame_pos.
  - by rewrite take_0, app_nil_r.
  - lia.
Qed.

End properties.

(** ** Examples *)

Section examples.
#[local] Existing Instance flaky.
#[local] Existing Instance flaky_ok.

Definition some_actor : RemoteRaftActor := mkRemoteActor (mkRemoteOptions five_options 1024) None true.

(** A vote request, whose write fails after three bytes, and an answer. *)
Definition some_sends : Sends :=
  [(mkRemoteAddress there, RequestVoteReq 2 7); (mkRemoteAddress there, RequestVoteRes 2 8 true)].

(** Two pieces, with moments without data. *)
Definition in_two_pieces (bytes : list Z) : list (option (Z * list Z)) :=
  match bytes with
  | x :: y :: bytes => [None; Some (x, []); None; Some (y, bytes)]
  | _ => []
  end.

Definition the_requests : list NetRequest := send_request x86_64 <$> some_sends.

Definition the_run := for_each (fun s => Client_send x86_64 s.1 s.2) (client_sends the_requests) new_ConnectionPool.

Definition the_conn (id : nat) : Connection := default (mkConn there false true []) (store the_run.1.2 !! id).

(** What connection [id] has written, in a kernel that lost the last two bytes. *)
Definition on_the_way (id : nat) : Thread Pipe :=
  let bytes := written (the_conn id) in
  mkThread 0 (mkPipe (in_two_pieces (take (length bytes - 2) bytes)) [] []).

Lemma handled_events_were_sent_witness : exists effects conn,
  socket_connection 5 stream_oriented eq_refl x86_64 7 (on_the_way 1) (new_ServerConnection peer (mkServerOptions 9990 1024))
    = (effects, conn, Ok tt) /\ pending conn = None /\
  handled x86_64 effects `sublist_of` received x86_64 <$> events_to (remote (the_conn 1)) some_sends.
Proof.
  apply (handled_events_were_sent 5 stream_oriented eq_refl x86_64 some_actor some_actor some_sends the_requests (Ok tt)
    the_run.1.1 the_run.1.2 the_run.2 1 (the_conn 1)).
  - done.
  - by repeat (apply Forall_cons; split).
  - cbn. lia.
  - by vm_compute.
  - by vm_compute.
  - by vm_compute.
  - eexists [_; _]. by vm_compute.
  - cbn. lia.
Defined.

End examples.

Section healthy_examples.

Definition perfect : Network := {| ConnectionPool.dial k ep := Connected; ConnectionPool.write_outcome k len := None |}.
#[local] Existing Instance perfect.

#[local] Instance perfect_ok : NetworkOk perfect.
Proof. by split. Qed.

Lemma healthy_network_delivers_all_witness : exists requests es p id c,
  for_each (fun s => RemoteRaftActor_send x86_64 s.2 s.1) some_sends some_actor = (requests, some_actor, Ok tt) /\
  for_each (fun s => Client_send x86_64 s.1 s.2) (client_sends requests) new_ConnectionPool = (es, p, Ok tt) /\
  conns_ p !! there = Some id /\ store p !! id = Some c /\
  forall t, unreceived 5 t = written c -> exists effects conn,
    socket_connection 5 stream_oriented eq_refl x86_64 7 t (new_ServerConnection peer (mkServerOptions 9990 1024))
      = (effects, conn, Ok tt) /\
    pending conn = None /\ handled x86_64 effects = [RequestVoteReq 2 7; RequestVoteRes 2 8 true].
Proof.
  apply (healthy_network_delivers_all 5 stream_oriented eq_refl x86_64 some_actor some_sends there).
  - by split.
  - done.
  - by repeat (apply Forall_cons; split).
  - cbn. lia.
  - by vm_compute.
  - cbn. lia.
Defined.

End healthy_examples.
