(* ===== verification/Deployment.v ===== *)
(** * A deployed group: servers, their connections and the bytes between them

    Cluster.v takes the network as a set of events that may arrive.  Here it is the
    code that is on the way: every server has its state machine, the actor that
    encodes events and asks the client, and the pool of connections with the bytes
    written to each; a server accepts connections to its end point and reads them
    frame by frame.  The threads of a server take the steps of Cluster.v: in
    particular a timeout can be handled, and a turn of the heartbeat loop run, between
    the two halves of [start].  Dials and writes may fail, bytes may stay on the way for ever,
    reads may fail at any time, and a server on which an exception leaves a thread
    is gone.  [deployment_refines_cluster]: whatever such a group does, the group of
    Cluster.v does as well, so that what Cluster.v shows of elections holds for it. *)
From S2P Require Import Prelude Utils Timers NetworkUtil Protocol NodeCommon Node ConnectionPool Scheduler RaftActor Fsm.
From S2P Require Import ElectionSpec ElectionFacts FsmRefinement Cluster Wire EndToEnd.
Local Open Scope Z_scope.

(** ** Data *)

#[export] Instance RemoteRaftActorAddress_eq_dec : EqDecision RemoteRaftActorAddress.
Proof. solve_decision. Defined.

(** One process.  [workers]: where its executor and the callers of [start] are;
    [serving]: its [io_context] runs; [up]: it has not terminated. *)
Record Site (T H : Type) := mkSite {
  machine : RaftFSM T H;
  workers : Threads RemoteRaftActorAddress;
  actor : RemoteRaftActor;
  pool : ConnectionPool;
  serving : bool;
  up : bool;
}.
Arguments mkSite {T H} _ _ _ _ _ _.
Arguments machine {T H} _.
Arguments workers {T H} _.
Arguments actor {T H} _.
Arguments pool {T H} _.
Arguments serving {T H} _.
Arguments up {T H} _.

(** A connection [from_conn] of the pool of [from_site] that server [reader_at] has
    accepted, and how many of its bytes have been read. *)
Record Link := mkLink {
  reader_at : Z;
  from_site : Z;
  from_conn : nat;
  reader : ServerConnection;
  position : nat;
}.

Record Deployment (T H : Type) := mkDeployment {
  sites : gmap Z (Site T H);
  links : list Link;
}.
Arguments mkDeployment {T H} _ _.
Arguments sites {T H} _.
Arguments links {T H} _.

(** What can happen: a step of the executor, a call of the user, an accept, a read that
    completes or fails.  [peer] is what [remote_endpoint ()] gives when the handler of
    the accept runs. *)
Inductive Move :=
| Local (i : Z) (a : Action)
| Accept (i j : Z) (id : nat) (peer : result EndPoint)
| Arrive (l : nat)
| Break (l : nat) (ec : ErrorCode) (bytes : list Z).

Section deployment.
Context {T H : Type} `{HE : Env} `{HS : !TimerOps T H FsmCallable} `{!TimerService T H FsmCallable}.
Context (plat : Platform) (net : Z -> Network).
(** Whether the acceptor of a server can be opened. *)
Context (listens : Z -> bool).
Context (peers : gmap Z RemoteRaftActorAddress) (options : Z -> RaftFSMOptions) (fresh : T).

Local Abbreviation site := (Site T H).
Local Abbreviation deployment := (Deployment T H).
Local Abbreviation cluster := (Cluster T H RemoteRaftActorAddress).
Implicit Types (x : site) (d : deployment) (i j : Z).

Definition set_machine s th x : site := mkSite s th (actor x) (pool x) (serving x) (up x).
Definition set_actor a x : site := mkSite (machine x) (workers x) a (pool x) (serving x) (up x).
Definition set_pool p x : site := mkSite (machine x) (workers x) (actor x) p (serving x) (up x).
Definition set_serving b x : site := mkSite (machine x) (workers x) (actor x) (pool x) b (up x).
Definition crash x : site := mkSite (machine x) (workers x) (actor x) (pool x) (serving x) false.

Definition new_site i : site :=
  mkSite (new_RaftFSM fresh) no_threads (new_RemoteRaftActor (RemoteRaftActorOptions_of peers i)) new_ConnectionPool false true.

Definition new_deployment : deployment := mkDeployment (map_imap (fun i _ => Some (new_site i)) peers) [].

(** ** What a server does *)

(** The network layer: the client and the server of the process. *)
Definition request i (q : NetRequest) x : site * result unit :=
  match q with
  | ClientSend endpoint m =>
      let '(_, p, r) := @Client_send (net i) plat endpoint m (pool x) in (set_pool p x, r)
  | ServerStart _ => (set_serving true x, Ok tt)
  | ServerRestart => (x, Ok tt)
  | ServerStop => (set_serving false x, Ok tt)
  end.

Fixpoint requests i (qs : list NetRequest) x : site * result unit :=
  match qs with
  | [] => (x, Ok tt)
  | q :: qs => let '(x, r) := request i q x in match r with Ok _ => requests i qs x | Err f => (x, Err f) end
  end.

(** What the state machine asks of the actor. *)
Definition actor_call i (y : FsmEffect RemoteRaftActorAddress) : comp RemoteRaftActor NetRequest unit :=
  match y with
  | Send to e => RemoteRaftActor_send plat e to
  | StartActor => RemoteRaftActor_start (listens i)
  | StopActor => RemoteRaftActor_stop
  | Invoke _ => mret tt
  end.

Definition carry i (y : FsmEffect RemoteRaftActorAddress) x : site * result unit :=
  let '(qs, a, r) := actor_call i y (actor x) in
  let '(x, r') := requests i qs (set_actor a x) in
  (x, r ≫= fun _ => r').

Fixpoint carry_all i (ys : list (FsmEffect RemoteRaftActorAddress)) x : site * result unit :=
  match ys with
  | [] => (x, Ok tt)
  | y :: ys => let '(x, r) := carry i y x in match r with Ok _ => carry_all i ys x | Err f => (x, Err f) end
  end.

(** An action of the state machine with everything it sets off; an exception ends
    the process. *)
Definition perform_at i (a : Action) x : site :=
  let '(ys, s, r) := perform peers options fresh i (workers x) a (machine x) in
  let '(x, r') := carry_all i ys (set_machine s (advance peers i a (workers x)) x) in
  match r, r' with Ok _, Ok _ => x | _, _ => crash x end.

(** The callback of a server connection. *)
Definition deliver_at i (y : ConnectionEffect) x : site :=
  match y with
  | Node.Deliver m _ =>
      match on_message plat m with
      | Ok (Some e) => perform_at i (Cluster.Deliver e) x
      | Ok None => x
      | Err _ => crash x
      end
  | CloseSocket => x
  end.

(** ** Moves *)

Definition read_size (p : PendingRead) : nat := match p with ReadHeader => header_length | ReadBody n => n end.

Definition on_read (p : PendingRead) (r : ReadResult) : comp ServerConnection ConnectionEffect unit :=
  match p with ReadHeader => on_header plat r | ReadBody n => on_body n r end.

(** The pending read of a link ends with [r], and [n] more bytes are consumed. *)
Definition complete (l : nat) (k : Link) (p : PendingRead) (r : ReadResult) (n : nat) x d : deployment :=
  let '(ys, c, res) := on_read p r (reader k) in
  let x := foldl (fun x y => deliver_at (reader_at k) y x) x ys in
  let x := match res with Ok _ => x | Err _ => crash x end in
  mkDeployment (<[reader_at k := x]> (sites d))
    (<[l := mkLink (reader_at k) (from_site k) (from_conn k) c (position k + n)]> (links d)).

Definition move (m : Move) d : option deployment :=
  match m with
  | Local i a =>
      x ← sites d !! i;
      if up x && thread_enabled a (machine x) (workers x) then Some (mkDeployment (<[i := perform_at i a x]> (sites d)) (links d)) else None
  | Accept i j id peer =>
      x ← sites d !! i; y ← sites d !! j; to ← peers !! i; op ← server_ (actor x); c ← store (pool y) !! id;
      if up x && serving x && bool_decide (remote c = endpoint_ to) &&
         negb (existsb (fun k => (from_site k =? j) && (from_conn k =? id)%nat) (links d)) then
        match construct_ServerConnection peer op with
        | Ok conn =>
            let conn := (start_connection conn).1.2 in
            Some (mkDeployment (sites d) (links d ++ [mkLink i j id conn 0]))
        | Err _ => Some (mkDeployment (<[i := crash x]> (sites d)) (links d))
        end
      else None
  | Arrive l =>
      k ← links d !! l; x ← sites d !! reader_at k; y ← sites d !! from_site k;
      c ← store (pool y) !! from_conn k; p ← pending (reader k);
      let bytes := take (read_size p) (drop (position k) (written c)) in
      if up x && serving x && bool_decide (length bytes = read_size p)
      then Some (complete l k p (ReadDone bytes) (read_size p) x d) else None
  | Break l ec bytes =>
      k ← links d !! l; x ← sites d !! reader_at k; p ← pending (reader k);
      if up x && serving x then Some (complete l k p (ReadFailed ec bytes) 0 x d) else None
  end.

(** The earlier deployments, the latest first, and the present one. *)
Inductive deployed : list deployment -> deployment -> Prop :=
| deployed_start : deployed [] new_deployment
| deployed_step earlier d m d' : deployed earlier d -> move m d = Some d' -> deployed (d :: earlier) d'.

(** The moves one after the other, with the deployments on the way. *)
Fixpoint move_all (ms : list Move) (earlier : list deployment) d : option (list deployment * deployment) :=
  match ms with
  | [] => Some (earlier, d)
  | m :: ms => d' ← move m d; move_all ms (d :: earlier) d'
  end.

Lemma move_all_deployed ms earlier d earlier' d' : deployed earlier d -> move_all ms earlier d = Some (earlier', d') ->
  deployed earlier' d' /\ length earlier' = (length earlier + length ms)%nat.
Proof.
  revert earlier d. induction ms as [|m ms IH]; intros earlier d Hd Hall.
  - injection Hall as <- <-. split; [done|cbn; lia].
  - cbn [move_all] in Hall. destruct (move m d) as [d1|] eqn:Hm; [|done]. cbn [mbind option_bind] in Hall.
    destruct (IH (d :: earlier) d1) as [Hd' Hlen]; [by eapply deployed_step|done|].
    split; [done|]. cbn in *. lia.
Qed.

(** A process that runs and leads. *)
Definition leads_at d i (t : Z) : Prop :=
  exists x, sites d !! i = Some x /\ up x = true /\ role_ (machine x) = leader /\ term_ (machine x) = t.

End deployment.

(** ** Frames on the way *)

Section frames.
Context (plat : Platform).

(** The messages of the state machine are short. *)
Definition fits (m : Message) : Prop := (length (data m) <= 19)%nat.

Definition header (m : Message) : list Z := htoa plat U32 (wrap 32 (Z.of_nat (length (data m)))).

Lemma length_header m : length (header m) = header_length.
Proof. apply length_htoa. Qed.

Lemma frame_header m : frame plat m = header m ++ data m.
Proof. apply frame_split. Qed.

Lemma header_value m : fits m -> Z.to_nat (atoh plat U32 (header m)) = length (data m).
Proof.
  unfold fits, header. intros Hm. assert (in_range 32 (Z.of_nat (length (data m)))) as Hr by (unfold in_range; lia).
  rewrite wrap_small, atoh_htoa; [lia|exact Hr| |exact Hr].
  apply wire_safe_small; [|exact Hr]. destruct (plat_big_endian plat); lia.
Qed.

(** Whole frames at the beginning of a stream can be read in one way. *)
Lemma frames_unique ms ms0 last k rest :
  Forall fits ms -> Forall fits ms0 -> fits last -> (k < length (frame plat last))%nat ->
  (ms ≫= frame plat) ++ rest = (ms0 ≫= frame plat) ++ take k (frame plat last) ->
  exists ms1, ms0 = ms ++ ms1 /\ rest = (ms1 ≫= frame plat) ++ take k (frame plat last).
Proof.
  intros Hms Hms0 Hlast Hk. revert ms0 Hms0. induction Hms as [|m ms Hm _ IH]; intros ms0 Hms0 Heq; [by exists ms0|].
  cbn [mbind list_bind] in Heq. rewrite frame_header, <- !(assoc_L (++)) in Heq.
  destruct Hms0 as [|m0 ms0 Hm0 Hms0]; cbn [mbind list_bind app] in Heq.
  - assert (header m = header last) as Hh.
    { apply (f_equal (take header_length)) in Heq. rewrite (take_app_length' _ _ _ (eq_sym (length_header m))) in Heq.
      rewrite take_take, Nat.min_l in Heq.
      - by rewrite frame_header, (take_app_length' _ _ _ (eq_sym (length_header last))) in Heq.
      - apply (f_equal length) in Heq. rewrite length_header, length_take in Heq. lia. }
    apply (f_equal length) in Heq. rewrite !length_app, length_take, !length_header in Heq.
    pose proof (header_value m Hm) as Hv. rewrite Hh, header_value in Hv by done.
    rewrite length_frame in *. lia.
  - rewrite frame_header, <- !(assoc_L (++)) in Heq. apply app_inj_1 in Heq as [Hh Heq]; [|by rewrite !length_header].
    assert (length (data m) = length (data m0)) as Hlen by (pose proof (header_value m Hm); pose proof (header_value m0 Hm0); congruence).
    apply app_inj_1 in Heq as [Hd Heq]; [|done]. destruct (IH ms0 Hms0 Heq) as (ms1 & -> & ->).
    exists ms1. destruct m, m0. cbn in Hd. by subst.
Qed.

(** The connection of a server as it reads the bytes [w], after [pos] of them. *)
Definition reading (w : list Z) (rd : ServerConnection) (pos : nat) : Prop :=
  match pending rd with
  | None => True
  | Some p =>
      length (header_ rd) = header_length /\ (19 <= length (body_ rd))%nat /\ (pos <= length w)%nat /\
      exists ms, Forall fits ms /\
        match p with
        | ReadHeader => take pos w = ms ≫= frame plat
        | ReadBody n => exists m, fits m /\ n = length (data m) /\ take pos w = (ms ≫= frame plat) ++ header m
        end
  end.

Lemma reading_more w w' rd pos : w `prefix_of` w' -> reading w rd pos -> reading w' rd pos.
Proof.
  intros [w1 ->]. unfold reading. destruct (pending rd) as [p|]; [|done]. intros (Hh & Hb & Hpos & Hms).
  split; [done|]. split; [done|]. split; [rewrite length_app; lia|]. by rewrite take_app_le.
Qed.

Lemma on_header_done rd bytes : length bytes = header_length -> length (header_ rd) = header_length ->
  let n := Z.to_nat (atoh plat U32 bytes) in (n <= length (body_ rd))%nat ->
  on_header plat (ReadDone bytes) rd = ([], mkConnection (sender_ rd) bytes (body_ rd) (Some (ReadBody n)), Ok tt).
Proof.
  intros Hlen Hh n Hn. unfold on_header. run. unfold read_body. run. cbn [header_ body_].
  rewrite fill_all by congruence. rewrite bool_decide_eq_false_2 by lia. by run.
Qed.

Lemma on_body_done rd bytes n : length bytes = n -> (n <= length (body_ rd))%nat ->
  on_body n (ReadDone bytes) rd
  = ([Node.Deliver (mkMessage bytes) (sender_ rd)],
     mkConnection (sender_ rd) (header_ rd) (fill (body_ rd) bytes) (Some ReadHeader), Ok tt).
Proof.
  intros <- Hn. unfold on_body. run. cbn [body_].
  assert (take (length bytes) (fill (body_ rd) bytes) = bytes) as -> by apply take_app_length.
  rewrite std_move_fresh by done. run. unfold read_header. by run.
Qed.

Lemma on_read_failed p ec bytes rd : exists rd',
  on_read plat p (ReadFailed ec bytes) rd = ([CloseSocket], rd', Ok tt) /\ pending rd' = None.
Proof.
  destruct p; cbn [on_read]; unfold on_header, on_body; run; unfold close; run; eexists; split; done || by run.
Qed.

(** Bytes [w] that are the frames of [ms0] and a part of one more. *)
Definition framed (w : list Z) (ms0 : list Message) (last : Message) (k : nat) : Prop :=
  Forall fits ms0 /\ fits last /\ (k < length (frame plat last))%nat /\ w = (ms0 ≫= frame plat) ++ take k (frame plat last).

Lemma taken_split {A} (w : list A) pos n : (pos <= length w)%nat -> length (take n (drop pos w)) = n ->
  exists rest, w = take pos w ++ take n (drop pos w) ++ rest /\ take (pos + n) w = take pos w ++ take n (drop pos w) /\
    (pos + n <= length w)%nat.
Proof.
  intros Hpos Hlen. exists (drop n (drop pos w)). split; [by rewrite !take_drop|]. split.
  - rewrite <- (take_drop pos w) at 1. rewrite take_app, take_take, length_take. f_equal; [|f_equal; lia]. f_equal; lia.
  - rewrite length_take, length_drop in Hlen. lia.
Qed.

Lemma header_arrives w ms0 last k rd pos bytes : framed w ms0 last k -> reading w rd pos -> pending rd = Some ReadHeader ->
  bytes = take header_length (drop pos w) -> length bytes = header_length ->
  exists rd', on_header plat (ReadDone bytes) rd = ([], rd', Ok tt) /\ reading w rd' (pos + header_length).
Proof.
  intros (Hms0 & Hlast & Hk & Hw) Hrd Hp -> Hlen. unfold reading in Hrd. rewrite Hp in Hrd.
  destruct Hrd as (Hh & Hb & Hpos & ms & Hms & Htake).
  destruct (taken_split w pos header_length Hpos Hlen) as (rest & Hsplit & Hnext & Hle).
  set (bytes := take header_length (drop pos w)) in *. clearbody bytes. rewrite Htake in Hsplit.
  rewrite Hw in Hsplit at 1. symmetry in Hsplit.
  destruct (frames_unique ms ms0 last k _ Hms Hms0 Hlast Hk Hsplit) as (ms1 & -> & Hrest).
  assert (exists m, fits m /\ bytes = header m) as (m & Hm & Hbytes).
  { apply (f_equal (take header_length)) in Hrest. rewrite take_app_length' in Hrest by done.
    apply Forall_app in Hms0 as [_ Hms1]. destruct Hms1 as [|m ms1 Hm _].
    - exists last. split; [done|]. rewrite Hrest. cbn. rewrite take_take, Nat.min_l.
      + by rewrite frame_header, (take_app_length' _ _ _ (eq_sym (length_header last))).
      + apply (f_equal length) in Hrest. rewrite Hlen in Hrest. cbn [mbind list_bind app] in Hrest. rewrite !length_take in Hrest. unfold header_length in *. lia.
    - exists m. split; [done|]. rewrite Hrest. cbn [mbind list_bind]. rewrite frame_header, <- !(assoc_L (++)).
      by rewrite (take_app_length' _ _ _ (eq_sym (length_header m))). }
  eexists. split; [apply on_header_done; [done..|]; rewrite Hbytes, header_value by done; unfold fits in Hm; lia|].
  unfold reading. cbn. split; [done|]. split; [done|]. split; [done|]. exists ms. split; [done|]. exists m.
  rewrite Hbytes, header_value by done. split; [done|]. split; [done|]. by rewrite Hnext, Htake, <- Hbytes.
Qed.

Lemma body_arrives w ms0 last k rd pos n bytes : framed w ms0 last k -> reading w rd pos -> pending rd = Some (ReadBody n) ->
  bytes = take n (drop pos w) -> length bytes = n ->
  exists rd', on_body n (ReadDone bytes) rd = ([Node.Deliver (mkMessage bytes) (sender_ rd)], rd', Ok tt) /\
    reading w rd' (pos + n) /\ mkMessage bytes ∈ ms0.
Proof.
  intros (Hms0 & Hlast & Hk & Hw) Hrd Hp -> Hlen. unfold reading in Hrd. rewrite Hp in Hrd.
  destruct Hrd as (Hh & Hb & Hpos & ms & Hms & m & Hm & -> & Htake).
  destruct (taken_split w pos (length (data m)) Hpos Hlen) as (rest & Hsplit & Hnext & Hle).
  set (bytes := take (length (data m)) (drop pos w)) in *. clearbody bytes. rewrite Htake in Hsplit, Hnext.
  assert (frame plat (mkMessage bytes) = header m ++ bytes) as Hframe.
  { rewrite frame_header. unfold header. cbn [data]. by rewrite Hlen. }
  assert (((ms ++ [mkMessage bytes]) ≫= frame plat) = (ms ≫= frame plat) ++ header m ++ bytes) as Hmsb
    by (rewrite bind_app; cbn; by rewrite app_nil_r, Hframe).
  assert (Forall fits (ms ++ [mkMessage bytes])) as Hfits.
  { apply Forall_app. split; [done|]. apply Forall_singleton. unfold fits in *. cbn. lia. }
  eexists. split; [by apply on_body_done; unfold fits in Hm; [|lia]|]. split.
  - unfold reading. cbn. split; [done|]. split; [rewrite fill_length; unfold fits in Hm; lia|]. split; [done|].
    eexists. split; [exact Hfits|]. by rewrite Hmsb, Hnext, <- (assoc_L (++)).
  - rewrite Hw, !(assoc_L (++)), <- (assoc_L (++) _ (header m)), <- Hmsb in Hsplit. symmetry in Hsplit.
    destruct (frames_unique _ ms0 last k _ Hfits Hms0 Hlast Hk Hsplit) as (ms1 & -> & _).
    apply elem_of_app. left. apply elem_of_app. right. by left.
Qed.

End frames.
