(* ===== verification/DeploymentRefinement.v ===== *)
(** * A deployed group refines the group of Cluster.v

    The simulation: a relation between a deployment and a cluster, kept by every
    move, each of which is one action of the cluster or none.  A connection carries
    frames of events the cluster knows to be sent, what a server has read of it ends
    between two frames or after a header, and a server that listens was started. *)
From S2P Require Import Prelude Utils Timers NetworkUtil Protocol NodeCommon Node ConnectionPool Scheduler RaftActor Fsm.
From S2P Require Import ElectionSpec ElectionFacts FsmRefinement Cluster Wire EndToEnd Deployment.
Local Open Scope Z_scope.

Section refinement.
Context {T H : Type} `{HE : Env, !EnvOk HE} `{HS : !TimerOps T H FsmCallable} `{!TimerService T H FsmCallable}.
Context (plat : Platform) (net : Z -> Network) (listens : Z -> bool) `{Hnet : !forall i, NetworkOk (net i)}.
Context (peers : gmap Z RemoteRaftActorAddress) (options : Z -> RaftFSMOptions) (fresh : T).
Context (Hopt : forall i, options_ok (options i)) (Hfresh : ts_wf fresh).
Context (Hinj : forall i j to, peers !! i = Some to -> peers !! j = Some to -> i = j).

Local Abbreviation site := (Site T H).
Local Abbreviation deployment := (Deployment T H).
Local Abbreviation cluster := (Cluster T H RemoteRaftActorAddress).
Implicit Types (x y : site) (d : deployment) (c : cluster) (i j : Z) (S : list (RemoteRaftActorAddress * RaftEvent)).

(** ** The relation *)

(** The connections of a server carry what it was asked to send. *)
Definition pool_carries S (p : ConnectionPool) : Prop :=
  exists msgs, pool_ok plat msgs p /\
    forall ep m, (ep, m) ∈ msgs -> exists e, (mkRemoteAddress ep, e) ∈ S /\ m = message_of plat e.

Record site_ok i S x : Prop := {
  so_options : op_ (actor x) = RemoteRaftActorOptions_of peers i;
  so_server op : server_ (actor x) = Some op -> in_buf_size op = 1024%nat;
  so_carries : pool_carries S (pool x);
}.

(** A server that runs is the one of the cluster, and listens once it was started. *)
Record running_ok i c x : Prop := {
  ro_machine : servers c !! i = Some (machine x);
  ro_workers : threads_of c i = workers x;
  ro_started : server_ (actor x) <> None -> started (view (machine x));
  ro_unopened : server_ (actor x) = None -> unopened (view (machine x)) (workers x);
  ro_client : server_ (actor x) <> None -> client_ (actor x) = true;
}.

Record link_ok d (k : Link) : Prop := {
  lk_reader : exists x to, sites d !! reader_at k = Some x /\ server_ (actor x) <> None /\ peers !! reader_at k = Some to /\
    exists y cn, sites d !! from_site k = Some y /\ store (pool y) !! from_conn k = Some cn /\
      remote cn = endpoint_ to /\ reading plat (written cn) (reader k) (position k);
}.

Record simulates d c : Prop := {
  sim_site i x : sites d !! i = Some x -> is_Some (peers !! i) /\ site_ok i (sent c) x /\ (up x = true -> running_ok i c x);
  sim_link l k : links d !! l = Some k -> link_ok d k;
}.

(** ** What a server does *)

Lemma pool_carries_more S S' p : S ⊆ S' -> pool_carries S p -> pool_carries S' p.
Proof.
  intros Hsub (msgs & Hok & Hmsgs). exists msgs. split; [done|]. intros ep m Hin.
  destruct (Hmsgs ep m Hin) as (e & He & ->). exists e. split; [by apply Hsub|done].
Qed.

Lemma site_ok_more i S S' x : S ⊆ S' -> site_ok i S x -> site_ok i S' x.
Proof. intros Hsub [Hop Hsrv Hpool]. split; [done..|by eapply pool_carries_more]. Qed.

(** No effect of the list throws in a server that listens, and in another none that
    asks for the server or the client. *)
Definition works i : Prop := listens i = true /\ forall k ep, @dial (net i) k ep <> ResolveThrows.

Definition ready (ys : list (FsmEffect RemoteRaftActorAddress)) x : Prop :=
  (server_ (actor x) <> None /\ client_ (actor x) = true) \/ (silent ys /\ StopActor ∉ ys).

(** The part of a site that the state machine does not see: [x'] after [ys] in [x]. *)
Record carried i S (ys : list (FsmEffect RemoteRaftActorAddress)) x x' (r : result unit) : Prop := {
  ca_ok : site_ok i S x';
  ca_machine : machine x' = machine x;
  ca_workers : workers x' = workers x;
  ca_up : up x' = up x;
  ca_grows : grows (pool x) (pool x');
  ca_server : server_ (actor x) <> None -> server_ (actor x') <> None;
  ca_started : server_ (actor x') <> None -> server_ (actor x) <> None \/ StartActor ∈ ys;
  ca_client : (server_ (actor x) <> None -> client_ (actor x) = true) -> server_ (actor x') <> None -> client_ (actor x') = true;
  ca_result : works i -> ready ys x -> r = Ok tt;
}.

Lemma carried_same i S ys x r : site_ok i S x -> (ready ys x -> r = Ok tt) -> carried i S ys x x r.
Proof. intros Hok Hr. split; auto. done. Qed.

Lemma ready_send to e x : ready [Send to e] x -> client_ (actor x) = true.
Proof. intros [[_ ?]|[Hs _]]; [done|]. destruct (Hs to e). by left. Qed.

Lemma ready_stop x : ready [StopActor] x -> server_ (actor x) <> None.
Proof. intros [[? _]|[_ Hs]]; [done|]. destruct Hs. by left. Qed.

Lemma set_same x a : a = actor x -> set_actor a x = x.
Proof. intros ->. by destruct x. Qed.

Lemma send_carried i S to e x : site_ok i S x -> (to, e) ∈ S -> exists x' r, carry plat net listens i (Send to e) x = (x', r) /\
  carried i S [Send to e] x x' r.
Proof.
  intros Hsite Hin. pose proof Hsite as [Hop Hsrv (msgs & Hok & Hmsgs)]. unfold carry. cbn [actor_call]. unfold RemoteRaftActor_send.
  rewrite run_get, encode_wire. run. destruct (client_ (actor x)) eqn:Hcl.
  - unfold emit. cbn [requests request pool set_actor].
    destruct (@Client_send_keeps (net i) plat (Hnet i) msgs (endpoint_ to) (message_of plat e) (pool x) Hok)
      as (es & p' & r & Hrun & Hok' & Hgr & Hres).
    unfold message_of in Hrun. rewrite Hrun. rewrite set_same by done.
    assert (site_ok i S (set_pool p' x)) as Hsite'.
    { split; cbn; [done..|]. eexists. split; [exact Hok'|].
      intros ep m [Hin'|[= -> ->]%list_elem_of_singleton]%elem_of_app; [by apply Hmsgs|]. exists e. split; [by destruct to|done]. }
    exists (set_pool p' x), r. split; [by destruct r as [[]|f]|]. split; cbn; auto; try done.
    intros Hno _. destruct Hres as [?|[k Hk]]; [done|]. by destruct (proj2 Hno _ _ Hk).
  - cbn. rewrite set_same by done. eexists _, _. split; [reflexivity|].
    apply carried_same; [done|]. intros Hr%ready_send. congruence.
Qed.

Lemma start_carried i S x : is_Some (peers !! i) -> site_ok i S x ->
  exists x' r, carry plat net listens i StartActor x = (x', r) /\ carried i S [StartActor] x x' r.
Proof.
  intros [to Hto] Hok. pose proof Hok as [Hop Hsrv Hpool]. unfold carry. cbn [actor_call]. unfold RemoteRaftActor_start. rewrite run_get.
  destruct (server_ (actor x)) as [op|] eqn:Hs.
  - unfold emit. cbn. rewrite set_same by done. eexists _, _. split; [reflexivity|]. apply carried_same; done.
  - unfold get_port, get_options. rewrite Hop. cbn. rewrite Hto. cbn. destruct (listens i) eqn:Hl; cbn.
    2: { unfold mbind, comp_bind, lift, fail_with. cbn. rewrite set_same by done. eexists _, _. split; [reflexivity|].
      split; auto; try done. intros [Hl' _]. congruence. }
    eexists _, _. split; [reflexivity|].
    split; cbn; try done; [|intros _; right; by left].
    split; cbn; [by rewrite Hop| |done]. by intros op [= <-].
Qed.

Lemma stop_carried i S x : site_ok i S x -> exists x' r, carry plat net listens i StopActor x = (x', r) /\ carried i S [StopActor] x x' r.
Proof.
  intros Hok. unfold carry. cbn [actor_call]. unfold RemoteRaftActor_stop. rewrite run_get.
  destruct (server_ (actor x)) as [op|] eqn:Hs; cbn.
  - eexists _, _. split; [reflexivity|]. split; cbn; auto; [|done].
    destruct Hok as [Hop Hsrv Hpool]. by split.
  - rewrite run_lift_err. cbn. rewrite set_same by done. eexists _, _. split; [reflexivity|]. apply carried_same; [done|].
    intros Hr%ready_stop. by destruct Hr.
Qed.

Lemma carry_carried i S (z : FsmEffect RemoteRaftActorAddress) x : is_Some (peers !! i) -> site_ok i S x ->
  (forall to e, z = Send to e -> (to, e) ∈ S) -> exists x' r, carry plat net listens i z x = (x', r) /\ carried i S [z] x x' r.
Proof.
  intros Hpeer Hok Hsend. destruct z as [to e| | |cb].
  - apply send_carried; [done|by apply Hsend].
  - by apply start_carried.
  - by apply stop_carried.
  - unfold carry. cbn. rewrite set_same by done. eexists _, _. split; [reflexivity|].
    apply carried_same; done.
Qed.

(** After a first effect that was carried out the others are still ready. *)
Lemma ready_next i S z ys x x' r : carried i S [z] x x' r -> (server_ (actor x) <> None -> client_ (actor x) = true) ->
  ready (z :: ys) x -> ready [z] x /\ ready ys x'.
Proof.
  intros Hca Hcl [[Hs _]|[Hs Hst]].
  - split; left; [by auto|]. split; [by apply (ca_server _ _ _ _ _ _ Hca)|].
    apply (ca_client _ _ _ _ _ _ Hca); [done|by apply (ca_server _ _ _ _ _ _ Hca)].
  - split; right; split.
    + intros to e <-%list_elem_of_singleton. apply (Hs to e). by left.
    + intros <-%list_elem_of_singleton. apply Hst. by left.
    + intros to e Hin. apply (Hs to e). by right.
    + intros Hin. apply Hst. by right.
Qed.

Lemma carry_all_carried i S ys x : is_Some (peers !! i) -> site_ok i S x -> (forall to e, Send to e ∈ ys -> (to, e) ∈ S) ->
  (server_ (actor x) <> None -> client_ (actor x) = true) ->
  exists x' r, carry_all plat net listens i ys x = (x', r) /\ carried i S ys x x' r.
Proof.
  intros Hpeer. revert x. induction ys as [|z ys IH]; intros x Hok Hsend Hcl.
  - exists x, (Ok tt). split; [done|]. by apply carried_same.
  - cbn [carry_all]. destruct (carry_carried i S z x Hpeer Hok) as (x1 & r1 & -> & Hca).
    { intros to e ->. apply Hsend. by left. }
    pose proof (ready_next i S z ys x x1 r1 Hca Hcl) as Hnext. destruct Hca as [Hok1 Hm1 Hw1 Hu1 Hg1 Hs1 Hst1 Hc1 Hr1].
    assert (server_ (actor x1) <> None -> server_ (actor x) <> None \/ StartActor ∈ z :: ys) as Hst.
    { intros Hsrv. destruct (Hst1 Hsrv) as [?| ->%list_elem_of_singleton]; [by left|right; by left]. }
    destruct r1 as [[]|f].
    + destruct (IH x1 Hok1) as (x2 & r2 & -> & [Hok2 Hm2 Hw2 Hu2 Hg2 Hs2 Hst2 Hc2 Hr2]); [|by auto|].
      { intros to e Hin. apply Hsend. by right. }
      exists x2, r2. split; [done|]. split; [done|congruence|congruence|congruence|by etrans|auto|..].
      * intros Hsrv. destruct (Hst2 Hsrv) as [Hsrv1|Hin]; [by apply Hst|right; by right].
      * auto.
      * intros Hno Hrdy. apply Hr2; [done|]. by apply Hnext.
    + exists x1, (Err f). split; [done|]. split; try done. intros Hno Hrdy. apply Hr1; [done|]. by apply Hnext.
Qed.

(** ** One action of a server *)

(** The user calls [stop] after [start], and no timeout is handled before [start]
    has made the client. *)
Definition polite (a : Action) x : Prop := a = Call CallStop \/ a = Expire -> server_ (actor x) <> None.

(** What the action [a] of server [i] does to the relation. *)
Record acted i a c c' x x' : Prop := {
  ac_site : site_ok i (sent c') x';
  ac_machine : servers c' !! i = Some (machine x');
  ac_running : up x' = true -> running_ok i c' x';
  ac_grows : grows (pool x) (pool x');
  ac_server : server_ (actor x) <> None -> server_ (actor x') <> None;
  ac_up : works i -> polite a x -> up x = true -> up x' = true;
  ac_sent : sent c ⊆ sent c';
  ac_others j : j <> i -> servers c' !! j = servers c !! j /\ threads_of c' j = threads_of c j;
}.

Lemma perform_acted earlier c i a x :
  execution peers options fresh earlier c -> Z.of_nat (length earlier) < uint64_max -> a <> Restart ->
  is_Some (peers !! i) -> site_ok i (sent c) x -> running_ok i c x -> enabled peers i a (machine x) c = true ->
  (forall e, a = Cluster.Deliver e -> server_ (actor x) <> None) ->
  exists c', act peers options fresh i a c = Some (Ok c') /\ acted i a c c' x (perform_at plat net listens peers options fresh i a x).
Proof.
  intros Hex Hb Ha Hpeer Hok [Hm Hth Hst Hun Hcl] Hen Hdel.
  assert (inv peers earlier c) as Hinv by (eapply execution_inv; [done..|lia]).
  pose proof (inv_server _ _ _ Hinv i _ Hm) as Hserver.
  destruct (perform_evolution peers options fresh Hopt _ i a (machine x) c Hserver (inv_threads _ _ _ Hinv i _ Hm) Hb Ha Hen)
    as (o & Hpf).
  { by apply (inv_trigger peers earlier c i a (machine x)). }
  pose proof (pf_started _ _ _ _ _ _ _ _ Hpf) as Hstart.
  assert (server_ (actor x) = None -> unopened o.2 (advance peers i a (workers x)) /\
    (a <> Expire -> silent o.1 /\ (StopActor ∈ o.1 -> a = Call CallStop))) as Hsleep.
  { intros Hnone. rewrite <- Hth. apply (perform_unopened peers options fresh Hopt _ i a (machine x) c o Hserver); try done.
    - rewrite Hth. by apply Hun.
    - intros e He. by apply (Hdel e He). }
  destruct (pf_runs _ _ _ _ _ _ _ _ Hpf) as (s' & Hrun & Hv & Hwf).
  set (c' := group_after peers i a s' o.1 c).
  exists c'. split.
  { unfold act. rewrite Hm. cbn [mbind option_bind]. rewrite Hen, Hrun. done. }
  unfold perform_at. rewrite <- Hth, Hrun, Hth.
  assert (sent c ⊆ sent c') as Hsub by (intros z Hz; apply elem_of_app; by right).
  destruct (carry_all_carried i (sent c') o.1 (set_machine s' (advance peers i a (workers x)) x) Hpeer)
    as (x' & r' & -> & [Cok Cm Cw Cu Cg Cs Cst Cc Cr]).
  { apply (site_ok_more i (sent c)); [done|]. by destruct Hok. }
  { intros to e Hin. apply elem_of_app. left. unfold Cluster.sends. apply list_elem_of_omap. by exists (Send to e). }
  { done. }
  cbn [machine workers set_machine] in Cm, Cw.
  assert (servers c' !! i = Some (machine x')) as Hmachine by (rewrite Cm; apply lookup_insert_eq).
  assert (forall j, j <> i -> servers c' !! j = servers c !! j /\ threads_of c' j = threads_of c j) as Hothers.
  { intros j Hj. split; [by apply lookup_insert_ne|]. unfold threads_of, c'. cbn. by rewrite lookup_insert_ne. }
  assert (works i -> polite a x -> r' = Ok tt) as Hfine.
  { intros Hno Hpol. apply Cr; [done|]. destruct (server_ (actor x)) as [op|] eqn:Hs.
    - left. cbn. rewrite Hs. split; [done|by apply Hcl].
    - right. assert (a <> Expire) as Hexp by (intros ->; by apply Hpol; [right|]).
      destruct (Hsleep eq_refl) as (_ & Hq). destruct (Hq Hexp) as [? Hstop]. split; [done|].
      intros Hin. apply Hpol; [left; by apply Hstop|done]. }
  destruct r' as [[]|f]; split; try done.
  - intros _. split; [done|by rewrite Cw; unfold threads_of, c'; cbn; rewrite lookup_insert_eq, <- Hth|..|by apply Cc]; rewrite Cm.
    + intros Hsrv. rewrite Hv. apply Hstart. destruct (Cst Hsrv) as [Hold|?]; [left; by apply Hst|by right].
    + intros Hnone. rewrite Cw, Hv. apply Hsleep. destruct (server_ (actor x)) eqn:Hs; [|done].
      destruct Cs; [cbn; by rewrite Hs|done].
  - by rewrite Cu.
  - by destruct Cok.
  - intros Hno Hpol _. by specialize (Hfine Hno Hpol).
Qed.

(** ** The relation after an action and after a read *)

Lemma simulates_acted d c c' i a x x' : simulates d c -> sites d !! i = Some x -> acted i a c c' x x' ->
  simulates (mkDeployment (<[i := x']> (sites d)) (links d)) c'.
Proof.
  intros [Hsites Hlinks] Hx [Aok _ Arun Agrow Asrv _ Asent Aother]. split; cbn [sites links].
  - intros j y [[<- <-]|[Hne Hy]]%lookup_insert_Some.
    + destruct (Hsites i x Hx) as (Hp & _ & _). by split.
    + destruct (Hsites j y Hy) as (Hp & Hok & Hrun). split; [done|]. split; [by apply (site_ok_more j (sent c))|].
      intros Hup. destruct (Hrun Hup) as [Hm Hth Hst]. destruct (Aother j) as [Hs Ht]; [done|].
      split; [by rewrite Hs|by rewrite Ht|done..].
  - intros l k Hk. destruct (Hlinks l k Hk) as [(r & to & Hr & Hsrv & Hto & y & cn & Hy & Hcn & Hrem & Hread)]. split.
    assert (exists r', <[i := x']> (sites d) !! reader_at k = Some r' /\ server_ (actor r') <> None) as (r' & Hr' & Hsrv').
    { destruct (decide (reader_at k = i)) as [Heq|Hne].
      - exists x'. rewrite Heq, lookup_insert_eq. split; [done|]. apply Asrv. rewrite Heq in Hr. congruence.
      - exists r. by rewrite lookup_insert_ne. }
    assert (exists y' cn', <[i := x']> (sites d) !! from_site k = Some y' /\ store (pool y') !! from_conn k = Some cn' /\
      remote cn' = remote cn /\ written cn `prefix_of` written cn') as (y' & cn' & Hy' & Hcn' & Hrem' & Hw).
    { destruct (decide (from_site k = i)) as [Heq|Hne].
      - assert (y = x) as -> by (rewrite Heq in Hy; congruence). destruct (Agrow _ _ Hcn) as (cn' & ? & ? & ?).
        exists x', cn'. by rewrite Heq, lookup_insert_eq.
      - exists y, cn. by rewrite lookup_insert_ne. }
    exists r', to. split; [exact Hr'|]. split; [done|]. split; [done|]. exists y', cn'. split; [exact Hy'|]. split; [done|].
    split; [congruence|]. by apply (reading_more plat (written cn)).
Qed.

Lemma simulates_link d c l k : simulates d c -> link_ok d k -> simulates (mkDeployment (sites d) (<[l := k]> (links d))) c.
Proof.
  intros [Hsites Hlinks] Hk. split; [done|]. cbn [links]. intros l' k' Hk'. destruct (decide (l' = l)) as [->|Hne].
  - apply list_lookup_insert_Some in Hk' as [(_ & <- & _)|(Hne & _)]; [|done]. destruct Hk as [Hk]. by split.
  - rewrite list_lookup_insert_ne in Hk' by done. destruct (Hlinks l' k' Hk') as [Hk'']. by split.
Qed.

(** ** The bytes of a connection *)

Lemma message_of_fits e : fits (message_of plat e).
Proof. apply message_of_length. Qed.

Lemma carried_framed S p id cn : pool_carries S p -> store p !! id = Some cn ->
  exists ms last k, framed plat (written cn) ms last k /\
    forall m, m ∈ ms -> exists e, (mkRemoteAddress (remote cn), e) ∈ S /\ m = message_of plat e.
Proof.
  intros (msgs & Hok & Hmsgs) Hcn. destruct (po_conn _ _ _ Hok id cn Hcn) as (ms & last & k & [Cw Ck _ Cs Cl]).
  assert (forall m, m ∈ messages_to (remote cn) msgs -> exists e, (mkRemoteAddress (remote cn), e) ∈ S /\ m = message_of plat e) as Hto.
  { intros m ([ep m'] & Hin & Heq)%list_elem_of_omap. cbn in Heq. case_bool_decide as Hep; [|done]. injection Heq as ->. subst ep.
    by apply Hmsgs. }
  assert (forall m, m ∈ ms -> exists e, (mkRemoteAddress (remote cn), e) ∈ S /\ m = message_of plat e) as Hms.
  { intros m Hm. apply Hto. by apply (elem_of_sublist ms). }
  assert (Forall fits ms) as Hfits.
  { apply Forall_forall. intros m Hm. destruct (Hms m Hm) as (e & _ & ->). apply message_of_fits. }
  destruct (decide (k = 0%nat)) as [->|Hk].
  - exists ms, (mkMessage []), 0%nat. split; [|done]. split; [done|]. split; [unfold fits; cbn; lia|]. split; [apply frame_pos|].
    by rewrite Cw, !take_0.
  - exists ms, last, k. split; [|done]. split; [done|]. split; [|done].
    destruct (Hto last) as (e & _ & ->); [|apply message_of_fits].
    apply (elem_of_sublist (ms ++ [last])); [apply elem_of_app; right; by left|by apply Cl].
Qed.

(** ** Every move *)

Context (Hids : forall i, is_Some (peers !! i) -> in_range 64 i /\ wire_safe plat U64 i = true).

(** The terms the servers had at the moments [ds] survive the wire. *)
Definition terms_survive (ds : list deployment) : Prop :=
  forall d k x, d ∈ ds -> sites d !! k = Some x -> wire_safe plat U64 (term_ (machine x)) = true.

(** The servers of the abstract group had no other terms than those of the deployed. *)
Definition terms_seen (ds : list deployment) (cs : list cluster) : Prop :=
  forall c k s, c ∈ cs -> servers c !! k = Some s ->
    exists d x, d ∈ ds /\ sites d !! k = Some x /\ term_ (machine x) = term_ s.

Lemma sent_safe ds earlier c to e : inv peers earlier c -> Z.of_nat (length earlier) < uint64_max ->
  terms_survive ds -> terms_seen ds (c :: earlier) -> (to, e) ∈ sent c -> event_safe plat e.
Proof.
  intros Hinv Hb Hterms Hseen Hin. destruct (inv_sent _ _ _ Hinv to e Hin) as [Hfrom Hterm (c0 & s & Hc0 & Hs & Ht) _ Hnet'].
  destruct (Hids _ Hfrom) as [Hr Hsafe]. split; [done|]. split; [done|]. split; [unfold in_range; lia|]. split; [done|].
  destruct (Hseen c0 _ s Hc0 Hs) as (d & x & Hd & Hx & Hx'). rewrite <- Ht, <- Hx'. by eapply Hterms.
Qed.

(** [d'] has the processes of [d] that run. *)
Definition keeps d d' : Prop := forall i x x', sites d !! i = Some x -> up x = true -> sites d' !! i = Some x' -> up x' = true.

Lemma keeps_insert d i x' ls : (forall x, sites d !! i = Some x -> up x = true -> up x' = true) ->
  keeps d (mkDeployment (<[i := x']> (sites d)) ls).
Proof.
  intros Hi j y y' Hy Hup Hy'. cbn [sites] in Hy'.
  apply lookup_insert_Some in Hy' as [[<- <-]|[_ Hy']]; [by eapply Hi|congruence].
Qed.

Lemma keeps_same d d' : sites d' = sites d -> keeps d d'.
Proof. intros Heq i x x' Hx Hup Hx'. congruence. Qed.

(** The resolver does not throw, the acceptors can be opened, the user calls [stop]
    after [start], no timeout is handled while [start] has not made the client, and
    the peer of a connection can be named when the handler of its accept runs. *)
Definition calm (m : Move) d : Prop :=
  (forall i, works i) /\
    match m with
    | Local i a => forall x, sites d !! i = Some x -> polite a x
    | Accept _ _ _ peer => exists ep, peer = Ok ep
    | _ => True
    end.

(** The action [a] of server [i] leads from [c] to [c'], and from the present
    deployment to [d']. *)
Record stepped_to i a c c' d' : Prop := {
  to_action : a <> Restart;
  to_act : act peers options fresh i a c = Some (Ok c');
  to_simulates : simulates d' c';
  to_machine : exists x, sites d' !! i = Some x /\ servers c' !! i = Some (machine x);
  to_others j : j <> i -> servers c' !! j = servers c !! j;
}.

(** No action of the cluster, or one. *)
Definition followed (m : Move) d c d' : Prop :=
  (calm m d -> keeps d d') /\ (simulates d' c \/ exists i a c', stepped_to i a c c' d').

Lemma followed_quietly m d c d' : simulates d' c -> sites d' = sites d -> followed m d c d'.
Proof. intros Hsim Heq. split; [by intros _; apply keeps_same|by left]. Qed.

Lemma acted_stepped_to i a c c' d x x' ls : a <> Restart -> act peers options fresh i a c = Some (Ok c') ->
  acted i a c c' x x' -> sites d !! i = Some x -> simulates (mkDeployment (sites d) ls) c ->
  stepped_to i a c c' (mkDeployment (<[i := x']> (sites d)) ls).
Proof.
  intros Ha Hact Hacted Hx Hsim. split; [done|done|..].
  - by apply (simulates_acted (mkDeployment (sites d) ls) c c' i a x).
  - exists x'. split; [by apply lookup_insert_eq|by apply (ac_machine _ _ _ _ _ _ Hacted)].
  - intros j Hj. by apply (ac_others _ _ _ _ _ _ Hacted j Hj).
Qed.

Lemma local_followed earlier d c i a x : execution peers options fresh earlier c -> Z.of_nat (length earlier) < uint64_max ->
  simulates d c -> sites d !! i = Some x -> up x = true -> thread_enabled a (machine x) (workers x) = true ->
  followed (Local i a) d c (mkDeployment (<[i := perform_at plat net listens peers options fresh i a x]> (sites d)) (links d)).
Proof.
  intros Hex Hb Hsim Hx Hup Hen. destruct (sim_site _ _ Hsim i x Hx) as (Hpeer & Hok & Hrun). specialize (Hrun Hup).
  assert (a <> Restart) as Ha by (intros ->; done).
  destruct (perform_acted earlier c i a x Hex Hb Ha Hpeer Hok Hrun) as (c' & Hact & Hacted).
  { unfold enabled. rewrite (ro_workers _ _ _ Hrun). by destruct a. }
  { by intros e ->. }
  split.
  - intros [Hno Hpol]. apply keeps_insert. intros y Hy _. assert (y = x) as -> by congruence.
    apply (ac_up _ _ _ _ _ _ Hacted); [by apply Hno|by apply Hpol|done].
  - right. exists i, a, c'. apply (acted_stepped_to i a c c' d x); [done..|]. by destruct d.
Qed.

(** A process whose accept handler throws is gone; the others go on. *)
Lemma throw_followed d c i j id f x : simulates d c -> sites d !! i = Some x ->
  followed (Accept i j id (Err f)) d c (mkDeployment (<[i := crash x]> (sites d)) (links d)).
Proof.
  intros [Hsites Hlinks] Hx. split; [by intros [_ [ep Hpeer]]|]. left. split; cbn [sites links].
  - intros k y [[<- <-]|[_ Hy]]%lookup_insert_Some; [|by apply Hsites].
    destruct (Hsites i x Hx) as (Hp & [Hop Hsrv Hpool] & _). split; [done|]. split; [by split|done].
  - intros l k Hk. destruct (Hlinks l k Hk) as [(r & to & Hr & Hsrv & Hto & y & cn & Hy & Hrest)]. split.
    assert (forall n z, sites d !! n = Some z -> exists z', <[i := crash x]> (sites d) !! n = Some z' /\
      actor z' = actor z /\ pool z' = pool z) as Hsame.
    { intros n z Hz. destruct (decide (n = i)) as [->|Hne]; [|exists z; by rewrite lookup_insert_ne].
      exists (crash x). rewrite lookup_insert_eq. assert (z = x) as -> by congruence. done. }
    destruct (Hsame _ _ Hr) as (r' & Hr' & Ha & _). destruct (Hsame _ _ Hy) as (y' & Hy' & _ & Hpo).
    exists r', to. split; [exact Hr'|]. split; [congruence|]. split; [done|]. exists y', cn. split; [exact Hy'|]. by rewrite Hpo.
Qed.

Lemma accept_followed d c i j id peer x y to op cn : simulates d c -> sites d !! i = Some x -> sites d !! j = Some y ->
  peers !! i = Some to -> server_ (actor x) = Some op -> store (pool y) !! id = Some cn -> remote cn = endpoint_ to ->
  followed (Accept i j id (Ok peer)) d c (mkDeployment (sites d)
    (links d ++ [mkLink i j id (start_connection (new_ServerConnection peer op)).1.2 0])).
Proof.
  intros [Hsites Hlinks] Hx Hy Hto Hop Hcn Hrem. apply followed_quietly; [|done]. split; [done|]. cbn [links]. intros l k Hk.
  apply lookup_app_Some in Hk as [Hk|[_ Hk]].
  - destruct (Hlinks l k Hk) as [Hl]. by split.
  - apply list_lookup_singleton_Some in Hk as [_ <-]. split. exists x, to. split; [done|]. split; [cbn; congruence|]. split; [done|].
    exists y, cn. split; [done|]. split; [done|]. split; [done|]. cbn [reader position].
    destruct (Hsites i x Hx) as (_ & [_ Hsrv _] & _). pose proof (Hsrv op Hop) as Hbuf.
    unfold reading. cbn. rewrite !length_replicate, Hbuf. split; [done|]. split; [lia|]. split; [lia|]. by exists [].
Qed.

(** What is left of a move once the handler of the read is known. *)
Lemma complete_eq l k p r n x d ys rd :
  on_read plat p r (reader k) = (ys, rd, Ok tt) ->
  complete plat net listens peers options fresh l k p r n x d
  = mkDeployment (<[reader_at k := foldl (fun x z => deliver_at plat net listens peers options fresh (reader_at k) z x) x ys]> (sites d))
      (<[l := mkLink (reader_at k) (from_site k) (from_conn k) rd (position k + n)]> (links d)).
Proof. intros Hread. unfold complete. by rewrite Hread. Qed.

Lemma same_sites d i x ls : sites d !! i = Some x -> mkDeployment (<[i := x]> (sites d)) ls = mkDeployment (sites d) ls.
Proof. intros Hx. by rewrite insert_id. Qed.

Lemma break_followed d c l k p ec bytes x : simulates d c -> links d !! l = Some k -> sites d !! reader_at k = Some x ->
  followed (Break l ec bytes) d c (complete plat net listens peers options fresh l k p (ReadFailed ec bytes) 0 x d).
Proof.
  intros Hsim Hk Hx. destruct (on_read_failed plat p ec bytes (reader k)) as (rd & Hread & Hp).
  erewrite complete_eq by exact Hread. cbn [foldl deliver_at]. rewrite same_sites by done.
  apply followed_quietly; [|done]. apply simulates_link; [done|].
  destruct (sim_link _ _ Hsim l k Hk) as [(r & to & Hr & Hsrv & Hto & y & cn & Hy & Hcn & Hrem & _)]. split.
  exists r, to. split; [done|]. split; [done|]. split; [done|]. exists y, cn. split; [done|]. split; [done|]. split; [done|].
  unfold reading. cbn. by rewrite Hp.
Qed.

Section arriving.
Context (ds : list deployment) (earlier : list cluster) (c : cluster) (d : deployment) (l : nat) (k : Link) (x y : site) (cn : Connection).
Context (Hex : execution peers options fresh earlier c) (Hb : Z.of_nat (length earlier) < uint64_max).
Context (Hterms : terms_survive ds) (Hseen : terms_seen ds (c :: earlier)).
Context (Hsim : simulates d c) (Hk : links d !! l = Some k) (Hx : sites d !! reader_at k = Some x) (Hup : up x = true).
Context (Hy : sites d !! from_site k = Some y) (Hcn : store (pool y) !! from_conn k = Some cn).

(** The link with another state of its reader. *)
Lemma link_moves rd pos : reading plat (written cn) rd pos ->
  link_ok d (mkLink (reader_at k) (from_site k) (from_conn k) rd pos).
Proof.
  intros Hread. destruct (sim_link _ _ Hsim l k Hk) as [(r & to & Hr & Hsrv & Hto & y' & cn' & Hy' & Hcn' & Hrem & _)].
  assert (y' = y) as -> by congruence. assert (cn' = cn) as -> by congruence. split.
  exists r, to. split; [done|]. split; [done|]. split; [done|]. by exists y, cn.
Qed.

Lemma header_followed bytes : pending (reader k) = Some ReadHeader ->
  bytes = take header_length (drop (position k) (written cn)) -> length bytes = header_length ->
  followed (Arrive l) d c (complete plat net listens peers options fresh l k ReadHeader (ReadDone bytes) header_length x d).
Proof.
  intros Hp Hbytes Hlen.
  destruct (sim_link _ _ Hsim l k Hk) as [(r & to & _ & _ & _ & y' & cn' & Hy' & Hcn' & _ & Hread)].
  assert (y' = y) as -> by congruence. assert (cn' = cn) as -> by congruence.
  destruct (sim_site _ _ Hsim _ y Hy) as (_ & [_ _ Hpool] & _).
  destruct (carried_framed _ _ _ _ Hpool Hcn) as (ms & last & n & Hframed & _).
  destruct (header_arrives plat _ ms last n _ _ bytes Hframed Hread Hp Hbytes Hlen) as (rd & Hrun & Hread').
  erewrite complete_eq by exact Hrun. cbn [foldl]. rewrite same_sites by done.
  apply followed_quietly; [|done]. apply simulates_link; [done|]. by apply link_moves.
Qed.

Lemma body_followed bytes n : pending (reader k) = Some (ReadBody n) ->
  bytes = take n (drop (position k) (written cn)) -> length bytes = n ->
  followed (Arrive l) d c (complete plat net listens peers options fresh l k (ReadBody n) (ReadDone bytes) n x d).
Proof.
  intros Hp Hbytes Hlen.
  destruct (sim_link _ _ Hsim l k Hk) as [(r & to & Hr & Hsrv & Hto & y' & cn' & Hy' & Hcn' & Hrem & Hread)].
  assert (y' = y) as -> by congruence. assert (cn' = cn) as -> by congruence. assert (r = x) as -> by congruence.
  destruct (sim_site _ _ Hsim _ y Hy) as (_ & [_ _ Hpool] & _).
  destruct (sim_site _ _ Hsim _ x Hx) as (_ & Hok & Hrun). specialize (Hrun Hup).
  destruct (carried_framed _ _ _ _ Hpool Hcn) as (ms & last & m & Hframed & Hms).
  destruct (body_arrives plat _ ms last m _ _ n bytes Hframed Hread Hp Hbytes Hlen) as (rd & Hread_run & Hread' & Hin).
  destruct (Hms _ Hin) as (e & He & Hmsg). rewrite Hrem in He.
  replace (mkRemoteAddress (endpoint_ to)) with to in He by by destruct to.
  assert (inv peers earlier c) as Hinv by (eapply execution_inv; [done..|lia]).
  pose proof (sent_safe ds earlier c to e Hinv Hb Hterms Hseen He) as Hsafe.
  erewrite complete_eq by exact Hread_run. cbn [foldl deliver_at]. rewrite Hmsg, (on_message_event plat e Hsafe).
  destruct (perform_acted earlier c (reader_at k) (Cluster.Deliver e) x Hex Hb) as (c' & Hact & Hacted); [done|by exists to|done|done|..].
  { cbn. rewrite Hto. apply andb_true_iff. split; apply bool_decide_eq_true_2; [by apply (ro_started _ _ _ Hrun)|done]. }
  { by intros. }
  split.
  { intros [Hno _]. apply keeps_insert. intros z Hz _. assert (z = x) as -> by congruence.
    apply (ac_up _ _ _ _ _ _ Hacted); [by apply Hno|by intros [|]|done]. }
  right. exists (reader_at k), (Cluster.Deliver e), c'. apply (acted_stepped_to _ _ c c' d x); [done..|].
  apply simulates_link; [done|]. by apply link_moves.
Qed.

End arriving.

Lemma move_followed ds earlier d c m d' : execution peers options fresh earlier c -> Z.of_nat (length earlier) < uint64_max ->
  terms_survive ds -> terms_seen ds (c :: earlier) -> simulates d c -> move plat net listens peers options fresh m d = Some d' -> followed m d c d'.
Proof.
  intros Hex Hb Hterms Hseen Hsim Hmove. destruct m as [i a|i j id peer|l|l ec bytes]; cbn [move mbind option_bind] in Hmove.
  - destruct (sites d !! i) as [x|] eqn:Hx; [|done]. cbn in Hmove. destruct (up x && thread_enabled a (machine x) (workers x)) eqn:Hen; [|done].
    injection Hmove as <-. apply andb_prop in Hen as [Hup Hen]. by apply (local_followed earlier).
  - destruct (sites d !! i) as [x|] eqn:Hx; [|done]. cbn in Hmove. destruct (sites d !! j) as [y|] eqn:Hy; [|done]. cbn in Hmove.
    destruct (peers !! i) as [to|] eqn:Hto; [|done]. cbn in Hmove. destruct (server_ (actor x)) as [op|] eqn:Hop; [|done]. cbn in Hmove.
    destruct (store (pool y) !! id) as [cn|] eqn:Hcn; [|done]. cbn in Hmove.
    destruct (up x && serving x && bool_decide (remote cn = endpoint_ to) && _) eqn:Hen; [|done].
    destruct peer as [peer|f]; injection Hmove as <-; [|by apply throw_followed].
    apply andb_prop in Hen as [Hen _]. apply andb_prop in Hen as [_ Hrem%bool_decide_eq_true].
    by apply (accept_followed d c i j id peer x y to op cn).
  - destruct (links d !! l) as [k|] eqn:Hk; [|done]. cbn in Hmove. destruct (sites d !! reader_at k) as [x|] eqn:Hx; [|done]. cbn in Hmove.
    destruct (sites d !! from_site k) as [y|] eqn:Hy; [|done]. cbn in Hmove.
    destruct (store (pool y) !! from_conn k) as [cn|] eqn:Hcn; [|done]. cbn in Hmove.
    destruct (pending (reader k)) as [p|] eqn:Hp; [|done]. cbn in Hmove.
    destruct (up x && serving x && _) eqn:Hen; [|done]. injection Hmove as <-.
    apply andb_prop in Hen as [Hen Hlen%bool_decide_eq_true]. apply andb_prop in Hen as [Hup _]. destruct p as [|n].
    + by apply (header_followed c d l k x y cn).
    + by apply (body_followed ds earlier c d l k x y cn).
  - destruct (links d !! l) as [k|] eqn:Hk; [|done]. cbn in Hmove. destruct (sites d !! reader_at k) as [x|] eqn:Hx; [|done]. cbn in Hmove.
    destruct (pending (reader k)) as [p|] eqn:Hp; [|done]. cbn in Hmove. destruct (up x && serving x); [|done]. injection Hmove as <-.
    by apply break_followed.
Qed.

(** ** Properties *)

(** The servers that run are those of the cluster. *)
Definition shows d c : Prop := forall i x, sites d !! i = Some x -> up x = true -> servers c !! i = Some (machine x).

Lemma new_simulates : simulates (new_deployment peers fresh) (initial peers fresh).
Proof.
  split; [|done]. intros i x Hx. cbn in Hx. rewrite map_lookup_imap in Hx.
  destruct (peers !! i) as [to|] eqn:Hto; [|done]. cbn in Hx. injection Hx as <-. split; [by eexists|]. split.
  - split; [done|done|]. exists []. split; [apply pool_ok_new|]. by intros ep m ?%elem_of_nil.
  - intros _. split; cbn; [by rewrite lookup_fmap, Hto|done..].
Qed.

Lemma simulates_shows d c : simulates d c -> shows d c.
Proof. intros Hsim i x Hx Hup. destruct (sim_site _ _ Hsim i x Hx) as (_ & _ & Hrun). by apply Hrun. Qed.

(** The terms seen after a step. *)
Lemma terms_seen_step i a c c' d' ds cs : stepped_to i a c c' d' -> c ∈ cs -> terms_seen ds cs ->
  terms_seen (d' :: ds) (c' :: cs).
Proof.
  intros Hto Hc Hseen c0 k s [->|Hin]%elem_of_cons Hs.
  - destruct (to_machine _ _ _ _ _ Hto) as (x & Hx & Hm). destruct (decide (k = i)) as [->|Hne].
    + exists d', x. split; [left|]. split; [done|]. congruence.
    + rewrite (to_others _ _ _ _ _ Hto k Hne) in Hs. destruct (Hseen c k s Hc Hs) as (d & y & ? & ?).
      exists d, y. split; [by right|done].
  - destruct (Hseen c0 k s Hin Hs) as (d & y & ? & ?). exists d, y. split; [by right|done].
Qed.

Lemma terms_seen_more d' ds cs : terms_seen ds cs -> terms_seen (d' :: ds) cs.
Proof. intros Hseen c k s Hc Hs. destruct (Hseen c k s Hc Hs) as (d & y & ? & ?). exists d, y. split; [by right|done]. Qed.

(** An execution that the deployment follows. *)
Record follows (earlier : list deployment) d (earlier' : list cluster) c : Prop := {
  fo_execution : execution peers options fresh earlier' c;
  fo_length : (length earlier' <= length earlier)%nat;
  fo_simulates : simulates d c;
  fo_seen : terms_seen (d :: earlier) (c :: earlier');
  fo_shows d0 : d0 ∈ d :: earlier -> exists c0, c0 ∈ c :: earlier' /\ shows d0 c0;
}.

Lemma deployed_simulated earlier d : deployed plat net listens peers options fresh earlier d ->
  Z.of_nat (length earlier) < uint64_max -> terms_survive earlier -> exists earlier' c, follows earlier d earlier' c.
Proof.
  induction 1 as [|earlier d m d' _ IH Hmove]; intros Hb Hterms.
  - exists [], (initial peers fresh). split; [constructor|done|apply new_simulates|..].
    + intros c k s ->%list_elem_of_singleton Hs. exists (new_deployment peers fresh), (new_site peers fresh k). split; [left|].
      cbn in Hs |- *. rewrite lookup_fmap in Hs. apply fmap_Some in Hs as (to & Hto & ->).
      by rewrite map_lookup_imap, Hto.
    + intros d0 ->%list_elem_of_singleton. exists (initial peers fresh). split; [by left|]. apply simulates_shows, new_simulates.
  - cbn [length] in Hb. destruct IH as (earlier' & c & [Hex Hlen Hsim Hseen Hall]); [lia|by intros d0 k x Hd0; apply Hterms; right|].
    destruct (move_followed (d :: earlier) earlier' d c m d' Hex) as [_ [Hsim'|(i & a & c' & Hto)]]; [lia|done..| |].
    + exists earlier', c. split; [done|cbn; lia|done|by apply terms_seen_more|]. intros d0 [->|Hin]%elem_of_cons; [|by apply Hall].
      exists c. split; [by left|by apply simulates_shows].
    + exists (c :: earlier'), c'. pose proof (to_simulates _ _ _ _ _ Hto) as Hsim'. split; [|cbn; lia|done|..].
      * eapply execution_step; [done|by eapply to_action|by eapply to_act].
      * apply (terms_seen_step i a c); [done|by left|done].
      * intros d0 [->|Hin]%elem_of_cons; [exists c'; split; [by left|by apply simulates_shows]|].
        destruct (Hall d0 Hin) as (c0 & Hc0 & Hshow). exists c0. split; [by right|done].
Qed.

(** C4. The deployed group refines the group of Cluster.v.  For every network, every
    order of the steps of the executors, of calls, accepts, completed and failed reads,
    and all deaths of processes, in fewer than 2^64 - 1 moves: if every term that a
    server had before the last move survives the wire (with signed [char] the terms
    below 2^15 do and some of the larger do not; with unsigned [char] all do), there is
    an execution of the abstract group with at most as many steps in which, for every
    moment of the deployment, the state machines of the processes that run are those
    of some moment of the execution. *)
Theorem deployment_refines_cluster earlier d : deployed plat net listens peers options fresh earlier d ->
  Z.of_nat (length earlier) < uint64_max -> terms_survive earlier ->
  exists earlier' c, execution peers options fresh earlier' c /\ (length earlier' <= length earlier)%nat /\ shows d c /\
    forall d0, d0 ∈ d :: earlier -> exists c0, c0 ∈ c :: earlier' /\ shows d0 c0.
Proof.
  intros Hd Hb Hterms. destruct (deployed_simulated earlier d Hd Hb Hterms) as (earlier' & c & [Hex Hlen Hsim _ Hall]).
  exists earlier', c. split; [done|]. split; [done|]. split; [by apply simulates_shows|done].
Qed.


(** C8. What can terminate a process of a deployment by an exception or a null pointer.
    If the resolver does not throw, the ports can be bound, the peer of every
    connection can be named when the handler of its accept runs, the user calls [stop]
    after [start], no timeout is handled while [start] has not yet made the client, and
    every term a server had so far survives the wire, then a process that runs before
    a move runs after it: the state machine only sends through a client that exists,
    and every message that arrives can be parsed. *)
Theorem no_process_terminates earlier d m d' i x x' : deployed plat net listens peers options fresh earlier d ->
  Z.of_nat (length earlier) < uint64_max -> terms_survive (d :: earlier) ->
  calm m d -> move plat net listens peers options fresh m d = Some d' ->
  sites d !! i = Some x -> up x = true -> sites d' !! i = Some x' -> up x' = true.
Proof.
  intros Hd Hb Hterms Hcalm Hmove Hx Hup Hx'.
  destruct (deployed_simulated earlier d Hd Hb) as (earlier' & c & [Hex Hlen Hsim Hseen _]);
    [by intros d0 k y Hd0; apply Hterms; right|].
  destruct (move_followed (d :: earlier) earlier' d c m d' Hex) as [Hkeeps _]; [lia|done..|].
  by apply (Hkeeps Hcalm i x x').
Qed.

End refinement.

(** ** Examples *)

Section examples.
#[local] Existing Instance example_env.
#[local] Existing Instance example_env_ok.
#[local] Existing Instance perfect_ok.

Definition three_peers : gmap Z RemoteRaftActorAddress :=
  list_to_map ((fun i => (i, mkRemoteAddress (mkEndPoint "localhost" (9990 + i)))) <$> [1; 2; 3]).

Definition somebody : EndPoint := mkEndPoint "10.0.0.1" 40000.

(** Server 1 asks for votes, server 2 reads the request from the connection it has
    accepted, and server 1 the answer. *)
Definition byte_election : list Move :=
  ([1; 2; 3] ≫= (fun i => [Local i CallStart; Local i OpenActor])) ++
  [Local 1 (Fire FireElectionTimeout); Local 1 Expire;
   Accept 2 1 1 (Ok somebody); Arrive 0; Arrive 0; Accept 1 2 0 (Ok somebody); Arrive 1; Arrive 1].

Local Abbreviation concrete := (Deployment (Scheduler FsmCallable) ScheduledTask).

Definition run_deployment (ms : list Move) : option (list concrete * concrete) :=
  move_all x86_64 (fun _ => perfect) (fun _ => true) three_peers defaults new_scheduler ms [] (new_deployment three_peers new_scheduler).

Definition isSome {A} (o : option A) : bool := if o is Some _ then true else false.

Definition leads_now (i t : Z) (d : concrete) : bool :=
  match sites d !! i with
  | Some x => up x && is_leader (machine x) && (term_ (machine x) =? t)
  | None => false
  end.

Lemma leads_now_spec i t d : leads_now i t d = true -> leads_at d i t.
Proof.
  unfold leads_now. destruct (sites d !! i) as [x|] eqn:Hx; [|done].
  intros [[Hup Hl]%andb_prop Ht%Z.eqb_eq]%andb_prop. exists x. split; [done|]. split; [done|]. split; [|done].
  by apply bool_decide_eq_true in Hl.
Qed.

(** Whether all terms of the deployments survive the wire. *)
Definition survive (ds : list concrete) : bool :=
  forallb (fun d => forallb (fun p => wire_safe x86_64 U64 (term_ (machine p.2))) (map_to_list (sites d))) ds.

Lemma survive_spec ds : survive ds = true -> terms_survive x86_64 ds.
Proof.
  intros Hall d k x Hd Hx. unfold survive in Hall. rewrite forallb_forall in Hall.
  specialize (Hall d (proj1 (list_elem_of_In _ _) Hd)). rewrite forallb_forall in Hall.
  apply (Hall (k, x)), list_elem_of_In. by apply elem_of_map_to_list.
Qed.

(** The deployment in which server 1 has been elected. *)
Lemma byte_election_deployed : exists earlier d, run_deployment byte_election = Some (earlier, d) /\
  deployed x86_64 (fun _ => perfect) (fun _ => true) three_peers defaults new_scheduler earlier d /\ length earlier = 14%nat /\
  terms_survive x86_64 (d :: earlier) /\ leads_at d 1 2.
Proof.
  assert (from_option (fun r => leads_now 1 2 r.2 && survive (r.2 :: r.1)) false (run_deployment byte_election) = true) as Hnow by by vm_compute.
  destruct (run_deployment byte_election) as [[earlier d]|] eqn:Hrun; [|done]. exists earlier, d. split; [done|].
  apply andb_prop in Hnow as [Hl Hsafe]. cbn [fst snd] in *.
  destruct (move_all_deployed _ _ _ _ _ _ _ [] _ earlier d (deployed_start _ _ _ _ _ _) Hrun) as (Hd & Hlen).
  split; [done|]. split; [exact Hlen|]. split; [by apply survive_spec|by apply leads_now_spec].
Qed.

Lemma three_peers_inj i j to : three_peers !! i = Some to -> three_peers !! j = Some to -> i = j.
Proof.
  assert (forall k a, three_peers !! k = Some a -> k = port (endpoint_ a) - 9990) as Hid.
  { intros k a Hk%elem_of_list_to_map_2%list_elem_of_fmap. destruct Hk as (y & [= -> ->] & _). cbn. lia. }
  by intros ->%Hid ->%Hid.
Qed.

Lemma three_peers_safe i : is_Some (three_peers !! i) -> in_range 64 i /\ wire_safe x86_64 U64 i = true.
Proof.
  intros [a Ha]. assert (i ∈ [1; 2; 3]) as Hi.
  { apply elem_of_list_to_map_2, list_elem_of_fmap in Ha. by destruct Ha as (y & [= -> ->] & ?). }
  clear a Ha. revert i Hi. apply Forall_forall. repeat (apply Forall_cons; split; [split; [vm_compute; split; congruence|by vm_compute]|]). by apply Forall_nil.
Qed.

(** The terms before the present moment survive as well. *)
Lemma survive_earlier ds d : terms_survive x86_64 (d :: ds : list concrete) -> terms_survive x86_64 ds.
Proof. intros Hall d0 k x Hd. apply (Hall d0 k x). by right. Qed.

Lemma deployment_refines_cluster_witness : exists earlier d,
  deployed x86_64 (fun _ => perfect) (fun _ => true) three_peers defaults new_scheduler earlier d /\ leads_at d 1 2 /\
  exists earlier' c, execution three_peers defaults new_scheduler earlier' c /\ (length earlier' <= length earlier)%nat /\
    shows d c /\ forall d0, d0 ∈ d :: earlier -> exists c0, c0 ∈ c :: earlier' /\ shows d0 c0.
Proof.
  destruct byte_election_deployed as (earlier & d & _ & Hd & Hlen & Hsafe & Hl). exists earlier, d. split; [exact Hd|]. split; [exact Hl|].
  apply (deployment_refines_cluster x86_64 (fun _ => perfect) (fun _ => true) three_peers defaults new_scheduler defaults_ok fresh_ok
    three_peers_inj three_peers_safe earlier d Hd); [rewrite Hlen; lia|by apply (survive_earlier earlier d)].
Defined.


(** Server 1, now the leader, is stopped by its user. *)
Definition stop_leader (d : concrete) : option concrete :=
  move x86_64 (fun _ => perfect) (fun _ => true) three_peers defaults new_scheduler (Local 1 (Call CallStop)) d.

Definition stops_well (d : concrete) : bool :=
  match sites d !! 1, stop_leader d with
  | Some x, Some d' => up x && isSome (server_ (actor x)) && isSome (sites d' !! 1)
  | _, _ => false
  end.

Lemma elected_stops_well : from_option (fun r => stops_well r.2) false (run_deployment byte_election) = true.
Proof. by vm_compute. Qed.

Lemma no_process_terminates_witness : exists earlier d d' x, run_deployment byte_election = Some (earlier, d) /\
  stop_leader d = Some d' /\ sites d' !! 1 = Some x /\ up x = true.
Proof.
  destruct byte_election_deployed as (earlier & d & Hrun & Hd & Hlen & Hsafe & _).
  pose proof elected_stops_well as Hwell. rewrite Hrun in Hwell. cbn [from_option snd] in Hwell.
  unfold stops_well in Hwell. destruct (sites d !! 1) as [x|] eqn:Hx; [|discriminate Hwell].
  destruct (stop_leader d) as [d'|] eqn:Hstop; [|discriminate Hwell].
  apply andb_prop in Hwell as [[Hup Hsrv]%andb_prop Hx']. destruct (sites d' !! 1) as [x'|] eqn:Hd'; [|discriminate Hx'].
  exists earlier, d, d', x'. split; [exact Hrun|]. split; [exact Hstop|]. split; [exact Hd'|].
  apply (no_process_terminates x86_64 (fun _ => perfect) (fun _ => true) three_peers defaults new_scheduler defaults_ok fresh_ok
    three_peers_inj three_peers_safe earlier d (Local 1 (Call CallStop)) d' 1 x x' Hd); [rewrite Hlen; lia|exact Hsafe| |exact Hstop|exact Hx|exact Hup|exact Hd'].
  split; [intros i; split; [reflexivity|by intros k ep]|]. intros y Hy _. assert (y = x) as -> by congruence. by destruct (server_ (actor x)).
Defined.

(** A timeout can end a process that starts.  [start] arms the election timer, on
    an executor that runs, before it makes the client: if the timeout is handled in
    between, the request for votes goes through the null [client_], and the process is
    gone, although the resolver does not throw and the port can be bound. *)
Theorem timeout_before_client_terminates : exists earlier (d : concrete) x,
  deployed x86_64 (fun _ => perfect) (fun _ => true) three_peers defaults new_scheduler earlier d /\
  sites d !! 1 = Some x /\ up x = false /\ server_ (actor x) = None /\ role_ (machine x) = candidate.
Proof.
  assert (from_option (fun r => from_option (fun x => negb (up x) && negb (isSome (server_ (actor x))) &&
      bool_decide (role_ (machine x) = candidate)) false (sites r.2 !! 1)) false
    (run_deployment [Local 1 CallStart; Local 1 (Fire FireElectionTimeout); Local 1 Expire]) = true) as Hnow by by vm_compute.
  destruct (run_deployment _) as [[earlier d]|] eqn:Hrun; [|done]. cbn [from_option snd] in Hnow.
  destruct (sites d !! 1) as [x|] eqn:Hx; [|done]. cbn in Hnow.
  rewrite !andb_true_iff, bool_decide_eq_true in Hnow. destruct Hnow as [[Hup Hsrv] Hr].
  destruct (move_all_deployed _ _ _ _ _ _ _ [] _ earlier d (deployed_start _ _ _ _ _ _) Hrun) as [Hd _].
  exists earlier, d, x. split; [exact Hd|]. split; [exact Hx|]. split; [by destruct (up x)|].
  split; [by destruct (server_ (actor x))|done].
Qed.

End examples.
