(* ===== verification/Locks.v ===== *)
(** * Mutexes and their order

    Fsm.v takes every method as one step.  Here the same methods run over a
    timer service that records which mutexes the operations of scheduler.hpp
    acquire and release, so that the lock footprint of a method is computed
    from its model.  Threads then interleave lock by lock.  Threads that handle
    messages and user threads respect an order of the mutexes and cannot
    deadlock; the executor thread of the scheduler breaks the order. *)
From S2P Require Import Prelude Timers NetworkUtil Protocol RaftActor Fsm.

(** ** Locks and threads *)

(** The two timers of a state machine. *)
Inductive TaskName := ElectionTask | HeartbeatTask.

Inductive Lock :=
| HandlerMtx                          (* [RaftFSM::handler_mtx_] *)
| ScheduledTaskMtx (task : TaskName)  (* [ScheduledTask::mtx_] *)
| SchedulerMtx                        (* [Scheduler::mtx] *)
| TaskMtx (task : TaskName).          (* [Task::mtx_] *)

#[global] Instance TaskName_eq_dec : EqDecision TaskName.
Proof. solve_decision. Defined.
#[global] Instance Lock_eq_dec : EqDecision Lock.
Proof. solve_decision. Defined.

Inductive Instr := Acquire (l : Lock) | Release (l : Lock).

(** [std::unique_lock<std::mutex> lock (l)] for the scope of [body]. *)
Definition scoped (l : Lock) (body : list Instr) : list Instr := Acquire l :: body ++ [Release l].

(** A thread: the locks it holds, the last one first, and what it has to do. *)
Record Thread := mkThread { held : list Lock; todo : list Instr }.

Definition is_held (l : Lock) (ts : list Thread) : bool :=
  existsb (fun t => bool_decide (l ∈ held t)) ts.

(** One step of thread [i]; [None] when it has finished or is blocked.  The
    mutexes are not recursive: a thread that holds one and asks again is
    blocked too. *)
Definition thread_step (i : nat) (ts : list Thread) : option (list Thread) :=
  t ← ts !! i;
  match todo t with
  | [] => None
  | Acquire l :: rest => if is_held l ts then None else Some (<[i := mkThread (l :: held t) rest]> ts)
  | Release l :: rest =>
      match held t with
      | l' :: h => if decide (l = l') then Some (<[i := mkThread h rest]> ts) else None
      | [] => None
      end
  end.

Fixpoint interleave (schedule : list nat) (ts : list Thread) : option (list Thread) :=
  match schedule with
  | [] => Some ts
  | i :: schedule => ts ← thread_step i ts; interleave schedule ts
  end.

Definition spawn (programs : list (list Instr)) : list Thread := mkThread [] <$> programs.

Definition finished (t : Thread) : Prop := todo t = [].

(** Nobody can move although somebody has work left. *)
Definition deadlocked (ts : list Thread) : Prop :=
  Exists (fun t => ~ finished t) ts /\ forall i, thread_step i ts = None.

(** ** The footprint of the scheduler's operations *)

Definition run_after_locks : list Instr := scoped SchedulerMtx [].
Definition flag_locks (h : TaskName) : list Instr := scoped (ScheduledTaskMtx h) [].
Definition reset_locks (h : TaskName) : list Instr := scoped (ScheduledTaskMtx h) run_after_locks.

Definition task_name (c : FsmCallable) : TaskName :=
  match c with FireElectionTimeout => ElectionTask | SendHeartbeats => HeartbeatTask end.

(** The recording timer service: its state is the trace so far. *)
#[export] Instance recorder : TimerOps (list Instr) TaskName FsmCallable := {|
  ts_schedule _ c _ tr := Ok (task_name c, tr ++ run_after_locks);
  ts_cancel h tr := tr ++ flag_locks h;
  ts_pause h tr := tr ++ flag_locks h;
  ts_resume h tr := tr ++ flag_locks h;
  ts_reset h tr := Ok (h, tr ++ reset_locks h);
|}.

Section footprints.
Context {Addr : Type} `{Env} (actor : RaftActorOptions Addr) (options : RaftFSMOptions).

Local Abbreviation fsm := (RaftFSM (list Instr) TaskName).
Local Abbreviation M := (comp fsm (FsmEffect Addr)).

(** What [m] locks when it runs in the state [s]. *)
Definition footprint (m : M unit) (s : fsm) : list Instr := scheduler_ (m (set_scheduler [] s)).1.2.

(** [handle] returns before it takes the mutex when the server is blocked. *)
Definition handle_locks (event : RaftEvent) (s : fsm) : list Instr :=
  if blocked_ s then []
  else scoped HandlerMtx (footprint (handle_locked actor options event) s).

Definition callable_locks (c : FsmCallable) (s : fsm) : list Instr :=
  match c with
  | FireElectionTimeout => handle_locks ElectionTimeoutEvent s
  | SendHeartbeats => []
  end.

(** The executor with one due task: it holds [Scheduler::mtx] while it calls
    and renews the task. *)
Definition executor_locks (c : FsmCallable) (s : fsm) : list Instr :=
  scoped SchedulerMtx
    (scoped (TaskMtx (task_name c)) (callable_locks c s) ++ scoped (TaskMtx (task_name c)) []).

Definition api_locks (c : ApiCall) (s : fsm) : list Instr :=
  footprint (api_call_with options (run_calls options callback_depth) c) s.

End footprints.

(** ** An order of the mutexes *)

(** A thread's handler first, then the handle of a timer, the scheduler last. *)
Definition rank (l : Lock) : nat :=
  match l with
  | HandlerMtx => 0
  | ScheduledTaskMtx _ => 1
  | SchedulerMtx => 2
  | TaskMtx _ => 3
  end.

(** A program that, holding [h], acquires locks in increasing rank, releases the
    last one first and ends with none. *)
Fixpoint ordered (h : list Lock) (p : list Instr) : bool :=
  match p with
  | [] => bool_decide (h = [])
  | Acquire l :: p => forallb (fun l' => rank l' <? rank l) h && ordered (l :: h) p
  | Release l :: p =>
      match h with
      | l' :: h => bool_decide (l = l') && ordered h p
      | [] => false
      end
  end.

(** A piece of a program that leaves the locks [h] as it found them. *)
Definition segment (h : list Lock) (p : list Instr) : Prop :=
  forall rest, ordered h rest = true -> ordered h (p ++ rest) = true.

Lemma segment_nil h : segment h [].
Proof. by intros rest. Qed.

Lemma segment_app h p p' : segment h p -> segment h p' -> segment h (p ++ p').
Proof. intros Hp Hp' rest Hr. rewrite <- (assoc_L (++)). by apply Hp, Hp'. Qed.

Lemma segment_scoped h l p :
  forallb (fun l' => rank l' <? rank l) h = true -> segment (l :: h) p -> segment h (scoped l p).
Proof.
  intros Hh Hp rest Hr. unfold scoped. simpl. rewrite Hh. simpl.
  rewrite <- (assoc_L (++)). apply Hp. simpl. by rewrite bool_decide_eq_true_2.
Qed.

Lemma segment_ordered p : segment [] p -> ordered [] p = true.
Proof. intros Hp. rewrite <- (app_nil_r p). by apply Hp. Qed.

Definition thread_ordered (t : Thread) : Prop := ordered (held t) (todo t) = true.

Lemma is_held_spec l ts : is_held l ts = true <-> exists i t, ts !! i = Some t /\ l ∈ held t.
Proof.
  unfold is_held. rewrite existsb_exists. split.
  - intros (t & Hin & Hl%bool_decide_eq_true). apply list_elem_of_In, list_elem_of_lookup in Hin as [i Hi].
    eauto.
  - intros (i & t & Hi & Hl). exists t. split; [|by apply bool_decide_eq_true].
    apply list_elem_of_In, list_elem_of_lookup. eauto.
Qed.

Lemma step_ordered i ts ts' :
  Forall thread_ordered ts -> thread_step i ts = Some ts' -> Forall thread_ordered ts'.
Proof.
  intros Hall. unfold thread_step. destruct (ts !! i) as [t|] eqn:Hi; [|done]. simpl.
  pose proof (Forall_lookup_1 _ _ _ _ Hall Hi) as Ht. unfold thread_ordered in Ht.
  destruct (todo t) as [|[l|l] rest]; [done| |]; simpl in Ht.
  - destruct (is_held l ts); [done|]. intros [= <-]. apply Forall_insert; [done|].
    unfold thread_ordered. simpl. by apply andb_true_iff in Ht as [_ ?].
  - destruct (held t) as [|l' h]; [done|]. apply andb_true_iff in Ht as [Hl Ht].
    destruct (decide (l = l')); [|done]. intros [= <-]. by apply Forall_insert.
Qed.

Lemma interleave_ordered schedule ts ts' :
  Forall thread_ordered ts -> interleave schedule ts = Some ts' -> Forall thread_ordered ts'.
Proof.
  revert ts. induction schedule as [|i schedule IH]; intros ts Hall; simpl; [by intros [= <-]|].
  destruct (thread_step i ts) as [ts1|] eqn:H1; [|done]. apply IH. by eapply step_ordered.
Qed.

(** The lock a blocked thread waits for. *)
Lemma blocked_wants ts i t :
  Forall thread_ordered ts -> thread_step i ts = None -> ts !! i = Some t -> ~ finished t ->
  exists l rest, todo t = Acquire l :: rest /\ is_held l ts = true /\
    forall l', l' ∈ held t -> rank l' < rank l.
Proof.
  intros Hall Hstep Hi Hnf. pose proof (Forall_lookup_1 _ _ _ _ Hall Hi) as Ht.
  unfold thread_step in Hstep. rewrite Hi in Hstep. simpl in Hstep.
  unfold thread_ordered in Ht. destruct (todo t) as [|[l|l] rest] eqn:Htodo; [done| |].
  - exists l, rest. split; [done|]. simpl in Ht. apply andb_true_iff in Ht as [Hrank _].
    destruct (is_held l ts); [|done]. split; [done|]. intros l' Hl'.
    rewrite forallb_forall in Hrank. apply Nat.ltb_lt, Hrank. by apply list_elem_of_In.
  - simpl in Ht. destruct (held t) as [|l' h]; [done|]. apply andb_true_iff in Ht as [Hl _].
    apply bool_decide_eq_true in Hl. by rewrite decide_True in Hstep.
Qed.

(** A thread that holds a lock has not finished. *)
Lemma holder_unfinished t l : thread_ordered t -> l ∈ held t -> ~ finished t.
Proof.
  unfold thread_ordered, finished. intros Ht Hl Hf. rewrite Hf in Ht. simpl in Ht.
  apply bool_decide_eq_true in Ht. rewrite Ht in Hl. by apply elem_of_nil in Hl.
Qed.

(** Threads that respect the order do not deadlock: the holder of the highest
    lock anyone waits for can move. *)
Lemma ordered_not_deadlocked ts : Forall thread_ordered ts -> ~ deadlocked ts.
Proof.
  intros Hall [Hex Hstuck]. apply Exists_exists in Hex as (t & Hin & Hnf).
  apply list_elem_of_lookup in Hin as [i Hi].
  destruct (blocked_wants ts i t Hall (Hstuck i) Hi Hnf) as (l & rest & _ & Hheld & _).
  clear i t Hi Hnf rest. remember (3 - rank l) as n eqn:Hn. revert l Hheld Hn.
  induction n as [n IH] using lt_wf_ind. intros l Hheld Hn.
  apply is_held_spec in Hheld as (j & t & Hj & Hl).
  pose proof (Forall_lookup_1 _ _ _ _ Hall Hj) as Ht.
  destruct (blocked_wants ts j t Hall (Hstuck j) Hj (holder_unfinished t l Ht Hl))
    as (l' & rest & _ & Hheld' & Hrank).
  specialize (Hrank l Hl). apply (IH (3 - rank l')) with (l := l'); [|done|done].
  assert (rank l' <= 3) by (destruct l'; simpl; lia). lia.
Qed.

(** ** The footprints respect the order *)

Section segments.
Context {Addr : Type} `{Env} (actor : RaftActorOptions Addr) (options : RaftFSMOptions).

Local Abbreviation fsm := (RaftFSM (list Instr) TaskName).
Local Abbreviation M A := (comp fsm (FsmEffect Addr) A).

(** [m] appends to the trace a program that is fine for a thread that holds at
    most [HandlerMtx]. *)
Definition appends {A} (m : M A) : Prop :=
  forall s, exists p, scheduler_ (m s).1.2 = scheduler_ s ++ p /\
    segment [] p /\ segment [HandlerMtx] p.

Lemma appends_ret {A} (a : A) : appends (mret a).
Proof. intros s. exists []. rewrite app_nil_r. split_and!; [done|apply segment_nil..]. Qed.

Lemma appends_bind {A B} (m : M A) (f : A -> M B) :
  appends m -> (forall a, appends (f a)) -> appends (m ≫= f).
Proof.
  intros Hm Hf s. destruct (Hm s) as (p & Hp & Hp0 & Hp1).
  destruct (m s) as [[es s1] [a|err]] eqn:Hrun; simpl in Hp.
  - rewrite (run_bind_ok _ _ _ _ _ _ Hrun). destruct (Hf a s1) as (p' & Hp' & Hp0' & Hp1').
    exists (p ++ p'). destruct (f a s1) as [[es' s2] r]. simpl in *.
    split_and!; [by rewrite Hp', Hp, (assoc_L (++))|by apply segment_app..].
  - rewrite (run_bind_err _ _ _ _ _ _ Hrun). by exists p.
Qed.

Lemma appends_get {A} (f : fsm -> M A) : (forall s, appends (f s)) -> appends (get_state ≫= f).
Proof. intros Hf s. rewrite run_get. apply Hf. Qed.

Lemma appends_same {A} (m : M A) : (forall s, scheduler_ (m s).1.2 = scheduler_ s) -> appends m.
Proof.
  intros Hm s. exists []. rewrite app_nil_r. split_and!; [done|apply segment_nil..].
Qed.

Lemma appends_modify g : (forall s, scheduler_ (g s) = scheduler_ s) -> appends (modify g).
Proof. intros Hg. by apply appends_same. Qed.

Lemma appends_when b (m : M unit) : appends m -> appends (when b m).
Proof. intros Hm. destruct b; [done|apply appends_ret]. Qed.

Lemma appends_for_each {A} (f : A -> M unit) l : (forall x, appends (f x)) -> appends (for_each f l).
Proof.
  intros Hf. induction l as [|x l IH]; [apply appends_ret|]. by apply appends_bind.
Qed.

Lemma segment_flag h : segment [] (flag_locks h) /\ segment [HandlerMtx] (flag_locks h).
Proof. split; apply segment_scoped; (done || apply segment_nil). Qed.

Lemma segment_run_after : segment [] run_after_locks /\ segment [HandlerMtx] run_after_locks.
Proof. split; apply segment_scoped; (done || apply segment_nil). Qed.

Lemma segment_reset h : segment [] (reset_locks h) /\ segment [HandlerMtx] (reset_locks h).
Proof. split; repeat (apply segment_scoped; [done|]); apply segment_nil. Qed.

Lemma appends_if_task (task : fsm -> option TaskName) (f : TaskName -> list Instr -> list Instr) :
  (forall h tr, f h tr = tr ++ flag_locks h) -> appends (if_task task f).
Proof.
  intros Hf s. unfold if_task. rewrite run_get. destruct (task s) as [h|].
  - exists (flag_locks h). simpl. rewrite Hf. split; [done|apply segment_flag].
  - exists []. rewrite app_nil_r. split_and!; [done|apply segment_nil..].
Qed.

Lemma appends_start_heartbeat : appends (start_heartbeat options).
Proof.
  intros s. unfold start_heartbeat. rewrite run_get. destruct (heartbeat_task_ s) as [h|].
  - exists (flag_locks h). split; [done|apply segment_flag].
  - exists run_after_locks. split; [done|apply segment_run_after].
Qed.

Lemma appends_start_election_timeout : appends (start_election_timeout options).
Proof.
  intros s. unfold start_election_timeout. rewrite run_get. destruct (election_timeout_task_ s) as [h|].
  - exists (flag_locks h). split; [done|apply segment_flag].
  - exists run_after_locks. split; [done|apply segment_run_after].
Qed.

Lemma appends_reset : appends reset_election_timeout.
Proof.
  intros s. unfold reset_election_timeout. rewrite run_get. destruct (election_timeout_task_ s) as [h|].
  - exists (reset_locks h). split; [done|apply segment_reset].
  - exists []. rewrite app_nil_r. split_and!; [done|apply segment_nil..].
Qed.

Lemma appends_emit (e : FsmEffect Addr) : appends (emit e).
Proof. by apply appends_same. Qed.

Lemma appends_fail {A} f : appends (fail_with f : M A).
Proof. by apply appends_same. Qed.

Lemma appends_lift {A} (r : result A) : appends (lift r).
Proof. by apply appends_same. Qed.

End segments.

Create HintDb locks.
#[export] Hint Resolve appends_ret appends_when appends_for_each appends_start_heartbeat
  appends_start_election_timeout appends_reset appends_emit appends_fail appends_lift : locks.
#[export] Hint Extern 1 (appends (get_state ≫= _)) => apply appends_get; intros ? : locks.
#[export] Hint Extern 2 (appends (_ ≫= _)) => apply appends_bind; [|intros ?] : locks.
#[export] Hint Extern 1 (appends (modify _)) => apply appends_modify; intros ?; reflexivity : locks.
#[export] Hint Extern 1 (appends (if_task _ _)) => apply appends_if_task; intros ? ?; reflexivity : locks.

(** Follow the structure of a method. *)
Ltac footprint := eauto 12 with locks.

Section methods.
Context {Addr : Type} `{Env} (actor : RaftActorOptions Addr) (options : RaftFSMOptions).

Local Abbreviation fsm := (RaftFSM (list Instr) TaskName).
Local Abbreviation M A := (comp fsm (FsmEffect Addr) A).

Lemma appends_pause : appends (pause_scheduled_tasks : M unit).
Proof. unfold pause_scheduled_tasks. footprint. Qed.

Lemma appends_clear_candidate : appends (clear_candidate_state : M unit).
Proof. unfold clear_candidate_state, stop_election_timeout. footprint. Qed.

Lemma appends_clear_prev : appends (clear_prev_state : M unit).
Proof.
  unfold clear_prev_state. apply appends_get. intros s. destruct (role_ s).
  - unfold clear_follower_state. footprint.
  - apply appends_clear_candidate.
  - unfold clear_leader_state, stop_heartbeat. footprint.
Qed.

Lemma appends_inc_term : appends (inc_term : M unit).
Proof. unfold inc_term. footprint. Qed.

Lemma appends_init_candidate : appends (init_candidate_state actor options : M unit).
Proof.
  unfold init_candidate_state, vote_self, request_vote_for_self, send.
  apply appends_bind; [footprint|intros _]. apply appends_bind.
  - apply appends_get. intros s. destruct (vote_for_leader _ _) as [voted v]. footprint.
  - intros _. apply appends_for_each. intros peer. footprint.
Qed.

Lemma appends_invoke run name fn :
  (forall calls, appends (run calls : M unit)) -> appends (invoke run name fn).
Proof. intros Hrun. unfold invoke. destruct fn; footprint. Qed.

Lemma appends_convert_to_follower run :
  (forall calls, appends (run calls : M unit)) -> appends (convert_to_follower_with options run).
Proof.
  intros Hrun. unfold convert_to_follower_with, init_follower_state.
  apply appends_get. intros s. apply appends_when.
  apply appends_bind; [apply appends_clear_prev|intros _].
  apply appends_bind; [footprint|intros _]. apply appends_bind; [footprint|intros _].
  apply appends_when. by apply appends_invoke.
Qed.

Lemma appends_api_call run c :
  (forall calls, appends (run calls : M unit)) -> appends (api_call_with options run c).
Proof.
  intros Hrun. pose proof (appends_convert_to_follower run Hrun). pose proof appends_pause.
  destruct c; simpl; unfold block_with, stay_follower_with, unblock, stop; footprint.
Qed.

Lemma appends_run_calls depth calls : appends (run_calls options depth calls : M unit).
Proof.
  revert calls. induction depth as [|depth IH]; intros calls; simpl.
  - destruct calls; footprint.
  - apply appends_for_each. intros c. by apply appends_api_call.
Qed.

#[local] Hint Resolve appends_clear_prev appends_inc_term appends_init_candidate appends_invoke
  appends_run_calls appends_clear_candidate : locks.

Lemma appends_candidate : appends (convert_to_candidate actor options : M unit).
Proof. unfold convert_to_candidate. footprint. Qed.

Lemma appends_leader : appends (convert_to_leader options : M unit).
Proof. unfold convert_to_leader, init_leader_state. footprint. Qed.

Lemma appends_peer_address event : appends (peer_address actor event : M Addr).
Proof. unfold peer_address. footprint. Qed.

#[local] Hint Resolve appends_candidate appends_leader appends_peer_address
  appends_convert_to_follower : locks.

Lemma appends_handle_locked event : appends (handle_locked actor options event : M unit).
Proof.
  unfold handle_locked. apply appends_get. intros s0. apply appends_bind.
  { unfold convert_to_follower. footprint. }
  intros _. destruct event; cbn beta iota.
  - unfold handle_request_vote, send. apply appends_get. intros s. destruct (is_stale _ s); [footprint|].
    apply appends_bind; [footprint|intros _]. apply appends_get. intros s1.
    destruct (vote_for_leader _ _). footprint.
  - unfold handle_request_vote_response. footprint.
  - unfold handle_append_entries, convert_to_follower, send. cbn [is_heartbeat].
    apply appends_get. intros s. apply appends_bind; footprint.
  - unfold handle_append_entries_response. footprint.
  - unfold handle_election_timeout, start_new_election. apply appends_get. intros s.
    destruct (role_ s); footprint.
Qed.

Lemma handle_locks_segment event s : segment [] (handle_locks actor options event s).
Proof.
  unfold handle_locks. destruct (blocked_ s); [apply segment_nil|].
  apply segment_scoped; [done|]. unfold footprint.
  destruct (appends_handle_locked event (set_scheduler [] s)) as (p & -> & _ & Hp). done.
Qed.

Lemma api_locks_segment c s : segment [] (api_locks (Addr := Addr) options c s).
Proof.
  unfold api_locks, footprint.
  destruct (appends_api_call (run_calls options callback_depth) c (appends_run_calls _)
    (set_scheduler [] s)) as (p & -> & Hp & _). done.
Qed.

(** A follower that grants or refuses a vote resets its timer under the handler's
    mutex. *)
Lemma vote_request_locks (id term : Z) s :
  role_ s = follower -> blocked_ s = false -> election_timeout_task_ s = Some ElectionTask ->
  (term_ s <= term)%Z ->
  handle_locks actor options (RequestVoteReq id term) s
  = scoped HandlerMtx (reset_locks ElectionTask).
Proof.
  intros Hr Hb Htask Hterm. unfold handle_locks. rewrite Hb. f_equal. unfold footprint.
  destruct s as [tr b r t l v e p h]. simpl in *. subst.
  assert (forall s0 : fsm, scheduler_ s0 = [] -> role_ s0 = follower -> (term_ s0 <= term)%Z ->
    election_timeout_task_ s0 = Some ElectionTask ->
    scheduler_ (handle_request_vote actor (RequestVoteReq id term) s0).1.2 = reset_locks ElectionTask)
    as Hvote.
  { intros s0 Hs0 Hr0 Ht0 He0. unfold handle_request_vote, is_stale. rewrite run_get.
    rewrite (proj2 (Z.ltb_ge _ _)) by done. rewrite Hr0, bool_decide_eq_true_2 by done. cbn [when].
    assert (reset_election_timeout s0 = ([] : list (FsmEffect Addr),
      set_election_task (Some ElectionTask) (set_scheduler (reset_locks ElectionTask) s0), Ok tt)) as Hreset.
    { unfold reset_election_timeout. rewrite run_get, He0. by rewrite <- (app_nil_l (reset_locks _)), <- Hs0. }
    erewrite run_bind_ok by exact Hreset. rewrite after_nil, run_get.
    destruct (vote_for_leader _ _) as [granted v']. rewrite run_modify. unfold peer_address, send.
    by destruct (get_peer actor _). }
  unfold handle_locked. rewrite run_get. cbn [term_ get_term set_scheduler].
  destruct (Z.ltb_spec t term); cbn [when].
  - rewrite run_bind_bind, run_modify.
    assert (forall s0 : fsm, role_ s0 = follower ->
      (convert_to_follower options : M unit) s0 = ([], s0, Ok tt)) as Hconv.
    { intros s0 Hs0. unfold convert_to_follower, convert_to_follower_with. rewrite run_get.
      by rewrite Hs0, bool_decide_eq_true_2 by done. }
    erewrite run_bind_ok by (by apply Hconv). rewrite after_nil. by apply Hvote; simpl.
  - rewrite run_ret. by apply Hvote.
Qed.

(** What a thread of the network or of the user does. *)
Inductive Job :=
| HandleJob (event : RaftEvent) (s : fsm)
| ApiJob (c : ApiCall) (s : fsm).

Definition job_locks (j : Job) : list Instr :=
  match j with
  | HandleJob event s => handle_locks actor options event s
  | ApiJob c s => api_locks (Addr := Addr) options c s
  end.

(** Threads that handle messages, with the callbacks these run, and threads
    that call [stay_follower], [block], [unblock] and [stop] never deadlock,
    whatever they do and in whatever states: every method acquires the handler
    mutex before that of a timer and that before the scheduler's. *)
Theorem handlers_do_not_deadlock (programs : list (list Job)) schedule ts :
  interleave schedule (spawn ((fun jobs => jobs ≫= job_locks) <$> programs)) = Some ts ->
  ~ deadlocked ts.
Proof.
  intros Hrun. apply ordered_not_deadlocked. eapply interleave_ordered; [|exact Hrun].
  unfold spawn. rewrite !Forall_fmap. apply Forall_forall. intros jobs _.
  unfold compose, thread_ordered. simpl. apply segment_ordered.
  induction jobs as [|j jobs IH]; [apply segment_nil|]. simpl. apply segment_app; [|done].
  destruct j; [apply handle_locks_segment|apply api_locks_segment].
Qed.

(** C23. The executor and a message can deadlock.  A follower's election timeout
    fires while a vote request arrives: the executor holds the scheduler's
    mutex, under which it calls the task, and waits for the handler's; the
    thread of the message holds the handler's and, resetting the election
    timer, waits for the scheduler's. *)
Theorem executor_deadlocks_with_handler (id term : Z) s :
  role_ s = follower -> blocked_ s = false -> election_timeout_task_ s = Some ElectionTask ->
  (term_ s <= term)%Z ->
  exists schedule ts,
    interleave schedule (spawn [executor_locks actor options FireElectionTimeout s;
                                handle_locks actor options (RequestVoteReq id term) s]) = Some ts /\
    deadlocked ts.
Proof.
  intros Hr Hb Htask Hterm. rewrite vote_request_locks by done.
  unfold executor_locks, callable_locks, handle_locks. rewrite Hb.
  exists [0; 0; 1; 1]. eexists. split; [reflexivity|]. split.
  - by left.
  - intros [|[|i]]; reflexivity.
Qed.

End methods.

(** ** Examples *)

Section examples.
#[local] Existing Instance example_env.

Definition recorded_follower : RaftFSM (list Instr) TaskName :=
  set_election_task (Some ElectionTask) (new_RaftFSM []).

Lemma handlers_do_not_deadlock_witness :
  ~ deadlocked [mkThread [HandlerMtx]
      (tail (handle_locks five_options default_FSMOptions (RequestVoteReq 2 1) recorded_follower))].
Proof.
  apply (handlers_do_not_deadlock five_options default_FSMOptions
    [[HandleJob (RequestVoteReq 2 1) recorded_follower]] [0]).
  vm_compute. reflexivity.
Defined.

Lemma executor_deadlocks_with_handler_witness :
  exists schedule ts,
    interleave schedule (spawn
      [executor_locks five_options default_FSMOptions FireElectionTimeout recorded_follower;
       handle_locks five_options default_FSMOptions (RequestVoteReq 2 1) recorded_follower]) = Some ts /\
    deadlocked ts.
Proof.
  apply (executor_deadlocks_with_handler five_options default_FSMOptions 2 1 recorded_follower);
    (done || simpl; lia).
Defined.
End examples.
