(* ===== verification/RaftFactory.v ===== *)
(** * raft_factory.hpp: building a server from options

    The factory copies the user's options into those of the actor and of the
    state machine.  The intervals of the timers follow from the options. *)
From S2P Require Import Prelude Timers NetworkUtil Protocol NodeCommon Scheduler RaftActor Fsm.
From S2P Require Import ElectionSpec FsmRefinement.
Local Open Scope Z_scope.

(** class RaftOptions *)
Record RaftOptions := mkRaftOptions {
  opt_peers : gmap Z RemoteRaftActorAddress;
  opt_self : Z;
  election_timeout_ms : Z * Z;
  heartbeat_rate_ms : Z;
  opt_on_become_leader : option RaftFSMCallback;
  opt_on_sign_off_leader : option RaftFSMCallback;
}.

(** The members with default initialisers. *)
Definition default_RaftOptions (peers : gmap Z RemoteRaftActorAddress) (self : Z) : RaftOptions :=
  mkRaftOptions peers self (300, 500) 100 None None.

Definition create_remote_address (endpoint : EndPoint) : RemoteRaftActorAddress :=
  mkRemoteAddress endpoint.

Definition fsm_options (options : RaftOptions) : RaftFSMOptions :=
  mkFSMOptions (election_timeout_ms options) (heartbeat_rate_ms options)
    (opt_on_become_leader options) (opt_on_sign_off_leader options).

(** The actor and the state machine that owns it, with a scheduler of its own. *)
Definition create_raft_fsm (options : RaftOptions)
    : RemoteRaftActor * RaftFSM (Scheduler FsmCallable) ScheduledTask :=
  let actor_options := RemoteRaftActorOptions_of (opt_peers options) (opt_self options) in
  (new_RemoteRaftActor actor_options, new_RaftFSM new_scheduler).

Section factory.
Context `{HE : Env, !EnvOk HE}.

(** The election timeout lies between the configured bounds, the upper one
    excluded, for every result of [rand]; with equal bounds the computation is
    undefined: it divides by zero. *)
Theorem election_interval_bounds options r :
  let '(min, max) := opt_election_timeout options in
  (0 <= min < max /\ max < 2 ^ 31 ->
   exists v, election_interval options r = Ok (v, S r) /\ min <= v < max) /\
  (0 <= min < 2 ^ 31 -> min = max ->
   election_interval options r = Err (UndefinedBehaviour "remainder by zero")).
Proof.
  unfold election_interval. destruct (opt_election_timeout options) as [lo hi]. split.
  - intros [Hlt Hhi]. pose proof (rand_range r) as Hr.
    pose proof (Z.rem_bound_pos (rand r) (hi - lo)) as Hrem.
    exists (Z.rem (rand r) (hi - lo) + lo). split; [|lia]. unfold int_arith.
    rewrite bool_decide_eq_true_2 by lia. simpl. rewrite (proj2 (Z.eqb_neq _ _)) by lia. simpl.
    rewrite bool_decide_eq_true_2 by lia. simpl. rewrite wrap_small; [done|].
    unfold in_range. lia.
  - intros Hlo <-. by rewrite Z.sub_diag.
Qed.

(** A server built by the factory starts as an unblocked follower of term 0
    that has no vote and no timer, knows the peers and its own id, and is ready:
    with valid timeouts, in particular the default ones, [start] runs to
    completion and leaves the election timer running. *)
Theorem factory_builds_ready_server options :
  let '(min, max) := election_timeout_ms options in
  0 <= min < max -> max < 2 ^ 31 ->
  let '(actor, fsm) := create_raft_fsm options in
  wf fsm /\ view fsm = new_Node /\ self (get_options actor) = opt_self options /\
  peers (get_options actor) = opt_peers options /\
  exists s', start (Addr := RemoteRaftActorAddress) (fsm_options options) fsm = ([StartActor], s', Ok tt) /\
    wf s' /\ n_election (view s') = Running /\ n_role (view s') = follower.
Proof.
  destruct (election_timeout_ms options) as [lo hi] eqn:Hms. intros Hlt Hhi. simpl.
  assert (ts_wf (C := FsmCallable) (new_scheduler : Scheduler FsmCallable)) as Hts by exact wf_new.
  destruct (new_fsm_view _ Hts) as [Hwf Hv].
  split_and!; [done..|].
  assert (options_ok (fsm_options options)) as Hok
    by (unfold options_ok, fsm_options; simpl; rewrite Hms; done).
  destruct (start_runs (Addr := RemoteRaftActorAddress) (fsm_options options) Hok
    (new_RaftFSM new_scheduler) Hwf) as (s' & Hrun & Hv' & Hwf').
  exists s'. split; [done|]. split; [done|].
  split; [exact (f_equal n_election Hv')|exact (f_equal n_role Hv')].
Qed.

End factory.

Section examples.
#[local] Existing Instance example_env.
#[local] Existing Instance example_env_ok.

Lemma election_interval_bounds_witness :
  (exists v, election_interval default_FSMOptions 0%nat = Ok (v, 1%nat) /\ 150 <= v < 300) /\
  election_interval (mkFSMOptions (200, 200) 50 None None) 0%nat
  = Err (UndefinedBehaviour "remainder by zero").
Proof.
  split.
  - apply (election_interval_bounds default_FSMOptions 0%nat). simpl. lia.
  - apply (election_interval_bounds (mkFSMOptions (200, 200) 50 None None) 0%nat); simpl; lia.
Defined.

Lemma factory_builds_ready_server_witness :
  exists s', start (Addr := RemoteRaftActorAddress) (fsm_options (default_RaftOptions five_peers 1))
      (create_raft_fsm (default_RaftOptions five_peers 1)).2 = ([StartActor], s', Ok tt) /\
    wf s' /\ n_election (view s') = Running /\ n_role (view s') = follower.
Proof.
  apply (factory_builds_ready_server (default_RaftOptions five_peers 1)); simpl; lia.
Defined.
End examples.
