(* ===== verification/Timing.v ===== *)
(** * A server in real time: the state machine on the executor

    Fsm.v is proved against the interface of timers, and in Cluster.v a timer
    that runs may expire at any moment, and the turns of a heartbeat loop are steps
    of their own.  Here the state machine is joined with the
    executor of scheduler.hpp and the clock it reads: [round] is one call of
    [execute_due_tasks], which calls the methods of the state machine, undisturbed by
    other threads of the server.
    [round_fires]: a round is the expiry of those timers that run and whose
    deadline has passed, each once, and nothing else.  From it follow what a
    heartbeat in time prevents and what a missing one causes. *)
From S2P Require Import Prelude Timers NetworkUtil Protocol Scheduler RaftActor Fsm RaftFactory.
From S2P Require Import ElectionSpec ElectionFacts FsmRefinement Cluster.
Local Open Scope Z_scope.

(** ** The program: a state machine that owns its scheduler *)

Abbreviation machine := (RaftFSM (Scheduler FsmCallable) ScheduledTask).

#[export] Instance machine_scheduler : HasScheduler machine FsmCallable := {|
  sched := scheduler_;
  with_sched c s := set_scheduler c s;
  sched_with_sched _ _ := eq_refl;
|}.

(** The member that holds the task of a callable. *)
Definition the_task (c : FsmCallable) (s : machine) : option ScheduledTask :=
  match c with FireElectionTimeout => election_timeout_task_ s | SendHeartbeats => heartbeat_task_ s end.

(** When it is due. *)
Definition deadline (c : FsmCallable) (s : machine) : option Z :=
  h ← the_task c s; due_time_ <$> tasks (scheduler_ s) !! task_ h.

Definition status (c : FsmCallable) (n : Node) : TimerStatus :=
  match c with FireElectionTimeout => n_election n | SendHeartbeats => n_heartbeat n end.

#[export] Instance FsmCallable_eq_dec : EqDecision FsmCallable.
Proof. solve_decision. Defined.

Section timing.
Context {Addr : Type} `{HE : Env, !EnvOk HE}.
Context (actor : RaftActorOptions Addr) (options : RaftFSMOptions).
Context (Hopt : options_ok options).

Local Abbreviation M := (comp machine (FsmEffect Addr)).
Implicit Types (s : machine) (c : FsmCallable) (h : ScheduledTask) (now : Z).

(** One call of [execute_due_tasks]: the tasks of the queue are all it can call. *)
Definition round : M unit :=
  s ← get_state; execute_due_tasks (run_callable actor options) (S (length (task_queue (scheduler_ s)))).

(** What the expiry of a timer does, as a rule. *)
Definition fire c : Node -> list (FsmEffect Addr) * Node :=
  match c with
  | FireElectionTimeout => handle_rule actor options ElectionTimeoutEvent
  | SendHeartbeats => heartbeat_rule actor
  end.

(** The timer runs and its deadline has passed. *)
Definition expired now c s : bool :=
  bool_decide (status c (view s) = Running) && from_option (fun d => d <=? now) false (deadline c s).

(** ** The tasks of a state machine *)

Definition interval_of c : IntervalSupplier :=
  match c with FireElectionTimeout => election_interval options | SendHeartbeats => heartbeat_interval options end.

(** Every task was made for one of the two timers, those not cancelled are the
    timers, and these are in the queue; [popped] is the task the executor has
    taken from it, if it is calling one. *)
Record tidy_but (popped : option nat) s : Prop := {
  td_sched : sched_wf (scheduler_ s);
  td_leader : leader_ s = uint64_max;
  td_tasks id t : tasks (scheduler_ s) !! id = Some t ->
    max_calls_ t = -1 /\ interval_ t = interval_of (callable_ t) /\
    (cancelled_ t = false -> the_task (callable_ t) s = Some (mkScheduledTask id));
  td_own c h : the_task c s = Some h -> exists t,
    tasks (scheduler_ s) !! task_ h = Some t /\ callable_ t = c /\ cancelled_ t = false /\
    (task_ h ∈ task_queue (scheduler_ s) \/ popped = Some (task_ h));
}.

Definition tidy : machine -> Prop := tidy_but None.

Lemma tidy_wf popped s : tidy_but popped s -> wf s.
Proof.
  intros [Hs Hl _ Hown]. split; [done|done|..].
  all: intros h Hh; first [destruct (Hown FireElectionTimeout h Hh) as (t & Ht & Hc & Hcan & _)
    |destruct (Hown SendHeartbeats h Hh) as (t & Ht & Hc & Hcan & _)].
  all: exists (paused_ t); cbn; unfold sched_view; rewrite lookup_fmap, Ht; cbn; unfold view_of; by rewrite Hc, Hcan.
Qed.

Lemma new_tidy : tidy (new_RaftFSM new_scheduler).
Proof. split; [apply wf_new|done|intros id t Hid; cbn in Hid; by rewrite lookup_empty in Hid|by intros [] h]. Qed.

(** Every method keeps the tasks tidy. *)
Definition keeps_tidy popped s s' : Prop := tidy_but popped s -> tidy_but popped s'.

#[local] Instance keeps_tidy_preorder popped : PreOrder (keeps_tidy popped).
Proof. split; [by intros s ?|]. intros s1 s2 s3 H12 H23 Hs. by apply H23, H12. Qed.

(** A change of the other members. *)
Lemma keeps_members popped s s' : scheduler_ s' = scheduler_ s -> leader_ s' = leader_ s ->
  (forall c, the_task c s' = the_task c s) -> keeps_tidy popped s s'.
Proof.
  intros Hsc Hl Ht [Hs Hle Htasks Hown]. split; rewrite ?Hsc, ?Hl; [done|done|..].
  - intros id t Hid. rewrite Ht. by apply Htasks.
  - intros c h. rewrite Ht. apply Hown.
Qed.

(** The paused flag of a task. *)
Lemma keeps_paused popped b id s :
  keeps_tidy popped s (set_scheduler (set_tasks (alter (set_paused b) id) (scheduler_ s)) s).
Proof.
  intros [Hs Hl Htasks Hown]. split; cbn; [by apply wf_alter|done|..].
  - intros id' t Hid. rewrite lookup_alter in Hid. case_decide as Heq; [subst id'|by apply Htasks].
    destruct (tasks (scheduler_ s) !! id) as [t0|] eqn:Ht0; [|done]. injection Hid as <-. cbn.
    by apply (Htasks id t0).
  - intros c h Hh. destruct (Hown c h) as (t & Ht & Hc & Hcan & Hq); [by destruct c|].
    destruct (decide (id = task_ h)) as [->|Hne].
    + rewrite lookup_alter_eq, Ht. by exists (set_paused b t).
    + rewrite lookup_alter_ne by done. by exists t.
Qed.

Definition set_task c (x : option ScheduledTask) s : machine :=
  match c with FireElectionTimeout => set_election_task x s | SendHeartbeats => set_heartbeat_task x s end.

(** A new task for the timer [c]; the old one, if there is one, is cancelled. *)
Lemma keeps_new_task popped c sch p due n s : sched_wf sch ->
  tasks sch !! n = Some (mkTask (-1) (interval_of c) c due false p) ->
  task_queue sch = n :: task_queue (scheduler_ s) -> tasks (scheduler_ s) !! n = None ->
  (forall id t, id <> n -> tasks sch !! id = Some t -> exists t0, tasks (scheduler_ s) !! id = Some t0 /\
     (t = t0 /\ the_task c s <> Some (mkScheduledTask id) \/ t = set_cancelled t0)) ->
  (forall id, id <> n -> the_task c s <> Some (mkScheduledTask id) -> tasks sch !! id = tasks (scheduler_ s) !! id) ->
  keeps_tidy popped s (set_task c (Some (mkScheduledTask n)) (set_scheduler sch s)).
Proof.
  intros Hwf Hn Hq Hfresh Hold Hsame [Hs Hl Htasks Hown].
  assert (scheduler_ (set_task c (Some (mkScheduledTask n)) (set_scheduler sch s)) = sch) as Hsc by by destruct c.
  assert (forall c', the_task c' (set_task c (Some (mkScheduledTask n)) (set_scheduler sch s))
    = if decide (c' = c) then Some (mkScheduledTask n) else the_task c' s) as Htask.
  { intros c'. by destruct c, c'. }
  split; rewrite ?Hsc; [done|by destruct c|..].
  - intros id t Hid. rewrite Htask. destruct (decide (id = n)) as [->|Hne].
    + rewrite Hn in Hid. injection Hid as <-. cbn. by rewrite decide_True.
    + destruct (Hold id t Hne Hid) as (t0 & Ht0 & [[-> Hc]| ->]); destruct (Htasks id t0 Ht0) as (Hmax & Hint & Hcan).
      * split; [done|]. split; [done|]. intros Hlive. case_decide as Hcc; [|by apply Hcan].
        destruct Hc. rewrite <- Hcc. by apply Hcan.
      * by cbn.
  - intros c' h. rewrite Htask, Hq. case_decide as Hcc.
    + intros [= <-]. eexists. split; [exact Hn|]. split; [done|]. split; [done|]. left. by left.
    + intros Hh. destruct (Hown c' h Hh) as (t & Ht & Hc & Hcan & Hin). exists t. rewrite Hsame; [|congruence|].
      * split; [done|]. split; [done|]. split; [done|]. destruct Hin as [?|?]; [left; by right|by right].
      * intros Heq. destruct (Hown c (mkScheduledTask (task_ h)) Heq) as (t' & Ht' & Hc' & _). cbn in Ht'. congruence.
Qed.

Lemma keeps_if_task popped task f : f = ts_pause \/ f = ts_resume ->
  preserves (keeps_tidy popped) (if_task task f : M unit).
Proof.
  intros Hf s. unfold if_task. run. destruct (task s) as [h|]; [|by cbn].
  destruct Hf as [-> | ->]; cbn; apply keeps_paused.
Qed.

Lemma keeps_start c popped : preserves (keeps_tidy popped)
  (match c with FireElectionTimeout => start_election_timeout options | SendHeartbeats => start_heartbeat options end : M unit).
Proof.
  intros s. destruct (the_task c s) as [h|] eqn:Hh.
  - destruct c; cbn in Hh; unfold start_election_timeout, start_heartbeat; run; rewrite Hh; cbn; apply keeps_paused.
  - assert (supplier_ok (interval_of c)) as Hsup by (destruct c; [by apply options_supplier|intros r; by eexists _, _]).
    assert ((match c with FireElectionTimeout => start_election_timeout options | SendHeartbeats => start_heartbeat options end : M unit) s
      = (r ← lift (schedule (interval_of c) c (-1) (scheduler_ s)); modify (fun s => set_task c (Some r.1) (set_scheduler r.2 s))) s) as ->.
    { destruct c; cbn in Hh; unfold start_election_timeout, start_heartbeat; run; rewrite Hh;
        unfold ts_schedule; cbn [scheduler_timer_ops interval_of].
      - destruct (schedule (election_interval options) FireElectionTimeout (-1) (scheduler_ s)) as [[]|]; by cbn.
      - destruct (schedule (heartbeat_interval options) SendHeartbeats (-1) (scheduler_ s)) as [[]|]; by cbn. }
    destruct (run_after_ok (interval_of c) c (-1) (scheduler_ s) Hsup) as (v & r & Hv & Hrun).
    unfold schedule. rewrite Hrun. cbn. intros Htidy. pose proof (td_sched _ _ Htidy) as Hwf.
    revert Htidy. eapply (keeps_new_task popped c _ false _ (next_task (scheduler_ s))).
    + by apply (wf_run_after (scheduler_ s) (mkTask (-1) (interval_of c) c _ false false)).
    + cbn. by rewrite lookup_insert_eq.
    + done.
    + by apply wf_fresh.
    + intros id t Hne. cbn. rewrite lookup_insert_ne by done. intros Hid. exists t. split; [done|]. left. split; [done|congruence].
    + intros id Hne _. cbn. by rewrite lookup_insert_ne.
Qed.

Lemma keeps_reset popped : preserves (keeps_tidy popped) (reset_election_timeout : M unit).
Proof.
  intros s Htidy. unfold reset_election_timeout. run. destruct (election_timeout_task_ s) as [h|] eqn:Hh; [|done]. cbn [deref]. run.
  destruct (td_own _ _ Htidy FireElectionTimeout h Hh) as (t & Ht & Hc & Hcan & _).
  destruct (td_tasks _ _ Htidy (task_ h) t Ht) as (Hmax & Hint & _).
  pose proof (td_sched _ _ Htidy) as Hwf.
  destruct (reset_ok h (scheduler_ s) t Hwf Ht) as (v & r & due & Hv & -> & Hreset).
  unfold ts_reset. cbn [scheduler_timer_ops]. rewrite Hreset. cbn.
  assert (task_ h <> next_task (scheduler_ s)) as Hnew.
  { intros Heq. rewrite Heq, wf_fresh in Ht by done. done. }
  revert Htidy. eapply (keeps_new_task popped FireElectionTimeout _ (paused_ t) _ (next_task (scheduler_ s))).
  - destruct (wf_tasks _ Hwf _ _ Ht). refine (wf_run_after (set_tasks (alter set_cancelled (task_ h)) (scheduler_ s))
      (mkTask _ _ _ _ _ _) _ _ (wf_alter _ _ _ _ Hwf) _); done.
  - cbn. rewrite lookup_insert_eq, Hmax, Hint, Hc, Hcan. done.
  - done.
  - by apply wf_fresh.
  - intros id t' Hne. cbn. rewrite lookup_insert_ne by done. destruct (decide (id = task_ h)) as [->|Hid].
    + rewrite lookup_alter_eq, Ht. intros [= <-]. exists t. split; [done|by right].
    + rewrite lookup_alter_ne by done. intros Ht'. exists t'. split; [done|]. left. split; [done|].
      cbn. rewrite Hh. intros [= ->]. by destruct Hid.
  - intros id Hne Hid. cbn in *. rewrite lookup_insert_ne, lookup_alter_ne; [done| |done].
    intros <-. destruct Hid. rewrite Hh. by destruct h.
Qed.

(** *** All methods

    A relation that the timer operations and changes of other members keep is kept
    by the methods built from them. *)

Section methods.
Context (R : machine -> machine -> Prop) `{!PreOrder R}.
Context (R_if_task : forall task f, f = ts_pause \/ f = ts_resume -> preserves R (if_task task f : M unit)).
Context (R_start : preserves R (start_election_timeout options : M unit)).
Context (R_members : forall s s', scheduler_ s' = scheduler_ s -> leader_ s' = leader_ s ->
  (forall c, the_task c s' = the_task c s) -> R s s').
Implicit Types (run : list ApiCall -> M unit).

Ltac method := first
  [ assumption
  | by (apply R_if_task; auto)
  | by (apply R_members; [done|done|intros []])
  | by eauto ].

Lemma clear_prev_preserves : preserves R (clear_prev_state : M unit).
Proof. unfold clear_prev_state, clear_candidate_state, clear_leader_state, stop_heartbeat. preserve method. Qed.

Lemma invoke_preserves run name callback : (forall calls, preserves R (run calls)) -> preserves R (invoke run name callback).
Proof. unfold invoke. preserve method. Qed.

Lemma convert_to_follower_preserves run : (forall calls, preserves R (run calls)) ->
  preserves R (convert_to_follower_with options run).
Proof.
  intros Hrun. pose proof clear_prev_preserves. pose proof (fun n f => invoke_preserves run n f Hrun).
  unfold convert_to_follower_with. preserve method.
Qed.

Lemma api_call_preserves run (call : ApiCall) : (forall calls, preserves R (run calls)) ->
  preserves R (api_call_with options run call).
Proof.
  intros Hrun. pose proof (convert_to_follower_preserves run Hrun).
  destruct call; cbn; unfold block_with, stay_follower_with, pause_scheduled_tasks, unblock, stop; preserve method.
Qed.

Lemma run_calls_preserves depth calls : preserves R (run_calls options depth calls : M unit).
Proof.
  revert calls. induction depth as [|depth IH]; intros calls; cbn [run_calls].
  - destruct calls; preserve method.
  - apply preserves_for_each; [apply _|]. intros call. by apply api_call_preserves.
Qed.

Lemma callbacks_preserve name callback :
  preserves R (invoke (run_calls options callback_depth) name callback : M unit).
Proof. apply invoke_preserves, run_calls_preserves. Qed.

Lemma init_candidate_preserves : preserves R (init_candidate_state actor options).
Proof. unfold init_candidate_state, vote_self, request_vote_for_self, send. preserve method. Qed.

Lemma election_timeout_preserves : preserves R (handle_election_timeout actor options).
Proof.
  pose proof clear_prev_preserves. pose proof init_candidate_preserves. pose proof callbacks_preserve.
  assert (preserves R (clear_candidate_state : M unit)) by (unfold clear_candidate_state; preserve method).
  unfold handle_election_timeout, convert_to_candidate, start_new_election, inc_term. preserve method.
Qed.

Lemma catch_up_preserves b term : preserves R (when b (modify (set_term term) ;; convert_to_follower options) : M unit).
Proof.
  pose proof (convert_to_follower_preserves _ (run_calls_preserves callback_depth)).
  unfold convert_to_follower. preserve method.
Qed.

(** Messages may create the heartbeat task and reset the election task. *)
Lemma handle_preserves event : preserves R (start_heartbeat options : M unit) -> preserves R (reset_election_timeout : M unit) ->
  preserves R (handle actor options event).
Proof.
  intros Hheart Hreset. pose proof clear_prev_preserves. pose proof callbacks_preserve. pose proof election_timeout_preserves.
  pose proof catch_up_preserves. pose proof (convert_to_follower_preserves _ (run_calls_preserves callback_depth)).
  unfold handle, handle_locked, handle_request_vote, handle_request_vote_response, handle_append_entries,
    handle_append_entries_response, convert_to_leader, peer_address, send, inc_term.
  preserve method.
Qed.

Lemma fires_preserves c : preserves R (run_callable actor options c).
Proof.
  pose proof election_timeout_preserves. pose proof catch_up_preserves.
  destruct c; cbn [run_callable]; unfold handle, handle_locked, send_heartbeats, send; preserve method.
Qed.
End methods.

Lemma handle_tidy popped event : preserves (keeps_tidy popped) (handle actor options event).
Proof.
  apply handle_preserves; [apply _|apply keeps_if_task|apply (keeps_start FireElectionTimeout)|apply keeps_members
    |apply (keeps_start SendHeartbeats)|apply keeps_reset].
Qed.

Lemma start_tidy popped : preserves (keeps_tidy popped) (start options : M unit).
Proof.
  apply preserves_bind; [apply _|apply (keeps_start FireElectionTimeout)|]. intros _. apply preserves_emit. apply _.
Qed.

Lemma callable_tidy popped c : preserves (keeps_tidy popped) (run_callable actor options c).
Proof.
  apply fires_preserves; [apply _|apply keeps_if_task|apply (keeps_start FireElectionTimeout)|apply keeps_members].
Qed.

(** *** An expiry changes no more than the paused flags of the tasks *)

Record flags_only s s' : Prop := {
  fl_tasks : set_paused false <$> tasks (scheduler_ s') = set_paused false <$> tasks (scheduler_ s);
  fl_queue : task_queue (scheduler_ s') = task_queue (scheduler_ s);
  fl_running : running (scheduler_ s') = running (scheduler_ s);
  fl_ticks : ticks (scheduler_ s') = ticks (scheduler_ s);
  fl_task c : the_task c s' = the_task c s;
}.

Definition keeps_flags s s' : Prop := election_timeout_task_ s <> None -> flags_only s s'.

#[local] Instance keeps_flags_preorder : PreOrder keeps_flags.
Proof.
  split; [by intros s _|]. intros s1 s2 s3 H12 H23 Hs. destruct (H12 Hs) as [Ht Hq Hr Hk Hc].
  destruct H23 as [Ht' Hq' Hr' Hk' Hc']; [by change (the_task FireElectionTimeout s2 <> None); rewrite Hc|].
  split; [congruence..|]. intros c. congruence.
Qed.

Lemma flags_paused b id s : keeps_flags s (set_scheduler (set_tasks (alter (set_paused b) id) (scheduler_ s)) s).
Proof.
  intros _. split; cbn; try done. apply map_eq. intros j. rewrite !lookup_fmap, lookup_alter.
  case_decide as Hj; [subst j|done]. by destruct (tasks (scheduler_ s) !! id).
Qed.

Lemma callable_flags c : preserves keeps_flags (run_callable actor options c).
Proof.
  apply fires_preserves; [apply _|..].
  - intros task f Hf s. unfold if_task. run. destruct (task s) as [h|]; [|by cbn].
    destruct Hf as [-> | ->]; cbn; apply flags_paused.
  - intros s. unfold start_election_timeout. run. destruct (election_timeout_task_ s) as [h|] eqn:Hh; [cbn; apply flags_paused|].
    intros Hs. congruence.
  - intros s s' Hsc _ Hc _. by split; rewrite ?Hsc.
Qed.

(** ** One round *)

(** The clock does not go back from its [k]-th reading on. *)
Definition clock_ok (k : nat) : Prop :=
  forall i j, (k <= i <= j)%nat -> 0 <= clock i <= clock j /\ clock j < 2 ^ 63.

Context (Hlo : 1 <= (opt_election_timeout options).1) (Hrate : 1 <= heart_beat_rate options < 2 ^ 63).

Lemma clock_ok_later k k' : (k <= k')%nat -> clock_ok k -> clock_ok k'.
Proof. intros Hk Hc i j Hij. apply Hc. lia. Qed.

Lemma election_interval_range r : let '(lo, hi) := opt_election_timeout options in
  exists v, election_interval options r = Ok (v, S r) /\ lo <= v < hi /\ v < 2 ^ 31.
Proof.
  pose proof (election_interval_bounds options r) as Hb. unfold options_ok in Hopt.
  destruct (opt_election_timeout options) as [lo hi]. destruct Hb as [Hb _].
  destruct (Hb Hopt) as (v & Hv & Hr). exists v. split; [done|]. lia.
Qed.

Lemma interval_positive c r : exists v r', interval_of c r = Ok (v, r') /\ 1 <= v < 2 ^ 63.
Proof.
  destruct c; cbn.
  - pose proof (election_interval_range r) as Hr. destruct (opt_election_timeout options) as [lo hi]. cbn in Hlo.
    destruct Hr as (v & Hv & Hr & Hmax). exists v, (S r). split; [done|lia].
  - exists (heart_beat_rate options), r. unfold heartbeat_interval. rewrite wrap_small; [done|unfold in_range; lia].
Qed.

Lemma status_view c s : status c (view s) = status_of (scheduler_ s) (the_task c s).
Proof. by destruct c. Qed.

(** The node does not depend on the queue, the clock and the due times. *)
Lemma view_scheduler sch s : (forall id, view_of <$> tasks sch !! id = view_of <$> tasks (scheduler_ s) !! id) ->
  view (set_scheduler sch s) = view s.
Proof.
  intros Hv. unfold view. cbn. unfold status_of.
  assert (sched_view sch = sched_view (scheduler_ s)) as Heq.
  { apply map_eq. intros id. unfold sched_view. by rewrite !lookup_fmap. }
  cbn [ts_view scheduler_timer_service]. by rewrite Heq.
Qed.

Lemma tidy_pop id s : tidy s -> id ∈ task_queue (scheduler_ s) ->
  tidy_but (Some id) (set_scheduler (pop id (scheduler_ s)) s) /\ id ∉ remove_first id (task_queue (scheduler_ s)).
Proof.
  intros [Hs Hl Ht Hown] Hin. split.
  - split; cbn; [by apply wf_pop|done|by intros id' t; destruct (callable_ t) eqn:?; rewrite <- ?Heqf; apply Ht|].
    intros c h Hh. destruct (Hown c h) as (t & Htask & Hc & Hcan & Hq); [by destruct c|]. exists t.
    split; [done|]. split; [done|]. split; [done|]. destruct Hq as [Hq|?]; [|done].
    rewrite (remove_first_perm id) in Hq by done. apply elem_of_cons in Hq as [->|?]; [by right|by left].
  - pose proof (wf_nodup _ Hs) as Hnd. rewrite (remove_first_perm id) in Hnd by done. by apply NoDup_cons in Hnd as [? _].
Qed.

(** The executor renews the task it has called and puts it back. *)
Definition put_back (due : Z) (r : nat) id s : machine :=
  let sch := scheduler_ s in
  set_scheduler (mkScheduler (alter (set_due_time due) id (tasks sch)) (id :: task_queue sch) (running sch)
    (next_task sch) (S (ticks sch)) r) s.

Lemma put_back_ok id t s : tidy_but (Some id) s -> tasks (scheduler_ s) !! id = Some t -> cancelled_ t = false ->
  id ∉ task_queue (scheduler_ s) -> clock_ok (ticks (scheduler_ s)) ->
  exists v r, (c ← renew id (scheduler_ s); Ok (tt, c))
    = Ok (tt, set_task_queue tail (scheduler_ (put_back (clock (ticks (scheduler_ s)) + v) r id s))) /\
  1 <= v < 2 ^ 63 /\ tidy (put_back (clock (ticks (scheduler_ s)) + v) r id s).
Proof.
  intros Hs Ht Hcan Hnin Hclock. destruct (td_tasks _ _ Hs id t Ht) as (Hmax & Hint & Htask). specialize (Htask Hcan).
  destruct (interval_positive (callable_ t) (rands (scheduler_ s))) as (v & r & Hv & Hpos). exists v, r.
  destruct (Hclock (ticks (scheduler_ s)) (ticks (scheduler_ s)) ltac:(lia)) as [Hc0 Hc1].
  assert (u64 (u64 (clock (ticks (scheduler_ s))) + v) = clock (ticks (scheduler_ s)) + v) as Hdue.
  { rewrite (wrap_small 64 (clock _)) by (unfold in_range; lia). apply wrap_small. unfold in_range. lia. }
  split; [|split; [done|]].
  - unfold renew, task_of. rewrite Ht. cbn. unfold due_time_from_now, call_interval. cbn. rewrite Hint, Hv. cbn. by rewrite Hdue.
  - destruct Hs as [Hwf Hl Htasks Hown]. split; cbn.
    + destruct Hwf as [Hw Hq Hnd]. split; cbn.
      * intros j t'. rewrite lookup_alter. case_decide as Hj; [subst j; rewrite Ht; intros [= <-]; cbn; by apply (Hw id)|apply Hw].
      * intros j [->|Hj]%elem_of_cons; rewrite lookup_alter; case_decide; subst; rewrite ?Ht; try by eexists. by apply Hq.
      * by constructor.
    + done.
    + intros j t'. rewrite lookup_alter. case_decide as Hj.
      * subst j. rewrite Ht. intros [= <-]. cbn. split; [done|]. split; [done|]. intros _. by destruct (callable_ t).
      * intros Hj'. destruct (Htasks j t' Hj') as (? & ? & Hown'). split; [done|]. split; [done|]. intros Hc'.
        specialize (Hown' Hc'). by destruct (callable_ t').
    + intros c h Hh. destruct (Hown c h) as (t' & Ht' & Hc & Hcan' & Hq); [by destruct c|].
      rewrite lookup_alter. case_decide as Hj.
      * subst id. rewrite Ht'. exists (set_due_time (clock (ticks (scheduler_ s)) + v) t'). cbn. split; [done|].
        split; [done|]. split; [done|]. left. by left.
      * exists t'. split; [done|]. split; [done|]. split; [done|]. left. right. destruct Hq as [?|[= ?]]; done.
Qed.

Lemma status_running popped id t s : tidy_but popped s -> tasks (scheduler_ s) !! id = Some t -> cancelled_ t = false ->
  status (callable_ t) (view s) = if paused_ t then Suspended else Running.
Proof.
  intros Hs Ht Hcan. destruct (td_tasks _ _ Hs id t Ht) as (_ & _ & Htask). rewrite status_view, Htask by done.
  cbn. unfold sched_view. rewrite lookup_fmap, Ht. by cbn.
Qed.

Lemma callable_fires popped c s : tidy_but popped s -> election_timeout_task_ s <> None -> exists s',
  run_callable actor options c s = ((fire c (view s)).1, s', Ok tt) /\ view s' = (fire c (view s)).2 /\
  tidy_but popped s' /\ flags_only s s'.
Proof.
  intros Hs Hst. pose proof (tidy_wf _ _ Hs) as Hwf.
  assert (started (view s)) as Hstarted.
  { unfold started. change (n_election (view s)) with (status FireElectionTimeout (view s)).
    destruct (election_timeout_task_ s) as [h|] eqn:Hh; [|done].
    destruct (td_own _ _ Hs FireElectionTimeout h Hh) as (t & Ht & Hc & Hcan & _).
    rewrite <- Hc, (status_running popped (task_ h) t) by done. by destruct (paused_ t). }
  assert (runs_to (run_callable actor options c) s (fire c (view s))) as (s' & Hrun & Hv & _).
  { destruct c; [by apply handled|by apply send_heartbeats_runs]. }
  exists s'. split; [done|]. split; [done|].
  pose proof (callable_tidy popped c s Hs) as Htidy. pose proof (callable_flags c s Hst) as Hflags.
  rewrite Hrun in Htidy, Hflags. by cbn in *.
Qed.

(** What an expiry or a pause makes of it. *)
Definition expiry c (n : Node) : list (FsmEffect Addr) * Node :=
  if decide (status c n = Running) then fire c n else ([], n).

Lemma call_own id t s : tidy_but (Some id) s -> tasks (scheduler_ s) !! id = Some t -> cancelled_ t = false ->
  election_timeout_task_ s <> None -> exists s',
  call (run_callable actor options) id s = ((expiry (callable_ t) (view s)).1, s', Ok tt) /\
  view s' = (expiry (callable_ t) (view s)).2 /\ tidy_but (Some id) s' /\ flags_only s s'.
Proof.
  intros Hs Ht Hcan Hst. unfold call, expiry. run. cbn [sched machine_scheduler]. unfold task_of. rewrite Ht. run.
  rewrite (status_running (Some id) id t), Hcan by done. destruct (paused_ t); cbn [negb andb when decide decide_rel].
  - rewrite decide_False by done. exists s. split; [done|]. split; [done|]. split; [done|]. by split.
  - rewrite decide_True by done. destruct (callable_fires (Some id) (callable_ t) s Hs Hst) as (s' & Hrun & Hv & Htidy & Hfl).
    destruct (td_tasks _ _ Hs id t Ht) as (Hmax & _). exists s'. split; [|done].
    cbn [when]. erewrite run_bind_ok by exact Hrun. unfold on_sched, modify. cbn.
    unfold count_call. rewrite Hmax. cbn. rewrite app_nil_r. by destruct s'.
Qed.

(** What one pass of the loop, over the task [id], leaves behind. *)
Record stepped now id s (o : list (FsmEffect Addr) * Node) s1 : Prop := {
  sp_tidy : tidy s1;
  sp_task c : the_task c s1 = the_task c s;
  sp_running : running (scheduler_ s1) = running (scheduler_ s);
  sp_ticks : (ticks (scheduler_ s) <= ticks (scheduler_ s1))%nat;
  sp_queue : due_now now (scheduler_ s1)
    = filter (fun j => due_time (scheduler_ s) j <= now) (remove_first id (task_queue (scheduler_ s)));
  sp_view : o.2 = view s1;
  sp_own c : the_task c s = Some (mkScheduledTask id) -> o = expiry c (view s) /\
    exists d, deadline c s1 = Some d /\ now < d;
  sp_none : (forall c, the_task c s <> Some (mkScheduledTask id)) -> o = ([], view s);
  sp_others c : the_task c s <> Some (mkScheduledTask id) -> deadline c s1 = deadline c s;
}.

Lemma flags_lookup s s' j : flags_only s s' ->
  set_paused false <$> tasks (scheduler_ s') !! j = set_paused false <$> tasks (scheduler_ s) !! j.
Proof. intros Hfl. rewrite <- !lookup_fmap. by rewrite (fl_tasks _ _ Hfl). Qed.

Lemma flags_due s s' j : flags_only s s' ->
  due_time_ <$> tasks (scheduler_ s') !! j = due_time_ <$> tasks (scheduler_ s) !! j.
Proof.
  intros Hfl. pose proof (flags_lookup s s' j Hfl) as Hj.
  destruct (tasks (scheduler_ s') !! j) as [t'|], (tasks (scheduler_ s) !! j) as [t|]; cbn in *; try done.
  injection Hj as _ _ _ Hdue _. by rewrite Hdue.
Qed.

Lemma round_step_cancelled now id t s : tidy s -> id ∈ task_queue (scheduler_ s) ->
  tasks (scheduler_ s) !! id = Some t -> cancelled_ t = true ->
  stepped now id s ([], view s) (set_scheduler (pop id (scheduler_ s)) s).
Proof.
  intros Hs Hin Ht Hcan. assert (forall c, the_task c s <> Some (mkScheduledTask id)) as Hnot.
  { intros c Hc. destruct (td_own _ _ Hs c _ Hc) as (t' & Ht' & _ & Hlive & _). cbn in Ht'. congruence. }
  destruct (tidy_pop id s Hs Hin) as [[Hwf Hl Htasks Hown] _].
  split; [|by intros []|done..|by intros c Hc; destruct (Hnot c)|done|by intros []].
  split; [done..|]. intros c h Hh. destruct (Hown c h Hh) as (t' & Ht' & Hc & Hlive & Hq). exists t'. split; [done|].
  split; [done|]. split; [done|]. left. destruct Hq as [?|[= ->]]; [done|]. cbn in Ht'. congruence.
Qed.

Lemma round_step_live now id t s s' v r o : tidy s -> id ∈ task_queue (scheduler_ s) ->
  tasks (scheduler_ s) !! id = Some t -> cancelled_ t = false ->
  now <= clock (ticks (scheduler_ s)) -> 1 <= v ->
  flags_only (set_scheduler (pop id (scheduler_ s)) s) s' -> o = expiry (callable_ t) (view s) -> view s' = o.2 ->
  tidy (put_back (clock (ticks (scheduler_ s')) + v) r id s') ->
  stepped now id s o (put_back (clock (ticks (scheduler_ s')) + v) r id s').
Proof.
  intros Hs Hin Ht Hcan Hnow Hv Hfl Ho Hview Htidy. pose proof Hfl as [Hft Hfq Hfr Hfk Hfc]. cbn in Hfq, Hfr, Hfk.
  destruct (td_tasks _ _ Hs id t Ht) as (_ & _ & Htask). specialize (Htask Hcan).
  destruct (tidy_pop id s Hs Hin) as [_ Hnin].
  assert (forall c, the_task c (put_back (clock (ticks (scheduler_ s')) + v) r id s') = the_task c s) as Hc.
  { intros c. transitivity (the_task c s'); [by destruct c|]. rewrite Hfc. by destruct c. }
  assert (now < clock (ticks (scheduler_ s')) + v) as Hlate by (rewrite Hfk; lia).
  assert (forall j, j <> id -> due_time_ <$> tasks (scheduler_ (put_back (clock (ticks (scheduler_ s')) + v) r id s')) !! j
    = due_time_ <$> tasks (scheduler_ s) !! j) as Hothers.
  { intros j Hj. cbn. rewrite lookup_alter_ne by done. by rewrite (flags_due _ _ j Hfl). }
  assert (exists t', tasks (scheduler_ s') !! id = Some t') as [t' Ht'].
  { pose proof (flags_due _ _ id Hfl) as Hd. cbn in Hd. rewrite Ht in Hd. destruct (tasks (scheduler_ s') !! id); [by eexists|done]. }
  split; [done|exact Hc|cbn; by rewrite Hfr|cbn; rewrite Hfk; lia| | | | |].
  - unfold due_now. set (s1 := put_back _ r id s'). change (task_queue (scheduler_ s1)) with (id :: task_queue (scheduler_ s')).
    rewrite Hfq, filter_cons_False.
    + apply list_filter_iff_in. intros j Hj. assert (j <> id) as Hne by congruence.
      specialize (Hothers j Hne). fold s1 in Hothers.
      unfold due_time. destruct (tasks (scheduler_ s1) !! j), (tasks (scheduler_ s) !! j); cbn in *; try done.
      by injection Hothers as ->.
    + unfold due_time, s1. cbn. rewrite lookup_alter_eq, Ht'. cbn. lia.
  - rewrite <- Hview. symmetry. apply view_scheduler. intros j. cbn. rewrite lookup_alter. case_decide; [subst j; by rewrite Ht'|done].
  - intros c Hct. assert (c = callable_ t) as ->.
    { destruct (td_own _ _ Hs c _ Hct) as (t0 & Ht0 & <- & _). cbn in Ht0. congruence. }
    split; [done|]. exists (clock (ticks (scheduler_ s')) + v). split; [|done].
    unfold deadline. rewrite Hc, Hct. cbn. by rewrite lookup_alter_eq, Ht'.
  - intros Hnone. by destruct (Hnone (callable_ t)).
  - intros c Hne. unfold deadline. rewrite Hc. destruct (the_task c s) as [h|]; [|done]. cbn [mbind option_bind].
    apply Hothers. intros <-. destruct Hne. by destruct h.
Qed.

Local Abbreviation loop := (execute_loop (run_callable actor options)).

Lemma loop_pass fuel now s id : tidy s -> election_timeout_task_ s <> None -> clock_ok (ticks (scheduler_ s)) ->
  now <= clock (ticks (scheduler_ s)) -> top (scheduler_ s) = Some id -> due_time (scheduler_ s) id <= now ->
  exists o s1, loop (S fuel) now s = after o.1 (loop fuel now s1) /\ stepped now id s o s1.
Proof.
  intros Hs Hst Hclock Hnow Htop Hdue. pose proof (top_spec (scheduler_ s)) as Hmin. rewrite Htop in Hmin. destruct Hmin as [Hin _].
  destruct (wf_queue _ (td_sched _ _ Hs) id Hin) as [t Ht].
  destruct (tidy_pop id s Hs Hin) as [Hpop Hnin].
  cbn [execute_loop]. rewrite run_get. cbn [sched machine_scheduler]. rewrite Htop, (proj2 (Z.leb_le _ _)) by done.
  rewrite run_on_sched. cbn [sched with_sched machine_scheduler]. unfold task_of at 1. rewrite Ht. run.
  destruct (cancelled_ t) eqn:Hcan; cbn [negb when].
  { run. exists ([], view s), (set_scheduler (pop id (scheduler_ s)) s). split; [cbn [fst]; by rewrite after_nil|]. by apply (round_step_cancelled now id t). }
  destruct (call_own id t _ Hpop Ht Hcan) as (s' & Hcall & Hview & Htidy & Hfl); [done|].
  pose proof Hfl as [_ Hq _ Hk _]. cbn in Hq, Hk.
  assert (exists t', tasks (scheduler_ s') !! id = Some t' /\ cancelled_ t' = false) as (t' & Ht' & Hcan').
  { pose proof (flags_lookup _ _ id Hfl) as Hl. cbn in Hl. rewrite Ht in Hl.
    destruct (tasks (scheduler_ s') !! id) as [t'|]; [|done]. exists t'. split; [done|]. injection Hl as _ _ _ _ ?. congruence. }
  destruct (put_back_ok id t' s' Htidy Ht' Hcan') as (v & r & Hrenew & [Hv _] & Hback); [by rewrite Hq|by rewrite Hk|].
  assert (view (set_scheduler (pop id (scheduler_ s)) s) = view s) as Hsame by by apply view_scheduler.
  rewrite Hsame in Hcall, Hview.
  exists (expiry (callable_ t) (view s)), (put_back (clock (ticks (scheduler_ s')) + v) r id s'). split.
  - rewrite run_bind_bind. erewrite run_bind_ok by exact Hcall. f_equal. rewrite run_bind_bind.
    erewrite run_on_sched_result by exact Hrenew. rewrite run_on_sched. by destruct s'.
  - by apply (round_step_live now id t s s' v r).
Qed.

Lemma loop_idle fuel now s : due_now now (scheduler_ s) = [] -> loop (S fuel) now s = ([], s, Ok tt).
Proof.
  intros Hidle. cbn [execute_loop]. rewrite run_get. cbn [sched machine_scheduler].
  pose proof (top_spec (scheduler_ s)) as Htop. destruct (top (scheduler_ s)) as [id|]; [|done].
  destruct Htop as [Hin _]. rewrite (proj2 (Z.leb_gt _ _)); [done|]. apply Z.nle_gt. intros Hdue.
  assert (id ∈ due_now now (scheduler_ s)) as Hid by by apply list_elem_of_filter.
  rewrite Hidle in Hid. by apply not_elem_of_nil in Hid.
Qed.

(** One timer's expiry leaves the other timer as it is. *)
Lemma fire_others c c' (n : Node) : c' <> c -> 0 <= n_term n -> status c' (fire c n).2 = status c' n.
Proof.
  intros Hne Ht. destruct c, c'; try done. cbn [fire status]. unfold handle_rule. destruct (n_blocked n); [done|].
  unfold catch_up. cbn [get_term]. rewrite (proj2 (Z.ltb_ge _ _)) by done. cbn [then_].
  unfold on_event, on_election_timeout, candidacy. destruct (n_role n); [..|done].
  all: by destruct (vote_for_leader _ _).
Qed.

Lemma fire_term c (n : Node) : 0 <= n_term n -> 0 <= n_term (fire c n).2.
Proof.
  intros Ht. destruct c; [|done]. cbn [fire]. unfold handle_rule. destruct (n_blocked n); [done|].
  unfold catch_up. cbn [get_term]. rewrite (proj2 (Z.ltb_ge _ _)) by done. cbn [then_].
  assert (0 <= u64 (n_term n + 1)) by by apply wrap_range.
  unfold on_event, on_election_timeout, candidacy. destruct (n_role n); [..|done].
  all: by destruct (vote_for_leader _ _).
Qed.

Lemma expiry_term c (n : Node) : 0 <= n_term n -> 0 <= n_term (expiry c n).2.
Proof. intros Ht. unfold expiry. case_decide; [by apply fire_term|done]. Qed.

Lemma expiry_others c c' (n : Node) : c' <> c -> 0 <= n_term n -> status c' (expiry c n).2 = status c' n.
Proof. intros Hne Ht. unfold expiry. case_decide; [by apply fire_others|done]. Qed.

(** What a round has done: the timers [cs] expired. *)
Record rounded now s (cs : list FsmCallable) s' : Prop := {
  rd_nodup : NoDup cs;
  rd_expired c : c ∈ cs <-> expired now c s = true;
  rd_view : view s' = (each fire cs (view s)).2;
  rd_tidy : tidy s';
  rd_task c : the_task c s' = the_task c s;
  rd_running : running (scheduler_ s') = running (scheduler_ s);
  rd_ticks : (ticks (scheduler_ s) <= ticks (scheduler_ s'))%nat;
  rd_kept c d : deadline c s = Some d -> now < d -> deadline c s' = Some d;
  rd_renewed c d : deadline c s = Some d -> d <= now -> exists d', deadline c s' = Some d' /\ now < d';
}.

Lemma deadline_own popped c h s : tidy_but popped s -> the_task c s = Some h -> exists t,
  tasks (scheduler_ s) !! task_ h = Some t /\ deadline c s = Some (due_time_ t) /\
  due_time (scheduler_ s) (task_ h) = due_time_ t.
Proof.
  intros Hs Hh. destruct (td_own _ _ Hs c h Hh) as (t & Ht & _). exists t. unfold deadline, due_time.
  rewrite Hh. cbn. by rewrite Ht.
Qed.

Lemma deadline_task c d s : deadline c s = Some d -> exists h, the_task c s = Some h.
Proof. unfold deadline. destruct (the_task c s) as [h|]; [by exists h|done]. Qed.

Lemma rounded_idle now s : tidy s -> due_now now (scheduler_ s) = [] -> rounded now s [] s.
Proof.
  intros Hs Hidle. assert (forall c d, deadline c s = Some d -> now < d) as Hlater.
  { intros c d Hd. destruct (deadline_task c d s Hd) as [h Hh]. destruct (td_own _ _ Hs c h Hh) as (_ & _ & _ & _ & [Hq|?]); [|done].
    destruct (deadline_own _ c h s Hs Hh) as (t & _ & Hd' & Hdue). apply Z.nle_gt. intros Hle.
    assert (task_ h ∈ due_now now (scheduler_ s)) as Hin by (apply list_elem_of_filter; split; [congruence|done]).
    rewrite Hidle in Hin. by apply not_elem_of_nil in Hin. }
  split; try done; [apply NoDup_nil_2| |].
  - intros c. split; [by intros ?%elem_of_nil|]. intros [_ Hd]%andb_prop. destruct (deadline c s) as [d|] eqn:Hdl; [|done].
    cbn in Hd. apply Z.leb_le in Hd. specialize (Hlater c d Hdl). lia.
  - intros c d Hd Hle. specialize (Hlater c d Hd). lia.
Qed.

Lemma expired_later now c s d : deadline c s = Some d -> now < d -> expired now c s = false.
Proof. intros Hd Hlt. unfold expired. rewrite Hd. cbn. rewrite (proj2 (Z.leb_gt _ _)) by done. apply andb_false_r. Qed.

(** A pass and then the rest of the round; [cs'] are the timers that have expired. *)
Lemma rounded_pass now id s o s1 cs cs' s' : stepped now id s o s1 -> rounded now s1 cs s' ->
  NoDup cs' -> (forall c, c ∈ cs' <-> expired now c s = true) -> view s' = (each fire cs' (view s)).2 ->
  (forall c d, the_task c s = Some (mkScheduledTask id) -> deadline c s = Some d -> d <= now) ->
  rounded now s cs' s'.
Proof.
  intros Hst Hrd Hnd Hcs Hv Hid.
  split; [done|done|done|apply Hrd|..].
  - intros c. rewrite (rd_task _ _ _ _ Hrd). apply (sp_task _ _ _ _ _ Hst).
  - rewrite (rd_running _ _ _ _ Hrd). apply (sp_running _ _ _ _ _ Hst).
  - pose proof (sp_ticks _ _ _ _ _ Hst). pose proof (rd_ticks _ _ _ _ Hrd). lia.
  - intros c d Hd Hlt. apply (rd_kept _ _ _ _ Hrd); [|done]. rewrite (sp_others _ _ _ _ _ Hst); [done|].
    intros Hc. specialize (Hid c d Hc Hd). lia.
  - intros c d Hd Hle. destruct (decide (the_task c s = Some (mkScheduledTask id))) as [Hc|Hc].
    + destruct (sp_own _ _ _ _ _ Hst c Hc) as (_ & d' & Hd' & Hlt). exists d'. split; [|done]. by apply (rd_kept _ _ _ _ Hrd).
    + apply (rd_renewed _ _ _ _ Hrd c d); [|done]. by rewrite (sp_others _ _ _ _ _ Hst).
Qed.

(** The task [id] is that of the timer [c]. *)
Lemma rounded_own now id c s o s1 cs s' : 0 <= n_term (view s) -> stepped now id s o s1 -> tidy s ->
  the_task c s = Some (mkScheduledTask id) -> due_time (scheduler_ s) id <= now -> rounded now s1 cs s' ->
  exists cs', rounded now s cs' s' /\ (each fire cs' (view s)).1 = o.1 ++ (each fire cs (view s1)).1.
Proof.
  intros Hterm Hst Hs Hc Hdue Hrd. destruct (deadline_own _ c _ s Hs Hc) as (t & _ & Hd & Hdt). cbn in Hdt.
  destruct (sp_own _ _ _ _ _ Hst c Hc) as (Ho & d1 & Hd1 & Hlt). pose proof (sp_view _ _ _ _ _ Hst) as Hv.
  assert (forall c', the_task c' s = Some (mkScheduledTask id) -> c' = c) as Honly.
  { intros c' Hc'. destruct (td_own _ _ Hs c _ Hc) as (t1 & Ht1 & <- & _).
    destruct (td_own _ _ Hs c' _ Hc') as (t2 & Ht2 & <- & _). cbn in *. congruence. }
  assert (forall c' d, the_task c' s = Some (mkScheduledTask id) -> deadline c' s = Some d -> d <= now) as Hid.
  { intros c' d ->%Honly Hd'. rewrite Hd in Hd'. injection Hd' as <-. lia. }
  assert (forall c', c' <> c -> expired now c' s1 = expired now c' s) as Hsame.
  { intros c' Hne. unfold expired. rewrite (sp_others _ _ _ _ _ Hst c') by (by intros ?%Honly).
    rewrite <- Hv, Ho, expiry_others by done. done. }
  assert (expired now c s1 = false) as Hno by by apply (expired_later now c s1 d1).
  pose proof (rd_expired _ _ _ _ Hrd) as Hcs. pose proof (rd_view _ _ _ _ Hrd) as Hv'. unfold expiry in Ho.
  destruct (decide (status c (view s) = Running)) as [Hrun|Hrun]; subst o.
  - exists (c :: cs). cbn [each]. rewrite then_fst, Hv. split; [|done].
    apply (rounded_pass now id s (fire c (view s)) s1 cs); [done|done| | |by cbn [each]; rewrite then_snd, Hv|done].
    + apply NoDup_cons. split; [|apply Hrd]. rewrite Hcs. congruence.
    + intros c'. rewrite elem_of_cons, Hcs. destruct (decide (c' = c)) as [->|Hne]; [|rewrite Hsame by done; by split; [intros [?|?]|right]].
      split; [intros _|by left]. unfold expired. rewrite Hd. cbn. rewrite (proj2 (Z.leb_le _ _)) by lia.
      by rewrite bool_decide_eq_true_2.
  - cbn in Hv. exists cs. rewrite <- Hv in Hv' |- *. split; [|done].
    apply (rounded_pass now id s ([], view s) s1 cs); [done|done|apply Hrd| |done|done].
    intros c'. rewrite Hcs. destruct (decide (c' = c)) as [->|Hne]; [|by rewrite Hsame].
    rewrite Hno. split; [done|]. unfold expired. by rewrite bool_decide_eq_false_2.
Qed.

(** It was cancelled. *)
Lemma rounded_none now id s o s1 cs s' : stepped now id s o s1 -> (forall c, the_task c s <> Some (mkScheduledTask id)) ->
  rounded now s1 cs s' -> rounded now s cs s' /\ (each fire cs (view s)).1 = o.1 ++ (each fire cs (view s1)).1.
Proof.
  intros Hst Hnone Hrd. pose proof (sp_none _ _ _ _ _ Hst Hnone) as Ho. pose proof (sp_view _ _ _ _ _ Hst) as Hv.
  subst o. cbn in Hv. rewrite <- Hv. split; [|done].
  apply (rounded_pass now id s ([], view s) s1 cs); [done|done|apply Hrd|..].
  - intros c. rewrite (rd_expired _ _ _ _ Hrd). unfold expired. by rewrite (sp_others _ _ _ _ _ Hst c), <- Hv.
  - rewrite Hv. apply Hrd.
  - intros c d Hc. by destruct (Hnone c).
Qed.

Lemma task_owner id s :
  (exists c, the_task c s = Some (mkScheduledTask id)) \/ (forall c, the_task c s <> Some (mkScheduledTask id)).
Proof.
  destruct (decide (the_task FireElectionTimeout s = Some (mkScheduledTask id))) as [He|He]; [left; by eexists|].
  destruct (decide (the_task SendHeartbeats s = Some (mkScheduledTask id))) as [Hh|Hh]; [left; by eexists|].
  right. by intros [].
Qed.

Lemma loop_rounds fuel now s : tidy s -> election_timeout_task_ s <> None -> 0 <= n_term (view s) ->
  clock_ok (ticks (scheduler_ s)) -> now <= clock (ticks (scheduler_ s)) ->
  (length (due_now now (scheduler_ s)) < fuel)%nat ->
  exists cs s', loop fuel now s = ((each fire cs (view s)).1, s', Ok tt) /\ rounded now s cs s'.
Proof.
  revert s. induction fuel as [|fuel IH]; intros s Hs Hst Hterm Hclock Hnow Hfuel; [lia|].
  destruct (decide (due_now now (scheduler_ s) = [])) as [Hidle|Hbusy].
  { exists [], s. split; [by apply loop_idle|by apply rounded_idle]. }
  pose proof (top_spec (scheduler_ s)) as Htop. destruct (top (scheduler_ s)) as [id|] eqn:Htop'.
  2: { unfold due_now in Hbusy. by rewrite Htop in Hbusy. }
  destruct Htop as [Hin Hmin].
  assert (due_time (scheduler_ s) id <= now) as Hdue.
  { apply list_choose in Hbusy as [j [Hle Hj]%list_elem_of_filter]. specialize (Hmin j Hj). lia. }
  destruct (loop_pass fuel now s id Hs Hst Hclock Hnow Htop' Hdue) as (o & s1 & Hrun & Hstep).
  pose proof (sp_ticks _ _ _ _ _ Hstep) as Hticks. pose proof (sp_view _ _ _ _ _ Hstep) as Hv.
  pose proof (sp_task _ _ _ _ _ Hstep FireElectionTimeout) as Htask. cbn in Htask.
  pose proof (due_now_top now _ id (td_sched _ _ Hs) Hin Hdue) as Hperm%Permutation_length.
  assert (0 <= n_term o.2) as Hterm1.
  { destruct (task_owner id s) as [[c Hc]|Hno].
    - destruct (sp_own _ _ _ _ _ Hstep c Hc) as [-> _]. by apply expiry_term.
    - by rewrite (sp_none _ _ _ _ _ Hstep Hno). }
  destruct (IH s1) as (cs & s' & Hloop & Hrd).
  - apply Hstep.
  - by rewrite Htask.
  - by rewrite <- Hv.
  - by apply (clock_ok_later (ticks (scheduler_ s))).
  - destruct (Hclock (ticks (scheduler_ s)) (ticks (scheduler_ s1)) ltac:(lia)). lia.
  - rewrite (sp_queue _ _ _ _ _ Hstep). cbn in Hperm. lia.
  - rewrite Hrun, Hloop. cbn [after].
    destruct (task_owner id s) as [[c Hc]|Hno].
    + destruct (rounded_own now id c s o s1 cs s') as (cs' & Hrd' & Heq); [done..|]. exists cs', s'. by rewrite Heq.
    + destruct (rounded_none now id s o s1 cs s') as [Hrd' Heq]; [done..|].
      exists cs, s'. by rewrite Heq.
Qed.

Lemma tidy_reads k r popped s : tidy_but popped s -> tidy_but popped (set_scheduler (set_env_reads k r (scheduler_ s)) s).
Proof.
  intros [[Hw Hq Hn] Hl Ht Hown]. split; cbn; [by split|done|..].
  - intros id t Hid. destruct (Ht id t Hid) as (Hm & Hi & Hc). split; [done|]. split; [done|]. intros Hcan.
    specialize (Hc Hcan). by destruct (callable_ t).
  - intros c h Hh. apply Hown. by destruct c.
Qed.

Lemma round_rounds s : tidy s -> election_timeout_task_ s <> None -> running (scheduler_ s) = true -> 0 <= term_ s ->
  clock_ok (ticks (scheduler_ s)) ->
  exists cs s', round s = ((each fire cs (view s)).1, s', Ok tt) /\
    rounded (clock (ticks (scheduler_ s))) (set_scheduler (set_env_reads (S (ticks (scheduler_ s))) (rands (scheduler_ s)) (scheduler_ s)) s) cs s'.
Proof.
  intros Hs Hst Hrun Hterm Hclock. set (now := clock (ticks (scheduler_ s))).
  set (s0 := set_scheduler (set_env_reads (S (ticks (scheduler_ s))) (rands (scheduler_ s)) (scheduler_ s)) s).
  destruct (loop_rounds (S (length (task_queue (scheduler_ s)))) now s0) as (cs & s' & Hloop & Hrd).
  - by apply tidy_reads.
  - done.
  - done.
  - apply (clock_ok_later (ticks (scheduler_ s))); [apply Nat.le_succ_diag_r|done].
  - cbn. destruct (Hclock (ticks (scheduler_ s)) (S (ticks (scheduler_ s))) ltac:(lia)). unfold now. lia.
  - apply Nat.lt_succ_r, length_filter.
  - exists cs, s'. split; [|done]. unfold round. rewrite run_get. unfold execute_due_tasks. rewrite run_get.
    cbn [sched machine_scheduler]. rewrite Hrun. erewrite run_on_sched_result by reflexivity. cbn [with_sched machine_scheduler].
    assert (view s0 = view s) as Hv by by apply view_scheduler. rewrite <- Hv, <- Hloop.
    destruct (Hclock (ticks (scheduler_ s)) (ticks (scheduler_ s)) ltac:(lia)).
    change (sched s) with (scheduler_ s). assert (u64 (clock (ticks (scheduler_ s))) = now) as -> by (apply wrap_small; unfold in_range; lia). done.
Qed.

(** ** Properties *)

(** C5. The executor implements the expiry of timers.  If the clock
    does not go back and the tasks are those of the state machine ([tidy]), a round of
    [execute_due_tasks] that nobody interrupts returns; it has the effects and leaves the node of the
    expiries of exactly those timers of the state machine that run and whose
    deadline has passed, each once; afterwards every deadline lies in the future,
    and those that had not passed are as they were. *)
Theorem round_fires s : tidy s -> election_timeout_task_ s <> None -> running (scheduler_ s) = true -> 0 <= term_ s ->
  clock_ok (ticks (scheduler_ s)) ->
  let now := clock (ticks (scheduler_ s)) in
  exists cs s', round s = ((each fire cs (view s)).1, s', Ok tt) /\ view s' = (each fire cs (view s)).2 /\ tidy s' /\
    NoDup cs /\ (forall c, c ∈ cs <-> expired now c s = true) /\
    forall c d, deadline c s = Some d -> exists d', deadline c s' = Some d' /\ now < d' /\ (now < d -> d' = d).
Proof.
  intros Hs Hst Hrun Hterm Hclock now. destruct (round_rounds s Hs Hst Hrun Hterm Hclock) as (cs & s' & Hround & Hrd).
  destruct Hrd as [Hnd Hcs Hv Htidy _ _ _ Hkept Hrenewed].
  exists cs, s'. split; [done|]. split; [done|]. split; [done|]. split; [done|]. split; [intros c; rewrite Hcs; by destruct c|].
  intros c d Hd. assert (deadline c (set_scheduler (set_env_reads (S (ticks (scheduler_ s))) (rands (scheduler_ s)) (scheduler_ s)) s) = Some d)
    as Hd0 by (rewrite <- Hd; by destruct c).
  destruct (Z.lt_ge_cases now d) as [Hlt|Hle].
  - exists d. split; [by apply Hkept|done].
  - destruct (Hrenewed c d Hd0 Hle) as (d' & Hd' & Hlt). exists d'. split; [done|]. split; [done|lia].
Qed.

(** *** Heartbeats and elections *)

Definition deadline_after (lo d0 : Z) s : Prop := exists d, deadline FireElectionTimeout s = Some d /\ d0 + lo <= d.

(** [reset_election_timeout] changes the task and its deadline only. *)
Lemma reset_puts_off h s : tidy s -> clock_ok (ticks (scheduler_ s)) -> election_timeout_task_ s = Some h ->
  exists s', reset_election_timeout s = ([] : list (FsmEffect Addr), s', Ok tt) /\
    set_scheduler (scheduler_ s) (set_election_task (Some h) s') = s /\
    running (scheduler_ s') = running (scheduler_ s) /\ ticks (scheduler_ s') = S (ticks (scheduler_ s)) /\
    deadline_after (opt_election_timeout options).1 (clock (ticks (scheduler_ s))) s'.
Proof.
  intros Hs Hclock Hh. destruct (td_own _ _ Hs FireElectionTimeout h Hh) as (task & Htask & Hcall & _).
  destruct (td_tasks _ _ Hs _ task Htask) as (_ & Hint & _). rewrite Hcall in Hint.
  destruct (reset_ok h (scheduler_ s) task (td_sched _ _ Hs) Htask) as (v & r & due & Hv & -> & Hreset).
  eexists. split.
  { unfold reset_election_timeout. rewrite run_get, Hh. cbn [deref]. rewrite run_lift.
    unfold ts_reset. cbn [scheduler_timer_ops]. rewrite Hreset, run_lift. reflexivity. }
  split; [rewrite <- Hh; by destruct s|]. split; [done|]. split; [done|].
  destruct (Hclock (ticks (scheduler_ s)) (ticks (scheduler_ s)) ltac:(lia)).
  pose proof (election_interval_range (rands (scheduler_ s))) as Hrange. unfold deadline_after, deadline. cbn.
  rewrite lookup_insert_eq. cbn.
  destruct (opt_election_timeout options) as [lo hi]. destruct Hrange as (v' & Hv' & Hb & Hmax). cbn in Hlo |- *.
  rewrite Hint in Hv. cbn in Hv. rewrite Hv' in Hv. injection Hv as -> _.
  exists (clock (ticks (scheduler_ s)) + v). split; [|lia].
  rewrite (wrap_small 64 (clock _)) by (unfold in_range; lia). by rewrite wrap_small by (unfold in_range; lia).
Qed.

Lemma started_task s : tidy s -> election_timeout_task_ s <> None -> started (view s).
Proof.
  intros Hs Hst. unfold started. change (n_election (view s)) with (status FireElectionTimeout (view s)).
  destruct (election_timeout_task_ s) as [h|] eqn:Hh; [|done].
  destruct (td_own _ _ Hs FireElectionTimeout h Hh) as (t & Ht & Hc & Hcan & _).
  rewrite <- Hc, (status_running None (task_ h) t) by done. by destruct (paused_ t).
Qed.

(** A heartbeat of the term puts the deadline off. *)
Lemma heartbeat_heard from t s : tidy s -> clock_ok (ticks (scheduler_ s)) -> role_ s = follower -> term_ s = t ->
  blocked_ s = false -> election_timeout_task_ s <> None -> is_Some (get_peer actor from) ->
  exists s', handle actor options (AppendEntriesReq from t) s
      = (reply actor (AppendEntriesReq from t) (AppendEntriesRes (self actor) t), s', Ok tt) /\
    view s' = view s /\ tidy s' /\ running (scheduler_ s') = running (scheduler_ s) /\
    ticks (scheduler_ s') = S (ticks (scheduler_ s)) /\
    deadline_after (opt_election_timeout options).1 (clock (ticks (scheduler_ s))) s'.
Proof.
  intros Hs Hclock Hrole Hterm Hblk Hst Hpeer. destruct (election_timeout_task_ s) as [h|] eqn:Hh; [|done].
  destruct (reset_puts_off h s Hs Hclock Hh) as (s' & Hrun & Hback & Hr & Hk & Hd).
  assert (handle actor options (AppendEntriesReq from t) s
      = (reply actor (AppendEntriesReq from t) (AppendEntriesRes (self actor) t), s', Ok tt)) as Hhandle.
  { destruct Hpeer as [to Hto]. unfold handle. rewrite run_get, Hblk. unfold handle_locked. rewrite run_get.
    cbn [get_term]. rewrite (proj2 (Z.ltb_ge _ _)) by lia. cbn [when]. rewrite run_ret.
    unfold handle_append_entries. cbn [is_heartbeat]. rewrite run_get. unfold is_stale. cbn [get_term].
    rewrite (proj2 (Z.ltb_ge t (term_ s))) by lia. cbn [negb when].
    rewrite Hrole, (bool_decide_eq_true_2 (_ \/ _)) by (by right). cbn [when]. rewrite run_bind_bind.
    erewrite run_bind_ok by exact Hrun. rewrite after_nil. rewrite bool_decide_eq_false_2 by done. cbn [when]. rewrite run_ret, run_get.
    unfold peer_address, reply. cbn [get_server_id]. rewrite Hto. cbn [deref]. rewrite run_lift. unfold send, emit.
    assert (term_ s' = term_ s) as -> by by rewrite <- Hback. by rewrite Hterm. }
  exists s'. split; [done|]. split; [|split; [|done]].
  - destruct (handled actor options Hopt (AppendEntriesReq from t) s (tidy_wf _ _ Hs)) as (s2 & Hrun2 & Hv2 & _);
      [apply started_task; [done|by rewrite Hh]|done|].
    rewrite Hhandle in Hrun2. injection Hrun2 as _ <-. rewrite Hv2. unfold handle_rule, catch_up, on_event, on_append_entries.
    cbn [n_blocked n_term n_role view get_term]. rewrite Hblk, (proj2 (Z.ltb_ge _ _)) by lia. cbn [then_].
    unfold stale. cbn [n_term view n_role]. by rewrite Hrole, bool_decide_eq_false_2, andb_false_r by done.
  - pose proof (handle_tidy None (AppendEntriesReq from t) s Hs) as Htidy. by rewrite Hhandle in Htidy.
Qed.

(** A round before the deadline. *)
Lemma round_waits s : tidy s -> election_timeout_task_ s <> None -> running (scheduler_ s) = true -> 0 <= term_ s ->
  clock_ok (ticks (scheduler_ s)) -> n_heartbeat (view s) <> Running ->
  (exists d, deadline FireElectionTimeout s = Some d /\ clock (ticks (scheduler_ s)) < d) ->
  exists s', round s = ([], s', Ok tt) /\ view s' = view s /\ tidy s' /\ running (scheduler_ s') = true /\
    (ticks (scheduler_ s) < ticks (scheduler_ s'))%nat /\ deadline FireElectionTimeout s' = deadline FireElectionTimeout s.
Proof.
  intros Hs Hst Hrun Hterm Hclock Hhb (d & Hd & Hlt).
  destruct (round_rounds s Hs Hst Hrun Hterm Hclock) as (cs & s' & Hround & [Hnd Hcs Hv Htidy _ Hr Hk Hkept _]).
  assert (cs = []) as ->.
  { destruct cs as [|c cs]; [done|]. exfalso. assert (c ∈ c :: cs) as Hc%Hcs by by left. unfold expired in Hc.
    apply andb_prop in Hc as [Hst'%bool_decide_eq_true Hdl]. destruct c; [|done].
    change (deadline FireElectionTimeout (set_scheduler _ s)) with (deadline FireElectionTimeout s) in Hdl. rewrite Hd in Hdl.
    cbn in Hdl. apply Z.leb_le in Hdl. lia. }
  exists s'. split; [done|]. split; [done|]. split; [done|]. split; [by rewrite Hr|]. split; [cbn in Hk; lia|].
  rewrite Hd. by apply Hkept.
Qed.

(** What happens at a follower of the term: it hears a heartbeat, or the executor
    goes round. *)
Inductive Tick := Heard (from : Z) | Round.

Definition tick (t : Z) (k : Tick) : M unit :=
  match k with Heard from => handle actor options (AppendEntriesReq from t) | Round => round end.

Definition answers (t : Z) (ks : list Tick) : list (FsmEffect Addr) :=
  ks ≫= (fun k => match k with Heard from => reply actor (AppendEntriesReq from t) (AppendEntriesRes (self actor) t) | Round => [] end).

(** Every round reads a clock less than the lower timeout after the last heartbeat
    ([last], and then the clock at each heartbeat). *)
Fixpoint punctual (t last : Z) (ks : list Tick) s : bool :=
  match ks with
  | [] => true
  | k :: ks =>
      let now := clock (ticks (scheduler_ s)) in
      let s' := (tick t k s).1.2 in
      match k with
      | Heard _ => punctual t now ks s'
      | Round => (now <? last + (opt_election_timeout options).1) && punctual t last ks s'
      end
  end.

(** C11. Heartbeats in time keep a follower.  A follower that hears heartbeats of
    its term, so that every round of the executor falls within the lower election
    timeout of the last one, answers them, stands for no election, whatever
    timeouts [rand] draws, and is in the end in role, term and vote as before.  The
    clock must not go back. *)
Theorem timely_heartbeats_keep_follower t last ks s : tidy s -> running (scheduler_ s) = true -> 0 <= t ->
  clock_ok (ticks (scheduler_ s)) -> role_ s = follower -> term_ s = t -> blocked_ s = false ->
  n_heartbeat (view s) <> Running -> deadline_after (opt_election_timeout options).1 last s ->
  (forall from, Heard from ∈ ks -> is_Some (get_peer actor from)) -> punctual t last ks s = true ->
  exists s', for_each (tick t) ks s = (answers t ks, s', Ok tt) /\ view s' = view s /\ tidy s'.
Proof.
  revert last s. induction ks as [|k ks IH]; intros last s Hs Hrun Ht Hclock Hrole Hterm Hblk Hhb Hd Hpeers Hpunct; [by exists s|].
  assert (election_timeout_task_ s <> None) as Hst.
  { destruct Hd as (d & [h Hh]%deadline_task & _). cbn in Hh. by rewrite Hh. }
  assert (exists s1 last', tick t k s = (answers t [k], s1, Ok tt) /\ view s1 = view s /\ tidy s1 /\
    running (scheduler_ s1) = true /\ (ticks (scheduler_ s) <= ticks (scheduler_ s1))%nat /\
    deadline_after (opt_election_timeout options).1 last' s1 /\ punctual t last' ks s1 = true)
    as (s1 & last' & Htick & Hv & Hs1 & Hrun1 & Hk & Hd1 & Hp1).
  { destruct k as [from|]; cbn [punctual tick] in *.
    - destruct (heartbeat_heard from t s) as (s1 & Hh & Hv & Hs1 & Hr & Hk & Hd1); [done..|apply Hpeers; by left|].
      exists s1, (clock (ticks (scheduler_ s))). rewrite Hh in Hpunct |- *. cbn in Hpunct. unfold answers. cbn. rewrite app_nil_r.
      split; [done|]. split; [done|]. split; [done|]. split; [congruence|]. split; [lia|done].
    - apply andb_prop in Hpunct as [Hnow%Z.ltb_lt Hpunct]. destruct Hd as (d & Hd & Hle).
      destruct (round_waits s Hs Hst Hrun) as (s1 & Hh & Hv & Hs1 & Hr & Hk & Hd1); [lia|done|done|exists d; split; [done|lia]|].
      exists s1, last. rewrite Hh in Hpunct |- *. cbn in Hpunct. split; [done|]. split; [done|]. split; [done|]. split; [done|].
      split; [lia|]. split; [|done]. exists d. by rewrite Hd1. }
  assert (role_ s1 = role_ s /\ term_ s1 = term_ s /\ blocked_ s1 = blocked_ s) as (Hr1 & Ht1 & Hb1).
  { unfold view in Hv. by injection Hv. }
  destruct (IH last' s1) as (s' & Hall & Hv' & Hs'); [done|done|done|..|done|].
  - by apply (clock_ok_later (ticks (scheduler_ s))).
  - congruence.
  - congruence.
  - congruence.
  - by rewrite Hv.
  - done.
  - intros from Hin. apply Hpeers. by right.
  - exists s'. cbn [for_each]. erewrite run_bind_ok by exact Htick. rewrite Hall. split; [|split; [congruence|done]].
    cbn [after]. unfold answers. cbn. by rewrite app_nil_r.
Qed.

(** C12. Silence starts an election: the first round at or after the deadline makes
    a follower or candidate a candidate of the next term that asks every other
    server for its vote, and nothing else.  The clock must not go back. *)
Theorem silence_starts_election d s : tidy s -> running (scheduler_ s) = true -> 0 <= term_ s ->
  clock_ok (ticks (scheduler_ s)) -> role_ s <> leader -> blocked_ s = false ->
  n_election (view s) = Running -> n_heartbeat (view s) <> Running ->
  deadline FireElectionTimeout s = Some d -> d <= clock (ticks (scheduler_ s)) ->
  exists s', round s = (broadcast actor (RequestVoteReq (self actor) (u64 (term_ s + 1))), s', Ok tt) /\
    role_ s' = candidate /\ term_ s' = u64 (term_ s + 1) /\ tidy s' /\
    exists d', deadline FireElectionTimeout s' = Some d' /\ clock (ticks (scheduler_ s)) < d'.
Proof.
  intros Hs Hrun Hterm Hclock Hrole Hblk Hel Hhb Hd Hle.
  assert (election_timeout_task_ s <> None) as Hst by (destruct (deadline_task _ _ _ Hd) as [h Hh]; cbn in Hh; by rewrite Hh).
  destruct (round_rounds s Hs Hst Hrun Hterm Hclock) as (cs & s' & Hround & [Hnd Hcs Hv Htidy _ _ _ _ Hrenewed]).
  assert (forall c, c ∈ cs <-> c = FireElectionTimeout) as Hin.
  { intros c. rewrite Hcs. unfold expired. destruct c; cbn [status].
    - change (deadline FireElectionTimeout (set_scheduler _ s)) with (deadline FireElectionTimeout s). rewrite Hd. cbn [from_option].
      split; [done|]. intros _. by rewrite (proj2 (Z.leb_le _ _)), bool_decide_eq_true_2.
    - split; [|done]. intros [Hst'%bool_decide_eq_true _]%andb_prop. by destruct Hhb. }
  assert (cs = [FireElectionTimeout]) as ->.
  { destruct cs as [|c cs]; [exfalso; by apply (not_elem_of_nil FireElectionTimeout), Hin|].
    assert (c = FireElectionTimeout) as -> by (apply Hin; by left). destruct cs as [|c cs]; [done|].
    assert (c = FireElectionTimeout) as -> by (apply Hin; right; by left). apply NoDup_cons in Hnd as [Hnd _]. destruct Hnd. by left. }
  assert (each fire [FireElectionTimeout] (view s) = candidacy actor (view s)) as Heach.
  { cbn [each fire]. unfold handle_rule, catch_up. cbn [n_blocked view n_term get_term]. rewrite Hblk, (proj2 (Z.ltb_ge _ _)) by done.
    cbn [then_]. unfold on_event, on_election_timeout. cbn [n_role view].
    destruct (role_ s); [..|done]; destruct (candidacy actor (view s)) as [es n]; cbn; by rewrite !app_nil_r. }
  exists s'. rewrite Hround. change (view (set_scheduler _ s)) with (view s) in Hv. rewrite Heach in *. unfold candidacy in *. cbn [n_term n_voter view] in *.
  destruct (vote_for_leader _ _) as [voted voter]. cbn [fst snd] in *. split; [done|]. unfold view in Hv. injection Hv as _ Hr Ht _ _ _ _.
  split; [done|]. split; [done|]. split; [done|]. by apply (Hrenewed FireElectionTimeout d).
Qed.

End timing.

(** ** Examples *)

Section examples.
#[local] Existing Instance example_env.
#[local] Existing Instance example_env_ok.

Lemma example_clock_ok k : clock_ok k.
Proof. intros i j Hij. cbn. lia. Qed.

Lemma sample_tidy : tidy sample_options sample_fsm.
Proof.
  pose proof (start_tidy (Addr := RemoteRaftActorAddress) sample_options sample_options_ok None (new_RaftFSM new_scheduler)) as Hs.
  apply Hs, new_tidy.
Qed.

(** The same server after the clock has been read two hundred times. *)
Definition late_fsm : machine := set_scheduler (set_env_reads 200 1 (scheduler_ sample_fsm)) sample_fsm.

Lemma late_tidy : tidy sample_options late_fsm.
Proof. apply tidy_reads, sample_tidy. Qed.

Lemma sample_rate : 1 <= heart_beat_rate sample_options < 2 ^ 63.
Proof. by vm_compute. Qed.

Lemma round_fires_witness :
  exists cs s', round five_options sample_options late_fsm = ((each (fire five_options sample_options) cs (view late_fsm)).1, s', Ok tt) /\
    FireElectionTimeout ∈ cs.
Proof.
  destruct (round_fires five_options sample_options sample_options_ok ltac:(by vm_compute) sample_rate late_fsm)
    as (cs & s' & Hround & _ & _ & _ & Hcs & _); [exact late_tidy|by vm_compute|by vm_compute|by vm_compute|exact (example_clock_ok _)|].
  exists cs, s'. split; [exact Hround|]. apply Hcs. by vm_compute.
Defined.

Definition busy_ticks : list Tick := [Heard 2; Round; Round; Heard 2; Round].

Lemma timely_heartbeats_keep_follower_witness :
  exists s', for_each (tick five_options sample_options 0) busy_ticks sample_fsm = (answers five_options 0 busy_ticks, s', Ok tt) /\
    view s' = view sample_fsm /\ tidy sample_options s'.
Proof.
  apply (timely_heartbeats_keep_follower five_options sample_options sample_options_ok ltac:(by vm_compute) sample_rate 0 1000 busy_ticks sample_fsm).
  - exact sample_tidy.
  - by vm_compute.
  - lia.
  - exact (example_clock_ok _).
  - by vm_compute.
  - by vm_compute.
  - by vm_compute.
  - by vm_compute.
  - exists 1157. split; [by vm_compute|]. vm_compute. discriminate.
  - intros from Hin. assert (from = 2) as ->.
    { repeat (apply elem_of_cons in Hin as [Hin|Hin]; [first [discriminate Hin|injection Hin as ->; reflexivity]|]).
      by apply elem_of_nil in Hin. }
    vm_compute. by eexists.
  - by vm_compute.
Defined.

Lemma silence_starts_election_witness :
  exists s', round five_options sample_options late_fsm = (broadcast five_options (RequestVoteReq 1 1), s', Ok tt) /\
    role_ s' = candidate /\ term_ s' = 1 /\ tidy sample_options s' /\
    exists d', deadline FireElectionTimeout s' = Some d' /\ 1200 < d'.
Proof.
  apply (silence_starts_election five_options sample_options sample_options_ok ltac:(by vm_compute) sample_rate 1157 late_fsm).
  - exact late_tidy.
  - by vm_compute.
  - by vm_compute.
  - exact (example_clock_ok _).
  - by vm_compute.
  - by vm_compute.
  - by vm_compute.
  - by vm_compute.
  - by vm_compute.
  - vm_compute. discriminate.
Defined.
End examples.
